(* ===== verification/_CoqProject ===== *)
-Q . S2P
Prelude.v
RustStd.v
Identifier.v
Policy.v
Decision.v
AttemptPolicy.v
Key.v
Check.v
Observation.v
Gcra.v
OrdSet.v
MemConfig.v
Shards.v
BoundedShards.v
Counters.v
Limiter.v
Ledger.v
Windows.v
MemStore.v
MemStoreTrace.v
MemGcra.v
MemGcraTrace.v
Retry.v
MemAttempts.v
Draft11.v
AxumLayer.v
AxumTrace.v
PgErrors.v
PgConfig.v
PgSession.v
PgTables.v
PgLedger.v
PgAdmission.v
PgMaintenance.v
PgInvariant.v
PgConnection.v
PgLimiter.v
PgSpec.v
PgHonest.v
PgServed.v
PgAnyServer.v
PgRefine.v
PgEffect.v
PgTypes.v
PgTrace.v
PgCharges.v
PgRate.v
PgLocks.v
PgGcra.v
PgGcraCertain.v
PgGcraSpec.v
PgGcraTables.v
PgGcraRefine.v
PgGcraTypes.v
PgGcraEffect.v
PgGcraRate.v
PgGcraTruth.v
PgAttempts.v
PgAttemptCertain.v
PgAttemptSpec.v
PgAttemptRefine.v
PgAttemptTypes.v
PgAttemptEffect.v
PgAttemptHost.v
PgAttemptTrace.v
PgAttemptFence.v
Redaction.v
PgBounded.v
PgMigrate.v
PgCancel.v
PgAxum.v
