(* ===== verification/Prelude.v ===== *)
(** Runlimit: a verification development of the [runlimit] crates.

    * What the program is

    [runlimit] is a rate limiter in six crates.  [runlimit-core] holds the
    vocabulary: policies and their fingerprints, subject keys, checks,
    decisions and their wire forms, the pure GCRA transition, observations,
    and the [Limiter] trait.  [runlimit-memory] keeps counters in sharded,
    hard-bounded process memory: a fixed-window store, a GCRA store, and a
    store of outcome-aware attempts.  [runlimit-postgres] keeps the same three
    kinds of counters in PostgreSQL tables, through transactions whose every
    wait is bounded and whose every reply is checked.  [runlimit-http] encodes
    the draft-11 header fields and [runlimit-axum] gates a service with a
    limiter.

    * Which file models what

    Foundations.  This file has the notations, tactics and list lemmas all
    files share; [RustStd] the machine integers, [Result], panics ([Outcome]),
    [Duration], strings and decimal text the crates use; [OrdSet] a
    [BTreeSet] and lexicographic [Ord].

    Core ([src/crates/runlimit-core/src]).  [Identifier], [Policy],
    [AttemptPolicy] ([attempts.rs]), [Key] ([key.rs], [counter.rs]), [Check]
    ([check.rs], [batch.rs]), [Decision], [Observation], [Gcra], [Limiter]
    model the files of the same names, with the source's constructors and one
    definition per function.  [Limiter] has the trait as a class of state
    transformers, and [CounterLimiter], what a backend that keeps counters
    promises to clients that never look inside.  [Redaction] is what the
    [Display] and [Debug] implementations of all crates print, through the
    builders of [std::fmt].

    Memory ([src/crates/runlimit-memory/src]).  [MemConfig] is [config.rs];
    [Shards] and [BoundedShards] are [shards.rs]: a shard with its expiration
    index, the mutexes, poisoning and recovery, and the lock topology of a
    batch.  [Counters] is the interface of a quota algorithm ([QuotaAlgorithm])
    and carries facts about locked shards to facts about the store; [MemStore]
    ([store.rs]) and [MemGcra] ([gcra.rs]) are proved against it.  [Ledger]
    accounts what a run of calls charges, for any [CounterLimiter], and
    [Windows] what anchored windows and what callers were told amount to;
    [MemStoreTrace] and [MemGcraTrace] apply them; [Retry] follows a denied
    client that asks again.  [MemAttempts] is
    [attempts.rs] with its per-key state machine.  A store is a state
    transformer; each operation holds its locks from its first read to its
    last write, so concurrent calls are sequences of operations, and a panic
    in a critical section poisons what was held.

    HTTP and axum.  [Draft11] is [runlimit-http/src/draft_11.rs], against a
    reader of the Structured Field grammar.  [AxumLayer] is
    [runlimit-axum/src/lib.rs] against [Limiter]; [AxumTrace] composes it with
    a memory store.

    PostgreSQL ([src/crates/runlimit-postgres/src]).  [PgErrors] and
    [PgConfig] are [errors.rs] and [config.rs].  [PgSession] is the
    transaction as its client sees it ([CheckTransaction] and the helpers of
    [admission.rs], [protocol.rs]) and [PgConnection] one call around it
    ([lib.rs]).  The server and the network are a schedule: each interaction
    takes one [Step], which says what the client's clock shows, whether a
    reply arrives before the deadline, which, and whether an unacknowledged
    commit took effect.  A transaction works on a copy of the tables that its
    commit publishes.  [PgSession.quiet] and [certain] state what a
    transaction may do to the committed tables and to the connection;
    [PgInvariant] carries an invariant of the tables through any transaction;
    Servers come in three kinds: [PgHonest] answers from its tables before
    the deadline; [PgServed] answers from its tables when it answers at all,
    while replies get lost, clocks jump and unacknowledged commits may have
    taken effect, with a Hoare logic of transactions ([triple], [settles]);
    and nothing is known of those of [PgAnyServer], whose two logics tell what
    a success returns without a panic ([safely]) and how many interactions a
    transaction takes ([takes]).  All are generic in the tables and
    statements.  Three backends use them.

    - Fixed windows: [PgTables] (tables, constraints, triggers and statements:
      [migrations], [protocol.rs], [cleanup_expired.sql]), [PgAdmission] and
      [PgMaintenance] (transactions), [PgLimiter] (calls and certainty),
      [PgLedger] and [PgTrace] (exact capacity ledger), [PgSpec] and
      [PgRefine] (the table-level specification and its refinement on honest
      servers), [PgEffect] (the same on served ones), [PgCharges] and [PgRate]
      (runs of calls and their rate bound), [PgTypes] (decisions on any
      server), [PgLocks] (the lock order, as a step relation of concurrent
      lockers).
    - GCRA ([gcra.rs], [gcra-migrations]): [PgGcra], [PgGcraCertain],
      [PgGcraSpec], [PgGcraTables], [PgGcraRefine], [PgGcraEffect],
      [PgGcraRate], [PgGcraTruth], [PgGcraTypes].
    - Attempts ([attempts.rs], [attempt_complete.sql], [attempt_cleanup.sql],
      [attempts-migrations]): [PgAttempts], [PgAttemptCertain],
      [PgAttemptSpec], [PgAttemptRefine], [PgAttemptTypes],
      [PgAttemptEffect], [PgAttemptHost] (host transactions that claim,
      finish and complete attempts), [PgAttemptTrace], [PgAttemptFence].

    Over all three, [PgBounded] counts the interactions of the calls,
    [PgCancel] drops a call's future at any of its awaits, [PgMigrate] is the
    connection that [migrate] runs the migrations on, and [PgAxum] makes the
    limiters the backends of axum layers.

    * What the theorems show

    - Rate bounds: over any run of checks and batches, what a store admits
      for a counter ([fixed_window_rate_bound], [gcra_store_rate_bound],
      [gcra_rate_bound]), what a service behind a layer sees
      ([axum_traffic_bound]), what any number of limiters sharing a
      PostgreSQL database admit together over a lossy network, in the time of
      the server, read off the tables themselves
      ([pg_fixed_window_rate_bound], [pg_gcra_rate_bound]), and
      what the services of a fleet behind them see ([pg_axum_traffic_bound],
      [pg_axum_gcra_bound]).
    - Denied clients: [retry_after] is exact.  A client that waits for it is
      not denied again, one that does not is ([fixed_window_retry_after],
      [gcra_retry_after]).
    - Refinement: each memory operation implements the abstract counter of
      its key and touches no other ([fixed_window_check_refines],
      [gcra_check_refines], their batch forms, [attempt_admit_refines],
      [attempt_complete_refines]); [evaluate] implements a token bucket; each
      PostgreSQL transaction implements its table-level specification
      ([pg_check_all_refines], [pg_check_refines],
      [pg_gcra_check_all_refines], and over a lossy network
      [pg_check_all_lossy]), for attempts the state machine of the
      memory store ([pg_attempt_admission_refines],
      [pg_attempt_completion_refines]).
    - Certainty: with arbitrary replies, lost connections, passed deadlines
      and uncertain commits, what a PostgreSQL call returns and reports to its
      observer is true of the committed tables, and only an answered
      connection is reused ([pg_check_certain], [pg_check_all_certain],
      [pg_cleanup_certain], [pg_gcra_certain], [pg_attempts_certain]).
    - Cancellation: a call dropped while it waits for any reply has left the
      committed tables alone, or has done all the completed call does, and its
      connection is closed ([pg_cancellation_atomic]).
    - Malformed replies: no reply makes a PostgreSQL call panic or return a
      result of the wrong type ([pg_decisions_typed],
      [pg_gcra_decisions_typed], [pg_attempts_typed]), and every call ends
      within a constant number of interactions ([pg_calls_end]).
    - Safety and progress: receipts are used once
      ([attempt_receipts_single_use]), attempts of a key exclude each other
      across processes for the time of a lease and are redeemed at most once,
      host transactions included ([pg_attempts_exclusive]), claims are fenced to their transaction
      ([pg_attempt_claim_fences]), the capacity ledger is exact in every
      reachable state ([pg_capacity_ledger_exact], [pg_gcra_tables_exact]),
      concurrent transactions never deadlock ([pg_locks_deadlock_free]).
    - Encodings, bounds and validation: fingerprints and subject preimages
      are injective and separated, decisions survive their wire form and nothing
      else is read, header
      fields read back, configurations keep their bounds, batches are
      validated in order, poisoned shards fail closed, [Debug] texts depend
      on no secret ([debug_redacts]), migrations leave no lock behind
      ([migrate_leaks_no_lock]).

    * Parameters, bounds and fuel

    SHA-256, HMAC ([Mac]), [http]'s header types, [sqlx]'s errors
    ([SqlxError]) and intervals ([PgIntervals]) are parameters with their
    documented laws.  Decimal text is written with fuel 40, enough for every
    [u128]; other loops are structural.  Honest PostgreSQL runs have the
    number of interactions the transactions make: 20 for a quota, 26 at most
    for an attempt admission, 8 for a completion; [PgBounded] shows that no
    server makes them longer.  Refinements over GCRA and
    attempts ask that the server's time plus the longest portable window (or
    three of them) fits [i64]; attempts that the server's clock does not go
    back, GCRA nothing, since its time is clamped.

    * Not modelled

    PostgreSQL transactions run one at a time on their copy of the tables:
    isolation is what their locks provide, and the locks themselves appear in
    [PgLocks] only; [SKIP LOCKED] skips nothing.  The pool's own machinery and
    the migrations [sqlx] applies are parameters: the tables start with the
    columns, constraints and triggers the migration files declare.  The axum
    service's future is its result, not its polling.  The [Debug] texts of the
    PostgreSQL limiters (which print a pool), the system clock, plain
    accessors, the smoke test of an external consumer, scripts and CI are left
    out. *)

From stdpp Require Export prelude base list option gmap sets.
From Stdlib Require Export ZArith Lia.
#[export] Set Default Goal Selector "!".
Open Scope Z_scope.

(** * Notations and tactics *)

Declare Scope runlimit_scope.
Delimit Scope runlimit_scope with runlimit.
Notation "a <=? b <=? c" := ((a <=? b) && (b <=? c))%bool
  (at level 70, b at next level) : runlimit_scope.

Ltac Zify.zify_post_hook ::= Z.div_mod_to_equations.

Create HintDb runlimit discriminated.

(** One case distinction on an integer comparison of the goal or a
    hypothesis, recorded as an arithmetic fact. *)
Ltac case_cmp :=
  match goal with
  | |- context [ (?a <=? ?b)%Z ] => destruct (Z.leb_spec a b)
  | |- context [ (?a <? ?b)%Z ] => destruct (Z.ltb_spec a b)
  | |- context [ (?a =? ?b)%Z ] => destruct (Z.eqb_spec a b)
  | H : context [ (?a <=? ?b)%Z ] |- _ => destruct (Z.leb_spec a b)
  | H : context [ (?a <? ?b)%Z ] |- _ => destruct (Z.ltb_spec a b)
  | H : context [ (?a =? ?b)%Z ] |- _ => destruct (Z.eqb_spec a b)
  end.

Ltac bool_prop :=
  repeat match goal with
  | H : andb _ _ = true |- _ => apply andb_prop in H; destruct H
  | H : orb _ _ = false |- _ => apply orb_false_elim in H; destruct H
  | H : negb _ = true |- _ => apply negb_true_iff in H
  | H : negb _ = false |- _ => apply negb_false_iff in H
  | H : (_ <=? _)%Z = true |- _ => apply Z.leb_le in H
  | H : (_ <=? _)%Z = false |- _ => apply Z.leb_gt in H
  | H : (_ <? _)%Z = true |- _ => apply Z.ltb_lt in H
  | H : (_ <? _)%Z = false |- _ => apply Z.ltb_ge in H
  | H : (_ =? _)%Z = true |- _ => apply Z.eqb_eq in H
  | H : (_ =? _)%Z = false |- _ => apply Z.eqb_neq in H
  end.

(** Splits every conjunction and existential among the hypotheses. *)
Ltac destr_hyps :=
  repeat match goal with
  | H : _ /\ _ |- _ => destruct H
  | H : exists _, _ |- _ => destruct H
  end.

(** * Generic lemmas on lists *)

(** Sum of a list of integers. *)
Definition zsum (l : list Z) : Z := foldr Z.add 0 l.

Lemma zsum_app l1 l2 : zsum (l1 ++ l2) = zsum l1 + zsum l2.
Proof. induction l1 as [|x l1 IH]; simpl; [done|]. rewrite IH. lia. Qed.

Lemma zsum_nonneg l : Forall (fun x => 0 <= x) l -> 0 <= zsum l.
Proof. induction 1; simpl; lia. Qed.

Lemma zsum_replicate n x : zsum (replicate n x) = Z.of_nat n * x.
Proof. induction n; simpl; lia. Qed.

Lemma zsum_map_const {A} (f : A -> Z) c l :
  (forall x, x ∈ l -> f x = c) -> zsum (map f l) = Z.of_nat (length l) * c.
Proof.
  induction l as [|x l IH]; intros Hf; simpl; [done|].
  rewrite (Hf x), IH; [lia|intros; apply Hf; by right|by left].
Qed.

Lemma zsum_map_le {A} (f g : A -> Z) l :
  (forall x, x ∈ l -> f x <= g x) -> zsum (map f l) <= zsum (map g l).
Proof.
  induction l as [|x l IH]; intros Hf; simpl; [done|].
  pose proof (Hf x ltac:(by left)).
  pose proof (IH ltac:(intros; apply Hf; by right)). lia.
Qed.

(** Position of the first element satisfying a decidable predicate. *)
Fixpoint find_index {A} (p : A -> bool) (l : list A) : option nat :=
  match l with
  | [] => None
  | x :: l' => if p x then Some 0%nat else S <$> find_index p l'
  end.

Lemma find_index_Some {A} (p : A -> bool) l i :
  find_index p l = Some i <->
  (exists x, l !! i = Some x /\ p x = true) /\
  (forall j x, (j < i)%nat -> l !! j = Some x -> p x = false).
Proof.
  revert i. induction l as [|y l IH]; intros i; simpl.
  - split; [done|]. intros [[x [Hx _]] _]. by rewrite lookup_nil in Hx.
  - destruct (p y) eqn:Hy.
    + split.
      * intros [= <-]. split; [by exists y|]. lia.
      * intros [[x [Hx Hp]] Hall]. destruct i as [|i]; [done|].
        exfalso. specialize (Hall 0%nat y ltac:(lia) eq_refl). congruence.
    + rewrite fmap_Some. split.
      * intros [k [Hk ->]]. apply IH in Hk as [[x [Hx Hp]] Hall].
        split; [by exists x|]. intros [|j] z Hj Hz; simpl in Hz; [congruence|].
        apply (Hall j); [lia|done].
      * intros [[x [Hx Hp]] Hall]. destruct i as [|i]; simpl in Hx.
        { congruence. }
        exists i. split; [|done]. apply IH. split; [by exists x|].
        intros j z Hj Hz. apply (Hall (S j)); [lia|done].
Qed.

Lemma find_index_None {A} (p : A -> bool) l :
  find_index p l = None <-> Forall (fun x => p x = false) l.
Proof.
  induction l as [|y l IH]; simpl; [by split|].
  destruct (p y) eqn:Hy.
  - split; [done|]. inversion 1. congruence.
  - rewrite fmap_None, IH. split; [by constructor|by inversion 1].
Qed.

(** Concatenations whose first parts have equal length, or whose second
    parts have, split uniquely. *)
Lemma app_inj_len1 {A} (a1 a2 b1 b2 : list A) :
  length a1 = length a2 -> a1 ++ b1 = a2 ++ b2 -> a1 = a2 /\ b1 = b2.
Proof. intros Hl H. by apply app_inj_1 in H. Qed.

Lemma app_inj_len2 {A} (a1 a2 b1 b2 : list A) :
  length b1 = length b2 -> a1 ++ b1 = a2 ++ b2 -> a1 = a2 /\ b1 = b2.
Proof. intros Hl H. by apply app_inj_2 in H. Qed.

(** A separator that occurs in neither prefix splits uniquely. *)
Lemma app_sep_inj {A} (s : A) (a1 a2 b1 b2 : list A) :
  s ∉ a1 -> s ∉ a2 -> a1 ++ s :: b1 = a2 ++ s :: b2 -> a1 = a2 /\ b1 = b2.
Proof.
  revert a2. induction a1 as [|x a1 IH]; intros [|y a2] H1 H2 Heq; simpl in *.
  - by simplify_eq.
  - exfalso. simplify_eq. apply H2. by left.
  - exfalso. simplify_eq. apply H1. by left.
  - injection Heq as -> Heq.
    destruct (IH a2) as [-> ->]; [by intros ?; apply H1; right|
      by intros ?; apply H2; right|done|done].
Qed.
