(* ===== verification/RustStd.v ===== *)
(** The part of Rust's language and standard library the crates rely on:
    machine-width integers, [Result], panics, [Duration], strings and their
    UTF-8 bytes, and the fixed-width integer encodings. *)

From S2P Require Import Prelude.

(** * Machine integers

    A [u64], [u128], [u32], [i64], [i32] or [usize] value is a [Z] in its
    range; [usize] has 64 bits. *)

Definition u8_max : Z := 255.
Definition u32_max : Z := 4294967295.
Definition u64_max : Z := 18446744073709551615.
Definition u128_max : Z := 340282366920938463463374607431768211455.
Definition i32_max : Z := 2147483647.
Definition i64_max : Z := 9223372036854775807.
Definition usize_max : Z := u64_max.

Ltac unfold_widths :=
  unfold usize_max, u8_max, u32_max, u64_max, u128_max, i32_max, i64_max in *.

Ltac solve_width := unfold_widths; lia.

Definition in_u32 (x : Z) : Prop := 0 <= x <= u32_max.
Definition in_u64 (x : Z) : Prop := 0 <= x <= u64_max.
Definition in_u128 (x : Z) : Prop := 0 <= x <= u128_max.

(** [checked_add], [checked_mul] and the conversions of an unsigned type
    with maximum [m]. *)
Definition checked (m x : Z) : option Z :=
  if (0 <=? x) && (x <=? m) then Some x else None.
Definition checked_add (m a b : Z) : option Z := checked m (a + b).
Definition checked_mul (m a b : Z) : option Z := checked m (a * b).
Definition checked_sub (m a b : Z) : option Z := checked m (a - b).
Definition try_from (m x : Z) : option Z := checked m x.

Definition saturating_add (m a b : Z) : Z := Z.min m (a + b).
Definition saturating_sub (a b : Z) : Z := Z.max 0 (a - b).
Definition saturating_mul (m a b : Z) : Z := Z.min m (a * b).

(** Integer division rounding up ([div_ceil]). *)
Definition div_ceil (a b : Z) : Z := - ((- a) / b).

(** [1_u64.checked_shl(n)]. *)
Definition checked_shl_u64 (x n : Z) : option Z :=
  if n <? 64 then Some (Z.land (Z.shiftl x n) u64_max) else None.

Lemma checked_Some m x y : checked m x = Some y <-> x = y /\ 0 <= x <= m.
Proof.
  unfold checked. destruct (Z.leb_spec 0 x), (Z.leb_spec x m); simpl;
    split; intros; destr_hyps; simplify_eq; try done; try lia.
Qed.

Lemma checked_None m x : checked m x = None <-> x < 0 \/ m < x.
Proof.
  unfold checked. destruct (Z.leb_spec 0 x), (Z.leb_spec x m); simpl;
    split; intros; try done; try lia.
Qed.

Lemma checked_in m x : 0 <= x <= m -> checked m x = Some x.
Proof. intros. by apply checked_Some. Qed.

Lemma div_ceil_le a b q : 0 < b -> div_ceil a b <= q <-> a <= q * b.
Proof. intros Hb. unfold div_ceil. nia. Qed.

Lemma div_ceil_lt a b q : 0 < b -> q < div_ceil a b <-> q * b < a.
Proof. intros Hb. unfold div_ceil. nia. Qed.

Lemma div_ceil_nonneg a b : 0 < b -> 0 <= a -> 0 <= div_ceil a b.
Proof. intros. unfold div_ceil. nia. Qed.

Lemma div_ceil_pos a b : 0 < b -> 0 < a -> 0 < div_ceil a b.
Proof. intros. unfold div_ceil. nia. Qed.

Lemma div_ceil_mono a a' b : 0 < b -> a <= a' -> div_ceil a b <= div_ceil a' b.
Proof. intros. unfold div_ceil. nia. Qed.

Lemma div_ceil_upper a b : 0 < b -> div_ceil a b * b < a + b.
Proof. intros. unfold div_ceil. nia. Qed.

Lemma div_ceil_lower a b : 0 < b -> a <= div_ceil a b * b.
Proof. intros. unfold div_ceil. nia. Qed.

(** * [Result] and panics *)

Inductive Result (E A : Type) : Type :=
| Ok (a : A)
| Err (e : E).
Arguments Ok {E A} _.
Arguments Err {E A} _.

#[export] Instance Result_ret E : MRet (Result E) := fun A a => Ok a.
#[export] Instance Result_bind E : MBind (Result E) := fun A B f m =>
  match m with Ok a => f a | Err e => Err e end.
#[export] Instance Result_fmap E : FMap (Result E) := fun A B f m =>
  match m with Ok a => Ok (f a) | Err e => Err e end.

#[export] Instance Result_eq_dec E A `{EqDecision E, EqDecision A} :
  EqDecision (Result E A).
Proof. solve_decision. Defined.

Definition map_err {E F A} (f : E -> F) (m : Result E A) : Result F A :=
  match m with Ok a => Ok a | Err e => Err (f e) end.
Definition ok_or {E A} (m : option A) (e : E) : Result E A :=
  match m with Some a => Ok a | None => Err e end.
Definition is_ok {E A} (m : Result E A) : bool :=
  match m with Ok _ => true | Err _ => false end.
Definition result_ok {E A} (m : Result E A) : option A :=
  match m with Ok a => Some a | Err _ => None end.

(** A computation that may panic: [.expect], [unreachable!], or a callback
    that unwinds. *)
Inductive Outcome (A : Type) : Type :=
| Done (a : A)
| Panic.
Arguments Done {A} _.
Arguments Panic {A}.

#[export] Instance Outcome_ret : MRet Outcome := fun A a => Done a.
#[export] Instance Outcome_bind : MBind Outcome := fun A B f m =>
  match m with Done a => f a | Panic => Panic end.
#[export] Instance Outcome_fmap : FMap Outcome := fun A B f m =>
  match m with Done a => Done (f a) | Panic => Panic end.

(** [Option::expect] and [Result::expect]. *)
Definition expect {A} (m : option A) : Outcome A :=
  match m with Some a => Done a | None => Panic end.
Definition expect_ok {E A} (m : Result E A) : Outcome A :=
  match m with Ok a => Done a | Err _ => Panic end.

Lemma Result_bind_Ok {E A B} (m : Result E A) (f : A -> Result E B) b :
  m ≫= f = Ok b <-> exists a, m = Ok a /\ f a = Ok b.
Proof.
  destruct m as [a|e]; simpl; split; intros H; destr_hyps; simplify_eq; eauto.
Qed.

Lemma Outcome_bind_Done {A B} (m : Outcome A) (f : A -> Outcome B) b :
  m ≫= f = Done b <-> exists a, m = Done a /\ f a = Done b.
Proof.
  destruct m as [a|]; simpl; split; intros H; destr_hyps; simplify_eq; eauto.
Qed.

Lemma ok_or_Ok {E A} (m : option A) (e : E) a :
  ok_or m e = Ok a <-> m = Some a.
Proof. destruct m; simpl; split; intros; by simplify_eq. Qed.

Lemma ok_or_Err {E A} (m : option A) (e e' : E) :
  ok_or m e = Err e' <-> m = None /\ e = e'.
Proof. destruct m; simpl; split; intros; destr_hyps; by simplify_eq. Qed.

Lemma map_err_Ok {E F A} (f : E -> F) (m : Result E A) a :
  map_err f m = Ok a <-> m = Ok a.
Proof. destruct m; simpl; split; intros; by simplify_eq. Qed.

(** * [core::time::Duration]

    A duration is its total number of nanoseconds, at most
    [u64::MAX] seconds and 999999999 nanoseconds. *)

Record Duration := mkDuration { as_nanos : Z }.

#[export] Instance Duration_eq_dec : EqDecision Duration.
Proof. solve_decision. Defined.

Definition DURATION_MAX : Duration :=
  mkDuration (u64_max * 1000000000 + 999999999).
Definition DURATION_ZERO : Duration := mkDuration 0.

Definition Duration_wf (d : Duration) : Prop :=
  0 <= as_nanos d <= as_nanos DURATION_MAX.

Definition from_millis (m : Z) : Duration := mkDuration (m * 1000000).
Definition from_secs (s : Z) : Duration := mkDuration (s * 1000000000).
Definition as_millis (d : Duration) : Z := as_nanos d / 1000000.
Definition as_secs (d : Duration) : Z := as_nanos d / 1000000000.
Definition subsec_nanos (d : Duration) : Z := as_nanos d mod 1000000000.
Definition Duration_is_zero (d : Duration) : bool := as_nanos d =? 0.
Definition Duration_ltb (a b : Duration) : bool := as_nanos a <? as_nanos b.
Definition Duration_leb (a b : Duration) : bool := as_nanos a <=? as_nanos b.
Definition Duration_max (a b : Duration) : Duration :=
  mkDuration (Z.max (as_nanos a) (as_nanos b)).
Definition Duration_saturating_sub (a b : Duration) : Duration :=
  mkDuration (Z.max 0 (as_nanos a - as_nanos b)).
Definition Duration_saturating_add (a b : Duration) : Duration :=
  mkDuration (Z.min (as_nanos DURATION_MAX) (as_nanos a + as_nanos b)).
Definition Duration_checked_add (a b : Duration) : option Duration :=
  mkDuration <$> checked (as_nanos DURATION_MAX) (as_nanos a + as_nanos b).
Definition Duration_checked_sub (a b : Duration) : option Duration :=
  mkDuration <$> checked (as_nanos DURATION_MAX) (as_nanos a - as_nanos b).

Lemma as_millis_from_millis m : as_millis (from_millis m) = m.
Proof. unfold as_millis, from_millis; simpl. apply Z.div_mul. lia. Qed.

Lemma from_millis_inj m n : from_millis m = from_millis n -> m = n.
Proof. unfold from_millis. intros [= H]. lia. Qed.

Lemma from_millis_wf m : in_u64 m -> Duration_wf (from_millis m).
Proof. unfold in_u64, Duration_wf, from_millis, DURATION_MAX; simpl. solve_width. Qed.

(** * Strings and bytes

    A [str] is the list of its Unicode scalar values; a byte string is a
    list of integers in [0, 255]. *)

Definition str := list Z.
Definition bytes := list Z.

Definition is_byte (b : Z) : Prop := 0 <= b <= 255.

Definition char_len_utf8 (c : Z) : Z :=
  if c <? 128 then 1 else if c <? 2048 then 2 else if c <? 65536 then 3 else 4.

Definition char_encode_utf8 (c : Z) : bytes :=
  if c <? 128 then [c]
  else if c <? 2048 then [192 + c / 64; 128 + c mod 64]
  else if c <? 65536 then [224 + c / 4096; 128 + (c / 64) mod 64; 128 + c mod 64]
  else [240 + c / 262144; 128 + (c / 4096) mod 64;
        128 + (c / 64) mod 64; 128 + c mod 64].

Definition str_len (s : str) : Z := zsum (map char_len_utf8 s).
Definition as_bytes (s : str) : bytes := s ≫= char_encode_utf8.

(** [str::char_indices]: each scalar value with the byte index it starts at. *)
Fixpoint char_indices_from (i : Z) (s : str) : list (Z * Z) :=
  match s with
  | [] => []
  | c :: s' => (i, c) :: char_indices_from (i + char_len_utf8 c) s'
  end.
Definition char_indices (s : str) : list (Z * Z) := char_indices_from 0 s.

Definition is_ascii_alphanumeric (c : Z) : bool :=
  ((48 <=? c) && (c <=? 57)) || ((65 <=? c) && (c <=? 90))
  || ((97 <=? c) && (c <=? 122)).

Lemma as_bytes_ascii s : Forall (fun c => 0 <= c < 128) s -> as_bytes s = s.
Proof.
  induction 1 as [|c s Hc _ IH]; [done|].
  change (as_bytes (c :: s)) with (char_encode_utf8 c ++ as_bytes s).
  rewrite IH. unfold char_encode_utf8. case_cmp; [done|lia].
Qed.

Lemma str_len_ascii s :
  Forall (fun c => 0 <= c < 128) s -> str_len s = Z.of_nat (length s).
Proof.
  unfold str_len. induction 1 as [|c s Hc _ IH]; simpl; [done|].
  rewrite IH. unfold char_len_utf8. case_cmp; lia.
Qed.

Lemma as_bytes_length s : Z.of_nat (length (as_bytes s)) = str_len s.
Proof.
  induction s as [|c s IH]; [done|].
  change (as_bytes (c :: s)) with (char_encode_utf8 c ++ as_bytes s).
  change (str_len (c :: s)) with (char_len_utf8 c + str_len s).
  rewrite length_app, Nat2Z.inj_add, IH. f_equal.
  unfold char_encode_utf8, char_len_utf8. by repeat case_cmp.
Qed.

(** ** Big-endian encodings *)

(** The [n] low-order bytes of [x], most significant first
    ([to_be_bytes] of an [8n]-bit integer). *)
Fixpoint to_be_bytes (n : nat) (x : Z) : bytes :=
  match n with
  | O => []
  | S n' => to_be_bytes n' (x / 256) ++ [x mod 256]
  end.

(** [from_be_bytes]. *)
Definition from_be_bytes (bs : bytes) : Z :=
  foldl (fun acc b => acc * 256 + b) 0 bs.

Lemma to_be_bytes_length n x : length (to_be_bytes n x) = n.
Proof.
  revert x. induction n as [|n IH]; intros x; simpl; [done|].
  rewrite length_app, IH. simpl. lia.
Qed.

Lemma to_be_bytes_inj n x y :
  0 <= x < 256 ^ Z.of_nat n -> 0 <= y < 256 ^ Z.of_nat n ->
  to_be_bytes n x = to_be_bytes n y -> x = y.
Proof.
  revert x y. induction n as [|n IH]; intros x y Hx Hy Heq.
  - simpl in *. lia.
  - rewrite Nat2Z.inj_succ, Z.pow_succ_r in Hx, Hy by lia.
    simpl in Heq. apply app_inj_2 in Heq as [Heq Hmod]; [|done].
    apply IH in Heq; [|lia..]. injection Hmod as Hmod. lia.
Qed.

Lemma to_be_bytes_u64_inj x y :
  in_u64 x -> in_u64 y -> to_be_bytes 8 x = to_be_bytes 8 y -> x = y.
Proof.
  unfold in_u64. unfold_widths. intros. apply (to_be_bytes_inj 8); [..|done];
    change (256 ^ Z.of_nat 8) with 18446744073709551616; lia.
Qed.

Lemma to_be_bytes_is_byte n x : Forall is_byte (to_be_bytes n x).
Proof.
  revert x. induction n as [|n IH]; intros x; simpl; [constructor|].
  apply Forall_app. split; [apply IH|]. constructor; [|done].
  unfold is_byte. lia.
Qed.

(** ** Decimal texts *)

(** [Display] of an unsigned integer below [10 ^ 40], which holds every
    [u128]. *)
Fixpoint decimal_loop (fuel : nat) (n : Z) (acc : str) : str :=
  match fuel with
  | O => acc
  | S fuel =>
      let acc := 48 + n mod 10 :: acc in
      if n <? 10 then acc else decimal_loop fuel (n / 10) acc
  end.
Definition decimal (n : Z) : str := decimal_loop 40 n [].

Definition is_digit (c : Z) : bool := (48 <=? c) && (c <=? 57).

Definition digits_value (acc : Z) (ds : str) : Z :=
  foldl (fun acc c => acc * 10 + (c - 48)) acc ds.

(** [str::parse] of an unsigned type with maximum [m]: an optional plus sign
    and at least one digit; [None] stands for its error. *)
Definition parse_unsigned (m : Z) (s : str) : option Z :=
  let ds := match s with c :: s' => if c =? 43 then s' else s | [] => [] end in
  match ds with
  | [] => None
  | _ => if forallb is_digit ds then try_from m (digits_value 0 ds) else None
  end.

Lemma decimal_loop_spec fuel n acc :
  0 <= n < 10 ^ Z.of_nat fuel -> (0 < fuel)%nat ->
  exists ds, decimal_loop fuel n acc = ds ++ acc
    /\ Forall (fun c => is_digit c = true) ds /\ (0 < length ds)%nat
    /\ (forall k, (0 < k)%nat -> n < 10 ^ Z.of_nat k -> (length ds <= k)%nat)
    /\ digits_value 0 ds = n.
Proof.
  revert n acc. induction fuel as [|fuel IH]; intros n acc Hn Hf; [lia|]. simpl.
  assert (Hd : is_digit (48 + n mod 10) = true)
    by (unfold is_digit; apply andb_true_intro; split; apply Z.leb_le; lia).
  rewrite Nat2Z.inj_succ, Z.pow_succ_r in Hn by lia.
  destruct (Z.ltb_spec n 10) as [Hlt|Hge].
  - exists [48 + n mod 10]. split_and!; [done|by repeat constructor|simpl; lia| |simpl; lia].
    intros k Hk _. simpl. lia.
  - destruct fuel as [|fuel]; [simpl in Hn; lia|].
    destruct (IH (n / 10) (48 + n mod 10 :: acc)) as (ds & -> & Hds & Hpos & Hlen & Hval);
      [lia..|].
    exists (ds ++ [48 + n mod 10]). rewrite <- app_assoc. split_and!; [done|..].
    + apply Forall_app. split; [done|by repeat constructor].
    + rewrite length_app. simpl. lia.
    + intros [|[|k]] Hk Hnk; [lia|simpl in Hnk; lia|].
      rewrite Nat2Z.inj_succ, Z.pow_succ_r in Hnk by lia.
      rewrite length_app. simpl. specialize (Hlen (S k) ltac:(lia) ltac:(lia)). lia.
    + unfold digits_value in *. rewrite foldl_app, Hval. simpl. lia.
Qed.

Lemma decimal_spec n : in_u128 n ->
  Forall (fun c => is_digit c = true) (decimal n) /\ (0 < length (decimal n))%nat
  /\ (forall k, (0 < k)%nat -> n < 10 ^ Z.of_nat k -> (length (decimal n) <= k)%nat)
  /\ digits_value 0 (decimal n) = n.
Proof.
  unfold in_u128. unfold_widths. intros Hn.
  destruct (decimal_loop_spec 40 n [] ltac:(simpl; lia) ltac:(lia)) as (ds & Hds & H).
  unfold decimal. by rewrite Hds, app_nil_r.
Qed.

(** Display and parse are inverse. *)
Lemma parse_decimal_max m n :
  in_u128 n -> n <= m -> parse_unsigned m (decimal n) = Some n.
Proof.
  intros Hn Hm. destruct (decimal_spec n Hn) as (Hd & Hpos & _ & Hval). unfold parse_unsigned.
  destruct (decimal n) as [|c s]; [simpl in Hpos; lia|]. pose proof Hd as Hd'.
  apply Forall_cons_1 in Hd as [Hc _]. unfold is_digit in Hc. bool_prop.
  destruct (Z.eqb_spec c 43); [lia|].
  assert (forallb is_digit (c :: s) = true) as ->.
  { apply forallb_forall. intros x Hx. rewrite Forall_forall in Hd'. apply Hd'.
    by apply list_elem_of_In. }
  rewrite Hval. apply checked_in. unfold in_u128 in Hn. lia.
Qed.

Lemma parse_decimal n : in_u128 n -> parse_unsigned u128_max (decimal n) = Some n.
Proof. intros Hn. apply parse_decimal_max; [done|]. unfold in_u128 in Hn. lia. Qed.
