(* ===== verification/Identifier.v ===== *)
(** [runlimit-core/src/identifier.rs]: validated policy and scope
    identifiers.  [PolicyId] and [ScopeId] are the two expansions of the
    [identifier_type!] macro; both wrap a string accepted by [validate]. *)

From S2P Require Import Prelude RustStd.

Definition MAX_IDENTIFIER_LENGTH : Z := 128.

Inductive IdentifierError :=
| IdentifierError_Empty
| IdentifierError_TooLong (actual maximum : Z)
| IdentifierError_InvalidCharacter (index character : Z).

#[export] Instance IdentifierError_eq_dec : EqDecision IdentifierError.
Proof. solve_decision. Defined.

(** The accepted token alphabet: ASCII letters, digits and [- . _ : /]. *)
Definition is_token_char (c : Z) : bool :=
  is_ascii_alphanumeric c
  || ((c =? 45) || (c =? 46) || (c =? 95) || (c =? 58) || (c =? 47)).

(** The loop over [value.char_indices()]. *)
Fixpoint validate_chars (chars : list (Z * Z)) : Result IdentifierError unit :=
  match chars with
  | [] => Ok tt
  | (index, character) :: chars' =>
      if negb (is_token_char character)
      then Err (IdentifierError_InvalidCharacter index character)
      else validate_chars chars'
  end.

Definition validate (value : str) : Result IdentifierError unit :=
  if str_len value =? 0 then Err IdentifierError_Empty
  else if MAX_IDENTIFIER_LENGTH <? str_len value
  then Err (IdentifierError_TooLong (str_len value) MAX_IDENTIFIER_LENGTH)
  else validate_chars (char_indices value).

Record PolicyId := mkPolicyId { PolicyId_as_str : str }.
Record ScopeId := mkScopeId { ScopeId_as_str : str }.

#[export] Instance PolicyId_eq_dec : EqDecision PolicyId.
Proof. solve_decision. Defined.
#[export] Instance ScopeId_eq_dec : EqDecision ScopeId.
Proof. solve_decision. Defined.

Definition PolicyId_new (value : str) : Result IdentifierError PolicyId :=
  _ ← validate value; mret (mkPolicyId value).
Definition ScopeId_new (value : str) : Result IdentifierError ScopeId :=
  _ ← validate value; mret (mkScopeId value).

(** The serde implementations: a string, re-validated when read back. *)
Definition PolicyId_serialize (id : PolicyId) : str := PolicyId_as_str id.
Definition PolicyId_deserialize (value : str) : Result IdentifierError PolicyId :=
  PolicyId_new value.
Definition ScopeId_serialize (id : ScopeId) : str := ScopeId_as_str id.
Definition ScopeId_deserialize (value : str) : Result IdentifierError ScopeId :=
  ScopeId_new value.

(** ** Well-formed identifiers *)

Definition identifier_wf (s : str) : Prop :=
  1 <= Z.of_nat (length s) <= MAX_IDENTIFIER_LENGTH
  /\ Forall (fun c => is_token_char c = true) s.

Definition PolicyId_wf (id : PolicyId) : Prop := identifier_wf (PolicyId_as_str id).
Definition ScopeId_wf (id : ScopeId) : Prop := identifier_wf (ScopeId_as_str id).

Lemma is_token_char_ascii c : is_token_char c = true -> 45 <= c < 128.
Proof.
  unfold is_token_char, is_ascii_alphanumeric.
  repeat case_cmp; simpl; intros; try done; lia.
Qed.

Lemma token_string_ascii s :
  Forall (fun c => is_token_char c = true) s -> Forall (fun c => 0 <= c < 128) s.
Proof.
  intros H. eapply Forall_impl; [exact H|].
  intros c Hc%is_token_char_ascii. lia.
Qed.

Lemma identifier_wf_bytes s : identifier_wf s -> as_bytes s = s.
Proof. intros [_ H]. by apply as_bytes_ascii, token_string_ascii. Qed.

Lemma identifier_wf_no_nul s : identifier_wf s -> 0 ∉ s.
Proof.
  intros [_ H] Hin. rewrite Forall_forall in H.
  apply H, is_token_char_ascii in Hin. lia.
Qed.

(** The scan stops at the first character outside the alphabet, and
    reports the byte index at which it starts. *)
Lemma validate_chars_spec i s :
  match validate_chars (char_indices_from i s) with
  | Ok _ => Forall (fun c => is_token_char c = true) s
  | Err e => exists pre c post, s = pre ++ c :: post
      /\ Forall (fun c => is_token_char c = true) pre
      /\ is_token_char c = false
      /\ e = IdentifierError_InvalidCharacter (i + Z.of_nat (length pre)) c
  end.
Proof.
  revert i. induction s as [|c s IH]; intros i; simpl; [constructor|].
  destruct (is_token_char c) eqn:Hc; simpl.
  - specialize (IH (i + char_len_utf8 c)).
    destruct (validate_chars _) as [[]|e]; [by constructor|].
    destruct IH as (pre & d & post & -> & Hpre & Hd & ->).
    exists (c :: pre), d, post. split_and!; [done|by constructor|done|].
    apply is_token_char_ascii in Hc. unfold char_len_utf8.
    f_equal. simpl. case_cmp; lia.
  - exists [], c, s. split_and!; [done|constructor|done|]. f_equal. simpl. lia.
Qed.

Lemma str_len_pos s : 0 < str_len s <-> s <> [].
Proof.
  destruct s as [|c s]; [by split|]. split; [done|intros _].
  change (0 < char_len_utf8 c + str_len s).
  assert (0 < char_len_utf8 c) by (unfold char_len_utf8; repeat case_cmp; lia).
  assert (0 <= str_len s); [|lia].
  rewrite <- as_bytes_length. lia.
Qed.

Lemma validate_ok s : validate s = Ok tt <-> identifier_wf s.
Proof.
  unfold validate, identifier_wf, char_indices.
  pose proof (validate_chars_spec 0 s) as Hspec.
  pose proof (str_len_pos s) as Hpos.
  assert (Hlen : Forall (fun c => is_token_char c = true) s ->
    str_len s = Z.of_nat (length s))
    by (intros H; by apply str_len_ascii, token_string_ascii).
  destruct (Z.eqb_spec (str_len s) 0) as [H0|H0].
  { split; [done|]. intros [Hl Ha]. rewrite Hlen in H0 by done. lia. }
  destruct (Z.ltb_spec MAX_IDENTIFIER_LENGTH (str_len s)).
  { split; [done|]. intros [Hl Ha]. rewrite Hlen in * by done. lia. }
  destruct (validate_chars _) as [[]|e] eqn:He.
  - split; [|done]. intros _. rewrite Hlen in * by done. split; [lia|done].
  - split; [done|]. intros [_ Ha].
    destruct Hspec as (pre & c & post & -> & _ & Hc & _).
    apply Forall_app in Ha as [_ Ha]. apply Forall_cons_1 in Ha as [? _]. congruence.
Qed.

Lemma PolicyId_new_ok s id :
  PolicyId_new s = Ok id <-> id = mkPolicyId s /\ PolicyId_wf id.
Proof.
  unfold PolicyId_new, PolicyId_wf. rewrite Result_bind_Ok. split.
  - intros ([] & Hv%validate_ok & [= <-]). done.
  - intros [-> Hwf]. exists tt. split; [by apply validate_ok|done].
Qed.

Lemma ScopeId_new_ok s id :
  ScopeId_new s = Ok id <-> id = mkScopeId s /\ ScopeId_wf id.
Proof.
  unfold ScopeId_new, ScopeId_wf. rewrite Result_bind_Ok. split.
  - intros ([] & Hv%validate_ok & [= <-]). done.
  - intros [-> Hwf]. exists tt. split; [by apply validate_ok|done].
Qed.

(** An identifier is accepted exactly when it has 1 to 128
    characters of the token alphabet; otherwise the error is the first of:
    empty, longer than 128 bytes, or the first character outside the
    alphabet with the byte index at which it starts.  Deserialization of a
    serialized valid identifier returns it. *)
Theorem identifier_validation (s : str) :
  (validate s = Ok tt <-> identifier_wf s)
  /\ (forall e, validate s = Err e ->
       (s = [] /\ e = IdentifierError_Empty)
       \/ (MAX_IDENTIFIER_LENGTH < str_len s
           /\ e = IdentifierError_TooLong (str_len s) MAX_IDENTIFIER_LENGTH)
       \/ (s <> [] /\ str_len s <= MAX_IDENTIFIER_LENGTH
           /\ exists pre c post, s = pre ++ c :: post
             /\ Forall (fun c => is_token_char c = true) pre
             /\ is_token_char c = false
             /\ e = IdentifierError_InvalidCharacter (Z.of_nat (length pre)) c))
  /\ (forall id, PolicyId_wf id ->
       PolicyId_deserialize (PolicyId_serialize id) = Ok id)
  /\ (forall id, ScopeId_wf id ->
       ScopeId_deserialize (ScopeId_serialize id) = Ok id).
Proof.
  split_and!.
  - apply validate_ok.
  - intros e. unfold validate, char_indices.
    pose proof (str_len_pos s) as Hpos. pose proof (validate_chars_spec 0 s) as Hs.
    destruct (Z.eqb_spec (str_len s) 0) as [H0|H0].
    { intros [= <-]. left. split; [|done]. destruct s; [done|]. exfalso.
      assert (0 < str_len (z :: s)) by (by apply Hpos). lia. }
    assert (s <> []) by (intros ->; by apply H0).
    destruct (Z.ltb_spec MAX_IDENTIFIER_LENGTH (str_len s)).
    { intros [= <-]. right; left. done. }
    intros He. rewrite He in Hs.
    right; right. split_and!; [done..|]. exact Hs.
  - intros [s'] H. by apply PolicyId_new_ok.
  - intros [s'] H. by apply ScopeId_new_ok.
Qed.
