(* ===== verification/Policy.v ===== *)
(** [runlimit-core/src/policy.rs]: capacities, periods, quota modes, the
    [RateLimitPolicy] trait and its two built-in policies, with their
    fingerprints.  SHA-256 (the [sha2] crate) is a parameter. *)

From Stdlib Require Import Ascii String.
From S2P Require Import Prelude RustStd Identifier.
From stdpp Require Import prelude list.
Open Scope Z_scope.
Open Scope list_scope.

(** Bytes of an ASCII literal ([b"..."]). *)
Definition byte_string (s : string) : bytes :=
  map (fun a => Z.of_N (N_of_ascii a)) (list_ascii_of_string s).

Definition FIXED_WINDOW_FINGERPRINT_DOMAIN : bytes :=
  byte_string "runlimit/fixed-window-policy/v1" ++ [0].
Definition GCRA_FINGERPRINT_DOMAIN : bytes :=
  byte_string "runlimit/gcra-policy/v1" ++ [0].

Definition F64_MANTISSA_DIGITS : Z := 53.
Definition MAX_EXACT_DOUBLE_INTEGER : Z := Z.shiftl 1 F64_MANTISSA_DIGITS.
Definition MAX_LIMIT : Z := i64_max.
Definition MAX_WINDOW_MILLIS : Z := MAX_EXACT_DOUBLE_INTEGER / 1000.
Definition MAX_WINDOW : Duration := from_millis MAX_WINDOW_MILLIS.

Lemma MAX_WINDOW_MILLIS_val : MAX_WINDOW_MILLIS = 9007199254740.
Proof. reflexivity. Qed.

Definition NonZeroU64_new (x : Z) : option Z := if x =? 0 then None else Some x.

(** * [Capacity] *)

Record Capacity := mkCapacity { Capacity_get : Z }.

#[export] Instance Capacity_eq_dec : EqDecision Capacity.
Proof. solve_decision. Defined.

Inductive CapacityError :=
| CapacityError_Zero
| CapacityError_TooLarge (actual maximum : Z).

Definition Capacity_new (value : Z) : Result CapacityError Capacity :=
  match NonZeroU64_new value with
  | None => Err CapacityError_Zero
  | Some value =>
      if MAX_LIMIT <? value then Err (CapacityError_TooLarge value MAX_LIMIT)
      else Ok (mkCapacity value)
  end.

Definition Capacity_wf (c : Capacity) : Prop := 1 <= Capacity_get c <= MAX_LIMIT.

Lemma Capacity_new_spec v : 0 <= v ->
  Capacity_new v =
    (if v =? 0 then Err CapacityError_Zero
     else if MAX_LIMIT <? v then Err (CapacityError_TooLarge v MAX_LIMIT)
     else Ok (mkCapacity v)).
Proof. intros _. unfold Capacity_new, NonZeroU64_new. by destruct (v =? 0). Qed.

Lemma Capacity_new_ok v c : 0 <= v ->
  Capacity_new v = Ok c <-> c = mkCapacity v /\ Capacity_wf c.
Proof.
  intros Hv. rewrite Capacity_new_spec by done. unfold Capacity_wf.
  repeat case_cmp; split; intros; destr_hyps; simplify_eq; simpl in *;
    try done; try lia. split; [done|lia].
Qed.

(** * [QuotaPeriod] *)

Record QuotaPeriod := mkQuotaPeriod { QuotaPeriod_millis : Z }.

#[export] Instance QuotaPeriod_eq_dec : EqDecision QuotaPeriod.
Proof. solve_decision. Defined.

Inductive QuotaPeriodError :=
| QuotaPeriodError_Zero
| QuotaPeriodError_NotWholeMilliseconds
| QuotaPeriodError_TooLarge (actual maximum : Duration).

Definition QuotaPeriod_new (period : Duration) : Result QuotaPeriodError QuotaPeriod :=
  if Duration_is_zero period then Err QuotaPeriodError_Zero
  else if negb (subsec_nanos period mod 1000000 =? 0)
  then Err QuotaPeriodError_NotWholeMilliseconds
  else if Duration_ltb MAX_WINDOW period
  then Err (QuotaPeriodError_TooLarge period MAX_WINDOW)
  else
    millis ← ok_or (try_from u64_max (as_millis period))
               (QuotaPeriodError_TooLarge period MAX_WINDOW);
    ok_or (mkQuotaPeriod <$> NonZeroU64_new millis) QuotaPeriodError_Zero.

Definition QuotaPeriod_duration (p : QuotaPeriod) : Duration :=
  from_millis (QuotaPeriod_millis p).

Definition QuotaPeriod_wf (p : QuotaPeriod) : Prop :=
  1 <= QuotaPeriod_millis p <= MAX_WINDOW_MILLIS.

Lemma QuotaPeriod_wf_u64 p : QuotaPeriod_wf p -> in_u64 (QuotaPeriod_millis p).
Proof.
  unfold QuotaPeriod_wf, in_u64. rewrite MAX_WINDOW_MILLIS_val. solve_width.
Qed.

Lemma QuotaPeriod_new_spec d : Duration_wf d ->
  QuotaPeriod_new d =
    (if as_nanos d =? 0 then Err QuotaPeriodError_Zero
     else if negb (as_nanos d mod 1000000 =? 0)
     then Err QuotaPeriodError_NotWholeMilliseconds
     else if MAX_WINDOW_MILLIS * 1000000 <? as_nanos d
     then Err (QuotaPeriodError_TooLarge d MAX_WINDOW)
     else Ok (mkQuotaPeriod (as_nanos d / 1000000))).
Proof.
  intros Hwf. unfold QuotaPeriod_new, Duration_is_zero, subsec_nanos, Duration_ltb.
  replace (as_nanos d mod 1000000000 mod 1000000) with (as_nanos d mod 1000000) by lia.
  change (as_nanos MAX_WINDOW) with (MAX_WINDOW_MILLIS * 1000000).
  destruct (Z.eqb_spec (as_nanos d) 0); [done|].
  destruct (Z.eqb_spec (as_nanos d mod 1000000) 0); simpl; [|done].
  case_cmp; [done|]. unfold Duration_wf in Hwf.
  unfold try_from, as_millis. rewrite MAX_WINDOW_MILLIS_val in *.
  rewrite checked_in by (unfold_widths; lia). simpl.
  unfold NonZeroU64_new. case_cmp; [lia|done].
Qed.

Lemma QuotaPeriod_new_ok d p : Duration_wf d ->
  QuotaPeriod_new d = Ok p <-> d = QuotaPeriod_duration p /\ QuotaPeriod_wf p.
Proof.
  intros Hwf. rewrite QuotaPeriod_new_spec by done. unfold Duration_wf in Hwf.
  destruct d as [n], p as [m].
  unfold QuotaPeriod_wf, QuotaPeriod_duration, from_millis; simpl in *.
  rewrite MAX_WINDOW_MILLIS_val.
  repeat (case_cmp; simpl); split; intros; destr_hyps; simplify_eq; try done; try lia.
  - split; [f_equal; lia|lia].
  - do 2 f_equal. lia.
Qed.

(** * Quota modes and the policy trait *)

Inductive QuotaMode := Enforce | Shadow.

#[export] Instance QuotaMode_eq_dec : EqDecision QuotaMode.
Proof. solve_decision. Defined.

Definition QuotaMode_default : QuotaMode := Enforce.

Definition QuotaMode_eqb (a b : QuotaMode) : bool := bool_decide (a = b).

Record PolicyFingerprint := from_digest { fingerprint_bytes : bytes }.

#[export] Instance PolicyFingerprint_eq_dec : EqDecision PolicyFingerprint.
Proof. solve_decision. Defined.
#[export] Instance PolicyFingerprint_countable : Countable PolicyFingerprint.
Proof. by refine (inj_countable' fingerprint_bytes from_digest _); intros []. Defined.

(** [trait RateLimitPolicy]. *)
Class RateLimitPolicy (P : Type) := {
  rp_id : P -> PolicyId;
  rp_scope : P -> ScopeId;
  rp_quota : P -> Capacity;
  rp_quota_period : P -> QuotaPeriod;
  rp_capacity : P -> Capacity;
  rp_fingerprint : P -> PolicyFingerprint;
  rp_quota_mode : P -> QuotaMode;
}.

(** What the types of the trait's methods promise: every value they return
    is validated. *)
Class RateLimitPolicyLaws (P : Type) `{RateLimitPolicy P} := {
  rp_wf : P -> Prop;
  rp_id_wf : forall p, rp_wf p -> PolicyId_wf (rp_id p);
  rp_scope_wf : forall p, rp_wf p -> ScopeId_wf (rp_scope p);
  rp_quota_wf : forall p, rp_wf p -> Capacity_wf (rp_quota p);
  rp_quota_period_wf : forall p, rp_wf p -> QuotaPeriod_wf (rp_quota_period p);
  rp_capacity_wf : forall p, rp_wf p -> Capacity_wf (rp_capacity p);
}.

(** * [FixedWindowPolicy] *)

Record FixedWindowPolicy := mkFixedWindowPolicy {
  fw_id : PolicyId;
  fw_scope : ScopeId;
  fw_limit : Capacity;
  fw_window : QuotaPeriod;
  fw_fingerprint : PolicyFingerprint;
  fw_quota_mode : QuotaMode;
}.

#[export] Instance FixedWindowPolicy_eq_dec : EqDecision FixedWindowPolicy.
Proof. solve_decision. Defined.

Inductive PolicyError :=
| PolicyError_ZeroLimit
| PolicyError_LimitTooLarge (actual maximum : Z)
| PolicyError_ZeroWindow
| PolicyError_WindowNotWholeMilliseconds
| PolicyError_WindowTooLarge (actual maximum : Duration).

Definition PolicyError_of_capacity (error : CapacityError) : PolicyError :=
  match error with
  | CapacityError_Zero => PolicyError_ZeroLimit
  | CapacityError_TooLarge actual maximum => PolicyError_LimitTooLarge actual maximum
  end.

Definition PolicyError_of_period (error : QuotaPeriodError) : PolicyError :=
  match error with
  | QuotaPeriodError_Zero => PolicyError_ZeroWindow
  | QuotaPeriodError_NotWholeMilliseconds => PolicyError_WindowNotWholeMilliseconds
  | QuotaPeriodError_TooLarge actual maximum => PolicyError_WindowTooLarge actual maximum
  end.

(** The byte string hashed into a fixed-window policy's fingerprint. *)
Definition fingerprint_preimage (id : PolicyId) (scope : ScopeId)
    (limit : Capacity) (window : QuotaPeriod) : bytes :=
  FIXED_WINDOW_FINGERPRINT_DOMAIN
  ++ as_bytes (PolicyId_as_str id) ++ [0]
  ++ as_bytes (ScopeId_as_str scope) ++ [0]
  ++ to_be_bytes 8 (Capacity_get limit)
  ++ to_be_bytes 8 (QuotaPeriod_millis window).

(** * [GcraPolicy] *)

Record GcraPolicy := mkGcraPolicy {
  gp_id : PolicyId;
  gp_scope : ScopeId;
  gp_quota : Capacity;
  gp_period : QuotaPeriod;
  gp_burst_capacity : Capacity;
  gp_fingerprint : PolicyFingerprint;
  gp_quota_mode : QuotaMode;
}.

#[export] Instance GcraPolicy_eq_dec : EqDecision GcraPolicy.
Proof. solve_decision. Defined.

Inductive GcraPolicyError :=
| GcraPolicyError_ZeroQuota
| GcraPolicyError_QuotaTooLarge (actual maximum : Z)
| GcraPolicyError_ZeroBurstCapacity
| GcraPolicyError_BurstCapacityTooLarge (actual maximum : Z)
| GcraPolicyError_ZeroPeriod
| GcraPolicyError_PeriodNotWholeMilliseconds
| GcraPolicyError_PeriodTooLarge (actual maximum : Duration)
| GcraPolicyError_RefillDurationTooLarge (actual_millis maximum_millis : Z).

Definition GcraPolicyError_of_quota (error : CapacityError) : GcraPolicyError :=
  match error with
  | CapacityError_Zero => GcraPolicyError_ZeroQuota
  | CapacityError_TooLarge actual maximum => GcraPolicyError_QuotaTooLarge actual maximum
  end.

Definition GcraPolicyError_of_burst (error : CapacityError) : GcraPolicyError :=
  match error with
  | CapacityError_Zero => GcraPolicyError_ZeroBurstCapacity
  | CapacityError_TooLarge actual maximum =>
      GcraPolicyError_BurstCapacityTooLarge actual maximum
  end.

Definition GcraPolicyError_of_period (error : QuotaPeriodError) : GcraPolicyError :=
  match error with
  | QuotaPeriodError_Zero => GcraPolicyError_ZeroPeriod
  | QuotaPeriodError_NotWholeMilliseconds => GcraPolicyError_PeriodNotWholeMilliseconds
  | QuotaPeriodError_TooLarge actual maximum =>
      GcraPolicyError_PeriodTooLarge actual maximum
  end.

Definition gcra_fingerprint_preimage (id : PolicyId) (scope : ScopeId)
    (quota : Capacity) (period : QuotaPeriod) (burst_capacity : Capacity) : bytes :=
  GCRA_FINGERPRINT_DOMAIN
  ++ as_bytes (PolicyId_as_str id) ++ [0]
  ++ as_bytes (ScopeId_as_str scope) ++ [0]
  ++ to_be_bytes 8 (Capacity_get quota)
  ++ to_be_bytes 8 (QuotaPeriod_millis period)
  ++ to_be_bytes 8 (Capacity_get burst_capacity).

Definition div_ceil_u128 (numerator denominator : Z) : Z :=
  numerator / denominator + (if numerator mod denominator =? 0 then 0 else 1).

Lemma div_ceil_u128_eq n d : 0 < d -> div_ceil_u128 n d = div_ceil n d.
Proof. intros. unfold div_ceil_u128, div_ceil. case_cmp; nia. Qed.

Definition FixedWindowPolicy_with_quota_mode (p : FixedWindowPolicy)
    (quota_mode : QuotaMode) : FixedWindowPolicy :=
  mkFixedWindowPolicy (fw_id p) (fw_scope p) (fw_limit p) (fw_window p)
    (fw_fingerprint p) quota_mode.

Definition GcraPolicy_with_quota_mode (p : GcraPolicy)
    (quota_mode : QuotaMode) : GcraPolicy :=
  mkGcraPolicy (gp_id p) (gp_scope p) (gp_quota p) (gp_period p)
    (gp_burst_capacity p) (gp_fingerprint p) quota_mode.

(** The wire objects of the serde implementations.  [quota_mode] may be
    missing on input ([serde(default)]). *)
Record FixedWindowPolicyRef := mkFixedWindowPolicyRef {
  fwr_id : str; fwr_scope : str; fwr_limit : Z; fwr_window_millis : Z;
  fwr_quota_mode : QuotaMode;
}.
Record FixedWindowPolicyWire := mkFixedWindowPolicyWire {
  fww_id : str; fww_scope : str; fww_limit : Z; fww_window_millis : Z;
  fww_quota_mode : option QuotaMode;
}.
Record GcraPolicyRef := mkGcraPolicyRef {
  gpr_id : str; gpr_scope : str; gpr_quota : Z; gpr_period_millis : Z;
  gpr_burst_capacity : Z; gpr_quota_mode : QuotaMode;
}.
Record GcraPolicyWire := mkGcraPolicyWire {
  gpw_id : str; gpw_scope : str; gpw_quota : Z; gpw_period_millis : Z;
  gpw_burst_capacity : Z; gpw_quota_mode : option QuotaMode;
}.

(** What a derived [Deserialize] or a [de::Error::custom] call reports. *)
Inductive WireError :=
| WireError_identifier (e : IdentifierError)
| WireError_fixed_window (e : PolicyError)
| WireError_gcra (e : GcraPolicyError).

Definition FixedWindowPolicy_serialize (p : FixedWindowPolicy) : FixedWindowPolicyRef :=
  mkFixedWindowPolicyRef (PolicyId_serialize (fw_id p)) (ScopeId_serialize (fw_scope p))
    (Capacity_get (fw_limit p)) (QuotaPeriod_millis (fw_window p)) (fw_quota_mode p).

Definition GcraPolicy_serialize (p : GcraPolicy) : GcraPolicyRef :=
  mkGcraPolicyRef (PolicyId_serialize (gp_id p)) (ScopeId_serialize (gp_scope p))
    (Capacity_get (gp_quota p)) (QuotaPeriod_millis (gp_period p))
    (Capacity_get (gp_burst_capacity p)) (gp_quota_mode p).

(** The object a reader sees when it parses what [serialize] wrote, with or
    without the defaultable field. *)
Definition FixedWindowPolicy_wire (r : FixedWindowPolicyRef) (keep_mode : bool)
    : FixedWindowPolicyWire :=
  mkFixedWindowPolicyWire (fwr_id r) (fwr_scope r) (fwr_limit r) (fwr_window_millis r)
    (if keep_mode then Some (fwr_quota_mode r) else None).
Definition GcraPolicy_wire (r : GcraPolicyRef) (keep_mode : bool) : GcraPolicyWire :=
  mkGcraPolicyWire (gpr_id r) (gpr_scope r) (gpr_quota r) (gpr_period_millis r)
    (gpr_burst_capacity r) (if keep_mode then Some (gpr_quota_mode r) else None).

(** Structural validity: what the private fields of a constructed policy
    satisfy, the fingerprint apart. *)
Definition FixedWindowPolicy_valid (p : FixedWindowPolicy) : Prop :=
  PolicyId_wf (fw_id p) /\ ScopeId_wf (fw_scope p)
  /\ Capacity_wf (fw_limit p) /\ QuotaPeriod_wf (fw_window p).

(** The last conjunct bounds the time to refill the whole burst:
    [capacity * period] scaled units at [quota] per millisecond. *)
Definition GcraPolicy_valid (p : GcraPolicy) : Prop :=
  PolicyId_wf (gp_id p) /\ ScopeId_wf (gp_scope p)
  /\ Capacity_wf (gp_quota p) /\ QuotaPeriod_wf (gp_period p)
  /\ Capacity_wf (gp_burst_capacity p)
  /\ Capacity_get (gp_burst_capacity p) * QuotaPeriod_millis (gp_period p)
     <= MAX_WINDOW_MILLIS * Capacity_get (gp_quota p).

(** * Constructors that hash *)

Section Hashed.
Variable sha256 : bytes -> bytes.

Definition fingerprint (id : PolicyId) (scope : ScopeId) (limit : Capacity)
    (window : QuotaPeriod) : PolicyFingerprint :=
  from_digest (sha256 (fingerprint_preimage id scope limit window)).

Definition gcra_fingerprint (id : PolicyId) (scope : ScopeId) (quota : Capacity)
    (period : QuotaPeriod) (burst_capacity : Capacity) : PolicyFingerprint :=
  from_digest (sha256 (gcra_fingerprint_preimage id scope quota period burst_capacity)).

Definition FixedWindowPolicy_new (id : PolicyId) (scope : ScopeId) (limit : Z)
    (window : Duration) : Result PolicyError FixedWindowPolicy :=
  limit ← map_err PolicyError_of_capacity (Capacity_new limit);
  window ← map_err PolicyError_of_period (QuotaPeriod_new window);
  mret (mkFixedWindowPolicy id scope limit window
          (fingerprint id scope limit window) Enforce).

Definition GcraPolicy_new (id : PolicyId) (scope : ScopeId) (quota : Z)
    (period : Duration) (burst_capacity : Z) : Result GcraPolicyError GcraPolicy :=
  quota ← map_err GcraPolicyError_of_quota (Capacity_new quota);
  burst_capacity ← map_err GcraPolicyError_of_burst (Capacity_new burst_capacity);
  period ← map_err GcraPolicyError_of_period (QuotaPeriod_new period);
  let full_refill_millis :=
    div_ceil_u128 (Capacity_get burst_capacity * QuotaPeriod_millis period)
                  (Capacity_get quota) in
  if MAX_WINDOW_MILLIS <? full_refill_millis
  then Err (GcraPolicyError_RefillDurationTooLarge full_refill_millis MAX_WINDOW_MILLIS)
  else
    mret (mkGcraPolicy id scope quota period burst_capacity
            (gcra_fingerprint id scope quota period burst_capacity) Enforce).

Definition FixedWindowPolicy_deserialize (wire : FixedWindowPolicyWire)
    : Result WireError FixedWindowPolicy :=
  id ← map_err WireError_identifier (PolicyId_deserialize (fww_id wire));
  scope ← map_err WireError_identifier (ScopeId_deserialize (fww_scope wire));
  let quota_mode := default QuotaMode_default (fww_quota_mode wire) in
  map_err WireError_fixed_window
    ((fun policy => FixedWindowPolicy_with_quota_mode policy quota_mode) <$>
      FixedWindowPolicy_new id scope (fww_limit wire)
        (from_millis (fww_window_millis wire))).

Definition GcraPolicy_deserialize (wire : GcraPolicyWire)
    : Result WireError GcraPolicy :=
  id ← map_err WireError_identifier (PolicyId_deserialize (gpw_id wire));
  scope ← map_err WireError_identifier (ScopeId_deserialize (gpw_scope wire));
  let quota_mode := default QuotaMode_default (gpw_quota_mode wire) in
  map_err WireError_gcra
    ((fun policy => GcraPolicy_with_quota_mode policy quota_mode) <$>
      GcraPolicy_new id scope (gpw_quota wire)
        (from_millis (gpw_period_millis wire)) (gpw_burst_capacity wire)).

Definition FixedWindowPolicy_wf (p : FixedWindowPolicy) : Prop :=
  FixedWindowPolicy_valid p
  /\ fw_fingerprint p = fingerprint (fw_id p) (fw_scope p) (fw_limit p) (fw_window p).

Definition GcraPolicy_wf (p : GcraPolicy) : Prop :=
  GcraPolicy_valid p
  /\ gp_fingerprint p = gcra_fingerprint (gp_id p) (gp_scope p) (gp_quota p)
                          (gp_period p) (gp_burst_capacity p).

End Hashed.

#[export] Instance FixedWindowPolicy_policy : RateLimitPolicy FixedWindowPolicy := {
  rp_id := fw_id;
  rp_scope := fw_scope;
  rp_quota := fw_limit;
  rp_quota_period := fw_window;
  rp_capacity := fw_limit;
  rp_fingerprint := fw_fingerprint;
  rp_quota_mode := fw_quota_mode;
}.

#[export] Instance GcraPolicy_policy : RateLimitPolicy GcraPolicy := {
  rp_id := gp_id;
  rp_scope := gp_scope;
  rp_quota := gp_quota;
  rp_quota_period := gp_period;
  rp_capacity := gp_burst_capacity;
  rp_fingerprint := gp_fingerprint;
  rp_quota_mode := gp_quota_mode;
}.

#[export] Program Instance FixedWindowPolicy_laws : RateLimitPolicyLaws FixedWindowPolicy := {
  rp_wf := FixedWindowPolicy_valid;
}.
Solve All Obligations with unfold FixedWindowPolicy_valid; intros; destr_hyps; done.

#[export] Program Instance GcraPolicy_laws : RateLimitPolicyLaws GcraPolicy := {
  rp_wf := GcraPolicy_valid;
}.
Solve All Obligations with unfold GcraPolicy_valid; intros; destr_hyps; done.

(** * Theorems *)

Lemma FixedWindowPolicy_new_ok sha256 id scope limit window p :
  PolicyId_wf id -> ScopeId_wf scope -> 0 <= limit -> Duration_wf window ->
  FixedWindowPolicy_new sha256 id scope limit window = Ok p <->
  FixedWindowPolicy_wf sha256 p /\ fw_id p = id /\ fw_scope p = scope
  /\ limit = Capacity_get (fw_limit p) /\ window = QuotaPeriod_duration (fw_window p)
  /\ fw_quota_mode p = Enforce.
Proof.
  intros Hid Hscope Hlimit Hwindow. unfold FixedWindowPolicy_new.
  rewrite Result_bind_Ok. setoid_rewrite Result_bind_Ok. split.
  - intros (c & Hc & w & Hw & [= <-]).
    apply map_err_Ok, Capacity_new_ok in Hc as [-> Hc]; [|done].
    apply map_err_Ok, QuotaPeriod_new_ok in Hw as [-> Hw]; [|done].
    by unfold FixedWindowPolicy_wf, FixedWindowPolicy_valid.
  - intros (((_ & _ & Hc & Hw) & Hf) & <- & <- & -> & -> & Hm).
    exists (fw_limit p). split.
    { apply map_err_Ok, Capacity_new_ok; [done|]. by destruct (fw_limit p). }
    exists (fw_window p). split.
    { by apply map_err_Ok, QuotaPeriod_new_ok. }
    destruct p; simpl in *. by subst.
Qed.

Lemma refill_le burst quota : 0 < quota ->
  div_ceil_u128 burst quota <= MAX_WINDOW_MILLIS <-> burst <= MAX_WINDOW_MILLIS * quota.
Proof. intros. rewrite div_ceil_u128_eq by done. by apply div_ceil_le. Qed.

Lemma GcraPolicy_new_ok sha256 id scope quota period burst p :
  PolicyId_wf id -> ScopeId_wf scope -> 0 <= quota -> Duration_wf period -> 0 <= burst ->
  GcraPolicy_new sha256 id scope quota period burst = Ok p <->
  GcraPolicy_wf sha256 p /\ gp_id p = id /\ gp_scope p = scope
  /\ quota = Capacity_get (gp_quota p) /\ period = QuotaPeriod_duration (gp_period p)
  /\ burst = Capacity_get (gp_burst_capacity p) /\ gp_quota_mode p = Enforce.
Proof.
  intros Hid Hscope Hquota Hperiod Hburst. unfold GcraPolicy_new.
  rewrite Result_bind_Ok. setoid_rewrite Result_bind_Ok. setoid_rewrite Result_bind_Ok.
  unfold GcraPolicy_wf, GcraPolicy_valid. split.
  - intros (q & Hq & b & Hb & w & Hw & Hr).
    apply map_err_Ok, Capacity_new_ok in Hq as [-> Hq]; [|done].
    apply map_err_Ok, Capacity_new_ok in Hb as [-> Hb]; [|done].
    apply map_err_Ok, QuotaPeriod_new_ok in Hw as [-> Hw]; [|done].
    destruct (Z.ltb_spec MAX_WINDOW_MILLIS (div_ceil_u128
      (Capacity_get (mkCapacity burst) * QuotaPeriod_millis w)
      (Capacity_get (mkCapacity quota)))) as [|Hle]; [done|].
    apply refill_le in Hle; [|unfold Capacity_wf in Hq; simpl in *; lia].
    injection Hr as <-. simpl in *. split_and!; try done.
  - intros (((_ & _ & Hq & Hw & Hb & Hle) & Hf) & <- & <- & -> & -> & -> & Hm).
    exists (gp_quota p). split.
    { apply map_err_Ok, Capacity_new_ok; [done|]. by destruct (gp_quota p). }
    exists (gp_burst_capacity p). split.
    { apply map_err_Ok, Capacity_new_ok; [done|]. by destruct (gp_burst_capacity p). }
    exists (gp_period p). split.
    { by apply map_err_Ok, QuotaPeriod_new_ok. }
    apply refill_le in Hle; [|unfold Capacity_wf in Hq; lia].
    case_cmp; [lia|]. destruct p; simpl in *. by subst.
Qed.
