(* ===== verification/Decision.v ===== *)
(** [runlimit-core/src/decision.rs]: delays, denials, allowances, the
    outcome of one check and of an atomic batch, and their wire forms. *)

From S2P Require Import Prelude RustStd Identifier Policy.
Open Scope list_scope.

(** * [Delay] *)

Record Delay := mkDelay { Delay_duration : Duration }.

#[export] Instance Delay_eq_dec : EqDecision Delay.
Proof. solve_decision. Defined.

Definition Delay_new (duration : Duration) : Delay := mkDelay duration.

Definition Delay_seconds (d : Delay) : Z :=
  let seconds := as_secs (Delay_duration d) in
  if subsec_nanos (Delay_duration d) =? 0 then seconds
  else saturating_add u64_max seconds 1.

(** * Denials and allowances *)

Inductive DecisionError :=
| DecisionError_AvailableExceedsCapacity (capacity : Capacity) (available : Z)
| DecisionError_DeniedIndexOutOfRange (index batch_size : nat)
| DecisionError_EmptyBatch.

Record QuotaDenial := mkQuotaDenial {
  QuotaDenial_capacity : Capacity;
  QuotaDenial_retry_after : Delay;
}.

#[export] Instance QuotaDenial_eq_dec : EqDecision QuotaDenial.
Proof. solve_decision. Defined.

Definition QuotaDenial_new (capacity : Capacity) (retry_after : Duration) : QuotaDenial :=
  mkQuotaDenial capacity (Delay_new retry_after).

Inductive Denial :=
| QuotaExceeded (denial : QuotaDenial)
| StorageCapacity (retry_after : option Delay).

#[export] Instance Denial_eq_dec : EqDecision Denial.
Proof. solve_decision. Defined.

Record Allowance := mkAllowance {
  Allowance_capacity : Capacity;
  Allowance_available : Z;
  Allowance_replenishes_after : Delay;
}.

#[export] Instance Allowance_eq_dec : EqDecision Allowance.
Proof. solve_decision. Defined.

Definition Allowance_new (capacity : Capacity) (available : Z)
    (replenishes_after : Duration) : Result DecisionError Allowance :=
  if Capacity_get capacity <? available
  then Err (DecisionError_AvailableExceedsCapacity capacity available)
  else Ok (mkAllowance capacity available (Delay_new replenishes_after)).

(** * [Admitted] and [Decision] *)

Inductive AdmittedView :=
| AdmittedView_Allowed (allowance : Allowance)
| AdmittedView_ShadowDenied (denial : QuotaDenial).

Inductive AdmittedOutcome :=
| AdmittedOutcome_Allowed (allowance : Allowance)
| AdmittedOutcome_ShadowDenied (denial : QuotaDenial).

#[export] Instance AdmittedOutcome_eq_dec : EqDecision AdmittedOutcome.
Proof. solve_decision. Defined.

(** [struct Admitted]. *)
Record AdmittedDecision := mkAdmitted { Admitted_outcome : AdmittedOutcome }.

#[export] Instance AdmittedDecision_eq_dec : EqDecision AdmittedDecision.
Proof. solve_decision. Defined.

Definition Admitted_allowed (allowance : Allowance) : AdmittedDecision :=
  mkAdmitted (AdmittedOutcome_Allowed allowance).
Definition Admitted_shadow_denied (denial : QuotaDenial) : AdmittedDecision :=
  mkAdmitted (AdmittedOutcome_ShadowDenied denial).
Definition Admitted_view (a : AdmittedDecision) : AdmittedView :=
  match Admitted_outcome a with
  | AdmittedOutcome_Allowed allowance => AdmittedView_Allowed allowance
  | AdmittedOutcome_ShadowDenied denial => AdmittedView_ShadowDenied denial
  end.

Inductive DecisionView :=
| DecisionView_Allowed (allowance : Allowance)
| DecisionView_Denied (denial : Denial)
| DecisionView_ShadowDenied (denial : QuotaDenial).

(** [enum Outcome] of decision.rs. *)
Inductive DecisionOutcome :=
| Outcome_Admitted (admitted : AdmittedDecision)
| Outcome_Denied (denial : Denial).

#[export] Instance DecisionOutcome_eq_dec : EqDecision DecisionOutcome.
Proof. solve_decision. Defined.

Record Decision := mkDecision { Decision_outcome : DecisionOutcome }.

#[export] Instance Decision_eq_dec : EqDecision Decision.
Proof. solve_decision. Defined.

Definition Decision_allowed (allowance : Allowance) : Decision :=
  mkDecision (Outcome_Admitted (Admitted_allowed allowance)).
Definition Decision_denied (denial : Denial) : Decision :=
  mkDecision (Outcome_Denied denial).
Definition Decision_shadow_denied (denial : QuotaDenial) : Decision :=
  mkDecision (Outcome_Admitted (Admitted_shadow_denied denial)).

Definition Decision_view (d : Decision) : DecisionView :=
  match Decision_outcome d with
  | Outcome_Admitted admitted =>
      match Admitted_view admitted with
      | AdmittedView_Allowed allowance => DecisionView_Allowed allowance
      | AdmittedView_ShadowDenied denial => DecisionView_ShadowDenied denial
      end
  | Outcome_Denied denial => DecisionView_Denied denial
  end.

Definition Decision_permits_request (d : Decision) : bool :=
  match Decision_outcome d with Outcome_Admitted _ => true | _ => false end.

Definition Decision_admit (d : Decision) : Result Denial AdmittedDecision :=
  match Decision_outcome d with
  | Outcome_Admitted admitted => Ok admitted
  | Outcome_Denied denial => Err denial
  end.

(** [From<Admitted> for Decision]. *)
Definition Decision_of_admitted (admitted : AdmittedDecision) : Decision :=
  mkDecision (Outcome_Admitted admitted).

(** * [BatchDecision] *)

Inductive BatchOutcome :=
| BatchOutcome_Allowed (allowances : list Allowance)
| BatchOutcome_Denied (index batch_size : nat) (denial : Denial)
| BatchOutcome_ShadowDenied (index batch_size : nat) (denial : QuotaDenial).

Record BatchDecision := mkBatchDecision { BatchDecision_outcome : BatchOutcome }.

Inductive BatchDecisionView :=
| BatchDecisionView_Allowed (allowances : list Allowance)
| BatchDecisionView_Denied (index batch_size : nat) (denial : Denial)
| BatchDecisionView_ShadowDenied (index batch_size : nat) (denial : QuotaDenial).

Definition NonZeroUsize_new (n : nat) : option nat :=
  match n with O => None | S _ => Some n end.

Definition validate_batch_index (index batch_size : nat) : Result DecisionError nat :=
  match NonZeroUsize_new batch_size with
  | Some batch_size =>
      if Nat.ltb index batch_size then Ok batch_size
      else Err (DecisionError_DeniedIndexOutOfRange index batch_size)
  | None => Err (DecisionError_DeniedIndexOutOfRange index batch_size)
  end.

Definition BatchDecision_allowed (allowances : list Allowance)
    : Result DecisionError BatchDecision :=
  match allowances with
  | [] => Err DecisionError_EmptyBatch
  | _ => Ok (mkBatchDecision (BatchOutcome_Allowed allowances))
  end.

Definition BatchDecision_denied (index batch_size : nat) (denial : Denial)
    : Result DecisionError BatchDecision :=
  batch_size ← validate_batch_index index batch_size;
  mret (mkBatchDecision (BatchOutcome_Denied index batch_size denial)).

Definition BatchDecision_shadow_denied (index batch_size : nat) (denial : QuotaDenial)
    : Result DecisionError BatchDecision :=
  match validate_batch_index index batch_size with
  | Ok batch_size =>
      Ok (mkBatchDecision (BatchOutcome_ShadowDenied index batch_size denial))
  | Err error => Err error
  end.

Definition BatchDecision_view (d : BatchDecision) : BatchDecisionView :=
  match BatchDecision_outcome d with
  | BatchOutcome_Allowed allowances => BatchDecisionView_Allowed allowances
  | BatchOutcome_Denied index batch_size denial =>
      BatchDecisionView_Denied index batch_size denial
  | BatchOutcome_ShadowDenied index batch_size denial =>
      BatchDecisionView_ShadowDenied index batch_size denial
  end.

Definition BatchDecision_permits_request (d : BatchDecision) : bool :=
  match BatchDecision_outcome d with BatchOutcome_Denied _ _ _ => false | _ => true end.

(** * Wire forms *)

Inductive DenialWire :=
| DenialWire_QuotaExceeded (capacity : Z) (retry_after : Duration)
| DenialWire_StorageCapacity (retry_after : option Duration).

Inductive QuotaDenialWire :=
| QuotaDenialWire_QuotaExceeded (capacity : Z) (retry_after : Duration).

Record AllowanceWire := mkAllowanceWire {
  aw_capacity : Z; aw_available : Z; aw_replenishes_after : Duration;
}.

Inductive DecisionWireError :=
| DecisionWireError_capacity (e : CapacityError)
| DecisionWireError_decision (e : DecisionError)
| DecisionWireError_unknown_variant.

Definition QuotaDenialWire_validate (w : QuotaDenialWire)
    : Result DecisionWireError QuotaDenial :=
  let 'QuotaDenialWire_QuotaExceeded capacity retry_after := w in
  map_err DecisionWireError_capacity
    ((fun capacity => QuotaDenial_new capacity retry_after) <$> Capacity_new capacity).

Definition AllowanceWire_validate (w : AllowanceWire) : Result DecisionWireError Allowance :=
  capacity ← map_err DecisionWireError_capacity (Capacity_new (aw_capacity w));
  map_err DecisionWireError_decision
    (Allowance_new capacity (aw_available w) (aw_replenishes_after w)).

Definition Denial_serialize (d : Denial) : DenialWire :=
  match d with
  | QuotaExceeded denial =>
      DenialWire_QuotaExceeded (Capacity_get (QuotaDenial_capacity denial))
        (Delay_duration (QuotaDenial_retry_after denial))
  | StorageCapacity retry_after =>
      DenialWire_StorageCapacity (Delay_duration <$> retry_after)
  end.

Definition Denial_deserialize (w : DenialWire) : Result DecisionWireError Denial :=
  match w with
  | DenialWire_QuotaExceeded capacity retry_after =>
      map_err DecisionWireError_capacity
        ((fun capacity => QuotaExceeded (QuotaDenial_new capacity retry_after))
          <$> Capacity_new capacity)
  | DenialWire_StorageCapacity retry_after =>
      Ok (StorageCapacity (Delay_new <$> retry_after))
  end.

(** A derived reader of [QuotaDenialWire] knows one [reason] only. *)
Definition QuotaDenialWire_read (w : DenialWire) : Result DecisionWireError QuotaDenialWire :=
  match w with
  | DenialWire_QuotaExceeded capacity retry_after =>
      Ok (QuotaDenialWire_QuotaExceeded capacity retry_after)
  | DenialWire_StorageCapacity _ => Err DecisionWireError_unknown_variant
  end.

Definition Allowance_serialize (a : Allowance) : AllowanceWire :=
  mkAllowanceWire (Capacity_get (Allowance_capacity a)) (Allowance_available a)
    (Delay_duration (Allowance_replenishes_after a)).

Definition Allowance_deserialize (w : AllowanceWire) : Result DecisionWireError Allowance :=
  AllowanceWire_validate w.

(** The wire object of a decision: [DecisionRef] when written and
    [DecisionWire] when read have the same fields. *)
Inductive DecisionWire :=
| DecisionWire_Allowed (capacity available : Z) (replenishes_after : Duration)
| DecisionWire_Denied (denial : DenialWire)
| DecisionWire_ShadowDenied (denial : DenialWire).

Definition Decision_serialize (d : Decision) : DecisionWire :=
  match Decision_outcome d with
  | Outcome_Admitted admitted =>
      match Admitted_view admitted with
      | AdmittedView_Allowed allowance =>
          DecisionWire_Allowed (Capacity_get (Allowance_capacity allowance))
            (Allowance_available allowance)
            (Delay_duration (Allowance_replenishes_after allowance))
      | AdmittedView_ShadowDenied denial =>
          DecisionWire_ShadowDenied (Denial_serialize (QuotaExceeded denial))
      end
  | Outcome_Denied denial => DecisionWire_Denied (Denial_serialize denial)
  end.

Definition Decision_deserialize (w : DecisionWire) : Result DecisionWireError Decision :=
  match w with
  | DecisionWire_Allowed capacity available replenishes_after =>
      Decision_allowed <$>
        AllowanceWire_validate (mkAllowanceWire capacity available replenishes_after)
  | DecisionWire_Denied denial => Decision_denied <$> Denial_deserialize denial
  | DecisionWire_ShadowDenied denial =>
      denial ← QuotaDenialWire_read denial;
      Decision_shadow_denied <$> QuotaDenialWire_validate denial
  end.

Inductive BatchDecisionWire :=
| BatchDecisionWire_Allowed (allowances : list AllowanceWire)
| BatchDecisionWire_Denied (index batch_size : nat) (denial : DenialWire)
| BatchDecisionWire_ShadowDenied (index batch_size : nat) (denial : DenialWire).

Definition BatchDecision_serialize (d : BatchDecision) : BatchDecisionWire :=
  match BatchDecision_outcome d with
  | BatchOutcome_Allowed allowances =>
      BatchDecisionWire_Allowed (map Allowance_serialize allowances)
  | BatchOutcome_Denied index batch_size denial =>
      BatchDecisionWire_Denied index batch_size (Denial_serialize denial)
  | BatchOutcome_ShadowDenied index batch_size denial =>
      BatchDecisionWire_ShadowDenied index batch_size
        (Denial_serialize (QuotaExceeded denial))
  end.

(** A [Vec<Allowance>] is read element by element and stops at the first
    invalid one. *)
Fixpoint Allowances_deserialize (ws : list AllowanceWire)
    : Result DecisionWireError (list Allowance) :=
  match ws with
  | [] => Ok []
  | w :: ws =>
      allowance ← Allowance_deserialize w;
      allowances ← Allowances_deserialize ws;
      mret (allowance :: allowances)
  end.

Definition BatchDecision_deserialize (w : BatchDecisionWire)
    : Result DecisionWireError BatchDecision :=
  match w with
  | BatchDecisionWire_Allowed allowances =>
      allowances ← Allowances_deserialize allowances;
      map_err DecisionWireError_decision (BatchDecision_allowed allowances)
  | BatchDecisionWire_Denied index batch_size denial =>
      denial ← Denial_deserialize denial;
      map_err DecisionWireError_decision (BatchDecision_denied index batch_size denial)
  | BatchDecisionWire_ShadowDenied index batch_size denial =>
      denial ← QuotaDenialWire_read denial;
      denial ← QuotaDenialWire_validate denial;
      map_err DecisionWireError_decision (BatchDecision_shadow_denied index batch_size denial)
  end.

(** * Validity: what the private fields of a constructed value satisfy *)

Definition QuotaDenial_wf (d : QuotaDenial) : Prop := Capacity_wf (QuotaDenial_capacity d).

Definition Denial_wf (d : Denial) : Prop :=
  match d with QuotaExceeded denial => QuotaDenial_wf denial | StorageCapacity _ => True end.

Definition Allowance_wf (a : Allowance) : Prop :=
  Capacity_wf (Allowance_capacity a)
  /\ 0 <= Allowance_available a <= Capacity_get (Allowance_capacity a).

Definition Decision_wf (d : Decision) : Prop :=
  match Decision_view d with
  | DecisionView_Allowed allowance => Allowance_wf allowance
  | DecisionView_Denied denial => Denial_wf denial
  | DecisionView_ShadowDenied denial => QuotaDenial_wf denial
  end.

Definition BatchDecision_wf (d : BatchDecision) : Prop :=
  match BatchDecision_view d with
  | BatchDecisionView_Allowed allowances => allowances <> [] /\ Forall Allowance_wf allowances
  | BatchDecisionView_Denied index batch_size denial =>
      (index < batch_size)%nat /\ Denial_wf denial
  | BatchDecisionView_ShadowDenied index batch_size denial =>
      (index < batch_size)%nat /\ QuotaDenial_wf denial
  end.

(** A wire object's numbers are [u64]s; nothing else is known of it. *)
Definition AllowanceWire_typed (w : AllowanceWire) : Prop :=
  in_u64 (aw_capacity w) /\ in_u64 (aw_available w).

Definition DenialWire_typed (w : DenialWire) : Prop :=
  match w with
  | DenialWire_QuotaExceeded capacity _ => in_u64 capacity
  | DenialWire_StorageCapacity _ => True
  end.

Definition DecisionWire_typed (w : DecisionWire) : Prop :=
  match w with
  | DecisionWire_Allowed capacity available _ => in_u64 capacity /\ in_u64 available
  | DecisionWire_Denied denial | DecisionWire_ShadowDenied denial => DenialWire_typed denial
  end.

Definition BatchDecisionWire_typed (w : BatchDecisionWire) : Prop :=
  match w with
  | BatchDecisionWire_Allowed allowances => Forall AllowanceWire_typed allowances
  | BatchDecisionWire_Denied _ _ denial | BatchDecisionWire_ShadowDenied _ _ denial =>
      DenialWire_typed denial
  end.

(** * Lemmas *)

Lemma validate_batch_index_ok i n m :
  validate_batch_index i n = Ok m <-> m = n /\ (i < n)%nat.
Proof.
  unfold validate_batch_index. destruct n; simpl NonZeroUsize_new; cbv iota.
  - split; [done|]. intros [_ ?]. lia.
  - destruct (Nat.ltb_spec i (S n)); split; intros; destr_hyps; simplify_eq;
      try done; lia.
Qed.

Lemma BatchDecision_denied_ok i n d :
  (i < n)%nat -> BatchDecision_denied i n d = Ok (mkBatchDecision (BatchOutcome_Denied i n d)).
Proof.
  intros H. unfold BatchDecision_denied.
  by rewrite (proj2 (validate_batch_index_ok i n n)).
Qed.

Lemma BatchDecision_shadow_denied_ok i n d :
  (i < n)%nat ->
  BatchDecision_shadow_denied i n d = Ok (mkBatchDecision (BatchOutcome_ShadowDenied i n d)).
Proof.
  intros H. unfold BatchDecision_shadow_denied.
  by rewrite (proj2 (validate_batch_index_ok i n n)).
Qed.

Lemma Allowance_new_ok c av d :
  av <= Capacity_get c -> Allowance_new c av d = Ok (mkAllowance c av (Delay_new d)).
Proof. intros. unfold Allowance_new. case_cmp; [lia|done]. Qed.

Lemma Capacity_new_get c : Capacity_wf c -> Capacity_new (Capacity_get c) = Ok c.
Proof.
  intros H. apply Capacity_new_ok; [unfold Capacity_wf in H; lia|]. by destruct c.
Qed.

Lemma Allowance_roundtrip a :
  Allowance_wf a -> Allowance_deserialize (Allowance_serialize a) = Ok a.
Proof.
  intros [Hc Ha]. unfold Allowance_deserialize, AllowanceWire_validate; simpl.
  rewrite Capacity_new_get by done. simpl. rewrite Allowance_new_ok by lia.
  by destruct a as [? ? []].
Qed.

Lemma QuotaDenial_roundtrip d : QuotaDenial_wf d ->
  (w ← QuotaDenialWire_read (Denial_serialize (QuotaExceeded d)); QuotaDenialWire_validate w)
  = Ok d.
Proof.
  intros H. simpl. rewrite Capacity_new_get by done. by destruct d as [? []].
Qed.

Lemma Denial_roundtrip d : Denial_wf d -> Denial_deserialize (Denial_serialize d) = Ok d.
Proof.
  destruct d as [d|[[r]|]]; simpl; [|done..]. intros H.
  rewrite Capacity_new_get by done. by destruct d as [? []].
Qed.

Lemma Allowances_roundtrip l : Forall Allowance_wf l ->
  Allowances_deserialize (map Allowance_serialize l) = Ok l.
Proof.
  induction 1 as [|a l Ha _ IH]; simpl; [done|].
  rewrite Allowance_roundtrip by done. simpl. by rewrite IH.
Qed.

Lemma Capacity_new_wf v c : Capacity_new v = Ok c -> 0 <= v -> Capacity_wf c.
Proof. intros H Hv. by apply Capacity_new_ok in H as [_ ?]. Qed.

(** ** What is read is valid, and would be written the same way *)

Lemma Capacity_new_read v c : in_u64 v -> Capacity_new v = Ok c -> Capacity_wf c /\ Capacity_get c = v.
Proof. intros [Hv _] H. by apply Capacity_new_ok in H as [-> ?]. Qed.

Lemma Allowance_read w a : AllowanceWire_typed w -> Allowance_deserialize w = Ok a ->
  Allowance_wf a /\ Allowance_serialize a = w.
Proof.
  intros [Hc [Ha _]] H. unfold Allowance_deserialize, AllowanceWire_validate in H.
  apply Result_bind_Ok in H as (c & H1 & H). apply map_err_Ok in H1, H.
  apply (Capacity_new_read _ _ Hc) in H1 as [Hwf Hget].
  unfold Allowance_new in H. destruct (Z.ltb_spec (Capacity_get c) (aw_available w)); simplify_eq.
  unfold Allowance_wf, Allowance_serialize. cbn. rewrite Hget.
  split; [split; [done|lia]|by destruct w].
Qed.

Lemma Denial_read w d : DenialWire_typed w -> Denial_deserialize w = Ok d ->
  Denial_wf d /\ Denial_serialize d = w.
Proof.
  destruct w as [v r|r]; cbn; intros Hw H.
  - apply map_err_Ok in H. destruct (Capacity_new v) as [c|] eqn:Hc; simplify_eq/=.
    destruct (Capacity_new_read _ _ Hw Hc) as [Hwf Hget]. split; [exact Hwf|].
    cbn. by rewrite Hget.
  - injection H as <-. by destruct r.
Qed.

Lemma QuotaDenial_read w w' q : DenialWire_typed w -> QuotaDenialWire_read w = Ok w' ->
  QuotaDenialWire_validate w' = Ok q -> QuotaDenial_wf q /\ Denial_serialize (QuotaExceeded q) = w.
Proof.
  destruct w as [v r|r]; cbn; intros Hw [= <-] H.
  apply (Denial_read (DenialWire_QuotaExceeded v r) (QuotaExceeded q) Hw). cbn in *.
  apply map_err_Ok in H. by destruct (Capacity_new v); simplify_eq/=.
Qed.

Lemma Allowances_read ws l : Forall AllowanceWire_typed ws -> Allowances_deserialize ws = Ok l ->
  Forall Allowance_wf l /\ map Allowance_serialize l = ws.
Proof.
  intros Hws. revert l. induction Hws as [|w ws Hw _ IH]; cbn; intros l H.
  - by injection H as <-.
  - apply Result_bind_Ok in H as (a & Ha & H). apply Result_bind_Ok in H as (l' & Hl & [= <-]).
    destruct (Allowance_read _ _ Hw Ha) as [? <-]. destruct (IH _ Hl) as [? <-].
    split; [by constructor|done].
Qed.

Lemma Decision_read w d : DecisionWire_typed w -> Decision_deserialize w = Ok d ->
  Decision_wf d /\ Decision_serialize d = w.
Proof.
  destruct w as [v av r|w|w]; cbn -[AllowanceWire_validate QuotaDenialWire_validate]; intros Hw H.
  - destruct (AllowanceWire_validate _) as [a|] eqn:Ha; simplify_eq/=.
    destruct (Allowance_read (mkAllowanceWire v av r) a Hw Ha) as [Hwf Heq]. split; [done|].
    unfold Allowance_serialize in Heq. injection Heq as H1 H2 H3. cbn. by rewrite H1, H2, H3.
  - destruct (Denial_deserialize w) as [d'|] eqn:Hd; simplify_eq/=.
    by destruct (Denial_read _ _ Hw Hd) as [? <-].
  - apply Result_bind_Ok in H as (w' & H1 & H).
    destruct (QuotaDenialWire_validate w') as [q|] eqn:Hq; simplify_eq/=.
    by destruct (QuotaDenial_read _ _ _ Hw H1 Hq) as [? <-].
Qed.

Lemma BatchDecision_read w d : BatchDecisionWire_typed w -> BatchDecision_deserialize w = Ok d ->
  BatchDecision_wf d /\ BatchDecision_serialize d = w.
Proof.
  destruct w as [ws|i n w|i n w]; cbn -[QuotaDenialWire_validate]; intros Hw H.
  - apply Result_bind_Ok in H as (l & Hl & H). destruct (Allowances_read _ _ Hw Hl) as [? <-].
    destruct l; [done|]. by injection H as <-.
  - apply Result_bind_Ok in H as (d' & Hd & H). destruct (Denial_read _ _ Hw Hd) as [? <-].
    apply map_err_Ok in H. unfold BatchDecision_denied in H.
    apply Result_bind_Ok in H as (m & Hm & [= <-]). by apply validate_batch_index_ok in Hm as [-> ?].
  - apply Result_bind_Ok in H as (w' & H1 & H). apply Result_bind_Ok in H as (q & Hq & H).
    destruct (QuotaDenial_read _ _ _ Hw H1 Hq) as [? <-]. apply map_err_Ok in H.
    unfold BatchDecision_shadow_denied in H. destruct (validate_batch_index i n) eqn:Hm; simplify_eq.
    by apply validate_batch_index_ok in Hm as [-> ?].
Qed.

(** * Theorems *)

(** [Delay::seconds] is the least whole number of seconds not shorter
    than the delay, saturating at [u64::MAX]: a header never announces a
    retry earlier than the backend would honour it. *)
Theorem delay_seconds_ceiling (d : Duration) (Hd : Duration_wf d) :
  in_u64 (Delay_seconds (Delay_new d))
  /\ (as_nanos d <= Delay_seconds (Delay_new d) * 1000000000
      \/ Delay_seconds (Delay_new d) = u64_max)
  /\ (forall t, 0 <= t -> as_nanos d <= t * 1000000000 ->
        Delay_seconds (Delay_new d) <= t).
Proof.
  unfold Duration_wf, DURATION_MAX in Hd. simpl in Hd.
  unfold Delay_seconds, Delay_new, as_secs, subsec_nanos, in_u64, saturating_add; simpl.
  unfold_widths. destruct d as [n]; simpl in *. case_cmp; split_and!; lia.
Qed.

(** A concrete instance. *)
Lemma delay_seconds_ceiling_witness :
  let d := mkDuration 1000000001 in
  Duration_wf d /\ Delay_seconds (Delay_new d) = 2
  /\ in_u64 (Delay_seconds (Delay_new d)).
Proof.
  split; [vm_compute; split; discriminate|]. split; [reflexivity|].
  refine (proj1 (delay_seconds_ceiling (mkDuration 1000000001) _)).
  vm_compute; split; discriminate.
Defined.

(** C40. The wire forms are exact. Every valid decision and batch decision
    survives serialization: reading back what was written returns the same
    value. Conversely, whatever is read from a wire object of any [u64]s is
    valid (capacities lie between 1 and [i64::MAX], no allowance has more
    available than its capacity, an allowed batch is nonempty, a denied index
    lies below its batch size), and the object read is the one that would be
    written for it; so every other object is refused, in particular a shadow
    outcome that carries a storage-capacity denial. *)
Theorem decision_wire_roundtrip :
  (forall d, Decision_wf d -> Decision_deserialize (Decision_serialize d) = Ok d)
  /\ (forall d, BatchDecision_wf d ->
        BatchDecision_deserialize (BatchDecision_serialize d) = Ok d)
  /\ (forall w d, DecisionWire_typed w -> Decision_deserialize w = Ok d ->
        Decision_wf d /\ Decision_serialize d = w)
  /\ (forall w d, BatchDecisionWire_typed w -> BatchDecision_deserialize w = Ok d ->
        BatchDecision_wf d /\ BatchDecision_serialize d = w)
  /\ (forall r, Decision_deserialize (DecisionWire_ShadowDenied (DenialWire_StorageCapacity r))
        = Err DecisionWireError_unknown_variant)
  /\ (forall i n r, BatchDecision_deserialize
        (BatchDecisionWire_ShadowDenied i n (DenialWire_StorageCapacity r))
        = Err DecisionWireError_unknown_variant).
Proof.
  split; [|split; [|split; [exact Decision_read|split; [exact BatchDecision_read|done]]]].
  - intros [[[[a|q]]|d]] H; cbn in H.
    + cbn [Decision_deserialize Decision_serialize Decision_outcome Admitted_view
           Admitted_outcome].
      pose proof (Allowance_roundtrip a H) as E.
      unfold Allowance_deserialize, Allowance_serialize in E. rewrite E. done.
    + pose proof (QuotaDenial_roundtrip q H) as E. simpl in E |- *. by rewrite E.
    + simpl. by rewrite Denial_roundtrip.
  - intros [[l|i n d|i n d]] H; cbn in H.
    + simpl. destruct H as [Hne H]. rewrite Allowances_roundtrip by done. simpl.
      by destruct l.
    + simpl. rewrite Denial_roundtrip by tauto. simpl.
      by rewrite BatchDecision_denied_ok by tauto.
    + destruct H as [Hi H]. pose proof (QuotaDenial_roundtrip d H) as E.
      simpl in E |- *. rewrite E. simpl. by rewrite BatchDecision_shadow_denied_ok.
Qed.

(** C40 witness: an allowance written and read, and a wire object with more
    available than its capacity, refused. *)
Lemma decision_wire_roundtrip_witness :
  let a := mkAllowance (mkCapacity 5) 3 (Delay_new (mkDuration 7)) in
  Decision_deserialize (DecisionWire_Allowed 5 3 (mkDuration 7)) = Ok (Decision_allowed a)
  /\ Decision_serialize (Decision_allowed a) = DecisionWire_Allowed 5 3 (mkDuration 7)
  /\ Decision_deserialize (DecisionWire_Allowed 5 6 (mkDuration 7))
     = Err (DecisionWireError_decision (DecisionError_AvailableExceedsCapacity (mkCapacity 5) 6)).
Proof.
  destruct decision_wire_roundtrip as (_ & _ & Hread & _).
  split; [reflexivity|]. split; [|reflexivity].
  apply Hread; [vm_compute; repeat split; discriminate|reflexivity].
Defined.

(** [admit] is lossless and agrees with [permits_request]. *)
Lemma Decision_admit_spec d :
  Decision_permits_request d = is_ok (Decision_admit d)
  /\ match Decision_admit d with
     | Ok a => d = Decision_of_admitted a
     | Err denial => d = Decision_denied denial
     end.
Proof. destruct d as [[a|d]]; by split. Qed.
