(* ===== verification/AttemptPolicy.v ===== *)
(** [runlimit-core/src/attempts.rs]: the exponential-backoff policy of
    outcome-aware attempts, completion metadata and the attempt vocabulary
    shared by the backends; and the separation of the three fingerprint
    encodings. *)

From Stdlib Require Import Ascii String.
From S2P Require Import Prelude RustStd Identifier Policy Decision.
From stdpp Require Import prelude list.
Open Scope Z_scope.
Open Scope list_scope.

Record AttemptPolicy := mkAttemptPolicy {
  ap_id : PolicyId;
  ap_scope : ScopeId;
  ap_initial_delay : QuotaPeriod;
  ap_maximum_delay : QuotaPeriod;
  ap_quiet_period : QuotaPeriod;
  ap_lease : QuotaPeriod;
  ap_fingerprint : PolicyFingerprint;
}.

Inductive AttemptPolicyError := MaximumBelowInitial | QuietBelowMaximum.

Definition ATTEMPT_FINGERPRINT_DOMAIN : bytes :=
  byte_string "runlimit/attempt-policy/v1" ++ [0].

Definition attempt_fingerprint_preimage (id : PolicyId) (scope : ScopeId)
    (initial_delay maximum_delay quiet_period lease : QuotaPeriod) : bytes :=
  ATTEMPT_FINGERPRINT_DOMAIN
  ++ as_bytes (PolicyId_as_str id) ++ [0]
  ++ as_bytes (ScopeId_as_str scope) ++ [0]
  ++ ([initial_delay; maximum_delay; quiet_period; lease]
        ≫= fun value => to_be_bytes 8 (QuotaPeriod_millis value)).

Definition AttemptPolicy_new (sha256 : bytes -> bytes) (id : PolicyId) (scope : ScopeId)
    (initial_delay maximum_delay quiet_period lease : QuotaPeriod)
    : Result AttemptPolicyError AttemptPolicy :=
  if QuotaPeriod_millis maximum_delay <? QuotaPeriod_millis initial_delay
  then Err MaximumBelowInitial
  else if QuotaPeriod_millis quiet_period <? QuotaPeriod_millis maximum_delay
  then Err QuietBelowMaximum
  else
    Ok (mkAttemptPolicy id scope initial_delay maximum_delay quiet_period lease
          (from_digest (sha256 (attempt_fingerprint_preimage id scope
             initial_delay maximum_delay quiet_period lease)))).

(** Delay after this many consecutive failures. *)
Definition AttemptPolicy_delay (p : AttemptPolicy) (failures : Z) : Duration :=
  if failures =? 0 then DURATION_ZERO
  else
    from_millis
      (Z.min
         (saturating_mul u64_max (QuotaPeriod_millis (ap_initial_delay p))
            (default u64_max (checked_shl_u64 1 (failures - 1))))
         (QuotaPeriod_millis (ap_maximum_delay p))).

Definition AttemptPolicy_valid (p : AttemptPolicy) : Prop :=
  PolicyId_wf (ap_id p) /\ ScopeId_wf (ap_scope p)
  /\ QuotaPeriod_wf (ap_initial_delay p) /\ QuotaPeriod_wf (ap_maximum_delay p)
  /\ QuotaPeriod_wf (ap_quiet_period p) /\ QuotaPeriod_wf (ap_lease p)
  /\ QuotaPeriod_millis (ap_initial_delay p) <= QuotaPeriod_millis (ap_maximum_delay p)
  /\ QuotaPeriod_millis (ap_maximum_delay p) <= QuotaPeriod_millis (ap_quiet_period p).

Inductive AttemptDenial :=
| AttemptDenial_Busy (retry_after : Delay)
| AttemptDenial_Backoff (retry_after : Delay)
| AttemptDenial_StorageCapacity.

#[export] Instance AttemptDenial_eq_dec : EqDecision AttemptDenial.
Proof. solve_decision. Defined.

(** [enum AttemptAdmission<R>]. *)
Inductive AttemptAdmission (R : Type) :=
| AttemptAdmission_Admitted (receipt : R)
| Denied (denial : AttemptDenial).
Arguments AttemptAdmission_Admitted {R} _.
Arguments Denied {R} _.

Inductive AttemptOutcome := Success | Failure | Abandoned.

#[export] Instance AttemptOutcome_eq_dec : EqDecision AttemptOutcome.
Proof. solve_decision. Defined.

Record AttemptCompletion := mkAttemptCompletion {
  ac_outcome : AttemptOutcome;
  ac_consecutive_failures : Z;
  ac_retry_after : Delay;
}.

#[export] Instance AttemptCompletion_eq_dec : EqDecision AttemptCompletion.
Proof. solve_decision. Defined.

(** [struct AttemptCompletionError]. *)
Inductive AttemptCompletionError := mkAttemptCompletionError.

Definition AttemptCompletion_new (outcome : AttemptOutcome) (consecutive_failures : Z)
    (retry_after : Delay) : Result AttemptCompletionError AttemptCompletion :=
  let valid :=
    match outcome with
    | Success =>
        (consecutive_failures =? 0) && Duration_is_zero (Delay_duration retry_after)
    | Failure | Abandoned =>
        (0 <? consecutive_failures) && negb (Duration_is_zero (Delay_duration retry_after))
    end in
  if negb valid then Err mkAttemptCompletionError
  else Ok (mkAttemptCompletion outcome consecutive_failures retry_after).

Inductive AttemptCompletionResult :=
| Applied (completion : AttemptCompletion)
| Stale.

Inductive AttemptObservation :=
| AttemptObservation_Admitted
| AttemptObservation_Denied (denial : AttemptDenial)
| AttemptObservation_Completed (completion : AttemptCompletion)
| AttemptObservation_Stale
| AttemptObservation_CommitUncertain.

(** [trait AttemptObserver], a callback that may panic, and
    [observe_attempt_safely], which catches the panic. *)
Class AttemptObserver (Ob : Type) := {
  attempt_observe : Ob -> AttemptObservation -> Ob * Outcome unit;
}.
Definition observe_attempt_safely {Ob} `{AttemptObserver Ob} (observer : Ob) (observation : AttemptObservation) : Ob :=
  let '(observer, _) := attempt_observe observer observation in observer.

(** * The backoff schedule *)

Lemma checked_shl_1 n : 0 <= n ->
  checked_shl_u64 1 n = if n <? 64 then Some (2 ^ n) else None.
Proof.
  intros Hn. unfold checked_shl_u64. case_cmp; [|done]. f_equal.
  change u64_max with (Z.ones 64).
  rewrite Z.shiftl_1_l, Z.land_ones by lia.
  apply Z.mod_small. split; [apply Z.pow_nonneg; lia|].
  apply Z.pow_lt_mono_r; lia.
Qed.

Lemma pow2_ge_64 n : 64 <= n -> u64_max < 2 ^ n.
Proof.
  intros H. apply Z.lt_le_trans with (2 ^ 64); [reflexivity|].
  apply Z.pow_le_mono_r; lia.
Qed.

(** The closed form of the schedule: the saturating arithmetic of the code
    never shows, because the cap is far below [u64::MAX]. *)
Lemma AttemptPolicy_delay_closed p n : AttemptPolicy_valid p -> 0 < n ->
  AttemptPolicy_delay p n =
    from_millis (Z.min (QuotaPeriod_millis (ap_initial_delay p) * 2 ^ (n - 1))
                       (QuotaPeriod_millis (ap_maximum_delay p))).
Proof.
  intros (_ & _ & Hi & Hm & _ & _ & Him & _) Hn.
  unfold QuotaPeriod_wf in *. rewrite MAX_WINDOW_MILLIS_val in *.
  unfold AttemptPolicy_delay. case_cmp; [lia|]. f_equal.
  rewrite checked_shl_1 by lia. unfold saturating_mul.
  destruct (Z.ltb_spec (n - 1) 64); simpl.
  - unfold_widths. lia.
  - pose proof (pow2_ge_64 (n - 1) ltac:(lia)). unfold_widths.
    assert (QuotaPeriod_millis (ap_maximum_delay p)
      <= QuotaPeriod_millis (ap_initial_delay p) * 2 ^ (n - 1)) by nia.
    lia.
Qed.

Lemma AttemptPolicy_delay_bounds p n : AttemptPolicy_valid p -> 0 < n ->
  QuotaPeriod_millis (ap_initial_delay p) * 1000000 <= as_nanos (AttemptPolicy_delay p n)
  <= QuotaPeriod_millis (ap_maximum_delay p) * 1000000.
Proof.
  intros Hp Hn. rewrite AttemptPolicy_delay_closed by done.
  destruct Hp as (_ & _ & Hi & Hm & _ & _ & Him & _). unfold QuotaPeriod_wf in *.
  unfold from_millis; simpl.
  assert (1 <= 2 ^ (n - 1)) by (pose proof (Z.pow_pos_nonneg 2 (n - 1)); lia). nia.
Qed.

(** C39. The backoff delay after [n] consecutive failures is
    [min(initial * 2^(n-1), maximum)] milliseconds: never zero after a
    failure, monotone in the failure count, at most the cap and hence at
    most the quiet period; for every [u32] count, through the shift and the
    saturation. *)
Theorem attempt_delay_schedule (p : AttemptPolicy) (Hp : AttemptPolicy_valid p) :
  AttemptPolicy_delay p 0 = DURATION_ZERO
  /\ (forall n, 0 < n <= u32_max ->
       AttemptPolicy_delay p n =
         from_millis (Z.min (QuotaPeriod_millis (ap_initial_delay p) * 2 ^ (n - 1))
                            (QuotaPeriod_millis (ap_maximum_delay p))))
  /\ (forall n, 0 < n <= u32_max ->
       Duration_is_zero (AttemptPolicy_delay p n) = false
       /\ Duration_leb (AttemptPolicy_delay p n) (QuotaPeriod_duration (ap_quiet_period p))
          = true)
  /\ (forall m n, 0 <= m <= n -> n <= u32_max ->
       Duration_leb (AttemptPolicy_delay p m) (AttemptPolicy_delay p n) = true).
Proof.
  split_and!; [done|intros; apply AttemptPolicy_delay_closed; [done|lia]|..].
  - intros n Hn. pose proof (AttemptPolicy_delay_bounds p n Hp ltac:(lia)).
    destruct Hp as (_ & _ & Hi & Hm & _ & _ & Him & Hq). unfold QuotaPeriod_wf in *.
    unfold Duration_is_zero, Duration_leb, QuotaPeriod_duration, from_millis.
    cbn [as_nanos]. split; repeat case_cmp; try done; lia.
  - intros m n Hmn Hn. destruct (decide (m = 0)) as [->|Hm].
    { unfold Duration_leb, AttemptPolicy_delay at 1; simpl.
      destruct (decide (n = 0)) as [->|]; [done|].
      pose proof (AttemptPolicy_delay_bounds p n Hp ltac:(lia)).
      destruct Hp as (_ & _ & Hi & _). unfold QuotaPeriod_wf in Hi.
      case_cmp; [done|lia]. }
    rewrite !AttemptPolicy_delay_closed by (done || lia).
    destruct Hp as (_ & _ & Hi & _). unfold QuotaPeriod_wf in Hi.
    unfold Duration_leb, from_millis; cbn [as_nanos]. case_cmp; [done|].
    assert (2 ^ (m - 1) <= 2 ^ (n - 1)) by (apply Z.pow_le_mono_r; lia). nia.
Qed.

Definition example_attempt_policy : AttemptPolicy :=
  mkAttemptPolicy (mkPolicyId [97]) (mkScopeId [98]) (mkQuotaPeriod 1000)
    (mkQuotaPeriod 60000) (mkQuotaPeriod 600000) (mkQuotaPeriod 30000) (from_digest []).

Lemma example_attempt_policy_valid : AttemptPolicy_valid example_attempt_policy.
Proof.
  unfold AttemptPolicy_valid, PolicyId_wf, ScopeId_wf, identifier_wf, QuotaPeriod_wf.
  rewrite MAX_WINDOW_MILLIS_val. cbn. unfold MAX_IDENTIFIER_LENGTH.
  split_and!; try lia; repeat constructor.
Qed.

(** C39 witness. *)
Lemma attempt_delay_schedule_witness :
  AttemptPolicy_delay example_attempt_policy 3 = from_millis 4000
  /\ AttemptPolicy_delay example_attempt_policy 70 = from_millis 60000.
Proof.
  split; [reflexivity|].
  rewrite (proj1 (proj2 (attempt_delay_schedule example_attempt_policy
    example_attempt_policy_valid)) 70) by (unfold u32_max; lia).
  reflexivity.
Defined.

(** * Completion metadata *)

Definition AttemptCompletion_wf (c : AttemptCompletion) : Prop :=
  match ac_outcome c with
  | Success =>
      ac_consecutive_failures c = 0 /\ as_nanos (Delay_duration (ac_retry_after c)) = 0
  | _ =>
      0 < ac_consecutive_failures c /\ as_nanos (Delay_duration (ac_retry_after c)) <> 0
  end.

Lemma AttemptCompletion_new_ok o n d c :
  AttemptCompletion_new o n d = Ok c
  <-> c = mkAttemptCompletion o n d /\ AttemptCompletion_wf c.
Proof.
  unfold AttemptCompletion_new, AttemptCompletion_wf, Duration_is_zero.
  destruct o; repeat (case_cmp; simpl); split; intros; destr_hyps; simplify_eq;
    simpl in *; try done; try lia; (split; [done|split; [lia|lia || done]]).
Qed.

(** * Fingerprint encodings are separated *)

(** What a policy constructor hashes. *)
Inductive FingerprintInput :=
| FixedWindowInput (id : PolicyId) (scope : ScopeId) (limit : Capacity) (window : QuotaPeriod)
| GcraInput (id : PolicyId) (scope : ScopeId) (quota : Capacity) (period : QuotaPeriod)
    (burst_capacity : Capacity)
| AttemptInput (id : PolicyId) (scope : ScopeId)
    (initial_delay maximum_delay quiet_period lease : QuotaPeriod).

Definition FingerprintInput_preimage (i : FingerprintInput) : bytes :=
  match i with
  | FixedWindowInput id scope limit window => fingerprint_preimage id scope limit window
  | GcraInput id scope quota period burst =>
      gcra_fingerprint_preimage id scope quota period burst
  | AttemptInput id scope a b c d => attempt_fingerprint_preimage id scope a b c d
  end.

Definition FingerprintInput_wf (i : FingerprintInput) : Prop :=
  match i with
  | FixedWindowInput id scope limit window =>
      PolicyId_wf id /\ ScopeId_wf scope /\ Capacity_wf limit /\ QuotaPeriod_wf window
  | GcraInput id scope quota period burst =>
      PolicyId_wf id /\ ScopeId_wf scope /\ Capacity_wf quota /\ QuotaPeriod_wf period
      /\ Capacity_wf burst
  | AttemptInput id scope a b c d =>
      PolicyId_wf id /\ ScopeId_wf scope /\ QuotaPeriod_wf a /\ QuotaPeriod_wf b
      /\ QuotaPeriod_wf c /\ QuotaPeriod_wf d
  end.

(** The shared [id || NUL || scope || NUL || rest] framing is injective. *)
Lemma identity_framing_inj id1 id2 scope1 scope2 (r1 r2 : bytes) :
  PolicyId_wf id1 -> PolicyId_wf id2 -> ScopeId_wf scope1 -> ScopeId_wf scope2 ->
  as_bytes (PolicyId_as_str id1) ++ [0] ++ as_bytes (ScopeId_as_str scope1) ++ [0] ++ r1 =
  as_bytes (PolicyId_as_str id2) ++ [0] ++ as_bytes (ScopeId_as_str scope2) ++ [0] ++ r2 ->
  id1 = id2 /\ scope1 = scope2 /\ r1 = r2.
Proof.
  destruct id1 as [i1], id2 as [i2], scope1 as [s1], scope2 as [s2].
  unfold PolicyId_wf, ScopeId_wf; simpl. intros Hi1 Hi2 Hs1 Hs2.
  rewrite !identifier_wf_bytes by done. intros H.
  apply app_sep_inj in H as [-> H]; [|by apply identifier_wf_no_nul..].
  apply app_sep_inj in H as [-> ->]; [|by apply identifier_wf_no_nul..]. done.
Qed.

Lemma Capacity_be_inj c1 c2 : Capacity_wf c1 -> Capacity_wf c2 ->
  to_be_bytes 8 (Capacity_get c1) = to_be_bytes 8 (Capacity_get c2) -> c1 = c2.
Proof.
  unfold Capacity_wf, MAX_LIMIT. intros ? ? H. destruct c1 as [x], c2 as [y]; cbn [Capacity_get] in *.
  f_equal. apply to_be_bytes_u64_inj; [unfold in_u64; unfold_widths; lia..|done].
Qed.

Lemma QuotaPeriod_be_inj p1 p2 : QuotaPeriod_wf p1 -> QuotaPeriod_wf p2 ->
  to_be_bytes 8 (QuotaPeriod_millis p1) = to_be_bytes 8 (QuotaPeriod_millis p2) -> p1 = p2.
Proof.
  intros H1%QuotaPeriod_wf_u64 H2%QuotaPeriod_wf_u64 H. destruct p1, p2. f_equal.
  by apply to_be_bytes_u64_inj.
Qed.

(** C38. The three persistent fingerprint encodings are injective and
    pairwise domain-separated on valid inputs: fixed-window, GCRA and attempt
    policies never hash the same bytes unless they are the same kind of
    policy with the same identifier, scope and numbers.  So two policies
    share a storage namespace only if they agree on every storage-relevant
    field, or SHA-256 collides. *)
Theorem fingerprint_preimage_injective (i j : FingerprintInput)
    (Hi : FingerprintInput_wf i) (Hj : FingerprintInput_wf j) :
  FingerprintInput_preimage i = FingerprintInput_preimage j -> i = j.
Proof.
  destruct i, j; simpl in Hi, Hj |- *; destr_hyps; intros Heq; try done.
  - unfold fingerprint_preimage in Heq. apply app_inv_head in Heq.
    apply identity_framing_inj in Heq as (-> & -> & Heq); [|done..].
    apply app_inj_len1 in Heq as [Hl Hw]; [|by rewrite !to_be_bytes_length].
    apply Capacity_be_inj in Hl as ->; [|done..].
    by apply QuotaPeriod_be_inj in Hw as ->.
  - unfold gcra_fingerprint_preimage in Heq. apply app_inv_head in Heq.
    apply identity_framing_inj in Heq as (-> & -> & Heq); [|done..].
    apply app_inj_len1 in Heq as [Hq Heq]; [|by rewrite !to_be_bytes_length].
    apply app_inj_len1 in Heq as [Hp Hb]; [|by rewrite !to_be_bytes_length].
    apply Capacity_be_inj in Hq as ->; [|done..].
    apply QuotaPeriod_be_inj in Hp as ->; [|done..].
    by apply Capacity_be_inj in Hb as ->.
  - unfold attempt_fingerprint_preimage in Heq. apply app_inv_head in Heq.
    apply identity_framing_inj in Heq as (-> & -> & Heq); [|done..].
    cbn [mbind list_bind] in Heq.
    repeat (let Hq := fresh "Hq" in
      apply app_inj_len1 in Heq as [Hq Heq]; [|by rewrite !to_be_bytes_length];
      apply QuotaPeriod_be_inj in Hq as ->; [|done..]).
    done.
Qed.

(** C38 witness. *)
Lemma fingerprint_preimage_injective_witness :
  let id := mkPolicyId [97] in
  let scope := mkScopeId [98] in
  (FingerprintInput_preimage (FixedWindowInput id scope (mkCapacity 8) (mkQuotaPeriod 1000))
   = FingerprintInput_preimage (FixedWindowInput id scope (mkCapacity 8) (mkQuotaPeriod 1000)))
  /\ FixedWindowInput id scope (mkCapacity 8) (mkQuotaPeriod 1000)
     = FixedWindowInput id scope (mkCapacity 8) (mkQuotaPeriod 1000).
Proof.
  split; [reflexivity|].
  assert (H : FingerprintInput_wf (FixedWindowInput (mkPolicyId [97]) (mkScopeId [98])
    (mkCapacity 8) (mkQuotaPeriod 1000))).
  { cbn. unfold PolicyId_wf, ScopeId_wf, identifier_wf, Capacity_wf, QuotaPeriod_wf.
    rewrite MAX_WINDOW_MILLIS_val. unfold MAX_LIMIT, MAX_IDENTIFIER_LENGTH. cbn.
    unfold_widths. split_and!; try lia; repeat constructor. }
  exact (fingerprint_preimage_injective _ _ H H eq_refl).
Defined.
