(* ===== verification/Key.v ===== *)
(** [runlimit-core/src/key.rs] and [counter.rs]: opaque subject keys, their
    binding to a policy, keyed derivation, and counter keys.  HMAC-SHA-256
    (the [hmac] crate) is a parameter, given by the class [Mac]. *)

From Stdlib Require Import Ascii String.
From S2P Require Import Prelude RustStd Identifier Policy Decision AttemptPolicy.
From stdpp Require Import prelude list.
Open Scope Z_scope.
Open Scope list_scope.

Definition KEY_DOMAIN : bytes := byte_string "runlimit/subject-key/v1" ++ [0].

Record SubjectKey := mkSubjectKey { SubjectKey_as_bytes : bytes }.

#[export] Instance SubjectKey_eq_dec : EqDecision SubjectKey.
Proof. solve_decision. Defined.
#[export] Instance SubjectKey_countable : Countable SubjectKey.
Proof. by refine (inj_countable' SubjectKey_as_bytes mkSubjectKey _); intros []. Defined.

Definition SubjectKey_from_digest (digest : bytes) : SubjectKey := mkSubjectKey digest.

Record PolicySubject (P : Type) := mkPolicySubject {
  ps_policy : P;
  ps_subject : SubjectKey;
}.
Arguments mkPolicySubject {P} _ _.
Arguments ps_policy {P} _.
Arguments ps_subject {P} _.

(** [SubjectKey::bind]. *)
Definition bind {P} (s : SubjectKey) (policy : P) : PolicySubject P :=
  mkPolicySubject policy s.
Definition into_unbound_subject_key {P} (s : PolicySubject P) : SubjectKey := ps_subject s.
Definition into_parts {P} (s : PolicySubject P) : P * SubjectKey :=
  (ps_policy s, ps_subject s).

Record AttemptSubject := mkAttemptSubject {
  as_policy : AttemptPolicy;
  as_subject : SubjectKey;
}.

(** * [CounterKey] *)

Record CounterKey := mkCounterKey {
  ck_fingerprint : PolicyFingerprint;
  ck_subject : SubjectKey;
}.

#[export] Instance CounterKey_eq_dec : EqDecision CounterKey.
Proof. solve_decision. Defined.
#[export] Instance CounterKey_countable : Countable CounterKey.
Proof.
  refine (inj_countable' (fun k => (ck_fingerprint k, ck_subject k))
            (fun p => mkCounterKey p.1 p.2) _). by intros [].
Defined.

Definition CounterKey_new (fingerprint : PolicyFingerprint) (subject : SubjectKey)
    : CounterKey := mkCounterKey fingerprint subject.

Definition CounterKey_to_bytes (k : CounterKey) : bytes :=
  fingerprint_bytes (ck_fingerprint k) ++ SubjectKey_as_bytes (ck_subject k).

(** The arrays are [[u8; 32]]. *)
Definition CounterKey_wf (k : CounterKey) : Prop :=
  length (fingerprint_bytes (ck_fingerprint k)) = 32%nat
  /\ length (SubjectKey_as_bytes (ck_subject k)) = 32%nat.

Lemma CounterKey_to_bytes_inj k1 k2 : CounterKey_wf k1 -> CounterKey_wf k2 ->
  CounterKey_to_bytes k1 = CounterKey_to_bytes k2 -> k1 = k2.
Proof.
  destruct k1 as [[f1] [s1]], k2 as [[f2] [s2]].
  unfold CounterKey_wf, CounterKey_to_bytes; simpl. intros [? ?] [? ?] Heq.
  apply app_inj_1 in Heq as [-> ->]; [done|congruence].
Qed.

(** * [KeyHasher] *)

(** A streaming message authentication code. *)
Class Mac (M : Type) := {
  mac_new_from_slice : bytes -> Result unit M;
  mac_update : M -> bytes -> M;
  mac_finalize : M -> bytes;
}.

(** What the [hmac] crate documents: keys of every length are accepted, and
    the code of a message does not depend on how it is cut into updates. *)
Class MacLaws (M : Type) `{Mac M} := {
  mac_code : bytes -> bytes -> bytes;
  mac_new_total : forall key, exists m, mac_new_from_slice key = Ok m;
  mac_streaming : forall key m chunks, mac_new_from_slice key = Ok m ->
    mac_finalize (foldl mac_update m chunks) = mac_code key (concat chunks);
}.

Definition MINIMUM_SECRET_LENGTH : nat := 32.

Inductive KeyHasherError := SecretTooShort (actual minimum : nat).

Record KeyHasher (M : Type) := mkKeyHasher { template : M }.
Arguments mkKeyHasher {M} _.
Arguments template {M} _.

Section Hasher.
Context {M : Type} `{Mac M}.

Definition KeyHasher_new (secret : bytes) : Outcome (Result KeyHasherError (KeyHasher M)) :=
  if Nat.ltb (length secret) MINIMUM_SECRET_LENGTH
  then Done (Err (SecretTooShort (length secret) MINIMUM_SECRET_LENGTH))
  else
    match mac_new_from_slice secret with
    | Err _ => Panic (* unreachable! *)
    | Ok template =>
        let template := mac_update template KEY_DOMAIN in
        Done (Ok (mkKeyHasher template))
    end.

Definition hash_for {P} `{RateLimitPolicy P} (hasher : KeyHasher M) (policy : P)
    (subject : bytes) : PolicySubject P :=
  let mac := template hasher in
  let mac := mac_update mac (as_bytes (PolicyId_as_str (rp_id policy))) in
  let mac := mac_update mac [0] in
  let mac := mac_update mac (as_bytes (ScopeId_as_str (rp_scope policy))) in
  let mac := mac_update mac [0] in
  let mac := mac_update mac subject in
  bind (SubjectKey_from_digest (mac_finalize mac)) policy.

Definition hash_attempt_for (hasher : KeyHasher M) (policy : AttemptPolicy)
    (subject : bytes) : AttemptSubject :=
  let mac := template hasher in
  let mac := mac_update mac (byte_string "attempt/v1" ++ [0]) in
  let mac := mac_update mac (as_bytes (PolicyId_as_str (ap_id policy))) in
  let mac := mac_update mac [0] in
  let mac := mac_update mac (as_bytes (ScopeId_as_str (ap_scope policy))) in
  let mac := mac_update mac [0] in
  let mac := mac_update mac subject in
  mkAttemptSubject policy (SubjectKey_from_digest (mac_finalize mac)).
End Hasher.

(** The authenticated bytes. *)
Definition subject_preimage (id : PolicyId) (scope : ScopeId) (subject : bytes) : bytes :=
  KEY_DOMAIN ++ as_bytes (PolicyId_as_str id) ++ [0]
  ++ as_bytes (ScopeId_as_str scope) ++ [0] ++ subject.

Definition attempt_preimage (id : PolicyId) (scope : ScopeId) (subject : bytes) : bytes :=
  KEY_DOMAIN ++ (byte_string "attempt/v1" ++ [0])
  ++ as_bytes (PolicyId_as_str id) ++ [0]
  ++ as_bytes (ScopeId_as_str scope) ++ [0] ++ subject.

Definition attempt_v1 : PolicyId := mkPolicyId (byte_string "attempt/v1").

Section HasherFacts.
Context {M : Type} `{MacLaws M}.

Lemma KeyHasher_new_spec secret :
  ((length secret < 32)%nat /\
   KeyHasher_new secret = Done (Err (SecretTooShort (length secret) 32)))
  \/ ((32 <= length secret)%nat /\
      exists h, KeyHasher_new secret = Done (Ok h)
        /\ forall chunks, mac_finalize (foldl mac_update (template h) chunks)
             = mac_code secret (KEY_DOMAIN ++ concat chunks)).
Proof.
  unfold KeyHasher_new, MINIMUM_SECRET_LENGTH.
  destruct (Nat.ltb_spec (length secret) 32); [by left|right; split; [done|]].
  destruct (mac_new_total secret) as [m Hm]. rewrite Hm.
  eexists; split; [done|]. intros chunks.
  apply (mac_streaming secret m (KEY_DOMAIN :: chunks) Hm).
Qed.

Lemma hash_for_code {P} `{RateLimitPolicy P} secret h (p : P) s :
  KeyHasher_new secret = Done (Ok h) ->
  hash_for h p s =
    bind (mkSubjectKey (mac_code secret (subject_preimage (rp_id p) (rp_scope p) s))) p.
Proof.
  intros Hh. destruct (KeyHasher_new_spec secret) as [[_ H']|(_ & h' & H' & Hc)];
    rewrite Hh in H'; simplify_eq.
  unfold hash_for, SubjectKey_from_digest. do 2 f_equal.
  rewrite <- (app_nil_r s) at 2.
  exact (Hc [as_bytes (PolicyId_as_str (rp_id p)); [0];
             as_bytes (ScopeId_as_str (rp_scope p)); [0]; s]).
Qed.

Lemma hash_attempt_for_code secret h p s :
  KeyHasher_new secret = Done (Ok h) ->
  hash_attempt_for h p s =
    mkAttemptSubject p
      (mkSubjectKey (mac_code secret (attempt_preimage (ap_id p) (ap_scope p) s))).
Proof.
  intros Hh. destruct (KeyHasher_new_spec secret) as [[_ H']|(_ & h' & H' & Hc)];
    rewrite Hh in H'; simplify_eq.
  unfold hash_attempt_for, SubjectKey_from_digest. do 2 f_equal.
  rewrite <- (app_nil_r s) at 2.
  exact (Hc [byte_string "attempt/v1" ++ [0]; as_bytes (PolicyId_as_str (ap_id p)); [0];
             as_bytes (ScopeId_as_str (ap_scope p)); [0]; s]).
Qed.
End HasherFacts.

(** * Separation of subject namespaces *)

Lemma subject_preimage_inj id1 id2 sc1 sc2 s1 s2 :
  PolicyId_wf id1 -> PolicyId_wf id2 -> ScopeId_wf sc1 -> ScopeId_wf sc2 ->
  subject_preimage id1 sc1 s1 = subject_preimage id2 sc2 s2 ->
  id1 = id2 /\ sc1 = sc2 /\ s1 = s2.
Proof.
  intros ? ? ? ? Heq. unfold subject_preimage in Heq. apply app_inv_head in Heq.
  by apply identity_framing_inj in Heq.
Qed.

Lemma attempt_v1_wf : PolicyId_wf attempt_v1.
Proof.
  split; [vm_compute; split; discriminate|]. vm_compute. repeat constructor.
Qed.

(** An attempt preimage is the quota preimage of the identifier
    [attempt/v1], with the attempt identifier as its scope. *)
Lemma attempt_preimage_as_subject id sc s :
  attempt_preimage id sc s =
  subject_preimage attempt_v1 (mkScopeId (PolicyId_as_str id))
    (as_bytes (ScopeId_as_str sc) ++ [0] ++ s).
Proof. unfold attempt_preimage, subject_preimage. by rewrite <- !app_assoc. Qed.

(** Subject derivation is bound to the policy namespace: for a secret
    of at least 32 bytes (a shorter one is refused, and construction never
    panics) the derived key is the keyed code of a byte string that
    determines policy identifier, scope and subject, for quota subjects, for
    attempt subjects, and across the two kinds whenever the quota policy is
    not itself named [attempt/v1]. *)
Theorem subject_namespaces_separated {M P : Type} `{MacLaws M} `{RateLimitPolicyLaws P}
    (secret : bytes) (Hsecret : (32 <= length secret)%nat) :
  exists h, KeyHasher_new (M := M) secret = Done (Ok h)
  /\ (forall (p : P) s, hash_for h p s =
       bind (mkSubjectKey (mac_code secret (subject_preimage (rp_id p) (rp_scope p) s))) p)
  /\ (forall p s, as_subject (hash_attempt_for h p s) =
       mkSubjectKey (mac_code secret (attempt_preimage (ap_id p) (ap_scope p) s)))
  /\ (forall (p q : P) s t, rp_wf p -> rp_wf q ->
       subject_preimage (rp_id p) (rp_scope p) s = subject_preimage (rp_id q) (rp_scope q) t ->
       rp_id p = rp_id q /\ rp_scope p = rp_scope q /\ s = t)
  /\ (forall a b s t, AttemptPolicy_valid a -> AttemptPolicy_valid b ->
       attempt_preimage (ap_id a) (ap_scope a) s = attempt_preimage (ap_id b) (ap_scope b) t ->
       ap_id a = ap_id b /\ ap_scope a = ap_scope b /\ s = t)
  /\ (forall (p : P) a s t, rp_wf p -> AttemptPolicy_valid a -> rp_id p <> attempt_v1 ->
       subject_preimage (rp_id p) (rp_scope p) s <> attempt_preimage (ap_id a) (ap_scope a) t).
Proof.
  destruct (KeyHasher_new_spec (M := M) secret) as [[? _]|(_ & h & Hh & _)]; [lia|].
  exists h. split_and!.
  - done.
  - intros. by apply hash_for_code.
  - intros. by erewrite hash_attempt_for_code.
  - intros p q s t Hp Hq Heq.
    by apply subject_preimage_inj in Heq;
      [|apply rp_id_wf|apply rp_id_wf|apply rp_scope_wf|apply rp_scope_wf].
  - intros a b s t (Ha & Hsa & _) (Hb & Hsb & _) Heq.
    unfold attempt_preimage in Heq. do 2 apply app_inv_head in Heq.
    by apply identity_framing_inj in Heq.
  - intros p a s t Hp (Ha & _) Hne Heq. rewrite attempt_preimage_as_subject in Heq.
    apply subject_preimage_inj in Heq as [? _];
      [done|by apply rp_id_wf|apply attempt_v1_wf|by apply rp_scope_wf|exact Ha].
Qed.

(** A message code for concrete runs: it keeps the key and the transcript. *)
Definition TranscriptMac : Type := bytes * bytes.

#[export] Instance TranscriptMac_mac : Mac TranscriptMac := {
  mac_new_from_slice := fun key => Ok (key, []);
  mac_update := fun m chunk => (m.1, m.2 ++ chunk);
  mac_finalize := fun m => m.1 ++ m.2;
}.

Lemma TranscriptMac_fold k t chunks :
  foldl mac_update ((k, t) : TranscriptMac) chunks = (k, t ++ concat chunks).
Proof.
  revert t. induction chunks as [|c l IH]; intros t; simpl; [by rewrite app_nil_r|].
  by rewrite IH, <- app_assoc.
Qed.

#[export] Program Instance TranscriptMac_laws : MacLaws TranscriptMac := {
  mac_code := fun key message => key ++ message;
}.
Next Obligation. by eexists. Qed.
Next Obligation. intros key m chunks [= <-]. by rewrite TranscriptMac_fold. Qed.

(** A concrete instance. *)
Lemma subject_namespaces_separated_witness :
  (32 <= length (replicate 32 7))%nat
  /\ exists h, KeyHasher_new (M := TranscriptMac) (replicate 32 7) = Done (Ok h).
Proof.
  split; [simpl; lia|].
  destruct (subject_namespaces_separated (M := TranscriptMac) (P := FixedWindowPolicy)
    (replicate 32 7) ltac:(simpl; lia)) as (h & Hh & _).
  exists h. exact Hh.
Defined.

Definition collision_quota_policy : FixedWindowPolicy :=
  mkFixedWindowPolicy attempt_v1 (mkScopeId (byte_string "attempt/v1"))
    (mkCapacity 8) (mkQuotaPeriod 60000) (from_digest []) Enforce.

Definition collision_attempt_policy : AttemptPolicy :=
  mkAttemptPolicy attempt_v1 (mkScopeId (byte_string "attempt/v1"))
    (mkQuotaPeriod 1000) (mkQuotaPeriod 60000) (mkQuotaPeriod 600000)
    (mkQuotaPeriod 30000) (from_digest []).

Lemma collision_policies_valid :
  FixedWindowPolicy_valid collision_quota_policy
  /\ AttemptPolicy_valid collision_attempt_policy.
Proof.
  assert (ScopeId_wf (mkScopeId (byte_string "attempt/v1"))).
  { split; [vm_compute; split; discriminate|]. vm_compute. repeat constructor. }
  pose proof attempt_v1_wf.
  unfold FixedWindowPolicy_valid, AttemptPolicy_valid, Capacity_wf, QuotaPeriod_wf.
  rewrite MAX_WINDOW_MILLIS_val. unfold MAX_LIMIT. unfold_widths. cbn.
  split_and!; try done; lia.
Qed.

(** The attempt domain of subject derivation is not distinct from
    the quota domain for every identifier: a quota policy and an attempt
    policy both named [attempt/v1] with scope [attempt/v1] derive the same
    subject key, for a quota subject that embeds the attempt framing. *)
Theorem attempt_namespace_collision :
  exists (p : FixedWindowPolicy) (a : AttemptPolicy) (x y : bytes),
    FixedWindowPolicy_valid p /\ AttemptPolicy_valid a
    /\ fw_id p = ap_id a /\ fw_scope p = ap_scope a
    /\ forall (M : Type) (HM : Mac M) (HL : MacLaws M) secret h,
         KeyHasher_new (M := M) secret = Done (Ok h) ->
         ps_subject (hash_for h p x) = as_subject (hash_attempt_for h a y).
Proof.
  exists collision_quota_policy, collision_attempt_policy,
    (byte_string "attempt/v1" ++ [0] ++ [1]), [1].
  destruct collision_policies_valid. split_and!; [done..|].
  intros M HM HL secret h Hh.
  erewrite hash_for_code, hash_attempt_for_code by done. simpl.
  f_equal.
Qed.
