(* ===== verification/Check.v ===== *)
(** [runlimit-core/src/check.rs] and [batch.rs]: one proposed charge, and the
    structural validation of an atomic batch. *)

From S2P Require Import Prelude RustStd Identifier Policy Decision AttemptPolicy Key.
Open Scope list_scope.

(** * [Check] *)

Record Check (P : Type) := mkCheck {
  check_policy : P;
  check_subject : SubjectKey;
  check_cost : Z;
}.
Arguments mkCheck {P} _ _ _.
Arguments check_policy {P} _.
Arguments check_subject {P} _.
Arguments check_cost {P} _.

Inductive CheckError :=
| CheckError_ZeroCost
| CheckError_CostExceedsCapacity (cost : Z) (capacity : Capacity).

Inductive BatchError :=
| EmptyBatch
| DuplicateKey (first_index duplicate_index : nat)
| BatchTooLarge (actual maximum : nat)
| MixedQuotaModes (first : QuotaMode) (index : nat) (actual : QuotaMode).

Section Checks.
Context {P : Type} `{RateLimitPolicy P}.

Definition Check_new (subject : PolicySubject P) : Check P :=
  let '(policy, subject) := into_parts subject in
  mkCheck policy subject 1.

Definition validate_cost (policy : P) (cost : Z) : Result CheckError unit :=
  if cost =? 0 then Err CheckError_ZeroCost
  else
    let capacity := rp_capacity policy in
    if Capacity_get capacity <? cost
    then Err (CheckError_CostExceedsCapacity cost capacity)
    else Ok tt.

Definition Check_with_cost (c : Check P) (cost : Z) : Result CheckError (Check P) :=
  _ ← validate_cost (check_policy c) cost;
  mret (mkCheck (check_policy c) (check_subject c) cost).

Definition Check_counter_key (c : Check P) : CounterKey :=
  CounterKey_new (rp_fingerprint (check_policy c)) (check_subject c).

(** * Batches *)

(** The loop over [checks.iter().enumerate()]. *)
Fixpoint validate_batch_loop (first_mode : QuotaMode) (duplicate_index : nat)
    (first_indices : gmap CounterKey nat) (checks : list (Check P))
    : Result BatchError unit :=
  match checks with
  | [] => Ok tt
  | check :: checks =>
      if negb (QuotaMode_eqb (rp_quota_mode (check_policy check)) first_mode)
      then Err (MixedQuotaModes first_mode duplicate_index
                  (rp_quota_mode (check_policy check)))
      else
        match first_indices !! Check_counter_key check with
        | None =>
            validate_batch_loop first_mode (S duplicate_index)
              (<[Check_counter_key check := duplicate_index]> first_indices) checks
        | Some first_index => Err (DuplicateKey first_index duplicate_index)
        end
  end.

Definition validate_batch (checks : list (Check P)) (maximum : nat)
    : Result BatchError unit :=
  match checks with
  | [] => Err EmptyBatch
  | first :: _ =>
      if Nat.ltb maximum (length checks)
      then Err (BatchTooLarge (length checks) maximum)
      else validate_batch_loop (rp_quota_mode (check_policy first)) 0 ∅ checks
  end.

(** A check a caller can build: its cost was validated. *)
Definition Check_cost_valid (c : Check P) : Prop :=
  1 <= check_cost c <= Capacity_get (rp_capacity (check_policy c)).

(** What the two error variants of the loop report about index [j]. *)
Definition first_batch_fault (checks : list (Check P)) (m : QuotaMode) (j : nat)
    (e : BatchError) : Prop :=
  exists c, checks !! j = Some c /\
  Forall (fun d => rp_quota_mode (check_policy d) = m) (take j checks) /\
  NoDup (fmap Check_counter_key (take j checks)) /\
  ((rp_quota_mode (check_policy c) <> m
    /\ e = MixedQuotaModes m j (rp_quota_mode (check_policy c)))
   \/ (rp_quota_mode (check_policy c) = m
       /\ exists i d, (i < j)%nat /\ checks !! i = Some d
          /\ Check_counter_key d = Check_counter_key c /\ e = DuplicateKey i j)).

(** The map of the loop after the prefix [seen]. *)
Definition indices_of (seen : list (Check P)) (m : gmap CounterKey nat) : Prop :=
  forall k i, m !! k = Some i <-> Check_counter_key <$> seen !! i = Some k.

Lemma indices_of_snoc seen m c :
  indices_of seen m -> m !! Check_counter_key c = None ->
  indices_of (seen ++ [c]) (<[Check_counter_key c := length seen]> m).
Proof.
  intros Hm Hnone k i. destruct (decide (k = Check_counter_key c)) as [->|Hk].
  - rewrite lookup_insert_eq. split.
    + intros [= <-]. by rewrite list_lookup_middle.
    + intros Hi. destruct (decide (i < length seen)%nat) as [Hlt|Hge].
      * rewrite lookup_app_l in Hi by done. apply Hm in Hi. congruence.
      * apply fmap_Some in Hi as (d & Hd & _). apply lookup_lt_Some in Hd.
        rewrite length_app in Hd. simpl in Hd. f_equal. lia.
  - rewrite lookup_insert_ne by done. rewrite (Hm k i). split.
    + intros Hi. apply fmap_Some in Hi as (d & Hd & ->).
      by rewrite (lookup_app_l_Some _ _ _ _ Hd).
    + intros Hi. apply fmap_Some in Hi as (d & Hd & ->).
      destruct (decide (i < length seen)%nat) as [Hlt|Hge].
      * rewrite lookup_app_l in Hd by done. by rewrite Hd.
      * rewrite lookup_app_r in Hd by lia.
        destruct (i - length seen)%nat; simplify_eq/=.
Qed.

Lemma validate_batch_loop_spec mode seen m rest :
  indices_of seen m ->
  Forall (fun d => rp_quota_mode (check_policy d) = mode) seen ->
  NoDup (fmap Check_counter_key seen) ->
  match validate_batch_loop mode (length seen) m rest with
  | Ok _ => Forall (fun d => rp_quota_mode (check_policy d) = mode) (seen ++ rest)
            /\ NoDup (fmap Check_counter_key (seen ++ rest))
  | Err e => exists j, first_batch_fault (seen ++ rest) mode j e
  end.
Proof.
  revert seen m. induction rest as [|c rest IH]; intros seen m Hm Hmode Hnd; simpl.
  { by rewrite app_nil_r. }
  assert (Hpre : take (length seen) (seen ++ c :: rest) = seen) by apply take_app_length.
  unfold QuotaMode_eqb. case_bool_decide as Hc; simpl.
  - destruct (m !! Check_counter_key c) as [i|] eqn:Hi.
    + apply Hm in Hi. apply fmap_Some in Hi as (d & Hd & Hk).
      exists (length seen), c. rewrite Hpre, list_lookup_middle by done.
      split_and!; [done..|]. right. split; [done|].
      exists i, d. split_and!; [by eapply lookup_lt_Some| |done..].
      by apply lookup_app_l_Some.
    + rewrite (cons_middle c seen rest), app_assoc.
      replace (S (length seen)) with (length (seen ++ [c])) by (rewrite length_app; simpl; lia).
      apply IH; [by apply indices_of_snoc|..].
      * apply Forall_app; split; [done|by constructor].
      * rewrite fmap_app. apply NoDup_app. split_and!; [done| |apply NoDup_singleton].
        intros k Hk Hk'. apply list_elem_of_singleton in Hk' as ->.
        apply list_elem_of_lookup in Hk as [j Hj].
        rewrite list_lookup_fmap in Hj. apply Hm in Hj. congruence.
  - exists (length seen), c. rewrite Hpre, list_lookup_middle by done. eauto 10.
Qed.
End Checks.

(** A concrete policy and check for the examples of the development. *)
Definition example_policy (limit window : Z) (tag : Z) : FixedWindowPolicy :=
  mkFixedWindowPolicy (mkPolicyId [97]) (mkScopeId [98]) (mkCapacity limit)
    (mkQuotaPeriod window) (from_digest [tag]) Enforce.

Definition example_check (limit window tag subject cost : Z) : Check FixedWindowPolicy :=
  mkCheck (example_policy limit window tag) (mkSubjectKey [subject]) cost.

(** [validate_batch] accepts exactly the nonempty batches within
    the size limit whose checks share one quota mode and name pairwise
    distinct counters; it rejects the empty batch first, then an oversized
    one before looking at any key, and otherwise reports the first faulty
    index in caller order: a mode that differs from the first check's, or a
    repeated counter together with the index of its first occurrence. *)
Theorem validate_batch_spec {P : Type} `{RateLimitPolicy P}
    (checks : list (Check P)) (maximum : nat) :
  match validate_batch checks maximum with
  | Ok _ =>
      (1 <= length checks <= maximum)%nat
      /\ NoDup (fmap Check_counter_key checks)
      /\ exists m, Forall (fun c => rp_quota_mode (check_policy c) = m) checks
  | Err EmptyBatch => checks = []
  | Err (BatchTooLarge actual maximum') =>
      actual = length checks /\ maximum' = maximum /\ (maximum < length checks)%nat
  | Err e =>
      (1 <= length checks <= maximum)%nat
      /\ exists first j, checks !! 0%nat = Some first
         /\ first_batch_fault checks (rp_quota_mode (check_policy first)) j e
  end.
Proof.
  unfold validate_batch. destruct checks as [|c checks]; [done|].
  destruct (Nat.ltb_spec maximum (length (c :: checks))) as [|Hlen]; [done|].
  pose proof (validate_batch_loop_spec (rp_quota_mode (check_policy c)) [] ∅ (c :: checks))
    as Hspec.
  simpl length in Hspec at 1.
  assert (Hidx : indices_of (P := P) [] ∅).
  { intros k i. by rewrite lookup_empty, lookup_nil. }
  specialize (Hspec Hidx ltac:(constructor) ltac:(apply NoDup_nil_2)).
  assert (1 <= length (c :: checks) <= maximum)%nat by (simpl in *; lia).
  destruct (validate_batch_loop _ _ _ _) as [[]|e].
  - destruct Hspec as [Hmode Hnd]. eauto.
  - destruct Hspec as [j Hj].
    assert (exists first j, (c :: checks) !! 0%nat = Some first
      /\ first_batch_fault (c :: checks) (rp_quota_mode (check_policy first)) j e)
      by eauto.
    destruct Hj as (d & _ & _ & _ & [[_ ->]|(_ & i & d' & _ & _ & _ & ->)]); eauto.
Qed.

Lemma validate_batch_ok {P : Type} `{RateLimitPolicy P} (checks : list (Check P)) maximum :
  validate_batch checks maximum = Ok tt ->
  (1 <= length checks <= maximum)%nat
  /\ NoDup (fmap Check_counter_key checks)
  /\ exists m, Forall (fun c => rp_quota_mode (check_policy c) = m) checks.
Proof.
  unfold validate_batch. destruct checks as [|c checks]; [done|].
  destruct (Nat.ltb_spec maximum (length (c :: checks))) as [|Hlen]; [done|].
  intros Hok.
  pose proof (validate_batch_loop_spec (rp_quota_mode (check_policy c)) [] ∅ (c :: checks))
    as Hspec.
  simpl length in Hspec at 1. rewrite Hok in Hspec.
  destruct Hspec as [? ?]; [|constructor|apply NoDup_nil_2|].
  - intros k i. by rewrite lookup_empty, lookup_nil.
  - simpl in *. split; [lia|]. eauto.
Qed.

(** A single valid check is a valid batch. *)
Lemma validate_batch_singleton {P : Type} `{RateLimitPolicy P} (c : Check P) maximum :
  (1 <= maximum)%nat -> validate_batch [c] maximum = Ok tt.
Proof.
  intros Hm. unfold validate_batch. simpl length.
  destruct (Nat.ltb_spec maximum 1); [lia|]. simpl.
  unfold QuotaMode_eqb. rewrite bool_decide_true by done. simpl.
  by rewrite lookup_empty.
Qed.

(** A check always carries a cost in [1, capacity]: construction
    starts at one, and [with_cost] accepts exactly the nonzero costs within
    the policy's capacity, keeping policy and subject (hence the counter). *)
Theorem check_cost_in_capacity {P : Type} `{RateLimitPolicyLaws P}
    (policy : P) (s : SubjectKey) (cost : Z) (Hp : rp_wf policy) (Hcost : 0 <= cost) :
  let c := Check_new (bind s policy) in
  Check_cost_valid c
  /\ (Check_with_cost c cost = Ok (mkCheck policy s cost)
      <-> 1 <= cost <= Capacity_get (rp_capacity policy))
  /\ (forall c', Check_with_cost c cost = Ok c' ->
        Check_cost_valid c' /\ Check_counter_key c' = Check_counter_key c)
  /\ (forall e, Check_with_cost c cost = Err e ->
        (cost = 0 /\ e = CheckError_ZeroCost)
        \/ (Capacity_get (rp_capacity policy) < cost
            /\ e = CheckError_CostExceedsCapacity cost (rp_capacity policy))).
Proof.
  pose proof (rp_capacity_wf policy Hp) as Hcap. unfold Capacity_wf in Hcap.
  unfold Check_cost_valid, Check_with_cost, validate_cost, Check_new, mret, Result_ret; simpl.
  split_and!; [lia|..]; repeat (case_cmp; simpl); try (split; intros; try done; lia);
    intros; simplify_eq; simpl; split_and?; try done; try lia; eauto.
Qed.

(** A concrete instance. *)
Lemma check_cost_in_capacity_witness :
  Check_cost_valid (Check_new (bind (mkSubjectKey [1]) (example_policy 8 60000 0)))
  /\ Check_with_cost (Check_new (bind (mkSubjectKey [1]) (example_policy 8 60000 0))) 9
     = Err (CheckError_CostExceedsCapacity 9 (mkCapacity 8)).
Proof.
  split; [|reflexivity].
  refine (proj1 (check_cost_in_capacity (example_policy 8 60000 0) (mkSubjectKey [1]) 9 _ _));
    [|lia].
  unfold rp_wf; simpl. unfold FixedWindowPolicy_valid, PolicyId_wf, ScopeId_wf,
    identifier_wf, Capacity_wf, QuotaPeriod_wf.
  rewrite MAX_WINDOW_MILLIS_val. unfold MAX_LIMIT, MAX_IDENTIFIER_LENGTH. simpl. unfold_widths.
  split_and!; try lia; repeat constructor.
Defined.
