(* ===== verification/Observation.v ===== *)
(** [runlimit-core/src/observation.rs]: the metadata reported to an observer
    and its classification.  Operations return the list of observations they
    emit, which [observe_safely] shows to an observer one after the other,
    isolating its panics. *)

From S2P Require Import Prelude RustStd Identifier Policy Decision AttemptPolicy Key Check.
Open Scope list_scope.

Record AdmissionPolicy := mkAdmissionPolicy {
  admp_id : PolicyId;
  admp_scope : ScopeId;
  admp_fingerprint : PolicyFingerprint;
}.

Inductive AdmissionOperation :=
| AdmissionOperation_Check (policy : AdmissionPolicy)
| AdmissionOperation_Batch (batch_size : nat) (policy : option AdmissionPolicy).

Inductive AdmissionOutcome :=
| AdmissionOutcome_Allowed
| AdmissionOutcome_QuotaDenied
| AdmissionOutcome_ShadowDenied
| AdmissionOutcome_CapacityDenied
| AdmissionOutcome_Failed.

Inductive ConsumptionStatus := Consumed | NotConsumed | PossiblyConsumed.

Record AdmissionObservation := mkAdmissionObservation {
  ao_operation : AdmissionOperation;
  ao_outcome : AdmissionOutcome;
  ao_consumption : ConsumptionStatus;
  ao_elapsed : Duration;
}.

Inductive CleanupOutcome :=
| CleanupOutcome_Confirmed (removed : Z)
| CleanupOutcome_NoEffect
| CleanupOutcome_Unknown.

Record CleanupObservation := mkCleanupObservation {
  co_requested : nat;
  co_outcome : CleanupOutcome;
  co_elapsed : Duration;
}.

Record CapacityObservation := mkCapacityObservation {
  cap_used : Z;
  cap_capacity : Z;
  cap_shard_index : nat;
}.

Definition CapacityObservation_headroom (c : CapacityObservation) : Z :=
  saturating_sub (cap_capacity c) (cap_used c).

Inductive Observation :=
| Observation_Admission (o : AdmissionObservation)
| Observation_Cleanup (o : CleanupObservation)
| Observation_Capacity (o : CapacityObservation).

Definition classify_denial (denial : Denial) : AdmissionOutcome * ConsumptionStatus :=
  match denial with
  | QuotaExceeded _ => (AdmissionOutcome_QuotaDenied, NotConsumed)
  | StorageCapacity _ => (AdmissionOutcome_CapacityDenied, NotConsumed)
  end.

Definition classify_decision (decision : Decision) : AdmissionOutcome * ConsumptionStatus :=
  match Decision_view decision with
  | DecisionView_Allowed _ => (AdmissionOutcome_Allowed, Consumed)
  | DecisionView_Denied denial => classify_denial denial
  | DecisionView_ShadowDenied _ => (AdmissionOutcome_ShadowDenied, NotConsumed)
  end.

Definition classify_batch (decision : BatchDecision) : AdmissionOutcome * ConsumptionStatus :=
  match BatchDecision_view decision with
  | BatchDecisionView_Allowed _ => (AdmissionOutcome_Allowed, Consumed)
  | BatchDecisionView_Denied _ _ denial => classify_denial denial
  | BatchDecisionView_ShadowDenied _ _ _ => (AdmissionOutcome_ShadowDenied, NotConsumed)
  end.

(** [trait Observer]: a callback with a state of its own, which may panic;
    [observe_safely] catches the panic. *)
Class Observer (Ob : Type) := {
  observer_observe : Ob -> Observation -> Ob * Outcome unit;
}.
Definition observe_safely {Ob} `{Observer Ob} (observer : Ob) (observation : Observation) : Ob :=
  let '(observer, _) := observer_observe observer observation in observer.

(** An operation's observations, shown one after the other. *)
Definition observe_in_turn {Ob} `{Observer Ob} (observer : Ob) (observations : list Observation) : Ob :=
  foldl observe_safely observer observations.

Section Observations.
Context {P : Type} `{RateLimitPolicy P}.

Definition AdmissionPolicy_new (policy : P) : AdmissionPolicy :=
  mkAdmissionPolicy (rp_id policy) (rp_scope policy) (rp_fingerprint policy).
Definition AdmissionPolicy_from_check (check : Check P) : AdmissionPolicy :=
  AdmissionPolicy_new (check_policy check).

Definition batch_relevant_check (checks : list (Check P)) (decision : BatchDecision)
    : option (Check P) :=
  match BatchDecision_view decision with
  | BatchDecisionView_Allowed allowances =>
      if Nat.eqb (length allowances) 1 then head checks else None
  | BatchDecisionView_Denied index _ _ | BatchDecisionView_ShadowDenied index _ _ =>
      checks !! index
  end.

Definition failed_check (check : Check P) (consumption : ConsumptionStatus)
    (elapsed : Duration) : AdmissionObservation :=
  mkAdmissionObservation (AdmissionOperation_Check (AdmissionPolicy_from_check check))
    AdmissionOutcome_Failed consumption elapsed.

Definition failed_batch (checks : list (Check P)) (consumption : ConsumptionStatus)
    (elapsed : Duration) : AdmissionObservation :=
  mkAdmissionObservation
    (AdmissionOperation_Batch (length checks)
      (match checks with
       | [check] => Some (AdmissionPolicy_from_check check)
       | _ => None
       end))
    AdmissionOutcome_Failed consumption elapsed.

Definition from_check (check : Check P) (decision : Decision) (elapsed : Duration)
    : AdmissionObservation :=
  let '(outcome, consumption) := classify_decision decision in
  mkAdmissionObservation (AdmissionOperation_Check (AdmissionPolicy_from_check check))
    outcome consumption elapsed.

Definition from_batch (checks : list (Check P)) (decision : BatchDecision)
    (elapsed : Duration) : AdmissionObservation :=
  let '(outcome, consumption) := classify_batch decision in
  mkAdmissionObservation
    (AdmissionOperation_Batch (length checks)
      (AdmissionPolicy_from_check <$> batch_relevant_check checks decision))
    outcome consumption elapsed.
End Observations.

(** Telemetry and enforcement agree: an observation built from a
    decision reports [Consumed] exactly for an allowance, never reports
    [Failed] or [PossiblyConsumed], and classes it as quota- or
    capacity-denied exactly when the request must be rejected; the same for
    batches, whose named policy is that of the check the denial singled
    out. *)
Theorem observation_classification {P : Type} `{RateLimitPolicy P}
    (check : Check P) (checks : list (Check P)) (d : Decision) (b : BatchDecision)
    (elapsed : Duration) :
  (ao_consumption (from_check check d elapsed) = Consumed
    <-> exists a, Decision_view d = DecisionView_Allowed a)
  /\ (ao_consumption (from_check check d elapsed) <> Consumed ->
        ao_consumption (from_check check d elapsed) = NotConsumed)
  /\ (Decision_permits_request d = false
      <-> ao_outcome (from_check check d elapsed) = AdmissionOutcome_QuotaDenied
          \/ ao_outcome (from_check check d elapsed) = AdmissionOutcome_CapacityDenied)
  /\ ao_outcome (from_check check d elapsed) <> AdmissionOutcome_Failed
  /\ (ao_consumption (from_batch checks b elapsed) = Consumed
      <-> exists l, BatchDecision_view b = BatchDecisionView_Allowed l)
  /\ (BatchDecision_permits_request b = false
      <-> ao_outcome (from_batch checks b elapsed) = AdmissionOutcome_QuotaDenied
          \/ ao_outcome (from_batch checks b elapsed) = AdmissionOutcome_CapacityDenied)
  /\ (forall i n e c, checks !! i = Some c ->
        BatchDecision_view b = BatchDecisionView_Denied i n e ->
        ao_operation (from_batch checks b elapsed)
        = AdmissionOperation_Batch (length checks)
            (Some (AdmissionPolicy_new (check_policy c)))).
Proof.
  split_and!.
  1-4: destruct d as [[[[a|q]]|[q|r]]]; cbn; try split; try naive_solver.
  1-2: destruct b as [[l|i n [q|r]|i n q]]; cbn; naive_solver.
  intros i n e c Hc Hb. unfold from_batch.
  destruct (classify_batch b) as [o s]. cbn. unfold batch_relevant_check.
  rewrite Hb, Hc. done.
Qed.
