(* ===== verification/Gcra.v ===== *)
(** [runlimit-core/src/gcra.rs]: the pure GCRA transition over [u128]
    milliseconds, and its refinement of a token bucket. *)

From S2P Require Import Prelude RustStd Identifier Policy Decision AttemptPolicy Key Check.
Open Scope list_scope.

(** [struct ArithmeticOverflow]. *)
Inductive ArithmeticOverflow := mkArithmeticOverflow.

Record PendingAllowance := mkPendingAllowance {
  tat_scaled : Z;
  expires_at_millis : Z;
  pending_allowance : Allowance;
}.

(** [enum Evaluation]. *)
Inductive Evaluation :=
| Evaluation_Allowed (pending : PendingAllowance)
| Evaluation_Denied (denial : QuotaDenial).

Definition duration (millis : Z) : Result ArithmeticOverflow Duration :=
  millis ← ok_or (try_from u64_max millis) mkArithmeticOverflow;
  mret (from_millis millis).

Definition evaluate (check : Check GcraPolicy) (now_millis : Z) (tat_scaled : option Z)
    : Result ArithmeticOverflow Evaluation :=
  let policy := check_policy check in
  let quota := Capacity_get (gp_quota policy) in
  let period := QuotaPeriod_millis (gp_period policy) in
  let capacity := gp_burst_capacity policy in
  scaled_now ← ok_or (checked_mul u128_max now_millis quota) mkArithmeticOverflow;
  let active_tat := Z.max (default scaled_now tat_scaled) scaled_now in
  increment ← ok_or (checked_mul u128_max (check_cost check) period) mkArithmeticOverflow;
  candidate ← ok_or (checked_add u128_max active_tat increment) mkArithmeticOverflow;
  burst_span ← ok_or (checked_mul u128_max (Capacity_get capacity) period)
                 mkArithmeticOverflow;
  ceiling ← ok_or (checked_add u128_max scaled_now burst_span) mkArithmeticOverflow;
  if ceiling <? candidate then
    let retry := div_ceil (candidate - ceiling) quota in
    retry ← duration retry;
    mret (Evaluation_Denied (QuotaDenial_new capacity retry))
  else
    available ← ok_or (try_from u64_max ((ceiling - candidate) / period))
                  mkArithmeticOverflow;
    let replenish := div_ceil (candidate - scaled_now) quota in
    expires ← ok_or (checked_add u128_max now_millis replenish) mkArithmeticOverflow;
    replenish ← duration replenish;
    allowance ← map_err (fun _ => mkArithmeticOverflow)
                  (Allowance_new capacity available replenish);
    mret (Evaluation_Allowed (mkPendingAllowance candidate expires allowance)).

(** * The exact transition *)

(** Scaled units: a check of cost [c] takes [c * period] of them, and [quota]
    of them come back every millisecond. *)
Definition gcra_quota (p : GcraPolicy) : Z := Capacity_get (gp_quota p).
Definition gcra_period (p : GcraPolicy) : Z := QuotaPeriod_millis (gp_period p).
Definition gcra_span (p : GcraPolicy) : Z :=
  Capacity_get (gp_burst_capacity p) * gcra_period p.

(** The theoretical arrival time in force at [now]. *)
Definition active_tat (p : GcraPolicy) (now : Z) (tat : option Z) : Z :=
  Z.max (default (now * gcra_quota p) tat) (now * gcra_quota p).

(** A stored arrival time that a transition at or before [now] can leave. *)
Definition tat_reachable (p : GcraPolicy) (now : Z) (tat : option Z) : Prop :=
  match tat with
  | None => True
  | Some t => 0 <= t <= now * gcra_quota p + gcra_span p
  end.

Definition gcra_check_valid (c : Check GcraPolicy) : Prop :=
  GcraPolicy_valid (check_policy c) /\ Check_cost_valid c.

(** The transition over unbounded integers. *)
Definition evaluate_exact (c : Check GcraPolicy) (now : Z) (tat : option Z) : Evaluation :=
  let p := check_policy c in
  let candidate := active_tat p now tat + check_cost c * gcra_period p in
  let ceiling := now * gcra_quota p + gcra_span p in
  if ceiling <? candidate then
    Evaluation_Denied
      (QuotaDenial_new (gp_burst_capacity p)
        (from_millis (div_ceil (candidate - ceiling) (gcra_quota p))))
  else
    let replenish := div_ceil (candidate - now * gcra_quota p) (gcra_quota p) in
    Evaluation_Allowed
      (mkPendingAllowance candidate (now + replenish)
        (mkAllowance (gp_burst_capacity p) ((ceiling - candidate) / gcra_period p)
          (Delay_new (from_millis replenish)))).

(** Numeric facts of a valid GCRA check. *)
Record gcra_facts (q w b c : Z) : Prop := {
  gf_quota : 1 <= q <= 9223372036854775807;
  gf_period : 1 <= w <= 9007199254740;
  gf_burst : 1 <= b <= 9223372036854775807;
  gf_cost : 1 <= c <= b;
  gf_refill : b * w <= 9007199254740 * q;
}.

Lemma gcra_check_facts c : gcra_check_valid c ->
  gcra_facts (gcra_quota (check_policy c)) (gcra_period (check_policy c))
    (Capacity_get (gp_burst_capacity (check_policy c))) (check_cost c).
Proof.
  intros [(_ & _ & Hq & Hp & Hb & Hr) Hc].
  unfold Check_cost_valid, Capacity_wf, QuotaPeriod_wf in *. simpl in Hc.
  unfold MAX_LIMIT in *. rewrite MAX_WINDOW_MILLIS_val in *. unfold_widths.
  split; unfold gcra_quota, gcra_period; lia.
Qed.

Lemma gcra_span_le_u128 q w b c : gcra_facts q w b c ->
  0 <= c * w <= b * w /\ 0 < b * w <= 83076749736557242056487941267521536000.
Proof. intros [? ? ? ? ?]. split; nia. Qed.

Lemma duration_in m : in_u64 m -> duration m = Ok (from_millis m).
Proof.
  intros Hm. unfold duration, try_from. rewrite checked_in by done. done.
Qed.

Lemma evaluate_spec c now tat :
  gcra_check_valid c -> in_u64 now -> tat_reachable (check_policy c) now tat ->
  evaluate c now tat = Ok (evaluate_exact c now tat).
Proof.
  intros Hc Hnow Htat. pose proof (gcra_check_facts c Hc) as Hf.
  pose proof (gcra_span_le_u128 _ _ _ _ Hf) as [Hinc Hspan].
  unfold evaluate, evaluate_exact, tat_reachable, gcra_span, active_tat in *.
  unfold gcra_quota, gcra_period in *.
  set (q := Capacity_get (gp_quota (check_policy c))) in *.
  set (w := QuotaPeriod_millis (gp_period (check_policy c))) in *.
  set (b := Capacity_get (gp_burst_capacity (check_policy c))) in *.
  destruct Hf as [Hq Hw Hb Hcost Hr]. unfold in_u64 in Hnow. unfold u64_max in Hnow.
  assert (Hsn : 0 <= now * q <= 18446744073709551615 * 9223372036854775807) by nia.
  assert (Hat : now * q <= Z.max (default (now * q) tat) (now * q) <= now * q + b * w)
    by (destruct tat; unfold default; cbn [from_option] in *; unfold Datatypes.id in *; lia).
  set (a := Z.max (default (now * q) tat) (now * q)) in *.
  unfold checked_mul, checked_add.
  rewrite (checked_in u128_max (now * q)) by (unfold u128_max; lia). cbn.
  fold a.
  rewrite (checked_in u128_max (check_cost c * w)) by (unfold u128_max; lia). cbn.
  rewrite (checked_in u128_max (a + check_cost c * w)) by (unfold u128_max; lia). cbn.
  rewrite (checked_in u128_max (b * w)) by (unfold u128_max; lia). cbn.
  rewrite (checked_in u128_max (now * q + b * w)) by (unfold u128_max; lia). cbn.
  destruct (Z.ltb_spec (now * q + b * w) (a + check_cost c * w)) as [Hgt|Hle].
  - rewrite duration_in; [done|]. unfold in_u64, u64_max. split.
    + apply div_ceil_nonneg; lia.
    + apply div_ceil_le; lia.
  - assert (Hav : 0 <= (now * q + b * w - (a + check_cost c * w)) / w <= b).
    { split; [apply Z.div_pos; lia|]. apply Z.div_le_upper_bound; lia. }
    assert (Hrep : 0 <= div_ceil (a + check_cost c * w - now * q) q <= 9007199254740).
    { split; [apply div_ceil_nonneg; lia|apply div_ceil_le; lia]. }
    set (av := (now * q + b * w - (a + check_cost c * w)) / w) in *.
    set (rep := div_ceil (a + check_cost c * w - now * q) q) in *.
    unfold try_from. rewrite (checked_in u64_max av) by (unfold u64_max; lia). cbn.
    rewrite (checked_in u128_max (now + rep)) by (unfold u128_max; lia). cbn.
    rewrite duration_in by (unfold in_u64, u64_max; lia). cbn.
    rewrite Allowance_new_ok by (fold b; lia). done.
Qed.

(** Whatever arrival time is stored, a transition that does not overflow is
    the exact one. *)
Lemma evaluate_Ok c now tat e : evaluate c now tat = Ok e ->
  e = evaluate_exact c now tat /\ 0 <= now * gcra_quota (check_policy c)
  /\ match e with Evaluation_Allowed pa => 0 <= tat_scaled pa <= u128_max | _ => True end.
Proof.
  unfold evaluate, evaluate_exact, checked_mul, checked_add. intros H.
  destruct (checked u128_max (now * _)) as [sn|] eqn:H1; cbn in H; [|done].
  apply checked_Some in H1 as [<- H1].
  destruct (checked u128_max (check_cost c * _)) as [inc|] eqn:H2; cbn in H; [|done].
  apply checked_Some in H2 as [<- H2].
  destruct (checked u128_max (Z.max _ _ + _)) as [cand|] eqn:H3; cbn in H; [|done].
  apply checked_Some in H3 as [<- H3].
  destruct (checked u128_max (Capacity_get _ * _)) as [span|] eqn:H4; cbn in H; [|done].
  apply checked_Some in H4 as [<- H4].
  destruct (checked u128_max (now * _ + _)) as [ceiling|] eqn:H5; cbn in H; [|done].
  apply checked_Some in H5 as [<- H5].
  fold (gcra_quota (check_policy c)) in *. fold (gcra_period (check_policy c)) in *.
  fold (gcra_span (check_policy c)) in *. fold (active_tat (check_policy c) now tat) in *.
  set (q := gcra_quota (check_policy c)) in *. set (w := gcra_period (check_policy c)) in *.
  set (cand := active_tat (check_policy c) now tat + check_cost c * w) in *.
  set (ceiling := now * q + gcra_span (check_policy c)) in *.
  destruct (ceiling <? cand); unfold duration, try_from, Allowance_new in H.
  - destruct (checked u64_max _) as [r|] eqn:H6; cbn in H; [|done].
    apply checked_Some in H6 as [<- _]. injection H as <-. split_and!; [done|lia|done].
  - destruct (checked u64_max ((ceiling - cand) / w)) as [av|] eqn:H6; cbn in H; [|done].
    apply checked_Some in H6 as [<- _].
    destruct (checked u128_max _) as [ex|] eqn:H7; cbn in H; [|done].
    apply checked_Some in H7 as [<- _].
    destruct (checked u64_max (div_ceil _ _)) as [r|] eqn:H8; cbn in H; [|done].
    apply checked_Some in H8 as [<- _].
    destruct (_ <? _); cbn in H; [done|]. injection H as <-. split_and!; [done|lia|cbn; lia..].
Qed.

(** * Refinement of a token bucket

    The abstract bucket holds [level] scaled tokens as of [last]; it gains
    [quota] per millisecond up to [span] and a check takes [cost * period]. *)

Record Bucket := mkBucket { level : Z; last_millis : Z }.

Definition bucket_refill (p : GcraPolicy) (now : Z) (b : Bucket) : Bucket :=
  mkBucket (Z.min (gcra_span p) (level b + (now - last_millis b) * gcra_quota p)) now.

Definition bucket_take (p : GcraPolicy) (cost : Z) (b : Bucket) : option Bucket :=
  if cost * gcra_period p <=? level b
  then Some (mkBucket (level b - cost * gcra_period p) (last_millis b)) else None.

(** A stored arrival time represents a bucket. *)
Definition bucket_rel (p : GcraPolicy) (b : Bucket) (tat : option Z) : Prop :=
  level b = gcra_span p - (active_tat p (last_millis b) tat - last_millis b * gcra_quota p)
  /\ tat_reachable p (last_millis b) tat.

Lemma bucket_rel_refill p b tat now :
  1 <= gcra_quota p -> bucket_rel p b tat -> last_millis b <= now ->
  bucket_rel p (bucket_refill p now b) tat.
Proof.
  intros Hq [Hlevel Hreach] Hnow. unfold bucket_rel, bucket_refill, active_tat in *; cbn.
  assert (last_millis b * gcra_quota p <= now * gcra_quota p) by nia.
  split; [|destruct tat; cbn in *; lia].
  rewrite Hlevel. rewrite Z.mul_sub_distr_r. destruct tat; cbn in *; lia.
Qed.

Lemma evaluate_exact_cases c now tat :
  let p := check_policy c in
  let candidate := active_tat p now tat + check_cost c * gcra_period p in
  let ceiling := now * gcra_quota p + gcra_span p in
  (ceiling < candidate /\
   evaluate_exact c now tat = Evaluation_Denied (QuotaDenial_new (gp_burst_capacity p)
     (from_millis (div_ceil (candidate - ceiling) (gcra_quota p)))))
  \/ (candidate <= ceiling /\
   evaluate_exact c now tat =
     Evaluation_Allowed (mkPendingAllowance candidate
       (now + div_ceil (candidate - now * gcra_quota p) (gcra_quota p))
       (mkAllowance (gp_burst_capacity p) ((ceiling - candidate) / gcra_period p)
          (Delay_new (from_millis
             (div_ceil (candidate - now * gcra_quota p) (gcra_quota p))))))).
Proof.
  cbv zeta. unfold evaluate_exact. case_cmp; [by left|by right].
Qed.

(** What an allowance stores. *)
Lemma evaluate_allowed_bounds c now tat pa : gcra_check_valid c ->
  evaluate c now tat = Ok (Evaluation_Allowed pa) ->
  0 <= tat_scaled pa <= u128_max
  /\ now < expires_at_millis pa <= now + MAX_WINDOW_MILLIS.
Proof.
  intros Hc He. destruct (evaluate_Ok _ _ _ _ He) as (Heq & Hnow & Htat). split; [done|].
  pose proof (gcra_check_facts c Hc) as Hf.
  pose proof (gcra_span_le_u128 _ _ _ _ Hf) as [Hinc Hspan].
  destruct Hf as [Hq Hw Hb Hcost Hr]. fold (gcra_span (check_policy c)) in *.
  destruct (evaluate_exact_cases c now tat) as [[_ Hx]|[Hle Hx]]; rewrite Hx in Heq; [done|].
  injection Heq as ->. cbn. rewrite MAX_WINDOW_MILLIS_val.
  assert (Ha : now * gcra_quota (check_policy c) <= active_tat (check_policy c) now tat)
    by (unfold active_tat; lia).
  set (used := active_tat (check_policy c) now tat + check_cost c * gcra_period (check_policy c)
    - now * gcra_quota (check_policy c)) in *.
  assert (Hused : 0 < used) by nia.
  pose proof (div_ceil_pos used (gcra_quota (check_policy c)) ltac:(lia) Hused).
  pose proof (proj2 (div_ceil_le used (gcra_quota (check_policy c)) 9007199254740
    ltac:(lia)) ltac:(lia)). lia.
Qed.

Lemma tat_reachable_mono p now now' tat :
  1 <= gcra_quota p -> now <= now' -> tat_reachable p now tat -> tat_reachable p now' tat.
Proof. intros. destruct tat; simpl in *; [|done]. nia. Qed.

(** C35. GCRA implements a token bucket: started from an arrival time
    that represents a bucket, [evaluate] never overflows, admits exactly when
    the refilled bucket holds the cost, leaves an arrival time that
    represents the bucket after the take (or the refilled bucket when it
    denies), reports the whole tokens left as available, and announces full
    replenishment at the first millisecond at which the bucket is full. *)
Theorem gcra_refines_token_bucket (c : Check GcraPolicy) (b : Bucket) (tat : option Z)
    (now : Z) (Hc : gcra_check_valid c) (Hnow : in_u64 now)
    (Hlast : last_millis b <= now) (Hrel : bucket_rel (check_policy c) b tat) :
  let p := check_policy c in
  let b1 := bucket_refill p now b in
  exists e, evaluate c now tat = Ok e /\
  match e with
  | Evaluation_Allowed pa =>
      exists b2, bucket_take p (check_cost c) b1 = Some b2
      /\ bucket_rel p b2 (Some (tat_scaled pa))
      /\ Allowance_wf (pending_allowance pa)
      /\ Allowance_available (pending_allowance pa) = level b2 / gcra_period p
      /\ Delay_duration (Allowance_replenishes_after (pending_allowance pa))
         = from_millis (expires_at_millis pa - now)
      /\ forall t, now <= t ->
           level (bucket_refill p t b2) = gcra_span p <-> expires_at_millis pa <= t
  | Evaluation_Denied d =>
      bucket_take p (check_cost c) b1 = None /\ bucket_rel p b1 tat
  end.
Proof.
  cbv zeta. pose proof (gcra_check_facts c Hc) as Hf.
  pose proof (gcra_span_le_u128 _ _ _ _ Hf) as [Hinc Hspan].
  destruct Hf as [Hq Hw Hb Hcost Hr].
  pose proof (bucket_rel_refill (check_policy c) b tat now ltac:(lia) Hrel Hlast) as Hrel1.
  destruct Hrel1 as [Hlevel Hreach].
  exists (evaluate_exact c now tat). rewrite evaluate_spec by done. split; [done|].
  cbn in Hreach. cbn [last_millis bucket_refill] in Hlevel.
  assert (Ha : now * gcra_quota (check_policy c) <= active_tat (check_policy c) now tat)
    by (unfold active_tat; lia).
  assert (Hnq : 0 <= now * gcra_quota (check_policy c)) by (unfold in_u64 in Hnow; nia).
  change (Capacity_get (gp_burst_capacity (check_policy c)) * gcra_period (check_policy c))
    with (gcra_span (check_policy c)) in *.
  destruct (evaluate_exact_cases c now tat) as [[Hgt ->]|[Hle ->]]; unfold bucket_take.
  - case_cmp; [lia|]. split; [done|]. by split.
  - case_cmp; [|lia]. eexists; split; [done|]. cbn [tat_scaled pending_allowance
      expires_at_millis Allowance_available Allowance_replenishes_after Delay_duration Delay_new].
    remember (check_policy c) as p eqn:Hp.
    assert (Hl1 : last_millis (bucket_refill p now b) = now) by done.
    remember (bucket_refill p now b) as b1 eqn:Hb1.
    remember (active_tat p now tat + check_cost c * gcra_period p) as cand eqn:Hcand.
    split_and!.
    + unfold bucket_rel, active_tat; cbn. rewrite Hl1. split; lia.
    + split; cbn; [unfold Capacity_wf, MAX_LIMIT; unfold_widths; lia|]. split; [apply Z.div_pos; lia|].
      apply Z.div_le_upper_bound; [lia|]. unfold gcra_span in *. lia.
    + cbn. f_equal. lia.
    + do 2 f_equal. lia.
    + intros t Ht. unfold bucket_refill; cbn. rewrite Hl1.
      pose proof (div_ceil_le (cand - now * gcra_quota p) (gcra_quota p) (t - now)
        ltac:(lia)) as Hiff.
      rewrite Z.mul_sub_distr_r in Hiff |- *.
      remember (div_ceil _ _) as rep. split; intros; lia.
Qed.

(** ** Concrete GCRA checks *)

Definition example_gcra_policy (tag : Z) : GcraPolicy :=
  mkGcraPolicy (mkPolicyId [97]) (mkScopeId [98]) (mkCapacity 10) (mkQuotaPeriod 1000)
    (mkCapacity 5) (from_digest [tag]) Enforce.

Definition example_gcra_check (tag subject cost : Z) : Check GcraPolicy :=
  mkCheck (example_gcra_policy tag) (mkSubjectKey [subject]) cost.

Lemma example_gcra_check_valid tag subject cost :
  1 <= cost <= 5 -> gcra_check_valid (example_gcra_check tag subject cost).
Proof.
  intros Hc. split.
  - unfold GcraPolicy_valid, PolicyId_wf, ScopeId_wf, identifier_wf, Capacity_wf,
      QuotaPeriod_wf.
    rewrite MAX_WINDOW_MILLIS_val. unfold MAX_LIMIT, MAX_IDENTIFIER_LENGTH. cbn.
    unfold_widths. split_and!; try lia; repeat constructor.
  - exact Hc.
Qed.

(** C35 witness. *)
Lemma gcra_refines_token_bucket_witness :
  let c := example_gcra_check 0 1 5 in
  let b := mkBucket 5000 0 in
  (in_u64 100 /\ bucket_rel (check_policy c) b None)
  /\ exists e, evaluate c 100 None = Ok e
     /\ e = Evaluation_Allowed (mkPendingAllowance 6000 600
              (mkAllowance (mkCapacity 5) 0 (Delay_new (from_millis 500)))).
Proof.
  cbv zeta.
  assert (H1 : in_u64 100) by (unfold in_u64, u64_max; lia).
  assert (H2 : bucket_rel (check_policy (example_gcra_check 0 1 5)) (mkBucket 5000 0) None)
    by (split; [reflexivity|exact I]).
  split; [by split|].
  destruct (gcra_refines_token_bucket (example_gcra_check 0 1 5) (mkBucket 5000 0) None 100
    (example_gcra_check_valid 0 1 5 ltac:(lia)) H1 ltac:(simpl; lia) H2) as (e & He & _).
  exists e. split; [exact He|]. vm_compute in He. by injection He as <-.
Defined.

(** * Denials *)

(** [retry_after] of a quota denial is exact: the same check is
    admitted when retried after the reported delay and denied again at every
    earlier millisecond, as long as nothing else touches the counter; the
    delay is positive, a whole number of milliseconds, and no longer than
    the longest portable window. *)
Theorem gcra_retry_after_exact (c : Check GcraPolicy) (now : Z) (tat : option Z)
    (d : QuotaDenial) (Hc : gcra_check_valid c) (Hnow : 0 <= now)
    (Htat : tat_reachable (check_policy c) now tat)
    (Hroom : now + MAX_WINDOW_MILLIS <= u64_max)
    (Hd : evaluate c now tat = Ok (Evaluation_Denied d)) :
  exists r, QuotaDenial_retry_after d = Delay_new (from_millis r)
  /\ 0 < r <= MAX_WINDOW_MILLIS
  /\ (exists pa, evaluate c (now + r) tat = Ok (Evaluation_Allowed pa))
  /\ (forall k, 0 <= k < r -> exists d', evaluate c (now + k) tat = Ok (Evaluation_Denied d')).
Proof.
  pose proof (gcra_check_facts c Hc) as Hf.
  pose proof (gcra_span_le_u128 _ _ _ _ Hf) as [Hinc _].
  destruct Hf as [Hq Hw Hb Hcost Hr]. rewrite MAX_WINDOW_MILLIS_val in *.
  fold (gcra_span (check_policy c)) in Hinc, Hr.
  assert (Hreach : forall k, 0 <= k -> tat_reachable (check_policy c) (now + k) tat).
  { intros k Hk. apply tat_reachable_mono with now; [lia..|done]. }
  rewrite evaluate_spec in Hd; [|done|unfold in_u64; lia|done]. injection Hd as Hd.
  remember (check_policy c) as p eqn:Hp.
  destruct (evaluate_exact_cases c now tat) as [[Hgt Heq]|[_ Heq]];
    rewrite Heq in Hd; [injection Hd as <-|done]. rewrite <- Hp in *.
  set (over := active_tat p now tat + check_cost c * gcra_period p
    - (now * gcra_quota p + gcra_span p)) in *.
  exists (div_ceil over (gcra_quota p)).
  pose proof (div_ceil_pos over (gcra_quota p) ltac:(lia) ltac:(lia)) as Hpos.
  pose proof (div_ceil_lower over (gcra_quota p) ltac:(lia)) as Hlow.
  assert (Hmax : div_ceil over (gcra_quota p) <= 9007199254740).
  { apply div_ceil_le; [lia|]. unfold tat_reachable, active_tat in *.
    destruct tat; cbn in *; lia. }
  assert (Hstep : forall k, active_tat p (now + k) tat + check_cost c * gcra_period p
      - ((now + k) * gcra_quota p + gcra_span p)
      = Z.max (over - k * gcra_quota p) (check_cost c * gcra_period p - gcra_span p)).
  { intros k. unfold over, active_tat. rewrite Z.mul_add_distr_r.
    unfold active_tat in Hgt. destruct tat; cbn in *; lia. }
  split_and!; [done|lia|lia|..].
  - destruct (evaluate_exact_cases c (now + div_ceil over (gcra_quota p)) tat)
      as [[Hgt' _]|[_ Heq']]; rewrite <- Hp in *.
    + specialize (Hstep (div_ceil over (gcra_quota p))). lia.
    + eexists. rewrite evaluate_spec; rewrite <- ?Hp; [by rewrite Heq'|done|..].
      * unfold in_u64. lia.
      * apply Hreach. lia.
  - intros k Hk. pose proof (proj1 (div_ceil_lt over (gcra_quota p) k ltac:(lia))) as Hlt.
    destruct (evaluate_exact_cases c (now + k) tat) as [[_ Heq']|[Hle' _]];
      rewrite <- Hp in *.
    + eexists. rewrite evaluate_spec; rewrite <- ?Hp; [by rewrite Heq'|done|..].
      * unfold in_u64. lia.
      * apply Hreach. lia.
    + specialize (Hstep k). specialize (Hlt ltac:(lia)). lia.
Qed.

(** A concrete instance. *)
Lemma gcra_retry_after_exact_witness :
  evaluate (example_gcra_check 0 1 5) 100 (Some 6000)
    = Ok (Evaluation_Denied (QuotaDenial_new (mkCapacity 5) (from_millis 500)))
  /\ exists r, Delay_new (from_millis 500) = Delay_new (from_millis r) /\ 0 < r.
Proof.
  assert (Hd : evaluate (example_gcra_check 0 1 5) 100 (Some 6000)
    = Ok (Evaluation_Denied (QuotaDenial_new (mkCapacity 5) (from_millis 500))))
    by reflexivity.
  split; [exact Hd|].
  destruct (gcra_retry_after_exact (example_gcra_check 0 1 5) 100 (Some 6000) _
    (example_gcra_check_valid 0 1 5 ltac:(lia)) ltac:(lia) ltac:(vm_compute; split; discriminate)
    ltac:(vm_compute; discriminate) Hd) as (r & Hr & Hpos & _).
  exists r. split; [exact Hr|lia].
Defined.

(** * Expiry *)

(** After its expiry a stored arrival time is indistinguishable from a
    missing one, for every check of the same policy. *)
Lemma evaluate_exact_expired c c' now now' tat pa :
  gcra_check_valid c -> check_policy c' = check_policy c ->
  evaluate_exact c now tat = Evaluation_Allowed pa -> expires_at_millis pa <= now' ->
  evaluate_exact c' now' (Some (tat_scaled pa)) = evaluate_exact c' now' None.
Proof.
  intros Hc Hp He Hexp. pose proof (gcra_check_facts c Hc) as [Hq _ _ _ _].
  unfold evaluate_exact. rewrite Hp.
  destruct (evaluate_exact_cases c now tat) as [[_ Heq]|[_ Heq]];
    rewrite Heq in He; [done|injection He as <-]. cbn in *.
  set (cand := active_tat (check_policy c) now tat
    + check_cost c * gcra_period (check_policy c)) in *.
  assert (Hle : cand <= now' * gcra_quota (check_policy c)).
  { pose proof (proj1 (div_ceil_le (cand - now * gcra_quota (check_policy c))
      (gcra_quota (check_policy c)) (now' - now) ltac:(lia)) ltac:(lia)). lia. }
  replace (active_tat (check_policy c) now' (Some cand))
    with (active_tat (check_policy c) now' None) by (unfold active_tat; cbn; lia).
  done.
Qed.

(** Expiry of a GCRA counter is exact and lossless: once
    [expires_at_millis] is reached, every later check of the policy is
    evaluated as if the counter did not exist, so a backend may drop it; and
    one millisecond earlier the counter still reports a used bucket. *)
Theorem gcra_expiry_lossless (c c' : Check GcraPolicy) (now now' : Z) (tat : option Z)
    (pa : PendingAllowance) (Hc : gcra_check_valid c) (Hc' : gcra_check_valid c')
    (Hp : check_policy c' = check_policy c) (Hnow : in_u64 now) (Hnow' : in_u64 now')
    (Htat : tat_reachable (check_policy c) now tat) (Hle : now <= now')
    (He : evaluate c now tat = Ok (Evaluation_Allowed pa)) :
  now < expires_at_millis pa <= now + MAX_WINDOW_MILLIS
  /\ tat_reachable (check_policy c) now (Some (tat_scaled pa))
  /\ (expires_at_millis pa <= now' ->
        evaluate c' now' (Some (tat_scaled pa)) = evaluate c' now' None)
  /\ (now' < expires_at_millis pa -> now' * gcra_quota (check_policy c) < tat_scaled pa).
Proof.
  pose proof (gcra_check_facts c Hc) as Hf.
  pose proof (gcra_span_le_u128 _ _ _ _ Hf) as [Hinc _].
  destruct Hf as [Hq Hw Hb Hcost Hr].
  rewrite evaluate_spec in He by done. injection He as He. rewrite MAX_WINDOW_MILLIS_val.
  pose proof (evaluate_exact_expired c c' now now' tat pa Hc Hp He) as Hexp.
  change (Capacity_get (gp_burst_capacity (check_policy c)) * gcra_period (check_policy c))
    with (gcra_span (check_policy c)) in *.
  assert (Ha : now * gcra_quota (check_policy c) <= active_tat (check_policy c) now tat)
    by (unfold active_tat; lia).
  assert (Hn : 0 <= now * gcra_quota (check_policy c)) by (unfold in_u64 in Hnow; nia).
  destruct (evaluate_exact_cases c now tat) as [[_ Heq]|[Hle' Heq]];
    rewrite Heq in He; [done|injection He as <-].
  cbn [expires_at_millis tat_scaled] in *.
  remember (active_tat (check_policy c) now tat
    + check_cost c * gcra_period (check_policy c)) as cand eqn:Hcand.
  remember (cand - now * gcra_quota (check_policy c)) as used eqn:Hused.
  assert (Hused0 : 0 < used) by nia.
  pose proof (div_ceil_pos used (gcra_quota (check_policy c)) ltac:(lia) Hused0).
  pose proof (proj2 (div_ceil_le used (gcra_quota (check_policy c)) 9007199254740
    ltac:(lia)) ltac:(lia)).
  assert (Hreach : tat_reachable (check_policy c) now (Some cand)) by (cbn; lia).
  split; [lia|]. split; [exact Hreach|]. split.
  - intros H1. rewrite !evaluate_spec; [by rewrite Hexp|done|done|exact I|done|done|].
    rewrite Hp. apply tat_reachable_mono with now; [lia|done|done].
  - intros H1. pose proof (proj1 (div_ceil_lt used (gcra_quota (check_policy c)) (now' - now)
      ltac:(lia)) ltac:(lia)). lia.
Qed.

(** A concrete instance. *)
Lemma gcra_expiry_lossless_witness :
  exists pa, evaluate (example_gcra_check 0 1 2) 100 None = Ok (Evaluation_Allowed pa)
  /\ 100 < expires_at_millis pa.
Proof.
  eexists. split; [reflexivity|].
  refine (proj1 (proj1 (gcra_expiry_lossless (example_gcra_check 0 1 2)
    (example_gcra_check 0 1 5) 100 100 None _
    (example_gcra_check_valid 0 1 2 ltac:(lia)) (example_gcra_check_valid 0 1 5 ltac:(lia))
    eq_refl _ _ I _ _))); [vm_compute; split; discriminate..|lia|reflexivity].
Defined.

(** * The long-run rate *)

(** A counter's history: evaluations in time order, each allowance stored. *)
Fixpoint gcra_run (tat : option Z) (trace : list (Z * Check GcraPolicy))
    : Result ArithmeticOverflow (list Z * option Z) :=
  match trace with
  | [] => Ok ([], tat)
  | (now, c) :: trace =>
      e ← evaluate c now tat;
      match e with
      | Evaluation_Allowed pa =>
          '(costs, tat) ← gcra_run (Some (tat_scaled pa)) trace;
          mret (check_cost c :: costs, tat)
      | Evaluation_Denied _ => gcra_run tat trace
      end
  end.

(** Checks of one policy at nondecreasing instants of [t0, t1]. *)
Fixpoint gcra_trace (p : GcraPolicy) (t0 t1 : Z) (trace : list (Z * Check GcraPolicy))
    : Prop :=
  match trace with
  | [] => t0 <= t1
  | (now, c) :: trace =>
      t0 <= now /\ gcra_check_valid c /\ check_policy c = p /\ gcra_trace p now t1 trace
  end.

Lemma gcra_trace_le p t0 t1 trace : gcra_trace p t0 t1 trace -> t0 <= t1.
Proof.
  revert t0. induction trace as [|[now c] trace IH]; intros t0; simpl; [done|].
  intros (? & _ & _ & H%IH). lia.
Qed.

Lemma gcra_run_bound p t0 t1 tat trace :
  1 <= gcra_quota p -> 0 <= gcra_span p -> 0 <= t0 -> t1 <= u64_max ->
  tat_reachable p t0 tat -> gcra_trace p t0 t1 trace ->
  exists costs tat', gcra_run tat trace = Ok (costs, tat')
    /\ active_tat p t0 tat + zsum costs * gcra_period p <= t1 * gcra_quota p + gcra_span p.
Proof.
  intros Hq Hsp. revert t0 tat.
  induction trace as [|[now c] trace IH]; intros t0 tat Ht0 Ht1 Htat Htr; cbn [gcra_run].
  - exists [], tat. split; [done|]. simpl in *.
    assert (t0 * gcra_quota p <= t1 * gcra_quota p) by nia.
    unfold active_tat, tat_reachable in *. destruct tat; cbn in *; lia.
  - destruct Htr as (Hle & Hc & Hp & Htr). pose proof (gcra_trace_le _ _ _ _ Htr) as Hle1.
    rewrite evaluate_spec; [|done|unfold in_u64; lia|rewrite Hp;
      by apply tat_reachable_mono with t0]. cbn [mbind Result_bind].
    pose proof (evaluate_exact_cases c now tat) as Hcases. rewrite Hp in Hcases.
    pose proof (tat_reachable_mono p t0 now tat Hq Hle Htat) as Htat'.
    assert (Hmono : active_tat p t0 tat <= active_tat p now tat).
    { unfold active_tat. assert (t0 * gcra_quota p <= now * gcra_quota p) by nia.
      destruct tat; cbn; lia. }
    pose proof (gcra_check_facts c Hc) as Hf.
    pose proof (gcra_span_le_u128 _ _ _ _ Hf) as [Hinc _]. rewrite Hp in Hinc.
    destruct Hcases as [[_ ->]|[Hok ->]].
    + destruct (IH now tat ltac:(lia) Ht1 Htat' Htr) as (costs & tat' & -> & Hb).
      exists costs, tat'. split; [done|lia].
    + cbn [tat_scaled].
      set (cand := active_tat p now tat + check_cost c * gcra_period p) in *.
      assert (Hcand : now * gcra_quota p <= cand) by (unfold cand, active_tat; lia).
      destruct (IH now (Some cand) ltac:(lia) Ht1) as (costs & tat' & -> & Hb);
        [cbn; nia|done|].
      exists (check_cost c :: costs), tat'. split; [done|].
      assert (Hact : active_tat p now (Some cand) = cand).
      { unfold active_tat. cbn. by apply Z.max_l. }
      change (zsum (check_cost c :: costs)) with (check_cost c + zsum costs).
      rewrite Hact in Hb. rewrite Z.mul_add_distr_r. unfold cand in Hb. lia.
Qed.

(** The GCRA rate bound: over any stretch of a counter's history,
    started from any reachable arrival time and whatever the interleaving of
    admitted and denied checks, the total admitted cost is at most the burst
    capacity plus what the quota replenishes in the elapsed time:
    [cost * period <= burst * period + elapsed * quota].  The evaluation
    never fails along the way. *)
Theorem gcra_rate_bound (p : GcraPolicy) (t0 t1 : Z) (tat : option Z)
    (trace : list (Z * Check GcraPolicy)) (Hp : GcraPolicy_valid p)
    (Ht0 : 0 <= t0) (Ht1 : t1 <= u64_max)
    (Htat : tat_reachable p t0 tat) (Htrace : gcra_trace p t0 t1 trace) :
  exists costs tat', gcra_run tat trace = Ok (costs, tat')
  /\ zsum costs * gcra_period p
     <= Capacity_get (gp_burst_capacity p) * gcra_period p + (t1 - t0) * gcra_quota p.
Proof.
  destruct Hp as (_ & _ & Hq & Hw & Hb & _). unfold Capacity_wf, QuotaPeriod_wf in *.
  destruct (gcra_run_bound p t0 t1 tat trace) as (costs & tat' & -> & Hbound);
    [unfold gcra_quota; lia|unfold gcra_span, gcra_period; nia|done..|].
  exists costs, tat'. split; [done|]. unfold gcra_span in Hbound.
  assert (t0 * gcra_quota p <= active_tat p t0 tat) by (unfold active_tat; lia). lia.
Qed.

(** A concrete instance. *)
Lemma gcra_rate_bound_witness :
  let c := example_gcra_check 0 1 2 in
  exists costs tat',
    gcra_run None [(0, c); (10, c); (20, c); (150, c); (700, c)] = Ok (costs, tat')
    /\ costs = [2; 2; 2; 2]
    /\ zsum costs * 1000 <= 5 * 1000 + (1000 - 0) * 10.
Proof.
  cbv zeta.
  pose proof (example_gcra_check_valid 0 1 2 ltac:(lia)) as Hc.
  destruct (gcra_rate_bound (example_gcra_policy 0) 0 1000 None
    [(0, example_gcra_check 0 1 2); (10, example_gcra_check 0 1 2);
     (20, example_gcra_check 0 1 2); (150, example_gcra_check 0 1 2);
     (700, example_gcra_check 0 1 2)] (proj1 Hc)) as (costs & tat' & H & Hb);
    [lia|unfold u64_max; lia|exact I|cbn; split_and!; (done || lia)|].
  exists costs, tat'. split; [exact H|]. split; [|exact Hb].
  vm_compute in H. by injection H as <- _.
Defined.
