(* ===== verification/OrdSet.v ===== *)
(** Ordered sets ([std::collections::BTreeSet]) as strictly sorted lists,
    over a class of decidable strict orders with lexicographic instances
    ([derive(Ord)]). *)

From S2P Require Import Prelude RustStd.
From Stdlib Require Import Sorting.Sorted.
Open Scope list_scope.

Class Ordered (A : Type) := {
  cmp : A -> A -> comparison;
  cmp_eq : forall a b, cmp a b = Eq <-> a = b;
  cmp_antisym : forall a b, cmp b a = CompOpp (cmp a b);
  cmp_trans : forall a b c, cmp a b = Lt -> cmp b c = Lt -> cmp a c = Lt;
}.

Definition lt_of {A} `{Ordered A} (a b : A) : Prop := cmp a b = Lt.

Lemma cmp_refl {A} `{Ordered A} a : cmp a a = Eq.
Proof. by apply cmp_eq. Qed.

Lemma cmp_gt {A} `{Ordered A} a b : cmp a b = Gt <-> cmp b a = Lt.
Proof. rewrite (cmp_antisym a b). by destruct (cmp a b). Qed.

Lemma lt_of_irrefl {A} `{Ordered A} a : ~ lt_of a a.
Proof. unfold lt_of. by rewrite cmp_refl. Qed.

#[export] Program Instance Z_ordered : Ordered Z := { cmp := Z.compare }.
Next Obligation. intros a b. apply Z.compare_eq_iff. Qed.
Next Obligation. intros a b. apply Z.compare_antisym. Qed.
Next Obligation. intros a b c. rewrite !Z.compare_lt_iff. lia. Qed.

(** Lexicographic combination of two comparison results. *)
Definition lex (a b : comparison) : comparison :=
  match a with Eq => b | _ => a end.

#[export] Program Instance pair_ordered {A B} `{Ordered A, Ordered B} : Ordered (A * B) := {
  cmp := fun p q => lex (cmp p.1 q.1) (cmp p.2 q.2);
}.
Next Obligation.
  intros A B ? ? [a b] [a' b']; simpl. pose proof (cmp_eq a a'). pose proof (cmp_eq b b').
  destruct (cmp a a'); simpl; naive_solver.
Qed.
Next Obligation.
  intros A B ? ? [a b] [a' b']; simpl.
  rewrite (cmp_antisym a a'), (cmp_antisym b b'). by destruct (cmp a a').
Qed.
Next Obligation.
  intros A B ? ? [a b] [a' b'] [a'' b'']; simpl. unfold lex.
  destruct (cmp a a') eqn:E1, (cmp a' a'') eqn:E2; try done; intros H1 H2.
  - apply cmp_eq in E1 as ->. rewrite E2. by apply cmp_trans with b'.
  - apply cmp_eq in E1 as ->. by rewrite E2.
  - apply cmp_eq in E2 as ->. by rewrite E1.
  - by rewrite (cmp_trans a a' a'').
Qed.

Fixpoint list_cmp {A} `{Ordered A} (l k : list A) : comparison :=
  match l, k with
  | [], [] => Eq
  | [], _ => Lt
  | _, [] => Gt
  | x :: l, y :: k => lex (cmp x y) (list_cmp l k)
  end.

#[export] Program Instance list_ordered {A} `{Ordered A} : Ordered (list A) := {
  cmp := list_cmp;
}.
Next Obligation.
  intros A ?. induction a as [|x l IH]; intros [|y k]; simpl; try done.
  pose proof (cmp_eq x y). specialize (IH k).
  destruct (cmp x y); simpl; naive_solver.
Qed.
Next Obligation.
  intros A ?. induction a as [|x l IH]; intros [|y k]; simpl; try done.
  rewrite (cmp_antisym x y), IH. by destruct (cmp x y).
Qed.
Next Obligation.
  intros A ?. induction a as [|x l IH]; intros [|y k] [|z m]; simpl; try done.
  unfold lex.
  destruct (cmp x y) eqn:E1, (cmp y z) eqn:E2; try done; intros H1 H2.
  - apply cmp_eq in E1 as ->. rewrite E2. by apply IH with k.
  - apply cmp_eq in E1 as ->. by rewrite E2.
  - apply cmp_eq in E2 as ->. by rewrite E1.
  - by rewrite (cmp_trans x y z).
Qed.

(** An order pulled back along an injection. *)
Definition ordered_by {A B} `{Ordered B} (f : A -> B) (Hf : forall a b, f a = f b -> a = b)
    : Ordered A.
Proof.
  refine {| cmp := fun a b => cmp (f a) (f b) |}.
  - intros a b. rewrite cmp_eq. split; [apply Hf|congruence].
  - intros a b. apply cmp_antisym.
  - intros a b c. apply cmp_trans.
Defined.

(** * Sets *)

Section OrdSet.
Context {A : Type} `{Ordered A}.

Definition set_wf (l : list A) : Prop := StronglySorted lt_of l.

(** [BTreeSet::insert]: the set and whether the element was new. *)
Fixpoint set_insert (x : A) (l : list A) : list A * bool :=
  match l with
  | [] => ([x], true)
  | y :: l' =>
      match cmp x y with
      | Lt => (x :: l, true)
      | Eq => (l, false)
      | Gt => let '(k, b) := set_insert x l' in (y :: k, b)
      end
  end.

(** [BTreeSet::remove]: the set and whether the element was present. *)
Fixpoint set_remove (x : A) (l : list A) : list A * bool :=
  match l with
  | [] => ([], false)
  | y :: l' =>
      match cmp x y with
      | Lt => (l, false)
      | Eq => (l', true)
      | Gt => let '(k, b) := set_remove x l' in (y :: k, b)
      end
  end.

Definition set_first (l : list A) : option A := head l.
Definition set_pop_first (l : list A) : option (A * list A) :=
  match l with [] => None | x :: l' => Some (x, l') end.

Lemma set_wf_cons x l :
  set_wf (x :: l) <-> set_wf l /\ forall y, y ∈ l -> lt_of x y.
Proof.
  unfold set_wf. split.
  - intros Hs. inversion Hs; subst. split; [done|]. by apply Forall_forall.
  - intros [Hl Hx]. constructor; [done|]. by apply Forall_forall.
Qed.

Lemma set_wf_not_in x l : set_wf (x :: l) -> x ∉ l.
Proof.
  intros [_ Hx]%set_wf_cons Hin. by eapply lt_of_irrefl, Hx.
Qed.

Lemma set_wf_NoDup l : set_wf l -> NoDup l.
Proof.
  induction l as [|x l IH]; intros Hl; constructor.
  - by apply set_wf_not_in.
  - apply IH. by apply set_wf_cons in Hl as [? _].
Qed.

Lemma set_insert_elem x l y : y ∈ (set_insert x l).1 <-> y = x \/ y ∈ l.
Proof.
  induction l as [|z l IH]; simpl.
  - rewrite list_elem_of_singleton. set_solver.
  - destruct (cmp x z) eqn:E; simpl.
    + apply cmp_eq in E as ->. set_solver.
    + set_solver.
    + destruct (set_insert x l) as [k b]; simpl in *. set_solver.
Qed.

Lemma set_insert_wf x l : set_wf l -> set_wf (set_insert x l).1.
Proof.
  induction l as [|z l IH]; intros Hl; simpl.
  - apply set_wf_cons. split; [done|]. intros y Hy. by apply not_elem_of_nil in Hy.
  - apply set_wf_cons in Hl as Hl'. destruct Hl' as [Hl' Hz].
    destruct (cmp x z) eqn:E; simpl; [done|..].
    + apply set_wf_cons. split; [done|]. intros y [->|Hy]%elem_of_cons; [done|].
      unfold lt_of in *. by eapply cmp_trans, Hz.
    + pose proof (set_insert_elem x l) as Helem. specialize (IH Hl').
      destruct (set_insert x l) as [k b]; simpl in *.
      apply set_wf_cons. split; [done|]. intros y [->|Hy]%Helem; [by apply cmp_gt|auto].
Qed.

Lemma set_insert_new x l : set_wf l -> (set_insert x l).2 = true <-> x ∉ l.
Proof.
  induction l as [|z l IH]; intros Hl; simpl.
  - split; [intros _; apply not_elem_of_nil|done].
  - apply set_wf_cons in Hl as [Hl Hz]. specialize (IH Hl).
    destruct (cmp x z) eqn:E; simpl.
    + apply cmp_eq in E as ->. set_solver.
    + split; [|done]. intros _ [->|Hx]%elem_of_cons; [by rewrite cmp_refl in E|].
      apply Hz in Hx. unfold lt_of in Hx. rewrite cmp_antisym, E in Hx. done.
    + destruct (set_insert x l) as [k b]; simpl in *. rewrite IH, not_elem_of_cons.
      split; [|tauto]. intros ?. split; [|done]. intros ->. by rewrite cmp_refl in E.
Qed.

Lemma set_insert_length x l :
  length (set_insert x l).1 = ((if (set_insert x l).2 then 1 else 0) + length l)%nat.
Proof.
  induction l as [|z l IH]; simpl; [done|].
  destruct (cmp x z); simpl; [done..|].
  destruct (set_insert x l) as [k b]; simpl in *. lia.
Qed.

Lemma set_remove_elem x l y :
  set_wf l -> y ∈ (set_remove x l).1 <-> y <> x /\ y ∈ l.
Proof.
  induction l as [|z l IH]; intros Hl; simpl; [set_solver|].
  pose proof (set_wf_not_in _ _ Hl) as Hnz.
  apply set_wf_cons in Hl as [Hl Hz]. specialize (IH Hl).
  destruct (cmp x z) eqn:E; simpl.
  - apply cmp_eq in E as ->. set_solver.
  - split; [|tauto]. intros Hy. split; [|done]. intros ->.
    apply elem_of_cons in Hy as [->|Hy]; [by rewrite cmp_refl in E|].
    apply Hz in Hy. unfold lt_of in Hy. rewrite cmp_antisym, E in Hy. done.
  - destruct (set_remove x l) as [k b]; simpl in *.
    assert (z <> x) by (intros ->; by rewrite cmp_refl in E). set_solver.
Qed.

Lemma set_remove_wf x l : set_wf l -> set_wf (set_remove x l).1.
Proof.
  induction l as [|z l IH]; intros Hl; simpl; [done|].
  pose proof (set_remove_elem x l) as Helem.
  apply set_wf_cons in Hl as Hl'. destruct Hl' as [Hl' Hz].
  destruct (cmp x z) eqn:E; simpl; [done..|].
  specialize (IH Hl'). destruct (set_remove x l) as [k b]; simpl in *.
  apply set_wf_cons. split; [done|]. intros y Hy. apply Hz. by apply Helem in Hy as [_ ?].
Qed.

Lemma set_remove_found x l : set_wf l -> (set_remove x l).2 = true <-> x ∈ l.
Proof.
  induction l as [|z l IH]; intros Hl; simpl; [set_solver|].
  apply set_wf_cons in Hl as [Hl Hz]. specialize (IH Hl).
  destruct (cmp x z) eqn:E; simpl.
  - apply cmp_eq in E as ->. set_solver.
  - split; [done|]. intros [->|Hx]%elem_of_cons; [by rewrite cmp_refl in E|].
    apply Hz in Hx. unfold lt_of in Hx. rewrite cmp_antisym, E in Hx. done.
  - destruct (set_remove x l) as [k b]; simpl in *. rewrite IH, elem_of_cons.
    split; [tauto|]. intros [->|?]; [by rewrite cmp_refl in E|done].
Qed.

Lemma set_remove_length x l :
  ((if (set_remove x l).2 then 1 else 0) + length (set_remove x l).1 = length l)%nat.
Proof.
  induction l as [|z l IH]; simpl; [done|].
  destruct (cmp x z); simpl; [done..|].
  destruct (set_remove x l) as [k b]; simpl in *. lia.
Qed.
End OrdSet.

#[export] Hint Resolve set_insert_wf set_remove_wf set_wf_NoDup : runlimit.
