(* ===== verification/MemConfig.v ===== *)
(** [runlimit-memory/src/config.rs] and [clock.rs]: the bounds of a memory
    store and the split of its capacity over shards. *)

From S2P Require Import Prelude RustStd.

Definition DEFAULT_SHARD_COUNT : nat := 1.
Definition DEFAULT_MAX_EXPIRED_REMOVALS : nat := 8.
Definition DEFAULT_MAX_BATCH_SIZE : nat := 32.

Record MemoryStoreConfig := mkMemoryStoreConfig {
  max_keys : nat;
  shard_count : nat;
  max_expired_removals_per_check : nat;
  max_batch_size : nat;
}.

#[export] Instance MemoryStoreConfig_eq_dec : EqDecision MemoryStoreConfig.
Proof. solve_decision. Defined.

Inductive MemoryStoreConfigError :=
| ZeroMaxKeys
| ZeroShardCount
| MoreShardsThanKeys (shard_count max_keys : nat)
| ZeroExpiredRemovalLimit
| ZeroBatchSize.

Definition MemoryStoreConfig_new (max_keys : nat)
    : Result MemoryStoreConfigError MemoryStoreConfig :=
  if Nat.eqb max_keys 0 then Err ZeroMaxKeys
  else Ok (mkMemoryStoreConfig max_keys (Nat.min DEFAULT_SHARD_COUNT max_keys)
             DEFAULT_MAX_EXPIRED_REMOVALS DEFAULT_MAX_BATCH_SIZE).

Definition with_shard_count (self : MemoryStoreConfig) (shard_count : nat)
    : Result MemoryStoreConfigError MemoryStoreConfig :=
  if Nat.eqb shard_count 0 then Err ZeroShardCount
  else if Nat.ltb (max_keys self) shard_count
  then Err (MoreShardsThanKeys shard_count (max_keys self))
  else Ok (mkMemoryStoreConfig (max_keys self) shard_count
             (max_expired_removals_per_check self) (max_batch_size self)).

Definition with_max_expired_removals_per_check (self : MemoryStoreConfig) (maximum : nat)
    : Result MemoryStoreConfigError MemoryStoreConfig :=
  if Nat.eqb maximum 0 then Err ZeroExpiredRemovalLimit
  else Ok (mkMemoryStoreConfig (max_keys self) (shard_count self) maximum
             (max_batch_size self)).

Definition with_max_batch_size (self : MemoryStoreConfig) (maximum : nat)
    : Result MemoryStoreConfigError MemoryStoreConfig :=
  if Nat.eqb maximum 0 then Err ZeroBatchSize
  else Ok (mkMemoryStoreConfig (max_keys self) (shard_count self)
             (max_expired_removals_per_check self) maximum).

Definition shard_capacity (self : MemoryStoreConfig) (shard_index : nat) : nat :=
  let base := (max_keys self / shard_count self)%nat in
  let extra := if Nat.ltb shard_index (max_keys self mod shard_count self) then 1%nat else 0%nat in
  (base + extra)%nat.

(** The serde forms: every field but [max_keys] may be missing on input. *)
Record MemoryStoreConfigWire := mkMemoryStoreConfigWire {
  mw_max_keys : nat;
  mw_shard_count : option nat;
  mw_max_expired_removals_per_check : option nat;
  mw_max_batch_size : option nat;
}.

Definition MemoryStoreConfig_serialize (c : MemoryStoreConfig) : MemoryStoreConfigWire :=
  mkMemoryStoreConfigWire (max_keys c) (Some (shard_count c))
    (Some (max_expired_removals_per_check c)) (Some (max_batch_size c)).

Definition MemoryStoreConfig_deserialize (wire : MemoryStoreConfigWire)
    : Result MemoryStoreConfigError MemoryStoreConfig :=
  config ← MemoryStoreConfig_new (mw_max_keys wire);
  config ← with_shard_count config (default DEFAULT_SHARD_COUNT (mw_shard_count wire));
  config ← with_max_expired_removals_per_check config
             (default DEFAULT_MAX_EXPIRED_REMOVALS (mw_max_expired_removals_per_check wire));
  with_max_batch_size config (default DEFAULT_MAX_BATCH_SIZE (mw_max_batch_size wire)).

Definition MemoryStoreConfig_wf (c : MemoryStoreConfig) : Prop :=
  (1 <= shard_count c <= max_keys c)%nat
  /\ (1 <= max_expired_removals_per_check c)%nat /\ (1 <= max_batch_size c)%nat.

(** * Lemmas *)

Definition nat_sum (l : list nat) : nat := foldr Nat.add 0%nat l.

Lemma nat_sum_app l k : nat_sum (l ++ k) = (nat_sum l + nat_sum k)%nat.
Proof. induction l as [|x l IH]; simpl; [done|]. rewrite IH. lia. Qed.

Lemma shard_capacity_prefix c n :
  nat_sum (map (shard_capacity c) (seq 0 n)) =
    (n * (max_keys c / shard_count c) + Nat.min n (max_keys c mod shard_count c))%nat.
Proof.
  induction n as [|n IH]; [by rewrite Nat.min_0_l|].
  rewrite seq_S, map_app, nat_sum_app, IH. cbn [map nat_sum foldr].
  rewrite Nat.add_0_l, Nat.add_0_r. unfold shard_capacity; cbv zeta.
  generalize (max_keys c / shard_count c)%nat, (max_keys c mod shard_count c)%nat.
  intros q r. rewrite Nat.mul_succ_l. destruct (Nat.ltb_spec n r); lia.
Qed.

Lemma shard_capacity_pos c i : MemoryStoreConfig_wf c -> (1 <= shard_capacity c i)%nat.
Proof.
  intros [Hs _]. unfold shard_capacity.
  assert (Hq : (1 <= max_keys c / shard_count c)%nat) by (apply Nat.div_le_lower_bound; lia).
  revert Hq. generalize (max_keys c / shard_count c)%nat. lia.
Qed.

Lemma shard_capacity_sum c : MemoryStoreConfig_wf c ->
  nat_sum (map (shard_capacity c) (seq 0 (shard_count c))) = max_keys c.
Proof.
  intros [Hs _]. rewrite shard_capacity_prefix.
  pose proof (Nat.div_mod_eq (max_keys c) (shard_count c)).
  pose proof (Nat.mod_upper_bound (max_keys c) (shard_count c)) as Hr. revert H Hr.
  generalize (max_keys c / shard_count c)%nat, (max_keys c mod shard_count c)%nat.
  intros q r. lia.
Qed.

Lemma MemoryStoreConfig_deserialize_wf w c :
  MemoryStoreConfig_deserialize w = Ok c -> MemoryStoreConfig_wf c.
Proof.
  unfold MemoryStoreConfig_deserialize, MemoryStoreConfig_new, with_shard_count,
    with_max_expired_removals_per_check, with_max_batch_size, MemoryStoreConfig_wf.
  intros H.
  apply Result_bind_Ok in H as (c1 & H1 & H). destruct (Nat.eqb_spec (mw_max_keys w) 0); [done|].
  injection H1 as <-. apply Result_bind_Ok in H as (c2 & H2 & H).
  destruct (Nat.eqb_spec (default DEFAULT_SHARD_COUNT (mw_shard_count w)) 0); [done|].
  simpl in H2. destruct (Nat.ltb_spec (mw_max_keys w)
    (default DEFAULT_SHARD_COUNT (mw_shard_count w))); [done|].
  injection H2 as <-. apply Result_bind_Ok in H as (c3 & H3 & H).
  destruct (Nat.eqb_spec (default DEFAULT_MAX_EXPIRED_REMOVALS
    (mw_max_expired_removals_per_check w)) 0); [done|].
  injection H3 as <-.
  destruct (Nat.eqb_spec (default DEFAULT_MAX_BATCH_SIZE (mw_max_batch_size w)) 0); [done|].
  injection H as <-. simpl. lia.
Qed.

(** A configuration is built only with positive bounds and at most as
    many shards as keys; the fixed per-shard capacities are then positive
    and add up exactly to [max_keys], so the shards together can never hold
    more; and the wire form reads back as the same configuration. *)
Theorem shard_capacities_partition (w : MemoryStoreConfigWire) (c : MemoryStoreConfig)
    (Hc : MemoryStoreConfig_deserialize w = Ok c) :
  MemoryStoreConfig_wf c
  /\ nat_sum (map (shard_capacity c) (seq 0 (shard_count c))) = max_keys c
  /\ (forall i, (1 <= shard_capacity c i)%nat)
  /\ MemoryStoreConfig_deserialize (MemoryStoreConfig_serialize c) = Ok c.
Proof.
  pose proof (MemoryStoreConfig_deserialize_wf w c Hc) as Hwf. split_and!.
  - done.
  - by apply shard_capacity_sum.
  - intros i. by apply shard_capacity_pos.
  - destruct Hwf as (Hs & Hr & Hb).
    unfold MemoryStoreConfig_deserialize, MemoryStoreConfig_new, with_shard_count,
      with_max_expired_removals_per_check, with_max_batch_size; simpl.
    destruct (Nat.eqb_spec (max_keys c) 0); [lia|]. simpl.
    destruct (Nat.eqb_spec (shard_count c) 0); [lia|]. simpl.
    destruct (Nat.ltb_spec (max_keys c) (shard_count c)); [lia|]. simpl.
    destruct (Nat.eqb_spec (max_expired_removals_per_check c) 0); [lia|]. simpl.
    destruct (Nat.eqb_spec (max_batch_size c) 0); [lia|]. by destruct c.
Qed.

(** A concrete instance. *)
Lemma shard_capacities_partition_witness :
  MemoryStoreConfig_deserialize (mkMemoryStoreConfigWire 10 (Some 4%nat) None None)
    = Ok (mkMemoryStoreConfig 10 4 8 32)
  /\ nat_sum (map (shard_capacity (mkMemoryStoreConfig 10 4 8 32)) [0; 1; 2; 3]%nat) = 10%nat.
Proof.
  split; [reflexivity|].
  exact (proj1 (proj2 (shard_capacities_partition
    (mkMemoryStoreConfigWire 10 (Some 4%nat) None None) (mkMemoryStoreConfig 10 4 8 32)
    eq_refl))).
Defined.
