(* ===== verification/Shards.v ===== *)
(** [runlimit-memory/src/shards.rs]: hard-bounded shards with an expiration
    index, their mutexes, and the lock topology of an atomic batch.

    A panic inside a critical section poisons the mutexes held; the guarded
    data of a poisoned shard is never read again, only replaced.  Every
    operation holds its locks from its first read to its last write, so
    operations are modelled as atomic state transformers. *)

From S2P Require Import Prelude RustStd Identifier Policy Decision AttemptPolicy Key Check OrdSet MemConfig.
From Stdlib Require Import Sorting.Sorted.
Open Scope list_scope.

(** * Keys, hashing and the expiration order *)

(** [const fn leading_u64]. *)
Definition leading_u64 (bs : bytes) : Z :=
  foldr (fun b acc => b + 256 * acc) 0 (take 8 bs).

Definition rotate_left_u64 (x n : Z) : Z :=
  Z.lor (Z.land (Z.shiftl x n) u64_max) (Z.shiftr x (64 - n)).

Definition counter_key_hash (key : CounterKey) : Z :=
  Z.lxor (leading_u64 (SubjectKey_as_bytes (ck_subject key)))
    (rotate_left_u64 (leading_u64 (fingerprint_bytes (ck_fingerprint key))) 32).

(** The hash tables of a shard: [PrehashedCounterKey] feeds its own hash to a
    [PassThroughHasher], whose byte-wise fallback it never uses. *)
Definition PassThroughHasher : Type := Z.
Definition PassThroughHasher_default : PassThroughHasher := 0.
Definition hasher_finish (self : PassThroughHasher) : Z := self.
Definition hasher_write (self : PassThroughHasher) (bs : bytes) : PassThroughHasher :=
  foldl (fun h b => Z.lxor (rotate_left_u64 h 8) b) self bs.
Definition hasher_write_u64 (self : PassThroughHasher) (value : Z) : PassThroughHasher := value.

Definition PrehashedCounterKey_hash (key : CounterKey) (state : PassThroughHasher) : PassThroughHasher :=
  hasher_write_u64 state (counter_key_hash key).

(** [BuildHasherDefault::hash_one]: what a shard's table files a key under. *)
Definition table_hash (key : CounterKey) : Z :=
  hasher_finish (PrehashedCounterKey_hash key PassThroughHasher_default).

Record Expiration := mkExpiration {
  ex_at : Z; (* expires_at_millis *)
  ex_key : CounterKey;
}.

#[export] Instance Expiration_eq_dec : EqDecision Expiration.
Proof. solve_decision. Defined.

Definition CounterKey_fields (k : CounterKey) : bytes * bytes :=
  (fingerprint_bytes (ck_fingerprint k), SubjectKey_as_bytes (ck_subject k)).

Lemma CounterKey_fields_inj k1 k2 : CounterKey_fields k1 = CounterKey_fields k2 -> k1 = k2.
Proof. destruct k1 as [[?] [?]], k2 as [[?] [?]]. unfold CounterKey_fields. simpl. by intros [= -> ->]. Qed.

#[export] Instance CounterKey_ordered : Ordered CounterKey :=
  ordered_by CounterKey_fields CounterKey_fields_inj.

Definition Expiration_fields (e : Expiration) : Z * CounterKey := (ex_at e, ex_key e).

Lemma Expiration_fields_inj a b : Expiration_fields a = Expiration_fields b -> a = b.
Proof. destruct a, b. unfold Expiration_fields. simpl. by intros [= -> ->]. Qed.

#[export] Instance Expiration_ordered : Ordered Expiration :=
  ordered_by Expiration_fields Expiration_fields_inj.

Lemma Expiration_lt_at a b : lt_of a b -> ex_at a <= ex_at b.
Proof.
  unfold lt_of. simpl. unfold lex. destruct (ex_at a ?= ex_at b) eqn:E; try done.
  - intros _. apply Z.compare_eq_iff in E. by rewrite E.
  - intros _. change (ex_at a < ex_at b) in E. lia.
Qed.

(** * One shard *)

Record StoredEntry (E : Type) := mkStoredEntry {
  se_value : E;
  se_expires : Z; (* expires_at_millis *)
}.
Arguments mkStoredEntry {E} _ _.
Arguments se_value {E} _.
Arguments se_expires {E} _.

Record Shard (E : Type) := mkShard {
  sh_capacity : nat;
  latest_observed_millis : Z;
  entries : gmap CounterKey (StoredEntry E);
  expirations : list Expiration;
}.
Arguments mkShard {E} _ _ _ _.
Arguments sh_capacity {E} _.
Arguments latest_observed_millis {E} _.
Arguments entries {E} _.
Arguments expirations {E} _.

Section ShardOps.
Context {E : Type}.
Implicit Types sh : Shard E.

Definition Shard_new (capacity : nat) : Shard E := mkShard capacity 0 ∅ [].

Definition Shard_clear sh : Shard E :=
  mkShard (sh_capacity sh) (latest_observed_millis sh) ∅ [].

Definition Shard_used sh : nat := size (entries sh).

Definition record_observed_millis (now_millis : Z) sh : Shard E :=
  mkShard (sh_capacity sh) now_millis (entries sh) (expirations sh).

Definition contains_key sh (key : CounterKey) : bool := bool_decide (is_Some (entries sh !! key)).

Definition active_entry sh (key : CounterKey) (now_millis : Z) : option (E * Z) :=
  entry ← entries sh !! key;
  if now_millis <? se_expires entry then Some (se_value entry, se_expires entry) else None.

(** [update_value], for an [update] that returns nothing. *)
Definition update_value sh (key : CounterKey) (update : E -> E) : option (Shard E) :=
  (fun entry => mkShard (sh_capacity sh) (latest_observed_millis sh)
     (<[key := mkStoredEntry (update (se_value entry)) (se_expires entry)]> (entries sh))
     (expirations sh)) <$> entries sh !! key.

Definition replace sh (key : CounterKey) (value : E) (expires_at_millis : Z) : Shard E :=
  let previous := entries sh !! key in
  let entries' := <[key := mkStoredEntry value expires_at_millis]> (entries sh) in
  let expirations' :=
    match previous with
    | Some previous => (set_remove (mkExpiration (se_expires previous) key) (expirations sh)).1
    | None => expirations sh
    end in
  mkShard (sh_capacity sh) (latest_observed_millis sh) entries'
    (set_insert (mkExpiration expires_at_millis key) expirations').1.

(** The loop [for _ in 0..maximum]. *)
Fixpoint prune_loop (now_millis : Z) (maximum : nat) sh (removed_count : nat)
    : Outcome (Shard E * nat) :=
  match maximum with
  | O => Done (sh, removed_count)
  | S maximum =>
      match set_first (expirations sh) with
      | None => Done (sh, removed_count)
      | Some expiration =>
          if now_millis <? ex_at expiration then Done (sh, removed_count)
          else
            '(expiration, rest) ← expect (set_pop_first (expirations sh));
            let removed := entries sh !! ex_key expiration in
            prune_loop now_millis maximum
              (mkShard (sh_capacity sh) (latest_observed_millis sh)
                 (delete (ex_key expiration) (entries sh)) rest)
              (removed_count + match removed with Some _ => 1 | None => 0 end)
      end
  end.

Definition prune_expired sh (now_millis : Z) (maximum : nat) : Outcome (Shard E * nat) :=
  prune_loop now_millis maximum sh 0.

Definition capacity_retry_after_millis sh (now_millis : Z) : option Z :=
  (fun expiration => Z.max (saturating_sub (ex_at expiration) now_millis) 1)
    <$> set_first (expirations sh).

Definition storage_capacity_denial sh (now_millis : Z) : Outcome Denial :=
  match capacity_retry_after_millis sh now_millis with
  | None => Done (StorageCapacity None)
  | Some millis =>
      millis ← expect (try_from u64_max millis);
      mret (StorageCapacity (Some (Delay_new (from_millis millis))))
  end.

(** * The shard invariant *)

Record Shard_wf sh : Prop := {
  wf_sorted : set_wf (expirations sh);
  wf_index : forall ex, ex ∈ expirations sh <->
    exists e, entries sh !! ex_key ex = Some e /\ se_expires e = ex_at ex;
  wf_bound : (size (entries sh) <= sh_capacity sh)%nat;
  wf_latest : 0 <= latest_observed_millis sh;
  wf_expiry : forall k e, entries sh !! k = Some e ->
    se_expires e <= latest_observed_millis sh + MAX_WINDOW_MILLIS;
}.

Lemma Shard_new_wf c : Shard_wf (Shard_new c).
Proof.
  split; simpl; try done.
  - constructor.
  - intros ex. split; [by intros ?%not_elem_of_nil|]. intros (e & He & _). done.
  - rewrite map_size_empty. lia.
Qed.

Lemma Shard_clear_wf sh : Shard_wf sh -> Shard_wf (Shard_clear sh).
Proof.
  intros []. split; simpl; try done.
  - constructor.
  - intros ex. split; [by intros ?%not_elem_of_nil|]. intros (e & He & _). done.
  - rewrite map_size_empty. lia.
Qed.

Lemma record_observed_wf now sh :
  Shard_wf sh -> latest_observed_millis sh <= now -> Shard_wf (record_observed_millis now sh).
Proof.
  intros [] Hle. split; simpl; try done; [lia|]. intros k e He.
  specialize (wf_expiry0 k e He). lia.
Qed.

Lemma update_value_wf sh key f sh' :
  Shard_wf sh -> update_value sh key f = Some sh' -> Shard_wf sh'.
Proof.
  intros [] H. apply fmap_Some in H as (e & He & ->). split; simpl; try done.
  - intros ex. rewrite wf_index0. destruct (decide (ex_key ex = key)) as [->|Hne].
    + rewrite lookup_insert_eq, He. split; intros (e' & [= <-] & Hat); eauto.
    + by rewrite lookup_insert_ne.
  - by rewrite map_size_insert_Some.
  - intros k e'. destruct (decide (k = key)) as [->|Hne].
    + rewrite lookup_insert_eq. intros [= <-]. simpl. by apply (wf_expiry0 key e).
    + rewrite lookup_insert_ne by done. apply wf_expiry0.
Qed.

Lemma replace_wf sh key v at_ :
  Shard_wf sh ->
  (is_Some (entries sh !! key) \/ (size (entries sh) < sh_capacity sh)%nat) ->
  at_ <= latest_observed_millis sh + MAX_WINDOW_MILLIS ->
  Shard_wf (replace sh key v at_).
Proof.
  intros [] Hroom Hat. split; simpl; try done.
  - apply set_insert_wf. destruct (entries sh !! key); [by apply set_remove_wf|done].
  - intros ex. rewrite set_insert_elem.
    destruct (decide (ex_key ex = key)) as [Hk|Hne].
    + rewrite Hk, lookup_insert_eq. split.
      * intros [->|Hin]; [by eexists|]. exfalso.
        destruct (entries sh !! key) as [p|] eqn:Hp.
        { apply set_remove_elem in Hin as [Hd Hin]; [|done]. apply Hd.
          apply wf_index0 in Hin as (e & He & Hx). rewrite Hk, Hp in He. injection He as ->.
          destruct ex; simpl in *. by subst. }
        apply wf_index0 in Hin as (e & He & _). congruence.
      * intros (e & [= <-] & Hx). left. destruct ex; simpl in *. by subst.
    + rewrite lookup_insert_ne by done. rewrite <- wf_index0.
      split.
      * intros [->|Hin]; [done|]. destruct (entries sh !! key); [|done].
        by apply set_remove_elem in Hin as [_ ?].
      * intros Hin. right. destruct (entries sh !! key); [|done].
        apply set_remove_elem; [done|]. split; [|done]. intros ->. done.
  - destruct (decide (is_Some (entries sh !! key))) as [Hs|Hs].
    + by rewrite map_size_insert_Some.
    + rewrite map_size_insert_None by (by apply eq_None_not_Some).
      destruct Hroom; [done|lia].
  - intros k e. destruct (decide (k = key)) as [->|Hne].
    + rewrite lookup_insert_eq. intros [= <-]. done.
    + rewrite lookup_insert_ne by done. apply wf_expiry0.
Qed.

(** The asserted facts of [replace]: in debug builds the index is updated
    without surprise. *)
Lemma replace_debug_asserts sh key at_ :
  Shard_wf sh ->
  (forall p, entries sh !! key = Some p ->
     (set_remove (mkExpiration (se_expires p) key) (expirations sh)).2 = true)
  /\ (set_insert (mkExpiration at_ key)
       (match entries sh !! key with
        | Some p => (set_remove (mkExpiration (se_expires p) key) (expirations sh)).1
        | None => expirations sh
        end)).2 = true.
Proof.
  intros []. split.
  - intros p Hp. apply set_remove_found; [done|]. apply wf_index0. by exists p.
  - apply set_insert_new.
    + destruct (entries sh !! key); [by apply set_remove_wf|done].
    + destruct (entries sh !! key) as [p|] eqn:Hp.
      * intros [Hd Hin]%set_remove_elem; [|done].
        apply wf_index0 in Hin as (e & He & Hx). simpl in *. rewrite Hp in He.
        injection He as ->. by subst.
      * intros Hin. apply wf_index0 in Hin as (e & He & _). simpl in He. congruence.
Qed.

(** ** Pruning *)

(** Dropping the first expiration together with its entry. *)
Definition drop_first sh (ex : Expiration) (rest : list Expiration) : Shard E :=
  mkShard (sh_capacity sh) (latest_observed_millis sh)
    (delete (ex_key ex) (entries sh)) rest.

Lemma first_entry sh ex rest :
  Shard_wf sh -> expirations sh = ex :: rest ->
  exists e, entries sh !! ex_key ex = Some e /\ se_expires e = ex_at ex.
Proof. intros [] He. apply wf_index0. rewrite He. by left. Qed.

Lemma drop_first_wf sh ex rest :
  Shard_wf sh -> expirations sh = ex :: rest -> Shard_wf (drop_first sh ex rest).
Proof.
  intros Hwf He. destruct (first_entry sh ex rest Hwf He) as (e & Hk & Hat).
  destruct Hwf. rewrite He in *. pose proof (set_wf_not_in _ _ wf_sorted0) as Hni.
  apply set_wf_cons in wf_sorted0 as [Hr _].
  split; simpl; try done.
  - intros x. destruct (decide (ex_key x = ex_key ex)) as [Hx|Hx].
    + rewrite Hx, lookup_delete_eq. split; [|by intros (? & ? & _)].
      intros Hin. exfalso.
      assert (Hin' : x ∈ ex :: rest) by by right.
      apply wf_index0 in Hin' as (e' & He' & Hat'). rewrite Hx, Hk in He'.
      injection He' as <-. apply Hni. destruct x, ex; simpl in *. by subst.
    + rewrite lookup_delete_ne by done. rewrite <- wf_index0, elem_of_cons.
      split; [by right|]. intros [->|?]; done.
  - rewrite map_size_delete_Some by eauto. lia.
  - intros k e'. intros [_ Hl]%lookup_delete_Some. by apply (wf_expiry0 k e').
Qed.

(** The whole loop: it drops a prefix of the expiration index together with
    the matching entries, all of them expired, and stops at its bound or at
    the first live expiration. *)
Record pruned (now : Z) (n r : nat) sh sh' : Prop := {
  pr_capacity : sh_capacity sh' = sh_capacity sh;
  pr_latest : latest_observed_millis sh' = latest_observed_millis sh;
  pr_wf : Shard_wf sh';
  pr_index : expirations sh' = drop r (expirations sh);
  pr_count : (r <= n)%nat;
  pr_length : (r <= length (expirations sh))%nat;
  pr_expired : Forall (fun ex => ex_at ex <= now) (take r (expirations sh));
  pr_stop : r = n \/ Forall (fun ex => now < ex_at ex) (expirations sh');
  pr_entries : forall k e, entries sh' !! k = Some e <->
    entries sh !! k = Some e /\ mkExpiration (se_expires e) k ∉ take r (expirations sh);
}.

Lemma pruned_zero now n sh :
  Shard_wf sh -> (0 = n)%nat \/ Forall (fun ex => now < ex_at ex) (expirations sh) ->
  pruned now n 0 sh sh.
Proof.
  intros Hwf Hstop. split; try done; try lia.
  intros k e. rewrite take_0. split; [|tauto]. intros H. split; [done|].
  apply not_elem_of_nil.
Qed.

Lemma first_live_all now sh ex rest :
  Shard_wf sh -> expirations sh = ex :: rest -> now < ex_at ex ->
  Forall (fun ex => now < ex_at ex) (expirations sh).
Proof.
  intros [] He Hlt. rewrite He in *. apply set_wf_cons in wf_sorted0 as [_ Hmin].
  constructor; [done|]. apply Forall_forall. intros x Hx.
  pose proof (Expiration_lt_at _ _ (Hmin x Hx)). lia.
Qed.

Lemma prune_loop_spec now n sh c : Shard_wf sh ->
  exists sh' r, prune_loop now n sh c = Done (sh', (c + r)%nat) /\ pruned now n r sh sh'.
Proof.
  revert sh c. induction n as [|n IH]; intros sh c Hwf; simpl.
  { exists sh, 0%nat. rewrite Nat.add_0_r. split; [done|]. apply pruned_zero; [done|by left]. }
  destruct (expirations sh) as [|ex rest] eqn:He; simpl.
  { exists sh, 0%nat. rewrite Nat.add_0_r. split; [done|]. apply pruned_zero; [done|].
    right. by rewrite He. }
  destruct (Z.ltb_spec now (ex_at ex)) as [Hlt|Hge].
  { exists sh, 0%nat. rewrite Nat.add_0_r. split; [done|]. apply pruned_zero; [done|].
    right. by apply first_live_all with ex rest. }
  destruct (first_entry sh ex rest Hwf He) as (e & Hk & Hat). rewrite Hk.
  pose proof (drop_first_wf sh ex rest Hwf He) as Hwf'.
  destruct (IH (drop_first sh ex rest) (c + 1)%nat Hwf') as (sh' & r & Hrun & Hpr).
  exists sh', (S r). unfold drop_first in Hrun. rewrite Hrun.
  split; [do 2 f_equal; lia|]. destruct Hpr. simpl in *.
  split; rewrite ?He; simpl; try done; try lia.
  - by constructor.
  - destruct pr_stop0 as [->|?]; [by left|by right].
  - intros k x. rewrite pr_entries0, lookup_delete_Some, not_elem_of_cons.
    split; [|intros (Hl & Hne & Hni)].
    + intros ([Hne Hl] & Hni). split_and!; [done| |done]. intros <-. by apply Hne.
    + split_and!; [|done|done]. intros <-. apply Hne. rewrite Hk in Hl. injection Hl as ->.
      destruct ex; simpl in *. by subst.
Qed.

Lemma prune_expired_spec sh now n : Shard_wf sh ->
  exists sh' r, prune_expired sh now n = Done (sh', r) /\ pruned now n r sh sh'.
Proof. apply (prune_loop_spec now n sh 0). Qed.

(** Pruning is invisible to the active view. *)
Lemma pruned_active now n r sh sh' k t :
  Shard_wf sh -> pruned now n r sh sh' -> now <= t ->
  active_entry sh' k t = active_entry sh k t.
Proof.
  intros Hwf [] Ht. unfold active_entry.
  destruct (entries sh' !! k) as [e|] eqn:He.
  - apply pr_entries0 in He as [-> _]. done.
  - simpl. destruct (entries sh !! k) as [e|] eqn:He'; [|done]. simpl.
    destruct (Z.ltb_spec t (se_expires e)); [|done]. exfalso.
    assert (Hin : mkExpiration (se_expires e) k ∈ take r (expirations sh)).
    { destruct (decide (mkExpiration (se_expires e) k ∈ take r (expirations sh))); [done|].
      rewrite (proj2 (pr_entries0 k e)) in He; done. }
    rewrite Forall_forall in pr_expired0. specialize (pr_expired0 _ Hin). simpl in *. lia.
Qed.

(** The two indexes have the same size. *)
Lemma used_length sh : Shard_wf sh -> Shard_used sh = length (expirations sh).
Proof.
  intros []. unfold Shard_used. rewrite <- size_dom.
  assert (Hd : dom (entries sh) = list_to_set (C := gset CounterKey) (ex_key <$> expirations sh)).
  { apply set_eq. intros k. rewrite elem_of_dom, elem_of_list_to_set, list_elem_of_fmap. split.
    - intros [e He]. exists (mkExpiration (se_expires e) k). split; [done|].
      apply wf_index0. by exists e.
    - intros (ex & -> & Hin). apply wf_index0 in Hin as (e & He & _). by eexists. }
  rewrite Hd, size_list_to_set; [by rewrite length_fmap|].
  apply NoDup_fmap_2_strong; [|by apply set_wf_NoDup].
  intros x y Hx Hy Hxy. apply wf_index0 in Hx as (e & He & Hx).
  apply wf_index0 in Hy as (e' & He' & Hy). rewrite Hxy, He' in He. injection He as ->.
  destruct x, y; simpl in *. by subst.
Qed.

Lemma pruned_used now n r sh sh' :
  Shard_wf sh -> pruned now n r sh sh' -> (Shard_used sh' + r = Shard_used sh)%nat.
Proof.
  intros Hwf Hpr. rewrite !used_length by (done || by apply Hpr).
  rewrite (pr_index _ _ _ _ _ Hpr), length_drop. pose proof (pr_length _ _ _ _ _ Hpr). lia.
Qed.

(** ** Views after each operation *)

Lemma contains_key_spec sh k : contains_key sh k = true <-> is_Some (entries sh !! k).
Proof. apply bool_decide_eq_true. Qed.

Lemma active_entry_Some sh k t v x :
  active_entry sh k t = Some (v, x) <->
  entries sh !! k = Some (mkStoredEntry v x) /\ t < x.
Proof.
  unfold active_entry. destruct (entries sh !! k) as [[v' x']|]; simpl.
  - destruct (Z.ltb_spec t x'); split; intros; destr_hyps; simplify_eq; try done; lia.
  - split; [done|]. by intros [? _].
Qed.

Lemma active_contains sh k t a : active_entry sh k t = Some a -> contains_key sh k = true.
Proof. destruct a. intros [H _]%active_entry_Some. apply contains_key_spec. eauto. Qed.

Lemma active_record now sh k t :
  active_entry (record_observed_millis now sh) k t = active_entry sh k t.
Proof. done. Qed.

Lemma active_replace sh key v at_ k t :
  active_entry (replace sh key v at_) k t =
    if decide (k = key) then (if t <? at_ then Some (v, at_) else None)
    else active_entry sh k t.
Proof.
  unfold active_entry, replace; simpl. destruct (decide (k = key)) as [->|Hne].
  - by rewrite lookup_insert_eq.
  - by rewrite lookup_insert_ne.
Qed.

Lemma active_update sh key f sh' k t :
  update_value sh key f = Some sh' ->
  active_entry sh' k t =
    if decide (k = key) then (fun '(v, x) => (f v, x)) <$> active_entry sh key t
    else active_entry sh k t.
Proof.
  intros H. apply fmap_Some in H as (e & He & ->). unfold active_entry; simpl.
  destruct (decide (k = key)) as [->|Hne].
  - rewrite lookup_insert_eq, He. simpl. by case_cmp.
  - by rewrite lookup_insert_ne.
Qed.

Lemma active_expiry_bound sh k t v x :
  Shard_wf sh -> active_entry sh k t = Some (v, x) ->
  t < x <= latest_observed_millis sh + MAX_WINDOW_MILLIS.
Proof.
  intros Hwf [He Ht]%active_entry_Some. split; [done|].
  by apply (wf_expiry _ Hwf k (mkStoredEntry v x)).
Qed.

Lemma first_expiration_min sh ex rest :
  Shard_wf sh -> expirations sh = ex :: rest ->
  forall k e, entries sh !! k = Some e -> ex_at ex <= se_expires e.
Proof.
  intros [] He k e Hk.
  assert (Hin : mkExpiration (se_expires e) k ∈ expirations sh).
  { apply wf_index0. by exists e. }
  rewrite He in *. apply set_wf_cons in wf_sorted0 as [_ Hmin].
  apply elem_of_cons in Hin as [<-|Hin]; [done|]. apply (Expiration_lt_at _ _ (Hmin _ Hin)).
Qed.

(** The storage-capacity denial never panics, and names the delay until the
    earliest stored expiry (at least a millisecond). *)
Lemma storage_capacity_denial_spec sh now :
  Shard_wf sh -> latest_observed_millis sh <= now ->
  exists r, storage_capacity_denial sh now = Done (StorageCapacity r)
  /\ (r = None <-> entries sh = ∅)
  /\ (forall d, r = Some d -> exists m, d = Delay_new (from_millis m)
        /\ 1 <= m <= MAX_WINDOW_MILLIS
        /\ (forall k e, entries sh !! k = Some e -> now + m <= se_expires e \/ m = 1)
        /\ exists k e, entries sh !! k = Some e /\ m = Z.max (se_expires e - now) 1).
Proof.
  intros Hwf Hle. unfold storage_capacity_denial, capacity_retry_after_millis.
  destruct (expirations sh) as [|ex rest] eqn:He; simpl.
  - exists None. split; [done|]. split; [|done]. split; [|done]. intros _.
    apply map_size_empty_iff. change (Shard_used sh = 0%nat).
    rewrite used_length by done. by rewrite He.
  - destruct (first_entry sh ex rest Hwf He) as (e & Hk & Hat).
    pose proof (wf_expiry _ Hwf _ _ Hk) as Hexp. unfold saturating_sub.
    pose proof MAX_WINDOW_MILLIS_val as Hmax.
    set (m := Z.max (Z.max 0 (ex_at ex - now)) 1).
    assert (Hm : 1 <= m <= MAX_WINDOW_MILLIS) by lia.
    unfold try_from. rewrite checked_in by (unfold u64_max; lia). simpl.
    eexists; split; [done|]. split.
    + split; [done|]. intros Hemp. rewrite Hemp in Hk. done.
    + intros d [= <-]. exists m. split_and!; [done|lia|lia|..].
      * intros k' e' Hk'. pose proof (first_expiration_min sh ex rest Hwf He k' e' Hk'). lia.
      * exists (ex_key ex), e. split; [done|]. lia.
Qed.
End ShardOps.

(** * The lock topology of a batch *)

Record BatchShard := mkBatchShard {
  bs_index : nat;
  bs_check_count : nat;
}.

#[export] Instance BatchShard_eq_dec : EqDecision BatchShard.
Proof. solve_decision. Defined.

Record BatchTopology := mkBatchTopology {
  topology_shards : list BatchShard;
  input_positions : list nat;
}.

Record PoisonedShardError := mkPoisonedShardError { pse_shard_index : nat }.

Inductive MemoryBatchError :=
| InvalidBatch (error : BatchError)
| BatchExceedsShardCapacity (shard_index key_count capacity : nat)
| PoisonedShard (error : PoisonedShardError).

(** [sort_unstable_by_key(|shard| shard.index)]: equal keys come from equal
    elements, so the order among them does not matter. *)
Fixpoint insert_by_index (s : BatchShard) (l : list BatchShard) : list BatchShard :=
  match l with
  | [] => [s]
  | x :: l' => if Nat.leb (bs_index s) (bs_index x) then s :: l else x :: insert_by_index s l'
  end.
Definition sort_by_index (l : list BatchShard) : list BatchShard := foldr insert_by_index [] l.

(** [dedup_by_key(|shard| shard.index)]: keeps the first of a run. *)
Fixpoint dedup_from (x : BatchShard) (l : list BatchShard) : list BatchShard :=
  match l with
  | [] => [x]
  | y :: l' => if Nat.eqb (bs_index x) (bs_index y) then dedup_from x l'
               else x :: dedup_from y l'
  end.
Definition dedup_by_index (l : list BatchShard) : list BatchShard :=
  match l with [] => [] | x :: l' => dedup_from x l' end.

(** [partition_point(|shard| shard.index < i)] on a sorted slice. *)
Fixpoint partition_point (i : nat) (l : list BatchShard) : nat :=
  match l with
  | [] => 0
  | x :: l' => if Nat.ltb (bs_index x) i then S (partition_point i l') else 0
  end.

Definition increment_count (s : BatchShard) : BatchShard :=
  mkBatchShard (bs_index s) (S (bs_check_count s)).

(** The loop over [&mut input_positions]. *)
Fixpoint assign_positions (indexes : list nat) (shards : list BatchShard)
    : list BatchShard * list nat :=
  match indexes with
  | [] => (shards, [])
  | shard_index :: indexes =>
      let position := partition_point shard_index shards in
      let '(shards, positions) :=
        assign_positions indexes (alter increment_count position shards) in
      (shards, position :: positions)
  end.

(** The loop that checks each shard's fixed capacity. *)
Fixpoint check_shard_capacities (config : MemoryStoreConfig) (shards : list BatchShard)
    : Result MemoryBatchError unit :=
  match shards with
  | [] => Ok tt
  | shard :: shards =>
      let capacity := shard_capacity config (bs_index shard) in
      if Nat.ltb capacity (bs_check_count shard)
      then Err (BatchExceedsShardCapacity (bs_index shard) (bs_check_count shard) capacity)
      else check_shard_capacities config shards
  end.

Definition BatchTopology_new (shard_indexes : list nat) (config : MemoryStoreConfig)
    : Result MemoryBatchError BatchTopology :=
  let shards := map (fun index => mkBatchShard index 0) shard_indexes in
  let shards := dedup_by_index (sort_by_index shards) in
  let '(shards, input_positions) := assign_positions shard_indexes shards in
  _ ← check_shard_capacities config shards;
  mret (mkBatchTopology shards input_positions).

Definition check_counts (t : BatchTopology) : list nat := map bs_check_count (topology_shards t).

(** ** The topology is the sorted set of touched shards *)

Definition index_sorted (l : list BatchShard) : Prop :=
  StronglySorted (fun a b => bs_index a < bs_index b)%nat l.

Lemma insert_by_index_elem s l x : x ∈ insert_by_index s l <-> x = s \/ x ∈ l.
Proof.
  induction l as [|y l IH]; simpl; [set_solver|].
  destruct (Nat.leb _ _); set_solver.
Qed.

Lemma insert_by_index_sorted s l :
  StronglySorted (fun a b => bs_index a <= bs_index b)%nat l ->
  StronglySorted (fun a b => bs_index a <= bs_index b)%nat (insert_by_index s l).
Proof.
  induction 1 as [|y l Hl IH Hy]; simpl; [repeat constructor|].
  destruct (Nat.leb_spec (bs_index s) (bs_index y)).
  - constructor; [by constructor|]. constructor; [done|].
    eapply Forall_impl; [exact Hy|]. simpl. lia.
  - constructor; [done|]. apply Forall_forall. intros x [->|Hx]%insert_by_index_elem; [lia|].
    rewrite Forall_forall in Hy. by apply Hy.
Qed.

Lemma sort_by_index_elem l x : x ∈ sort_by_index l <-> x ∈ l.
Proof.
  induction l as [|y l IH]; simpl; [done|]. rewrite insert_by_index_elem. set_solver.
Qed.

Lemma sort_by_index_sorted l :
  StronglySorted (fun a b => bs_index a <= bs_index b)%nat (sort_by_index l).
Proof. induction l; simpl; [constructor|by apply insert_by_index_sorted]. Qed.

Lemma dedup_from_spec x l :
  StronglySorted (fun a b => bs_index a <= bs_index b)%nat (x :: l) ->
  index_sorted (dedup_from x l)
  /\ (forall y, y ∈ dedup_from x l -> y ∈ x :: l)
  /\ (forall y, y ∈ x :: l -> bs_index y ∈ bs_index <$> dedup_from x l).
Proof.
  revert x. induction l as [|y l IH]; intros x Hs; simpl.
  - split_and!; [repeat constructor|done|]. intros z ->%list_elem_of_singleton. simpl. set_solver.
  - apply StronglySorted_inv in Hs as [Hs Hx]. pose proof Hx as Hxy.
    apply Forall_cons_1 in Hxy as [Hxy Hxl].
    destruct (Nat.eqb_spec (bs_index x) (bs_index y)) as [He|Hne].
    + destruct (IH x) as (H1 & H2 & H3).
      { apply StronglySorted_inv in Hs as [Hl _]. by constructor. }
      split_and!; [done|set_solver|]. intros z Hz.
      apply elem_of_cons in Hz as [->|[->|Hz]%elem_of_cons];
        [apply H3; by left|rewrite <- He; apply H3; by left|apply H3; by right].
    + destruct (IH y Hs) as (H1 & H2 & H3). split_and!.
      * constructor; [done|]. apply Forall_forall. intros z Hz%H2.
        apply StronglySorted_inv in Hs as [_ Hy]. rewrite Forall_forall in Hy.
        apply elem_of_cons in Hz as [->|Hz]; [lia|]. specialize (Hy z Hz). lia.
      * set_solver.
      * intros z [->|Hz]%elem_of_cons; simpl; [by left|]. right. by apply H3.
Qed.

Lemma alter_increment_index (l : list BatchShard) (p : nat) :
  bs_index <$> alter increment_count p l = bs_index <$> l.
Proof.
  revert p. induction l as [|x l IH]; intros [|p]; simpl; try done. f_equal. apply IH.
Qed.

(** In a strictly sorted list the partition point of a present index is its
    position. *)
Lemma partition_point_found l i :
  index_sorted l -> i ∈ bs_index <$> l ->
  exists s, l !! partition_point i l = Some s /\ bs_index s = i.
Proof.
  induction 1 as [|x l Hl IH Hx]; intros Hin; simpl in *; [set_solver|].
  destruct (Nat.ltb_spec (bs_index x) i).
  - apply IH. apply elem_of_cons in Hin as [->|Hin]; [lia|done].
  - exists x. split; [done|]. apply elem_of_cons in Hin as [->|Hin]; [done|].
    apply list_elem_of_fmap in Hin as (y & -> & Hy).
    rewrite Forall_forall in Hx. specialize (Hx y Hy). lia.
Qed.

Lemma partition_point_index i l l' :
  bs_index <$> l = bs_index <$> l' -> partition_point i l = partition_point i l'.
Proof.
  revert l'. induction l as [|x l IH]; intros [|y l'] H; simpl in *; try done.
  injection H as Hxy H. rewrite Hxy. by rewrite (IH l').
Qed.

Lemma index_sorted_ext l l' :
  bs_index <$> l = bs_index <$> l' -> index_sorted l -> index_sorted l'.
Proof.
  revert l'. induction l as [|x l IH]; intros [|y l'] H; simpl in *; try done.
  injection H as Hxy H. change (bs_index <$> l = bs_index <$> l') in H.
  intros [Hl Hx]%StronglySorted_inv.
  constructor; [by apply IH|]. apply Forall_forall. intros z Hz.
  assert (Hz' : bs_index z ∈ bs_index <$> l) by (rewrite H; by apply list_elem_of_fmap_2).
  apply list_elem_of_fmap in Hz' as (w & -> & Hw).
  rewrite Forall_forall in Hx. rewrite <- Hxy. by apply Hx.
Qed.

(** Number of occurrences of an index. *)
Definition occurrences (i : nat) (l : list nat) : nat :=
  length (filter (fun j => j = i) l).

Lemma occurrences_cons i j l :
  occurrences i (j :: l) = ((if decide (j = i) then 1 else 0) + occurrences i l)%nat.
Proof. unfold occurrences. rewrite filter_cons. by destruct (decide (j = i)). Qed.

Lemma assign_positions_spec indexes shards shards' positions :
  index_sorted shards -> Forall (fun i => i ∈ bs_index <$> shards) indexes ->
  assign_positions indexes shards = (shards', positions) ->
  bs_index <$> shards' = bs_index <$> shards
  /\ positions = map (fun i => partition_point i shards) indexes
  /\ forall p s, shards !! p = Some s ->
       shards' !! p = Some (mkBatchShard (bs_index s)
         (bs_check_count s + occurrences (bs_index s) indexes)).
Proof.
  revert shards shards' positions.
  induction indexes as [|i indexes IH]; intros shards shards' positions Hs Hin Has; simpl in *.
  - injection Has as <- <-. split_and!; [done..|]. intros p s Hp. rewrite Hp.
    f_equal. unfold occurrences. simpl. rewrite Nat.add_0_r. by destruct s.
  - apply Forall_cons_1 in Hin as [Hi Hin].
    destruct (assign_positions indexes _) as [s2 ps2] eqn:Hrec. injection Has as <- <-.
    pose proof (alter_increment_index shards (partition_point i shards)) as Halt.
    apply IH in Hrec as (H1 & -> & H3).
    + split_and!.
      * by rewrite H1.
      * f_equal. apply map_ext. intros j. by apply partition_point_index.
      * intros p s Hp. rewrite occurrences_cons.
        destruct (partition_point_found shards i Hs Hi) as (si & Hsi & Hidx).
        destruct (decide (p = partition_point i shards)) as [->|Hne].
        -- assert (si = s) by congruence. subst si.
           rewrite decide_True by done.
           rewrite (H3 _ (increment_count s)) by (by rewrite list_lookup_alter_eq, Hp).
           simpl. do 2 f_equal. lia.
        -- rewrite decide_False.
           { rewrite (H3 p s); [done|]. by rewrite list_lookup_alter_ne. }
           intros Heq. apply Hne.
           (* equal indices of a strictly sorted list are at equal positions *)
           assert (Hnd : NoDup (bs_index <$> shards)).
           { clear -Hs. induction Hs as [|x l Hl IHl Hx]; simpl; constructor; [|done].
             intros (y & Hy & Hyl)%list_elem_of_fmap. rewrite Forall_forall in Hx.
             specialize (Hx y Hyl). lia. }
           eapply (proj1 (NoDup_alt _) Hnd p (partition_point i shards) i);
             rewrite list_lookup_fmap; [rewrite Hp; simpl; by rewrite <- Heq|].
           by rewrite Hsi, <- Hidx.
    + by apply index_sorted_ext with shards.
    + eapply Forall_impl; [exact Hin|]. simpl. intros j Hj. by rewrite Halt.
Qed.

Lemma check_shard_capacities_spec config l :
  match check_shard_capacities config l with
  | Ok _ => Forall (fun s => bs_check_count s <= shard_capacity config (bs_index s))%nat l
  | Err e => exists pre s post, l = pre ++ s :: post
      /\ Forall (fun s => bs_check_count s <= shard_capacity config (bs_index s))%nat pre
      /\ (shard_capacity config (bs_index s) < bs_check_count s)%nat
      /\ e = BatchExceedsShardCapacity (bs_index s) (bs_check_count s)
               (shard_capacity config (bs_index s))
  end.
Proof.
  induction l as [|s l IH]; simpl; [constructor|].
  destruct (Nat.ltb_spec (shard_capacity config (bs_index s)) (bs_check_count s)).
  - by exists [], s, l.
  - destruct (check_shard_capacities config l) as [u|e]; [by constructor|].
    destruct IH as (pre & s' & post & -> & Hpre & Hlt & ->).
    exists (s :: pre), s', post. split_and!; [done|by constructor|done|done].
Qed.

Definition topology_base (indexes : list nat) : list BatchShard :=
  dedup_by_index (sort_by_index (map (fun index => mkBatchShard index 0) indexes)).

Lemma topology_base_spec indexes :
  index_sorted (topology_base indexes)
  /\ (forall i, i ∈ bs_index <$> topology_base indexes <-> i ∈ indexes)
  /\ Forall (fun s => bs_check_count s = 0%nat) (topology_base indexes).
Proof.
  unfold topology_base, dedup_by_index.
  set (l := map (fun index => mkBatchShard index 0) indexes).
  pose proof (sort_by_index_sorted l) as Hs. pose proof (sort_by_index_elem l) as Hel.
  assert (Hl : forall s, s ∈ l <-> bs_index s ∈ indexes /\ bs_check_count s = 0%nat).
  { intros [i n]. unfold l. rewrite list_elem_of_In, in_map_iff. simpl. split.
    - intros (j & [= <- <-] & Hj). split; [by apply list_elem_of_In|done].
    - intros [Hi ->]. exists i. split; [done|by apply list_elem_of_In]. }
  destruct (sort_by_index l) as [|x s]; simpl.
  - split_and!; [constructor| |done]. intros i. split; [by intros ?%not_elem_of_nil|].
    intros Hi. exfalso. apply (not_elem_of_nil (mkBatchShard i 0)). by apply Hel, Hl.
  - destruct (dedup_from_spec x s Hs) as (H1 & H2 & H3). split_and!; [done|..].
    + intros i. split.
      * intros (y & -> & Hy)%list_elem_of_fmap. by apply Hl, Hel, H2.
      * intros Hi. apply (H3 (mkBatchShard i 0)). by apply Hel, Hl.
    + apply Forall_forall. intros y Hy. by apply Hl, Hel, H2.
Qed.

Lemma index_lookup_NoDup l : index_sorted l -> NoDup (bs_index <$> l).
Proof.
  induction 1 as [|x l Hl IHl Hx]; simpl; constructor; [|done].
  intros (y & Hy & Hyl)%list_elem_of_fmap. rewrite Forall_forall in Hx.
  specialize (Hx y Hyl). lia.
Qed.

(** What a built topology provides, and what a refused one proves. *)
Lemma BatchTopology_new_cases indexes config :
  match BatchTopology_new indexes config with
  | Ok t =>
      index_sorted (topology_shards t)
      /\ (forall i, i ∈ bs_index <$> topology_shards t <-> i ∈ indexes)
      /\ input_positions t = map (fun i => partition_point i (topology_shards t)) indexes
      /\ Forall (fun s => bs_check_count s = occurrences (bs_index s) indexes
           /\ bs_check_count s <= shard_capacity config (bs_index s))%nat (topology_shards t)
  | Err e =>
      exists i, i ∈ indexes /\ (shard_capacity config i < occurrences i indexes)%nat
      /\ e = BatchExceedsShardCapacity i (occurrences i indexes) (shard_capacity config i)
      /\ forall j, (j < i)%nat -> (occurrences j indexes <= shard_capacity config j)%nat
  end.
Proof.
  unfold BatchTopology_new. fold (topology_base indexes).
  destruct (topology_base_spec indexes) as (Hsort & Hmem & Hzero).
  destruct (assign_positions indexes (topology_base indexes)) as [shards positions] eqn:Has.
  apply assign_positions_spec in Has as (Hidx & -> & Hcount); [|done|].
  2:{ apply Forall_forall. intros i Hi. by apply Hmem. }
  assert (Hcounts : Forall (fun s => bs_check_count s = occurrences (bs_index s) indexes) shards).
  { apply Forall_lookup. intros p s Hp.
    assert (Hp' : bs_index <$> topology_base indexes !! p = Some (bs_index s)).
    { rewrite <- list_lookup_fmap, <- Hidx, list_lookup_fmap, Hp. done. }
    apply fmap_Some in Hp' as (s0 & Hs0 & Hi). rewrite (Hcount p s0 Hs0) in Hp.
    injection Hp as <-. simpl. rewrite Forall_lookup in Hzero.
    by rewrite (Hzero p s0 Hs0). }
  assert (Hsort' : index_sorted shards).
  { by apply index_sorted_ext with (topology_base indexes). }
  assert (Hmem' : forall i, i ∈ bs_index <$> shards <-> i ∈ indexes).
  { intros i. by rewrite Hidx, Hmem. }
  pose proof (check_shard_capacities_spec config shards) as Hcap.
  destruct (check_shard_capacities config shards) as [[]|e]; simpl.
  - split_and!; [done|done| |].
    + apply map_ext. intros i. by apply partition_point_index.
    + rewrite Forall_forall in Hcap, Hcounts |- *. intros s Hs. split; [by apply Hcounts|].
      by apply Hcap.
  - destruct Hcap as (pre & s & post & -> & Hpre & Hlt & ->).
    rewrite Forall_app, Forall_cons in Hcounts. destruct Hcounts as (Hcpre & Hcs & _).
    exists (bs_index s). rewrite <- Hcs. split_and!; [|done|done|].
    + apply Hmem'. apply list_elem_of_fmap_2. set_solver.
    + intros j Hj. destruct (decide (j ∈ indexes)) as [Hin|Hout].
      * apply Hmem' in Hin. apply list_elem_of_fmap in Hin as (x & -> & Hx).
        assert (Hxpre : x ∈ pre).
        { apply elem_of_app in Hx as [Hx|[->|Hx]%elem_of_cons]; [done|lia|]. exfalso.
          clear -Hsort' Hx Hj. induction pre as [|y pre IH]; simpl in Hsort'.
          - apply StronglySorted_inv in Hsort' as [_ Hall]. rewrite Forall_forall in Hall.
            specialize (Hall x Hx). lia.
          - apply StronglySorted_inv in Hsort' as [Hsort' _]. by apply IH. }
        rewrite Forall_forall in Hpre, Hcpre. rewrite <- (Hcpre x Hxpre). by apply Hpre.
      * assert (occurrences j indexes = 0%nat) as ->; [|lia]. unfold occurrences.
        clear -Hout. induction indexes as [|y l IH]; [done|].
        apply not_elem_of_cons in Hout as [Hne Hout].
        rewrite filter_cons, decide_False by congruence. by apply IH.
Qed.

(** The lock topology of a batch is deadlock-free and exact: its
    shards are exactly the touched ones, in strictly ascending index order
    (the order in which they are locked), each with the number of checks
    that target it; every input position names the shard of its check; and a
    batch is refused exactly when some shard is targeted by more keys than
    it can ever store, naming the first such shard. *)
Theorem batch_topology_spec (indexes : list nat) (config : MemoryStoreConfig) :
  match BatchTopology_new indexes config with
  | Ok t =>
      StronglySorted lt (bs_index <$> topology_shards t)
      /\ (forall i, i ∈ bs_index <$> topology_shards t <-> i ∈ indexes)
      /\ length (input_positions t) = length indexes
      /\ (forall n i, indexes !! n = Some i ->
           exists p s, input_positions t !! n = Some p
             /\ topology_shards t !! p = Some s /\ bs_index s = i)
      /\ (forall s, s ∈ topology_shards t ->
           bs_check_count s = occurrences (bs_index s) indexes
           /\ (bs_check_count s <= shard_capacity config (bs_index s))%nat)
  | Err e =>
      exists i, i ∈ indexes /\ (shard_capacity config i < occurrences i indexes)%nat
      /\ e = BatchExceedsShardCapacity i (occurrences i indexes) (shard_capacity config i)
      /\ forall j, (j < i)%nat -> (occurrences j indexes <= shard_capacity config j)%nat
  end.
Proof.
  pose proof (BatchTopology_new_cases indexes config) as H.
  destruct (BatchTopology_new indexes config) as [t|e]; [|done].
  destruct H as (Hs & Hm & Hp & Hc). split_and!.
  - clear -Hs. induction Hs as [|x l Hl IH Hx]; simpl; constructor; [done|].
    apply Forall_forall. intros j (y & -> & Hy)%list_elem_of_fmap.
    rewrite Forall_forall in Hx. by apply Hx.
  - done.
  - by rewrite Hp, length_map.
  - intros n i Hi. exists (partition_point i (topology_shards t)).
    destruct (partition_point_found (topology_shards t) i Hs) as (s & Hs1 & Hs2).
    { apply Hm. by apply list_elem_of_lookup_2 with n. }
    exists s. split_and!; [|done|done]. rewrite Hp.
    change (map ?f ?l) with (f <$> l). by rewrite list_lookup_fmap, Hi.
  - by apply Forall_forall.
Qed.
