(* ===== verification/BoundedShards.v ===== *)
(** [runlimit-memory/src/shards.rs], second part: the mutex-protected array
    of shards, locking, bulk operations, poisoning and recovery, and the
    cleanup pass over the locked shards of a batch. *)

From S2P Require Import Prelude RustStd Identifier Policy Decision AttemptPolicy Key Check Observation OrdSet MemConfig Shards.
From Stdlib Require Import Sorting.Sorted.
Open Scope list_scope.

(** [std::sync::Mutex]: a panic while it is held poisons it. *)
Record Mutex (A : Type) := mkMutex {
  is_poisoned : bool;
  guarded : A;
}.
Arguments mkMutex {A} _ _.
Arguments is_poisoned {A} _.
Arguments guarded {A} _.

Notation BoundedShards E := (list (Mutex (Shard E))).
Notation LockedShards E := (list (nat * Shard E)).

Record MemoryStoreStats := mkMemoryStoreStats {
  stats_entries : nat;
  stats_capacity : nat;
  stats_shard_count : nat;
}.

Definition MemoryStoreStats_from_parts (entries capacity shard_count : nat) : MemoryStoreStats :=
  mkMemoryStoreStats entries capacity shard_count.

(** Its serde form. *)
Record MemoryStoreStatsWire := mkMemoryStoreStatsWire {
  wire_entries : nat;
  wire_capacity : nat;
  wire_shard_count : nat;
}.
Definition MemoryStoreStats_serialize (self : MemoryStoreStats) : MemoryStoreStatsWire :=
  mkMemoryStoreStatsWire (stats_entries self) (stats_capacity self) (stats_shard_count self).

Record CleanupEffect := mkCleanupEffect {
  ce_requested : nat;
  ce_removed : nat;
  ce_elapsed : Duration;
}.

Record ShardEffect := mkShardEffect {
  she_shard_index : nat;
  she_cleanup : CleanupEffect;
  she_used : nat;
  she_capacity : nat;
}.

(** [usize_to_u64]. *)
Definition usize_to_u64 (value : nat) : Z :=
  default u64_max (try_from u64_max (Z.of_nat value)).

(** Product of two [usize] values, saturating. *)
Definition usize_saturating_mul (a b : nat) : nat :=
  Z.to_nat (saturating_mul usize_max (Z.of_nat a) (Z.of_nat b)).

Section Bounded.
Context {E : Type}.

Definition BoundedShards_new (config : MemoryStoreConfig) : BoundedShards E :=
  map (fun index => mkMutex false (Shard_new (shard_capacity config index)))
    (seq 0 (shard_count config)).

Definition poisoned_count (shards : BoundedShards E) : nat :=
  length (filter (fun m => is_poisoned m = true) shards).

Definition shard_index (shards : BoundedShards E) (key : CounterKey) : nat :=
  Z.to_nat (counter_key_hash key mod Z.of_nat (length shards)).

(** Indexing past the end panics. *)
Definition lock_shard (shards : BoundedShards E) (index : nat)
    : Outcome (Result PoisonedShardError (Shard E)) :=
  m ← expect (shards !! index);
  mret (if is_poisoned m then Err (mkPoisonedShardError index) else Ok (guarded m)).

Fixpoint lock_shards (shards : BoundedShards E) (indexes : list nat)
    : Outcome (Result PoisonedShardError (LockedShards E)) :=
  match indexes with
  | [] => Done (Ok [])
  | index :: indexes =>
      l ← lock_shard shards index;
      match l with
      | Err e => Done (Err e)
      | Ok shard =>
          rest ← lock_shards shards indexes;
          mret (match rest with
                | Ok locked => Ok ((index, shard) :: locked)
                | Err e => Err e
                end)
      end
  end.

Definition lock_topology (shards : BoundedShards E) (topology : BatchTopology)
    : Outcome (Result PoisonedShardError (LockedShards E)) :=
  lock_shards shards (map bs_index (topology_shards topology)).

(** Dropping the guards: the locked data becomes the data of the mutexes. *)
Definition release (shards : BoundedShards E) (locked : LockedShards E) : BoundedShards E :=
  foldr (fun '(index, shard) acc => <[index := mkMutex false shard]> acc) shards locked.

(** Unwinding through the guards. *)
Definition poison (shards : BoundedShards E) (indexes : list nat) : BoundedShards E :=
  foldr (fun index acc => alter (fun m => mkMutex true (guarded m)) index acc) shards indexes.

Definition all_indexes (shards : BoundedShards E) : list nat := seq 0 (length shards).

Definition BoundedShards_stats (shards : BoundedShards E) (config : MemoryStoreConfig)
    : Outcome (Result PoisonedShardError MemoryStoreStats) :=
  locked ← lock_shards shards (all_indexes shards);
  mret (match locked with
        | Ok locked =>
            Ok (MemoryStoreStats_from_parts (nat_sum (map (fun '(_, shard) => Shard_used shard) locked))
                  (max_keys config) (shard_count config))
        | Err e => Err e
        end).

Definition BoundedShards_clear (shards : BoundedShards E)
    : BoundedShards E * Outcome (Result PoisonedShardError unit) :=
  match lock_shards shards (all_indexes shards) with
  | Done (Ok locked) =>
      (release shards (map (fun '(index, shard) => (index, Shard_clear shard)) locked),
       Done (Ok tt))
  | Done (Err e) => (shards, Done (Err e))
  | Panic => (shards, Panic)
  end.

(** Every shard is locked in index order, through poison, before any is
    rebuilt. *)
Definition recover_poisoned_from (config : MemoryStoreConfig) (start : nat)
    (shards : BoundedShards E) : BoundedShards E * nat :=
  (imap (fun i m => if is_poisoned m
                    then mkMutex false (Shard_new (shard_capacity config (start + i)))
                    else m) shards,
   length (filter (fun m => is_poisoned m = true) shards)).

Definition recover_poisoned (shards : BoundedShards E) (config : MemoryStoreConfig)
    : BoundedShards E * nat := recover_poisoned_from config 0 shards.

Definition collect_shard_effects (locked : LockedShards E) (cleanups : list CleanupEffect)
    : list ShardEffect :=
  zip_with (fun '(index, shard) cleanup =>
    mkShardEffect index cleanup (Shard_used shard) (sh_capacity shard)) locked cleanups.

(** The loop over the locked shards and the check counts that records the
    clock and prunes; [elapsed] are the latencies measured around it. *)
Fixpoint cleanup_locked (config : MemoryStoreConfig) (now_millis : Z)
    (elapsed : nat -> Duration) (locked : LockedShards E) (check_counts : list nat)
    : Outcome (LockedShards E * list CleanupEffect) :=
  match locked, check_counts with
  | (index, shard) :: locked, check_count :: check_counts =>
      let shard := record_observed_millis now_millis shard in
      let cleanup_limit :=
        usize_saturating_mul (max_expired_removals_per_check config) check_count in
      '(shard, removed) ← prune_expired shard now_millis cleanup_limit;
      '(locked, effects) ← cleanup_locked config now_millis elapsed locked check_counts;
      mret ((index, shard) :: locked,
            mkCleanupEffect cleanup_limit removed (elapsed index) :: effects)
  | _, _ => Done (locked, [])
  end.

(** [now_millis] of a batch: the clock, clamped by every locked shard. *)
Definition clamp_locked (observed_millis : Z) (locked : LockedShards E) : Z :=
  foldl Z.max observed_millis (map (fun '(_, shard) => latest_observed_millis shard) locked).

(** ** Invariant of the array *)

Record shards_wf (config : MemoryStoreConfig) (ok : E -> Prop) (shards : BoundedShards E)
    : Prop := {
  swf_length : length shards = shard_count config;
  swf_shard : forall i m, shards !! i = Some m -> is_poisoned m = false ->
    Shard_wf (guarded m) /\ sh_capacity (guarded m) = shard_capacity config i
    /\ forall k e, entries (guarded m) !! k = Some e ->
         ok (se_value e) /\ shard_index shards k = i;
}.

Lemma shard_index_lt (shards : BoundedShards E) k :
  (0 < length shards)%nat -> (shard_index shards k < length shards)%nat.
Proof.
  intros Hl. unfold shard_index.
  pose proof (Z.mod_pos_bound (counter_key_hash k) (Z.of_nat (length shards)) ltac:(lia)).
  lia.
Qed.

Lemma shard_index_length (s1 s2 : BoundedShards E) k :
  length s1 = length s2 -> shard_index s1 k = shard_index s2 k.
Proof. unfold shard_index. by intros ->. Qed.

Lemma release_cons shards i s (l : LockedShards E) :
  release shards ((i, s) :: l) = <[i := mkMutex false s]> (release shards l).
Proof. done. Qed.

Lemma poison_cons (shards : BoundedShards E) i l :
  poison shards (i :: l) = alter (fun m => mkMutex true (guarded m)) i (poison shards l).
Proof. done. Qed.

Lemma release_length shards (locked : LockedShards E) :
  length (release shards locked) = length shards.
Proof.
  induction locked as [|[i s] l IH]; [done|]. by rewrite release_cons, length_insert.
Qed.

Lemma poison_length (shards : BoundedShards E) idx : length (poison shards idx) = length shards.
Proof. induction idx as [|i l IH]; [done|]. by rewrite poison_cons, length_alter. Qed.

Lemma release_lookup_out shards (locked : LockedShards E) i :
  i ∉ locked.*1 -> release shards locked !! i = shards !! i.
Proof.
  induction locked as [|[j s] l IH]; intros Hi; [done|]. rewrite release_cons.
  apply not_elem_of_cons in Hi as [Hne Hi]. rewrite list_lookup_insert_ne by done. by apply IH.
Qed.

Lemma release_lookup_in shards (locked : LockedShards E) i s :
  NoDup (locked.*1) -> (i, s) ∈ locked -> (i < length shards)%nat ->
  release shards locked !! i = Some (mkMutex false s).
Proof.
  induction locked as [|[j s'] l IH]; intros Hnd Hin Hi.
  { by apply not_elem_of_nil in Hin. }
  rewrite release_cons.
  apply NoDup_cons in Hnd as [Hj Hnd]. apply elem_of_cons in Hin as [[= -> ->]|Hin].
  - apply list_lookup_insert_eq. by rewrite release_length.
  - rewrite list_lookup_insert_ne; [by apply IH|]. intros ->. apply Hj.
    apply list_elem_of_fmap. by exists (i, s).
Qed.

Lemma poison_lookup (shards : BoundedShards E) idx i m :
  poison shards idx !! i = Some m ->
  exists m0, shards !! i = Some m0 /\ guarded m = guarded m0
    /\ (is_poisoned m = false -> m = m0 /\ i ∉ idx).
Proof.
  revert i m. induction idx as [|j l IH]; intros i m; [|rewrite poison_cons].
  - intros H. exists m. split_and!; [done..|]. intros _. split; [done|]. apply not_elem_of_nil.
  - destruct (decide (i = j)) as [->|Hne].
    + rewrite list_lookup_alter_eq. intros (m1 & Hm1 & ->)%fmap_Some.
      destruct (IH _ _ Hm1) as (m0 & Hm0 & Hg & _). exists m0. by split_and!.
    + rewrite list_lookup_alter_ne by done. intros Hm.
      destruct (IH _ _ Hm) as (m0 & Hm0 & Hg & Hp). exists m0. split_and!; [done..|].
      intros Hf. destruct (Hp Hf) as [-> Hni]. split; [done|]. by apply not_elem_of_cons.
Qed.

Lemma poison_wf config ok shards idx :
  shards_wf config ok shards -> shards_wf config ok (poison shards idx).
Proof.
  intros [Hl Hs]. split; [by rewrite poison_length|].
  intros i m Hm Hp. destruct (poison_lookup _ _ _ _ Hm) as (m0 & Hm0 & _ & Hm').
  destruct (Hm' Hp) as [-> _]. destruct (Hs i m0 Hm0 Hp) as (H1 & H2 & H3).
  split_and!; [done..|]. intros k e He. destruct (H3 k e He) as [? <-]. split; [done|].
  apply shard_index_length. by rewrite poison_length.
Qed.

(** Writing back well-formed shards at their own index. *)
Lemma release_wf config ok shards (locked : LockedShards E) :
  shards_wf config ok shards -> NoDup (locked.*1) ->
  (forall i s, (i, s) ∈ locked -> (i < length shards)%nat /\ Shard_wf s
     /\ sh_capacity s = shard_capacity config i
     /\ forall k e, entries s !! k = Some e -> ok (se_value e) /\ shard_index shards k = i) ->
  shards_wf config ok (release shards locked).
Proof.
  intros [Hl Hs] Hnd Hlocked. split; [by rewrite release_length|].
  assert (Hidx : forall k, shard_index (release shards locked) k = shard_index shards k).
  { intros k. apply shard_index_length, release_length. }
  intros i m Hm Hp. destruct (decide (i ∈ locked.*1)) as [Hin|Hout].
  - apply list_elem_of_fmap in Hin as ([j s] & Hj & Hin). simpl in Hj. subst j.
    destruct (Hlocked i s Hin) as (Hlt & Hwf & Hcap & Hent).
    rewrite (release_lookup_in shards locked i s) in Hm by done. injection Hm as <-.
    simpl. split_and!; [done..|]. intros k e He. rewrite Hidx. by apply Hent.
  - rewrite release_lookup_out in Hm by done. destruct (Hs i m Hm Hp) as (H1 & H2 & H3).
    split_and!; [done..|]. intros k e He. rewrite Hidx. by apply H3.
Qed.

Lemma BoundedShards_new_wf config ok : shards_wf config ok (BoundedShards_new config).
Proof.
  split; [unfold BoundedShards_new; by rewrite length_map, length_seq|].
  intros i m Hm _. unfold BoundedShards_new in Hm.
  change (map ?f ?l) with (f <$> l) in Hm.
  rewrite list_lookup_fmap in Hm. apply fmap_Some in Hm as (j & Hj & ->).
  apply lookup_seq in Hj as [-> _]. simpl. split_and!; [apply Shard_new_wf|done|].
  intros k e He. by rewrite lookup_empty in He.
Qed.

Lemma lock_shard_spec config ok shards i :
  shards_wf config ok shards -> (i < length shards)%nat ->
  exists m, shards !! i = Some m /\
  lock_shard shards i =
    Done (if is_poisoned m then Err (mkPoisonedShardError i) else Ok (guarded m)).
Proof.
  intros _ Hi. apply lookup_lt_is_Some_2 in Hi as [m Hm]. exists m. split; [done|].
  unfold lock_shard. by rewrite Hm.
Qed.

Lemma lock_shards_spec (shards : BoundedShards E) idx :
  Forall (fun i => i < length shards)%nat idx ->
  match lock_shards shards idx with
  | Done (Ok locked) => Forall2 (fun i l => l.1 = i /\ shards !! i = Some (mkMutex false l.2))
                          idx locked
  | Done (Err e) => exists pre i post m, idx = pre ++ i :: post
      /\ shards !! i = Some m /\ is_poisoned m = true /\ e = mkPoisonedShardError i
      /\ Forall (fun j => exists s, shards !! j = Some (mkMutex false s)) pre
  | Panic => False
  end.
Proof.
  induction idx as [|i idx IH]; simpl; intros Hlt; [constructor|].
  apply Forall_cons_1 in Hlt as [Hi Hlt]. specialize (IH Hlt).
  apply lookup_lt_is_Some_2 in Hi as [m Hm]. unfold lock_shard. rewrite Hm. simpl.
  destruct (is_poisoned m) eqn:Hp.
  - exists [], i, idx, m. by split_and!.
  - assert (Hm' : m = mkMutex false (guarded m)) by (destruct m; simpl in *; by subst).
    destruct (lock_shards shards idx) as [[locked|e]|]; simpl; [| |done].
    + constructor; [|done]. simpl. by rewrite Hm, Hm'.
    + destruct IH as (pre & j & post & m' & -> & Hj & Hp' & -> & Hpre).
      exists (i :: pre), j, post, m'. split_and!; [done..|].
      constructor; [|done]. exists (guarded m). by rewrite Hm, <- Hm'.
Qed.
End Bounded.

(** ** Bulk operations *)

Section Bulk.
Context {E : Type}.
Implicit Types shards : BoundedShards E.

Lemma all_indexes_lt shards : Forall (fun i => i < length shards)%nat (all_indexes shards).
Proof. apply Forall_forall. intros i Hi. apply elem_of_seq in Hi. lia. Qed.

(** Unless some shard is poisoned, every shard is locked. *)
Lemma lock_all_ok shards :
  (forall i m, shards !! i = Some m -> is_poisoned m = false) ->
  exists locked, lock_shards shards (all_indexes shards) = Done (Ok locked)
  /\ locked = imap (fun i m => (i, guarded m)) shards.
Proof.
  intros Hp. pose proof (lock_shards_spec shards _ (all_indexes_lt shards)) as H.
  destruct (lock_shards _ _) as [[locked|e]|]; [| |done].
  - exists locked. split; [done|]. apply list_eq. intros i. rewrite list_lookup_imap.
    destruct (shards !! i) as [m|] eqn:Hm; simpl.
    + assert (Hi : all_indexes shards !! i = Some i).
      { apply lookup_seq. split; [lia|]. by eapply lookup_lt_Some. }
      destruct (Forall2_lookup_l _ _ _ _ _ H Hi) as ([j s] & Hj & Hji & Hs).
      simpl in *. subst j. rewrite Hs in Hm. by injection Hm as <-.
    + apply lookup_ge_None. apply Forall2_length in H.
      unfold all_indexes in H. rewrite length_seq in H.
      apply lookup_ge_None in Hm. lia.
  - destruct H as (pre & i & post & m & _ & Hm & Hpm & _). by rewrite (Hp i m Hm) in Hpm.
Qed.

Lemma poisoned_count_zero shards :
  poisoned_count shards = 0%nat <->
  forall i m, shards !! i = Some m -> is_poisoned m = false.
Proof.
  unfold poisoned_count. rewrite length_zero_iff_nil. split.
  - intros Hf i m Hm. destruct (is_poisoned m) eqn:Hp; [|done]. exfalso.
    assert (Hin : m ∈ filter (fun m => is_poisoned m = true) shards).
    { apply list_elem_of_filter. split; [done|]. by eapply list_elem_of_lookup_2. }
    rewrite Hf in Hin. by apply not_elem_of_nil in Hin.
  - intros Hall. destruct (filter _ shards) as [|m l] eqn:Hf; [done|]. exfalso.
    assert (Hin : m ∈ filter (fun m => is_poisoned m = true) shards) by (rewrite Hf; by left).
    apply list_elem_of_filter in Hin as [Hp Hin]. apply list_elem_of_lookup in Hin as [i Hi].
    by rewrite (Hall i m Hi) in Hp.
Qed.

(** The number of stored keys never exceeds the configured maximum. *)
Lemma used_total_bound config ok shards : MemoryStoreConfig_wf config ->
  shards_wf config ok shards ->
  (forall i m, shards !! i = Some m -> is_poisoned m = false) ->
  (nat_sum (map (fun '(_, shard) => Shard_used shard)
     (imap (fun i m => (i, guarded m)) shards)) <= max_keys config)%nat.
Proof.
  intros Hcfg [Hl Hs] Hp. rewrite <- (shard_capacity_sum config Hcfg), <- Hl.
  assert (Hgen : forall (l : list (Mutex (Shard E))) k,
    (forall i m, l !! i = Some m -> Shard_used (guarded m) <= shard_capacity config (k + i))%nat ->
    (nat_sum (map (fun '(_, shard) => Shard_used shard)
       (imap (fun i m => ((k + i)%nat, guarded m)) l))
     <= nat_sum (map (shard_capacity config) (seq k (length l))))%nat).
  { clear. induction l as [|m l IH]; intros k Hk; simpl; [lia|].
    pose proof (Hk 0%nat m eq_refl) as H0. rewrite Nat.add_0_r in H0.
    apply Nat.add_le_mono; [done|]. 
    rewrite (imap_ext _ (fun i m => ((S k + i)%nat, guarded m))).
    - apply IH. intros i x Hx. replace (S k + i)%nat with (k + S i)%nat by lia. by apply Hk.
    - intros i x _. simpl. f_equal. lia. }
  apply (Hgen shards 0%nat). intros i m Hm.
  destruct (Hs i m Hm (Hp i m Hm)) as (Hwf & Hcap & _).
  simpl. rewrite <- Hcap. apply (wf_bound _ Hwf).
Qed.

(** [clear] empties every shard unless one is poisoned, in which case it
    changes nothing. *)
Lemma BoundedShards_clear_spec config ok shards : shards_wf config ok shards ->
  let '(shards', r) := BoundedShards_clear shards in
  shards_wf config ok shards'
  /\ ((exists i m, shards !! i = Some m /\ is_poisoned m = true
        /\ r = Done (Err (mkPoisonedShardError i)) /\ shards' = shards)
      \/ (poisoned_count shards = 0%nat /\ r = Done (Ok tt)
          /\ forall i m, shards' !! i = Some m -> entries (guarded m) = ∅)).
Proof.
  intros Hwf. unfold BoundedShards_clear.
  destruct (decide (poisoned_count shards = 0%nat)) as [Hz|Hz].
  - pose proof (proj1 (poisoned_count_zero shards) Hz) as Hp.
    destruct (lock_all_ok shards Hp) as (locked & -> & ->).
    set (cleared := map _ _).
    assert (Hfst : cleared.*1 = all_indexes shards).
    { unfold cleared, all_indexes. change (map ?f ?l) with (f <$> l).
      rewrite <- list_fmap_compose. rewrite fmap_imap. apply list_eq. intros i.
      rewrite list_lookup_imap. destruct (shards !! i) as [m|] eqn:Hm; simpl; symmetry.
      - apply lookup_seq. split; [lia|]. by eapply lookup_lt_Some.
      - apply lookup_ge_None. rewrite length_seq. by apply lookup_ge_None. }
    assert (Hin : forall i s, (i, s) ∈ cleared -> exists m, shards !! i = Some m
      /\ s = Shard_clear (guarded m)).
    { intros i s Hin. unfold cleared in Hin. change (map ?f ?l) with (f <$> l) in Hin.
      apply list_elem_of_fmap in Hin as ([j x] & [= -> ->] & Hin).
      apply list_elem_of_lookup in Hin as [n Hn]. rewrite list_lookup_imap in Hn.
      apply fmap_Some in Hn as (m & Hm & [= -> ->]). by exists m. }
    assert (Hnd : NoDup (cleared.*1)) by (rewrite Hfst; apply NoDup_seq).
    split.
    + apply release_wf; [done|done|]. intros i s Hi.
      destruct (Hin i s Hi) as (m & Hm & ->).
      destruct (swf_shard _ _ _ Hwf i m Hm (Hp i m Hm)) as (H1 & H2 & _).
      split_and!; [by eapply lookup_lt_Some|by apply Shard_clear_wf|done|].
      intros k e He. simpl in He. by rewrite lookup_empty in He.
    + right. split_and!; [done|done|]. intros i m Hm.
      assert (Hi : i ∈ cleared.*1).
      { rewrite Hfst. apply elem_of_seq. apply lookup_lt_Some in Hm.
        rewrite release_length in Hm. lia. }
      apply list_elem_of_fmap in Hi as ([j s] & Hj & Hi). simpl in Hj. subst j.
      destruct (Hin i s Hi) as (m0 & Hm0 & ->).
      rewrite (release_lookup_in _ _ i _ Hnd Hi) in Hm by (by eapply lookup_lt_Some).
      injection Hm as <-. done.
  - pose proof (lock_shards_spec shards _ (all_indexes_lt shards)) as H.
    destruct (lock_shards _ _) as [[locked|e]|]; [| |done].
    + exfalso. apply Hz, poisoned_count_zero. intros i m Hm.
      assert (Hi : all_indexes shards !! i = Some i).
      { apply lookup_seq. split; [lia|]. by eapply lookup_lt_Some. }
      destruct (Forall2_lookup_l _ _ _ _ _ H Hi) as ([j s] & _ & _ & Hs).
      rewrite Hs in Hm. by injection Hm as <-.
    + destruct H as (_ & i & _ & m & _ & Hm & Hp & -> & _).
      split; [done|]. left. by exists i, m.
Qed.
End Bulk.

(** ** The cleanup pass of an operation *)

(** What recording the clock and pruning do to one shard: nothing visible at
    or after [now]. *)
Record cleaned {E} (now : Z) (sh sh' : Shard E) : Prop := {
  cl_wf : Shard_wf sh';
  cl_latest : latest_observed_millis sh' = now;
  cl_capacity : sh_capacity sh' = sh_capacity sh;
  cl_active : forall k t, now <= t -> active_entry sh' k t = active_entry sh k t;
  cl_sub : forall k e, entries sh' !! k = Some e -> entries sh !! k = Some e;
  cl_used : (Shard_used sh' <= Shard_used sh)%nat;
}.

Lemma cleanup_shard_spec {E} (sh : Shard E) now n :
  Shard_wf sh -> latest_observed_millis sh <= now ->
  exists sh' r, prune_expired (record_observed_millis now sh) now n = Done (sh', r)
    /\ cleaned now sh sh' /\ (Shard_used sh' + r = Shard_used sh)%nat /\ (r <= n)%nat.
Proof.
  intros Hwf Hle. pose proof (record_observed_wf now sh Hwf Hle) as Hwf1.
  destruct (prune_expired_spec _ now n Hwf1) as (sh' & r & Hrun & Hpr).
  exists sh', r. split; [done|].
  pose proof (pruned_used _ _ _ _ _ Hwf1 Hpr) as Hu.
  change (Shard_used (record_observed_millis now sh)) with (Shard_used sh) in Hu.
  split_and!; [|done|apply Hpr]. split.
  - apply Hpr.
  - by rewrite (pr_latest _ _ _ _ _ Hpr).
  - by rewrite (pr_capacity _ _ _ _ _ Hpr).
  - intros k t Ht. by rewrite (pruned_active _ _ _ _ _ k t Hwf1 Hpr Ht).
  - intros k e He. by apply (pr_entries _ _ _ _ _ Hpr) in He as [He _].
  - lia.
Qed.

Lemma cleanup_locked_spec {E} config now elapsed (locked : LockedShards E) counts :
  Forall (fun l => Shard_wf l.2 /\ latest_observed_millis l.2 <= now) locked ->
  length counts = length locked ->
  exists locked' effects,
    cleanup_locked config now elapsed locked counts = Done (locked', effects)
    /\ Forall2 (fun l l' => l'.1 = l.1 /\ cleaned now l.2 l'.2) locked locked'
    /\ length effects = length locked.
Proof.
  intros Hwf. revert counts.
  induction Hwf as [|[i sh] locked [Hsh Hle] _ IH]; intros [|c counts] Hlen; simpl in *; try done.
  - exists [], []. split_and!; [done|constructor|done].
  - destruct (cleanup_shard_spec sh now
      (usize_saturating_mul (max_expired_removals_per_check config) c) Hsh Hle)
      as (sh' & r & -> & Hcl & _).
    destruct (IH counts ltac:(lia)) as (locked' & effects & Hrun & Hall & Hl).
    simpl. rewrite Hrun. simpl. eexists _, _. split; [done|].
    split; [by constructor|]. simpl. by rewrite Hl.
Qed.

Lemma foldl_max_ge (l : list Z) o : o <= foldl Z.max o l /\ forall x, x ∈ l -> x <= foldl Z.max o l.
Proof.
  revert o. induction l as [|y l IH]; intros o; simpl.
  - split; [lia|]. intros x Hx. by apply not_elem_of_nil in Hx.
  - destruct (IH (Z.max o y)) as [H1 H2]. split; [lia|].
    intros x [->|Hx]%elem_of_cons; [lia|auto].
Qed.

Lemma clamp_locked_ge {E} o (locked : LockedShards E) :
  o <= clamp_locked o locked
  /\ Forall (fun l => latest_observed_millis l.2 <= clamp_locked o locked) locked.
Proof.
  unfold clamp_locked. destruct (foldl_max_ge (map (fun '(_, shard) =>
    latest_observed_millis shard) locked) o) as [H1 H2].
  split; [done|]. apply Forall_forall. intros [i s] Hin. apply H2.
  change (map ?f ?l) with (f <$> l). apply list_elem_of_fmap. by exists (i, s).
Qed.

(** C37. Poisoning fails closed and recovery is local: locking a poisoned
    shard reports that shard and nothing else; [recover_poisoned] replaces
    exactly the poisoned shards by empty ones of their configured capacity,
    leaves every healthy shard untouched, reports how many it rebuilt,
    preserves the store invariant and leaves no shard poisoned, so that
    [stats] succeeds again and reports at most [max_keys] stored keys. *)
Theorem recover_poisoned_spec {E} (config : MemoryStoreConfig) (ok : E -> Prop)
    (shards : BoundedShards E) (Hcfg : MemoryStoreConfig_wf config)
    (Hwf : shards_wf config ok shards) :
  let '(shards', n) := recover_poisoned shards config in
  shards_wf config ok shards'
  /\ n = poisoned_count shards /\ poisoned_count shards' = 0%nat
  /\ (forall i m, shards !! i = Some m -> is_poisoned m = false -> shards' !! i = Some m)
  /\ (forall i m, shards !! i = Some m -> is_poisoned m = true ->
        lock_shard shards i = Done (Err (mkPoisonedShardError i))
        /\ lock_shard shards' i = Done (Ok (Shard_new (shard_capacity config i))))
  /\ exists st, BoundedShards_stats shards' config = Done (Ok st)
       /\ (stats_entries st <= max_keys config)%nat.
Proof.
  unfold recover_poisoned, recover_poisoned_from. cbn [Nat.add].
  set (f := fun i m => if is_poisoned m then mkMutex false (Shard_new (shard_capacity config i)) else m).
  assert (Hlk : forall i, imap f shards !! i = f i <$> shards !! i).
  { intros i. apply list_lookup_imap. }
  assert (Hlen : length (imap f shards) = length shards) by apply length_imap.
  assert (Hclean : forall i m, imap f shards !! i = Some m -> is_poisoned m = false).
  { intros i m. rewrite Hlk. intros (m0 & _ & ->)%fmap_Some. unfold f.
    by destruct (is_poisoned m0) eqn:?. }
  assert (Hwf' : shards_wf config ok (imap f shards)).
  { destruct Hwf as [Hl Hs]. split; [by rewrite Hlen|]. intros i m Hm _.
    rewrite Hlk in Hm. apply fmap_Some in Hm as (m0 & Hm0 & ->). unfold f.
    destruct (is_poisoned m0) eqn:Hp; simpl.
    - split_and!; [apply Shard_new_wf|done|]. intros k e He. by rewrite lookup_empty in He.
    - destruct (Hs i m0 Hm0 Hp) as (H1 & H2 & H3). split_and!; [done..|].
      intros k e He. destruct (H3 k e He) as [? <-]. split; [done|].
      by apply shard_index_length. }
  split_and!.
  - done.
  - done.
  - by apply poisoned_count_zero.
  - intros i m Hm Hp. rewrite Hlk, Hm. simpl. unfold f. by rewrite Hp.
  - intros i m Hm Hp. unfold lock_shard. rewrite Hlk, Hm. simpl. unfold f. by rewrite Hp.
  - unfold BoundedShards_stats. destruct (lock_all_ok (imap f shards) Hclean) as (l & -> & ->).
    eexists; split; [done|]. simpl. by apply (used_total_bound config ok).
Qed.

(** C37 witness. *)
Lemma recover_poisoned_spec_witness :
  let config := mkMemoryStoreConfig 4 2 8 32 in
  let shards := poison (E := Z) (BoundedShards_new config) [1%nat] in
  (MemoryStoreConfig_wf config /\ shards_wf config (fun _ => True) shards)
  /\ poisoned_count shards = 1%nat
  /\ poisoned_count (recover_poisoned shards config).1 = 0%nat.
Proof.
  cbv zeta.
  assert (Hc : MemoryStoreConfig_wf (mkMemoryStoreConfig 4 2 8 32)).
  { unfold MemoryStoreConfig_wf; simpl; lia. }
  assert (Hwf : shards_wf (mkMemoryStoreConfig 4 2 8 32) (fun _ => True)
    (poison (E := Z) (BoundedShards_new (mkMemoryStoreConfig 4 2 8 32)) [1%nat])).
  { apply poison_wf, BoundedShards_new_wf. }
  split; [by split|]. split; [reflexivity|].
  pose proof (recover_poisoned_spec (mkMemoryStoreConfig 4 2 8 32) (fun _ => True)
    (poison (E := Z) (BoundedShards_new (mkMemoryStoreConfig 4 2 8 32)) [1%nat]) Hc Hwf) as H.
  destruct (recover_poisoned _ _) as [s n]. exact (proj1 (proj2 (proj2 H))).
Defined.
