(* ===== verification/Counters.v ===== *)
(** Counters seen through the sharded stores: what a client may assume of a
    quota algorithm ([QuotaAlgorithm]), what one check and one atomic batch
    do to the counters of a store ([check_effect], [batch_effect]), and the
    lemmas that carry facts about locked shards to facts about the store.
    Both memory stores are proved against this file. *)

From S2P Require Import Prelude RustStd Identifier Policy Decision AttemptPolicy Key Check OrdSet MemConfig Shards BoundedShards.
From Stdlib Require Import Sorting.Sorted.
Open Scope list_scope.

(** * The abstract counter

    A counter is absent, or holds a number and the instant at which it
    expires.  A quota algorithm says what one check makes of it. *)

Inductive verdict :=
| VAllow (next : Z * Z) (a : Allowance)
| VDeny (q : QuotaDenial)
| VOverflow.

Class QuotaAlgorithm (P : Type) `{RateLimitPolicy P} := {
  qa_valid : Check P -> Prop;
  qa_step : Check P -> Z -> option (Z * Z) -> verdict;
}.

Definition expire (t : Z) (c : Z * Z) : option (Z * Z) :=
  if t <? c.2 then Some c else None.

Section Effects.
Context {P : Type} `{QuotaAlgorithm P}.

(** The decision the mode makes of a quota denial. *)
Definition denied_decision (c : Check P) (q : QuotaDenial) : Decision :=
  if QuotaMode_eqb (rp_quota_mode (check_policy c)) Shadow
  then Decision_shadow_denied q else Decision_denied (QuotaExceeded q).

(** What a decision does to the counters seen through [before] and [after];
    [seen k] is the latest instant known to the shard of [k] afterwards. *)
Definition check_effect (c : Check P) (now : Z) (dec : Decision)
    (full : Prop) (seen : CounterKey -> Z) (before after : CounterKey -> Z -> option (Z * Z))
    : Prop :=
  match qa_step c now (before (Check_counter_key c) now) with
  | VDeny q =>
      dec = denied_decision c q
      /\ forall k t, seen k <= t -> after k t = before k t
  | VAllow next a =>
      (dec = Decision_allowed a
       /\ forall k t, seen k <= t -> after k t =
            if decide (k = Check_counter_key c) then expire t next else before k t)
      \/ (full /\ before (Check_counter_key c) now = None
          /\ (exists r, dec = Decision_denied (StorageCapacity r))
          /\ forall k t, seen k <= t -> after k t = before k t)
  | VOverflow => False
  end.

(** What a batch decision does to the counters. *)
Definition batch_effect (checks : list (Check P)) (now : Z)
    (dec : BatchDecision) (seen : CounterKey -> Z)
    (before after : CounterKey -> Z -> option (Z * Z)) : Prop :=
  let step c := qa_step c now (before (Check_counter_key c) now) in
  let allows c := exists next a, step c = VAllow next a in
  let unchanged := forall k t, seen k <= t -> after k t = before k t in
  match BatchDecision_view dec with
  | BatchDecisionView_Allowed allowances =>
      Forall2 (fun c a => exists next, step c = VAllow next a
          /\ forall t, now <= t -> after (Check_counter_key c) t = expire t next)
        checks allowances
      /\ forall k t, seen k <= t -> k ∉ fmap Check_counter_key checks -> after k t = before k t
  | BatchDecisionView_Denied i n denial =>
      n = length checks /\ unchanged
      /\ exists c, checks !! i = Some c /\ Forall allows (take i checks)
         /\ ((exists q, step c = VDeny q /\ denial = QuotaExceeded q
                /\ rp_quota_mode (check_policy c) = Enforce)
             \/ (before (Check_counter_key c) now = None
                 /\ exists r, denial = StorageCapacity r))
  | BatchDecisionView_ShadowDenied i n q =>
      n = length checks /\ unchanged
      /\ exists c, checks !! i = Some c /\ Forall allows (take i checks)
         /\ step c = VDeny q /\ rp_quota_mode (check_policy c) = Shadow
  end.
End Effects.

(** * One shard

    [payload] is the number an entry holds, [ok] what a stored entry
    satisfies. *)

Section Views.
Context {E : Type} (payload : E -> Z) (ok : E -> Prop).
Implicit Types (shard sh : Shard E) (locked : LockedShards E) (shards : BoundedShards E).

Definition view shard (k : CounterKey) (now : Z) : option (Z * Z) :=
  (fun '(e, x) => (payload e, x)) <$> active_entry shard k now.

Definition shard_ok shard : Prop :=
  Shard_wf shard /\ forall k e, entries shard !! k = Some e -> ok (se_value e).

(** What storing the counter [next] at [key] leaves behind. *)
Record consumed (key : CounterKey) (next : Z * Z) (now : Z) (sh sh' : Shard E) : Prop := {
  co_ok : shard_ok sh';
  co_latest : latest_observed_millis sh' = latest_observed_millis sh;
  co_capacity : sh_capacity sh' = sh_capacity sh;
  co_dom : forall k, is_Some (entries sh' !! k) <-> k = key \/ is_Some (entries sh !! k);
  co_used : Shard_used sh' =
    (if decide (is_Some (entries sh !! key)) then Shard_used sh else S (Shard_used sh));
  co_view : forall k t, now <= t -> view sh' k t =
    if decide (k = key) then expire t next else view sh k t;
}.

Lemma active_ok sh k t e x : shard_ok sh -> active_entry sh k t = Some (e, x) -> ok e.
Proof. intros [_ Hok] [H _]%active_entry_Some. apply (Hok k _ H). Qed.

Lemma cleaned_ok now sh sh' : shard_ok sh -> cleaned now sh sh' -> shard_ok sh'.
Proof.
  intros [_ Hok] Hcl. split; [apply Hcl|]. intros k e He.
  by apply (Hok k), (cl_sub _ _ _ Hcl).
Qed.

Lemma cleaned_view now sh sh' k t : cleaned now sh sh' -> now <= t -> view sh' k t = view sh k t.
Proof. intros Hcl Ht. unfold view. by rewrite (cl_active _ _ _ Hcl). Qed.

Lemma view_not_contained sh k t : contains_key sh k = false -> view sh k t = None.
Proof.
  intros Hc. unfold view. destruct (active_entry sh k t) as [a|] eqn:Ha; [|done].
  apply active_contains in Ha. congruence.
Qed.

Lemma shard_ok_insert sh key s :
  (forall k e, entries sh !! k = Some e -> ok (se_value e)) -> ok (se_value s) ->
  forall k e, <[key := s]> (entries sh) !! k = Some e -> ok (se_value e).
Proof.
  intros Hent Hs k e. destruct (decide (k = key)) as [->|Hne].
  - rewrite lookup_insert_eq. by intros [= <-].
  - rewrite lookup_insert_ne by done. apply Hent.
Qed.

Lemma dom_insert (m : gmap CounterKey (StoredEntry E)) key s k :
  is_Some (<[key := s]> m !! k) <-> k = key \/ is_Some (m !! k).
Proof.
  destruct (decide (k = key)) as [->|Hne].
  - rewrite lookup_insert_eq. split; [by left|done].
  - rewrite lookup_insert_ne by done. tauto.
Qed.

(** [replace] stores a counter. *)
Lemma replace_consumed sh key v x now :
  shard_ok sh -> latest_observed_millis sh = now -> ok v ->
  now < x <= now + MAX_WINDOW_MILLIS ->
  is_Some (entries sh !! key) \/ (Shard_used sh < sh_capacity sh)%nat ->
  consumed key (payload v, x) now sh (replace sh key v x).
Proof.
  intros [Hwf Hent] Hnow Hv Hx Hroom. split; try done.
  - split; [apply replace_wf; [done|done|lia]|]. by apply shard_ok_insert.
  - apply dom_insert.
  - unfold Shard_used; simpl. rewrite map_size_insert.
    destruct (entries sh !! key) eqn:He; [rewrite decide_True by eauto|
      rewrite decide_False by (intros [? ?]; congruence)]; done.
  - intros k t Ht. unfold view. rewrite active_replace.
    destruct (decide (k = key)) as [->|]; [|done]. unfold expire. simpl. by case_cmp.
Qed.

(** [update_value] changes a live counter and keeps its expiry. *)
Lemma update_consumed sh key f e x now :
  shard_ok sh -> latest_observed_millis sh = now ->
  active_entry sh key now = Some (e, x) -> ok (f e) ->
  exists sh', update_value sh key f = Some sh' /\ consumed key (payload (f e), x) now sh sh'.
Proof.
  intros [Hwf Hent] Hnow Ha Hf. apply active_entry_Some in Ha as [Hk _].
  assert (Hupd : update_value sh key f = Some (mkShard (sh_capacity sh)
    (latest_observed_millis sh) (<[key := mkStoredEntry (f e) x]> (entries sh))
    (expirations sh))) by (unfold update_value; by rewrite Hk).
  eexists. split; [exact Hupd|]. split; simpl; try done.
  - split; [by eapply update_value_wf|]. by apply shard_ok_insert.
  - apply dom_insert.
  - unfold Shard_used; simpl. rewrite decide_True by eauto.
    by rewrite map_size_insert_Some by eauto.
  - intros k t Ht. unfold view. rewrite (active_update _ _ _ _ k t Hupd).
    destruct (decide (k = key)) as [->|]; [|done].
    unfold active_entry, expire. rewrite Hk. simpl. by case_cmp.
Qed.

(** * Locked shards *)

(** Locked shards at the instant of the operation. *)
Definition locked_ok (now : Z) locked : Prop :=
  Forall (fun l => shard_ok l.2 /\ latest_observed_millis l.2 = now) locked.

(** The counter seen through a shard position. *)
Definition pview locked (q : nat) (k : CounterKey) (t : Z) : option (Z * Z) :=
  l ← locked !! q; view l.2 k t.

(** A key and the position of its shard among the locked ones. *)
Notation slot := (CounterKey * nat)%type.

Definition is_new locked (s : slot) : bool :=
  match locked !! s.2 with
  | Some l => negb (contains_key l.2 s.1)
  | None => false
  end.

(** New keys of [slots] at position [q]. *)
Fixpoint new_count locked (q : nat) (slots : list slot) : nat :=
  match slots with
  | [] => 0
  | s :: slots =>
      ((if Nat.eqb s.2 q && is_new locked s then 1 else 0) + new_count locked q slots)%nat
  end.

Definition has_room locked (extra : nat -> nat) : Prop :=
  forall q l, locked !! q = Some l -> (Shard_used l.2 + extra q <= sh_capacity l.2)%nat.

Lemma locked_ok_at now locked q i sh :
  locked_ok now locked -> locked !! q = Some (i, sh) ->
  shard_ok sh /\ latest_observed_millis sh = now.
Proof. intros Hok Hq. unfold locked_ok in Hok. rewrite Forall_lookup in Hok. apply (Hok q _ Hq). Qed.

Lemma has_room_replicate now locked :
  locked_ok now locked ->
  has_room locked (fun q => default 0%nat (replicate (length locked) 0%nat !! q)).
Proof.
  intros Hok q [i sh] Hq. destruct (locked_ok_at _ _ _ _ _ Hok Hq) as [[Hwf _] _].
  pose proof (wf_bound _ Hwf) as Hb.
  rewrite lookup_replicate_2 by (by eapply lookup_lt_Some). simpl. unfold Shard_used. lia.
Qed.

(** ** The preflight scan

    Every batch scans its checks in caller order; an item is its slot and
    the quota denial its counter gives it, if any. *)

Inductive scan_result :=
| ScanAllowed
| ScanDenied (i : nat) (q : QuotaDenial)
| ScanFull (i : nat) (sh : Shard E).

Fixpoint scan locked (pending : list nat) (i : nat) (items : list (slot * option QuotaDenial))
    : scan_result :=
  match items with
  | [] => ScanAllowed
  | (_, Some q) :: _ => ScanDenied i q
  | (s, None) :: items =>
      match locked !! s.2 with
      | None => scan locked pending (S i) items
      | Some (_, sh) =>
          if contains_key sh s.1 then scan locked pending (S i) items
          else
            let n := default 0%nat (pending !! s.2) in
            if Nat.leb (sh_capacity sh) (Shard_used sh + n) then ScanFull i sh
            else scan locked (<[s.2 := S n]> pending) (S i) items
      end
  end.

Definition scan_post locked (extra : nat -> nat) (start : nat)
    (items : list (slot * option QuotaDenial)) (r : scan_result) : Prop :=
  match r with
  | ScanAllowed => Forall (fun it => it.2 = None) items
      /\ has_room locked (fun q => extra q + new_count locked q (items.*1))%nat
  | ScanDenied i q => exists j s, i = (start + j)%nat /\ items !! j = Some (s, Some q)
      /\ Forall (fun it => it.2 = None) (take j items)
  | ScanFull i sh => exists j s n, i = (start + j)%nat /\ items !! j = Some (s, None)
      /\ Forall (fun it => it.2 = None) (take j items)
      /\ locked !! s.2 = Some (n, sh) /\ contains_key sh s.1 = false
  end.

Lemma scan_post_cons locked extra extra' start s items r :
  (forall q, extra' q = extra q
     + (if Nat.eqb s.2 q && is_new locked s then 1 else 0))%nat ->
  scan_post locked extra' (S start) items r ->
  scan_post locked extra start ((s, None) :: items) r.
Proof.
  intros Hex. destruct r as [|i q|i sh]; simpl.
  - intros [Hall Hroom]. split; [by constructor|]. intros q l Hl.
    specialize (Hroom q l Hl). cbv beta in Hroom. rewrite Hex in Hroom.
    unfold fmap in Hroom. destruct (_ && _); lia.
  - intros (j & s' & -> & Hj & Hall). exists (S j), s'. split_and!; [lia|done|by constructor].
  - intros (j & s' & n & -> & Hj & Hall & H1 & H2). exists (S j), s', n.
    split_and!; [lia|done|by constructor|done|done].
Qed.

Lemma scan_spec locked pending i items :
  Forall (fun it => (it.1.2 < length locked)%nat) items ->
  length pending = length locked ->
  has_room locked (fun q => default 0%nat (pending !! q)) ->
  scan_post locked (fun q => default 0%nat (pending !! q)) i items
    (scan locked pending i items).
Proof.
  intros Hpos. revert pending i.
  induction Hpos as [|[s [q|]] items Hs _ IH]; intros pending i Hlen Hroom; simpl.
  - split; [constructor|]. intros q l Hl. specialize (Hroom q l Hl). simpl in *. lia.
  - exists 0%nat, s. split_and!; [lia|done|constructor].
  - simpl in Hs. destruct (lookup_lt_is_Some_2 _ _ Hs) as [[n sh] Hl]. rewrite Hl.
    destruct (contains_key sh s.1) eqn:Hcon.
    + eapply scan_post_cons; [|by apply IH]. intros q. unfold is_new. rewrite Hl. simpl.
      rewrite Hcon. simpl. rewrite andb_false_r. lia.
    + destruct (Nat.leb_spec (sh_capacity sh) (Shard_used sh + default 0%nat (pending !! s.2)))
        as [Hfull|Hfree].
      { exists 0%nat, s, n. split_and!; [lia|done|constructor|done|done]. }
      assert (Hins : forall q, default 0%nat
          (<[s.2 := S (default 0%nat (pending !! s.2))]> pending !! q)
        = (default 0%nat (pending !! q)
           + (if Nat.eqb s.2 q && is_new locked s then 1 else 0))%nat).
      { intros q. unfold is_new. rewrite Hl. simpl. rewrite Hcon. simpl. rewrite andb_true_r.
        destruct (Nat.eqb_spec s.2 q) as [<-|Hne].
        - rewrite list_lookup_insert_eq by lia. simpl. lia.
        - rewrite list_lookup_insert_ne by done. lia. }
      eapply scan_post_cons; [|apply IH].
      * exact Hins.
      * by rewrite length_insert.
      * intros q l Hq. rewrite Hins. specialize (Hroom q l Hq). simpl in Hroom.
        destruct (Nat.eqb_spec s.2 q) as [<-|Hne]; simpl; [|lia].
        rewrite Hl in Hq. injection Hq as <-. simpl in *. destruct (is_new locked s); lia.
Qed.

(** ** Consumption

    The counters [nexts] are stored one after the other. *)

Inductive consumed_all (now : Z) : LockedShards E -> list (slot * (Z * Z))
    -> LockedShards E -> Prop :=
| consumed_nil locked : consumed_all now locked [] locked
| consumed_cons locked k q i sh sh' next slots locked' :
    locked !! q = Some (i, sh) -> consumed k next now sh sh' ->
    consumed_all now (<[q := (i, sh')]> locked) slots locked' ->
    consumed_all now locked ((k, q, next) :: slots) locked'.

Lemma pview_insert locked q0 i sh sh' key next now q k t :
  locked !! q0 = Some (i, sh) -> consumed key next now sh sh' -> now <= t ->
  pview (<[q0 := (i, sh')]> locked) q k t =
    if decide (q = q0 /\ k = key) then expire t next else pview locked q k t.
Proof.
  intros Hl Hco Ht. unfold pview. destruct (decide (q = q0)) as [->|Hne].
  - rewrite list_lookup_insert_eq by (by eapply lookup_lt_Some). rewrite Hl. simpl.
    rewrite (co_view _ _ _ _ _ Hco) by done.
    destruct (decide (k = key)) as [->|Hk];
      [by rewrite decide_True|by rewrite decide_False by tauto].
  - rewrite list_lookup_insert_ne by done. by rewrite decide_False by tauto.
Qed.

Lemma is_new_insert locked q0 i sh sh' key next now s :
  locked !! q0 = Some (i, sh) -> consumed key next now sh sh' -> s.1 <> key ->
  is_new (<[q0 := (i, sh')]> locked) s = is_new locked s.
Proof.
  intros Hl Hco Hne. unfold is_new. destruct (decide (s.2 = q0)) as [->|Hq].
  - rewrite list_lookup_insert_eq by (by eapply lookup_lt_Some). rewrite Hl. simpl. f_equal.
    apply bool_decide_ext. rewrite (co_dom _ _ _ _ _ Hco). tauto.
  - by rewrite list_lookup_insert_ne.
Qed.

Lemma new_count_insert locked q0 i sh sh' key next now q slots :
  locked !! q0 = Some (i, sh) -> consumed key next now sh sh' -> key ∉ slots.*1 ->
  new_count (<[q0 := (i, sh')]> locked) q slots = new_count locked q slots.
Proof.
  intros Hl Hco. induction slots as [|s slots IH]; intros Hni; simpl; [done|].
  apply not_elem_of_cons in Hni as [Hne Hni].
  by rewrite (is_new_insert _ _ _ _ _ _ _ _ _ Hl Hco) by done; rewrite IH.
Qed.

(** The room the scan found is enough for the first consumption, and what is
    left of it for the others. *)
Lemma has_room_first locked k q i sh slots :
  has_room locked (fun q' => new_count locked q' ((k, q) :: slots)) ->
  locked !! q = Some (i, sh) ->
  is_Some (entries sh !! k) \/ (Shard_used sh < sh_capacity sh)%nat.
Proof.
  intros Hroom Hl. specialize (Hroom q (i, sh) Hl). simpl in Hroom.
  unfold is_new in Hroom. simpl in Hroom. rewrite Hl, Nat.eqb_refl in Hroom. simpl in Hroom.
  destruct (contains_key sh k) eqn:Hcon; [left; by apply contains_key_spec|].
  right. simpl in Hroom. lia.
Qed.

Lemma has_room_rest locked k q i sh sh' next now slots :
  has_room locked (fun q' => new_count locked q' ((k, q) :: slots)) ->
  locked !! q = Some (i, sh) -> consumed k next now sh sh' -> k ∉ slots.*1 ->
  has_room (<[q := (i, sh')]> locked) (fun q' => new_count (<[q := (i, sh')]> locked) q' slots).
Proof.
  intros Hroom Hl Hco Hni q' l Hq'. rewrite (new_count_insert _ _ _ _ _ _ _ _ _ _ Hl Hco Hni).
  specialize (Hroom q'). simpl in Hroom. destruct (decide (q' = q)) as [->|Hne].
  - rewrite list_lookup_insert_eq in Hq' by (by eapply lookup_lt_Some). injection Hq' as <-.
    specialize (Hroom _ Hl). unfold is_new in Hroom. simpl in Hroom.
    rewrite Hl, Nat.eqb_refl in Hroom. simpl in *.
    rewrite (co_capacity _ _ _ _ _ Hco), (co_used _ _ _ _ _ Hco).
    unfold contains_key in Hroom. case_decide; case_bool_decide; try done; simpl in *; lia.
  - rewrite list_lookup_insert_ne in Hq' by done. specialize (Hroom l Hq'). lia.
Qed.

Lemma locked_ok_insert now locked q i sh sh' k next :
  locked_ok now locked -> locked !! q = Some (i, sh) -> consumed k next now sh sh' ->
  locked_ok now (<[q := (i, sh')]> locked).
Proof.
  intros Hok Hl Hco. apply Forall_insert; [done|]. simpl. split; [apply Hco|].
  rewrite (co_latest _ _ _ _ _ Hco). apply (locked_ok_at _ _ _ _ _ Hok Hl).
Qed.

(** Every shard keeps its position, its capacity, and gains only the keys
    stored through its position. *)
Lemma consumed_all_frame now locked slots locked' :
  consumed_all now locked slots locked' -> locked_ok now locked ->
  locked_ok now locked' /\ locked'.*1 = locked.*1
  /\ forall q l, locked !! q = Some l -> exists l', locked' !! q = Some l'
       /\ sh_capacity l'.2 = sh_capacity l.2
       /\ forall k, is_Some (entries l'.2 !! k) -> (k, q) ∈ slots.*1 \/ is_Some (entries l.2 !! k).
Proof.
  induction 1 as [locked|locked k q i sh sh' next slots locked' Hl Hco _ IH]; intros Hok.
  - split_and!; [done..|]. intros q l Hl. exists l. split_and!; [done..|]. intros k Hk. by right.
  - destruct IH as (H1 & H2 & H3); [by apply (locked_ok_insert _ _ _ _ _ _ _ _ Hok Hl Hco)|].
    split_and!; [done| |].
    + rewrite H2, list_fmap_insert. simpl. apply list_insert_id. by rewrite list_lookup_fmap, Hl.
    + intros q' l Hq'. destruct (decide (q' = q)) as [->|Hne].
      * rewrite Hl in Hq'. injection Hq' as <-.
        destruct (H3 q (i, sh')) as (l' & Hl' & Hcap & Hdom);
          [by rewrite list_lookup_insert_eq by (by eapply lookup_lt_Some)|].
        exists l'. split; [done|]. simpl in *. split; [by rewrite Hcap, (co_capacity _ _ _ _ _ Hco)|].
        intros k' [Hk'|Hk']%Hdom; [left; by right|].
        apply (co_dom _ _ _ _ _ Hco) in Hk' as [->|Hk']; [left; by left|by right].
      * destruct (H3 q' l) as (l' & Hl' & Hcap & Hdom); [by rewrite list_lookup_insert_ne|].
        exists l'. split_and!; [done..|]. intros k' [Hk'|Hk']%Hdom; [left; by right|by right].
Qed.

(** The stored counters, and only those, change. *)
Lemma consumed_all_views now locked slots locked' :
  consumed_all now locked slots locked' -> NoDup (slots.*1.*1) ->
  (forall k q next, (k, q, next) ∈ slots -> forall t, now <= t -> pview locked' q k t = expire t next)
  /\ (forall q k t, now <= t -> k ∉ slots.*1.*1 -> pview locked' q k t = pview locked q k t).
Proof.
  induction 1 as [locked|locked k q i sh sh' next slots locked' Hl Hco _ IH]; intros Hnd.
  - split; [|done]. intros ? ? ? Hin. by apply not_elem_of_nil in Hin.
  - simpl in Hnd. apply NoDup_cons in Hnd as [Hni Hnd]. destruct (IH Hnd) as [H1 H2]. split.
    + intros k' q' next' [[= -> -> ->]|Hin]%elem_of_cons t Ht; [|by apply H1].
      rewrite H2 by done. rewrite (pview_insert _ _ _ _ _ _ _ _ _ _ _ Hl Hco) by done.
      by rewrite decide_True.
    + intros q' k' t Ht Hk'. simpl in Hk'. apply not_elem_of_cons in Hk' as [Hk1 Hk2].
      rewrite H2 by done. rewrite (pview_insert _ _ _ _ _ _ _ _ _ _ _ Hl Hco) by done.
      rewrite decide_False; [done|]. by intros [_ ?].
Qed.
End Views.

(** * The store *)

Section Store.
Context {E : Type} (payload : E -> Z) (ok : E -> Prop) (config : MemoryStoreConfig).
Implicit Types (sh : Shard E) (locked : LockedShards E) (shards : BoundedShards E).

Notation view := (view payload).
Notation shard_ok := (shard_ok ok).
Notation locked_ok := (locked_ok ok).
Notation pview := (pview payload).

Definition sharded_wf shards : Prop := MemoryStoreConfig_wf config /\ shards_wf config ok shards.

(** The shard that stores a key, when it is not poisoned. *)
Definition key_healthy shards (k : CounterKey) sh : Prop :=
  shards !! shard_index shards k = Some (mkMutex false sh).

(** The counter of a key at time [t]. *)
Definition key_counter shards (k : CounterKey) (t : Z) : option (Z * Z) :=
  m ← shards !! shard_index shards k; view (guarded m) k t.

(** The latest instant a key's shard has seen. *)
Definition key_latest shards (k : CounterKey) : Z :=
  default 0 ((fun m => latest_observed_millis (guarded m)) <$> shards !! shard_index shards k).

Lemma shard_of_lt shards k : sharded_wf shards -> (shard_index shards k < length shards)%nat.
Proof. intros [[Hc _] [Hl _]]. apply shard_index_lt. lia. Qed.

Lemma shard_index_release shards locked k :
  shard_index (release shards locked) k = shard_index shards k.
Proof. apply shard_index_length, release_length. Qed.

Lemma healthy_ok shards k sh : sharded_wf shards -> key_healthy shards k sh ->
  shard_ok sh /\ sh_capacity sh = shard_capacity config (shard_index shards k)
  /\ forall j e, entries sh !! j = Some e -> shard_index shards j = shard_index shards k.
Proof.
  intros [_ [_ Hs]] Hh. destruct (Hs _ _ Hh eq_refl) as (Hwf & Hcap & Hent).
  split_and!; [split; [done|]|done|]; intros j e He; by apply (Hent j e).
Qed.

(** Replacing the data of healthy shards by well-formed data about the same
    keys keeps the store well formed. *)
Lemma release_sharded_wf shards locked :
  sharded_wf shards -> NoDup (locked.*1) ->
  (forall i sh', (i, sh') ∈ locked -> exists sh,
     shards !! i = Some (mkMutex false sh)
     /\ shard_ok sh' /\ sh_capacity sh' = sh_capacity sh
     /\ forall k, is_Some (entries sh' !! k) ->
          shard_index shards k = i \/ is_Some (entries sh !! k)) ->
  sharded_wf (release shards locked).
Proof.
  intros [Hc Hs] Hnd Hall. split; [done|]. apply release_wf; [done|done|].
  intros i sh' Hin. destruct (Hall i sh' Hin) as (sh & Hsh & [Hwf Hok] & Hcap & Hdom).
  destruct (swf_shard _ _ _ Hs i _ Hsh eq_refl) as (Hwf0 & Hcap0 & Hent0). simpl in *.
  split_and!; [by eapply lookup_lt_Some|done|congruence|].
  intros k e He. split; [by apply (Hok k)|].
  destruct (Hdom k (ex_intro _ e He)) as [<-|[e0 He0]]; [done|].
  by apply (Hent0 k e0).
Qed.

(** Counters and instants of released shards. *)
Lemma released_at shards locked q k sh :
  sharded_wf shards -> NoDup (locked.*1) -> locked !! q = Some (shard_index shards k, sh) ->
  key_healthy (release shards locked) k sh
  /\ key_latest (release shards locked) k = latest_observed_millis sh
  /\ forall t, key_counter (release shards locked) k t = pview locked q k t.
Proof.
  intros Hwf Hnd Hq.
  assert (Hlk : release shards locked !! shard_index shards k = Some (mkMutex false sh)).
  { apply release_lookup_in; [done|by eapply list_elem_of_lookup_2|by apply shard_of_lt]. }
  unfold key_healthy, key_latest, key_counter, Counters.pview.
  rewrite shard_index_release, Hlk, Hq. done.
Qed.

Lemma released_out shards locked k :
  shard_index shards k ∉ locked.*1 ->
  key_latest (release shards locked) k = key_latest shards k
  /\ forall t, key_counter (release shards locked) k t = key_counter shards k t.
Proof.
  intros Hk. unfold key_latest, key_counter.
  rewrite shard_index_release, release_lookup_out by done. done.
Qed.

(** Poisoning hides shards; it changes no data. *)
Lemma poison_inert shards idx k :
  key_latest (poison shards idx) k = key_latest shards k
  /\ forall t, key_counter (poison shards idx) k t = key_counter shards k t.
Proof.
  unfold key_latest, key_counter. rewrite (shard_index_length _ shards) by apply poison_length.
  destruct (poison shards idx !! shard_index shards k) as [m|] eqn:Hm.
  - destruct (poison_lookup _ _ _ _ Hm) as (m0 & -> & Hg & _). simpl. by rewrite Hg.
  - apply lookup_ge_None in Hm. rewrite poison_length in Hm.
    apply lookup_ge_None in Hm. by rewrite Hm.
Qed.

Lemma poison_sharded_wf shards idx : sharded_wf shards -> sharded_wf (poison shards idx).
Proof. intros [Hc Hs]. split; [done|]. by apply poison_wf. Qed.

(** A new store has no counters. *)
Lemma BoundedShards_new_counter k t : key_counter (BoundedShards_new config) k t = None.
Proof.
  unfold key_counter.
  destruct (BoundedShards_new config !! shard_index (BoundedShards_new config) k) as [m|] eqn:Hm;
    [|done].
  unfold BoundedShards_new in Hm. change (map ?g ?l) with (g <$> l) in Hm.
  rewrite list_lookup_fmap in Hm. apply fmap_Some in Hm as (j & _ & ->).
  simpl. unfold Counters.view, active_entry. simpl. by rewrite lookup_empty.
Qed.

(** Locking the shard of a key. *)
Lemma lock_key shards k : sharded_wf shards ->
  lock_shard shards (shard_index shards k)
    = Done (Err (mkPoisonedShardError (shard_index shards k)))
  \/ exists sh, key_healthy shards k sh
       /\ lock_shard shards (shard_index shards k) = Done (Ok sh).
Proof.
  intros Hwf. destruct (lookup_lt_is_Some_2 shards _ (shard_of_lt _ k Hwf)) as [[p sh] Hm].
  unfold lock_shard, key_healthy. rewrite Hm. destruct p; [by left|right]. by exists sh.
Qed.

(** ** One check *)

(** What a single operation does to the shard it locked is what it does to
    the store. *)
Lemma check_effect_release {P} `{QuotaAlgorithm P} shards (c : Check P) sh sh' dec full :
  let k := Check_counter_key c in
  let now := latest_observed_millis sh' in
  let shards' := release shards [(shard_index shards k, sh')] in
  sharded_wf shards -> key_healthy shards k sh ->
  shard_ok sh' -> latest_observed_millis sh <= now -> sh_capacity sh' = sh_capacity sh ->
  (forall j, is_Some (entries sh' !! j) -> j = k \/ is_Some (entries sh !! j)) ->
  check_effect c now dec full (fun _ => now) (view sh) (view sh') ->
  sharded_wf shards' /\ (forall j, key_latest shards j <= key_latest shards' j)
  /\ key_healthy shards' k sh'
  /\ check_effect c now dec full (key_latest shards') (key_counter shards) (key_counter shards').
Proof.
  intros k now shards' Hwf Hsh Hok Hlat Hcap Hdom Heff.
  set (locked := [(shard_index shards k, sh')]) in *.
  assert (Hnd : NoDup (locked.*1)) by apply NoDup_singleton.
  assert (Hat : forall j, shard_index shards j = shard_index shards k ->
    key_healthy shards' j sh' /\ key_latest shards' j = now
    /\ (forall t, key_counter shards' j t = view sh' j t)
    /\ (forall t, key_counter shards j t = view sh j t)
    /\ key_latest shards j = latest_observed_millis sh).
  { intros j Hj. destruct (released_at shards locked 0 j sh' Hwf Hnd) as (H1 & H2 & H3).
    - by rewrite Hj.
    - split_and!; [done|done|done|..]; unfold key_counter, key_latest; by rewrite Hj, Hsh. }
  assert (Hout : forall j, shard_index shards j <> shard_index shards k ->
    key_latest shards' j = key_latest shards j
    /\ forall t, key_counter shards' j t = key_counter shards j t).
  { intros j Hj. apply released_out. simpl. by intros ?%list_elem_of_singleton. }
  assert (Hsame : (forall j t, now <= t -> view sh' j t = view sh j t) ->
    forall j t, key_latest shards' j <= t -> key_counter shards' j t = key_counter shards j t).
  { intros Hv j t Ht. destruct (decide (shard_index shards j = shard_index shards k)) as [Hj|Hj].
    - destruct (Hat j Hj) as (_ & H2 & H3 & H4 & _). rewrite H3, H4. apply Hv. lia.
    - by apply Hout. }
  destruct (Hat k eq_refl) as (Hk1 & Hk2 & Hk3 & Hk4 & _). split_and!; [| |done|].
  - apply release_sharded_wf; [done|done|]. intros i s Hin.
    apply list_elem_of_singleton in Hin as [= -> ->]. exists sh. split_and!; [done..|].
    intros j [->|Hj]%Hdom; [by left|by right].
  - intros j. destruct (decide (shard_index shards j = shard_index shards k)) as [Hj|Hj].
    + destruct (Hat j Hj) as (_ & -> & _ & _ & ->). done.
    + destruct (Hout j Hj) as [-> _]. lia.
  - unfold check_effect in *. fold k in Heff |- *. rewrite Hk4.
    destruct (qa_step c now (view sh k now)) as [next a|q|]; [|naive_solver|done].
    destruct Heff as [[Hdec Hv]|(Hfull & Hnone & Hdec & Hv)]; [left|right; naive_solver].
    split; [done|]. intros j t Ht.
    destruct (decide (shard_index shards j = shard_index shards k)) as [Hj|Hj].
    + destruct (Hat j Hj) as (_ & H2 & H3 & H4 & _). rewrite H3, H4. apply Hv. lia.
    + rewrite decide_False by (by intros ->). by apply Hout.
Qed.

(** ** Batches *)

(** The touched shards, as locked for a batch. *)
Definition locked_from shards locked : Prop :=
  forall q i sh, locked !! q = Some (i, sh) -> shards !! i = Some (mkMutex false sh).

(** The facts about a locked batch that do not depend on the decision:
    [f] gives each key the position of its shard. *)
Record batch_locked shards (keys : list CounterKey) (f : CounterKey -> nat) locked : Prop := {
  bl_nodup : NoDup (locked.*1);
  bl_from : locked_from shards locked;
  bl_pos : forall k, k ∈ keys -> exists sh, locked !! f k = Some (shard_index shards k, sh);
}.

Lemma index_shards_lt shards t keys :
  sharded_wf shards -> BatchTopology_new (map (shard_index shards) keys) config = Ok t ->
  Forall (fun i => (i < length shards)%nat) (map bs_index (topology_shards t)).
Proof.
  intros Hwf Ht. pose proof (BatchTopology_new_cases (map (shard_index shards) keys) config) as Hc.
  rewrite Ht in Hc. destruct Hc as (_ & Hmem & _). apply Forall_forall. intros i Hi.
  apply Hmem in Hi. change (map ?g ?l) with (g <$> l) in Hi.
  apply list_elem_of_fmap in Hi as (k & -> & _). by apply shard_of_lt.
Qed.

(** Locking the topology of a batch: every touched shard, or the first
    poisoned one. *)
Lemma batch_setup shards keys t :
  sharded_wf shards -> BatchTopology_new (map (shard_index shards) keys) config = Ok t ->
  let f := fun k => partition_point (shard_index shards k) (topology_shards t) in
  input_positions t = map f keys
  /\ (exists e, lock_topology shards t = Done (Err e)
        /\ exists k m, k ∈ keys /\ shards !! shard_index shards k = Some m /\ is_poisoned m = true)
   \/ input_positions t = map f keys
      /\ exists locked, lock_topology shards t = Done (Ok locked)
        /\ length (check_counts t) = length locked
        /\ batch_locked shards keys f locked
        /\ Forall (fun k => exists sh, key_healthy shards k sh) keys.
Proof.
  intros Hwf Ht f. pose proof (index_shards_lt _ _ _ Hwf Ht) as Hlt.
  pose proof (BatchTopology_new_cases (map (shard_index shards) keys) config) as Hcases.
  rewrite Ht in Hcases. destruct Hcases as (Hsort & Hmem & Hpos & _).
  assert (Hpos' : input_positions t = map f keys) by (by rewrite Hpos, map_map).
  assert (Hmem' : forall i, i ∈ map bs_index (topology_shards t) <->
    exists k, k ∈ keys /\ i = shard_index shards k).
  { intros i. rewrite Hmem. change (map ?g ?l) with (g <$> l). rewrite list_elem_of_fmap.
    naive_solver. }
  pose proof (lock_shards_spec shards _ Hlt) as Hlock.
  unfold lock_topology. destruct (lock_shards _ _) as [[locked|e]|]; [right|left|done].
  2:{ split; [done|]. exists e. split; [done|]. destruct Hlock as (pre & i & post & m & Heq & Hm & Hp & _).
      destruct (proj1 (Hmem' i)) as (k & Hk & ->); [rewrite Heq; set_solver|]. eauto. }
  split; [done|]. exists locked. split; [done|].
  assert (Hfst : locked.*1 = map bs_index (topology_shards t)).
  { clear -Hlock. induction Hlock as [|i l idx ls [Hi _] _ IH]; simpl; [done|]. by f_equal. }
  assert (Hfrom : locked_from shards locked).
  { intros q i sh Hq. destruct (Forall2_lookup_r _ _ _ _ _ Hlock Hq) as (j & _ & Hj & Hs).
    simpl in *. by subst. }
  assert (Hat : forall k, k ∈ keys -> exists sh, locked !! f k = Some (shard_index shards k, sh)).
  { intros k Hk. destruct (partition_point_found (topology_shards t) (shard_index shards k) Hsort)
      as (s & Hs & Hi); [apply Hmem'; eauto|].
    assert (Hl : locked.*1 !! f k = Some (shard_index shards k)).
    { rewrite Hfst. change (map ?g ?l) with (g <$> l). rewrite list_lookup_fmap.
      unfold f. rewrite Hs. simpl. by rewrite Hi. }
    rewrite list_lookup_fmap in Hl. apply fmap_Some in Hl as ([i sh] & Hq & ->). eauto. }
  split_and!.
  - unfold check_counts. apply (f_equal length) in Hfst. by rewrite length_fmap, length_map in *.
  - split; [|done|done]. rewrite Hfst. by apply index_lookup_NoDup.
  - apply Forall_forall. intros k Hk. destruct (Hat k Hk) as [sh Hq]. exists sh.
    by apply (Hfrom (f k)).
Qed.

Lemma fst_lookup locked locked' q i sh :
  locked'.*1 = locked.*1 -> locked !! q = Some (i, sh) -> exists sh', locked' !! q = Some (i, sh').
Proof.
  intros Hfst Hq. assert (H : locked'.*1 !! q = Some i).
  { rewrite Hfst, list_lookup_fmap, Hq. done. }
  rewrite list_lookup_fmap in H. apply fmap_Some in H as ([j sh'] & Hq' & ->). eauto.
Qed.

Lemma counter_of_locked shards locked q k sh t :
  locked_from shards locked -> locked !! q = Some (shard_index shards k, sh) ->
  key_counter shards k t = pview locked q k t
  /\ key_latest shards k = latest_observed_millis sh.
Proof.
  intros Hfrom Hq. unfold key_counter, key_latest, Counters.pview.
  rewrite Hq, (Hfrom _ _ _ Hq). done.
Qed.

(** What a batch may do to the shards it locked before it releases them. *)
Record batch_frame shards (now : Z) locked locked' : Prop := {
  bf_ok : locked_ok now locked';
  bf_fst : locked'.*1 = locked.*1;
  bf_dom : forall q i sh sh', locked !! q = Some (i, sh) -> locked' !! q = Some (i, sh') ->
    sh_capacity sh' = sh_capacity sh
    /\ forall k, is_Some (entries sh' !! k) -> shard_index shards k = i \/ is_Some (entries sh !! k);
}.

Lemma frame_at shards keys f now locked locked' k :
  batch_locked shards keys f locked -> batch_frame shards now locked locked' -> k ∈ keys ->
  exists sh sh', locked !! f k = Some (shard_index shards k, sh)
    /\ locked' !! f k = Some (shard_index shards k, sh').
Proof.
  intros Hbl Hfr Hk. destruct (bl_pos _ _ _ _ Hbl k Hk) as [sh Hq].
  destruct (fst_lookup _ _ _ _ _ (bf_fst _ _ _ _ Hfr) Hq) as [sh' Hq']. eauto.
Qed.

Lemma frame_wf shards keys f now locked locked' :
  sharded_wf shards -> batch_locked shards keys f locked -> batch_frame shards now locked locked' ->
  sharded_wf (release shards locked').
Proof.
  intros Hwf Hbl Hfr. pose proof (bf_fst _ _ _ _ Hfr) as Hfst.
  apply release_sharded_wf; [done|rewrite Hfst; apply Hbl|].
  intros i sh' Hin. apply list_elem_of_lookup in Hin as [q Hq'].
  destruct (fst_lookup _ _ _ _ _ (eq_sym Hfst) Hq') as [sh Hq].
  destruct (bf_dom _ _ _ _ Hfr q i sh sh' Hq Hq') as [Hcap Hk].
  exists sh. split_and!; [by apply (bl_from _ _ _ _ Hbl q)| |done|done].
  apply (locked_ok_at _ _ _ _ _ _ (bf_ok _ _ _ _ Hfr) Hq').
Qed.

(** A released batch leaves its instant in every touched shard. *)
Lemma frame_latest shards keys f o locked locked' :
  sharded_wf shards -> batch_locked shards keys f locked ->
  batch_frame shards (clamp_locked o locked) locked locked' ->
  (forall k, k ∈ keys -> key_latest (release shards locked') k = clamp_locked o locked)
  /\ (forall k, k ∈ keys -> key_latest shards k <= clamp_locked o locked)
  /\ forall k, key_latest shards k <= key_latest (release shards locked') k.
Proof.
  intros Hwf Hbl Hfr. pose proof (bf_fst _ _ _ _ Hfr) as Hfst.
  assert (Hnd : NoDup (locked'.*1)) by (rewrite Hfst; apply Hbl).
  assert (Hin : forall k q sh, locked !! q = Some (shard_index shards k, sh) ->
    key_latest (release shards locked') k = clamp_locked o locked
    /\ key_latest shards k <= clamp_locked o locked).
  { intros k q sh Hq. destruct (fst_lookup _ _ _ _ _ Hfst Hq) as [sh' Hq'].
    destruct (released_at shards locked' q k sh' Hwf Hnd Hq') as (_ & -> & _).
    destruct (counter_of_locked shards locked q k sh 0 (bl_from _ _ _ _ Hbl) Hq) as [_ ->].
    split; [apply (locked_ok_at _ _ _ _ _ _ (bf_ok _ _ _ _ Hfr) Hq')|].
    destruct (clamp_locked_ge o locked) as [_ Hall]. rewrite Forall_lookup in Hall.
    apply (Hall q _ Hq). }
  split_and!.
  - intros k Hk. destruct (bl_pos _ _ _ _ Hbl k Hk) as [sh Hq]. apply (Hin _ _ _ Hq).
  - intros k Hk. destruct (bl_pos _ _ _ _ Hbl k Hk) as [sh Hq]. apply (Hin _ _ _ Hq).
  - intros k. destruct (decide (shard_index shards k ∈ locked.*1)) as [H|H].
    + apply list_elem_of_fmap in H as ([i sh] & Hi & H). simpl in Hi. subst i.
      apply list_elem_of_lookup in H as [q Hq]. destruct (Hin k q sh Hq) as [-> ?]. done.
    + destruct (released_out shards locked' k) as [-> _]; [by rewrite Hfst|lia].
Qed.

(** Outside [touched], agreeing views make agreeing counters. *)
Lemma frame_counter shards keys f now locked locked' (touched : CounterKey -> Prop) :
  sharded_wf shards -> batch_locked shards keys f locked -> batch_frame shards now locked locked' ->
  (forall q k t, now <= t -> ~ touched k -> pview locked' q k t = pview locked q k t) ->
  forall k t, key_latest (release shards locked') k <= t -> ~ touched k ->
    key_counter (release shards locked') k t = key_counter shards k t.
Proof.
  intros Hwf Hbl Hfr Hv k t Ht Hk. pose proof (bf_fst _ _ _ _ Hfr) as Hfst.
  assert (Hnd : NoDup (locked'.*1)) by (rewrite Hfst; apply Hbl).
  destruct (decide (shard_index shards k ∈ locked.*1)) as [H|H].
  - apply list_elem_of_fmap in H as ([i sh] & Hi & H). simpl in Hi. subst i.
    apply list_elem_of_lookup in H as [q Hq].
    destruct (fst_lookup _ _ _ _ _ Hfst Hq) as [sh' Hq'].
    destruct (released_at shards locked' q k sh' Hwf Hnd Hq') as (_ & Hl & ->).
    destruct (counter_of_locked shards locked q k sh t (bl_from _ _ _ _ Hbl) Hq) as [-> _].
    rewrite Hl in Ht. destruct (locked_ok_at _ _ _ _ _ _ (bf_ok _ _ _ _ Hfr) Hq') as [_ <-] in Hv.
    by apply Hv.
  - destruct (released_out shards locked' k) as [_ ->]; [by rewrite Hfst|done].
Qed.

(** Recording the clock and pruning, for every locked shard. *)
Lemma cleanup_frame shards keys f locked counts o elapsed :
  sharded_wf shards -> batch_locked shards keys f locked -> length counts = length locked ->
  let now := clamp_locked o locked in
  exists locked1 effects,
    cleanup_locked config now elapsed locked counts = Done (locked1, effects)
    /\ batch_frame shards now locked locked1
    /\ (forall q k t, now <= t -> pview locked1 q k t = pview locked q k t).
Proof.
  intros Hwf Hbl Hlen now. destruct (clamp_locked_ge o locked) as [_ Hlat].
  assert (Hshok : forall q l, locked !! q = Some l -> shard_ok l.2).
  { intros q [i sh] Hq. pose proof (bl_from _ _ _ _ Hbl q i sh Hq) as Hi.
    destruct Hwf as [_ Hs]. destruct (swf_shard _ _ _ Hs i _ Hi eq_refl) as (H1 & _ & H3).
    split; [done|]. intros k e He. by apply (H3 k e). }
  destruct (cleanup_locked_spec config now elapsed locked counts)
    as (locked1 & effects & Hrun & Hcl & _); [|done|].
  { apply Forall_lookup. intros q l Hq. rewrite Forall_lookup in Hlat.
    split; [by apply (Hshok q l)|by apply (Hlat q l)]. }
  exists locked1, effects. split; [done|]. split; [split|].
  - apply Forall_lookup. intros q l' Hq. destruct (Forall2_lookup_r _ _ _ _ _ Hcl Hq)
      as (l & Hl & _ & Hc). split; [|apply Hc].
    apply (cleaned_ok ok now l.2); [by apply (Hshok q)|done].
  - clear -Hcl. induction Hcl as [|x y l l' [H _] _ IH]; simpl; [done|]. by f_equal.
  - intros q i sh sh' Hq Hq'. destruct (Forall2_lookup_lr _ _ _ _ _ _ Hcl Hq Hq') as [_ Hc].
    split; [apply Hc|]. intros k [e He]. right. exists e. by apply (cl_sub _ _ _ Hc).
  - intros q k t Ht. unfold Counters.pview. destruct (locked !! q) as [l|] eqn:Hq; simpl.
    + destruct (Forall2_lookup_l _ _ _ _ _ Hcl Hq) as (l' & -> & _ & Hc). simpl.
      by apply (cleaned_view payload now).
    + apply lookup_ge_None in Hq. rewrite (Forall2_length _ _ _ Hcl) in Hq.
      apply lookup_ge_None in Hq. by rewrite Hq.
Qed.

(** Consumption after cleanup. *)
Lemma consumed_frame shards keys f now locked locked1 slots locked2 :
  batch_locked shards keys f locked -> batch_frame shards now locked locked1 ->
  consumed_all payload ok now locked1 slots locked2 ->
  (forall k q next, (k, q, next) ∈ slots -> k ∈ keys /\ q = f k) ->
  batch_frame shards now locked locked2.
Proof.
  intros Hbl Hfr Hco Hslots.
  destruct (consumed_all_frame _ _ _ _ _ _ Hco (bf_ok _ _ _ _ Hfr)) as (H1 & H2 & H3).
  split; [done|by rewrite H2; apply Hfr|].
  intros q i sh sh' Hq Hq'.
  destruct (fst_lookup _ _ _ _ _ (bf_fst _ _ _ _ Hfr) Hq) as [sh1 Hq1].
  destruct (bf_dom _ _ _ _ Hfr q i sh sh1 Hq Hq1) as [Hcap Hdom].
  destruct (H3 q _ Hq1) as (l2 & Hq2 & Hcap2 & Hdom2). rewrite Hq' in Hq2. injection Hq2 as <-.
  simpl in *. split; [congruence|]. intros k [Hk|Hk]%Hdom2; [left|by apply Hdom].
  apply list_elem_of_fmap in Hk as ([[k' q'] next] & [= <- <-] & Hin).
  destruct (Hslots _ _ _ Hin) as [Hkeys ->].
  destruct (bl_pos _ _ _ _ Hbl k Hkeys) as [shk Hk]. rewrite Hq in Hk. by injection Hk as ->.
Qed.

(** ** From the loops to the effect of the batch *)

Section BatchEffect.
Context {P : Type} `{QuotaAlgorithm P}.
Implicit Types checks : list (Check P).

Definition verdict_denial (v : verdict) : option QuotaDenial :=
  match v with VDeny q => Some q | _ => None end.

(** The slots of a batch, and the items its scan goes through. *)
Definition batch_slots (f : CounterKey -> nat) checks : list (CounterKey * nat) :=
  (fun c => (Check_counter_key c, f (Check_counter_key c))) <$> checks.

Definition batch_items (f : CounterKey -> nat) (now : Z)
    (before : CounterKey -> Z -> option (Z * Z)) checks
    : list (CounterKey * nat * option QuotaDenial) :=
  (fun c => (Check_counter_key c, f (Check_counter_key c),
     verdict_denial (qa_step c now (before (Check_counter_key c) now)))) <$> checks.

(** The decision a stopped scan is turned into. *)
Definition denied_batch checks (i : nat) (q : QuotaDenial) : BatchDecision :=
  mkBatchDecision
    (if QuotaMode_eqb (default Enforce ((fun c => rp_quota_mode (check_policy c)) <$> checks !! i))
          Shadow
     then BatchOutcome_ShadowDenied i (length checks) q
     else BatchOutcome_Denied i (length checks) (QuotaExceeded q)).

Definition full_batch checks (i : nat) (r : option Delay) : BatchDecision :=
  mkBatchDecision (BatchOutcome_Denied i (length checks) (StorageCapacity r)).

Lemma batch_items_lookup f now before checks j s d :
  batch_items f now before checks !! j = Some (s, d) ->
  exists c, checks !! j = Some c /\ s = (Check_counter_key c, f (Check_counter_key c))
    /\ d = verdict_denial (qa_step c now (before (Check_counter_key c) now)).
Proof.
  unfold batch_items. rewrite list_lookup_fmap. intros (c & -> & [= -> ->])%fmap_Some. eauto.
Qed.

Lemma batch_items_allow f now before checks :
  Forall (fun c => qa_step c now (before (Check_counter_key c) now) <> VOverflow) checks ->
  Forall (fun it => it.2 = None) (batch_items f now before checks) ->
  Forall (fun c => exists next a,
    qa_step c now (before (Check_counter_key c) now) = VAllow next a) checks.
Proof.
  intros Hno Hall. unfold batch_items in Hall. rewrite Forall_fmap in Hall.
  induction Hall as [|c checks Hc _ IH]; constructor; apply Forall_cons in Hno as [Hn Hno].
  - simpl in Hc. destruct (qa_step c now _); [eauto|done|done].
  - by apply IH.
Qed.

Lemma batch_items_slots f now before checks :
  (batch_items f now before checks).*1 = batch_slots f checks.
Proof. unfold batch_items, batch_slots. by rewrite <- list_fmap_compose. Qed.

Lemma batch_slots_keys f checks : (batch_slots f checks).*1 = Check_counter_key <$> checks.
Proof. unfold batch_slots. by rewrite <- list_fmap_compose. Qed.

Lemma batch_items_take f now before checks j :
  take j (batch_items f now before checks) = batch_items f now before (take j checks).
Proof. unfold batch_items. by rewrite fmap_take. Qed.

(** A stopped batch: nothing changes, and the first refused check in caller
    order is the one reported. *)
Lemma batch_effect_stopped checks f now before after seen locked extra res :
  let keys := Check_counter_key <$> checks in
  Forall (fun c => qa_step c now (before (Check_counter_key c) now) <> VOverflow) checks ->
  (forall k, k ∈ keys -> before k now = pview locked (f k) k now) ->
  (forall k t, seen k <= t -> after k t = before k t) ->
  scan_post locked extra 0 (batch_items f now before checks) res ->
  match res with
  | ScanAllowed => True
  | ScanDenied i q => batch_effect checks now (denied_batch checks i q) seen before after
  | ScanFull i sh => forall r, batch_effect checks now (full_batch checks i r) seen before after
  end.
Proof.
  intros keys Hno Hbefore Hsame. destruct res as [|i q|i sh]; [done|..].
  - intros (j & s & -> & Hj & Hall). apply batch_items_lookup in Hj as (c & Hc & _ & Hq).
    rewrite batch_items_take in Hall.
    apply batch_items_allow in Hall; [|by apply Forall_take].
    assert (Hstep : qa_step c now (before (Check_counter_key c) now) = VDeny q).
    { destruct (qa_step c now _); [done| |done]. by injection Hq as ->. }
    unfold batch_effect, denied_batch. simpl. rewrite Hc. simpl. unfold QuotaMode_eqb.
    case_bool_decide as Hm; cbn; (split; [done|]; split; [done|]; exists c).
    + by split_and!.
    + split_and!; [done..|]. left. exists q. split_and!; [done..|].
      by destruct (rp_quota_mode (check_policy c)).
  - intros (j & s & n & -> & Hj & Hall & Hl & Hcon) r.
    apply batch_items_lookup in Hj as (c & Hc & -> & Hq). simpl in Hl, Hcon.
    rewrite batch_items_take in Hall.
    apply batch_items_allow in Hall; [|by apply Forall_take].
    unfold batch_effect, full_batch; cbn. split; [done|]. split; [done|]. exists c.
    split_and!; [done..|]. right. split; [|by eexists].
    rewrite Hbefore by (apply list_elem_of_fmap_2; by eapply list_elem_of_lookup_2).
    unfold Counters.pview. rewrite Hl. by apply view_not_contained.
Qed.

(** A consumed batch: every counter takes its verdict's next value. *)
Lemma batch_effect_allowed shards checks f now locked locked1 locked2
    (nexts : list (Z * Z)) (allowances : list Allowance) :
  let keys := Check_counter_key <$> checks in
  let slots := zip (batch_slots f checks) nexts in
  sharded_wf shards -> batch_locked shards keys f locked ->
  batch_frame shards now locked locked1 -> batch_frame shards now locked locked2 ->
  (forall q k t, now <= t -> pview locked1 q k t = pview locked q k t) ->
  NoDup keys ->
  Forall2 (fun c '(next, a) =>
    qa_step c now (key_counter shards (Check_counter_key c) now) = VAllow next a)
    checks (zip nexts allowances) ->
  length nexts = length allowances ->
  consumed_all payload ok now locked1 slots locked2 ->
  batch_effect checks now (mkBatchDecision (BatchOutcome_Allowed allowances))
    (key_latest (release shards locked2)) (key_counter shards)
    (key_counter (release shards locked2)).
Proof.
  intros keys slots Hwf Hbl Hfr1 Hfr2 Hv1 Hnd Hsteps Hlen Hco.
  assert (Hlen' : length keys = length nexts).
  { apply Forall2_length in Hsteps. rewrite length_zip_with in Hsteps.
    unfold keys. rewrite length_fmap. lia. }
  assert (Hkeys : slots.*1.*1 = keys).
  { unfold slots. rewrite fst_zip; [apply batch_slots_keys|].
    unfold batch_slots. rewrite length_fmap. unfold keys in Hlen'.
    rewrite length_fmap in Hlen'. lia. }
  destruct (consumed_all_views _ _ _ _ _ _ Hco) as [Hset Hframe]; [by rewrite Hkeys|].
  rewrite Hkeys in Hframe. unfold batch_effect; cbn. split.
  - apply Forall2_same_length_lookup_2.
    { apply Forall2_length in Hsteps. rewrite length_zip_with in Hsteps. lia. }
    intros i c a Hc Ha.
    destruct (lookup_lt_is_Some_2 nexts i) as [next Hn];
      [rewrite Hlen; by eapply lookup_lt_Some|].
    assert (Hz : zip nexts allowances !! i = Some (next, a)) by
      (apply lookup_zip_Some; by split).
    pose proof (Forall2_lookup_lr _ _ _ _ _ _ Hsteps Hc Hz) as Hstep. simpl in Hstep.
    exists next. split; [done|]. intros t Ht.
    assert (Hk : Check_counter_key c ∈ keys)
      by (apply list_elem_of_fmap_2; by eapply list_elem_of_lookup_2).
    destruct (frame_at _ _ _ _ _ _ _ Hbl Hfr2 Hk) as (sh & sh' & _ & Hq).
    destruct (released_at shards locked2 (f (Check_counter_key c)) (Check_counter_key c) sh' Hwf) as (_ & _ & ->);
      [rewrite (bf_fst _ _ _ _ Hfr2); apply Hbl|done|].
    apply (Hset _ _ next); [|done]. apply (list_elem_of_lookup_2 _ i). unfold slots.
    apply lookup_zip_Some. split; [|done]. unfold batch_slots.
    by rewrite list_lookup_fmap, Hc.
  - intros k t Ht Hk. apply (frame_counter shards keys f now locked locked2 (fun k => k ∈ keys));
      [done..| |done|done].
    intros q k' t' Ht' Hk'. rewrite Hframe by done. by apply Hv1.
Qed.

(** The position of each check of a batch, and the counter seen there. *)
Lemma batch_at shards checks f now locked locked1 c :
  batch_locked shards (Check_counter_key <$> checks) f locked ->
  batch_frame shards now locked locked1 ->
  (forall q k t, now <= t -> pview locked1 q k t = pview locked q k t) -> c ∈ checks ->
  (f (Check_counter_key c) < length locked1)%nat
  /\ key_counter shards (Check_counter_key c) now
     = pview locked1 (f (Check_counter_key c)) (Check_counter_key c) now.
Proof.
  intros Hbl Hfr Hv Hin.
  destruct (frame_at _ _ _ _ _ _ (Check_counter_key c) Hbl Hfr) as (sh & sh' & Hq & Hq');
    [by apply list_elem_of_fmap_2|].
  split; [by eapply lookup_lt_Some|]. rewrite Hv by lia.
  apply (counter_of_locked _ _ _ _ sh now (bl_from _ _ _ _ Hbl) Hq).
Qed.

(** The scan of a cleaned-up batch. *)
Lemma scan_batch shards checks f now locked locked1 :
  let shards1 := release shards locked1 in
  sharded_wf shards -> batch_locked shards (Check_counter_key <$> checks) f locked ->
  batch_frame shards now locked locked1 ->
  (forall q k t, now <= t -> pview locked1 q k t = pview locked q k t) ->
  Forall (fun c => qa_step c now (key_counter shards (Check_counter_key c) now) <> VOverflow)
    checks ->
  match scan locked1 (replicate (length locked1) 0%nat) 0
          (batch_items f now (key_counter shards) checks) with
  | ScanAllowed =>
      Forall (fun c => exists next a,
        qa_step c now (key_counter shards (Check_counter_key c) now) = VAllow next a) checks
      /\ has_room locked1 (fun q => new_count locked1 q (batch_slots f checks))
  | ScanDenied i q => batch_effect checks now (denied_batch checks i q)
      (key_latest shards1) (key_counter shards) (key_counter shards1)
  | ScanFull i sh => forall r, batch_effect checks now (full_batch checks i r)
      (key_latest shards1) (key_counter shards) (key_counter shards1)
  end.
Proof.
  intros shards1 Hwf Hbl Hfr Hv Hno. pose proof (bf_ok _ _ _ _ Hfr) as Hok1.
  set (pending := replicate (length locked1) 0%nat).
  set (items := batch_items f now (key_counter shards) checks).
  assert (Hscan : scan_post locked1 (fun q => default 0%nat (pending !! q)) 0 items
    (scan locked1 pending 0 items)).
  { apply scan_spec; [|apply length_replicate|by apply (has_room_replicate ok now)].
    unfold items, batch_items. apply Forall_fmap, Forall_forall. intros c Hin.
    by apply (batch_at shards checks f now locked). }
  assert (Hsame : forall k t, key_latest shards1 k <= t ->
    key_counter shards1 k t = key_counter shards k t).
  { intros k t Ht. apply (frame_counter _ _ f now locked locked1 (fun _ => False) Hwf Hbl Hfr);
      [|done|tauto]. intros q k' t' Ht' _. by apply Hv. }
  assert (Hbefore : forall k, k ∈ Check_counter_key <$> checks ->
    key_counter shards k now = pview locked1 (f k) k now).
  { intros k (c & -> & Hin)%list_elem_of_fmap. by apply (batch_at shards checks f now locked). }
  pose proof (batch_effect_stopped checks f now (key_counter shards) (key_counter shards1)
    (key_latest shards1) locked1 _ _ Hno Hbefore Hsame Hscan) as Hstop.
  destruct (scan locked1 pending 0 items) as [|i q|i sh]; [|exact Hstop..].
  destruct Hscan as [Hnone Hroom]. split; [by apply (batch_items_allow f)|].
  intros q l Hq. specialize (Hroom q l Hq). cbv beta in Hroom. unfold items in Hroom.
  rewrite batch_items_slots in Hroom. unfold pending in Hroom.
  rewrite lookup_replicate_2 in Hroom by (by eapply lookup_lt_Some). done.
Qed.

(** The consumption of a cleaned-up batch. *)
Lemma consume_batch shards checks f now locked locked1 locked2
    (nexts : list (Z * Z)) (allowances : list Allowance) :
  sharded_wf shards -> batch_locked shards (Check_counter_key <$> checks) f locked ->
  batch_frame shards now locked locked1 ->
  (forall q k t, now <= t -> pview locked1 q k t = pview locked q k t) ->
  NoDup (Check_counter_key <$> checks) ->
  Forall2 (fun c '(next, a) => qa_step c now
      (pview locked1 (f (Check_counter_key c)) (Check_counter_key c) now) = VAllow next a)
    checks (zip nexts allowances) ->
  length nexts = length allowances ->
  consumed_all payload ok now locked1 (zip (batch_slots f checks) nexts) locked2 ->
  batch_frame shards now locked locked2
  /\ batch_effect checks now (mkBatchDecision (BatchOutcome_Allowed allowances))
       (key_latest (release shards locked2)) (key_counter shards)
       (key_counter (release shards locked2)).
Proof.
  intros Hwf Hbl Hfr Hv Hnd Hsteps Hlen Hcons.
  assert (Hfr2 : batch_frame shards now locked locked2).
  { apply (consumed_frame _ _ _ _ _ _ _ _ Hbl Hfr Hcons). intros k q next Hin.
    apply list_elem_of_lookup in Hin as [j Hj]. apply lookup_zip_Some in Hj as [Hj _].
    unfold batch_slots in Hj. rewrite list_lookup_fmap in Hj.
    apply fmap_Some in Hj as (c & Hcj & [= -> ->]). split; [|done].
    apply list_elem_of_fmap_2. by eapply list_elem_of_lookup_2. }
  split; [done|].
  apply (batch_effect_allowed shards checks f now locked locked1 locked2 nexts allowances);
    try done.
  apply Forall2_same_length_lookup_2; [by apply Forall2_length in Hsteps|].
  intros j c [nx al] Hcj Hz. pose proof (Forall2_lookup_lr _ _ _ _ _ _ Hsteps Hcj Hz) as Hs.
  destruct (batch_at shards checks f now locked locked1 c Hbl Hfr Hv) as [_ ->];
    [by eapply list_elem_of_lookup_2|]. exact Hs.
Qed.
End BatchEffect.
End Store.
