(* ===== verification/Limiter.v ===== *)
(** [runlimit-core/src/limiter.rs]: the contract between a storage backend
    and its clients.  [Limiter] has the trait's two operations as state
    transformers; [CounterLimiter] is what a backend that keeps counters
    promises about them, for clients that never look inside. *)

From S2P Require Import Prelude RustStd Identifier Policy Decision AttemptPolicy Key Check Counters.
Open Scope list_scope.

(** [trait Limiter].  [L] is the backend's state, [Env] what one call reads
    from its environment (clock, latencies, server); a call returns the next
    state and its result, or panics. *)
Class Limiter (L Env P CheckErr BatchErr : Type) := {
  limiter_check : L -> Env -> Check P -> L * Outcome (Result CheckErr Decision);
  limiter_check_all : L -> Env -> list (Check P) -> L * Outcome (Result BatchErr BatchDecision);
}.

(** Nothing a client can see changed. *)
Definition inert (counter counter' : CounterKey -> Z -> option (Z * Z))
    (latest latest' : CounterKey -> Z) : Prop :=
  forall k, latest' k = latest k /\ forall t, counter' k t = counter k t.

(** A backend with counters: every decision is the one the quota algorithm
    makes of the counters before the call, at an instant the backend never
    goes back from, and changes them accordingly; errors and panics change
    nothing. *)
Class CounterLimiter (L Env P CheckErr BatchErr : Type)
    `{Limiter L Env P CheckErr BatchErr} `{QuotaAlgorithm P} := {
  bk_wf : L -> Prop;
  bk_counter : L -> CounterKey -> Z -> option (Z * Z);
  bk_instant : L -> CounterKey -> Z;
  bk_check : forall s env c, bk_wf s -> qa_valid c ->
    let '(s', r) := limiter_check s env c in
    bk_wf s' /\ (forall k, bk_instant s k <= bk_instant s' k)
    /\ match r with
       | Done (Ok dec) => exists full,
           check_effect c (bk_instant s' (Check_counter_key c)) dec full
             (bk_instant s') (bk_counter s) (bk_counter s')
       | _ => inert (bk_counter s) (bk_counter s') (bk_instant s) (bk_instant s')
       end;
  bk_check_all : forall s env cs, bk_wf s -> Forall qa_valid cs ->
    let '(s', r) := limiter_check_all s env cs in
    bk_wf s' /\ (forall k, bk_instant s k <= bk_instant s' k)
    /\ match r with
       | Done (Ok dec) => exists now,
           cs <> [] /\ NoDup (Check_counter_key <$> cs)
           /\ (forall c, c ∈ cs -> bk_instant s' (Check_counter_key c) = now)
           /\ batch_effect cs now dec (bk_instant s') (bk_counter s) (bk_counter s')
       | _ => inert (bk_counter s) (bk_counter s') (bk_instant s) (bk_instant s')
       end;
}.
