(* ===== verification/Ledger.v ===== *)
(** Histories of a counting backend: what a run of checks and batches
    charges to each counter, proved once against [CounterLimiter] for any
    account of the charges that the quota algorithm's steps extend. *)

From S2P Require Import Prelude RustStd Identifier Policy Decision AttemptPolicy Key Check Counters Limiter.
Open Scope list_scope.

(** A charge: counter, instant, cost. *)
Notation charge := (CounterKey * Z * Z)%type.

(** The charges of one counter, as (instant, cost). *)
Definition charges_for (k : CounterKey) (ledger : list charge) : list (Z * Z) :=
  (fun '(_, t, c) => (t, c)) <$> filter (fun x => x.1.1 = k) ledger.

(** Total cost charged in the interval [[a, b)]. *)
Definition charged_in (a b : Z) (l : list (Z * Z)) : Z :=
  zsum (map snd (filter (fun x => a <= x.1 < b) l)).

Lemma charged_cons a b t c l :
  charged_in a b ((t, c) :: l) =
    (if (a <=? t) && (t <? b) then c else 0) + charged_in a b l.
Proof.
  unfold charged_in. rewrite filter_cons. simpl.
  destruct (Z.leb_spec a t), (Z.ltb_spec t b); simpl;
    [rewrite decide_True by lia|rewrite decide_False by lia..]; simpl; lia.
Qed.

(** Nothing is charged from an instant that every charge precedes. *)
Lemma charged_none a b l : (forall y, y ∈ l -> y.1 < a) -> charged_in a b l = 0.
Proof.
  intros Hall. induction l as [|[t c] l IH]; [done|]. rewrite charged_cons, IH.
  - pose proof (Hall (t, c) ltac:(by left)) as Ht. simpl in Ht.
    destruct (Z.leb_spec a t); [lia|done].
  - intros y Hy. apply Hall. by right.
Qed.

(** The end of the interval does not matter after the last charge. *)
Lemma charged_until a b b' l :
  (forall y, y ∈ l -> y.1 < b /\ y.1 < b') -> charged_in a b l = charged_in a b' l.
Proof.
  intros Hall. induction l as [|[t c] l IH]; [done|]. rewrite !charged_cons, IH.
  - pose proof (Hall (t, c) ltac:(by left)) as Ht. simpl in Ht.
    destruct (Z.ltb_spec t b), (Z.ltb_spec t b'); done || lia.
  - intros y Hy. apply Hall. by right.
Qed.

Lemma charges_for_app k l1 l2 : charges_for k (l1 ++ l2) = charges_for k l1 ++ charges_for k l2.
Proof. unfold charges_for. by rewrite filter_app, fmap_app. Qed.

Section Runs.
Context {L Env P CheckErr BatchErr : Type} `{CounterLimiter L Env P CheckErr BatchErr}.

Inductive limiter_event :=
| EvCheck (env : Env) (c : Check P)
| EvBatch (env : Env) (cs : list (Check P)).

Definition charge_of (s' : L) (c : Check P) : charge :=
  (Check_counter_key c, bk_instant s' (Check_counter_key c), check_cost c).

(** The charges an allowed decision stands for. *)
Definition decision_charges (s' : L) (c : Check P) (r : Outcome (Result CheckErr Decision))
    : list charge :=
  match r with
  | Done (Ok dec) =>
      match Decision_view dec with
      | DecisionView_Allowed _ => [charge_of s' c]
      | _ => []
      end
  | _ => []
  end.

Definition batch_charges (s' : L) (cs : list (Check P))
    (r : Outcome (Result BatchErr BatchDecision)) : list charge :=
  match r with
  | Done (Ok dec) =>
      match BatchDecision_view dec with
      | BatchDecisionView_Allowed _ => charge_of s' <$> cs
      | _ => []
      end
  | _ => []
  end.

Definition event_step (s : L) (e : limiter_event) : L * list charge :=
  match e with
  | EvCheck env c =>
      let '(s', r) := limiter_check s env c in (s', decision_charges s' c r)
  | EvBatch env cs =>
      let '(s', r) := limiter_check_all s env cs in (s', batch_charges s' cs r)
  end.

(** The ledger of a run, newest charges first. *)
Fixpoint run (s : L) (ledger : list charge) (events : list limiter_event) : L * list charge :=
  match events with
  | [] => (s, ledger)
  | e :: events =>
      let '(s', charges) := event_step s e in run s' (charges ++ ledger) events
  end.

Lemma run_app s ledger events1 events2 :
  run s ledger (events1 ++ events2) =
    let '(s', ledger') := run s ledger events1 in run s' ledger' events2.
Proof.
  revert s ledger. induction events1 as [|e events1 IH]; intros s ledger; simpl; [done|].
  destruct (event_step s e) as [s' charges]. apply IH.
Qed.

Definition event_checks (e : limiter_event) : list (Check P) :=
  match e with EvCheck _ c => [c] | EvBatch _ cs => cs end.

(** ** Accounts

    An account relates the charges of a counter to its last value; every
    allowed step must extend it.  [mine c] says which checks the counter is
    for. *)

Definition extends (mine : Check P -> Prop) (acct : list (Z * Z) -> option (Z * Z) -> Prop)
    : Prop :=
  forall l cur c now next a,
    acct l cur -> (forall y, y ∈ l -> y.1 <= now) -> qa_valid c -> mine c ->
    qa_step c now (cur ≫= expire now) = VAllow next a ->
    acct ((now, check_cost c) :: l) (Some next).

Record account (mine : Check P -> Prop) (acct : list (Z * Z) -> option (Z * Z) -> Prop)
    : Prop := {
  ac_nil : acct [] None;
  ac_step : extends mine acct;
}.

Section Account.
Context (mine : Check P -> Prop) (acct : list (Z * Z) -> option (Z * Z) -> Prop)
  (Hacct : extends mine acct) (k : CounterKey).

(** The stored counter of [k] is the account of its charges. *)
Definition tracked (s : L) (l : list (Z * Z)) : Prop :=
  exists cur, acct l cur
  /\ (forall y, y ∈ l -> y.1 <= bk_instant s k)
  /\ forall t, bk_instant s k <= t -> bk_counter s k t = (cur ≫= expire t).

(** A counter no charge is made to. *)
Lemma tracked_same s s' l :
  bk_instant s k <= bk_instant s' k ->
  (forall t, bk_instant s' k <= t -> bk_counter s' k t = bk_counter s k t) ->
  tracked s l -> tracked s' l.
Proof.
  intros Hlat Hc (cur & H1' & H2' & H3'). exists cur. split_and!; [done|..].
  - intros y Hy. specialize (H2' y Hy). lia.
  - intros t Ht. rewrite Hc by done. apply H3'. lia.
Qed.

Lemma tracked_inert s s' l :
  inert (bk_counter s) (bk_counter s') (bk_instant s) (bk_instant s') ->
  tracked s l -> tracked s' l.
Proof.
  intros Hi. destruct (Hi k) as [Hlat Hc]. apply tracked_same; [lia|]. intros t _. apply Hc.
Qed.

(** A counter that an allowance charges. *)
Lemma tracked_charge s s' l c next a :
  qa_valid c -> mine c -> bk_instant s k <= bk_instant s' k ->
  qa_step c (bk_instant s' k) (bk_counter s k (bk_instant s' k)) = VAllow next a ->
  (forall t, bk_instant s' k <= t -> bk_counter s' k t = expire t next) ->
  tracked s l -> tracked s' ((bk_instant s' k, check_cost c) :: l).
Proof.
  intros Hv Hm Hlat Hstep Hc (cur & H1' & H2' & H3'). rewrite H3' in Hstep by done.
  assert (Htimes : forall y, y ∈ l -> y.1 <= bk_instant s' k).
  { intros y Hy. specialize (H2' y Hy). lia. }
  exists (Some next). split_and!; [by apply (Hacct l cur c _ next a)| |done].
  intros y [->|Hy]%elem_of_cons; [done|by apply Htimes].
Qed.

Lemma charges_for_one s' c :
  charges_for k [charge_of s' c] =
    if decide (Check_counter_key c = k) then [(bk_instant s' k, check_cost c)] else [].
Proof.
  unfold charges_for, charge_of. rewrite filter_cons. simpl.
  destruct (decide (Check_counter_key c = k)) as [->|]; done.
Qed.

Lemma charges_for_batch s' cs :
  NoDup (fmap Check_counter_key cs) ->
  ((k ∉ fmap Check_counter_key cs) /\ (charges_for k (charge_of s' <$> cs) = []))
  \/ exists c, c ∈ cs /\ Check_counter_key c = k
       /\ charges_for k (charge_of s' <$> cs) = [(bk_instant s' k, check_cost c)].
Proof.
  induction cs as [|c cs IH]; intros Hnd; [left; split; [apply not_elem_of_nil|done]|].
  rewrite fmap_cons in Hnd. apply NoDup_cons in Hnd as [Hni Hnd].
  change (charge_of s' <$> (c :: cs)) with ([charge_of s' c] ++ (charge_of s' <$> cs)).
  rewrite charges_for_app, charges_for_one.
  destruct (IH Hnd) as [[Hk ->]|(c' & Hc' & Hk' & ->)]; case_decide as Hd.
  - right. exists c. split_and!; [by left|done|done].
  - left. split; [|done]. apply not_elem_of_cons. by split.
  - exfalso. apply Hni. rewrite Hd, <- Hk'. by apply list_elem_of_fmap_2.
  - right. exists c'. split_and!; [by right|done|done].
Qed.

Definition own (c : Check P) : Prop := Check_counter_key c = k -> mine c.

Lemma check_step_tracked s env c l :
  bk_wf s -> qa_valid c -> own c -> tracked s l ->
  let '(s', charges) := event_step s (EvCheck env c) in
  bk_wf s' /\ tracked s' (charges_for k charges ++ l).
Proof.
  intros Hwf Hc Hk Htr. simpl. pose proof (bk_check s env c Hwf Hc) as Hstep.
  destruct (limiter_check s env c) as [s' r]. destruct Hstep as (Hwf' & Hmono & Heff).
  split; [done|].
  destruct r as [[dec|e]|]; [|by apply (tracked_inert s)..]. destruct Heff as [full Heff].
  unfold check_effect in Heff. simpl.
  destruct (qa_step _ _ _) as [next a|q|] eqn:Hs; [|destruct Heff as [-> Hv]|done].
  - destruct Heff as [[-> Hv]|(_ & _ & [r ->] & Hv)]; simpl.
    + rewrite charges_for_one. case_decide as Hkc; simpl.
      * rewrite Hkc in Hs, Hv. apply (tracked_charge s s' _ c next a); [done|by apply Hk|done|done| |done].
        intros t Ht. rewrite Hv by done. by rewrite decide_True.
      * apply (tracked_same s); [done| |done]. intros t Ht.
        rewrite Hv by done. by rewrite decide_False.
    + apply (tracked_same s); [done| |done]. intros t Ht. by apply Hv.
  - unfold denied_decision. destruct (QuotaMode_eqb _ _); simpl;
      (apply (tracked_same s); [done| |done]; intros t Ht; by apply Hv).
Qed.

Lemma check_all_step_tracked s env cs l :
  bk_wf s -> Forall qa_valid cs -> Forall own cs -> tracked s l ->
  let '(s', charges) := event_step s (EvBatch env cs) in
  bk_wf s' /\ tracked s' (charges_for k charges ++ l).
Proof.
  intros Hwf Hc Hk Htr. simpl. pose proof (bk_check_all s env cs Hwf Hc) as Hstep.
  destruct (limiter_check_all s env cs) as [s' r]. destruct Hstep as (Hwf' & Hmono & Heff).
  split; [done|].
  destruct r as [[dec|e]|]; [|by apply (tracked_inert s)..].
  destruct Heff as (now & _ & Hnd & Hnow & Heff). unfold batch_effect in Heff.
  cbn [batch_charges]. destruct (BatchDecision_view dec) as [allowances|i n q|i n q]; simpl.
  2-3: destruct Heff as (_ & Hsame & _);
    (apply (tracked_same s); [done| |done]); intros t' Ht'; by apply Hsame.
  destruct Heff as [Hall Hother].
  destruct (charges_for_batch s' cs Hnd) as [[Hni ->]|(c & Hcin & Hck & ->)].
  - apply (tracked_same s); [done| |done]. intros t' Ht'. by apply Hother.
  - pose proof (Hnow c Hcin) as Hn. apply list_elem_of_lookup in Hcin as [j Hj].
    destruct (Forall2_lookup_l _ _ _ _ _ Hall Hj) as (a & _ & next & Hs & Hv').
    rewrite Forall_lookup in Hc, Hk. rewrite Hck in *.
    apply (tracked_charge s s' _ c next a);
      [by apply (Hc j)|by apply (Hk j)|done|by rewrite Hn|by rewrite Hn|done].
Qed.

Lemma run_tracked s ledger events :
  bk_wf s ->
  Forall (fun e => Forall qa_valid (event_checks e) /\ Forall own (event_checks e)) events ->
  tracked s (charges_for k ledger) ->
  let '(s', ledger') := run s ledger events in
  bk_wf s' /\ tracked s' (charges_for k ledger').
Proof.
  intros Hwf Hev. revert s ledger Hwf.
  induction Hev as [|e events [Hc Hk] _ IH]; intros s ledger Hwf Htr; simpl; [by split|].
  assert (Hstep : let '(s', charges) := event_step s e in
    bk_wf s' /\ tracked s' (charges_for k charges ++ charges_for k ledger)).
  { destruct e as [env c|env cs]; simpl event_checks in *.
    - apply Forall_cons_1 in Hc as [Hc _]. apply Forall_cons_1 in Hk as [Hk _].
      by apply check_step_tracked.
    - by apply check_all_step_tracked. }
  destruct (event_step s e) as [s' charges]. destruct Hstep as [Hwf' Htr'].
  apply IH; [done|]. by rewrite charges_for_app.
Qed.

End Account.

(** From an empty backend, the charges of the counter have an account. *)
Lemma run_account mine acct (Hacct : account mine acct) k s events :
  bk_wf s -> (forall t, bk_counter s k t = None) ->
  Forall (fun e => Forall qa_valid (event_checks e) /\ Forall (own mine k) (event_checks e))
    events ->
  let '(s', ledger) := run s [] events in
  bk_wf s' /\ tracked acct k s' (charges_for k ledger).
Proof.
  intros Hwf Hempty Hev.
  apply (run_tracked mine acct (ac_step _ _ Hacct) k s [] events Hwf Hev).
  exists None. split_and!; [apply Hacct| |done].
  intros y Hy. by apply not_elem_of_nil in Hy.
Qed.
End Runs.
Arguments limiter_event Env P : clear implicits.
