(* ===== verification/Windows.v ===== *)
(** Anchored windows: what a fixed-window quota lets through.  The charges of
    a counter fall into consecutive windows, each opened by its first charge
    and limited; the bound on any interval follows from the definition alone,
    so every backend proves only that its charges are anchored. *)

From S2P Require Import Prelude RustStd Ledger.
Open Scope list_scope.

(** The charges of a counter (newest first) fall into consecutive windows of
    length [W], each opened by its first charge and totalling at most [L];
    the second argument is the newest window: its total and its end. *)
Inductive anchored (L W : Z) : list (Z * Z) -> option (Z * Z) -> Prop :=
| anchored_nil : anchored L W [] None
| anchored_open t c l cur :
    anchored L W l cur -> (forall u x, cur = Some (u, x) -> x <= t) -> 0 < c <= L ->
    anchored L W ((t, c) :: l) (Some (c, t + W))
| anchored_add t c l u x :
    anchored L W l (Some (u, x)) -> x - W <= t < x -> (forall y, y ∈ l -> y.1 <= t) ->
    0 < c -> u + c <= L ->
    anchored L W ((t, c) :: l) (Some (u + c, x)).

(** Bounds on the newest charges. *)
Lemma anchored_bounds L W l cur : 0 < W -> 0 <= L -> anchored L W l cur ->
  match cur with
  | None => l = []
  | Some (u, x) =>
      u <= L /\ (forall y, y ∈ l -> y.1 < x)
      /\ (forall a b, x - W <= a -> charged_in a b l <= u)
      /\ (forall a b, x - 2 * W <= a -> charged_in a b l <= u + L)
  end.
Proof.
  intros HW HL. induction 1 as [|t c l cur Han IH Hcur Hc|t c l u x Han IH Ht Hall Hc Hu]; [done|..].
  - assert (Hbound : forall a b, t - W <= a -> charged_in a b l <= L).
    { intros a b Ha. destruct cur as [[u x]|]; [|subst l; unfold charged_in; simpl; lia].
      destruct IH as (Hu & _ & Hb & _). specialize (Hcur u x eq_refl).
      specialize (Hb a b). lia. }
    assert (Hzero : forall a b, t <= a -> charged_in a b l <= 0).
    { intros a b Ha. destruct cur as [[u x]|]; [|subst l; unfold charged_in; simpl; lia].
      destruct IH as (_ & Hlt & _). specialize (Hcur u x eq_refl). unfold charged_in.
      assert (filter (fun y : Z * Z => a <= y.1 < b) l = []) as ->; [|simpl; lia].
      destruct (filter _ l) as [|y l'] eqn:Hf; [done|]. exfalso.
      assert (Hy : y ∈ filter (fun y : Z * Z => a <= y.1 < b) l) by (rewrite Hf; by left).
      apply list_elem_of_filter in Hy as [Hy1 Hy2]. specialize (Hlt y Hy2). lia. }
    split_and!; [lia| |..].
    + intros y [->|Hy]%elem_of_cons; simpl; [lia|].
      destruct cur as [[u x]|]; [|subst l; by apply not_elem_of_nil in Hy].
      destruct IH as (_ & Hlt & _). specialize (Hcur u x eq_refl). specialize (Hlt y Hy). lia.
    + intros a b Ha. rewrite charged_cons. specialize (Hzero a b).
      destruct ((a <=? t) && (t <? b)); lia.
    + intros a b Ha. rewrite charged_cons. specialize (Hbound a b).
      destruct ((a <=? t) && (t <? b)); lia.
  - destruct IH as (Hu' & Hlt & Hb1 & Hb2). split_and!; [lia| |..].
    + intros y [->|Hy]%elem_of_cons; simpl; [lia|by apply Hlt].
    + intros a b Ha. rewrite charged_cons. specialize (Hb1 a b Ha).
      destruct ((a <=? t) && (t <? b)); lia.
    + intros a b Ha. rewrite charged_cons. specialize (Hb2 a b Ha).
      destruct ((a <=? t) && (t <? b)); lia.
Qed.

Lemma anchored_interval L W l cur a : 0 < W -> 0 <= L -> anchored L W l cur ->
  charged_in a (a + W) l <= 2 * L.
Proof.
  intros HW HL. induction 1 as [|t c l cur Han IH Hcur Hc|t c l u x Han IH Ht Hall Hc Hu].
  - unfold charged_in. simpl. lia.
  - destruct (Z.ltb_spec t (a + W)) as [Hin|Hout].
    + pose proof (anchored_bounds L W _ _ HW HL (anchored_open L W t c l cur Han Hcur Hc))
        as (_ & _ & _ & Hb). specialize (Hb a (a + W)). lia.
    + rewrite charged_cons. destruct (Z.ltb_spec t (a + W)); [lia|].
      rewrite andb_false_r. lia.
  - destruct (Z.ltb_spec t (a + W)) as [Hin|Hout].
    + pose proof (anchored_bounds L W _ _ HW HL (anchored_add L W t c l u x Han Ht Hall Hc Hu))
        as (_ & _ & _ & Hb). specialize (Hb a (a + W)). lia.
    + rewrite charged_cons. destruct (Z.ltb_spec t (a + W)); [lia|].
      rewrite andb_false_r. lia.
Qed.

(** ** Reported charges

    What callers are told of the charges: an interval of time that holds the
    charge, and its cost.  Some charges may have no report. *)

Notation report := (Z * Z * Z)%type.

Definition reports (r : report) (x : Z * Z) : Prop :=
  let '(from, until, cost) := r in cost = x.2 /\ from <= x.1 <= until.

Definition reported_by (rs : list report) (charges : list (Z * Z)) : Prop :=
  exists chosen, sublist chosen charges /\ Forall2 reports rs chosen.

(** Total cost reported of calls within the interval [[a, b)]. *)
Definition reported_in (a b : Z) (rs : list report) : Z :=
  zsum (map snd (filter (fun r => a <= r.1.1 /\ r.1.2 < b) rs)).

Lemma reported_by_nil : reported_by [] [].
Proof. exists []. by split. Qed.

Lemma reported_by_skip rs x charges : reported_by rs charges -> reported_by rs (x :: charges).
Proof. intros (chosen & Hs & Hr). exists chosen. split; [by constructor|done]. Qed.

Lemma reported_by_cons r rs x charges :
  reports r x -> reported_by rs charges -> reported_by (r :: rs) (x :: charges).
Proof. intros Hx (chosen & Hs & Hr). exists (x :: chosen). split; by constructor. Qed.

Lemma charged_sublist a b l l' :
  (forall y, y ∈ l' -> 0 <= y.2) -> sublist l l' -> charged_in a b l <= charged_in a b l'.
Proof.
  intros Hpos Hs. induction Hs as [|[t c] l l' Hs IH|[t c] l l' Hs IH]; [done|..];
    rewrite ?charged_cons; specialize (IH (fun y Hy => Hpos y ltac:(by right)));
    pose proof (Hpos (t, c) ltac:(by left)) as Hc; cbn in Hc;
    destruct ((a <=? t) && (t <? b)); lia.
Qed.

Lemma reported_le a b rs charges :
  (forall y, y ∈ charges -> 0 <= y.2) -> reported_by rs charges ->
  reported_in a b rs <= charged_in a b charges.
Proof.
  intros Hpos (chosen & Hs & Hr). etrans; [|by apply (charged_sublist a b chosen)].
  assert (Hpos' : forall y, y ∈ chosen -> 0 <= y.2).
  { intros y Hy. apply Hpos. eapply elem_of_sublist; done. }
  clear Hs Hpos. induction Hr as [|[[from until] c] [t c'] rs l [Hc Ht] _ IH]; [done|].
  cbn in Hc, Ht. subst c'. rewrite charged_cons. unfold reported_in in *. rewrite filter_cons. cbn [fst snd].
  specialize (IH (fun y Hy => Hpos' y ltac:(by right))).
  pose proof (Hpos' (t, c) ltac:(by left)) as Hc. cbn in Hc.
  case_decide as Hin.
  - destruct Hin as [Ha Hb]. rewrite (proj2 (Z.leb_le a t)), (proj2 (Z.ltb_lt t b)) by lia.
    rewrite map_cons. cbn [snd andb zsum foldr] in *. unfold zsum in *. lia.
  - destruct ((a <=? t) && (t <? b)); lia.
Qed.

(** Every charge of an anchored account is positive. *)
Lemma anchored_positive L W l cur : anchored L W l cur -> forall y, y ∈ l -> 0 <= y.2.
Proof.
  induction 1 as [|t c l cur _ IH _ Hc|t c l u x _ IH _ _ Hc _]; intros y Hy;
    [by apply not_elem_of_nil in Hy|..]; apply elem_of_cons in Hy as [->|Hy];
    cbn; [lia|by apply IH|lia|by apply IH].
Qed.
