(* ===== verification/MemStore.v ===== *)
(** [runlimit-memory/src/store.rs]: the sharded, hard-bounded fixed-window
    store, as state transformers over its configuration and shards. *)

From S2P Require Import Prelude RustStd Identifier Policy Decision AttemptPolicy Key Check Observation OrdSet MemConfig Shards BoundedShards Counters Limiter.
From Stdlib Require Import Sorting.Sorted.
Open Scope list_scope.

(** What one call reads from outside: the clock (which may panic), and the
    latencies it measures. *)
Record MemEnv := mkMemEnv {
  env_now : Outcome Duration;
  env_cleanup_elapsed : nat -> Duration;
  env_elapsed : Duration;
}.

(** [struct Evaluation]. *)
Record MemEvaluation (T F : Type) := mkMemEvaluation {
  ev_value : T;
  ev_effect : F;
}.
Arguments mkMemEvaluation {T F} _ _.
Arguments ev_value {T F} _.
Arguments ev_effect {T F} _.

(** [observe_shard_effect], [observe_shard_effects] and [observe_admission]:
    what the store's observer, if it has one, is shown. *)
Definition observe_shard_effect (observer : bool) (effect : ShardEffect) : list Observation :=
  if negb observer then [] else
  [ Observation_Cleanup
      (mkCleanupObservation (ce_requested (she_cleanup effect))
         (CleanupOutcome_Confirmed (usize_to_u64 (ce_removed (she_cleanup effect))))
         (ce_elapsed (she_cleanup effect)));
    Observation_Capacity
      (mkCapacityObservation (usize_to_u64 (she_used effect))
         (usize_to_u64 (she_capacity effect)) (she_shard_index effect)) ].

Definition observe_shard_effects (observer : bool) (effects : list ShardEffect)
    : list Observation := effects ≫= observe_shard_effect observer.

Definition observe_admission (observer : bool) (observation : AdmissionObservation)
    : list Observation :=
  if negb observer then [] else [Observation_Admission observation].

Module MemoryStore.

Record Entry := mkEntry { used : Z }.

Record PreparedCheck := mkPreparedCheck {
  input_index : nat;
  counter_key : CounterKey;
  shard_position : nat;
  limit : Capacity;
  window_millis : Z;
  cost : Z;
}.

(** [PreparedCheck::new]. *)
Definition PreparedCheck_new (input_index : nat) (check : Check FixedWindowPolicy)
    (shard_position : nat) : PreparedCheck :=
  mkPreparedCheck input_index (Check_counter_key check) shard_position
    (fw_limit (check_policy check)) (QuotaPeriod_millis (fw_window (check_policy check)))
    (check_cost check).

Definition remaining_quota (limit : Capacity) (used : Z) : Z :=
  saturating_sub (Capacity_get limit) used.

Definition duration_from_millis (millis : Z) : Outcome Duration :=
  millis ← expect (try_from u64_max millis);
  mret (from_millis millis).

Definition allowance (limit : Capacity) (available : Z) (replenishes_after : Duration)
    : Outcome Allowance := expect_ok (Allowance_new limit available replenishes_after).

Definition quota_denial (shard : Shard Entry) (check : PreparedCheck) (now_millis : Z)
    : Outcome (option QuotaDenial) :=
  match active_entry shard (counter_key check) now_millis with
  | None => Done None
  | Some (entry, expires_at_millis) =>
      let remaining := remaining_quota (limit check) (used entry) in
      if remaining <? cost check then
        retry_after ← duration_from_millis (saturating_sub expires_at_millis now_millis);
        mret (Some (QuotaDenial_new (limit check) retry_after))
      else Done None
  end.

Definition consume (shard : Shard Entry) (check : PreparedCheck) (now_millis : Z)
    : Outcome (Shard Entry * Allowance) :=
  let expires_at_millis := now_millis + window_millis check in
  match active_entry shard (counter_key check) now_millis with
  | Some (entry, active_expires_at_millis) =>
      let remaining := remaining_quota (limit check) (used entry) in
      shard ← expect (update_value shard (counter_key check)
                (fun entry => mkEntry (saturating_add u64_max (used entry) (cost check))));
      replenishes_after ← duration_from_millis
                            (saturating_sub active_expires_at_millis now_millis);
      a ← allowance (limit check) (saturating_sub remaining (cost check)) replenishes_after;
      mret (shard, a)
  | None =>
      let shard := replace shard (counter_key check) (mkEntry (cost check)) expires_at_millis in
      replenishes_after ← duration_from_millis (saturating_sub expires_at_millis now_millis);
      a ← allowance (limit check) (remaining_quota (limit check) (cost check)) replenishes_after;
      mret (shard, a)
  end.

Record MemoryStore := mkMemoryStore {
  config : MemoryStoreConfig;
  shards : BoundedShards Entry;
  observer : bool;
}.

(** [MemoryStoreBuilder::build]; the clock is read through [MemEnv]. *)
Definition build (config : MemoryStoreConfig) : MemoryStore :=
  mkMemoryStore config (BoundedShards_new config) false.
Definition with_observer (self : MemoryStore) : MemoryStore :=
  mkMemoryStore (config self) (shards self) true.
Definition with_shards (self : MemoryStore) (shards : BoundedShards Entry) : MemoryStore :=
  mkMemoryStore (config self) shards (observer self).

(** ** One check *)

(** The critical section of [check_inner], from the clock reading on. *)
Definition check_locked (config : MemoryStoreConfig) (check : Check FixedWindowPolicy)
    (shard_index : nat) (shard : Shard Entry) (now : Duration) (elapsed : nat -> Duration)
    : Outcome (Shard Entry * MemEvaluation Decision ShardEffect) :=
  let counter_key := Check_counter_key check in
  let prepared := PreparedCheck_new 0 check 0 in
  let observed_millis := as_millis now in
  let now_millis := Z.max observed_millis (latest_observed_millis shard) in
  let shard := record_observed_millis now_millis shard in
  let cleanup_requested := max_expired_removals_per_check config in
  '(shard, cleanup_removed) ← prune_expired shard now_millis cleanup_requested;
  denial ← quota_denial shard prepared now_millis;
  '(shard, decision) ←
    match denial with
    | Some denial =>
        Done (shard, if QuotaMode_eqb (fw_quota_mode (check_policy check)) Shadow
                     then Decision_shadow_denied denial
                     else Decision_denied (QuotaExceeded denial))
    | None =>
        if negb (contains_key shard counter_key) && Nat.leb (sh_capacity shard) (Shard_used shard)
        then
          denial ← storage_capacity_denial shard now_millis;
          mret (shard, Decision_denied denial)
        else
          '(shard, a) ← consume shard prepared now_millis;
          mret (shard, Decision_allowed a)
    end;
  mret (shard, mkMemEvaluation decision
    (mkShardEffect shard_index
       (mkCleanupEffect cleanup_requested cleanup_removed (elapsed shard_index))
       (Shard_used shard) (sh_capacity shard))).

Definition check_inner (self : MemoryStore) (env : MemEnv) (check : Check FixedWindowPolicy)
    : MemoryStore * Outcome (Result PoisonedShardError (MemEvaluation Decision ShardEffect)) :=
  let index := shard_index (shards self) (Check_counter_key check) in
  match lock_shard (shards self) index with
  | Panic => (self, Panic)
  | Done (Err e) => (self, Done (Err e))
  | Done (Ok shard) =>
      match now ← env_now env;
            check_locked (config self) check index shard now (env_cleanup_elapsed env) with
      | Panic => (with_shards self (poison (shards self) [index]), Panic)
      | Done (shard, evaluation) =>
          (with_shards self (release (shards self) [(index, shard)]), Done (Ok evaluation))
      end
  end.

(** [MemoryStore::check], with the observations it emits. *)
Definition check (self : MemoryStore) (env : MemEnv) (check : Check FixedWindowPolicy)
    : MemoryStore * Outcome (Result PoisonedShardError Decision) * list Observation :=
  let '(self', result) := check_inner self env check in
  match result with
  | Panic => (self', Panic, [])
  | Done (Ok evaluation) =>
      (self', Done (Ok (ev_value evaluation)),
       observe_shard_effect (observer self) (ev_effect evaluation)
       ++ observe_admission (observer self)
            (from_check check (ev_value evaluation) (env_elapsed env)))
  | Done (Err e) =>
      (self', Done (Err e),
       observe_admission (observer self) (failed_check check NotConsumed (env_elapsed env)))
  end.

(** ** Atomic batches *)

(** [PreparedCheck::new] over [checks.iter().enumerate()], from
    [input_index] on. *)
Fixpoint prepare (topology : BatchTopology) (input_index : nat)
    (checks : list (Check FixedWindowPolicy)) : Outcome (list PreparedCheck) :=
  match checks with
  | [] => Done []
  | check :: checks =>
      position ← expect (input_positions topology !! input_index);
      prepared ← prepare topology (S input_index) checks;
      mret (PreparedCheck_new input_index check position :: prepared)
  end.

(** The preflight loop: the first denial, if any. *)
Fixpoint preflight (checks : list (Check FixedWindowPolicy)) (now_millis : Z)
    (locked : LockedShards Entry) (pending_insertions : list nat)
    (prepared : list PreparedCheck) : Outcome (option BatchDecision) :=
  match prepared with
  | [] => Done None
  | check :: prepared =>
      '(_, shard) ← expect (locked !! shard_position check);
      denial ← quota_denial shard check now_millis;
      match denial with
      | Some denial =>
          original ← expect (checks !! input_index check);
          value ← expect_ok
            (if QuotaMode_eqb (fw_quota_mode (check_policy original)) Shadow
             then BatchDecision_shadow_denied (input_index check) (length checks) denial
             else BatchDecision_denied (input_index check) (length checks)
                    (QuotaExceeded denial));
          mret (Some value)
      | None =>
          if negb (contains_key shard (counter_key check)) then
            pending ← expect (pending_insertions !! shard_position check);
            let projected_len := (Shard_used shard + pending)%nat in
            if Nat.leb (sh_capacity shard) projected_len then
              denial ← storage_capacity_denial shard now_millis;
              value ← expect_ok (BatchDecision_denied (input_index check) (length checks) denial);
              mret (Some value)
            else
              preflight checks now_millis locked
                (<[shard_position check := S pending]> pending_insertions) prepared
          else preflight checks now_millis locked pending_insertions prepared
      end
  end.

(** The consumption loop. *)
Fixpoint consume_all (now_millis : Z) (locked : LockedShards Entry)
    (prepared : list PreparedCheck) : Outcome (LockedShards Entry * list Allowance) :=
  match prepared with
  | [] => Done (locked, [])
  | check :: prepared =>
      '(index, shard) ← expect (locked !! shard_position check);
      '(shard, a) ← consume shard check now_millis;
      '(locked, allowances) ←
        consume_all now_millis (<[shard_position check := (index, shard)]> locked) prepared;
      mret (locked, a :: allowances)
  end.

(** The critical section of [check_all_inner]. *)
Definition check_all_locked (config : MemoryStoreConfig)
    (checks : list (Check FixedWindowPolicy)) (topology : BatchTopology)
    (prepared : list PreparedCheck) (locked : LockedShards Entry) (now : Duration)
    (elapsed : nat -> Duration)
    : Outcome (LockedShards Entry * MemEvaluation BatchDecision (list ShardEffect)) :=
  let observed_millis := as_millis now in
  let now_millis := clamp_locked observed_millis locked in
  '(locked, cleanup_effects) ←
    cleanup_locked config now_millis elapsed locked (check_counts topology);
  denied ← preflight checks now_millis locked (replicate (length locked) 0%nat) prepared;
  match denied with
  | Some value =>
      mret (locked, mkMemEvaluation value (collect_shard_effects locked cleanup_effects))
  | None =>
      '(locked, allowances) ← consume_all now_millis locked prepared;
      value ← expect_ok (BatchDecision_allowed allowances);
      mret (locked, mkMemEvaluation value (collect_shard_effects locked cleanup_effects))
  end.

Definition check_all_inner (self : MemoryStore) (env : MemEnv)
    (checks : list (Check FixedWindowPolicy))
    : MemoryStore
      * Outcome (Result MemoryBatchError (MemEvaluation BatchDecision (list ShardEffect))) :=
  match validate_batch checks (max_batch_size (config self)) with
  | Err e => (self, Done (Err (InvalidBatch e)))
  | Ok _ =>
      let indexes := map (fun c => shard_index (shards self) (Check_counter_key c)) checks in
      match BatchTopology_new indexes (config self) with
      | Err e => (self, Done (Err e))
      | Ok topology =>
          match prepared ← prepare topology 0 checks;
                locked ← lock_topology (shards self) topology;
                mret (prepared, locked) with
          | Panic => (self, Panic)
          | Done (_, Err e) => (self, Done (Err (PoisonedShard e)))
          | Done (prepared, Ok locked) =>
              match now ← env_now env;
                    check_all_locked (config self) checks topology prepared locked now
                      (env_cleanup_elapsed env) with
              | Panic =>
                  (with_shards self (poison (shards self) (map bs_index (topology_shards topology))),
                   Panic)
              | Done (locked, evaluation) =>
                  (with_shards self (release (shards self) locked), Done (Ok evaluation))
              end
          end
      end
  end.

(** [MemoryStore::check_all], with the observations it emits. *)
Definition check_all (self : MemoryStore) (env : MemEnv)
    (checks : list (Check FixedWindowPolicy))
    : MemoryStore * Outcome (Result MemoryBatchError BatchDecision) * list Observation :=
  let '(self', result) := check_all_inner self env checks in
  match result with
  | Panic => (self', Panic, [])
  | Done (Ok evaluation) =>
      (self', Done (Ok (ev_value evaluation)),
       observe_shard_effects (observer self) (ev_effect evaluation)
       ++ observe_admission (observer self)
            (from_batch checks (ev_value evaluation) (env_elapsed env)))
  | Done (Err e) =>
      (self', Done (Err e),
       observe_admission (observer self) (failed_batch checks NotConsumed (env_elapsed env)))
  end.

(** ** Bulk operations *)

Definition stats (self : MemoryStore) : Outcome (Result PoisonedShardError MemoryStoreStats) :=
  BoundedShards_stats (shards self) (config self).

Definition clear (self : MemoryStore)
    : MemoryStore * Outcome (Result PoisonedShardError unit) :=
  let '(shards, result) := BoundedShards_clear (shards self) in
  (with_shards self shards, result).

Definition recover_poisoned (self : MemoryStore) : MemoryStore * nat :=
  let '(shards, recovered) := BoundedShards.recover_poisoned (shards self) (config self) in
  (with_shards self shards, recovered).

(** * The abstract fixed-window counter

    A counter is absent, or holds the cost used in the window that ends at
    its expiry.  [fw_step] is what one check does to it. *)

Definition fw_step (limit : Capacity) (window cost now : Z) (current : option (Z * Z))
    : verdict :=
  match current with
  | Some (u, x) =>
      if Z.max 0 (Capacity_get limit - u) <? cost
      then VDeny (QuotaDenial_new limit (from_millis (x - now)))
      else VAllow (u + cost, x)
             (mkAllowance limit (Capacity_get limit - u - cost)
                (Delay_new (from_millis (x - now))))
  | None =>
      VAllow (cost, now + window)
        (mkAllowance limit (Capacity_get limit - cost) (Delay_new (from_millis window)))
  end.

Definition check_step (c : Check FixedWindowPolicy) (now : Z) (current : option (Z * Z))
    : verdict :=
  fw_step (fw_limit (check_policy c)) (QuotaPeriod_millis (fw_window (check_policy c)))
    (check_cost c) now current.

Definition fw_check_valid (c : Check FixedWindowPolicy) : Prop :=
  FixedWindowPolicy_valid (check_policy c) /\ Check_cost_valid c.

#[export] Instance fw_algorithm : QuotaAlgorithm FixedWindowPolicy := {
  qa_valid := fw_check_valid;
  qa_step := check_step;
}.

Definition Entry_ok (e : Entry) : Prop := 0 <= used e <= u64_max.

Notation view := (view used).
Notation shard_ok := (shard_ok Entry_ok).
Notation locked_ok := (locked_ok Entry_ok).
Notation pview := (pview used).
Notation consumed := (consumed used Entry_ok).

Lemma check_step_total c now current : check_step c now current <> VOverflow.
Proof.
  unfold check_step, fw_step. destruct current as [[u x]|]; [|done]. by destruct (_ <? _).
Qed.

(** Numeric facts of a valid check. *)
Lemma fw_check_facts c : fw_check_valid c ->
  1 <= Capacity_get (fw_limit (check_policy c)) <= i64_max
  /\ 1 <= QuotaPeriod_millis (fw_window (check_policy c)) <= MAX_WINDOW_MILLIS
  /\ 1 <= check_cost c <= Capacity_get (fw_limit (check_policy c)).
Proof. intros [(_ & _ & Hl & Hw) Hc]. exact (conj Hl (conj Hw Hc)). Qed.

Lemma duration_from_millis_done m : 0 <= m <= u64_max ->
  duration_from_millis m = Done (from_millis m).
Proof. intros. unfold duration_from_millis, try_from. by rewrite checked_in. Qed.

Lemma allowance_done l av d : av <= Capacity_get l ->
  allowance l av d = Done (mkAllowance l av (Delay_new d)).
Proof. intros. unfold allowance. by rewrite Allowance_new_ok. Qed.

Lemma quota_denial_spec sh c i pos now :
  shard_ok sh -> latest_observed_millis sh = now -> fw_check_valid c ->
  quota_denial sh (PreparedCheck_new i c pos) now =
    Done (verdict_denial (check_step c now (view sh (Check_counter_key c) now))).
Proof.
  intros Hsh Hnow Hc. unfold quota_denial, check_step, fw_step, Counters.view. simpl.
  destruct (active_entry sh (Check_counter_key c) now) as [[e x]|] eqn:Ha; simpl; [|done].
  pose proof (active_expiry_bound _ _ _ _ _ (proj1 Hsh) Ha) as Hx.
  rewrite MAX_WINDOW_MILLIS_val in *. rewrite Hnow in Hx.
  unfold remaining_quota, saturating_sub.
  destruct (Z.ltb_spec (Z.max 0 (Capacity_get (fw_limit (check_policy c)) - used e))
    (check_cost c)); [|done].
  rewrite duration_from_millis_done by (unfold u64_max; lia). simpl.
  by replace (Z.max 0 (x - now)) with (x - now) by lia.
Qed.

(** The two branches of [consume]. *)
Lemma consume_live sh c i pos now e x :
  shard_ok sh -> latest_observed_millis sh = now -> fw_check_valid c ->
  active_entry sh (Check_counter_key c) now = Some (e, x) ->
  check_cost c <= Capacity_get (fw_limit (check_policy c)) - used e ->
  exists sh', consume sh (PreparedCheck_new i c pos) now = Done (sh',
      mkAllowance (fw_limit (check_policy c))
        (Capacity_get (fw_limit (check_policy c)) - used e - check_cost c)
        (Delay_new (from_millis (x - now))))
    /\ consumed (Check_counter_key c) (used e + check_cost c, x) now sh sh'.
Proof.
  intros Hsh Hnow Hc Ha Hle. pose proof (fw_check_facts c Hc) as (Hl & _ & Hcost).
  unfold i64_max in Hl. pose proof (active_ok _ _ _ _ _ _ Hsh Ha) as He. unfold Entry_ok in He.
  pose proof (active_expiry_bound _ _ _ _ _ (proj1 Hsh) Ha) as Hx.
  rewrite MAX_WINDOW_MILLIS_val, Hnow in Hx.
  assert (Hsat : saturating_add u64_max (used e) (check_cost c) = used e + check_cost c)
    by (unfold saturating_add, u64_max; lia).
  set (add := fun entry => mkEntry (saturating_add u64_max (used entry) (check_cost c))).
  destruct (update_consumed used Entry_ok sh (Check_counter_key c) add e x now Hsh Hnow Ha)
    as (sh' & Hupd & Hco); [unfold Entry_ok; simpl; unfold u64_max in *; lia|].
  simpl in Hco. rewrite Hsat in Hco. exists sh'. split; [|done].
  unfold consume. simpl. rewrite Ha. simpl. fold add. rewrite Hupd. simpl.
  unfold remaining_quota, saturating_sub.
  rewrite duration_from_millis_done by (unfold u64_max; lia). simpl.
  rewrite allowance_done by lia.
  replace (Z.max 0 (Z.max 0 (Capacity_get (fw_limit (check_policy c)) - used e) - check_cost c))
    with (Capacity_get (fw_limit (check_policy c)) - used e - check_cost c) by lia.
  by replace (Z.max 0 (x - now)) with (x - now) by lia.
Qed.

Lemma consume_fresh sh c i pos now :
  shard_ok sh -> latest_observed_millis sh = now -> fw_check_valid c ->
  active_entry sh (Check_counter_key c) now = None ->
  is_Some (entries sh !! Check_counter_key c) \/ (Shard_used sh < sh_capacity sh)%nat ->
  let window := QuotaPeriod_millis (fw_window (check_policy c)) in
  exists sh', consume sh (PreparedCheck_new i c pos) now = Done (sh',
      mkAllowance (fw_limit (check_policy c))
        (Capacity_get (fw_limit (check_policy c)) - check_cost c) (Delay_new (from_millis window)))
    /\ consumed (Check_counter_key c) (check_cost c, now + window) now sh sh'.
Proof.
  intros Hsh Hnow Hc Ha Hroom window.
  pose proof (fw_check_facts c Hc) as (Hl & Hw & Hcost). unfold i64_max in Hl.
  fold window in Hw. pose proof MAX_WINDOW_MILLIS_val as Hmax.
  eexists. split; [|apply (replace_consumed used Entry_ok sh _ (mkEntry (check_cost c)));
    [done|done|unfold Entry_ok; simpl; unfold u64_max; lia|lia|done]].
  unfold consume. simpl. rewrite Ha. fold window. unfold saturating_sub, remaining_quota.
  replace (Z.max 0 (now + window - now)) with window by lia.
  rewrite duration_from_millis_done by (unfold u64_max; lia). simpl. unfold saturating_sub.
  rewrite allowance_done by lia.
  by replace (Z.max 0 (Capacity_get (fw_limit (check_policy c)) - check_cost c))
    with (Capacity_get (fw_limit (check_policy c)) - check_cost c) by lia.
Qed.

Lemma consume_spec sh c i pos now next a :
  shard_ok sh -> latest_observed_millis sh = now -> fw_check_valid c ->
  check_step c now (view sh (Check_counter_key c) now) = VAllow next a ->
  is_Some (entries sh !! Check_counter_key c) \/ (Shard_used sh < sh_capacity sh)%nat ->
  exists sh', consume sh (PreparedCheck_new i c pos) now = Done (sh', a)
    /\ consumed (Check_counter_key c) next now sh sh'.
Proof.
  intros Hsh Hnow Hc Hstep Hroom. pose proof (fw_check_facts c Hc) as (_ & _ & Hcost).
  unfold check_step, fw_step, Counters.view in Hstep.
  destruct (active_entry sh (Check_counter_key c) now) as [[e x]|] eqn:Ha; simpl in Hstep.
  - destruct (Z.ltb_spec (Z.max 0 (Capacity_get (fw_limit (check_policy c)) - used e))
      (check_cost c)); [done|]. injection Hstep as <- <-. apply consume_live; [done..|lia].
  - injection Hstep as <- <-. by apply consume_fresh.
Qed.

(** ** One check against the abstract counter *)

Lemma check_locked_spec cfg c idx sh d el :
  shard_ok sh -> fw_check_valid c ->
  let now := Z.max (as_millis d) (latest_observed_millis sh) in
  exists sh' dec eff,
    check_locked cfg c idx sh d el = Done (sh', mkMemEvaluation dec eff)
    /\ shard_ok sh' /\ latest_observed_millis sh' = now /\ sh_capacity sh' = sh_capacity sh
    /\ (forall k, is_Some (entries sh' !! k) -> k = Check_counter_key c \/ is_Some (entries sh !! k))
    /\ check_effect c now dec
         (Shard_used sh' = sh_capacity sh /\ contains_key sh' (Check_counter_key c) = false)
         (fun _ => now) (view sh) (view sh').
Proof.
  intros Hsh Hc now. set (key := Check_counter_key c).
  destruct (cleanup_shard_spec sh now (max_expired_removals_per_check cfg) (proj1 Hsh)
    ltac:(lia)) as (sh1 & r & Hprune & Hcl & _).
  pose proof (cleaned_ok _ _ _ _ Hsh Hcl) as Hsh1. pose proof (cl_latest _ _ _ Hcl) as Hl1.
  assert (Hsame : forall k t, now <= t -> view sh1 k t = view sh k t).
  { intros. by apply (cleaned_view used now). }
  assert (Hdom : forall k, is_Some (entries sh1 !! k) -> k = key \/ is_Some (entries sh !! k)).
  { intros k [e He]. right. exists e. by apply (cl_sub _ _ _ Hcl). }
  unfold check_locked, check_effect. fold now. fold key. rewrite Hprune.
  cbn [mbind Outcome_bind]. rewrite quota_denial_spec by done. fold key.
  rewrite Hsame by lia. change (qa_step c now) with (check_step c now).
  assert (Hcons : forall next a, check_step c now (view sh key now) = VAllow next a ->
    is_Some (entries sh1 !! key) \/ (Shard_used sh1 < sh_capacity sh1)%nat ->
    exists sh', consume sh1 (PreparedCheck_new 0 c 0) now = Done (sh', a)
      /\ consumed key next now sh1 sh').
  { intros next a Hs. rewrite <- Hsame in Hs by lia. by apply consume_spec. }
  destruct (check_step c now (view sh key now)) as [next a|q|] eqn:Hstep;
    cbn [verdict_denial mbind Outcome_bind]; [| |by apply check_step_total in Hstep].
  2:{ eexists _, _, _. split; [done|]. split_and!; [done|done|apply Hcl|done|done|done]. }
  assert (Hok : is_Some (entries sh1 !! key) \/ (Shard_used sh1 < sh_capacity sh1)%nat ->
    exists sh' dec eff,
      ('(shard, a) ← consume sh1 (PreparedCheck_new 0 c 0) now;
       mret (shard, Decision_allowed a)) = Done (sh', dec)
      /\ eff = mkShardEffect idx
           (mkCleanupEffect (max_expired_removals_per_check cfg) r (el idx))
           (Shard_used sh') (sh_capacity sh')
      /\ dec = Decision_allowed a /\ consumed key next now sh1 sh').
  { intros Hroom. destruct (Hcons next a eq_refl Hroom) as (sh' & -> & Hco).
    eexists _, _, _. by split_and!. }
  assert (Hfin : forall sh', consumed key next now sh1 sh' ->
    shard_ok sh' /\ latest_observed_millis sh' = now /\ sh_capacity sh' = sh_capacity sh
    /\ (forall k, is_Some (entries sh' !! k) -> k = key \/ is_Some (entries sh !! k))
    /\ forall k t, now <= t ->
         view sh' k t = if decide (k = key) then expire t next else view sh k t).
  { intros sh' Hco. split_and!; [apply Hco|by rewrite (co_latest _ _ _ _ _ _ _ Hco)| | |].
    - by rewrite (co_capacity _ _ _ _ _ _ _ Hco), (cl_capacity _ _ _ Hcl).
    - intros k [->|H]%(co_dom _ _ _ _ _ _ _ Hco); [by left|by apply Hdom].
    - intros k t Ht. rewrite (co_view _ _ _ _ _ _ _ Hco) by done. by rewrite Hsame. }
  destruct (contains_key sh1 key) eqn:Hcon; cbn [negb andb].
  2: destruct (Nat.leb_spec (sh_capacity sh1) (Shard_used sh1)) as [Hfull|Hroom].
  2:{ destruct (storage_capacity_denial_spec sh1 now (cl_wf _ _ _ Hcl)) as (r' & -> & _); [lia|].
      eexists _, _, _. split; [done|]. split_and!; [done|done|apply Hcl|done|]. right.
      pose proof (wf_bound _ (cl_wf _ _ _ Hcl)) as Hb. pose proof (cl_capacity _ _ _ Hcl).
      unfold Shard_used in *. split_and!; [lia|done| |by eexists|done].
      rewrite <- Hsame by lia. by apply view_not_contained. }
  all: destruct Hok as (sh' & dec & eff & Hrun & -> & -> & Hco);
    [first [by right|left; by apply contains_key_spec]|];
    rewrite Hrun; destruct (Hfin sh' Hco) as (H1 & H2 & H3 & H4 & H5);
    eexists sh', _, _; split; [done|]; split_and!; [done..|by left].
Qed.
(** ** The store *)

Definition store_wf (self : MemoryStore) : Prop := sharded_wf Entry_ok (config self) (shards self).
Definition shard_of (self : MemoryStore) (k : CounterKey) : nat := shard_index (shards self) k.
Definition healthy (self : MemoryStore) : CounterKey -> Shard Entry -> Prop :=
  key_healthy (shards self).
Definition counter_of (self : MemoryStore) : CounterKey -> Z -> option (Z * Z) :=
  key_counter used (shards self).
Definition latest_of (self : MemoryStore) : CounterKey -> Z := key_latest (shards self).

Lemma build_wf config : MemoryStoreConfig_wf config -> store_wf (build config).
Proof. intros H. split; [done|]. apply BoundedShards_new_wf. Qed.

Lemma check_spec (self : MemoryStore) (env : MemEnv) (d : Duration)
    (c : Check FixedWindowPolicy) (sh : Shard Entry) (Hwf : store_wf self)
    (Hc : fw_check_valid c) (Henv : env_now env = Done d)
    (Hsh : healthy self (Check_counter_key c) sh) :
  let now := Z.max (as_millis d) (latest_observed_millis sh) in
  exists self' dec obs,
    check self env c = (self', Done (Ok dec), obs)
    /\ store_wf self'
    /\ (forall k, latest_of self k <= latest_of self' k)
    /\ (exists sh', healthy self' (Check_counter_key c) sh'
         /\ latest_observed_millis sh' = now
         /\ check_effect c now dec
              (Shard_used sh' = shard_capacity (config self) (shard_of self (Check_counter_key c))
               /\ contains_key sh' (Check_counter_key c) = false)
              (latest_of self') (counter_of self) (counter_of self')).
Proof.
  intros now. set (k := Check_counter_key c) in *.
  destruct (healthy_ok _ _ _ k sh Hwf Hsh) as (Hok & Hcap & _).
  destruct (check_locked_spec (config self) c (shard_of self k) sh d (env_cleanup_elapsed env)
    Hok Hc) as (sh' & dec & eff & Hrun & Hok' & Hlat & Hcap' & Hdom & Heff).
  fold now in Hlat, Heff. fold k in Hdom, Heff. rewrite <- Hlat in Heff.
  destruct (check_effect_release used Entry_ok (config self) (shards self) c sh sh' dec _
    Hwf Hsh Hok' ltac:(lia) Hcap' Hdom Heff) as (Hwf' & Hmono & Hh' & Heff').
  eexists (with_shards self (release (shards self) [(shard_of self k, sh')])), dec, _.
  split_and!; [|done|done|].
  - unfold check, check_inner. fold k. fold (shard_of self k).
    unfold lock_shard, shard_of. unfold healthy, key_healthy in Hsh. rewrite Hsh, Henv.
    cbn [expect mbind Outcome_bind mret Outcome_ret is_poisoned guarded].
    fold (shard_of self k). by rewrite Hrun.
  - exists sh'. split_and!; [done|done|]. unfold shard_of. rewrite <- Hcap, <- Hlat.
    exact Heff'.
Qed.

(** C2. The fixed-window store implements the abstract counter. With a
    healthy target shard and any clock reading, [check] never panics, keeps
    the store invariant, and decides and updates exactly as the abstract
    fixed-window counter of its key does at the clamped time: a quota denial
    (enforced or shadowed by the policy's mode) and a capacity denial change
    no counter, an allowance changes the counter of its key and no other.
    Pruning is invisible: no active counter is ever lost.  A capacity denial
    happens only for an absent key in a shard holding its full capacity. *)
Theorem fixed_window_check_refines (self : MemoryStore) (env : MemEnv) (d : Duration)
    (c : Check FixedWindowPolicy) (sh : Shard Entry) (Hwf : store_wf self)
    (Hc : fw_check_valid c) (Henv : env_now env = Done d)
    (Hsh : healthy self (Check_counter_key c) sh) :
  let now := Z.max (as_millis d) (latest_observed_millis sh) in
  exists self' dec obs,
    check self env c = (self', Done (Ok dec), obs)
    /\ store_wf self'
    /\ (exists sh', healthy self' (Check_counter_key c) sh'
         /\ latest_observed_millis sh' = now
         /\ check_effect c now dec
              (Shard_used sh' = shard_capacity (config self) (shard_of self (Check_counter_key c))
               /\ contains_key sh' (Check_counter_key c) = false)
              (latest_of self') (counter_of self) (counter_of self')).
Proof.
  intros now. destruct (check_spec self env d c sh Hwf Hc Henv Hsh)
    as (self' & dec & obs & H1 & H2 & _ & H3). by exists self', dec, obs.
Qed.

(** ** The two loops of a batch *)

(** The prepared checks from input index [i] on. *)
Fixpoint prepared_list (f : CounterKey -> nat) (i : nat) (cs : list (Check FixedWindowPolicy))
    : list PreparedCheck :=
  match cs with
  | [] => []
  | c :: cs => PreparedCheck_new i c (f (Check_counter_key c)) :: prepared_list f (S i) cs
  end.

Lemma prepare_spec t f pre cs :
  input_positions t = map f (map Check_counter_key (pre ++ cs)) ->
  prepare t (length pre) cs = Done (prepared_list f (length pre) cs).
Proof.
  revert pre. induction cs as [|c cs IH]; intros pre Hpos; simpl; [done|].
  assert (Hc : input_positions t !! length pre = Some (f (Check_counter_key c))).
  { rewrite Hpos, map_map. change (map ?f ?l) with (f <$> l). rewrite list_lookup_fmap.
    by rewrite list_lookup_middle. }
  rewrite Hc. simpl. rewrite (cons_middle c pre cs), app_assoc in Hpos.
  specialize (IH (pre ++ [c]) Hpos). rewrite length_app in IH. simpl in IH.
  rewrite Nat.add_1_r in IH. by rewrite IH.
Qed.

(** The preflight loop is the scan of the batch. *)
Lemma preflight_scan checks now f before locked pre cs pending :
  locked_ok now locked -> checks = pre ++ cs -> Forall fw_check_valid cs ->
  Forall (fun c => (f (Check_counter_key c) < length locked)%nat) cs ->
  Forall (fun c => before (Check_counter_key c) now
    = pview locked (f (Check_counter_key c)) (Check_counter_key c) now) cs ->
  length pending = length locked ->
  let run := preflight checks now locked pending (prepared_list f (length pre) cs) in
  match scan locked pending (length pre) (batch_items f now before cs) with
  | ScanAllowed => run = Done None
  | ScanDenied i q => run = Done (Some (denied_batch checks i q))
  | ScanFull i sh => exists r, run = Done (Some (full_batch checks i r))
  end.
Proof.
  intros Hok Hsplit Hc Hpos Hbefore. revert pre pending Hsplit.
  induction cs as [|c cs IH]; intros pre pending Hsplit Hlen; [done|].
  apply Forall_cons in Hc as [Hc1 Hc]. apply Forall_cons in Hpos as [Hp1 Hpos].
  apply Forall_cons in Hbefore as [Hb1 Hbefore].
  destruct (lookup_lt_is_Some_2 _ _ Hp1) as [[n sh] Hl].
  destruct (locked_ok_at _ _ _ _ _ _ Hok Hl) as [Hshok Hlat].
  assert (Hcl : checks !! length pre = Some c) by (rewrite Hsplit; by apply list_lookup_middle).
  assert (Hidx : (length pre < length checks)%nat) by (by eapply lookup_lt_Some).
  assert (Hsnoc : length (pre ++ [c]) = S (length pre)) by (rewrite length_app; simpl; lia).
  assert (Hnext : forall pending', length pending' = length locked ->
    match scan locked pending' (S (length pre)) (batch_items f now before cs) with
    | ScanAllowed => preflight checks now locked pending' (prepared_list f (S (length pre)) cs)
        = Done None
    | ScanDenied i q => preflight checks now locked pending' (prepared_list f (S (length pre)) cs)
        = Done (Some (denied_batch checks i q))
    | ScanFull i s => exists r,
        preflight checks now locked pending' (prepared_list f (S (length pre)) cs)
        = Done (Some (full_batch checks i r))
    end).
  { intros pending' Hlen'. rewrite <- Hsnoc. apply IH; [done..| |done].
    by rewrite Hsplit, <- app_assoc. }
  cbn [prepared_list preflight batch_items fmap list_fmap scan].
  fold (batch_items f now before cs). simpl shard_position. rewrite Hl.
  cbn [expect mbind Outcome_bind]. rewrite quota_denial_spec by done.
  unfold Counters.pview in Hb1. rewrite Hl in Hb1. simpl in Hb1. rewrite Hb1.
  change (qa_step c now) with (check_step c now).
  destruct (verdict_denial (check_step c now (view sh (Check_counter_key c) now))) as [q|];
    cbn [mbind Outcome_bind snd fst].
  - simpl input_index. rewrite Hcl. cbn [expect mbind Outcome_bind].
    unfold denied_batch. rewrite Hcl. simpl.
    destruct (QuotaMode_eqb _ _);
      [rewrite BatchDecision_shadow_denied_ok by done|rewrite BatchDecision_denied_ok by done];
      done.
  - rewrite Hl. simpl counter_key. destruct (contains_key sh (Check_counter_key c)); cbn [negb].
    { by apply Hnext. }
    destruct (lookup_lt_is_Some_2 pending (f (Check_counter_key c))) as [m Hm]; [lia|].
    rewrite Hm. cbn [expect mbind Outcome_bind].
    change (default 0%nat (Some m)) with m.
    destruct (Nat.leb (sh_capacity sh) (Shard_used sh + m)).
    + destruct (storage_capacity_denial_spec sh now (proj1 Hshok) ltac:(lia)) as (r & -> & _).
      cbn [mbind Outcome_bind]. simpl input_index. rewrite BatchDecision_denied_ok by done.
      by exists r.
    + apply Hnext. by rewrite length_insert.
Qed.

(** The consumption loop stores the next counters. *)
Lemma consume_all_spec now f i locked cs :
  locked_ok now locked -> Forall fw_check_valid cs ->
  Forall (fun c => (f (Check_counter_key c) < length locked)%nat) cs ->
  NoDup (Check_counter_key <$> cs) ->
  Forall (fun c => exists next a, check_step c now
    (pview locked (f (Check_counter_key c)) (Check_counter_key c) now) = VAllow next a) cs ->
  has_room locked (fun q => new_count locked q (batch_slots f cs)) ->
  exists locked' nexts allowances,
    consume_all now locked (prepared_list f i cs) = Done (locked', allowances)
    /\ length nexts = length allowances
    /\ Forall2 (fun c '(next, a) => check_step c now
         (pview locked (f (Check_counter_key c)) (Check_counter_key c) now) = VAllow next a)
         cs (zip nexts allowances)
    /\ consumed_all used Entry_ok now locked (zip (batch_slots f cs) nexts) locked'.
Proof.
  revert i locked. induction cs as [|c cs IH]; intros i locked Hok Hc Hpos Hnd Hall Hroom.
  { exists locked, [], []. split_and!; [done|done|constructor|constructor]. }
  apply Forall_cons in Hc as [Hc1 Hc]. apply Forall_cons in Hpos as [Hp1 Hpos].
  apply Forall_cons in Hall as [(next & a & Hstep) Hall].
  rewrite fmap_cons in Hnd. apply NoDup_cons in Hnd as [Hni Hnd].
  destruct (lookup_lt_is_Some_2 _ _ Hp1) as [[n sh] Hl].
  destruct (locked_ok_at _ _ _ _ _ _ Hok Hl) as [Hshok Hlat].
  unfold batch_slots in Hroom. rewrite fmap_cons in Hroom. fold (batch_slots f cs) in Hroom.
  pose proof Hstep as Hstep0. unfold Counters.pview in Hstep. rewrite Hl in Hstep.
  destruct (consume_spec sh c i (f (Check_counter_key c)) now next a Hshok Hlat Hc1 Hstep)
    as (sh' & Hrun & Hco); [by apply (has_room_first locked _ _ _ _ _ Hroom Hl)|].
  set (locked1 := <[f (Check_counter_key c) := (n, sh')]> locked).
  assert (Hlen1 : length locked1 = length locked) by apply length_insert.
  assert (Hsame : forall c', c' ∈ cs -> forall q,
    pview locked1 q (Check_counter_key c') now = pview locked q (Check_counter_key c') now).
  { intros c' Hin q. unfold locked1. rewrite (pview_insert _ _ _ _ _ _ _ _ _ _ _ _ _ Hl Hco) by lia.
    rewrite decide_False; [done|]. intros [_ Hk]. apply Hni. rewrite <- Hk.
    by apply list_elem_of_fmap_2. }
  destruct (IH (S i) locked1) as (locked' & nexts & allowances & Hrec & Hlen & Hsteps & Hcons).
  - by apply (locked_ok_insert used _ _ _ _ _ _ _ _ _ Hok Hl Hco).
  - done.
  - by rewrite Hlen1.
  - done.
  - rewrite Forall_forall in Hall |- *. intros c' Hin. rewrite Hsame by done. by apply Hall.
  - apply (has_room_rest used Entry_ok _ _ _ _ _ _ _ _ _ Hroom Hl Hco). by rewrite batch_slots_keys.
  - exists locked', (next :: nexts), (a :: allowances). split_and!.
    + cbn [prepared_list consume_all]. simpl shard_position. rewrite Hl.
      cbn [expect mbind Outcome_bind]. rewrite Hrun. cbn [mbind Outcome_bind]. fold locked1.
      by rewrite Hrec.
    + simpl. by rewrite Hlen.
    + constructor; [exact Hstep0|].
      apply Forall2_same_length_lookup_2; [by apply Forall2_length in Hsteps|].
      intros j c' [nx al] Hcj Hz. pose proof (Forall2_lookup_lr _ _ _ _ _ _ Hsteps Hcj Hz) as Hs.
      simpl in Hs. rewrite Hsame in Hs by (by eapply list_elem_of_lookup_2). exact Hs.
    + simpl. by apply (consumed_cons _ _ _ _ _ _ n sh sh').
Qed.

(** ** Batches against the abstract counters *)

(** The critical section of a batch, against the counters it was given. *)
Lemma check_all_locked_spec self checks f locked t d env :
  let keys := Check_counter_key <$> checks in
  let now := clamp_locked (as_millis d) locked in
  store_wf self -> batch_locked (shards self) keys f locked ->
  length (check_counts t) = length locked ->
  Forall fw_check_valid checks -> NoDup keys -> checks <> [] ->
  exists locked' dec effs,
    check_all_locked (config self) checks t (prepared_list f 0 checks) locked d
      (env_cleanup_elapsed env) = Done (locked', mkMemEvaluation dec effs)
    /\ batch_frame Entry_ok (shards self) now locked locked'
    /\ batch_effect checks now dec
         (key_latest (release (shards self) locked')) (counter_of self)
         (key_counter used (release (shards self) locked')).
Proof.
  intros keys now Hwf Hbl Hlen Hc Hnd Hne.
  destruct (cleanup_frame used Entry_ok (config self) (shards self) keys f locked (check_counts t)
    (as_millis d) (env_cleanup_elapsed env) Hwf Hbl Hlen) as (locked1 & effects & Hrun & Hfr & Hv).
  fold now in Hrun, Hfr, Hv. pose proof (bf_ok _ _ _ _ _ Hfr) as Hok1.
  assert (Hpos : Forall (fun c => (f (Check_counter_key c) < length locked1)%nat) checks).
  { apply Forall_forall. intros c Hin. by apply (batch_at used _ _ _ _ _ _ _ _ Hbl Hfr Hv). }
  assert (Hbefore : Forall (fun c => counter_of self (Check_counter_key c) now
    = pview locked1 (f (Check_counter_key c)) (Check_counter_key c) now) checks).
  { apply Forall_forall. intros c Hin. by apply (batch_at used _ _ _ _ _ _ _ _ Hbl Hfr Hv). }
  pose proof (preflight_scan checks now f (counter_of self) locked1 [] checks
    (replicate (length locked1) 0%nat) Hok1 eq_refl Hc Hpos Hbefore
    ltac:(apply length_replicate)) as Hpre.
  pose proof (scan_batch used Entry_ok (config self) (shards self) checks f now locked locked1
    Hwf Hbl Hfr Hv ltac:(apply Forall_forall; intros c _; apply check_step_total)) as Hscan.
  unfold check_all_locked. fold now. rewrite Hrun. cbn [mbind Outcome_bind].
  simpl length in Hpre. cbv zeta in Hpre, Hscan. fold (counter_of self) in Hscan.
  destruct (scan _ _ _ _) as [|i q|i sh];
    [|rewrite Hpre; eexists _, _, _; split; [done|]; by split|destruct Hpre as [r ->]; eexists _, _, _; split; [done|]; split; [done|]; apply Hscan].
  rewrite Hpre. destruct Hscan as [Hallow Hroom].
  destruct (consume_all_spec now f 0 locked1 checks Hok1 Hc Hpos Hnd)
    as (locked2 & nexts & allowances & Hcrun & Hlen2 & Hsteps & Hcons); [|done|].
  { rewrite Forall_forall in Hallow, Hbefore |- *. intros c Hin. rewrite <- Hbefore by done.
    by apply Hallow. }
  destruct (consume_batch used Entry_ok (config self) (shards self) checks f now locked locked1
    locked2 nexts allowances Hwf Hbl Hfr Hv Hnd) as [Hfr2 Heff]; [exact Hsteps|done|done|].
  cbn [mbind Outcome_bind]. rewrite Hcrun. cbn [mbind Outcome_bind].
  assert (Hal : BatchDecision_allowed allowances
    = Ok (mkBatchDecision (BatchOutcome_Allowed allowances))).
  { destruct allowances; [|done]. destruct nexts; [|done]. inversion Hsteps. congruence. }
  rewrite Hal. eexists _, _, _. split; [done|]. by split.
Qed.

Lemma check_all_spec (self : MemoryStore) (env : MemEnv) (d : Duration)
    (checks : list (Check FixedWindowPolicy)) (t : BatchTopology) (Hwf : store_wf self)
    (Hc : Forall fw_check_valid checks) (Henv : env_now env = Done d)
    (Hvalid : validate_batch checks (max_batch_size (config self)) = Ok tt)
    (Htop : BatchTopology_new
      (map (fun c => shard_of self (Check_counter_key c)) checks) (config self) = Ok t)
    (Hh : Forall (fun c => exists sh, healthy self (Check_counter_key c) sh) checks) :
  exists self' dec obs now,
    check_all self env checks = (self', Done (Ok dec), obs)
    /\ store_wf self'
    /\ as_millis d <= now
    /\ (forall c, c ∈ checks -> latest_of self (Check_counter_key c) <= now
         /\ latest_of self' (Check_counter_key c) = now)
    /\ (forall k, latest_of self k <= latest_of self' k)
    /\ batch_effect checks now dec (latest_of self') (counter_of self) (counter_of self').
Proof.
  destruct (validate_batch_ok checks _ Hvalid) as (Hlen' & Hnd & _).
  assert (Hne : checks <> []) by (intros ->; simpl in Hlen'; lia).
  pose proof Htop as Htop'. unfold shard_of in Htop'.
  rewrite <- (map_map Check_counter_key (shard_index (shards self))) in Htop'.
  set (f := fun k => partition_point (shard_index (shards self) k) (topology_shards t)).
  destruct (batch_setup Entry_ok (config self) (shards self) _ t Hwf Htop')
    as [(_ & e & _ & k & m & Hk & Hm & Hp)|(Hpos & locked & Hlock & Hlen & Hbl & _)].
  { exfalso. change (map ?g ?l) with (g <$> l) in Hk. apply list_elem_of_fmap in Hk as (c & -> & Hin).
    rewrite Forall_forall in Hh. destruct (Hh c Hin) as [sh Hsh].
    unfold healthy, key_healthy in Hsh. rewrite Hm in Hsh. by injection Hsh as ->. }
  fold f in Hpos, Hbl.
  destruct (check_all_locked_spec self checks f locked t d env Hwf Hbl Hlen Hc Hnd Hne)
    as (locked' & dec & effs & Hrun & Hfr & Heff).
  destruct (frame_latest used _ _ _ _ _ _ _ _ Hwf Hbl Hfr) as (Hl1 & Hl2 & Hl3).
  eexists (with_shards self (release (shards self) locked')), dec, _,
    (clamp_locked (as_millis d) locked). split_and!.
  - unfold check_all, check_all_inner. rewrite Hvalid. unfold shard_of in Htop. rewrite Htop.
    rewrite (prepare_spec t f [] checks Hpos : prepare t 0 checks = _).
    cbn [mbind Outcome_bind]. rewrite Hlock, Henv.
    cbn [mbind Outcome_bind mret Outcome_ret length]. by rewrite Hrun.
  - apply (frame_wf _ _ _ _ _ _ _ _ Hwf Hbl Hfr).
  - apply clamp_locked_ge.
  - intros c Hin. apply (list_elem_of_fmap_2 Check_counter_key) in Hin.
    split; [by apply Hl2|by apply Hl1].
  - exact Hl3.
  - exact Heff.
Qed.

(** C3. Batches are atomic. For a structurally valid batch whose
    shards are healthy, and any clock reading, [check_all] never panics,
    keeps the store invariant, and evaluates every check against the same
    instant [now], which no touched shard has passed.  Either every check is
    allowed by the abstract counter of its key, and then each counter is
    updated and allowances come in caller order; or no counter changes at
    all, and the decision names the first check in caller order that its
    counter (or its shard's hard bound) refuses, every earlier one being
    allowed.  A shadowed denial is only reported for a shadow policy. *)
Theorem fixed_window_batch_atomic (self : MemoryStore) (env : MemEnv) (d : Duration)
    (checks : list (Check FixedWindowPolicy)) (t : BatchTopology) (Hwf : store_wf self)
    (Hc : Forall fw_check_valid checks) (Henv : env_now env = Done d)
    (Hvalid : validate_batch checks (max_batch_size (config self)) = Ok tt)
    (Htop : BatchTopology_new
      (map (fun c => shard_of self (Check_counter_key c)) checks) (config self) = Ok t)
    (Hh : Forall (fun c => exists sh, healthy self (Check_counter_key c) sh) checks) :
  exists self' dec obs now,
    check_all self env checks = (self', Done (Ok dec), obs)
    /\ store_wf self'
    /\ as_millis d <= now
    /\ (forall c, c ∈ checks -> latest_of self (Check_counter_key c) <= now
         /\ latest_of self' (Check_counter_key c) = now)
    /\ (forall k, latest_of self k <= latest_of self' k)
    /\ batch_effect checks now dec (latest_of self') (counter_of self) (counter_of self').
Proof. by apply (check_all_spec self env d checks t). Qed.

(** ** Concrete stores *)

Definition example_store : MemoryStore :=
  build (mkMemoryStoreConfig 4 2 8 32).

Definition example_env (millis : Z) : MemEnv :=
  mkMemEnv (Done (from_millis millis)) (fun _ => DURATION_ZERO) DURATION_ZERO.

Lemma example_config_wf : MemoryStoreConfig_wf (mkMemoryStoreConfig 4 2 8 32).
Proof. unfold MemoryStoreConfig_wf; simpl; lia. Qed.

Lemma example_store_wf : store_wf example_store.
Proof. apply build_wf, example_config_wf. Qed.

Lemma example_check_valid tag subject cost :
  1 <= cost <= 3 -> fw_check_valid (example_check 3 1000 tag subject cost).
Proof.
  intros H. split; [|exact H].
  unfold FixedWindowPolicy_valid, PolicyId_wf, ScopeId_wf, identifier_wf, Capacity_wf,
    QuotaPeriod_wf.
  rewrite MAX_WINDOW_MILLIS_val. unfold MAX_LIMIT, MAX_IDENTIFIER_LENGTH. simpl. unfold_widths.
  split_and!; try lia; repeat constructor.
Qed.

Definition example_shard (n : nat) : Shard Entry := Shard_new n.

(** C2 witness. *)
Lemma fixed_window_check_refines_witness :
  exists self' dec obs,
    check example_store (example_env 5) (example_check 3 1000 0 1 2) = (self', Done (Ok dec), obs)
    /\ dec = Decision_allowed (mkAllowance (mkCapacity 3) 1 (Delay_new (from_millis 1000)))
    /\ store_wf self'.
Proof.
  destruct (fixed_window_check_refines example_store (example_env 5) (from_millis 5)
    (example_check 3 1000 0 1 2) (example_shard 2) example_store_wf
    (example_check_valid 0 1 2 ltac:(lia)) eq_refl ltac:(vm_compute; reflexivity))
    as (self' & dec & obs & Hrun & Hwf & _).
  exists self', dec, obs. split; [exact Hrun|]. split; [|exact Hwf].
  vm_compute in Hrun. injection Hrun as _ <- _. reflexivity.
Defined.

(** C3 witness. *)
Lemma fixed_window_batch_atomic_witness :
  exists self' dec obs,
    check_all example_store (example_env 5)
      [example_check 3 1000 0 1 2; example_check 3 1000 0 2 3] = (self', Done (Ok dec), obs)
    /\ BatchDecision_view dec = BatchDecisionView_Allowed
         [mkAllowance (mkCapacity 3) 1 (Delay_new (from_millis 1000));
          mkAllowance (mkCapacity 3) 0 (Delay_new (from_millis 1000))].
Proof.
  edestruct (fixed_window_batch_atomic example_store (example_env 5) (from_millis 5)
    [example_check 3 1000 0 1 2; example_check 3 1000 0 2 3]
    (mkBatchTopology [mkBatchShard 0 1; mkBatchShard 1 1] [1; 0]%nat) example_store_wf)
    as (self' & dec & obs & now & Hrun & _).
  - constructor; [apply example_check_valid; lia|].
    constructor; [apply example_check_valid; lia|constructor].
  - reflexivity.
  - vm_compute. reflexivity.
  - vm_compute. reflexivity.
  - repeat constructor; exists (example_shard 2); vm_compute; reflexivity.
  - exists self', dec, obs. split; [exact Hrun|].
    vm_compute in Hrun. injection Hrun as _ <- _. reflexivity.
Defined.

End MemoryStore.
