(* ===== verification/MemStoreTrace.v ===== *)
(** Histories of a fixed-window memory store: it is a [CounterLimiter], what
    it admits over any sequence of checks and batches, and the equivalence
    of a one-check batch with a single check. *)

From S2P Require Import Prelude RustStd Identifier Policy Decision AttemptPolicy Key Check Observation OrdSet MemConfig Shards BoundedShards Counters Limiter Ledger Windows MemStore.
Import MemoryStore.
Open Scope list_scope.

(** * The store as a backend *)

#[export] Instance memory_limiter
  : Limiter MemoryStore MemEnv FixedWindowPolicy PoisonedShardError MemoryBatchError := {
  limiter_check self env c := let '(self', r, _) := check self env c in (self', r);
  limiter_check_all self env cs := let '(self', r, _) := check_all self env cs in (self', r);
}.

Lemma inert_refl self :
  inert (counter_of self) (counter_of self) (latest_of self) (latest_of self).
Proof. done. Qed.

Lemma inert_poison self idx :
  let self' := with_shards self (poison (shards self) idx) in
  inert (counter_of self) (counter_of self') (latest_of self) (latest_of self').
Proof. intros self' k. apply poison_inert. Qed.

Lemma poison_store_wf self idx :
  store_wf self -> store_wf (with_shards self (poison (shards self) idx)).
Proof. apply poison_sharded_wf. Qed.

Lemma inert_instant counter counter' latest latest' :
  inert counter counter' latest latest' -> forall k : CounterKey, latest k <= latest' k.
Proof. intros Hi k. destruct (Hi k) as [-> _]. lia. Qed.

Lemma memory_check_law self env c :
  store_wf self -> fw_check_valid c ->
  let '(self', r) := limiter_check self env c in
  store_wf self' /\ (forall k, latest_of self k <= latest_of self' k)
  /\ match r with
     | Done (Ok dec) => exists full,
         check_effect c (latest_of self' (Check_counter_key c)) dec full
           (latest_of self') (counter_of self) (counter_of self')
     | _ => inert (counter_of self) (counter_of self') (latest_of self) (latest_of self')
     end.
Proof.
  intros Hwf Hc. simpl.
  destruct (lock_key Entry_ok (config self) (shards self) (Check_counter_key c) Hwf)
    as [Hlock|(sh & Hh & Hlock)].
  { unfold check, check_inner. rewrite Hlock. by split_and!. }
  destruct (env_now env) as [d|] eqn:Henv.
  2:{ unfold check, check_inner. rewrite Hlock, Henv. cbn [mbind Outcome_bind].
      pose proof (inert_poison self [shard_index (shards self) (Check_counter_key c)]) as Hi.
      split_and!; [by apply poison_store_wf|by eapply inert_instant|exact Hi]. }
  destruct (check_spec self env d c _ Hwf Hc Henv Hh)
    as (self' & dec & obs & -> & Hwf' & Hmono & sh' & Hh' & Hlat & Heff).
  split_and!; [done|done|]. eexists.
  assert (latest_of self' (Check_counter_key c) = latest_observed_millis sh') as ->.
  { unfold latest_of, key_latest. unfold healthy, key_healthy in Hh'. by rewrite Hh'. }
  rewrite Hlat. exact Heff.
Qed.

(** A batch either leaves the store's data alone or reaches its decision
    with every touched shard healthy. *)
Lemma check_all_cases self env cs :
  store_wf self ->
  (exists r obs idx, (check_all self env cs = (self, r, obs)
      \/ check_all self env cs = (with_shards self (poison (shards self) idx), r, obs))
    /\ forall dec, r <> Done (Ok dec))
  \/ exists t d, validate_batch cs (max_batch_size (config self)) = Ok tt
     /\ BatchTopology_new (map (fun c => shard_of self (Check_counter_key c)) cs) (config self) = Ok t
     /\ env_now env = Done d
     /\ Forall (fun c => exists sh, healthy self (Check_counter_key c) sh) cs.
Proof.
  intros Hwf. unfold check_all, check_all_inner.
  destruct (validate_batch cs _) as [[]|e] eqn:Hv; [|left; eexists _, _, []; split; [by left|done]].
  destruct (BatchTopology_new _ _) as [t|e] eqn:Ht;
    [|left; eexists _, _, []; split; [by left|done]].
  pose proof Ht as Ht'. rewrite <- (map_map Check_counter_key (shard_index (shards self))) in Ht'.
  destruct (batch_setup Entry_ok (config self) (shards self) _ t Hwf Ht')
    as [(Hpos & e & Hlock & _)|(Hpos & locked & Hlock & _ & _ & Hh)];
    rewrite (prepare_spec t _ [] cs Hpos : prepare t 0 cs = _), Hlock;
    cbn [mbind Outcome_bind mret Outcome_ret];
    [left; eexists _, _, []; split; [by left|done]|].
  destruct (env_now env) as [d|]; cbn [mbind Outcome_bind];
    [right|left; eexists _, _, _; split; [by right|done]].
  exists t, d. split_and!; [done|done|done|].
  change (map ?g ?l) with (g <$> l) in Hh. by rewrite Forall_fmap in Hh.
Qed.

Lemma memory_check_all_law self env cs :
  store_wf self -> Forall fw_check_valid cs ->
  let '(self', r) := limiter_check_all self env cs in
  store_wf self' /\ (forall k, latest_of self k <= latest_of self' k)
  /\ match r with
     | Done (Ok dec) => exists now,
         cs <> [] /\ NoDup (Check_counter_key <$> cs)
         /\ (forall c, c ∈ cs -> latest_of self' (Check_counter_key c) = now)
         /\ batch_effect cs now dec (latest_of self') (counter_of self) (counter_of self')
     | _ => inert (counter_of self) (counter_of self') (latest_of self) (latest_of self')
     end.
Proof.
  intros Hwf Hc. simpl.
  destruct (check_all_cases self env cs Hwf) as [(r & obs & idx & Hrun & Hr)|(t & d & Hv & Ht & Henv & Hh)].
  - pose proof (inert_poison self idx) as Hi. cbv zeta in Hi.
    destruct Hrun as [-> | ->]; destruct r as [[dec|e]|]; try (by destruct (Hr dec));
      split_and!; try done; first [by apply poison_store_wf|by eapply inert_instant].
  - destruct (check_all_spec self env d cs t Hwf Hc Henv Hv Ht Hh)
      as (self' & dec & obs & now & -> & Hwf' & _ & Hlat & Hmono & Heff).
    split_and!; [done|done|]. destruct (validate_batch_ok cs _ Hv) as (Hlen & Hnd & _).
    exists now. split_and!; [by intros ->; simpl in Hlen; lia|done|by apply Hlat|exact Heff].
Qed.

#[export] Instance memory_counter_limiter
  : CounterLimiter MemoryStore MemEnv FixedWindowPolicy PoisonedShardError MemoryBatchError := {
  bk_wf := store_wf;
  bk_counter := counter_of;
  bk_instant := latest_of;
  bk_check := memory_check_law;
  bk_check_all := memory_check_all_law;
}.

(** * The account of a counter *)

(** The policies of a counter agree on its numbers. *)
Definition keyed (L W : Z) (c : Check FixedWindowPolicy) : Prop :=
  Capacity_get (fw_limit (check_policy c)) = L
  /\ QuotaPeriod_millis (fw_window (check_policy c)) = W.

(** The newest window ends at most a window after its last charge. *)
Definition anchored_account (L W : Z) (l : list (Z * Z)) (cur : option (Z * Z)) : Prop :=
  anchored L W l cur
  /\ forall u x, cur = Some (u, x) -> exists t, head (l.*1) = Some t /\ x <= t + W.

Lemma fw_account L W : account (keyed L W) (anchored_account L W).
Proof.
  split; [split; [constructor|done]|]. intros l cur c now next a [Han Hend] Htimes Hv [HL HW] Hstep.
  pose proof (fw_check_facts c Hv) as (Hlim & Hwin & Hcost). rewrite HL in Hlim, Hcost.
  rewrite HW in Hwin. simpl in Hstep. unfold check_step in Hstep. rewrite HW in Hstep.
  destruct cur as [[u x]|]; cbn [mbind option_bind] in Hstep;
    [unfold expire in Hstep; simpl in Hstep; destruct (Z.ltb_spec now x) as [Hlive|Hdead]|];
    simpl in Hstep.
  - destruct (Z.ltb_spec (Z.max 0 (Capacity_get (fw_limit (check_policy c)) - u)) (check_cost c));
      [done|]. injection Hstep as <- _. rewrite HL in *.
    destruct (Hend u x eq_refl) as (t & Ht & Hx).
    assert (Htn : t <= now).
    { destruct l as [|[t' c'] l]; [done|]. injection Ht as <-. apply (Htimes (t', c')). by left. }
    split; [apply anchored_add; [done|lia|done|lia|lia]|].
    intros u' x' [= <- <-]. exists now. split; [done|lia].
  - injection Hstep as <- _. split.
    + apply anchored_open with (Some (u, x)); [done| |lia]. by intros u' x' [= <- <-].
    + intros u' x' [= <- <-]. exists now. split; [done|lia].
  - injection Hstep as <- _. split; [apply anchored_open with None; [done|done|lia]|].
    intros u' x' [= <- <-]. exists now. split; [done|lia].
Qed.

Lemma build_empty cfg k t : counter_of (build cfg) k t = None.
Proof. apply BoundedShards_new_counter. Qed.

(** C1. The fixed-window rate bound, end to end. Run any sequence of
    checks and batches against a fresh store, with any clock readings
    (stopped, jumping, going backwards or panicking) and any interleaving of
    keys, batches, denials, errors and poisonings.  The costs actually
    admitted for a counter whose policies allow [L] per window of [W]
    milliseconds fall into consecutive windows opened by their first
    charge, each admitting at most [L]; and no interval of length [W]
    whatsoever admits more than [2 * L]. *)
Theorem fixed_window_rate_bound (cfg : MemoryStoreConfig) (events : list (limiter_event MemEnv FixedWindowPolicy))
    (k : CounterKey) (L W : Z) (Hcfg : MemoryStoreConfig_wf cfg) (HL : 1 <= L) (HW : 1 <= W)
    (Hevents : Forall (fun e => Forall fw_check_valid (event_checks e)
       /\ Forall (own (keyed L W) k) (event_checks e)) events) :
  let '(self', ledger) := run (build cfg) [] events in
  store_wf self'
  /\ (exists newest, anchored L W (charges_for k ledger) newest)
  /\ forall a, charged_in a (a + W) (charges_for k ledger) <= 2 * L.
Proof.
  pose proof (run_account (keyed L W) (anchored_account L W) (fw_account L W) k (build cfg) events
    (build_wf cfg Hcfg) (build_empty cfg k) Hevents) as H.
  destruct (run (build cfg) [] events) as [self' ledger].
  destruct H as [Hwf (cur & [Hanch _] & _)]. split_and!; [done|by exists cur|].
  intros a. by apply (anchored_interval L W _ cur); [lia|lia|].
Qed.

(** C1 witness. *)
Lemma fixed_window_rate_bound_witness :
  let c := example_check 3 1000 0 1 2 in
  let events :=
    [EvCheck (example_env 5) c; EvCheck (example_env 900) c;
     EvBatch (example_env 1005) [c; example_check 3 1000 0 2 1];
     EvCheck (example_env 1006) c] in
  let '(self', ledger) := run (build (mkMemoryStoreConfig 4 2 8 32)) [] events in
  charges_for (Check_counter_key c) ledger = [(1005, 2); (5, 2)]
  /\ forall a, charged_in a (a + 1000) (charges_for (Check_counter_key c) ledger) <= 2 * 3.
Proof.
  cbv zeta.
  assert (Hv : forall tag s n, 1 <= n <= 3 ->
    fw_check_valid (example_check 3 1000 tag s n)
    /\ own (keyed 3 1000) (Check_counter_key (example_check 3 1000 0 1 2))
        (example_check 3 1000 tag s n)).
  { intros tag s n Hn. split; [by apply example_check_valid|by intros _]. }
  pose proof (fixed_window_rate_bound (mkMemoryStoreConfig 4 2 8 32)
    [EvCheck (example_env 5) (example_check 3 1000 0 1 2);
     EvCheck (example_env 900) (example_check 3 1000 0 1 2);
     EvBatch (example_env 1005) [example_check 3 1000 0 1 2; example_check 3 1000 0 2 1];
     EvCheck (example_env 1006) (example_check 3 1000 0 1 2)]
    (Check_counter_key (example_check 3 1000 0 1 2)) 3 1000 example_config_wf
    ltac:(lia) ltac:(lia)) as H.
  destruct (run _ [] _) as [self' ledger] eqn:Hrun. split.
  - vm_compute in Hrun. injection Hrun as _ <-. vm_compute. reflexivity.
  - apply H. repeat constructor; apply Hv; lia.
Defined.

(** * One-check batches *)

(** A single decision as the decision of a one-check batch. *)
Definition batch_of_decision (dec : Decision) : BatchDecision :=
  mkBatchDecision
    (match Decision_view dec with
     | DecisionView_Allowed a => BatchOutcome_Allowed [a]
     | DecisionView_Denied denial => BatchOutcome_Denied 0 1 denial
     | DecisionView_ShadowDenied denial => BatchOutcome_ShadowDenied 0 1 denial
     end).

Definition batch_of_result (r : Outcome (Result PoisonedShardError Decision))
    : Outcome (Result MemoryBatchError BatchDecision) :=
  match r with
  | Done (Ok dec) => Done (Ok (batch_of_decision dec))
  | Done (Err e) => Done (Err (PoisonedShard e))
  | Panic => Panic
  end.

Lemma topology_single i cfg : (1 <= shard_capacity cfg i)%nat ->
  BatchTopology_new [i] cfg = Ok (mkBatchTopology [mkBatchShard i 1] [0%nat]).
Proof.
  intros Hcap. unfold BatchTopology_new. simpl. destruct (Nat.ltb_spec i i); [lia|]. simpl.
  destruct (Nat.ltb_spec (shard_capacity cfg i) 1); [lia|done].
Qed.

Lemma usize_mul_1 n : Z.of_nat n <= usize_max -> usize_saturating_mul n 1 = n.
Proof. intros H. unfold usize_saturating_mul, saturating_mul. lia. Qed.

(** The two critical sections agree on one check. *)
Lemma check_all_locked_single cfg c i sh d el :
  Z.of_nat (max_expired_removals_per_check cfg) <= usize_max ->
  check_all_locked cfg [c] (mkBatchTopology [mkBatchShard i 1] [0%nat])
    [PreparedCheck_new 0 c 0] [(i, sh)] d el =
  match check_locked cfg c i sh d el with
  | Done (sh', e) =>
      Done ([(i, sh')], mkMemEvaluation (batch_of_decision (ev_value e)) [ev_effect e])
  | Panic => Panic
  end.
Proof.
  intros Hn. unfold check_all_locked, check_locked, clamp_locked. cbn [map foldl].
  set (now := Z.max (as_millis d) (latest_observed_millis sh)).
  cbn [check_counts topology_shards map bs_check_count cleanup_locked].
  rewrite usize_mul_1 by done.
  destruct (prune_expired _ _ _) as [[sh1 r]|]; cbn; [|done].
  destruct (quota_denial sh1 _ now) as [[q|]|]; cbn; [| |done].
  - destruct (QuotaMode_eqb (fw_quota_mode (check_policy c)) Shadow); done.
  - destruct (contains_key sh1 (Check_counter_key c)) eqn:Hcon; cbn.
    + destruct (consume sh1 _ now) as [[sh2 a]|]; cbn; done.
    + rewrite Nat.add_0_r. destruct (Nat.leb (sh_capacity sh1) (Shard_used sh1)); cbn.
      * destruct (storage_capacity_denial sh1 now) as [den|]; cbn; done.
      * destruct (consume sh1 _ now) as [[sh2 a]|]; cbn; done.
Qed.

(** C36. A batch of one check is that check: same next state (poisoning
    included), same decision up to the batch wrapping, same failure, and the
    same shard effects shown to the observer. *)
Theorem single_check_is_batch (self : MemoryStore) (env : MemEnv)
    (c : Check FixedWindowPolicy) (Hwf : store_wf self)
    (Husize : Z.of_nat (max_expired_removals_per_check (config self)) <= usize_max) :
  let '(s1, r1, o1) := check self env c in
  let '(s2, r2, o2) := check_all self env [c] in
  s2 = s1 /\ r2 = batch_of_result r1 /\ length o2 = length o1.
Proof.
  unfold check, check_all, check_inner, check_all_inner.
  rewrite validate_batch_singleton by apply Hwf. cbn [map].
  set (i := shard_index (shards self) (Check_counter_key c)).
  rewrite topology_single by (apply shard_capacity_pos, Hwf).
  cbn [prepare input_positions topology_shards lookup list_lookup expect mbind Outcome_bind
    mret Outcome_ret map bs_index lock_topology lock_shards].
  unfold mret, Outcome_ret, mbind, Outcome_bind.
  destruct (lock_shard (shards self) i) as [[sh|e]|]; cbv beta iota;
    [|by destruct (observer self)|done].
  destruct (env_now env) as [d|]; cbv beta iota; [|done].
  rewrite check_all_locked_single by done.
  destruct (check_locked _ c i sh d _) as [[sh' ev]|]; cbn; [|done].
  split_and!; [done|done|]. unfold observe_shard_effects. simpl.
  rewrite !length_app. by destruct (observer self).
Qed.

(** C36 witness. *)
Lemma single_check_is_batch_witness :
  (check_all example_store (example_env 7) [example_check 3 1000 0 1 2]).1.2
  = batch_of_result (check example_store (example_env 7) (example_check 3 1000 0 1 2)).1.2.
Proof.
  pose proof (single_check_is_batch example_store (example_env 7) (example_check 3 1000 0 1 2)
    example_store_wf ltac:(vm_compute; discriminate)) as H.
  destruct (check _ _ _) as [[s1 r1] o1]. destruct (check_all _ _ _) as [[s2 r2] o2].
  exact (proj1 (proj2 H)).
Defined.
