(* ===== verification/MemGcra.v ===== *)
(** [runlimit-memory/src/gcra.rs]: the sharded, hard-bounded GCRA store.  A
    check is evaluated with checked arithmetic before the shard is touched,
    so an overflow leaves the store as it was. *)

From S2P Require Import Prelude RustStd Identifier Policy Decision AttemptPolicy Key Check Observation Gcra OrdSet MemConfig Shards BoundedShards Counters Limiter MemStore.
Open Scope list_scope.

Module GcraStore.

Record Entry := mkEntry { entry_tat_scaled : Z }.

Inductive GcraCheckError :=
| GcraCheck_PoisonedShard (e : PoisonedShardError)
| GcraCheck_ArithmeticOverflow.

Inductive GcraBatchError :=
| GcraBatch_Store (e : MemoryBatchError)
| GcraBatch_ArithmeticOverflow.

(** [From<PoisonedShardError> for GcraBatchError]. *)
Definition GcraBatchError_of_poisoned (e : PoisonedShardError) : GcraBatchError :=
  GcraBatch_Store (PoisonedShard e).

Record PreparedCheck := mkPreparedCheck {
  input_index : nat;
  counter_key : CounterKey;
  shard_position : nat;
  prepared_check : Check GcraPolicy;
  quota_mode : QuotaMode;
}.

(** [PreparedCheck::new]. *)
Definition PreparedCheck_new (input_index : nat) (check : Check GcraPolicy)
    (shard_position : nat) : PreparedCheck :=
  mkPreparedCheck input_index (Check_counter_key check) shard_position check
    (gp_quota_mode (check_policy check)).

(** [Shard::evaluate] and [Shard::consume]. *)
Definition shard_evaluate (shard : Shard Entry) (check : PreparedCheck) (now_millis : Z)
    : Result ArithmeticOverflow Evaluation :=
  let active_tat :=
    (fun '(entry, _) => entry_tat_scaled entry)
      <$> active_entry shard (counter_key check) now_millis in
  evaluate (prepared_check check) now_millis active_tat.

Definition consume (shard : Shard Entry) (check : PreparedCheck) (pending : PendingAllowance)
    : Shard Entry * Allowance :=
  (replace shard (counter_key check) (mkEntry (tat_scaled pending)) (expires_at_millis pending),
   pending_allowance pending).

(** What the store's observer, if it has one, is shown. *)
Definition observe_shard_effect (observer : bool) (effect : ShardEffect) : list Observation :=
  if observer then
    let cleanup := she_cleanup effect in
    [Observation_Cleanup (mkCleanupObservation (ce_requested cleanup)
       (CleanupOutcome_Confirmed (usize_to_u64 (ce_removed cleanup))) (ce_elapsed cleanup));
     Observation_Capacity (mkCapacityObservation (usize_to_u64 (she_used effect))
       (usize_to_u64 (she_capacity effect)) (she_shard_index effect))]
  else [].
Definition observe_shard_effects (observer : bool) (effects : list ShardEffect) : list Observation :=
  effects ≫= observe_shard_effect observer.
Definition observe_admission (observer : bool) (observation : AdmissionObservation) : list Observation :=
  if observer then [Observation_Admission observation] else [].

Record GcraStore := mkGcraStore {
  config : MemoryStoreConfig;
  shards : BoundedShards Entry;
  observer : bool;
}.

(** [GcraStoreBuilder::build]; the clock is read through [MemEnv]. *)
Definition build (config : MemoryStoreConfig) : GcraStore :=
  mkGcraStore config (BoundedShards_new config) false.
Definition with_observer (self : GcraStore) : GcraStore :=
  mkGcraStore (config self) (shards self) true.
Definition with_shards (self : GcraStore) (shards : BoundedShards Entry) : GcraStore :=
  mkGcraStore (config self) shards (observer self).

(** ** One check *)

(** The critical section of [check_inner], from the clock reading on. *)
Definition check_locked (config : MemoryStoreConfig) (check : Check GcraPolicy)
    (shard_index : nat) (shard : Shard Entry) (now : Duration) (elapsed : nat -> Duration)
    : Outcome (Result ArithmeticOverflow (Shard Entry * MemEvaluation Decision ShardEffect)) :=
  let counter_key := Check_counter_key check in
  let prepared := PreparedCheck_new 0 check 0 in
  let observed_millis := as_millis now in
  let now_millis := Z.max observed_millis (latest_observed_millis shard) in
  match shard_evaluate shard prepared now_millis with
  | Err e => Done (Err e)
  | Ok evaluated =>
      let shard := record_observed_millis now_millis shard in
      let cleanup_requested := max_expired_removals_per_check config in
      '(shard, cleanup_removed) ← prune_expired shard now_millis cleanup_requested;
      '(shard, decision) ←
        match evaluated with
        | Evaluation_Allowed pending =>
            if negb (contains_key shard counter_key)
               && Nat.leb (sh_capacity shard) (Shard_used shard)
            then
              denial ← storage_capacity_denial shard now_millis;
              mret (shard, Decision_denied denial)
            else
              let '(shard, a) := consume shard prepared pending in
              mret (shard, Decision_allowed a)
        | Evaluation_Denied denial =>
            Done (shard, if QuotaMode_eqb (quota_mode prepared) Shadow
                         then Decision_shadow_denied denial
                         else Decision_denied (QuotaExceeded denial))
        end;
      mret (Ok (shard, mkMemEvaluation decision
        (mkShardEffect shard_index
           (mkCleanupEffect cleanup_requested cleanup_removed (elapsed shard_index))
           (Shard_used shard) (sh_capacity shard))))
  end.

Definition check_inner (self : GcraStore) (env : MemEnv) (check : Check GcraPolicy)
    : GcraStore * Outcome (Result GcraCheckError (MemEvaluation Decision ShardEffect)) :=
  let index := shard_index (shards self) (Check_counter_key check) in
  match lock_shard (shards self) index with
  | Panic => (self, Panic)
  | Done (Err e) => (self, Done (Err (GcraCheck_PoisonedShard e)))
  | Done (Ok shard) =>
      match now ← env_now env;
            check_locked (config self) check index shard now (env_cleanup_elapsed env) with
      | Panic => (with_shards self (poison (shards self) [index]), Panic)
      | Done (Err _) => (self, Done (Err GcraCheck_ArithmeticOverflow))
      | Done (Ok (shard, evaluation)) =>
          (with_shards self (release (shards self) [(index, shard)]), Done (Ok evaluation))
      end
  end.

(** [GcraStore::check], with the observations it emits. *)
Definition check (self : GcraStore) (env : MemEnv) (check : Check GcraPolicy)
    : GcraStore * Outcome (Result GcraCheckError Decision) * list Observation :=
  let '(self', result) := check_inner self env check in
  match result with
  | Panic => (self', Panic, [])
  | Done (Ok evaluation) =>
      (self', Done (Ok (ev_value evaluation)),
       observe_shard_effect (observer self) (ev_effect evaluation)
       ++ observe_admission (observer self)
            (from_check check (ev_value evaluation) (env_elapsed env)))
  | Done (Err e) =>
      (self', Done (Err e),
       observe_admission (observer self) (failed_check check NotConsumed (env_elapsed env)))
  end.

(** ** Atomic batches *)

(** [PreparedCheck::new] over [checks.iter().enumerate()], from
    [input_index] on. *)
Fixpoint prepare (topology : BatchTopology) (input_index : nat)
    (checks : list (Check GcraPolicy)) : Outcome (list PreparedCheck) :=
  match checks with
  | [] => Done []
  | check :: checks =>
      position ← expect (input_positions topology !! input_index);
      prepared ← prepare topology (S input_index) checks;
      mret (PreparedCheck_new input_index check position :: prepared)
  end.

(** The evaluation loop, before any shard is touched. *)
Fixpoint evaluate_all (now_millis : Z) (locked : LockedShards Entry)
    (prepared : list PreparedCheck) : Outcome (Result ArithmeticOverflow (list Evaluation)) :=
  match prepared with
  | [] => Done (Ok [])
  | check :: prepared =>
      '(_, shard) ← expect (locked !! shard_position check);
      match shard_evaluate shard check now_millis with
      | Err e => Done (Err e)
      | Ok evaluation =>
          evaluations ← evaluate_all now_millis locked prepared;
          mret (match evaluations with
                | Ok evaluations => Ok (evaluation :: evaluations)
                | Err e => Err e
                end)
      end
  end.

(** The preflight loop: the first denial, or the pending allowances. *)
Fixpoint preflight (checks : list (Check GcraPolicy)) (now_millis : Z)
    (locked : LockedShards Entry) (pending_insertions : list nat)
    (allowances : list PendingAllowance) (prepared : list (PreparedCheck * Evaluation))
    : Outcome (BatchDecision + list PendingAllowance) :=
  match prepared with
  | [] => Done (inr allowances)
  | (check, evaluation) :: prepared =>
      '(_, shard) ← expect (locked !! shard_position check);
      match evaluation with
      | Evaluation_Denied denial =>
          value ← expect_ok
            (if QuotaMode_eqb (quota_mode check) Shadow
             then BatchDecision_shadow_denied (input_index check) (length checks) denial
             else BatchDecision_denied (input_index check) (length checks)
                    (QuotaExceeded denial));
          mret (inl value)
      | Evaluation_Allowed allowance =>
          if negb (contains_key shard (counter_key check)) then
            pending ← expect (pending_insertions !! shard_position check);
            let projected_len := (Shard_used shard + pending)%nat in
            if Nat.leb (sh_capacity shard) projected_len then
              denial ← storage_capacity_denial shard now_millis;
              value ← expect_ok (BatchDecision_denied (input_index check) (length checks) denial);
              mret (inl value)
            else
              preflight checks now_millis locked
                (<[shard_position check := S pending]> pending_insertions)
                (allowances ++ [allowance]) prepared
          else preflight checks now_millis locked pending_insertions
                 (allowances ++ [allowance]) prepared
      end
  end.

(** The consumption loop. *)
Fixpoint consume_all (locked : LockedShards Entry)
    (prepared : list (PreparedCheck * PendingAllowance))
    : Outcome (LockedShards Entry * list Allowance) :=
  match prepared with
  | [] => Done (locked, [])
  | (check, pending) :: prepared =>
      '(index, shard) ← expect (locked !! shard_position check);
      let '(shard, a) := consume shard check pending in
      '(locked, allowances) ←
        consume_all (<[shard_position check := (index, shard)]> locked) prepared;
      mret (locked, a :: allowances)
  end.

(** The critical section of [check_all_inner]. *)
Definition check_all_locked (config : MemoryStoreConfig)
    (checks : list (Check GcraPolicy)) (topology : BatchTopology)
    (prepared : list PreparedCheck) (locked : LockedShards Entry) (now : Duration)
    (elapsed : nat -> Duration)
    : Outcome (Result ArithmeticOverflow
        (LockedShards Entry * MemEvaluation BatchDecision (list ShardEffect))) :=
  let observed_millis := as_millis now in
  let now_millis := clamp_locked observed_millis locked in
  evaluations ← evaluate_all now_millis locked prepared;
  match evaluations with
  | Err e => Done (Err e)
  | Ok evaluations =>
      '(locked, cleanup_effects) ←
        cleanup_locked config now_millis elapsed locked (check_counts topology);
      scanned ← preflight checks now_millis locked (replicate (length locked) 0%nat) []
                  (zip prepared evaluations);
      match scanned with
      | inl value =>
          mret (Ok (locked, mkMemEvaluation value (collect_shard_effects locked cleanup_effects)))
      | inr allowances =>
          '(locked, consumed) ← consume_all locked (zip prepared allowances);
          value ← expect_ok (BatchDecision_allowed consumed);
          mret (Ok (locked, mkMemEvaluation value (collect_shard_effects locked cleanup_effects)))
      end
  end.

Definition check_all_inner (self : GcraStore) (env : MemEnv)
    (checks : list (Check GcraPolicy))
    : GcraStore
      * Outcome (Result GcraBatchError (MemEvaluation BatchDecision (list ShardEffect))) :=
  match validate_batch checks (max_batch_size (config self)) with
  | Err e => (self, Done (Err (GcraBatch_Store (InvalidBatch e))))
  | Ok _ =>
      let indexes := map (fun c => shard_index (shards self) (Check_counter_key c)) checks in
      match BatchTopology_new indexes (config self) with
      | Err e => (self, Done (Err (GcraBatch_Store e)))
      | Ok topology =>
          match prepared ← prepare topology 0 checks;
                locked ← lock_topology (shards self) topology;
                mret (prepared, locked) with
          | Panic => (self, Panic)
          | Done (_, Err e) => (self, Done (Err (GcraBatchError_of_poisoned e)))
          | Done (prepared, Ok locked) =>
              match now ← env_now env;
                    check_all_locked (config self) checks topology prepared locked now
                      (env_cleanup_elapsed env) with
              | Panic =>
                  (with_shards self (poison (shards self) (map bs_index (topology_shards topology))),
                   Panic)
              | Done (Err _) => (self, Done (Err GcraBatch_ArithmeticOverflow))
              | Done (Ok (locked, evaluation)) =>
                  (with_shards self (release (shards self) locked), Done (Ok evaluation))
              end
          end
      end
  end.

(** [GcraStore::check_all], with the observations it emits. *)
Definition check_all (self : GcraStore) (env : MemEnv) (checks : list (Check GcraPolicy))
    : GcraStore * Outcome (Result GcraBatchError BatchDecision) * list Observation :=
  let '(self', result) := check_all_inner self env checks in
  match result with
  | Panic => (self', Panic, [])
  | Done (Ok evaluation) =>
      (self', Done (Ok (ev_value evaluation)),
       observe_shard_effects (observer self) (ev_effect evaluation)
       ++ observe_admission (observer self)
            (from_batch checks (ev_value evaluation) (env_elapsed env)))
  | Done (Err e) =>
      (self', Done (Err e),
       observe_admission (observer self) (failed_batch checks NotConsumed (env_elapsed env)))
  end.

(** ** Bulk operations *)

Definition stats (self : GcraStore) : Outcome (Result PoisonedShardError MemoryStoreStats) :=
  BoundedShards_stats (shards self) (config self).

Definition clear (self : GcraStore) : GcraStore * Outcome (Result PoisonedShardError unit) :=
  let '(shards, result) := BoundedShards_clear (shards self) in
  (with_shards self shards, result).

Definition recover_poisoned (self : GcraStore) : GcraStore * nat :=
  let '(shards, recovered) := BoundedShards.recover_poisoned (shards self) (config self) in
  (with_shards self shards, recovered).

(** * The abstract GCRA counter

    A counter is absent, or holds a theoretical arrival time and the instant
    at which it expires; its step is the pure transition. *)

Definition gcra_step (c : Check GcraPolicy) (now : Z) (current : option (Z * Z)) : verdict :=
  match evaluate c now (fst <$> current) with
  | Ok (Evaluation_Allowed pa) =>
      VAllow (tat_scaled pa, expires_at_millis pa) (pending_allowance pa)
  | Ok (Evaluation_Denied q) => VDeny q
  | Err _ => VOverflow
  end.

#[export] Instance gcra_algorithm : QuotaAlgorithm GcraPolicy := {
  qa_valid := gcra_check_valid;
  qa_step := gcra_step;
}.

Definition Entry_ok (e : Entry) : Prop := 0 <= entry_tat_scaled e <= u128_max.

Notation view := (view entry_tat_scaled).
Notation shard_ok := (shard_ok Entry_ok).
Notation locked_ok := (locked_ok Entry_ok).
Notation pview := (pview entry_tat_scaled).
Notation consumed := (consumed entry_tat_scaled Entry_ok).

Lemma shard_evaluate_view sh i c pos now :
  shard_evaluate sh (PreparedCheck_new i c pos) now
  = evaluate c now (fst <$> view sh (Check_counter_key c) now).
Proof.
  unfold shard_evaluate, Counters.view. simpl.
  by destruct (active_entry sh (Check_counter_key c) now) as [[e x]|].
Qed.

Lemma gcra_consume_spec sh i c pos now pa tat :
  shard_ok sh -> latest_observed_millis sh = now -> gcra_check_valid c ->
  evaluate c now tat = Ok (Evaluation_Allowed pa) ->
  is_Some (entries sh !! Check_counter_key c) \/ (Shard_used sh < sh_capacity sh)%nat ->
  consumed (Check_counter_key c) (tat_scaled pa, expires_at_millis pa) now sh
    (consume sh (PreparedCheck_new i c pos) pa).1.
Proof.
  intros Hsh Hnow Hc He Hroom.
  destruct (evaluate_allowed_bounds c now tat pa Hc He) as (Htat & Hexp).
  by apply (replace_consumed entry_tat_scaled Entry_ok sh _ (mkEntry (tat_scaled pa))).
Qed.

(** ** One check against the abstract counter *)

Lemma gcra_check_locked_spec cfg c idx sh d el :
  shard_ok sh -> gcra_check_valid c ->
  let now := Z.max (as_millis d) (latest_observed_millis sh) in
  match gcra_step c now (view sh (Check_counter_key c) now) with
  | VOverflow => check_locked cfg c idx sh d el = Done (Err mkArithmeticOverflow)
  | _ => exists sh' dec eff,
    check_locked cfg c idx sh d el = Done (Ok (sh', mkMemEvaluation dec eff))
    /\ shard_ok sh' /\ latest_observed_millis sh' = now /\ sh_capacity sh' = sh_capacity sh
    /\ (forall k, is_Some (entries sh' !! k) -> k = Check_counter_key c \/ is_Some (entries sh !! k))
    /\ check_effect c now dec
         (Shard_used sh' = sh_capacity sh /\ contains_key sh' (Check_counter_key c) = false)
         (fun _ => now) (view sh) (view sh')
  end.
Proof.
  intros Hsh Hc now. set (key := Check_counter_key c).
  destruct (cleanup_shard_spec sh now (max_expired_removals_per_check cfg) (proj1 Hsh)
    ltac:(lia)) as (sh1 & r & Hprune & Hcl & _).
  pose proof (cleaned_ok _ _ _ _ Hsh Hcl) as Hsh1. pose proof (cl_latest _ _ _ Hcl) as Hl1.
  assert (Hsame : forall k t, now <= t -> view sh1 k t = view sh k t).
  { intros. by apply (cleaned_view entry_tat_scaled now). }
  assert (Hdom : forall k, is_Some (entries sh1 !! k) -> k = key \/ is_Some (entries sh !! k)).
  { intros k [e He]. right. exists e. by apply (cl_sub _ _ _ Hcl). }
  unfold check_locked, check_effect. fold now. fold key.
  change (qa_step c now) with (gcra_step c now).
  rewrite shard_evaluate_view. fold key. unfold gcra_step.
  destruct (evaluate c now (fst <$> view sh key now)) as [[pa|q]|[]] eqn:He; [| |done];
    rewrite Hprune; cbn [mbind Outcome_bind].
  2:{ eexists _, _, _. split; [done|]. split_and!; [done|done|apply Hcl|done|done|done]. }
  destruct (negb (contains_key sh1 key) && Nat.leb (sh_capacity sh1) (Shard_used sh1)) eqn:Hfull.
  - apply andb_true_iff in Hfull as [Hcon Hfull]. apply negb_true_iff in Hcon.
    apply Nat.leb_le in Hfull.
    destruct (storage_capacity_denial_spec sh1 now (cl_wf _ _ _ Hcl)) as (r' & -> & _); [lia|].
    eexists _, _, _. split; [done|]. split_and!; [done|done|apply Hcl|done|]. right.
    pose proof (wf_bound _ (cl_wf _ _ _ Hcl)) as Hb. pose proof (cl_capacity _ _ _ Hcl).
    unfold Shard_used in *. split_and!; [lia|done| |by eexists|done].
    rewrite <- Hsame by lia. by apply view_not_contained.
  - assert (Hroom : is_Some (entries sh1 !! key) \/ (Shard_used sh1 < sh_capacity sh1)%nat).
    { destruct (contains_key sh1 key) eqn:Hcon; [left; by apply contains_key_spec|right].
      by apply Nat.leb_gt. }
    pose proof (gcra_consume_spec sh1 0 c 0 now pa _ Hsh1 Hl1 Hc He Hroom) as Hco. fold key in Hco.
    eexists _, _, _. split; [done|]. split_and!.
    + apply Hco.
    + etrans; [apply (co_latest _ _ _ _ _ _ _ Hco)|done].
    + etrans; [apply (co_capacity _ _ _ _ _ _ _ Hco)|apply Hcl].
    + intros k [->|H]%(co_dom _ _ _ _ _ _ _ Hco); [by left|by apply Hdom].
    + left. split; [done|]. intros k t Ht.
      etrans; [by apply (co_view _ _ _ _ _ _ _ Hco)|]. by rewrite Hsame.
Qed.

(** ** The store *)

Definition store_wf (self : GcraStore) : Prop := sharded_wf Entry_ok (config self) (shards self).
Definition shard_of (self : GcraStore) (k : CounterKey) : nat := shard_index (shards self) k.
Definition healthy (self : GcraStore) : CounterKey -> Shard Entry -> Prop :=
  key_healthy (shards self).
Definition counter_of (self : GcraStore) : CounterKey -> Z -> option (Z * Z) :=
  key_counter entry_tat_scaled (shards self).
Definition latest_of (self : GcraStore) : CounterKey -> Z := key_latest (shards self).

Lemma gcra_build_wf config : MemoryStoreConfig_wf config -> store_wf (build config).
Proof. intros H. split; [done|]. apply BoundedShards_new_wf. Qed.

Lemma gcra_check_spec (self : GcraStore) (env : MemEnv) (d : Duration)
    (c : Check GcraPolicy) (sh : Shard Entry) (Hwf : store_wf self)
    (Hc : gcra_check_valid c) (Henv : env_now env = Done d)
    (Hsh : healthy self (Check_counter_key c) sh) :
  let now := Z.max (as_millis d) (latest_observed_millis sh) in
  match evaluate c now (fst <$> counter_of self (Check_counter_key c) now) with
  | Err _ => exists obs, check self env c = (self, Done (Err GcraCheck_ArithmeticOverflow), obs)
  | Ok _ => exists self' dec obs,
    check self env c = (self', Done (Ok dec), obs)
    /\ store_wf self'
    /\ (forall k, latest_of self k <= latest_of self' k)
    /\ (exists sh', healthy self' (Check_counter_key c) sh'
         /\ latest_observed_millis sh' = now
         /\ check_effect c now dec
              (Shard_used sh' = shard_capacity (config self) (shard_of self (Check_counter_key c))
               /\ contains_key sh' (Check_counter_key c) = false)
              (latest_of self') (counter_of self) (counter_of self'))
  end.
Proof.
  intros now. set (k := Check_counter_key c) in *.
  destruct (healthy_ok _ _ _ k sh Hwf Hsh) as (Hok & Hcap & _).
  pose proof (gcra_check_locked_spec (config self) c (shard_of self k) sh d (env_cleanup_elapsed env)
    Hok Hc) as Hlocked. cbv zeta in Hlocked. fold now k in Hlocked.
  assert (Hcounter : counter_of self k now = view sh k now).
  { unfold counter_of, key_counter. unfold healthy, key_healthy in Hsh. by rewrite Hsh. }
  assert (Hcheck : check_inner self env c =
    match check_locked (config self) c (shard_of self k) sh d (env_cleanup_elapsed env) with
    | Panic => (with_shards self (poison (shards self) [shard_of self k]), Panic)
    | Done (Err _) => (self, Done (Err GcraCheck_ArithmeticOverflow))
    | Done (Ok (shard, evaluation)) =>
        (with_shards self (release (shards self) [(shard_of self k, shard)]), Done (Ok evaluation))
    end).
  { unfold check_inner. fold k. unfold lock_shard, shard_of. unfold healthy, key_healthy in Hsh.
    by rewrite Hsh, Henv. }
  assert (Hgo : forall sh' dec eff, 
    check_locked (config self) c (shard_of self k) sh d (env_cleanup_elapsed env)
      = Done (Ok (sh', mkMemEvaluation dec eff)) ->
    exists obs, check self env c
      = (with_shards self (release (shards self) [(shard_of self k, sh')]), Done (Ok dec), obs)).
  { intros sh' dec eff Hrun. unfold check. rewrite Hcheck, Hrun. by eexists. }
  rewrite Hcounter. unfold gcra_step in Hlocked.
  destruct (evaluate c now (fst <$> view sh k now)) as [e|[]].
  2:{ unfold check. rewrite Hcheck, Hlocked. by eexists. }
  assert (Hl : exists sh' dec eff,
    check_locked (config self) c (shard_of self k) sh d (env_cleanup_elapsed env)
      = Done (Ok (sh', mkMemEvaluation dec eff))
    /\ shard_ok sh' /\ latest_observed_millis sh' = now /\ sh_capacity sh' = sh_capacity sh
    /\ (forall j, is_Some (entries sh' !! j) -> j = k \/ is_Some (entries sh !! j))
    /\ check_effect c now dec
         (Shard_used sh' = sh_capacity sh /\ contains_key sh' k = false)
         (fun _ => now) (view sh) (view sh')) by (by destruct e).
  destruct Hl as (sh' & dec & eff & Hrun & Hok' & Hlat & Hcap' & Hdom & Heff).
  rewrite <- Hlat in Heff. destruct (Hgo _ _ _ Hrun) as [obs Hobs].
  destruct (check_effect_release entry_tat_scaled Entry_ok (config self) (shards self) c sh sh' dec
    _ Hwf Hsh Hok' ltac:(lia) Hcap' Hdom Heff) as (Hwf' & Hmono & Hh' & Heff').
  eexists _, dec, obs. split_and!; [exact Hobs|done|done|].
  exists sh'. split_and!; [done|done|]. unfold shard_of. rewrite <- Hcap, <- Hlat. exact Heff'.
Qed.

(** ** The loops of a batch *)

(** The prepared checks from input index [i] on. *)
Fixpoint prepared_list (f : CounterKey -> nat) (i : nat) (cs : list (Check GcraPolicy))
    : list PreparedCheck :=
  match cs with
  | [] => []
  | c :: cs => PreparedCheck_new i c (f (Check_counter_key c)) :: prepared_list f (S i) cs
  end.

Lemma gcra_prepare_spec t f pre cs :
  input_positions t = map f (map Check_counter_key (pre ++ cs)) ->
  prepare t (length pre) cs = Done (prepared_list f (length pre) cs).
Proof.
  revert pre. induction cs as [|c cs IH]; intros pre Hpos; simpl; [done|].
  assert (Hc : input_positions t !! length pre = Some (f (Check_counter_key c))).
  { rewrite Hpos, map_map. change (map ?f ?l) with (f <$> l). rewrite list_lookup_fmap.
    by rewrite list_lookup_middle. }
  rewrite Hc. simpl. rewrite (cons_middle c pre cs), app_assoc in Hpos.
  specialize (IH (pre ++ [c]) Hpos). rewrite length_app in IH. simpl in IH.
  rewrite Nat.add_1_r in IH. by rewrite IH.
Qed.

(** The evaluations of a batch against the counters [before]. *)
Definition evaluated (now : Z) (before : CounterKey -> Z -> option (Z * Z))
    (c : Check GcraPolicy) : Result ArithmeticOverflow Evaluation :=
  evaluate c now (fst <$> before (Check_counter_key c) now).

Lemma evaluate_all_spec now f i before locked cs :
  Forall (fun c => (f (Check_counter_key c) < length locked)%nat) cs ->
  Forall (fun c => before (Check_counter_key c) now
    = pview locked (f (Check_counter_key c)) (Check_counter_key c) now) cs ->
  match evaluate_all now locked (prepared_list f i cs) with
  | Done (Ok es) => Forall2 (fun c e => evaluated now before c = Ok e) cs es
  | Done (Err _) => Exists (fun c => evaluated now before c = Err mkArithmeticOverflow) cs
  | Panic => False
  end.
Proof.
  intros Hpos Hbefore. revert i.
  induction cs as [|c cs IH]; intros i; cbn [prepared_list evaluate_all]; [constructor|].
  apply Forall_cons in Hpos as [Hp1 Hpos]. apply Forall_cons in Hbefore as [Hb1 Hbefore].
  destruct (lookup_lt_is_Some_2 _ _ Hp1) as [[n sh] Hl]. simpl shard_position. rewrite Hl.
  unfold Counters.pview in Hb1. rewrite Hl in Hb1. simpl in Hb1.
  cbn [expect mbind Outcome_bind]. rewrite shard_evaluate_view, <- Hb1.
  fold (evaluated now before c).
  destruct (evaluated now before c) as [e|[]] eqn:He; [|by constructor].
  specialize (IH Hpos Hbefore (S i)).
  destruct (evaluate_all now locked (prepared_list f (S i) cs)) as [[es|[]]|]; simpl;
    [by constructor|by constructor 2|done].
Qed.

Lemma evaluated_step now before c e : evaluated now before c = Ok e ->
  gcra_step c now (before (Check_counter_key c) now) =
    match e with
    | Evaluation_Allowed pa =>
        VAllow (tat_scaled pa, expires_at_millis pa) (pending_allowance pa)
    | Evaluation_Denied q => VDeny q
    end.
Proof. unfold evaluated, gcra_step. by intros ->. Qed.

(** The preflight loop is the scan of the batch. *)
Lemma gcra_preflight_scan checks now f before locked pre cs es pending acc :
  locked_ok now locked -> checks = pre ++ cs ->
  Forall (fun c => (f (Check_counter_key c) < length locked)%nat) cs ->
  Forall2 (fun c e => evaluated now before c = Ok e) cs es ->
  length pending = length locked ->
  let run := preflight checks now locked pending acc (zip (prepared_list f (length pre) cs) es) in
  match scan locked pending (length pre) (batch_items f now before cs) with
  | ScanAllowed => exists pas, run = Done (inr (acc ++ pas)) /\ es = Evaluation_Allowed <$> pas
  | ScanDenied i q => run = Done (inl (denied_batch checks i q))
  | ScanFull i sh => exists r, run = Done (inl (full_batch checks i r))
  end.
Proof.
  intros Hok Hsplit Hpos Hev. revert pre pending acc Hsplit.
  induction Hev as [|c e cs es He _ IH]; intros pre pending acc Hsplit Hlen;
    [exists []; by rewrite app_nil_r|].
  apply Forall_cons in Hpos as [Hp1 Hpos].
  destruct (lookup_lt_is_Some_2 _ _ Hp1) as [[n sh] Hl].
  destruct (locked_ok_at _ _ _ _ _ _ Hok Hl) as [Hshok Hlat].
  assert (Hcl : checks !! length pre = Some c) by (rewrite Hsplit; by apply list_lookup_middle).
  assert (Hidx : (length pre < length checks)%nat) by (by eapply lookup_lt_Some).
  assert (Hsnoc : length (pre ++ [c]) = S (length pre)) by (rewrite length_app; simpl; lia).
  assert (Hsplit' : checks = (pre ++ [c]) ++ cs) by (by rewrite Hsplit, <- app_assoc).
  pose proof (fun pending' acc' => IH Hpos (pre ++ [c]) pending' acc' Hsplit') as Hnext.
  rewrite Hsnoc in Hnext. cbn [prepared_list zip zip_with preflight batch_items fmap list_fmap scan].
  fold (batch_items f now before cs). simpl shard_position. rewrite Hl.
  cbn [expect mbind Outcome_bind].
  change (qa_step c now) with (gcra_step c now). rewrite (evaluated_step _ _ _ _ He).
  destruct e as [pa|q]; cbn [verdict_denial snd fst].
  2:{ unfold denied_batch. rewrite Hcl. simpl.
      destruct (QuotaMode_eqb _ _);
        [rewrite BatchDecision_shadow_denied_ok by done|rewrite BatchDecision_denied_ok by done];
        done. }
  assert (Hgo : forall pending', length pending' = length locked ->
    let run := preflight checks now locked pending' (acc ++ [pa])
      (zip (prepared_list f (S (length pre)) cs) es) in
    match scan locked pending' (S (length pre)) (batch_items f now before cs) with
    | ScanAllowed => exists pas, run = Done (inr (acc ++ pas))
        /\ Evaluation_Allowed pa :: es = Evaluation_Allowed <$> pas
    | ScanDenied i q => run = Done (inl (denied_batch checks i q))
    | ScanFull i s => exists r, run = Done (inl (full_batch checks i r))
    end).
  { intros pending' Hlen'. specialize (Hnext pending' (acc ++ [pa]) Hlen'). cbv zeta in Hnext |- *.
    destruct (scan _ _ _ _); [|done..]. destruct Hnext as (pas & -> & ->). exists (pa :: pas).
    by rewrite <- app_assoc. }
  rewrite Hl. simpl counter_key. destruct (contains_key sh (Check_counter_key c)); cbn [negb].
  { by apply Hgo. }
  destruct (lookup_lt_is_Some_2 pending (f (Check_counter_key c))) as [m Hm]; [lia|].
  rewrite Hm. cbn [expect mbind Outcome_bind]. change (default 0%nat (Some m)) with m.
  destruct (Nat.leb (sh_capacity sh) (Shard_used sh + m)).
  - destruct (storage_capacity_denial_spec sh now (proj1 Hshok) ltac:(lia)) as (r & -> & _).
    cbn [mbind Outcome_bind]. simpl input_index. rewrite BatchDecision_denied_ok by done.
    by exists r.
  - apply Hgo. by rewrite length_insert.
Qed.

Definition pending_next (pa : PendingAllowance) : Z * Z := (tat_scaled pa, expires_at_millis pa).

(** The consumption loop stores the next counters. *)
Lemma gcra_consume_all_spec now f i locked (tat : Check GcraPolicy -> option Z) cs pas :
  locked_ok now locked -> Forall gcra_check_valid cs ->
  Forall (fun c => (f (Check_counter_key c) < length locked)%nat) cs ->
  NoDup (Check_counter_key <$> cs) ->
  Forall2 (fun c pa => evaluate c now (tat c) = Ok (Evaluation_Allowed pa)) cs pas ->
  has_room locked (fun q => new_count locked q (batch_slots f cs)) ->
  exists locked',
    consume_all locked (zip (prepared_list f i cs) pas)
      = Done (locked', pending_allowance <$> pas)
    /\ consumed_all entry_tat_scaled Entry_ok now locked
         (zip (batch_slots f cs) (pending_next <$> pas)) locked'.
Proof.
  intros Hok Hc Hpos Hnd Hall. revert i locked Hok Hpos.
  induction Hall as [|c pa cs pas He _ IH]; intros i locked Hok Hpos Hroom.
  { exists locked. split; [done|constructor]. }
  apply Forall_cons in Hc as [Hc1 Hc]. apply Forall_cons in Hpos as [Hp1 Hpos].
  rewrite fmap_cons in Hnd. apply NoDup_cons in Hnd as [Hni Hnd].
  destruct (lookup_lt_is_Some_2 _ _ Hp1) as [[n sh] Hl].
  destruct (locked_ok_at _ _ _ _ _ _ Hok Hl) as [Hshok Hlat].
  unfold batch_slots in Hroom. rewrite fmap_cons in Hroom. fold (batch_slots f cs) in Hroom.
  pose proof (gcra_consume_spec sh i c (f (Check_counter_key c)) now pa _ Hshok Hlat Hc1 He
    (has_room_first locked _ _ _ _ _ Hroom Hl)) as Hco.
  set (sh' := (consume sh (PreparedCheck_new i c (f (Check_counter_key c))) pa).1) in *.
  set (locked1 := <[f (Check_counter_key c) := (n, sh')]> locked).
  destruct (IH Hc Hnd (S i) locked1) as (locked' & Hrec & Hcons).
  - by apply (locked_ok_insert entry_tat_scaled _ _ _ _ _ _ _ _ _ Hok Hl Hco).
  - unfold locked1. by rewrite length_insert.
  - apply (has_room_rest entry_tat_scaled Entry_ok _ _ _ _ _ _ _ _ _ Hroom Hl Hco).
    by rewrite batch_slots_keys.
  - exists locked'. split.
    + cbn [prepared_list zip zip_with consume_all]. simpl shard_position. rewrite Hl.
      cbn [expect mbind Outcome_bind consume].
      change (replace sh _ _ _) with sh'. fold locked1. by rewrite Hrec.
    + by apply (consumed_cons _ _ _ _ _ _ n sh sh').
Qed.

(** ** Batches against the abstract counters *)

(** The critical section of a batch, against the counters it was given: an
    overflow of some check, or the effect of the batch. *)
Lemma gcra_check_all_locked_spec self checks f locked t d env :
  let keys := Check_counter_key <$> checks in
  let now := clamp_locked (as_millis d) locked in
  store_wf self -> batch_locked (shards self) keys f locked ->
  length (check_counts t) = length locked ->
  Forall gcra_check_valid checks -> NoDup keys -> checks <> [] ->
  (Exists (fun c => evaluated now (counter_of self) c = Err mkArithmeticOverflow) checks
   /\ check_all_locked (config self) checks t (prepared_list f 0 checks) locked d
        (env_cleanup_elapsed env) = Done (Err mkArithmeticOverflow))
  \/ exists locked' dec effs,
    check_all_locked (config self) checks t (prepared_list f 0 checks) locked d
      (env_cleanup_elapsed env) = Done (Ok (locked', mkMemEvaluation dec effs))
    /\ batch_frame Entry_ok (shards self) now locked locked'
    /\ batch_effect checks now dec
         (key_latest (release (shards self) locked')) (counter_of self)
         (key_counter entry_tat_scaled (release (shards self) locked')).
Proof.
  intros keys now Hwf Hbl Hlen Hc Hnd Hne.
  destruct (cleanup_frame entry_tat_scaled Entry_ok (config self) (shards self) keys f locked
    (check_counts t) (as_millis d) (env_cleanup_elapsed env) Hwf Hbl Hlen)
    as (locked1 & effects & Hrun & Hfr & Hv). fold now in Hrun, Hfr, Hv.
  pose proof (bf_ok _ _ _ _ _ Hfr) as Hok1.
  assert (Hat : forall c, c ∈ checks -> (f (Check_counter_key c) < length locked1)%nat
    /\ counter_of self (Check_counter_key c) now
       = pview locked1 (f (Check_counter_key c)) (Check_counter_key c) now).
  { intros c Hin. by apply (batch_at entry_tat_scaled _ _ _ _ _ _ _ _ Hbl Hfr Hv). }
  assert (Hpos : Forall (fun c => (f (Check_counter_key c) < length locked1)%nat) checks).
  { apply Forall_forall. intros c Hin. by apply Hat. }
  assert (Hlen1 : length locked1 = length locked).
  { pose proof (f_equal length (bf_fst _ _ _ _ _ Hfr)) as H. by rewrite !length_fmap in H. }
  pose proof (evaluate_all_spec now f 0 (counter_of self) locked checks) as Hev.
  unfold check_all_locked. fold now.
  destruct (evaluate_all now locked (prepared_list f 0 checks)) as [[es|[]]|].
  - right. specialize (Hev ltac:(by rewrite <- Hlen1)). cbn [mbind Outcome_bind].
    assert (Hes : Forall2 (fun c e => evaluated now (counter_of self) c = Ok e) checks es).
    { apply Hev, Forall_forall. intros c Hin. destruct (Hat c Hin) as [_ ->]. by apply Hv. }
    rewrite Hrun. cbn [mbind Outcome_bind].
    pose proof (gcra_preflight_scan checks now f (counter_of self) locked1 [] checks es
      (replicate (length locked1) 0%nat) [] Hok1 eq_refl Hpos Hes
      ltac:(apply length_replicate)) as Hpre.
    assert (Hno : Forall (fun c => qa_step c now
        (key_counter entry_tat_scaled (shards self) (Check_counter_key c) now) <> VOverflow) checks).
    { apply Forall_forall. intros c Hin. apply list_elem_of_lookup in Hin as [j Hj].
      destruct (Forall2_lookup_l _ _ _ _ _ Hes Hj) as (e & _ & He).
      change (gcra_step c now (counter_of self (Check_counter_key c) now) <> VOverflow).
      rewrite (evaluated_step _ _ _ _ He). by destruct e. }
    pose proof (scan_batch entry_tat_scaled Entry_ok (config self) (shards self) checks f now
      locked locked1 Hwf Hbl Hfr Hv Hno) as Hscan.
    simpl length in Hpre. cbv zeta in Hpre, Hscan. fold (counter_of self) in Hscan.
    destruct (scan _ _ _ _) as [|i q|i sh];
      [|rewrite Hpre; eexists _, _, _; split; [done|]; by split
       |destruct Hpre as [r ->]; eexists _, _, _; split; [done|]; split; [done|]; apply Hscan].
    destruct Hpre as (pas & -> & ->). destruct Hscan as [_ Hroom]. rewrite Forall2_fmap_r in Hes.
    destruct (gcra_consume_all_spec now f 0 locked1 _ checks pas Hok1 Hc Hpos Hnd Hes Hroom)
      as (locked2 & Hcrun & Hcons).
    destruct (consume_batch entry_tat_scaled Entry_ok (config self) (shards self) checks f now
      locked locked1 locked2 (pending_next <$> pas) (pending_allowance <$> pas) Hwf Hbl Hfr Hv Hnd)
      as [Hfr2 Heff]; [|by rewrite !length_fmap|done|].
    { rewrite zip_with_fmap_l, zip_with_fmap_r, zip_with_diag, Forall2_fmap_r.
      apply Forall2_same_length_lookup_2; [by apply Forall2_length in Hes|].
      intros j c pa Hcj Hpj. pose proof (Forall2_lookup_lr _ _ _ _ _ _ Hes Hcj Hpj) as He.
      destruct (Hat c) as [_ <-]; [by eapply list_elem_of_lookup_2|].
      apply (evaluated_step _ _ _ _ He). }
    cbn [mbind Outcome_bind app]. rewrite Hcrun. cbn [mbind Outcome_bind].
    assert (Hal : BatchDecision_allowed (pending_allowance <$> pas)
      = Ok (mkBatchDecision (BatchOutcome_Allowed (pending_allowance <$> pas)))).
    { destruct pas; [|done]. apply Forall2_length in Hes. by destruct checks. }
    rewrite Hal. eexists _, _, _. split; [done|]. by split.
  - left. split; [|done]. apply Hev; [by rewrite <- Hlen1|].
    apply Forall_forall. intros c Hin. destruct (Hat c Hin) as [_ ->]. by apply Hv.
  - exfalso. apply Hev; [by rewrite <- Hlen1|].
    apply Forall_forall. intros c Hin. destruct (Hat c Hin) as [_ ->]. by apply Hv.
Qed.

Lemma gcra_check_all_spec (self : GcraStore) (env : MemEnv) (d : Duration)
    (checks : list (Check GcraPolicy)) (t : BatchTopology) (Hwf : store_wf self)
    (Hc : Forall gcra_check_valid checks) (Henv : env_now env = Done d)
    (Hvalid : validate_batch checks (max_batch_size (config self)) = Ok tt)
    (Htop : BatchTopology_new
      (map (fun c => shard_of self (Check_counter_key c)) checks) (config self) = Ok t)
    (Hh : Forall (fun c => exists sh, healthy self (Check_counter_key c) sh) checks) :
  exists now, as_millis d <= now
  /\ (forall c, c ∈ checks -> latest_of self (Check_counter_key c) <= now)
  /\ ((Exists (fun c => evaluated now (counter_of self) c = Err mkArithmeticOverflow) checks
       /\ exists obs, check_all self env checks
            = (self, Done (Err GcraBatch_ArithmeticOverflow), obs))
      \/ exists self' dec obs,
           check_all self env checks = (self', Done (Ok dec), obs)
           /\ store_wf self'
           /\ (forall c, c ∈ checks -> latest_of self' (Check_counter_key c) = now)
           /\ (forall k, latest_of self k <= latest_of self' k)
           /\ batch_effect checks now dec (latest_of self') (counter_of self) (counter_of self')).
Proof.
  destruct (validate_batch_ok checks _ Hvalid) as (Hlen' & Hnd & _).
  assert (Hne : checks <> []) by (intros ->; simpl in Hlen'; lia).
  pose proof Htop as Htop'. unfold shard_of in Htop'.
  rewrite <- (map_map Check_counter_key (shard_index (shards self))) in Htop'.
  set (f := fun k => partition_point (shard_index (shards self) k) (topology_shards t)).
  destruct (batch_setup Entry_ok (config self) (shards self) _ t Hwf Htop')
    as [(_ & e & _ & k & m & Hk & Hm & Hp)|(Hpos & locked & Hlock & Hlen & Hbl & _)].
  { exfalso. change (map ?g ?l) with (g <$> l) in Hk. apply list_elem_of_fmap in Hk as (c & -> & Hin).
    rewrite Forall_forall in Hh. destruct (Hh c Hin) as [sh Hsh].
    unfold healthy, key_healthy in Hsh. rewrite Hm in Hsh. by injection Hsh as ->. }
  fold f in Hpos, Hbl. exists (clamp_locked (as_millis d) locked).
  destruct (cleanup_frame entry_tat_scaled Entry_ok (config self) (shards self) _ f locked
    (check_counts t) (as_millis d) (env_cleanup_elapsed env) Hwf Hbl Hlen)
    as (locked1 & _ & _ & Hfr1 & _).
  destruct (frame_latest entry_tat_scaled _ _ _ _ _ _ _ _ Hwf Hbl Hfr1) as (_ & Hl2 & _).
  split; [apply clamp_locked_ge|]. split.
  { intros c Hin. by apply Hl2, (list_elem_of_fmap_2 Check_counter_key). }
  assert (Hrun : check_all_inner self env checks =
    match check_all_locked (config self) checks t (prepared_list f 0 checks) locked d
            (env_cleanup_elapsed env) with
    | Panic => (with_shards self (poison (shards self) (map bs_index (topology_shards t))), Panic)
    | Done (Err _) => (self, Done (Err GcraBatch_ArithmeticOverflow))
    | Done (Ok (locked, evaluation)) =>
        (with_shards self (release (shards self) locked), Done (Ok evaluation))
    end).
  { unfold check_all_inner. rewrite Hvalid. unfold shard_of in Htop. rewrite Htop.
    rewrite (gcra_prepare_spec t f [] checks Hpos : prepare t 0 checks = _).
    cbn [mbind Outcome_bind]. rewrite Hlock, Henv. done. }
  destruct (gcra_check_all_locked_spec self checks f locked t d env Hwf Hbl Hlen Hc Hnd Hne)
    as [[Hex Hlocked]|(locked' & dec & effs & Hlocked & Hfr & Heff)]; rewrite Hlocked in Hrun;
    [left|right].
  - split; [done|]. unfold check_all. rewrite Hrun. by eexists.
  - destruct (frame_latest entry_tat_scaled _ _ _ _ _ _ _ _ Hwf Hbl Hfr) as (Hl1 & _ & Hl3).
    eexists (with_shards self (release (shards self) locked')), dec, _. split_and!.
    + unfold check_all. by rewrite Hrun.
    + apply (frame_wf _ _ _ _ _ _ _ _ Hwf Hbl Hfr).
    + intros c Hin. by apply Hl1, (list_elem_of_fmap_2 Check_counter_key).
    + exact Hl3.
    + exact Heff.
Qed.

(** C5. The GCRA store implements the pure transition. With a healthy
    target shard and any clock reading, [check] never panics.  When the
    transition of the key's counter at the clamped time cannot be
    represented, the check fails and the store is exactly what it was, clock
    and expired entries included.  Otherwise the invariant is kept, and the
    check decides and updates as the transition says: a denial (enforced or
    shadowed by the policy's mode) and a capacity denial change no counter,
    an allowance changes the counter of its key and no other, pruning is
    invisible, and a capacity denial happens only for an absent key in a full
    shard. *)
Theorem gcra_check_refines (self : GcraStore) (env : MemEnv) (d : Duration)
    (c : Check GcraPolicy) (sh : Shard Entry) (Hwf : store_wf self)
    (Hc : gcra_check_valid c) (Henv : env_now env = Done d)
    (Hsh : healthy self (Check_counter_key c) sh) :
  let now := Z.max (as_millis d) (latest_observed_millis sh) in
  match evaluate c now (fst <$> counter_of self (Check_counter_key c) now) with
  | Err _ => exists obs, check self env c = (self, Done (Err GcraCheck_ArithmeticOverflow), obs)
  | Ok _ => exists self' dec obs,
    check self env c = (self', Done (Ok dec), obs)
    /\ store_wf self'
    /\ (exists sh', healthy self' (Check_counter_key c) sh'
         /\ latest_observed_millis sh' = now
         /\ check_effect c now dec
              (Shard_used sh' = shard_capacity (config self) (shard_of self (Check_counter_key c))
               /\ contains_key sh' (Check_counter_key c) = false)
              (latest_of self') (counter_of self) (counter_of self'))
  end.
Proof.
  intros now. pose proof (gcra_check_spec self env d c sh Hwf Hc Henv Hsh) as H. cbv zeta in H.
  fold now in H. destruct (evaluate c now _) as [e|e]; [|done].
  destruct H as (self' & dec & obs & H1 & H2 & _ & H3). by exists self', dec, obs.
Qed.

(** C6. GCRA batches are atomic. For a structurally valid batch whose
    shards are healthy, [check_all] never panics and evaluates every check
    against one instant that no touched shard has passed.  If some
    transition overflows, the batch fails and the store is exactly what it
    was.  Otherwise either every check is allowed and every counter updated,
    with allowances in caller order; or no counter changes and the decision
    names the first refused check. *)
Theorem gcra_batch_atomic (self : GcraStore) (env : MemEnv) (d : Duration)
    (checks : list (Check GcraPolicy)) (t : BatchTopology) (Hwf : store_wf self)
    (Hc : Forall gcra_check_valid checks) (Henv : env_now env = Done d)
    (Hvalid : validate_batch checks (max_batch_size (config self)) = Ok tt)
    (Htop : BatchTopology_new
      (map (fun c => shard_of self (Check_counter_key c)) checks) (config self) = Ok t)
    (Hh : Forall (fun c => exists sh, healthy self (Check_counter_key c) sh) checks) :
  exists now, as_millis d <= now
  /\ (forall c, c ∈ checks -> latest_of self (Check_counter_key c) <= now)
  /\ ((Exists (fun c => evaluated now (counter_of self) c = Err mkArithmeticOverflow) checks
       /\ exists obs, check_all self env checks
            = (self, Done (Err GcraBatch_ArithmeticOverflow), obs))
      \/ exists self' dec obs,
           check_all self env checks = (self', Done (Ok dec), obs)
           /\ store_wf self'
           /\ (forall c, c ∈ checks -> latest_of self' (Check_counter_key c) = now)
           /\ (forall k, latest_of self k <= latest_of self' k)
           /\ batch_effect checks now dec (latest_of self') (counter_of self) (counter_of self')).
Proof. by apply (gcra_check_all_spec self env d checks t). Qed.

(** ** Concrete stores *)

Definition example_store : GcraStore := build (mkMemoryStoreConfig 4 2 8 32).

Lemma gcra_example_store_wf : store_wf example_store.
Proof. apply gcra_build_wf. unfold MemoryStoreConfig_wf; simpl; lia. Qed.

Definition example_env (millis : Z) : MemEnv :=
  mkMemEnv (Done (from_millis millis)) (fun _ => DURATION_ZERO) DURATION_ZERO.

(** C5 witness. *)
Lemma gcra_check_refines_witness :
  exists self' dec obs,
    check example_store (example_env 100) (example_gcra_check 0 1 5) = (self', Done (Ok dec), obs)
    /\ dec = Decision_allowed (mkAllowance (mkCapacity 5) 0 (Delay_new (from_millis 500)))
    /\ store_wf self'.
Proof.
  pose proof (gcra_check_refines example_store (example_env 100) (from_millis 100)
    (example_gcra_check 0 1 5) (Shard_new 2) gcra_example_store_wf
    (example_gcra_check_valid 0 1 5 ltac:(lia)) eq_refl ltac:(vm_compute; reflexivity)) as H.
  cbv zeta in H.
  replace (evaluate _ _ _) with (Ok (E := ArithmeticOverflow) (Evaluation_Allowed
    (mkPendingAllowance 6000 600 (mkAllowance (mkCapacity 5) 0 (Delay_new (from_millis 500))))))
    in H by (vm_compute; reflexivity).
  destruct H as (self' & dec & obs & Hrun & Hwf & _).
  exists self', dec, obs. split; [exact Hrun|]. split; [|exact Hwf].
  vm_compute in Hrun. injection Hrun as _ <- _. reflexivity.
Defined.

(** C6 witness. *)
Lemma gcra_batch_atomic_witness :
  exists now, 100 <= now /\
   (check_all example_store (example_env 100)
      [example_gcra_check 0 1 5; example_gcra_check 0 2 3]).1.2
   = Done (Ok (mkBatchDecision (BatchOutcome_Allowed
        [mkAllowance (mkCapacity 5) 0 (Delay_new (from_millis 500));
         mkAllowance (mkCapacity 5) 2 (Delay_new (from_millis 300))]))).
Proof.
  edestruct (gcra_batch_atomic example_store (example_env 100) (from_millis 100)
    [example_gcra_check 0 1 5; example_gcra_check 0 2 3]
    (mkBatchTopology [mkBatchShard 0 1; mkBatchShard 1 1] [1; 0]%nat) gcra_example_store_wf)
    as (now & Hnow & _).
  - constructor; [apply example_gcra_check_valid; lia|].
    constructor; [apply example_gcra_check_valid; lia|constructor].
  - reflexivity.
  - vm_compute. reflexivity.
  - vm_compute. reflexivity.
  - repeat constructor; exists (Shard_new 2); vm_compute; reflexivity.
  - exists now. split; [exact Hnow|]. vm_compute. reflexivity.
Defined.

End GcraStore.
