(* ===== verification/MemGcraTrace.v ===== *)
(** Histories of a GCRA memory store: it is a [CounterLimiter], and what it
    admits over any sequence of checks and batches. *)

From S2P Require Import Prelude RustStd Identifier Policy Decision AttemptPolicy Key Check Observation Gcra OrdSet MemConfig Shards BoundedShards Counters Limiter Ledger MemStore MemGcra.
Import GcraStore.
Open Scope list_scope.

(** * The store as a backend *)

#[export] Instance gcra_limiter
  : Limiter GcraStore MemEnv GcraPolicy GcraCheckError GcraBatchError := {
  limiter_check self env c := let '(self', r, _) := check self env c in (self', r);
  limiter_check_all self env cs := let '(self', r, _) := check_all self env cs in (self', r);
}.

Lemma gcra_inert_poison self idx :
  let self' := with_shards self (poison (shards self) idx) in
  store_wf self ->
  store_wf self' /\ (forall k, latest_of self k <= latest_of self' k)
  /\ inert (counter_of self) (counter_of self') (latest_of self) (latest_of self').
Proof.
  intros self' Hwf. split; [by apply poison_sharded_wf|].
  assert (Hi : inert (counter_of self) (counter_of self') (latest_of self) (latest_of self')).
  { intros k. apply poison_inert. }
  split; [|done]. intros k. destruct (Hi k) as [-> _]. lia.
Qed.

Lemma gcra_check_law self env c :
  store_wf self -> gcra_check_valid c ->
  let '(self', r) := limiter_check self env c in
  store_wf self' /\ (forall k, latest_of self k <= latest_of self' k)
  /\ match r with
     | Done (Ok dec) => exists full,
         check_effect c (latest_of self' (Check_counter_key c)) dec full
           (latest_of self') (counter_of self) (counter_of self')
     | _ => inert (counter_of self) (counter_of self') (latest_of self) (latest_of self')
     end.
Proof.
  intros Hwf Hc. simpl.
  destruct (lock_key Entry_ok (config self) (shards self) (Check_counter_key c) Hwf)
    as [Hlock|(sh & Hh & Hlock)].
  { unfold check, check_inner. rewrite Hlock. by split_and!. }
  destruct (env_now env) as [d|] eqn:Henv.
  2:{ unfold check, check_inner. rewrite Hlock, Henv. cbn [mbind Outcome_bind].
      by apply gcra_inert_poison. }
  pose proof (gcra_check_spec self env d c _ Hwf Hc Henv Hh) as Hspec. cbv zeta in Hspec.
  destruct (evaluate c _ _) as [e|e]; [|destruct Hspec as [obs ->]; by split_and!].
  destruct Hspec as (self' & dec & obs & -> & Hwf' & Hmono & sh' & Hh' & Hlat & Heff).
  split_and!; [done|done|]. eexists.
  assert (latest_of self' (Check_counter_key c) = latest_observed_millis sh') as ->.
  { unfold latest_of, key_latest. unfold healthy, key_healthy in Hh'. by rewrite Hh'. }
  rewrite Hlat. exact Heff.
Qed.

(** A batch either leaves the store's data alone or reaches its evaluations
    with every touched shard healthy. *)
Lemma gcra_check_all_cases self env cs :
  store_wf self ->
  (exists r obs idx, (check_all self env cs = (self, r, obs)
      \/ check_all self env cs = (with_shards self (poison (shards self) idx), r, obs))
    /\ forall dec, r <> Done (Ok dec))
  \/ exists t d, validate_batch cs (max_batch_size (config self)) = Ok tt
     /\ BatchTopology_new (map (fun c => shard_of self (Check_counter_key c)) cs) (config self) = Ok t
     /\ env_now env = Done d
     /\ Forall (fun c => exists sh, healthy self (Check_counter_key c) sh) cs.
Proof.
  intros Hwf. unfold check_all, check_all_inner.
  destruct (validate_batch cs _) as [[]|e] eqn:Hv; [|left; eexists _, _, []; split; [by left|done]].
  destruct (BatchTopology_new _ _) as [t|e] eqn:Ht;
    [|left; eexists _, _, []; split; [by left|done]].
  pose proof Ht as Ht'. rewrite <- (map_map Check_counter_key (shard_index (shards self))) in Ht'.
  destruct (batch_setup Entry_ok (config self) (shards self) _ t Hwf Ht')
    as [(Hpos & e & Hlock & _)|(Hpos & locked & Hlock & _ & _ & Hh)];
    rewrite (gcra_prepare_spec t _ [] cs Hpos : prepare t 0 cs = _), Hlock;
    cbn [mbind Outcome_bind mret Outcome_ret];
    [left; eexists _, _, []; split; [by left|done]|].
  destruct (env_now env) as [d|]; cbn [mbind Outcome_bind];
    [right|left; eexists _, _, _; split; [by right|done]].
  exists t, d. split_and!; [done|done|done|].
  change (map ?g ?l) with (g <$> l) in Hh. by rewrite Forall_fmap in Hh.
Qed.

Lemma gcra_check_all_law self env cs :
  store_wf self -> Forall gcra_check_valid cs ->
  let '(self', r) := limiter_check_all self env cs in
  store_wf self' /\ (forall k, latest_of self k <= latest_of self' k)
  /\ match r with
     | Done (Ok dec) => exists now,
         cs <> [] /\ NoDup (Check_counter_key <$> cs)
         /\ (forall c, c ∈ cs -> latest_of self' (Check_counter_key c) = now)
         /\ batch_effect cs now dec (latest_of self') (counter_of self) (counter_of self')
     | _ => inert (counter_of self) (counter_of self') (latest_of self) (latest_of self')
     end.
Proof.
  intros Hwf Hc. simpl.
  destruct (gcra_check_all_cases self env cs Hwf)
    as [(r & obs & idx & Hrun & Hr)|(t & d & Hv & Ht & Henv & Hh)].
  - pose proof (gcra_inert_poison self idx Hwf) as Hi. cbv zeta in Hi.
    destruct Hrun as [-> | ->]; destruct r as [[dec|e]|]; try (by destruct (Hr dec)); done.
  - destruct (gcra_check_all_spec self env d cs t Hwf Hc Henv Hv Ht Hh) as (now & _ & _ & Hcases).
    destruct Hcases as [[_ [obs ->]]|(self' & dec & obs & -> & Hwf' & Hlat & Hmono & Heff)];
      [by split_and!|].
    split_and!; [done|done|]. destruct (validate_batch_ok cs _ Hv) as (Hlen & Hnd & _).
    exists now. split_and!; [by intros ->; simpl in Hlen; lia|done|done|exact Heff].
Qed.

#[export] Instance gcra_counter_limiter
  : CounterLimiter GcraStore MemEnv GcraPolicy GcraCheckError GcraBatchError := {
  bk_wf := store_wf;
  bk_counter := counter_of;
  bk_instant := latest_of;
  bk_check := gcra_check_law;
  bk_check_all := gcra_check_all_law;
}.

(** * The account of a counter *)

(** The policies of a counter agree on its numbers: quota [q] per period
    [w], burst [b]. *)
Definition gcra_keyed (q w b : Z) (c : Check GcraPolicy) : Prop :=
  gcra_quota (check_policy c) = q /\ gcra_period (check_policy c) = w
  /\ Capacity_get (gp_burst_capacity (check_policy c)) = b.

(** In scaled units, the charges since any instant [a] fit between [a] and
    the arrival time; and the charges of any interval fit in the burst plus
    what the quota replenishes. *)
Definition gcra_acct (q w b : Z) (l : list (Z * Z)) (cur : option (Z * Z)) : Prop :=
  (forall a e, a <= e -> charged_in a e l * w <= b * w + (e - a) * q)
  /\ match cur with
     | None => l = []
     | Some (tat, x) => tat <= x * q
         /\ forall a e, charged_in a e l * w + a * q <= Z.max tat (a * q)
     end.

Lemma gcra_account q w b :
  1 <= q -> 1 <= w -> 1 <= b -> account (gcra_keyed q w b) (gcra_acct q w b).
Proof.
  intros Hq Hw Hb. split; [split; [|done]; intros a e Hae; unfold charged_in; simpl; nia|].
  intros l cur c now next al [Hint Hcur] _ Hv (Hcq & Hcw & Hcb) Hstep.
  change (qa_step c now) with (gcra_step c now) in Hstep. unfold gcra_step in Hstep.
  set (tat := fst <$> (cur ≫= expire now)) in *.
  destruct (evaluate c now tat) as [[pa|]|] eqn:He; [|done..]. injection Hstep as <- _.
  destruct (evaluate_Ok _ _ _ _ He) as (Hx & Hnow & _).
  pose proof (gcra_check_facts c Hv) as Hf. rewrite Hcq, Hcw, Hcb in Hf.
  destruct Hf as [_ _ _ Hcost _].
  destruct (evaluate_exact_cases c now tat) as [[_ Heq]|[Hle Heq]]; rewrite Heq in Hx; [done|].
  injection Hx as ->. cbn [tat_scaled expires_at_millis] in *.
  unfold gcra_span in Hle. rewrite Hcq, Hcw, Hcb in *.
  set (act := active_tat (check_policy c) now tat) in *.
  assert (Hact : now * q <= act /\ forall a e, charged_in a e l * w + a * q <= Z.max act (a * q)).
  { unfold act, active_tat, tat. rewrite Hcq. destruct cur as [[t x]|]; cbn.
    - destruct Hcur as [Htx Hch]. unfold expire. simpl.
      destruct (Z.ltb_spec now x); cbn; (split; [lia|]); intros a e; specialize (Hch a e); [lia|].
      assert (x * q <= now * q) by nia. lia.
    - split; [lia|]. subst l. intros a e. unfold charged_in. simpl. lia. }
  clearbody act. clear Hcur He Heq. destruct Hact as [Hact Hch].
  assert (Hcw0 : 0 < check_cost c * w) by nia.
  split; [|split].
  - intros a e Hae. rewrite charged_cons. specialize (Hch a e). specialize (Hint a e Hae).
    destruct (Z.leb_spec a now), (Z.ltb_spec now e); cbn [andb]; rewrite ?Z.mul_add_distr_r;
      [|lia..].
    assert (a * q <= now * q) by nia. assert (now * q <= e * q) by nia. nia.
  - pose proof (div_ceil_lower (act + check_cost c * w - now * q) q ltac:(lia)) as Hup.
    rewrite Z.mul_add_distr_r. lia.
  - intros a e. rewrite charged_cons. specialize (Hch a e).
    destruct (Z.leb_spec a now), (Z.ltb_spec now e); cbn [andb]; rewrite ?Z.mul_add_distr_r;
      [|lia..].
    assert (a * q <= now * q) by nia. lia.
Qed.

Lemma gcra_build_empty cfg k t : counter_of (build cfg) k t = None.
Proof. apply BoundedShards_new_counter. Qed.

(** C4. The GCRA rate bound, end to end. Run any sequence of checks and
    batches against a fresh store, with any clock readings (stopped,
    jumping, going backwards or panicking) and any interleaving of keys,
    batches, denials, overflows, capacity refusals and poisonings.  For a
    counter whose policies have quota [q] per [w] milliseconds and burst
    [b], the cost actually admitted in any interval [a, e) is at most the
    burst plus the replenished quota: [cost * w <= b * w + (e - a) * q].
    Expiring and pruning the counter never admits more. *)
Theorem gcra_store_rate_bound (cfg : MemoryStoreConfig)
    (events : list (limiter_event MemEnv GcraPolicy)) (k : CounterKey) (q w b : Z)
    (Hcfg : MemoryStoreConfig_wf cfg) (Hq : 1 <= q) (Hw : 1 <= w) (Hb : 1 <= b)
    (Hevents : Forall (fun e => Forall gcra_check_valid (event_checks e)
       /\ Forall (own (gcra_keyed q w b) k) (event_checks e)) events) :
  let '(self', ledger) := run (build cfg) [] events in
  store_wf self'
  /\ forall a e, a <= e -> charged_in a e (charges_for k ledger) * w <= b * w + (e - a) * q.
Proof.
  pose proof (run_account (gcra_keyed q w b) (gcra_acct q w b) (gcra_account q w b Hq Hw Hb) k
    (build cfg) events (gcra_build_wf cfg Hcfg) (gcra_build_empty cfg k) Hevents) as H.
  destruct (run (build cfg) [] events) as [self' ledger].
  destruct H as [Hwf (cur & [Hint _] & _)]. by split.
Qed.

(** C4 witness. *)
Lemma gcra_store_rate_bound_witness :
  let c := example_gcra_check 0 1 2 in
  let events :=
    [EvCheck (example_env 0) c; EvCheck (example_env 10) c; EvCheck (example_env 20) c;
     EvBatch (example_env 150) [c; example_gcra_check 0 2 1]; EvCheck (example_env 700) c] in
  let '(self', ledger) := run (build (mkMemoryStoreConfig 4 2 8 32)) [] events in
  charges_for (Check_counter_key c) ledger = [(700, 2); (150, 2); (10, 2); (0, 2)]
  /\ charged_in 0 701 (charges_for (Check_counter_key c) ledger) * 1000
     <= 5 * 1000 + (701 - 0) * 10.
Proof.
  cbv zeta.
  assert (Hv : forall tag s n, 1 <= n <= 5 ->
    gcra_check_valid (example_gcra_check tag s n)
    /\ own (gcra_keyed 10 1000 5) (Check_counter_key (example_gcra_check 0 1 2))
        (example_gcra_check tag s n)).
  { intros tag s n Hn. split; [by apply example_gcra_check_valid|by intros _]. }
  pose proof (gcra_store_rate_bound (mkMemoryStoreConfig 4 2 8 32)
    [EvCheck (example_env 0) (example_gcra_check 0 1 2);
     EvCheck (example_env 10) (example_gcra_check 0 1 2);
     EvCheck (example_env 20) (example_gcra_check 0 1 2);
     EvBatch (example_env 150) [example_gcra_check 0 1 2; example_gcra_check 0 2 1];
     EvCheck (example_env 700) (example_gcra_check 0 1 2)]
    (Check_counter_key (example_gcra_check 0 1 2)) 10 1000 5
    ltac:(unfold MemoryStoreConfig_wf; simpl; lia)
    ltac:(lia) ltac:(lia) ltac:(lia)) as H.
  destruct (run _ [] _) as [self' ledger] eqn:Hrun. split.
  - vm_compute in Hrun. injection Hrun as _ <-. vm_compute. reflexivity.
  - apply H; [|lia]. repeat constructor; apply Hv; lia.
Defined.
