(* ===== verification/Retry.v ===== *)
(** What [retry_after] is worth: a client denied for its quota that asks
    again is denied exactly until the delay it was told has passed, as long as
    nothing is charged to its counter in between.  Proved once against
    [CounterLimiter], for any quota algorithm whose denials are honest about
    one step, then for both memory stores. *)

From S2P Require Import Prelude RustStd Identifier Policy Decision AttemptPolicy Key Check Observation Gcra OrdSet MemConfig Shards BoundedShards Counters Limiter Ledger Windows MemStore MemStoreTrace MemGcra MemGcraTrace.
Import MemoryStore GcraStore.
Open Scope list_scope.

(** The quota denial a decision reports, enforced or not. *)
Definition reported_quota_denial (dec : Decision) : option QuotaDenial :=
  match Decision_view dec with
  | DecisionView_Denied (QuotaExceeded q) => Some q
  | DecisionView_ShadowDenied q => Some q
  | _ => None
  end.

(** * Any backend with counters *)

Section Retries.
Context {L Env P CheckErr BatchErr : Type} `{CounterLimiter L Env P CheckErr BatchErr}.

(** A denial of a counter tells how long the same check stays denied if
    nothing else happens to the counter. *)
Definition honest (mine : Check P -> Prop) (acct : list (Z * Z) -> option (Z * Z) -> Prop)
    : Prop :=
  forall l cur c now q,
    acct l cur -> qa_valid c -> mine c -> qa_step c now (cur ≫= expire now) = VDeny q ->
    exists r, QuotaDenial_retry_after q = Delay_new (from_millis r) /\ 0 < r
    /\ forall now', now <= now' ->
         match qa_step c now' (cur ≫= expire now') with
         | VAllow _ _ => now + r <= now'
         | VDeny _ => now' < now + r
         | VOverflow => True
         end.

Lemma event_instant s e k :
  bk_wf s -> Forall qa_valid (event_checks e) ->
  let '(s', _) := event_step s e in bk_wf s' /\ bk_instant s k <= bk_instant s' k.
Proof.
  intros Hwf Hv. destruct e as [env c|env cs]; simpl in *.
  - pose proof (bk_check s env c Hwf (Forall_inv Hv)) as Hlaw.
    destruct (limiter_check s env c) as [s' r]. destruct Hlaw as (Hwf' & Hmono & _). by split.
  - pose proof (bk_check_all s env cs Hwf Hv) as Hlaw.
    destruct (limiter_check_all s env cs) as [s' r]. destruct Hlaw as (Hwf' & Hmono & _). by split.
Qed.

Lemma run_instant s ledger events k :
  bk_wf s -> Forall (fun e => Forall qa_valid (event_checks e)) events ->
  let '(s', _) := run s ledger events in bk_wf s' /\ bk_instant s k <= bk_instant s' k.
Proof.
  intros Hwf Hev. revert s ledger Hwf. induction Hev as [|e events Hv _ IH]; intros s ledger Hwf.
  - by split.
  - simpl. pose proof (event_instant s e k Hwf Hv) as He.
    destruct (event_step s e) as [s' charges]. destruct He as [Hwf' Hle].
    specialize (IH s' (charges ++ ledger) Hwf').
    destruct (run s' _ events) as [s'' ledger'']. destruct IH as [? IH]. split; [done|lia].
Qed.

(** A counter nothing is charged to keeps its value through a run. *)
Lemma run_uncharged s events k cur :
  bk_wf s -> Forall (fun e => Forall qa_valid (event_checks e)) events ->
  (forall t, bk_instant s k <= t -> bk_counter s k t = (cur ≫= expire t)) ->
  let '(s', ledger) := run s [] events in
  bk_wf s' /\ (charges_for k ledger = [] ->
    forall t, bk_instant s' k <= t -> bk_counter s' k t = (cur ≫= expire t)).
Proof.
  intros Hwf Hev Hcur.
  pose proof (run_tracked (fun _ => True) (fun l cur' => l = [] -> cur' = cur)
    ltac:(by intros l cur' c now next a _ _ _ _ _ [=]) k s [] events Hwf) as Hrun.
  destruct (run s [] events) as [s' ledger].
  destruct Hrun as [Hwf' (cur' & Heq & _ & Hcur')].
  - eapply Forall_impl; [exact Hev|]. intros e He. split; [exact He|].
    apply Forall_forall. by intros c _ _.
  - exists cur. split_and!; [done| |done]. intros y Hy. by apply not_elem_of_nil in Hy.
  - split; [exact Hwf'|]. intros Hnone. by rewrite <- (Heq Hnone).
Qed.

(** A reported quota denial is the algorithm's, and leaves the counter. *)
Lemma check_reports s env c :
  bk_wf s -> qa_valid c ->
  let k := Check_counter_key c in
  let '(s', r) := limiter_check s env c in
  bk_wf s' /\ bk_instant s k <= bk_instant s' k
  /\ forall dec, r = Done (Ok dec) ->
     match qa_step c (bk_instant s' k) (bk_counter s k (bk_instant s' k)) with
     | VAllow _ _ => reported_quota_denial dec = None
     | VDeny q => reported_quota_denial dec = Some q
         /\ forall t, bk_instant s' k <= t -> bk_counter s' k t = bk_counter s k t
     | VOverflow => False
     end.
Proof.
  intros Hwf Hv k. pose proof (bk_check s env c Hwf Hv) as Hlaw.
  destruct (limiter_check s env c) as [s' r]. destruct Hlaw as (Hwf' & Hmono & Heff).
  split_and!; [done|apply Hmono|]. intros dec ->. destruct Heff as [full Heff].
  unfold check_effect in Heff. fold k in Heff. destruct (qa_step _ _ _) as [next a|q|].
  - by destruct Heff as [[-> _]|(_ & _ & [r ->] & _)].
  - destruct Heff as [-> Hsame]. split; [|intros t; apply Hsame].
    unfold denied_decision. by destruct (QuotaMode_eqb _ _).
  - done.
Qed.

(** The retry of a denied check, after any run that charges nothing to its
    counter, is denied exactly before the reported delay has passed. *)
Lemma retry_exact mine acct k s l env c events env' :
  honest mine acct -> bk_wf s -> tracked acct k s l ->
  qa_valid c -> mine c -> Check_counter_key c = k ->
  Forall (fun e => Forall qa_valid (event_checks e)) events ->
  let '(s1, r1) := limiter_check s env c in
  let '(s2, ledger) := run s1 [] events in
  let '(s3, r2) := limiter_check s2 env' c in
  forall dec q dec', r1 = Done (Ok dec) -> reported_quota_denial dec = Some q ->
  charges_for k ledger = [] -> r2 = Done (Ok dec') ->
  exists r, QuotaDenial_retry_after q = Delay_new (from_millis r) /\ 0 < r
  /\ (is_Some (reported_quota_denial dec') <-> bk_instant s3 k < bk_instant s1 k + r).
Proof.
  intros Hhon Hwf (cur & Hacct & _ & Hcur) Hv Hmine <- Hev.
  pose proof (check_reports s env c Hwf Hv) as Hdeny. cbv zeta in Hdeny.
  destruct (limiter_check s env c) as [s1 r1]. destruct Hdeny as (Hwf1 & Hle1 & Hdeny).
  pose proof (run_instant s1 [] events (Check_counter_key c) Hwf1 Hev) as Hle2.
  pose proof (fun Hc => run_uncharged s1 events (Check_counter_key c) cur Hwf1 Hev Hc) as Hrun.
  destruct (run s1 [] events) as [s2 ledger]. destruct Hle2 as [_ Hle2].
  pose proof (fun Hwf2 => check_reports s2 env' c Hwf2 Hv) as Hretry. cbv zeta in Hretry.
  destruct (limiter_check s2 env' c) as [s3 r2].
  intros dec q dec' -> Hq Hnone ->. specialize (Hdeny dec eq_refl). rewrite Hcur in Hdeny by done.
  destruct (qa_step c (bk_instant s1 _) _) as [next a|q'|] eqn:Hstep;
    [congruence| |by destruct Hdeny].
  destruct Hdeny as [Hq' Hsame]. assert (q' = q) as -> by congruence.
  destruct Hrun as [Hwf2 Hrun]; [intros t Ht; rewrite Hsame by done; apply Hcur; lia|].
  destruct (Hretry Hwf2) as (_ & Hle3 & Hretry'). specialize (Hretry' dec' eq_refl).
  rewrite Hrun in Hretry' by done.
  destruct (Hhon l cur c _ q Hacct Hv Hmine Hstep) as (r & Hr & Hpos & Hlater).
  exists r. split; [exact Hr|split; [exact Hpos|]]. specialize (Hlater _ (Z.le_trans _ _ _ Hle2 Hle3)).
  destruct (qa_step c (bk_instant s3 _) (cur ≫= _)) as [next a|q''|];
    [| |destruct Hretry'].
  - rewrite Hretry'. split; [by intros [? ?]|lia].
  - destruct Hretry' as [-> _]. split; [done|by eexists].
Qed.

Lemma run_retry_exact mine acct s before c env meanwhile env' :
  account mine acct -> honest mine acct -> bk_wf s ->
  (forall t, bk_counter s (Check_counter_key c) t = None) ->
  qa_valid c -> mine c ->
  Forall (fun e => Forall qa_valid (event_checks e)
    /\ Forall (own mine (Check_counter_key c)) (event_checks e)) before ->
  Forall (fun e => Forall qa_valid (event_checks e)) meanwhile ->
  let k := Check_counter_key c in
  let '(s0, _) := run s [] before in
  let '(s1, r1) := limiter_check s0 env c in
  let '(s2, ledger) := run s1 [] meanwhile in
  let '(s3, r2) := limiter_check s2 env' c in
  bk_wf s2
  /\ forall dec q dec', r1 = Done (Ok dec) -> reported_quota_denial dec = Some q ->
     charges_for k ledger = [] -> r2 = Done (Ok dec') ->
     exists r, QuotaDenial_retry_after q = Delay_new (from_millis r) /\ 0 < r
     /\ (is_Some (reported_quota_denial dec') <-> bk_instant s3 k < bk_instant s1 k + r).
Proof.
  intros Hacct Hhon Hwf Hempty Hv Hmine Hbefore Hmeanwhile k.
  pose proof (run_account mine acct Hacct k s before Hwf Hempty Hbefore) as Hrun.
  destruct (run s [] before) as [s0 ledger0]. destruct Hrun as [Hwf0 Htracked].
  pose proof (retry_exact mine acct k s0 _ env c meanwhile env' Hhon Hwf0 Htracked Hv Hmine
    eq_refl Hmeanwhile) as Hretry.
  pose proof (check_reports s0 env c Hwf0 Hv) as Hfirst. cbv zeta in Hfirst.
  destruct (limiter_check s0 env c) as [s1 r1]. destruct Hfirst as [Hwf1 _].
  pose proof (run_instant s1 [] meanwhile k Hwf1 Hmeanwhile) as Hwf2.
  destruct (run s1 [] meanwhile) as [s2 ledger]. destruct Hwf2 as [Hwf2 _].
  by destruct (limiter_check s2 env' c) as [s3 r2].
Qed.
End Retries.

(** * Fixed windows *)

(** A denied window says when it ends, and a fresh one admits any check. *)
Lemma fw_honest mine acct : honest (P := FixedWindowPolicy) mine acct.
Proof.
  intros l cur c now q _ _ _ Hstep. simpl in *. unfold check_step in *.
  destruct cur as [[u x]|]; [|done]. unfold expire in Hstep. cbn in *.
  destruct (Z.ltb_spec now x) as [Hlive|]; [|done]. simpl in Hstep.
  destruct (_ <? check_cost c) eqn:Hdeny; [|done]. injection Hstep as <-.
  exists (x - now). split; [done|split; [lia|]]. intros now' Hle. unfold expire. cbn.
  destruct (Z.ltb_spec now' x); simpl; [rewrite Hdeny; lia|lia].
Qed.

(** Every account can be forgotten. *)
Lemma any_account : account (P := FixedWindowPolicy) (fun _ => True) (fun _ _ => True).
Proof. by split. Qed.

(** A decision is made no earlier than its clock reading. *)
Lemma memory_check_after (self : MemoryStore) env c d :
  MemoryStore.store_wf self -> fw_check_valid c -> env_now env = Done d ->
  let '(self', r, _) := MemoryStore.check self env c in
  forall dec, r = Done (Ok dec) ->
  as_millis d <= MemoryStore.latest_of self' (Check_counter_key c).
Proof.
  intros Hwf Hc Henv.
  destruct (lock_key MemoryStore.Entry_ok (MemoryStore.config self) (MemoryStore.shards self)
    (Check_counter_key c) Hwf) as [Hlock|(sh & Hh & Hlock)].
  { unfold MemoryStore.check, MemoryStore.check_inner. by rewrite Hlock. }
  destruct (check_spec self env d c _ Hwf Hc Henv Hh)
    as (self' & dec & obs & -> & _ & _ & sh' & Hh' & Hlat & _).
  intros dec' _. unfold MemoryStore.latest_of, key_latest.
  unfold MemoryStore.healthy, key_healthy in Hh'. rewrite Hh'.
  simpl. rewrite Hlat. apply Z.le_max_l.
Qed.

(** C7. A fixed-window denial's [retry_after] is honest, end to end. Run any
    calls against a fresh store; let a check be denied for its quota
    (enforced or in shadow mode), let any calls follow that charge nothing to
    its counter, and let the check be made again.  If that is decided, it is
    denied for its quota exactly when its instant lies before the first
    decision's instant plus the reported delay, which is positive; in
    particular a client that waits for the delay is not denied again. *)
Theorem fixed_window_retry_after (cfg : MemoryStoreConfig)
    (before meanwhile : list (limiter_event MemEnv FixedWindowPolicy))
    (c : Check FixedWindowPolicy) (env env' : MemEnv)
    (Hcfg : MemoryStoreConfig_wf cfg) (Hc : fw_check_valid c)
    (Hbefore : Forall (fun e => Forall fw_check_valid (event_checks e)) before)
    (Hmeanwhile : Forall (fun e => Forall fw_check_valid (event_checks e)) meanwhile) :
  let k := Check_counter_key c in
  let '(s0, _) := run (MemoryStore.build cfg) [] before in
  let '(s1, r1, _) := MemoryStore.check s0 env c in
  let '(s2, ledger) := run s1 [] meanwhile in
  let '(s3, r2, _) := MemoryStore.check s2 env' c in
  forall dec q dec', r1 = Done (Ok dec) -> reported_quota_denial dec = Some q ->
  charges_for k ledger = [] -> r2 = Done (Ok dec') ->
  exists r, QuotaDenial_retry_after q = Delay_new (from_millis r) /\ 0 < r
  /\ (is_Some (reported_quota_denial dec')
      <-> MemoryStore.latest_of s3 k < MemoryStore.latest_of s1 k + r)
  /\ forall d, env_now env' = Done d -> MemoryStore.latest_of s1 k + r <= as_millis d ->
     reported_quota_denial dec' = None.
Proof.
  intros k.
  pose proof (run_retry_exact (L := MemoryStore) (fun _ => True) (fun _ _ => True)
    (MemoryStore.build cfg) before c env meanwhile env' any_account (fw_honest _ _)
    (MemoryStore.build_wf cfg Hcfg) (build_empty cfg k) Hc I) as Hretry.
  cbv zeta in Hretry. fold k in Hretry.
  destruct (run (MemoryStore.build cfg) [] before) as [s0 ledger0]. simpl limiter_check in Hretry.
  destruct (MemoryStore.check s0 env c) as [[s1 r1] obs1].
  destruct (run s1 [] meanwhile) as [s2 ledger].
  pose proof (fun d Hwf => memory_check_after s2 env' c d Hwf Hc) as Hafter.
  destruct (MemoryStore.check s2 env' c) as [[s3 r2] obs2].
  destruct Hretry as [Hwf2 Hretry]; [|exact Hmeanwhile|].
  { eapply Forall_impl; [exact Hbefore|]. intros e He. split; [exact He|].
    apply Forall_forall. by intros c' _ _. }
  intros dec q dec' Hr1 Hq Hnone Hr2.
  destruct (Hretry dec q dec' Hr1 Hq Hnone Hr2) as (r & Hr & Hpos & Hiff).
  exists r. split; [exact Hr|split; [exact Hpos|split; [exact Hiff|]]]. intros d Hd Hwait.
  specialize (Hafter d Hwf2 Hd dec' Hr2). apply eq_None_not_Some. rewrite Hiff.
  exact (proj2 (Z.nlt_ge _ _) (Z.le_trans _ _ _ Hwait Hafter)).
Qed.

(** C7 witness. *)
Lemma fixed_window_retry_after_witness :
  let c := example_check 3 1000 0 1 2 in
  let '(s1, r1, _) := MemoryStore.check
    (run (MemoryStore.build (mkMemoryStoreConfig 4 2 8 32)) [] [EvCheck (example_env 5) c]).1
    (example_env 105) c in
  let '(s2, ledger) := run s1 [] [EvCheck (example_env 300) (example_check 3 1000 0 2 1);
    EvCheck (example_env 400) c] in
  let '(s3, r2, _) := MemoryStore.check s2 (example_env 1005) c in
  r1 = Done (Ok (Decision_denied (QuotaExceeded (QuotaDenial_new (mkCapacity 3) (from_millis 900)))))
  /\ exists dec, r2 = Done (Ok dec) /\ reported_quota_denial dec = None.
Proof.
  cbv zeta.
  pose proof (fixed_window_retry_after (mkMemoryStoreConfig 4 2 8 32)
    [EvCheck (example_env 5) (example_check 3 1000 0 1 2)]
    [EvCheck (example_env 300) (example_check 3 1000 0 2 1);
     EvCheck (example_env 400) (example_check 3 1000 0 1 2)]
    (example_check 3 1000 0 1 2) (example_env 105) (example_env 1005)
    example_config_wf (example_check_valid 0 1 2 ltac:(lia))
    ltac:(repeat constructor; apply example_check_valid; lia)
    ltac:(repeat constructor; apply example_check_valid; lia)) as Hretry.
  cbv zeta in Hretry.
  destruct (run (MemoryStore.build (mkMemoryStoreConfig 4 2 8 32)) [] _) as [s0 l0] eqn:E0.
  vm_compute in E0. injection E0 as <- <-. simpl fst.
  destruct (MemoryStore.check _ (example_env 105) _) as [[s1 r1] o1] eqn:E1.
  vm_compute in E1. injection E1 as <- <- <-.
  destruct (run _ [] _) as [s2 l] eqn:E2. vm_compute in E2. injection E2 as <- <-.
  destruct (MemoryStore.check _ (example_env 1005) _) as [[s3 r2] o3] eqn:E3.
  vm_compute in E3. injection E3 as <- <- <-.
  destruct (Hretry _ _ _ eq_refl eq_refl eq_refl eq_refl) as (r & Hr & _ & _ & Hwait).
  split; [reflexivity|]. eexists. split; [reflexivity|].
  apply (Hwait (from_millis 1005)); [reflexivity|].
  assert (r = 900) as -> by (injection Hr; intros; lia).
  vm_compute. discriminate.
Defined.

(** * GCRA *)

(** The policies of a counter share its quota. *)
Definition gcra_quoted (q : Z) (c : Check GcraPolicy) : Prop := gcra_quota (check_policy c) = q.

(** A counter expires once its arrival time is reached. *)
Definition covered (q : Z) (_ : list (Z * Z)) (cur : option (Z * Z)) : Prop :=
  match cur with
  | Some (tat, x) => tat <= x * q
  | None => True
  end.

Lemma covered_account q : account (gcra_quoted q) (covered q).
Proof.
  split; [done|]. intros l cur c now next a _ _ Hv Hq Hstep.
  change (qa_step c now) with (gcra_step c now) in Hstep. unfold gcra_step in Hstep.
  destruct (evaluate c now _) as [[pa|]|] eqn:He; [|done..]. injection Hstep as <- _.
  destruct (evaluate_Ok _ _ _ _ He) as (Hx & _ & _).
  pose proof (gcra_check_facts c Hv) as Hf. rewrite Hq in Hf. destruct Hf as [Hq1 _ _ _ _].
  destruct (evaluate_exact_cases c now (fst <$> (cur ≫= expire now))) as [[_ Heq]|[_ Heq]];
    rewrite Heq in Hx; [done|]. injection Hx as ->. unfold covered. cbn [tat_scaled expires_at_millis].
  rewrite Hq in *. set (candidate := active_tat _ _ _ + _).
  pose proof (div_ceil_lower (candidate - now * q) q ltac:(lia)). lia.
Qed.

(** Expiry does not change the arrival time that counts. *)
Lemma active_tat_covered p l cur now :
  1 <= gcra_quota p -> covered (gcra_quota p) l cur ->
  active_tat p now (fst <$> (cur ≫= expire now))
  = Z.max (default (now * gcra_quota p) (fst <$> cur)) (now * gcra_quota p).
Proof.
  intros Hq Hcov. unfold active_tat. destruct cur as [[tat x]|]; [|done]. cbn in *.
  unfold expire. cbn. destruct (Z.ltb_spec now x); cbn; [done|]. nia.
Qed.

(** The excess of a candidate over its ceiling melts at the quota's rate. *)
Lemma gcra_honest q : honest (gcra_quoted q) (covered q).
Proof.
  intros l cur c now d Hcov Hv Hq Hstep. pose proof (gcra_check_facts c Hv) as Hf.
  destruct Hf as [Hq1 Hw _ Hcost _]. unfold gcra_quoted in Hq. subst q.
  change (qa_step c) with (gcra_step c) in *. unfold gcra_step in Hstep.
  destruct (evaluate c now _) as [[pa|d']|] eqn:He; [done| |done]. injection Hstep as ->.
  destruct (evaluate_Ok _ _ _ _ He) as (Hx & _ & _). clear He.
  set (p := check_policy c) in *. set (cost := check_cost c * gcra_period p).
  set (over t := active_tat p t (fst <$> (cur ≫= expire t)) + cost - (t * gcra_quota p + gcra_span p)).
  assert (Hover : forall t, over t = Z.max (over now - (t - now) * gcra_quota p) (cost - gcra_span p)
    \/ t < now).
  { intros t. destruct (Z.ltb_spec t now) as [|Hle]; [by right|left]. unfold over.
    rewrite !(active_tat_covered p l) by (done || apply Hq1). destruct cur as [[tat x]|]; cbn; nia. }
  assert (Hspan : cost <= gcra_span p) by (unfold cost, gcra_span; fold (gcra_period p); nia).
  destruct (evaluate_exact_cases c now (fst <$> (cur ≫= expire now))) as [[Hgt Heq]|[_ Heq]];
    rewrite Heq in Hx; [injection Hx as ->|done].
  change (QuotaDenial_new _ _) with
    (QuotaDenial_new (gp_burst_capacity p) (from_millis (div_ceil (over now) (gcra_quota p)))).
  exists (div_ceil (over now) (gcra_quota p)). split; [done|]. split.
  { apply div_ceil_pos; [lia|]. unfold over, cost, p. lia. }
  intros now' Hle. destruct (Hover now') as [Hmelt|]; [|lia]. unfold gcra_step.
  destruct (evaluate c now' _) as [e|] eqn:He'; [|done].
  destruct (evaluate_Ok _ _ _ _ He') as (-> & _ & _).
  pose proof (div_ceil_le (over now) (gcra_quota p) (now' - now) ltac:(lia)) as Hceil.
  destruct (evaluate_exact_cases c now' (fst <$> (cur ≫= expire now'))) as [[Hgt' ->]|[Hle' ->]].
  - apply Z.nle_gt. intros Hwait. fold p in Hgt'. fold cost in Hgt'.
    unfold over at 1 in Hmelt. cbv beta in Hmelt. nia.
  - enough (div_ceil (over now) (gcra_quota p) <= now' - now) by lia. apply Hceil.
    fold p in Hle'. fold cost in Hle'. unfold over at 1 in Hmelt. cbv beta in Hmelt. nia.
Qed.

Lemma gcra_check_after (self : GcraStore) env c d :
  GcraStore.store_wf self -> gcra_check_valid c -> env_now env = Done d ->
  let '(self', r, _) := GcraStore.check self env c in
  forall dec, r = Done (Ok dec) -> as_millis d <= GcraStore.latest_of self' (Check_counter_key c).
Proof.
  intros Hwf Hc Henv.
  destruct (lock_key GcraStore.Entry_ok (GcraStore.config self) (GcraStore.shards self)
    (Check_counter_key c) Hwf) as [Hlock|(sh & Hh & Hlock)].
  { unfold GcraStore.check, GcraStore.check_inner. by rewrite Hlock. }
  pose proof (gcra_check_spec self env d c _ Hwf Hc Henv Hh) as Hspec. cbv zeta in Hspec.
  destruct (evaluate c _ _) as [e|e]; [|by destruct Hspec as [obs ->]].
  destruct Hspec as (self' & dec & obs & -> & _ & _ & sh' & Hh' & Hlat & _).
  intros dec' _. unfold GcraStore.latest_of, key_latest.
  unfold GcraStore.healthy, key_healthy in Hh'. rewrite Hh'.
  simpl. rewrite Hlat. apply Z.le_max_l.
Qed.

(** C8. A GCRA denial's [retry_after] is honest, end to end. Run any calls
    against a fresh store, where the policies of the counter share its quota;
    let a check be denied for its quota (enforced or in shadow mode), let any
    calls follow that charge nothing to its counter, and let the check be
    made again.  If that is decided, it is denied for its quota exactly when
    its instant lies before the first decision's instant plus the reported
    delay, which is positive; in particular a client that waits for the
    delay is not denied again, whether or not its arrival time has expired. *)
Theorem gcra_retry_after (cfg : MemoryStoreConfig)
    (before meanwhile : list (limiter_event MemEnv GcraPolicy))
    (c : Check GcraPolicy) (env env' : MemEnv)
    (Hcfg : MemoryStoreConfig_wf cfg) (Hc : gcra_check_valid c)
    (Hbefore : Forall (fun e => Forall gcra_check_valid (event_checks e)
       /\ Forall (own (gcra_quoted (gcra_quota (check_policy c))) (Check_counter_key c))
            (event_checks e)) before)
    (Hmeanwhile : Forall (fun e => Forall gcra_check_valid (event_checks e)) meanwhile) :
  let k := Check_counter_key c in
  let '(s0, _) := run (GcraStore.build cfg) [] before in
  let '(s1, r1, _) := GcraStore.check s0 env c in
  let '(s2, ledger) := run s1 [] meanwhile in
  let '(s3, r2, _) := GcraStore.check s2 env' c in
  forall dec q dec', r1 = Done (Ok dec) -> reported_quota_denial dec = Some q ->
  charges_for k ledger = [] -> r2 = Done (Ok dec') ->
  exists r, QuotaDenial_retry_after q = Delay_new (from_millis r) /\ 0 < r
  /\ (is_Some (reported_quota_denial dec')
      <-> GcraStore.latest_of s3 k < GcraStore.latest_of s1 k + r)
  /\ forall d, env_now env' = Done d -> GcraStore.latest_of s1 k + r <= as_millis d ->
     reported_quota_denial dec' = None.
Proof.
  intros k. set (q := gcra_quota (check_policy c)) in *.
  pose proof (run_retry_exact (L := GcraStore) (gcra_quoted q) (covered q)
    (GcraStore.build cfg) before c env meanwhile env' (covered_account q) (gcra_honest q)
    (gcra_build_wf cfg Hcfg) (gcra_build_empty cfg k) Hc eq_refl Hbefore Hmeanwhile) as Hretry.
  cbv zeta in Hretry. fold k in Hretry.
  destruct (run (GcraStore.build cfg) [] before) as [s0 ledger0]. simpl limiter_check in Hretry.
  destruct (GcraStore.check s0 env c) as [[s1 r1] obs1].
  destruct (run s1 [] meanwhile) as [s2 ledger].
  pose proof (fun d Hwf => gcra_check_after s2 env' c d Hwf Hc) as Hafter.
  destruct (GcraStore.check s2 env' c) as [[s3 r2] obs2].
  destruct Hretry as [Hwf2 Hretry].
  intros dec d dec' Hr1 Hd Hnone Hr2.
  destruct (Hretry dec d dec' Hr1 Hd Hnone Hr2) as (r & Hr & Hpos & Hiff).
  exists r. split; [exact Hr|split; [exact Hpos|split; [exact Hiff|]]]. intros t Ht Hwait.
  specialize (Hafter t Hwf2 Ht dec' Hr2). apply eq_None_not_Some. rewrite Hiff.
  exact (proj2 (Z.nlt_ge _ _) (Z.le_trans _ _ _ Hwait Hafter)).
Qed.

(** C8 witness. *)
Lemma gcra_retry_after_witness :
  let c := example_gcra_check 0 1 5 in
  let '(s1, r1, _) := GcraStore.check
    (run (GcraStore.build (mkMemoryStoreConfig 4 2 8 32)) [] [EvCheck (example_env 5) c]).1
    (example_env 105) c in
  let '(s2, ledger) := run s1 [] [EvCheck (example_env 300) (example_gcra_check 0 2 1);
    EvCheck (example_env 400) c] in
  let '(s3, r2, _) := GcraStore.check s2 (example_env 505) c in
  r1 = Done (Ok (Decision_denied (QuotaExceeded (QuotaDenial_new (mkCapacity 5) (from_millis 400)))))
  /\ exists dec, r2 = Done (Ok dec) /\ reported_quota_denial dec = None.
Proof.
  cbv zeta.
  assert (Hv : forall tag s n, 1 <= n <= 5 -> gcra_check_valid (example_gcra_check tag s n))
    by (intros; by apply example_gcra_check_valid).
  pose proof (gcra_retry_after (mkMemoryStoreConfig 4 2 8 32)
    [EvCheck (example_env 5) (example_gcra_check 0 1 5)]
    [EvCheck (example_env 300) (example_gcra_check 0 2 1);
     EvCheck (example_env 400) (example_gcra_check 0 1 5)]
    (example_gcra_check 0 1 5) (example_env 105) (example_env 505)
    ltac:(unfold MemoryStoreConfig_wf; simpl; lia) (Hv 0 1 5 ltac:(lia))
    ltac:(repeat constructor; first [apply Hv; lia|by intros _])
    ltac:(repeat constructor; apply Hv; lia)) as Hretry.
  cbv zeta in Hretry.
  destruct (run (GcraStore.build (mkMemoryStoreConfig 4 2 8 32)) [] _) as [s0 l0] eqn:E0.
  vm_compute in E0. injection E0 as <- <-. simpl fst.
  destruct (GcraStore.check _ (example_env 105) _) as [[s1 r1] o1] eqn:E1.
  vm_compute in E1. injection E1 as <- <- <-.
  destruct (run _ [] _) as [s2 l] eqn:E2. vm_compute in E2. injection E2 as <- <-.
  destruct (GcraStore.check _ (example_env 505) _) as [[s3 r2] o3] eqn:E3.
  vm_compute in E3. injection E3 as <- <- <-.
  destruct (Hretry _ _ _ eq_refl eq_refl eq_refl eq_refl) as (r & Hr & _ & _ & Hwait).
  split; [reflexivity|]. eexists. split; [reflexivity|].
  apply (Hwait (from_millis 505)); [reflexivity|].
  assert (r = 400) as -> by (injection Hr; intros; lia).
  vm_compute. discriminate.
Defined.
