(* ===== verification/MemAttempts.v ===== *)
(** [runlimit-memory/src/attempts.rs]: the bounded process-local store of
    outcome-aware attempts: reservations with leases, exponential backoff,
    incremental cleanup; and its refinement of a per-key state machine. *)

From S2P Require Import Prelude RustStd Identifier Policy Decision AttemptPolicy Key OrdSet BoundedShards.
Open Scope list_scope.

Module AttemptStore.

(** [type Key]. *)
Notation AttemptKey := (bytes * bytes)%type.

Record Entry := mkEntry {
  policy : AttemptPolicy;
  failures : Z;
  last_failure : Duration;
  retry_at : Duration;
  lease : option (Z * Duration);
}.

Record State := mkState {
  entries : gmap AttemptKey Entry;
  generation : Z;
  now : Duration;
  cursor : option AttemptKey;
}.

(** [State::default]. *)
Definition State_default : State := mkState ∅ 0 DURATION_ZERO None.

(** [struct MemoryAttemptReceipt]: a weak pointer is the identity of the
    allocation it points to, which the receipt keeps from being reused. *)
Record MemoryAttemptReceipt := mkReceipt {
  receipt_store : nat;
  receipt_key : AttemptKey;
  receipt_generation : Z;
}.

Inductive MemoryAttemptError := Poisoned | SequenceExhausted.
Inductive MemoryAttemptCompletionError := mkCompletionError.

(** [struct MemoryAttemptLimiter]: its state under a mutex, with the
    identity of its allocation; the clock is an input of each call. *)
Record MemoryAttemptLimiter := mkLimiter {
  store_id : nat;
  state : Mutex State;
  capacity : nat;
  observer : bool;
}.

Definition with_clock (store_id capacity : nat) : MemoryAttemptLimiter :=
  mkLimiter store_id (mkMutex false State_default) capacity false.
Definition with_observer (self : MemoryAttemptLimiter) : MemoryAttemptLimiter :=
  mkLimiter (store_id self) (state self) (capacity self) true.
Definition with_state (self : MemoryAttemptLimiter) (poisoned : bool) (st : State)
    : MemoryAttemptLimiter :=
  mkLimiter (store_id self) (mkMutex poisoned st) (capacity self) (observer self).

Definition observe (self : MemoryAttemptLimiter) (observation : AttemptObservation)
    : list AttemptObservation := if observer self then [observation] else [].

(** The keys of a [BTreeMap], in order. *)
Definition btree_keys (entries : gmap AttemptKey Entry) : list AttemptKey :=
  foldr (fun k l => (set_insert k l).1) [] (map fst (map_to_list entries)).

Definition fail (entry : Entry) (now : Duration) : Entry :=
  let failures := saturating_add u32_max (failures entry) 1 in
  mkEntry (policy entry) failures now
    (Duration_saturating_add now (AttemptPolicy_delay (policy entry) failures)) (lease entry).

Definition quiet_at (entry : Entry) (origin now : Duration) : bool :=
  Duration_leb
    (Duration_saturating_add origin (QuotaPeriod_duration (ap_quiet_period (policy entry)))) now.

Definition reconcile (entry : Entry) (now : Duration) : Entry :=
  let entry :=
    match lease entry with
    | Some (_, until) =>
        if Duration_leb until now
        then fail (mkEntry (policy entry) (failures entry) (last_failure entry)
                     (retry_at entry) None) until
        else entry
    | None => entry
    end in
  match lease entry with
  | None =>
      if quiet_at entry (last_failure entry) now
      then mkEntry (policy entry) 0 (last_failure entry) now None
      else entry
  | Some _ => entry
  end.

Definition deny (entry : Entry) (now : Duration) : option AttemptDenial :=
  match lease entry with
  | Some (_, until) =>
      Some (AttemptDenial_Busy (Delay_new (Duration_saturating_sub until now)))
  | None =>
      if Duration_ltb now (retry_at entry)
      then Some (AttemptDenial_Backoff
                   (Delay_new (Duration_saturating_sub (retry_at entry) now)))
      else None
  end.

(** The entry has been quiet since its lease or its last failure ended. *)
Definition cleanable (now : Duration) (entry : Entry) : bool :=
  let origin := match lease entry with Some (_, until) => until | None => last_failure entry end in
  quiet_at entry origin now.

(** The keys one cleanup examines: the next 16 after the cursor. *)
Definition cleanup_keys (st : State) : list AttemptKey :=
  let keys := btree_keys (entries st) in
  take 16 (match cursor st with
           | Some cursor => filter (fun k => cmp cursor k = Lt) keys
           | None => keys
           end).

Definition cleanup_key (now : Duration) (key : AttemptKey) (entries : gmap AttemptKey Entry)
    : gmap AttemptKey Entry :=
  match entries !! key with
  | Some entry => if cleanable now entry then delete key entries else entries
  | None => entries
  end.

Definition cleanup (st : State) (now' : Duration) : State :=
  let keys := cleanup_keys st in
  mkState (fold_left (fun m key => cleanup_key now' key m) keys (entries st))
    (generation st) (now st) (last keys).

(** The critical section of [admit]: the state it leaves, and the denial or
    the generation of the new reservation. *)
Definition admit_locked (capacity : nat) (st : State) (policy' : AttemptPolicy)
    (key : AttemptKey) (clock : Duration)
    : State * Result MemoryAttemptError (AttemptDenial + Z) :=
  let now' := Duration_max (now st) clock in
  let st := mkState (entries st) (generation st) now' (cursor st) in
  let st := cleanup st now' in
  let '(st, denial) :=
    match entries st !! key with
    | Some entry =>
        let entry := reconcile entry now' in
        (mkState (<[key := entry]> (entries st)) (generation st) (now st) (cursor st),
         deny entry now')
    | None =>
        (st, if Nat.leb capacity (size (entries st)) then Some AttemptDenial_StorageCapacity
             else None)
    end in
  match denial with
  | Some denial => (st, Ok (inl denial))
  | None =>
      match checked_add u64_max (generation st) 1 with
      | None => (st, Err SequenceExhausted)
      | Some generation =>
          let entry := default (mkEntry policy' 0 now' now' None) (entries st !! key) in
          let until :=
            Duration_saturating_add now' (QuotaPeriod_duration (ap_lease (policy entry))) in
          let entry := mkEntry (policy entry) (failures entry) (last_failure entry)
                         (retry_at entry) (Some (generation, until)) in
          (mkState (<[key := entry]> (entries st)) generation (now st) (cursor st),
           Ok (inr generation))
      end
  end.

(** [MemoryAttemptLimiter::admit], with the observations it emits. *)
Definition admit_attempt (self : MemoryAttemptLimiter) (subject : AttemptSubject)
    (clock : Outcome Duration)
    : MemoryAttemptLimiter
      * Outcome (Result MemoryAttemptError (AttemptAdmission MemoryAttemptReceipt))
      * list AttemptObservation :=
  let policy := as_policy subject in
  let key := (fingerprint_bytes (ap_fingerprint policy),
              SubjectKey_as_bytes (as_subject subject)) in
  if is_poisoned (state self) then (self, Done (Err Poisoned), [])
  else
    match clock with
    | Panic => (with_state self true (guarded (state self)), Panic, [])
    | Done clock =>
        let '(st, r) := admit_locked (capacity self) (guarded (state self)) policy key clock in
        let self := with_state self false st in
        match r with
        | Err e => (self, Done (Err e), [])
        | Ok (inl denial) =>
            (self, Done (Ok (Denied denial)), observe self (AttemptObservation_Denied denial))
        | Ok (inr generation) =>
            (self, Done (Ok (AttemptAdmission_Admitted
                               (mkReceipt (store_id self) key generation))),
             observe self AttemptObservation_Admitted)
        end
    end.

(** [completion]. *)
Definition completion (outcome : AttemptOutcome) (failures : Z) (delay : Duration)
    : Outcome AttemptCompletion :=
  expect_ok (AttemptCompletion_new outcome failures (Delay_new delay)).

(** The lease a receipt can complete is the live one that created it. *)
Definition receipt_live (self : MemoryAttemptLimiter) (receipt : MemoryAttemptReceipt)
    (now : Duration) (entry : Entry) : bool :=
  Nat.eqb (receipt_store receipt) (store_id self)
  && match lease entry with
     | Some (generation, until) =>
         (generation =? receipt_generation receipt) && Duration_ltb now until
     | None => false
     end.

(** The critical section of [complete]. *)
Definition complete_locked (self : MemoryAttemptLimiter) (st : State)
    (receipt : MemoryAttemptReceipt) (outcome : AttemptOutcome) (clock : Duration)
    : State * Outcome AttemptCompletionResult :=
  let now' := Duration_max (now st) clock in
  let st := mkState (entries st) (generation st) now' (cursor st) in
  match entries st !! receipt_key receipt with
  | Some entry =>
      if receipt_live self receipt now' entry then
        let entry := mkEntry (policy entry) (failures entry) (last_failure entry)
                       (retry_at entry) None in
        let success := bool_decide (outcome = Success) in
        let entry := if success then entry else fail entry now' in
        let '(failures, delay) :=
          if success then (0, DURATION_ZERO)
          else (failures entry, AttemptPolicy_delay (policy entry) (failures entry)) in
        let entries :=
          if success then delete (receipt_key receipt) (entries st)
          else <[receipt_key receipt := entry]> (entries st) in
        (mkState entries (generation st) (now st) (cursor st),
         c ← completion outcome failures delay; mret (Applied c))
      else (st, Done Stale)
  | None => (st, Done Stale)
  end.

(** [MemoryAttemptLimiter::complete], with the observations it emits. *)
Definition complete (self : MemoryAttemptLimiter) (receipt : MemoryAttemptReceipt)
    (outcome : AttemptOutcome) (clock : Outcome Duration)
    : MemoryAttemptLimiter
      * Outcome (Result MemoryAttemptCompletionError AttemptCompletionResult)
      * list AttemptObservation :=
  if is_poisoned (state self) then (self, Done (Err mkCompletionError), [])
  else
    match clock with
    | Panic => (with_state self true (guarded (state self)), Panic, [])
    | Done clock =>
        match complete_locked self (guarded (state self)) receipt outcome clock with
        | (st, Panic) => (with_state self true st, Panic, [])
        | (st, Done result) =>
            let self := with_state self false st in
            (self, Done (Ok result),
             observe self
               (match result with
                | Applied completion => AttemptObservation_Completed completion
                | Stale => AttemptObservation_Stale
                end))
        end
    end.

(** * The abstract attempt

    What a key is at an instant: free, reserved under a generation until its
    lease ends, or backing off after [n] consecutive failures. *)

Inductive status :=
| Free
| Reserved (g : Z) (until : Duration) (n : Z)
| Backoff (n : Z) (last retry : Duration).

Definition failed (p : AttemptPolicy) (n : Z) (at_ : Duration) : status :=
  let n := saturating_add u32_max n 1 in
  Backoff n at_ (Duration_saturating_add at_ (AttemptPolicy_delay p n)).

(** The passage of time: an expired lease is a failure at its end, and a
    failure is forgotten after the quiet period. *)
Definition forget (p : AttemptPolicy) (s : status) (t : Duration) : status :=
  match s with
  | Backoff n last retry =>
      if Duration_leb (Duration_saturating_add last (QuotaPeriod_duration (ap_quiet_period p))) t
      then Free else s
  | _ => s
  end.

Definition settle (p : AttemptPolicy) (s : status) (t : Duration) : status :=
  match s with
  | Reserved g until n => if Duration_leb until t then forget p (failed p n until) t else s
  | _ => forget p s t
  end.

Definition status_of_entry (e : Entry) : status :=
  match lease e with
  | Some (g, until) => Reserved g until (failures e)
  | None => if failures e =? 0 then Free else Backoff (failures e) (last_failure e) (retry_at e)
  end.

Definition status_of (o : option Entry) (t : Duration) : status :=
  match o with Some e => settle (policy e) (status_of_entry e) t | None => Free end.

Definition status_at (st : State) (k : AttemptKey) (t : Duration) : status :=
  status_of (entries st !! k) t.

(** [t1] is not after [t2]. *)
Definition dle (a b : Duration) : Prop := as_nanos a <= as_nanos b.

#[local] Ltac durations :=
  unfold quiet_at in *;
  unfold dle, Duration_leb, Duration_ltb, Duration_max, Duration_saturating_add,
    Duration_saturating_sub in *; cbn [as_nanos] in *.

Lemma settle_free p t : settle p Free t = Free.
Proof. done. Qed.

Lemma forget_forget p s t1 t2 : dle t1 t2 -> forget p (forget p s t1) t2 = forget p s t2.
Proof.
  intros Hle. destruct s as [|g u n|n last retry]; simpl; [done..|].
  destruct (Duration_leb _ t1) eqn:H1; [|done]. simpl.
  destruct (Duration_leb _ t2) eqn:H2; [done|]. durations. bool_prop. lia.
Qed.

Lemma settle_settle p s t1 t2 : dle t1 t2 -> settle p (settle p s t1) t2 = settle p s t2.
Proof.
  intros Hle. destruct s as [|g u n|n last retry]; simpl; [done| |].
  2:{ pose proof (forget_forget p (Backoff n last retry) t1 t2 Hle) as H. simpl in *.
      by destruct (Duration_leb _ t1). }
  destruct (Duration_leb u t1) eqn:H1.
  - assert (Duration_leb u t2 = true) as -> by (durations; bool_prop; lia).
    pose proof (forget_forget p (failed p n u) t1 t2 Hle) as H. unfold failed in H. simpl in *.
    unfold failed. clear H1. destruct (Duration_leb _ t1); exact H.
  - simpl. done.
Qed.

(** ** Entries *)

Record entry_wf (gen : Z) (tnow : Duration) (e : Entry) : Prop := {
  ew_policy : AttemptPolicy_valid (policy e);
  ew_failures : 0 <= failures e <= u32_max;
  ew_lease : forall g u, lease e = Some (g, u) -> 1 <= g <= gen /\ Duration_wf u;
  ew_free : lease e = None -> failures e = 0 -> dle (retry_at e) tnow;
}.

Lemma entry_wf_mono gen gen' t t' e :
  entry_wf gen t e -> gen <= gen' -> dle t t' -> entry_wf gen' t' e.
Proof.
  intros [H1 H2 H3 H4] Hg Ht. split; [done|done|..].
  - intros g u Hl. destruct (H3 g u Hl). split; [lia|done].
  - intros Hl Hf. specialize (H4 Hl Hf). unfold dle in *. lia.
Qed.

Lemma fail_failures e t : 0 <= failures e <= u32_max ->
  1 <= failures (fail e t) <= u32_max.
Proof. unfold fail, saturating_add, u32_max; simpl. lia. Qed.

(** [reconcile] is the passage of time on an entry. *)
Lemma reconcile_status gen t0 e t :
  entry_wf gen t0 e -> status_of_entry (reconcile e t) = settle (policy e) (status_of_entry e) t.
Proof.
  intros He. pose proof (ew_failures _ _ _ He) as Hf. unfold status_of_entry at 2.
  destruct (lease e) as [[g u]|] eqn:Hl.
  - unfold reconcile, settle. rewrite Hl. destruct (Duration_leb u t) eqn:Hu.
    + unfold fail. cbn [lease policy failures last_failure retry_at].
      clear Hu. unfold failed, forget, quiet_at. cbn [policy last_failure].
      destruct (Duration_leb _ t); unfold status_of_entry; cbn [lease failures last_failure retry_at];
        [done|]. case_cmp; [|done]. unfold saturating_add, u32_max in *. lia.
    + rewrite Hl. unfold status_of_entry. by rewrite Hl.
  - unfold reconcile. rewrite Hl. cbn iota. rewrite Hl. unfold quiet_at.
    destruct (failures e =? 0) eqn:H0; simpl;
      destruct (Duration_leb _ t); unfold status_of_entry; simpl; rewrite ?Hl, ?H0; done.
Qed.

Lemma reconcile_policy e t : policy (reconcile e t) = policy e.
Proof.
  unfold reconcile. destruct (lease e) as [[g u]|] eqn:Hl.
  - destruct (Duration_leb u t); cbn; [|by rewrite Hl].
    by destruct (quiet_at _ _ _).
  - rewrite Hl. by destruct (quiet_at _ _ _).
Qed.

Lemma reconcile_wf gen t0 e t :
  entry_wf gen t0 e -> dle t0 t -> entry_wf gen t (reconcile e t).
Proof.
  intros He Ht. pose proof (entry_wf_mono _ gen _ t _ He ltac:(lia) Ht) as [H1 H2 H3 H4].
  unfold reconcile. destruct (lease e) as [[g u]|] eqn:Hl.
  - destruct (Duration_leb u t); [|rewrite Hl; by split; rewrite ?Hl].
    pose proof (fail_failures e u H2) as Hf. unfold fail in *. cbn [lease policy failures] in *.
    destruct (quiet_at _ _ t); split; cbn [policy failures lease retry_at]; try done; intros; unfold dle, u32_max in *; lia.
  - rewrite Hl. destruct (quiet_at _ _ t); [|by split; rewrite ?Hl].
    split; cbn [policy failures lease retry_at]; try done; intros; unfold dle, u32_max; lia.
Qed.

(** The lease of a reconciled entry, if any, is the one it had. *)
Lemma reconcile_lease e t g u : lease (reconcile e t) = Some (g, u) -> lease e = Some (g, u).
Proof.
  unfold reconcile. destruct (lease e) as [[g' u']|] eqn:Hl.
  - destruct (Duration_leb u' t); [|rewrite Hl; cbn iota; by rewrite Hl]. unfold fail. cbn [lease].
    by destruct (quiet_at _ _ _).
  - rewrite Hl. cbn iota. destruct (quiet_at _ _ _); [done|by rewrite Hl].
Qed.

(** What [deny] reports of a status. *)
Definition status_denial (s : status) (t : Duration) : option AttemptDenial :=
  match s with
  | Free => None
  | Reserved _ until _ =>
      Some (AttemptDenial_Busy (Delay_new (Duration_saturating_sub until t)))
  | Backoff _ _ retry =>
      if Duration_ltb t retry
      then Some (AttemptDenial_Backoff (Delay_new (Duration_saturating_sub retry t)))
      else None
  end.

Lemma deny_spec gen e t : entry_wf gen t e -> deny e t = status_denial (status_of_entry e) t.
Proof.
  intros He. unfold deny, status_of_entry. destruct (lease e) as [[g u]|] eqn:Hl; [done|].
  destruct (Z.eqb_spec (failures e) 0) as [H0|]; [|done].
  pose proof (ew_free _ _ _ He Hl H0). durations. case_cmp; [lia|done].
Qed.

(** An entry that cleanup may drop is free from then on. *)
Lemma cleanable_free gen t0 e t t' :
  entry_wf gen t0 e -> cleanable t e = true -> dle t t' ->
  settle (policy e) (status_of_entry e) t' = Free.
Proof.
  intros He Hc Ht. unfold cleanable in Hc. unfold status_of_entry.
  destruct (lease e) as [[g u]|] eqn:Hl; simpl.
  - destruct (ew_lease _ _ _ He g u Hl) as [_ Hu].
    destruct (ew_policy _ _ _ He) as (_ & _ & _ & _ & Hq & _). unfold QuotaPeriod_wf in Hq.
    unfold Duration_wf in Hu. durations. unfold QuotaPeriod_duration, from_millis in *.
    cbn [as_nanos] in *. bool_prop.
    destruct (Z.leb_spec (as_nanos u) (as_nanos t')); [|lia].
    case_cmp; [done|lia].
  - destruct (failures e =? 0); [done|]. simpl. durations. bool_prop. case_cmp; [done|lia].
Qed.

(** ** States *)

Record state_wf (capacity : nat) (st : State) : Prop := {
  sw_now : Duration_wf (now st);
  sw_generation : 0 <= generation st <= u64_max;
  sw_size : (size (entries st) <= capacity)%nat;
  sw_entry : forall k e, entries st !! k = Some e -> entry_wf (generation st) (now st) e;
  sw_unique : forall k1 k2 e1 e2 g u1 u2,
    entries st !! k1 = Some e1 -> entries st !! k2 = Some e2 ->
    lease e1 = Some (g, u1) -> lease e2 = Some (g, u2) -> k1 = k2;
}.

(** What a cleanup may do to the entries: drop cleanable ones. *)
Definition swept (t : Duration) (m m' : gmap AttemptKey Entry) : Prop :=
  (size m' <= size m)%nat
  /\ forall k, m' !! k = m !! k
     \/ (m' !! k = None /\ exists e, m !! k = Some e /\ cleanable t e = true).

Lemma cleanup_fold_swept t keys m :
  swept t m (fold_left (fun m key => cleanup_key t key m) keys m).
Proof.
  revert m. induction keys as [|key keys IH]; intros m; simpl; [split; [lia|by left]|].
  destruct (IH (cleanup_key t key m)) as [Hsz Hk].
  unfold cleanup_key in *. destruct (m !! key) as [e|] eqn:He; [|done].
  destruct (cleanable t e) eqn:Hc; [|done]. split.
  - rewrite map_size_delete_Some in Hsz by eauto. lia.
  - intros k. destruct (decide (k = key)) as [->|Hne].
    + right. split; [|by exists e]. destruct (Hk key) as [->|[? _]]; [|done].
      by rewrite lookup_delete_eq.
    + destruct (Hk k) as [->|(H1 & e' & H2 & H3)]; rewrite lookup_delete_ne in * by done;
        [by left|right; eauto].
Qed.

Lemma cleanup_spec capacity st :
  state_wf capacity st ->
  let st' := cleanup st (now st) in
  state_wf capacity st' /\ generation st' = generation st /\ now st' = now st
  /\ (forall k e, entries st' !! k = Some e -> entries st !! k = Some e)
  /\ (forall k t, dle (now st) t -> status_at st' k t = status_at st k t).
Proof.
  intros Hwf st'. pose proof (cleanup_fold_swept (now st) (cleanup_keys st) (entries st)) as [Hsz Hk].
  change (fold_left _ _ _) with (entries st') in Hsz, Hk.
  assert (Hsub : forall k e, entries st' !! k = Some e -> entries st !! k = Some e).
  { intros k e He. destruct (Hk k) as [<-|[? _]]; [done|congruence]. }
  destruct Hwf as [H1 H2 H3 H4 H5]. split_and!; [|done|done|done|].
  - split; simpl; [done|done|exact (Nat.le_trans _ _ _ Hsz H3)|..].
    + intros k e He. by apply (H4 k), Hsub.
    + intros k1 k2 e1 e2 g u1 u2 He1 He2. eapply H5; by apply Hsub.
  - intros k t Ht. unfold status_at. destruct (Hk k) as [->|(-> & e & He & Hc)]; [done|].
    rewrite He. simpl. symmetry. by apply (cleanable_free _ _ e (now st) t (H4 k e He) Hc).
Qed.

(** Moving the clock forward. *)
Lemma advance_wf capacity st t : state_wf capacity st -> dle (now st) t -> Duration_wf t ->
  state_wf capacity (mkState (entries st) (generation st) t (cursor st)).
Proof.
  intros [H1 H2 H3 H4 H5] Ht Hd. split; simpl; try done.
  intros k e He. apply (entry_wf_mono (generation st) _ (now st)); [by apply (H4 k)|lia|done].
Qed.

(** Replacing the entry of a key. *)
Lemma set_entry_wf capacity st k e gen :
  state_wf capacity st -> generation st <= gen <= u64_max -> entry_wf gen (now st) e ->
  is_Some (entries st !! k) \/ (size (entries st) < capacity)%nat ->
  (forall g u, lease e = Some (g, u) -> forall k' e' u', k' <> k ->
     entries st !! k' = Some e' -> lease e' = Some (g, u') -> False) ->
  state_wf capacity (mkState (<[k := e]> (entries st)) gen (now st) (cursor st)).
Proof.
  intros [H1 H2 H3 H4 H5] Hg He Hroom Hu. split; simpl; [done|lia|..].
  - destruct (entries st !! k) eqn:Hk.
    + rewrite map_size_insert_Some by eauto. done.
    + rewrite map_size_insert_None by done. destruct Hroom as [[? ?]|?]; [done|lia].
  - intros k' e'. destruct (decide (k' = k)) as [->|Hne].
    + rewrite lookup_insert_eq. by intros [= <-].
    + rewrite lookup_insert_ne by done. intros He'.
      apply (entry_wf_mono (generation st) _ (now st)); [by apply (H4 k')|lia|unfold dle; lia].
  - intros k1 k2 e1 e2 g u1 u2 He1 He2 Hl1 Hl2.
    destruct (decide (k1 = k)) as [->|Hk1], (decide (k2 = k)) as [->|Hk2]; [done|..];
      rewrite ?lookup_insert_eq in He1; rewrite ?lookup_insert_eq in He2;
      rewrite ?lookup_insert_ne in He1 by done; rewrite ?lookup_insert_ne in He2 by done.
    + injection He1 as ->. by destruct (Hu g u1 Hl1 k2 e2 u2).
    + injection He2 as ->. by destruct (Hu g u2 Hl2 k1 e1 u1).
    + by apply (H5 k1 k2 e1 e2 g u1 u2).
Qed.

(** ** Admission *)

Definition key_of (subject : AttemptSubject) : AttemptKey :=
  (fingerprint_bytes (ap_fingerprint (as_policy subject)), SubjectKey_as_bytes (as_subject subject)).

(** The consecutive failures a new reservation starts from. *)
Definition status_failures (s : status) : Z :=
  match s with Free => 0 | Reserved _ _ n => n | Backoff n _ _ => n end.

(** What [admit] does to the attempt of its key, whose entry (if any) carries
    the policy [p]. *)
Definition admit_effect (capacity : nat) (p : AttemptPolicy) (key : AttemptKey) (now' : Duration)
    (st st' : State) (r : Result MemoryAttemptError (AttemptDenial + Z)) : Prop :=
  let s := status_at st key now' in
  let unchanged := forall t, dle now' t -> status_at st' key t = status_at st key t in
  match status_denial s now' with
  | Some denial => r = Ok (inl denial) /\ unchanged /\ generation st' = generation st
  | None =>
      (r = Ok (inr (generation st + 1)) /\ generation st' = generation st + 1
       /\ forall t, dle now' t -> status_at st' key t
          = settle p (Reserved (generation st + 1)
                        (Duration_saturating_add now' (QuotaPeriod_duration (ap_lease p)))
                        (status_failures s)) t)
      \/ (r = Err SequenceExhausted /\ generation st = u64_max /\ unchanged
          /\ generation st' = generation st)
      \/ (s = Free /\ r = Ok (inl AttemptDenial_StorageCapacity)
          /\ entries st' !! key = None /\ size (entries st') = capacity /\ unchanged
          /\ generation st' = generation st)
  end.

Lemma status_of_reconciled gen t0 e t t' :
  entry_wf gen t0 e -> dle t t' -> status_of (Some (reconcile e t)) t' = status_of (Some e) t'.
Proof.
  intros He Ht. simpl. rewrite reconcile_policy, (reconcile_status _ _ _ _ He).
  by apply settle_settle.
Qed.

(** The two halves of the critical section, after the clamp and cleanup. *)
Lemma reserve_spec capacity st p key e0 :
  state_wf capacity st -> AttemptPolicy_valid p ->
  (entries st !! key = Some e0 /\ policy e0 = p /\ lease e0 = None)
  \/ (entries st !! key = None /\ (size (entries st) < capacity)%nat
      /\ e0 = mkEntry p 0 (now st) (now st) None) ->
  generation st < u64_max ->
  let until := Duration_saturating_add (now st) (QuotaPeriod_duration (ap_lease p)) in
  let e := mkEntry (policy e0) (failures e0) (last_failure e0) (retry_at e0)
             (Some (generation st + 1, until)) in
  state_wf capacity (mkState (<[key := e]> (entries st)) (generation st + 1) (now st) (cursor st))
  /\ status_of_entry e = Reserved (generation st + 1) until (status_failures (status_of_entry e0)).
Proof.
  intros Hwf Hp Hkey Hgen until e.
  assert (Hu : Duration_wf until).
  { pose proof (sw_now _ _ Hwf) as Hn. destruct Hp as (_ & _ & _ & _ & _ & Hl & _).
    unfold QuotaPeriod_wf in Hl. unfold until, QuotaPeriod_duration, from_millis, Duration_wf in *.
    durations. lia. }
  assert (Hf : 0 <= failures e0 <= u32_max).
  { destruct Hkey as [(He & _)|(_ & _ & ->)]; [|unfold u32_max; simpl; lia].
    apply (ew_failures _ _ _ (sw_entry _ _ Hwf _ _ He)). }
  assert (Hl0 : lease e0 = None) by (by destruct Hkey as [(_ & _ & ?)|(_ & _ & ->)]).
  assert (Hp0 : policy e0 = p) by (by destruct Hkey as [(_ & ? & _)|(_ & _ & ->)]).
  split.
  - apply set_entry_wf; [done|lia| |destruct Hkey as [(-> & _)|(_ & ? & _)]; eauto|].
    + split; simpl; [by rewrite Hp0|done| |done]. intros g u [= <- <-].
      pose proof (sw_generation _ _ Hwf). split; [lia|done].
    + intros g u [= <- <-] k' e' u' _ He' Hl'.
      destruct (ew_lease _ _ _ (sw_entry _ _ Hwf _ _ He') _ _ Hl') as [? _]. lia.
  - unfold e, status_of_entry. simpl. rewrite Hl0.
    destruct (Z.eqb_spec (failures e0) 0) as [->|]; done.
Qed.

(** Where the entry of the key comes from: it carries the policy, and its
    lease is the one just granted or the one it had. *)
Definition entry_from (p : AttemptPolicy) (key : AttemptKey) (st st' : State)
    (r : Result MemoryAttemptError (AttemptDenial + Z)) : Prop :=
  forall e, entries st' !! key = Some e -> policy e = p
  /\ forall g u, lease e = Some (g, u) -> r = Ok (inr g)
     \/ exists e0, entries st !! key = Some e0 /\ lease e0 = Some (g, u).

(** An effect seen through a change of the earlier state that time cannot
    tell apart. *)
Lemma admit_effect_before capacity p key now' st0 st st' r :
  generation st = generation st0 ->
  (forall t, dle now' t -> status_at st key t = status_at st0 key t) ->
  admit_effect capacity p key now' st st' r -> admit_effect capacity p key now' st0 st' r.
Proof.
  intros Hg Hs. unfold admit_effect. rewrite Hg, Hs by (unfold dle; lia).
  assert (Hun : (forall t, dle now' t -> status_at st' key t = status_at st key t) ->
    forall t, dle now' t -> status_at st' key t = status_at st0 key t).
  { intros H t Ht. by rewrite H, Hs. }
  destruct (status_denial _ _); naive_solver.
Qed.

(** The decision on a reconciled state. *)
Lemma decide_spec capacity st p key :
  state_wf capacity st -> AttemptPolicy_valid p ->
  (forall e, entries st !! key = Some e -> policy e = p
     /\ status_of_entry e = status_at st key (now st)) ->
  let denial :=
    match entries st !! key with
    | Some entry => deny entry (now st)
    | None => if Nat.leb capacity (size (entries st)) then Some AttemptDenial_StorageCapacity
              else None
    end in
  let '(st', r) :=
    match denial with
    | Some denial => (st, Ok (inl denial))
    | None =>
        match checked_add u64_max (generation st) 1 with
        | None => (st, Err SequenceExhausted)
        | Some generation =>
            let entry := default (mkEntry p 0 (now st) (now st) None) (entries st !! key) in
            let until := Duration_saturating_add (now st)
                           (QuotaPeriod_duration (ap_lease (policy entry))) in
            let entry := mkEntry (policy entry) (failures entry) (last_failure entry)
                           (retry_at entry) (Some (generation, until)) in
            (mkState (<[key := entry]> (entries st)) generation (now st) (cursor st),
             Ok (inr generation))
        end
    end in
  state_wf capacity st' /\ now st' = now st
  /\ (forall k, k <> key -> entries st' !! k = entries st !! k)
  /\ entry_from p key st st' r
  /\ admit_effect capacity p key (now st) st st' r.
Proof.
  intros Hwf Hp Hent denial.
  set (e0 := default (mkEntry p 0 (now st) (now st) None) (entries st !! key)).
  assert (Hs0 : status_at st key (now st) = status_of_entry e0).
  { unfold e0, status_at. destruct (entries st !! key) as [e|] eqn:He; [|done].
    destruct (Hent e eq_refl) as [_ H]. unfold status_at in H. rewrite He in H. by symmetry. }
  unfold admit_effect. rewrite Hs0.
  assert (Hres : denial = None -> status_denial (status_of_entry e0) (now st) = None
    /\ policy e0 = p
    /\ ((entries st !! key = Some e0 /\ policy e0 = p /\ lease e0 = None)
        \/ (entries st !! key = None /\ (size (entries st) < capacity)%nat
            /\ e0 = mkEntry p 0 (now st) (now st) None))).
  { unfold denial, e0. destruct (entries st !! key) as [e|] eqn:He; intros Hd.
    - destruct (Hent e eq_refl) as [Hpe _]. cbn [default from_option]. unfold Datatypes.id.
      split; [|split; [done|]].
      + by rewrite <- (deny_spec _ e _ (sw_entry _ _ Hwf _ _ He)).
      + left. split_and!; [done|done|]. unfold deny in Hd. by destruct (lease e) as [[]|].
    - destruct (Nat.leb_spec capacity (size (entries st))); [done|]. split_and!; [done..|]. by right. }
  assert (Hsame : forall r, entry_from p key st st r).
  { intros r e He. split; [by apply Hent|]. intros g u Hl. right. by exists e. }
  destruct denial as [d|] eqn:Hden.
  - split_and!; [done..|]. unfold denial, e0 in *. destruct (entries st !! key) as [e|] eqn:He.
    + cbn [default from_option]. unfold Datatypes.id.
      rewrite <- (deny_spec _ e _ (sw_entry _ _ Hwf _ _ He)), Hden. done.
    + destruct (Nat.leb_spec capacity (size (entries st))); [|done]. injection Hden as <-.
      cbn. right. right. split_and!; try done. pose proof (sw_size _ _ Hwf). lia.
  - destruct (Hres eq_refl) as (-> & Hp0 & Hkey).
    pose proof (sw_generation _ _ Hwf) as Hg. unfold checked_add.
    destruct (Z.leb_spec u64_max (generation st)) as [Hmax|Hmax].
    + rewrite (proj2 (checked_None u64_max (generation st + 1))) by (right; lia). split_and!; [done..|].
      right. left. split_and!; try done. lia.
    + rewrite checked_in by lia. fold e0. rewrite Hp0.
      destruct (reserve_spec capacity st p key e0 Hwf Hp Hkey Hmax) as [Hwf' Hst].
      cbv zeta in Hwf', Hst. rewrite Hp0 in Hwf', Hst. split_and!; [exact Hwf'|done| | |].
      * intros k Hk. simpl. by rewrite lookup_insert_ne.
      * intros e He. cbn [entries] in He. rewrite lookup_insert_eq in He. injection He as <-.
        split; [done|]. intros g u [= <- _]. by left.
      * left. split_and!; [done|done|]. intros t Ht. unfold status_at.
        cbn [entries]. rewrite lookup_insert_eq. unfold status_of. cbn [policy]. by rewrite Hst.
Qed.

Lemma admit_locked_spec capacity st p key clock :
  state_wf capacity st -> AttemptPolicy_valid p -> Duration_wf clock ->
  (forall e, entries st !! key = Some e -> policy e = p) ->
  let now' := Duration_max (now st) clock in
  let '(st', r) := admit_locked capacity st p key clock in
  state_wf capacity st' /\ now st' = now'
  /\ (forall k t, k <> key -> dle now' t -> status_at st' k t = status_at st k t)
  /\ (forall k e, k <> key -> entries st' !! k = Some e -> entries st !! k = Some e)
  /\ entry_from p key st st' r
  /\ admit_effect capacity p key now' st st' r.
Proof.
  intros Hwf Hp Hclock Hpol now'.
  assert (Hn : dle (now st) now' /\ Duration_wf now').
  { pose proof (sw_now _ _ Hwf). unfold now', Duration_wf in *. durations. lia. }
  destruct Hn as [Hle Hnow].
  pose proof (advance_wf _ _ _ Hwf Hle Hnow) as Hwf1.
  destruct (cleanup_spec _ _ Hwf1) as (Hwf2 & Hg2 & Hn2 & Hsub & Hstat).
  cbn [now generation entries] in Hg2, Hn2, Hsub, Hstat, Hwf2.
  unfold admit_locked. fold now'. set (st1 := mkState _ _ now' _) in *.
  set (st2 := cleanup st1 now') in *.
  assert (Hstat' : forall k t, dle now' t -> status_at st2 k t = status_at st k t) by done.
  clearbody st2. clear Hstat.
  set (st3 := match entries st2 !! key with
    | Some e => mkState (<[key := reconcile e now']> (entries st2)) (generation st2) (now st2)
                  (cursor st2)
    | None => st2 end).
  assert (H3 : state_wf capacity st3 /\ now st3 = now' /\ generation st3 = generation st
    /\ (forall k, k <> key -> entries st3 !! k = entries st2 !! k)
    /\ (forall t, dle now' t -> status_at st3 key t = status_at st key t)
    /\ (forall e, entries st3 !! key = Some e -> policy e = p
          /\ status_of_entry e = status_at st3 key (now st3))
    /\ (forall e g u, entries st3 !! key = Some e -> lease e = Some (g, u) ->
          exists e0, entries st !! key = Some e0 /\ lease e0 = Some (g, u))).
  { unfold st3. destruct (entries st2 !! key) as [e|] eqn:He.
    2:{ split_and!; [done|done|done|done| |by intros e' He'; rewrite He in He'
          |by intros e' g u He'; rewrite He in He'].
        intros t Ht. by apply Hstat'. }
    pose proof (sw_entry _ _ Hwf2 _ _ He) as Hew. rewrite Hn2 in Hew.
    split_and!; [|done|done|..].
    - apply (set_entry_wf capacity st2 key _ (generation st2) Hwf2).
      + pose proof (sw_generation _ _ Hwf2). lia.
      + rewrite Hn2. apply (reconcile_wf _ now'); [done|unfold dle; lia].
      + left. eauto.
      + intros g u Hl k' e' u' Hne He' Hl'. apply reconcile_lease in Hl. apply Hne.
        by apply (sw_unique _ _ Hwf2 k' key e' e g u' u).
    - intros k Hk. simpl. by rewrite lookup_insert_ne.
    - intros t Ht. rewrite <- Hstat' by done. unfold status_at. simpl.
      rewrite lookup_insert_eq, He. by apply (status_of_reconciled (generation st2) now').
    - intros e' He'. simpl in He'. rewrite lookup_insert_eq in He'. injection He' as <-.
      rewrite reconcile_policy. split; [by apply Hpol, Hsub|].
      unfold status_at. cbn [entries now]. rewrite lookup_insert_eq, Hn2.
      rewrite (status_of_reconciled (generation st2) now') by (done || unfold dle; lia).
      by apply (reconcile_status _ _ _ _ Hew).
    - intros e' g u He' Hl. simpl in He'. rewrite lookup_insert_eq in He'. injection He' as <-.
      exists e. split; [by apply Hsub|]. by apply reconcile_lease in Hl. }
  destruct H3 as (Hwf3 & Hn3 & Hg3 & Hother & Hkey3 & Hent3 & Hlease3).
  pose proof (decide_spec capacity st3 p key Hwf3 Hp Hent3) as Hdec. cbv zeta in Hdec.
  rewrite Hn3 in Hdec.
  assert (Hpair : (match entries st2 !! key with
      | Some entry =>
          (mkState (<[key := reconcile entry now']> (entries st2)) (generation st2) (now st2)
             (cursor st2), deny (reconcile entry now') now')
      | None => (st2, if Nat.leb capacity (size (entries st2))
                      then Some AttemptDenial_StorageCapacity else None)
      end) = (st3, match entries st3 !! key with
                   | Some entry => deny entry now'
                   | None => if Nat.leb capacity (size (entries st3))
                             then Some AttemptDenial_StorageCapacity else None
                   end)).
  { unfold st3. destruct (entries st2 !! key) as [e|] eqn:He; simpl; [|by rewrite He].
    by rewrite lookup_insert_eq. }
  cbv zeta. rewrite Hpair, Hn3. clear Hpair.
  lazymatch goal with |- let '(_, _) := ?x in _ => destruct x as [st' r] end.
  destruct Hdec as (Hwf' & Hn' & Hframe & Hfrom & Heff). split_and!; [done|done| | | |].
  - intros k t Hk Ht. rewrite <- Hstat' by done. unfold status_at.
    by rewrite Hframe, Hother by done.
  - intros k e Hk He. rewrite Hframe, Hother in He by done. by apply Hsub.
  - intros e He. destruct (Hfrom e He) as [Hpe Hle']. split; [done|]. intros g u Hl.
    destruct (Hle' g u Hl) as [|(e0 & He0 & Hl0)]; [by left|right]. by apply (Hlease3 e0).
  - by apply (admit_effect_before _ _ _ _ _ st3).
Qed.

(** C10. Admission refines the abstract attempt. On unpoisoned state and for
    any clock reading, [admit] never panics and keeps the store invariant.
    At the clamped time, a reserved key is denied as busy until its lease
    ends, a key backing off is denied until its retry time, and any other key
    is reserved under a fresh generation for the length of the policy's lease
    with its failures kept; unless the generations are exhausted, or the key
    is absent and the store is full.  A denial leaves the attempt of the key
    as it was, and no call ever changes the attempt of another key at any
    later time: the reconciliation in place and the incremental cleanup are
    invisible.  (Keys are digests: a stored entry of the key carries the
    policy of the subject.) *)
Theorem attempt_admit_refines (self : MemoryAttemptLimiter) (subject : AttemptSubject)
    (clock : Duration) (Hhealthy : is_poisoned (state self) = false)
    (Hwf : state_wf (capacity self) (guarded (state self)))
    (Hp : AttemptPolicy_valid (as_policy subject)) (Hclock : Duration_wf clock)
    (Hpol : forall e, entries (guarded (state self)) !! key_of subject = Some e ->
       policy e = as_policy subject) :
  let st := guarded (state self) in
  let now' := Duration_max (now st) clock in
  exists st' r obs,
    admit_attempt self subject (Done clock) = (with_state self false st', Done r, obs)
    /\ state_wf (capacity self) st' /\ now st' = now'
    /\ (forall k t, k <> key_of subject -> dle now' t -> status_at st' k t = status_at st k t)
    /\ exists r', admit_effect (capacity self) (as_policy subject) (key_of subject) now' st st' r'
       /\ match r' with
          | Err e => r = Err e
          | Ok (inl denial) => r = Ok (Denied denial)
          | Ok (inr g) => r = Ok (AttemptAdmission_Admitted
                                   (mkReceipt (store_id self) (key_of subject) g))
          end.
Proof.
  intros st now'. pose proof (admit_locked_spec (capacity self) st (as_policy subject)
    (key_of subject) clock Hwf Hp Hclock Hpol) as H. cbv zeta in H. unfold admit_attempt.
  rewrite Hhealthy. fold (key_of subject). fold st.
  destruct (admit_locked _ _ _ _ _) as [st' r]. destruct H as (H1 & H2 & H3 & _ & _ & H4).
  destruct r as [[denial|g]|e]; eexists st', _, _; (split; [reflexivity|]);
    (split_and!; [done|done|done|]); eexists; (split; [exact H4|done]).
Qed.

(** ** Completion *)

Definition outcome_failures (outcome : AttemptOutcome) (n : Z) : Z :=
  match outcome with Success => 0 | _ => saturating_add u32_max n 1 end.

(** What [complete] does to the attempt of the receipt's key. *)
Definition complete_effect (self : MemoryAttemptLimiter) (receipt : MemoryAttemptReceipt)
    (outcome : AttemptOutcome) (now' : Duration) (st st' : State)
    (r : Outcome AttemptCompletionResult) : Prop :=
  let key := receipt_key receipt in
  let stale := r = Done Stale /\ entries st' = entries st in
  match entries st !! key, status_at st key now' with
  | Some e, Reserved g until n =>
      if Nat.eqb (receipt_store receipt) (store_id self) && (g =? receipt_generation receipt)
      then
        let n' := outcome_failures outcome n in
        r = Done (Applied (mkAttemptCompletion outcome n'
              (Delay_new (AttemptPolicy_delay (policy e) n'))))
        /\ match outcome with
           | Success => entries st' = delete key (entries st)
           | _ => exists e', entries st' = <[key := e']> (entries st)
                  /\ lease e' = None /\ policy e' = policy e
                  /\ forall t, dle now' t ->
                       status_at st' key t = settle (policy e) (failed (policy e) n now') t
           end
      else stale
  | _, _ => stale
  end.

Lemma completion_done p outcome n :
  AttemptPolicy_valid p -> 0 <= n ->
  completion outcome (outcome_failures outcome n)
    (AttemptPolicy_delay p (outcome_failures outcome n))
  = Done (mkAttemptCompletion outcome (outcome_failures outcome n)
            (Delay_new (AttemptPolicy_delay p (outcome_failures outcome n)))).
Proof.
  intros Hp Hn. unfold completion, AttemptCompletion_new.
  assert (Hpos : 0 < saturating_add u32_max n 1) by (unfold saturating_add, u32_max; lia).
  assert (Hd : Duration_is_zero (AttemptPolicy_delay p (saturating_add u32_max n 1)) = false).
  { pose proof (AttemptPolicy_delay_bounds p _ Hp Hpos) as [Hb _].
    destruct Hp as (_ & _ & Hi & _). unfold QuotaPeriod_wf, Duration_is_zero in *. case_cmp; lia. }
  destruct outcome; simpl; [done|..]; rewrite Hd;
    (destruct (Z.ltb_spec 0 (saturating_add u32_max n 1)); [done|lia]).
Qed.

(** A reservation seen at an instant is the entry's own live lease. *)
Lemma status_reserved e t g u n :
  status_of (Some e) t = Reserved g u n <->
  lease e = Some (g, u) /\ failures e = n /\ Duration_leb u t = false.
Proof.
  unfold status_of, status_of_entry. destruct (lease e) as [[g' u']|]; simpl.
  - destruct (Duration_leb u' t) eqn:Hu.
    + unfold failed, forget. destruct (Duration_leb _ _) eqn:Hx in |- *; split; try done;
        intros ([= -> ->] & _ & ?); congruence.
    + split; [intros [= -> -> ->]; done|intros ([= -> ->] & -> & _); done].
  - destruct (failures e =? 0); simpl; [|destruct (Duration_leb _ _)]; split; naive_solver.
Qed.

Lemma complete_locked_spec self capacity st receipt outcome clock :
  state_wf capacity st -> Duration_wf clock ->
  let now' := Duration_max (now st) clock in
  let '(st', r) := complete_locked self st receipt outcome clock in
  state_wf capacity st' /\ now st' = now' /\ generation st' = generation st
  /\ complete_effect self receipt outcome now' st st' r.
Proof.
  intros Hwf Hclock now'.
  assert (Hn : dle (now st) now' /\ Duration_wf now').
  { pose proof (sw_now _ _ Hwf). unfold now', Duration_wf in *. durations. lia. }
  destruct Hn as [Hle Hnow]. pose proof (advance_wf _ _ _ Hwf Hle Hnow) as Hwf1.
  unfold complete_locked, complete_effect. fold now'. cbn [entries generation now cursor].
  set (key := receipt_key receipt). unfold status_at.
  destruct (entries st !! key) as [e|] eqn:He; [|by split_and!].
  pose proof (sw_entry _ _ Hwf _ _ He) as Hew. pose proof (ew_failures _ _ _ Hew) as Hf.
  unfold receipt_live.
  destruct (lease e) as [[g u]|] eqn:Hl.
  2:{ rewrite andb_false_r.
      destruct (status_of (Some e) now') as [|g u n|] eqn:Hs; [by split_and!| |by split_and!].
      apply status_reserved in Hs as [Hs _]. congruence. }
  destruct (Duration_ltb now' u) eqn:Hu.
  2:{ rewrite !andb_false_r.
      destruct (status_of (Some e) now') as [|g' u' n|] eqn:Hs; [by split_and!| |by split_and!].
      apply status_reserved in Hs as (Hs & _ & Hx). rewrite Hl in Hs. injection Hs as <- <-.
      durations. bool_prop. lia. }
  assert (Hs : status_of (Some e) now' = Reserved g u (failures e)).
  { apply status_reserved. split_and!; [done|done|]. durations. apply Z.leb_gt.
    by apply Z.ltb_lt in Hu. }
  rewrite Hs, andb_true_r.
  destruct (Nat.eqb _ _ && (g =? _)); [|by split_and!].
  assert (Hpw : forall e', entry_wf (generation st) now' e' -> lease e' = None ->
    state_wf capacity (mkState (<[key := e']> (entries st)) (generation st) now' (cursor st))).
  { intros e' He' Hl'. apply (set_entry_wf capacity _ key e' (generation st) Hwf1);
      [pose proof (sw_generation _ _ Hwf); simpl; lia|done|left; simpl; eauto|].
    intros g' u' Hl''. congruence. }
  set (e1 := fail (mkEntry (policy e) (failures e) (last_failure e) (retry_at e) None) now').
  assert (He1 : entry_wf (generation st) now' e1 /\ lease e1 = None
    /\ status_of_entry e1 = failed (policy e) (failures e) now').
  { pose proof (fail_failures e now' Hf) as Hff. unfold e1, fail in *. cbn [policy failures lease] in *.
    split_and!; [split; cbn [policy failures lease retry_at]; try done; [apply Hew|lia|lia]|done|].
    unfold status_of_entry. cbn [failures lease]. case_cmp; [lia|done]. }
  destruct He1 as (He1 & Hl1 & Hs1).
  destruct (decide (outcome = Success)) as [->|Ho].
  - rewrite bool_decide_true by done.
    rewrite (completion_done (policy e) Success (failures e) (ew_policy _ _ _ Hew) ltac:(lia)
      : completion Success 0 DURATION_ZERO = _).
    split_and!; [|done..]. destruct Hwf1 as [W1 W2 W3 W4 W5]. split; simpl in *; [done|done| |..].
    + rewrite map_size_delete_Some by eauto. lia.
    + intros k e' He'. apply lookup_delete_Some in He' as [_ He']. by apply (W4 k).
    + intros k1 k2 e1' e2 g' u1 u2 H1 H2. apply lookup_delete_Some in H1 as [_ H1].
      apply lookup_delete_Some in H2 as [_ H2]. by apply (W5 k1 k2 e1' e2 g' u1 u2).
  - rewrite bool_decide_false by done. fold e1.
    assert (Hn : outcome_failures outcome (failures e) = failures e1) by (by destruct outcome).
    pose proof (completion_done (policy e) outcome (failures e) (ew_policy _ _ _ Hew) ltac:(lia))
      as Hc. rewrite Hn in *. change (policy e1) with (policy e). rewrite Hc.
    split_and!; [by apply Hpw|done|done|done|].
    destruct outcome; [done|..]; exists e1; (split_and!; [done|done|done|]); intros t Ht;
      cbn [entries]; rewrite lookup_insert_eq; unfold status_of;
      rewrite Hs1; done.
Qed.

(** C11. Completion refines the abstract attempt. On unpoisoned state and
    for any clock reading, [complete] never panics and keeps the store
    invariant.  A receipt of this store whose own lease is still live ends
    the reservation: success forgets the key, failure and abandonment start
    the backoff with one more (saturating) failure from the clamped time,
    and the reported failures and delay are those.  Any other receipt,
    expired, superseded, already completed or of another store, is stale and
    changes no entry. *)
Theorem attempt_complete_refines (self : MemoryAttemptLimiter) (receipt : MemoryAttemptReceipt)
    (outcome : AttemptOutcome) (clock : Duration) (Hhealthy : is_poisoned (state self) = false)
    (Hwf : state_wf (capacity self) (guarded (state self))) (Hclock : Duration_wf clock) :
  let st := guarded (state self) in
  let now' := Duration_max (now st) clock in
  exists st' r obs,
    complete self receipt outcome (Done clock) = (with_state self false st', Done (Ok r), obs)
    /\ state_wf (capacity self) st' /\ now st' = now' /\ generation st' = generation st
    /\ complete_effect self receipt outcome now' st st' (Done r).
Proof.
  intros st now'.
  pose proof (complete_locked_spec self (capacity self) st receipt outcome clock Hwf Hclock) as H.
  cbv zeta in H. unfold complete. rewrite Hhealthy. fold st.
  destruct (complete_locked self st receipt outcome clock) as [st' r].
  destruct H as (H1 & H2 & H3 & H4). fold now' in H2, H4.
  assert (Hr : exists v, r = Done v).
  { unfold complete_effect in H4. destruct (entries st !! receipt_key receipt); [|naive_solver].
    destruct (status_at st (receipt_key receipt) now'); [naive_solver| |naive_solver].
    destruct (_ && _); naive_solver. }
  destruct Hr as [v ->]. eexists st', v, _. by split_and!.
Qed.

(** ** Histories *)

Inductive attempt_event :=
| EvAdmit (subject : AttemptSubject) (clock : Outcome Duration)
| EvComplete (receipt : MemoryAttemptReceipt) (outcome : AttemptOutcome) (clock : Outcome Duration).

(** The generations granted and the generations whose completion was
    applied, newest first. *)
Record ledger := mkLedger { granted : list Z; applied : list Z }.

Definition attempt_step (self : MemoryAttemptLimiter) (l : ledger) (e : attempt_event)
    : MemoryAttemptLimiter * ledger :=
  match e with
  | EvAdmit subject clock =>
      let '(self', r, _) := admit_attempt self subject clock in
      (self', match r with
              | Done (Ok (AttemptAdmission_Admitted receipt)) =>
                  mkLedger (receipt_generation receipt :: granted l) (applied l)
              | _ => l
              end)
  | EvComplete receipt outcome clock =>
      let '(self', r, _) := complete self receipt outcome clock in
      (self', match r with
              | Done (Ok (Applied _)) =>
                  mkLedger (granted l) (receipt_generation receipt :: applied l)
              | _ => l
              end)
  end.

Fixpoint attempt_run (self : MemoryAttemptLimiter) (l : ledger) (events : list attempt_event)
    : MemoryAttemptLimiter * ledger :=
  match events with
  | [] => (self, l)
  | e :: events => let '(self', l') := attempt_step self l e in attempt_run self' l' events
  end.

(** The events a program can make: valid policies, one per key, and clock
    readings that are durations. *)
Definition event_ok (pol : AttemptKey -> AttemptPolicy) (e : attempt_event) : Prop :=
  match e with
  | EvAdmit subject clock =>
      AttemptPolicy_valid (as_policy subject) /\ pol (key_of subject) = as_policy subject
      /\ (forall d, clock = Done d -> Duration_wf d)
  | EvComplete _ _ clock => forall d, clock = Done d -> Duration_wf d
  end.

Record history_ok (pol : AttemptKey -> AttemptPolicy) (self : MemoryAttemptLimiter) (l : ledger)
    : Prop := {
  ho_state : state_wf (capacity self) (guarded (state self));
  ho_policy : forall k e, entries (guarded (state self)) !! k = Some e -> policy e = pol k;
  ho_granted : NoDup (granted l) /\ forall g, g ∈ granted l -> g <= generation (guarded (state self));
  ho_applied : NoDup (applied l) /\ applied l ⊆ granted l;
  ho_live : forall k e g u, entries (guarded (state self)) !! k = Some e ->
    lease e = Some (g, u) -> g ∈ granted l /\ g ∉ applied l;
}.

Lemma history_poison pol self l p :
  history_ok pol self l -> history_ok pol (with_state self p (guarded (state self))) l.
Proof. by intros []. Qed.

Lemma admit_step_ok pol self l subject clock :
  history_ok pol self l -> event_ok pol (EvAdmit subject clock) ->
  let '(self', l') := attempt_step self l (EvAdmit subject clock) in history_ok pol self' l'.
Proof.
  intros Hok (Hp & Hpol & Hclock). simpl. unfold admit_attempt.
  destruct (is_poisoned (state self)); [done|]. destruct clock as [d|]; [|by apply history_poison].
  pose proof Hok as [Hwf Hent [Hnd Hg] [Hnd' Hsub] Hlive].
  fold (key_of subject).
  pose proof (admit_locked_spec (capacity self) (guarded (state self)) (as_policy subject)
    (key_of subject) d Hwf Hp (Hclock d eq_refl)
    ltac:(intros e He; rewrite <- Hpol; by apply Hent)) as H. cbv zeta in H.
  destruct (admit_locked _ _ _ _ _) as [st' r].
  destruct H as (Hwf' & _ & _ & Hframe & Hfrom & Heff).
  assert (Hpolicy : forall k e, entries st' !! k = Some e -> policy e = pol k).
  { intros k e He. destruct (decide (k = key_of subject)) as [->|Hne];
      [rewrite Hpol; by apply Hfrom|by apply Hent, Hframe]. }
  assert (Hsrc : forall k e g u, entries st' !! k = Some e -> lease e = Some (g, u) ->
    r = Ok (inr g) \/ (g ∈ granted l /\ g ∉ applied l)).
  { intros k e g u He Hl. destruct (decide (k = key_of subject)) as [->|Hne].
    - destruct (Hfrom e He) as [_ H]. destruct (H g u Hl) as [|(e0 & He0 & Hl0)]; [by left|right].
      by apply (Hlive (key_of subject) e0 g u).
    - right. apply (Hlive k e g u); [by apply Hframe|done]. }
  unfold admit_effect in Heff.
  assert (Hgen : (exists g, r = Ok (inr g) /\ g = generation (guarded (state self)) + 1
      /\ generation st' = g)
    \/ ((forall g, r <> Ok (inr g)) /\ generation st' = generation (guarded (state self)))).
  { destruct (status_denial _ _); naive_solver. }
  destruct Hgen as [(g & -> & Hgg & Hg')|[Hno Hg']].
  - assert (Hfresh : g ∉ granted l) by (intros H; specialize (Hg g H); lia).
    split; cbn [state with_state guarded capacity granted applied]; [done|done|..].
    + split; [by constructor|]. intros g' [->|Hin]%elem_of_cons; [simpl; lia|].
      specialize (Hg g' Hin). lia.
    + split; [done|]. simpl. set_solver.
    + intros k e g' u He Hl. simpl. destruct (Hsrc k e g' u He Hl) as [[= <-]|[? ?]]; [|set_solver].
      split; [by left|]. intros H. apply Hfresh. by apply Hsub.
  - assert (Hl' : history_ok pol (with_state self false st') l).
    { split; cbn [state with_state guarded capacity]; [done|done| |done|].
      + split; [done|]. intros g' Hin. rewrite Hg'. by apply Hg.
      + intros k e g' u He Hl. destruct (Hsrc k e g' u He Hl) as [H|?]; [by destruct (Hno g')|done]. }
    destruct r as [[d'|g]|e]; [done|by destruct (Hno g)|done].
Qed.

Lemma complete_step_ok pol self l receipt outcome clock :
  history_ok pol self l -> event_ok pol (EvComplete receipt outcome clock) ->
  let '(self', l') := attempt_step self l (EvComplete receipt outcome clock) in
  history_ok pol self' l'.
Proof.
  intros Hok Hclock. simpl. unfold complete.
  destruct (is_poisoned (state self)); [done|]. destruct clock as [d|]; [|by apply history_poison].
  pose proof Hok as [Hwf Hent [Hnd Hg] [Hnd' Hsub] Hlive]. set (st := guarded (state self)) in *.
  pose proof (complete_locked_spec self (capacity self) st receipt outcome d Hwf
    (Hclock d eq_refl)) as H. cbv zeta in H.
  destruct (complete_locked self st receipt outcome d) as [st' r].
  destruct H as (Hwf' & _ & Hgen & Heff). set (now' := Duration_max (now st) d) in *.
  assert (Hstale : forall p, entries st' = entries st -> history_ok pol (with_state self p st') l).
  { intros p He. split; cbn [state with_state guarded capacity]; rewrite ?He, ?Hgen; done. }
  unfold complete_effect in Heff.
  destruct (entries st !! receipt_key receipt) as [e|] eqn:He;
    [|destruct Heff as [-> ?]; by apply Hstale].
  destruct (status_at st (receipt_key receipt) now') as [|g u n|] eqn:Hs;
    [destruct Heff as [-> ?]; by apply Hstale| |destruct Heff as [-> ?]; by apply Hstale].
  unfold status_at in Hs. rewrite He in Hs. apply status_reserved in Hs as (Hl & _ & _).
  destruct (_ && (g =? _)) eqn:Hmatch; [|destruct Heff as [-> ?]; by apply Hstale].
  bool_prop. subst g. destruct Heff as [-> Hentries].
  destruct (Hlive (receipt_key receipt) e (receipt_generation receipt) u He Hl) as [Hgr Hap].
  assert (Hframe : forall k e', entries st' !! k = Some e' ->
    (k <> receipt_key receipt /\ entries st !! k = Some e')
    \/ (k = receipt_key receipt /\ lease e' = None /\ policy e' = policy e)).
  { intros k e' He'. destruct (decide (k = receipt_key receipt)) as [->|Hne].
    - right. destruct outcome; [rewrite Hentries, lookup_delete_eq in He'; done|..];
        destruct Hentries as (e1 & Hx & H1 & H2 & _); rewrite Hx, lookup_insert_eq in He';
        injection He' as <-; done.
    - left. split; [done|]. destruct outcome; [by rewrite Hentries, lookup_delete_ne in He'|..];
        destruct Hentries as (e1 & Hx & _); by rewrite Hx, lookup_insert_ne in He'. }
  split; cbn [state with_state guarded capacity granted applied]; rewrite ?Hgen; [done|..].
  - intros k e' He'. destruct (Hframe k e' He') as [[_ Hk]|(-> & _ & ->)]; by apply Hent.
  - done.
  - split; [by constructor|]. set_solver.
  - intros k e' g u' He' Hl'. destruct (Hframe k e' He') as [[Hne Hk]|(_ & Hn & _)]; [|congruence].
    destruct (Hlive k e' g u' Hk Hl') as [H1 H2]. split; [done|].
    intros [->|?]%elem_of_cons; [|done]. apply Hne.
    by apply (sw_unique _ _ Hwf k (receipt_key receipt) e' e (receipt_generation receipt) u' u).
Qed.

(** C9. Receipts are single use. In any run of admissions and completions
    against a fresh store, with any clock readings (going backwards or
    panicking), any receipts presented any number of times, and any outcomes:
    no two admissions share a generation, each granted reservation is
    completed at most once, nothing that was not granted is ever completed,
    and the number of stored keys never exceeds the capacity. *)
Theorem attempt_receipts_single_use (id cap : nat) (pol : AttemptKey -> AttemptPolicy)
    (events : list attempt_event) (Hev : Forall (event_ok pol) events) :
  let '(self', l) := attempt_run (with_clock id cap) (mkLedger [] []) events in
  NoDup (granted l) /\ NoDup (applied l) /\ applied l ⊆ granted l
  /\ (size (entries (guarded (state self'))) <= capacity self')%nat.
Proof.
  assert (H0 : history_ok pol (with_clock id cap) (mkLedger [] [])).
  { split; simpl.
    - split; simpl; [unfold Duration_wf, DURATION_MAX; simpl; unfold u64_max; lia
                    |unfold u64_max; lia|rewrite map_size_empty; lia|..].
      + intros k e He. by rewrite lookup_empty in He.
      + intros k1 k2 e1 e2 g u1 u2 He. by rewrite lookup_empty in He.
    - intros k e He. by rewrite lookup_empty in He.
    - split; [constructor|]. intros g Hg. by apply not_elem_of_nil in Hg.
    - split; [constructor|done].
    - intros k e g u He. by rewrite lookup_empty in He. }
  revert H0. generalize (with_clock id cap) (mkLedger [] []).
  induction Hev as [|e events He _ IH]; intros self l Hok; simpl.
  - destruct Hok as [Hwf _ [Hg _] [Ha Hsub] _]. split_and!; [done|done|done|apply Hwf].
  - assert (Hstep : let '(self', l') := attempt_step self l e in history_ok pol self' l').
    { destruct e; [by apply admit_step_ok|by apply complete_step_ok]. }
    destruct (attempt_step self l e) as [self' l']. by apply IH.
Qed.

(** ** Concrete runs *)

Definition example_policy : AttemptPolicy :=
  mkAttemptPolicy (mkPolicyId [97]) (mkScopeId [98]) (mkQuotaPeriod 10) (mkQuotaPeriod 100)
    (mkQuotaPeriod 1000) (mkQuotaPeriod 50) (from_digest [7]).

Definition example_subject (n : Z) : AttemptSubject :=
  mkAttemptSubject example_policy (mkSubjectKey [n]).

Definition ms (millis : Z) : Outcome Duration := Done (from_millis millis).

Lemma example_policy_valid : AttemptPolicy_valid example_policy.
Proof.
  unfold AttemptPolicy_valid, PolicyId_wf, ScopeId_wf, identifier_wf, QuotaPeriod_wf.
  rewrite MAX_WINDOW_MILLIS_val. unfold MAX_IDENTIFIER_LENGTH. simpl.
  split_and!; try lia; repeat constructor.
Qed.

Lemma ms_wf millis : in_u64 millis -> Duration_wf (from_millis millis).
Proof. apply from_millis_wf. Qed.

Lemma fresh_wf id cap : state_wf cap (guarded (state (with_clock id cap))).
Proof.
  split; simpl; [unfold Duration_wf, DURATION_MAX; simpl; unfold u64_max; lia
                |unfold u64_max; lia|rewrite map_size_empty; lia|..].
  - intros k e He. by rewrite lookup_empty in He.
  - intros k1 k2 e1 e2 g u1 u2 He. by rewrite lookup_empty in He.
Qed.

Lemma fresh_lookup id cap k e : entries (guarded (state (with_clock id cap))) !! k <> Some e.
Proof. simpl. by rewrite lookup_empty. Qed.

(** C10 witness. *)
Lemma attempt_admit_refines_witness :
  exists st' r obs,
    admit_attempt (with_clock 0 2) (example_subject 1) (ms 5)
      = (with_state (with_clock 0 2) false st', Done r, obs)
    /\ r = Ok (AttemptAdmission_Admitted (mkReceipt 0 ([7], [1]) 1))
    /\ now st' = from_millis 5.
Proof.
  destruct (attempt_admit_refines (with_clock 0 2) (example_subject 1) (from_millis 5) eq_refl
    (fresh_wf 0 2) example_policy_valid
    ltac:(apply ms_wf; unfold in_u64, u64_max; lia)
    ltac:(intros e He; by destruct (fresh_lookup 0 2 _ e He))) as (st' & r & obs & Hrun & _ & Hnow & _).
  exists st', r, obs. split; [exact Hrun|]. split; [|exact Hnow].
  vm_compute in Hrun. injection Hrun as _ <- _. reflexivity.
Defined.

Definition reserved_example : MemoryAttemptLimiter :=
  (admit_attempt (with_clock 0 2) (example_subject 1) (ms 5)).1.1.

Lemma reserved_example_wf : state_wf (capacity reserved_example) (guarded (state reserved_example)).
Proof.
  pose proof (admit_locked_spec 2 State_default example_policy ([7], [1]) (from_millis 5)
    (fresh_wf 0 2) example_policy_valid ltac:(apply ms_wf; unfold in_u64, u64_max; lia)
    ltac:(intros e He; by destruct (fresh_lookup 0 2 _ e He))) as H. cbv zeta in H.
  unfold reserved_example, admit_attempt. cbn [with_clock state is_poisoned ms guarded capacity].
  change (admit_locked 2 State_default (as_policy (example_subject 1)) _ _)
    with (admit_locked 2 State_default example_policy ([7], [1]) (from_millis 5)).
  destruct (admit_locked 2 State_default example_policy ([7], [1]) (from_millis 5)) as [st' r].
  destruct H as [H _]. destruct r as [[]|]; exact H.
Qed.

(** C11 witness. *)
Lemma attempt_complete_refines_witness :
  exists st' r obs,
    complete reserved_example (mkReceipt 0 ([7], [1]) 1) Failure (ms 20)
      = (with_state reserved_example false st', Done (Ok r), obs)
    /\ r = Applied (mkAttemptCompletion Failure 1 (Delay_new (from_millis 10)))
    /\ now st' = from_millis 20.
Proof.
  destruct (attempt_complete_refines reserved_example (mkReceipt 0 ([7], [1]) 1) Failure
    (from_millis 20) ltac:(vm_compute; reflexivity) reserved_example_wf
    ltac:(apply ms_wf; unfold in_u64, u64_max; lia)) as (st' & r & obs & Hrun & _ & Hnow & _).
  exists st', r, obs. split; [exact Hrun|].
  split; [|rewrite Hnow; vm_compute; reflexivity].
  vm_compute in Hrun. injection Hrun as _ <- _. reflexivity.
Defined.

(** C9 witness. *)
Lemma attempt_receipts_single_use_witness :
  let receipt := mkReceipt 0 ([7], [1]) 1 in
  let events :=
    [EvAdmit (example_subject 1) (ms 5); EvAdmit (example_subject 1) (ms 6);
     EvComplete receipt Failure (ms 20); EvComplete receipt Success (ms 21);
     EvAdmit (example_subject 1) (ms 40)] in
  let '(self', l) := attempt_run (with_clock 0 2) (mkLedger [] []) events in
  granted l = [2; 1] /\ applied l = [1] /\ NoDup (applied l).
Proof.
  cbv zeta.
  assert (Hd : forall m d, 0 <= m <= 100 -> ms m = Done d -> Duration_wf d).
  { intros m d Hm [= <-]. apply ms_wf. unfold in_u64, u64_max. lia. }
  pose proof (attempt_receipts_single_use 0 2 (fun _ => example_policy)
    [EvAdmit (example_subject 1) (ms 5); EvAdmit (example_subject 1) (ms 6);
     EvComplete (mkReceipt 0 ([7], [1]) 1) Failure (ms 20);
     EvComplete (mkReceipt 0 ([7], [1]) 1) Success (ms 21);
     EvAdmit (example_subject 1) (ms 40)]) as H.
  destruct (attempt_run _ _ _) as [self' l] eqn:Hrun.
  assert (Hl : granted l = [2; 1] /\ applied l = [1]).
  { vm_compute in Hrun. injection Hrun as _ <-. split; reflexivity. }
  destruct Hl as [Hg Ha]. split; [exact Hg|]. split; [exact Ha|]. apply H.
  repeat (apply Forall_cons; split); try apply Forall_nil_2; cbn [event_ok].
  all: repeat match goal with
    | |- _ /\ _ => split
    | |- AttemptPolicy_valid _ => apply example_policy_valid
    | |- forall d, _ -> _ => intros d' Hd'; eapply Hd; [|exact Hd']; lia
    | |- _ => reflexivity
    end.
Defined.

End AttemptStore.
