(* ===== verification/Draft11.v ===== *)
(** [runlimit-http/src/draft_11.rs]: the [RateLimit-Policy] and [RateLimit]
    response fields of draft-ietf-httpapi-ratelimit-headers-11.  A field is
    specified by a reader of its Structured Field member (RFC 9651: a String
    item with two Integer parameters); the [http] crate's header types are a
    class. *)

From Stdlib Require Import Ascii String.
From S2P Require Import Prelude RustStd Identifier Policy Decision.
From stdpp Require Import prelude list.
Open Scope Z_scope.
Open Scope list_scope.

(** * The encoder *)

Definition MAX_STRUCTURED_FIELD_INTEGER : Z := 999999999999999.
Definition MAX_POLICY_NAME_LENGTH : Z := 128.

Inductive QuotaState :=
| QuotaState_Available (allowance : Allowance)
| QuotaState_Exhausted (denial : QuotaDenial).

#[export] Instance QuotaState_eq_dec : EqDecision QuotaState.
Proof. solve_decision. Defined.

(** The three [From] implementations. *)
Definition QuotaState_of_allowance (allowance : Allowance) : QuotaState :=
  QuotaState_Available allowance.
Definition QuotaState_of_denial (denial : QuotaDenial) : QuotaState :=
  QuotaState_Exhausted denial.
Definition QuotaState_of_admitted (admitted : AdmittedDecision) : QuotaState :=
  match Admitted_view admitted with
  | AdmittedView_Allowed allowance => QuotaState_Available allowance
  | AdmittedView_ShadowDenied denial => QuotaState_Exhausted denial
  end.

Inductive EncodingError :=
| EmptyPolicyName
| PolicyNameTooLong (actual maximum : Z)
| InvalidPolicyNameCharacter (index character : Z)
| StructuredFieldIntegerTooLarge (actual maximum : Z)
| QuotaPeriodNotWholeSeconds (actual : Duration).

#[export] Instance EncodingError_eq_dec : EqDecision EncodingError.
Proof. solve_decision. Defined.

(** The [http] crate's names and values: constructors, and the text they
    hold. *)
Class HttpFields (HeaderName HeaderValue : Type) := {
  header_from_static : str -> Outcome HeaderName;
  header_name_str : HeaderName -> str;
  header_value_try_from : str -> option HeaderValue;
  header_value_bytes : HeaderValue -> bytes;
}.

(** [' '..='~']. *)
Definition visible (c : Z) : Prop := 32 <= c <= 126.
Definition visibleb (c : Z) : bool := (32 <=? c) && (c <=? 126).

(** The loop over [name.char_indices()], pushing on [encoded]. *)
Fixpoint encode_chars (encoded : str) (chars : list (Z * Z)) : Result EncodingError str :=
  match chars with
  | [] => Ok encoded
  | (index, character) :: chars =>
      if negb (visibleb character)
      then Err (InvalidPolicyNameCharacter index character)
      else
        let encoded :=
          if (character =? 34) || (character =? 92) then encoded ++ [92] else encoded in
        encode_chars (encoded ++ [character]) chars
  end.

Definition encode_policy_name (name : str) : Result EncodingError str :=
  if str_len name =? 0 then Err EmptyPolicyName
  else if MAX_POLICY_NAME_LENGTH <? str_len name
  then Err (PolicyNameTooLong (str_len name) MAX_POLICY_NAME_LENGTH)
  else
    encoded ← encode_chars [34] (char_indices name);
    mret (encoded ++ [34]).

Definition structured_integer (value : Z) : Result EncodingError Z :=
  if MAX_STRUCTURED_FIELD_INTEGER <? value
  then Err (StructuredFieldIntegerTooLarge value MAX_STRUCTURED_FIELD_INTEGER)
  else Ok value.

Section Encoder.
Context {HeaderName HeaderValue : Type} `{HttpFields HeaderName HeaderValue}.

Definition header_value (value : str) : Outcome HeaderValue :=
  expect (header_value_try_from value).

(** The field named [header] with one member, or the encoding error. *)
Definition header_field (header : string) (value : Result EncodingError str)
    : Outcome (Result EncodingError (HeaderName * HeaderValue)) :=
  match value with
  | Err e => Done (Err e)
  | Ok value =>
      value ← header_value value;
      name ← header_from_static (byte_string header);
      mret (Ok (name, value))
  end.

Definition quota_policy {P} `{RateLimitPolicy P} (name : str) (policy : P)
    : Outcome (Result EncodingError (HeaderName * HeaderValue)) :=
  header_field "ratelimit-policy"
    (name ← encode_policy_name name;
     quota ← structured_integer (Capacity_get (rp_quota policy));
     let period := rp_quota_period policy in
     if negb (QuotaPeriod_millis period mod 1000 =? 0)
     then Err (QuotaPeriodNotWholeSeconds (QuotaPeriod_duration period))
     else
       period ← structured_integer (QuotaPeriod_millis period / 1000);
       mret (name ++ byte_string ";q=" ++ decimal quota ++ byte_string ";w=" ++ decimal period)).

Definition service_limit (name : str) (state : QuotaState)
    : Outcome (Result EncodingError (HeaderName * HeaderValue)) :=
  header_field "ratelimit"
    (name ← encode_policy_name name;
     let '(available, effective_window) :=
       match state with
       | QuotaState_Available allowance =>
           (Allowance_available allowance, Delay_seconds (Allowance_replenishes_after allowance))
       | QuotaState_Exhausted denial => (0, Delay_seconds (QuotaDenial_retry_after denial))
       end in
     available ← structured_integer available;
     effective_window ← structured_integer effective_window;
     mret (name ++ byte_string ";r=" ++ decimal available
             ++ byte_string ";t=" ++ decimal effective_window)).
End Encoder.

(** * A reader of the fields

    An RFC 9651 String followed by two Integer parameters. *)

(** The rest of a String, after its opening quote. *)
Fixpoint read_string (s : str) : option (str * str) :=
  match s with
  | [] => None
  | c :: s1 =>
      if c =? 34 then Some ([], s1)
      else if c =? 92 then
        match s1 with
        | d :: s2 =>
            if (d =? 34) || (d =? 92)
            then prod_map (cons d) id <$> read_string s2 else None
        | [] => None
        end
      else if visibleb c then prod_map (cons c) id <$> read_string s1
      else None
  end.

Fixpoint read_digits (acc : Z) (s : str) : Z * str :=
  match s with
  | c :: s' => if is_digit c then read_digits (acc * 10 + (c - 48)) s' else (acc, s)
  | [] => (acc, [])
  end.

(** One to fifteen digits. *)
Definition read_integer (s : str) : option (Z * str) :=
  let '(v, rest) := read_digits 0 s in
  let n := (length s - length rest)%nat in
  if (Nat.leb 1 n && Nat.leb n 15) then Some (v, rest) else None.

(** [;key=integer], with a key of one letter. *)
Definition read_parameter (key : Z) (s : str) : option (Z * str) :=
  match s with
  | semicolon :: k :: equals :: s =>
      if (semicolon =? 59) && (k =? key) && (equals =? 61) then read_integer s else None
  | _ => None
  end.

Definition read_member (key1 key2 : Z) (s : str) : option (str * Z * Z) :=
  match s with
  | quote :: s =>
      if negb (quote =? 34) then None
      else
        '(name, s) ← read_string s;
        '(v1, s) ← read_parameter key1 s;
        '(v2, s) ← read_parameter key2 s;
        match s with [] => Some (name, v1, v2) | _ => None end
  | [] => None
  end.

(** * Numbers *)

Lemma read_digits_app acc ds rest :
  Forall (fun c => is_digit c = true) ds ->
  (forall c, head rest = Some c -> is_digit c = false) ->
  read_digits acc (ds ++ rest) = (digits_value acc ds, rest).
Proof.
  intros Hds Hrest. revert acc. induction Hds as [|c ds Hc _ IH]; intros acc; simpl.
  - destruct rest as [|c rest]; [done|]. simpl. by rewrite (Hrest c eq_refl).
  - rewrite Hc. apply IH.
Qed.

Lemma decimal_digits n : 0 <= n <= MAX_STRUCTURED_FIELD_INTEGER ->
  Forall (fun c => is_digit c = true) (decimal n).
Proof.
  intros Hn. unfold MAX_STRUCTURED_FIELD_INTEGER in Hn. apply decimal_spec. unfold in_u128. solve_width.
Qed.

(** A number within the Structured Field range reads back. *)
Lemma read_integer_decimal n rest : 0 <= n <= MAX_STRUCTURED_FIELD_INTEGER ->
  (forall c, head rest = Some c -> is_digit c = false) ->
  read_integer (decimal n ++ rest) = Some (n, rest).
Proof.
  intros Hn Hrest. unfold MAX_STRUCTURED_FIELD_INTEGER in Hn.
  destruct (decimal_spec n) as (Hd & Hpos & Hlen & Hval); [unfold in_u128; solve_width|].
  unfold read_integer. rewrite read_digits_app by done.
  rewrite Hval, length_app. specialize (Hlen 15%nat ltac:(lia) ltac:(simpl; lia)).
  destruct (Nat.leb_spec 1 (length (decimal n) + length rest - length rest)); [|lia].
  destruct (Nat.leb_spec (length (decimal n) + length rest - length rest) 15); [done|lia].
Qed.

(** * Names *)

Definition name_ok (name : str) : Prop :=
  name <> [] /\ str_len name <= MAX_POLICY_NAME_LENGTH /\ Forall visible name.

(** The first fault of a name, in the order they are checked. *)
Definition name_error (name : str) (e : EncodingError) : Prop :=
  (name = [] /\ e = EmptyPolicyName)
  \/ (MAX_POLICY_NAME_LENGTH < str_len name
      /\ e = PolicyNameTooLong (str_len name) MAX_POLICY_NAME_LENGTH)
  \/ (str_len name <= MAX_POLICY_NAME_LENGTH
      /\ exists pre c post, name = pre ++ c :: post /\ Forall visible pre /\ ~ visible c
         /\ e = InvalidPolicyNameCharacter (Z.of_nat (length pre)) c).

Definition escape_char (c : Z) : str := if (c =? 34) || (c =? 92) then [92; c] else [c].
Definition escape (name : str) : str := name ≫= escape_char.

Lemma visibleb_spec c : visibleb c = true <-> visible c.
Proof. unfold visibleb, visible. rewrite andb_true_iff, !Z.leb_le. done. Qed.

Lemma encode_chars_spec i encoded name :
  match encode_chars encoded (char_indices_from i name) with
  | Ok s => Forall visible name /\ s = encoded ++ escape name
  | Err e => exists pre c post, name = pre ++ c :: post /\ Forall visible pre /\ ~ visible c
      /\ e = InvalidPolicyNameCharacter (i + Z.of_nat (length pre)) c
  end.
Proof.
  revert i encoded. induction name as [|c name IH]; intros i encoded; simpl.
  { by rewrite app_nil_r. }
  destruct (visibleb c) eqn:Hc; simpl.
  - apply visibleb_spec in Hc.
    specialize (IH (i + char_len_utf8 c)
      ((if (c =? 34) || (c =? 92) then encoded ++ [92] else encoded) ++ [c])).
    destruct (encode_chars _ _) as [s|e].
    + destruct IH as [Hname ->]. split; [by constructor|].
      unfold escape. change ((c :: name) ≫= escape_char) with (escape_char c ++ (name ≫= escape_char)).
      rewrite app_assoc. f_equal. unfold escape_char.
      destruct ((c =? 34) || (c =? 92)); by rewrite <- ?app_assoc.
    + destruct IH as (pre & d & post & -> & Hpre & Hd & ->).
      exists (c :: pre), d, post. split_and!; [done|by constructor|done|].
      unfold char_len_utf8, visible in *. f_equal. simpl. case_cmp; lia.
  - exists [], c, name. split_and!; [done|constructor|by rewrite <- visibleb_spec, Hc|].
    f_equal. simpl. lia.
Qed.

Lemma encode_policy_name_spec name :
  match encode_policy_name name with
  | Ok s => name_ok name /\ s = [34] ++ escape name ++ [34]
  | Err e => name_error name e
  end.
Proof.
  unfold encode_policy_name, char_indices, name_error, name_ok.
  pose proof (str_len_pos name) as Hpos. pose proof (encode_chars_spec 0 [34] name) as H.
  assert (Hnn : 0 <= str_len name) by (rewrite <- as_bytes_length; lia).
  destruct (Z.eqb_spec (str_len name) 0) as [Hz|Hz].
  { left. split; [|done]. destruct name; [done|]. exfalso.
    assert (0 < str_len (z :: name)) by (by apply Hpos). lia. }
  destruct (Z.ltb_spec MAX_POLICY_NAME_LENGTH (str_len name)); [right; by left|].
  destruct (encode_chars _ _) as [s|e]; cbn [mbind Result_bind mret Result_ret].
  - destruct H as [Hv ->]. split_and!; [apply Hpos; lia|done|done|by rewrite <- app_assoc].
  - right; right. done.
Qed.

(** An escaped name reads back. *)
Lemma read_string_escape name rest : Forall visible name ->
  read_string (escape name ++ 34 :: rest) = Some (name, rest).
Proof.
  induction 1 as [|c name Hc _ IH]; [done|].
  change (escape (c :: name)) with (escape_char c ++ escape name).
  rewrite <- app_assoc. unfold escape_char.
  destruct (Z.eqb_spec c 34) as [->|H34]; simpl; [by rewrite IH|].
  destruct (Z.eqb_spec c 92) as [->|H92]; simpl; [by rewrite IH|].
  destruct (Z.eqb_spec c 34); [done|]. destruct (Z.eqb_spec c 92); [done|].
  apply visibleb_spec in Hc. by rewrite Hc, IH.
Qed.

Lemma escape_visible name : Forall visible name -> Forall visible (escape name).
Proof.
  induction 1 as [|c name Hc _ IH]; [done|].
  change (escape (c :: name)) with (escape_char c ++ escape name). apply Forall_app. split; [|done].
  unfold escape_char, visible in *. by destruct (_ || _); repeat (apply Forall_cons; split; [lia|]).
Qed.

(** * Fields *)

(** What the documentation of the [http] crate promises: a lower-case token
    is a header name, and a text of visible ASCII a header value. *)
Class HttpFieldsLaws (HeaderName HeaderValue : Type) `{HttpFields HeaderName HeaderValue} := {
  header_name_accepted : forall s,
    s <> [] -> Forall (fun c => 97 <= c <= 122 \/ c = 45) s ->
    exists name, header_from_static s = Done name /\ header_name_str name = s;
  header_value_accepted : forall s,
    Forall visible s ->
    exists v, header_value_try_from s = Some v /\ header_value_bytes v = s;
}.

Lemma structured_integer_spec v :
  structured_integer v =
    if MAX_STRUCTURED_FIELD_INTEGER <? v
    then Err (StructuredFieldIntegerTooLarge v MAX_STRUCTURED_FIELD_INTEGER) else Ok v.
Proof. done. Qed.

(** The text of a member whose keys are the letters [k1] and [k2]. *)
Definition member_text (name : str) (k1 k2 v1 v2 : Z) : str :=
  ([34] ++ escape name ++ [34]) ++ [59; k1; 61] ++ decimal v1 ++ [59; k2; 61] ++ decimal v2.

Lemma decimal_visible n : 0 <= n <= MAX_STRUCTURED_FIELD_INTEGER -> Forall visible (decimal n).
Proof.
  intros Hn. eapply Forall_impl; [by apply decimal_digits|].
  intros c. unfold is_digit, visible. intros Hc. bool_prop. lia.
Qed.

Lemma member_text_visible name k1 k2 v1 v2 :
  Forall visible name -> visible k1 -> visible k2 ->
  0 <= v1 <= MAX_STRUCTURED_FIELD_INTEGER -> 0 <= v2 <= MAX_STRUCTURED_FIELD_INTEGER ->
  Forall visible (member_text name k1 k2 v1 v2).
Proof.
  intros Hn Hk1 Hk2 H1 H2. unfold member_text.
  assert (Hlit : visible 34 /\ visible 59 /\ visible 61) by (unfold visible; lia).
  destruct Hlit as (Hq & Hs & He).
  repeat (rewrite ?Forall_app, ?Forall_cons, ?Forall_nil).
  split_and!; try done; [by apply escape_visible|by apply decimal_visible..].
Qed.

Lemma read_member_text name k1 k2 v1 v2 :
  Forall visible name ->
  0 <= v1 <= MAX_STRUCTURED_FIELD_INTEGER -> 0 <= v2 <= MAX_STRUCTURED_FIELD_INTEGER ->
  read_member k1 k2 (member_text name k1 k2 v1 v2) = Some (name, v1, v2).
Proof.
  intros Hn H1 H2. unfold read_member, member_text. rewrite <- !app_assoc.
  cbn [app Z.eqb Pos.eqb negb]. rewrite read_string_escape by done.
  cbn [mbind option_bind app read_parameter]. rewrite !Z.eqb_refl. cbn [andb].
  rewrite read_integer_decimal by (try done; by intros c [= <-]).
  cbn [mbind option_bind app read_parameter]. rewrite !Z.eqb_refl. cbn [andb].
  rewrite <- (app_nil_r (decimal v2)), read_integer_decimal by done. done.
Qed.

Lemma header_token header :
  forallb (fun c => ((97 <=? c) && (c <=? 122)) || (c =? 45)) (byte_string header) = true ->
  Forall (fun c => 97 <= c <= 122 \/ c = 45) (byte_string header).
Proof.
  rewrite forallb_forall, Forall_forall. intros Hall c Hc%list_elem_of_In.
  apply Hall in Hc. apply orb_prop in Hc as [Hc|Hc]; bool_prop; [by left|by right].
Qed.

Section Fields.
Context {HeaderName HeaderValue : Type} `{HttpFieldsLaws HeaderName HeaderValue}.

(** A field named [header] whose value reads back as the member, and holds
    no byte outside visible ASCII. *)
Definition is_field (header : str) (k1 k2 : Z) (name : str) (v1 v2 : Z)
    (field : HeaderName * HeaderValue) : Prop :=
  header_name_str field.1 = header
  /\ Forall visible (header_value_bytes field.2)
  /\ read_member k1 k2 (header_value_bytes field.2) = Some (name, v1, v2).

Lemma header_field_text header k1 k2 name v1 v2 :
  byte_string header <> [] -> Forall (fun c => 97 <= c <= 122 \/ c = 45) (byte_string header) ->
  name_ok name -> visible k1 -> visible k2 ->
  0 <= v1 <= MAX_STRUCTURED_FIELD_INTEGER -> 0 <= v2 <= MAX_STRUCTURED_FIELD_INTEGER ->
  exists field, header_field header (Ok (member_text name k1 k2 v1 v2)) = Done (Ok field)
    /\ is_field (byte_string header) k1 k2 name v1 v2 field.
Proof.
  intros Hne Htok (_ & _ & Hn) Hk1 Hk2 H1 H2. unfold header_field, header_value.
  destruct (header_value_accepted (member_text name k1 k2 v1 v2)) as (v & -> & Hv);
    [by apply member_text_visible|].
  destruct (header_name_accepted (byte_string header) Hne Htok) as (h & Hh & Hs).
  cbn [expect mbind Outcome_bind]. rewrite Hh. exists (h, v). split; [done|].
  unfold is_field. cbn [fst snd]. rewrite Hv. split_and!; [done|by apply member_text_visible|].
  by apply read_member_text.
Qed.

(** C16. The [RateLimit-Policy] field. For any policy and any public name,
    [quota_policy] never panics; the field it builds holds only visible ASCII
    (no header injection) and reads back, by the Structured Field grammar, as
    exactly the given name, the policy's quota and its period in seconds;
    and it is refused exactly for a faulty name, a quota above the Structured
    Field integers, or a period that is not a whole number of seconds, the
    first of these being reported. *)
Theorem quota_policy_field {P} `{RateLimitPolicyLaws P} (name : str) (policy : P)
    (Hp : rp_wf policy) :
  let quota := Capacity_get (rp_quota policy) in
  let period := rp_quota_period policy in
  match quota_policy name policy with
  | Panic => False
  | Done (Ok field) =>
      name_ok name /\ quota <= MAX_STRUCTURED_FIELD_INTEGER
      /\ exists seconds, QuotaPeriod_millis period = seconds * 1000
         /\ is_field (byte_string "ratelimit-policy") 113 119 name quota seconds field
  | Done (Err e) =>
      name_error name e
      \/ name_ok name /\ MAX_STRUCTURED_FIELD_INTEGER < quota
         /\ e = StructuredFieldIntegerTooLarge quota MAX_STRUCTURED_FIELD_INTEGER
      \/ name_ok name /\ quota <= MAX_STRUCTURED_FIELD_INTEGER
         /\ QuotaPeriod_millis period mod 1000 <> 0
         /\ e = QuotaPeriodNotWholeSeconds (QuotaPeriod_duration period)
  end.
Proof.
  intros quota period. unfold quota_policy. fold quota period.
  assert (Hq : 1 <= quota) by apply (rp_quota_wf policy Hp).
  assert (Hper : 1 <= QuotaPeriod_millis period <= MAX_WINDOW_MILLIS)
    by apply (rp_quota_period_wf policy Hp).
  rewrite MAX_WINDOW_MILLIS_val in Hper.
  pose proof (encode_policy_name_spec name) as Hname.
  destruct (encode_policy_name name) as [s|e]; [|by left]. destruct Hname as [Hname ->].
  rewrite !structured_integer_spec. cbn [mbind Result_bind mret Result_ret].
  destruct (Z.ltb_spec MAX_STRUCTURED_FIELD_INTEGER quota); [by right; left|].
  cbn [mbind Result_bind].
  destruct (Z.eqb_spec (QuotaPeriod_millis period mod 1000) 0); cbn [negb]; [|by right; right].
  destruct (Z.ltb_spec MAX_STRUCTURED_FIELD_INTEGER (QuotaPeriod_millis period / 1000)) as [Hb|Hb];
    [unfold MAX_STRUCTURED_FIELD_INTEGER in Hb; lia|].
  cbn [mbind Result_bind].
  destruct (header_field_text "ratelimit-policy" 113 119 name quota (QuotaPeriod_millis period / 1000)
    ltac:(discriminate) (header_token "ratelimit-policy" eq_refl) Hname ltac:(unfold visible; lia)
    ltac:(unfold visible; lia) ltac:(lia) ltac:(lia)) as (field & Hrun & Hf).
  match goal with |- match ?x with _ => _ end =>
    change x with (header_field "ratelimit-policy"
      (Ok (member_text name 113 119 quota (QuotaPeriod_millis period / 1000)))) end.
  rewrite Hrun. split_and!; [done|done|]. exists (QuotaPeriod_millis period / 1000).
  split; [lia|done].
Qed.

(** The service limit a state describes. *)
Definition state_available (state : QuotaState) : Z :=
  match state with
  | QuotaState_Available allowance => Allowance_available allowance
  | QuotaState_Exhausted _ => 0
  end.
Definition state_delay (state : QuotaState) : Delay :=
  match state with
  | QuotaState_Available allowance => Allowance_replenishes_after allowance
  | QuotaState_Exhausted denial => QuotaDenial_retry_after denial
  end.
Definition QuotaState_wf (state : QuotaState) : Prop :=
  0 <= state_available state /\ Duration_wf (Delay_duration (state_delay state)).

Lemma Delay_seconds_ceil d : Duration_wf (Delay_duration d) ->
  0 <= Delay_seconds d
  /\ (Delay_seconds d <= MAX_STRUCTURED_FIELD_INTEGER ->
      Delay_seconds d = div_ceil (as_nanos (Delay_duration d)) 1000000000).
Proof.
  unfold Duration_wf, DURATION_MAX, Delay_seconds, as_secs, subsec_nanos, saturating_add,
    MAX_STRUCTURED_FIELD_INTEGER, div_ceil. destruct d as [[n]]. simpl. intros Hn.
  unfold_widths. case_cmp; lia.
Qed.

(** The [RateLimit] field. For an allowance or a quota denial (enforced
    or shadowed) [service_limit] never panics; the field it builds holds
    only visible ASCII and reads back as exactly the given name, the
    allowance still available (zero when exhausted) and the delay rounded up
    to whole seconds, so no client is told to come back too early; it is
    refused exactly for a faulty name or a number above the Structured Field
    integers. *)
Theorem service_limit_field (name : str) (state : QuotaState) (Hstate : QuotaState_wf state) :
  let available := state_available state in
  let seconds := Delay_seconds (state_delay state) in
  match service_limit name state with
  | Panic => False
  | Done (Ok field) =>
      name_ok name
      /\ is_field (byte_string "ratelimit") 114 116 name available seconds field
      /\ seconds = div_ceil (as_nanos (Delay_duration (state_delay state))) 1000000000
  | Done (Err e) =>
      name_error name e
      \/ name_ok name /\ MAX_STRUCTURED_FIELD_INTEGER < available
         /\ e = StructuredFieldIntegerTooLarge available MAX_STRUCTURED_FIELD_INTEGER
      \/ name_ok name /\ available <= MAX_STRUCTURED_FIELD_INTEGER
         /\ MAX_STRUCTURED_FIELD_INTEGER < seconds
         /\ e = StructuredFieldIntegerTooLarge seconds MAX_STRUCTURED_FIELD_INTEGER
  end.
Proof.
  intros available seconds. destruct Hstate as [Ha Hd]. fold available in Ha.
  destruct (Delay_seconds_ceil _ Hd) as [Hs Hceil]. fold seconds in Hs, Hceil.
  unfold service_limit.
  assert (match state with
    | QuotaState_Available allowance =>
        (Allowance_available allowance, Delay_seconds (Allowance_replenishes_after allowance))
    | QuotaState_Exhausted denial => (0, Delay_seconds (QuotaDenial_retry_after denial))
    end = (available, seconds)) as -> by by destruct state.
  pose proof (encode_policy_name_spec name) as Hname.
  destruct (encode_policy_name name) as [s|e]; [|by left]. destruct Hname as [Hname ->].
  rewrite !structured_integer_spec. cbn [mbind Result_bind mret Result_ret].
  destruct (Z.ltb_spec MAX_STRUCTURED_FIELD_INTEGER available); [by right; left|].
  cbn [mbind Result_bind].
  destruct (Z.ltb_spec MAX_STRUCTURED_FIELD_INTEGER seconds); [by right; right|].
  cbn [mbind Result_bind].
  destruct (header_field_text "ratelimit" 114 116 name available seconds
    ltac:(discriminate) (header_token "ratelimit" eq_refl) Hname ltac:(unfold visible; lia)
    ltac:(unfold visible; lia) ltac:(lia) ltac:(lia)) as (field & Hrun & Hf).
  match goal with |- match ?x with _ => _ end =>
    change x with (header_field "ratelimit" (Ok (member_text name 114 116 available seconds))) end.
  rewrite Hrun. split_and!; [done|done|by apply Hceil].
Qed.
End Fields.

(** ** Concrete fields *)

(** Header types that are the texts they hold. *)
#[export] Instance text_fields : HttpFields str str := {
  header_from_static s := Done s;
  header_name_str s := s;
  header_value_try_from s := if forallb visibleb s then Some s else None;
  header_value_bytes s := s;
}.

#[export] Instance text_fields_laws : HttpFieldsLaws str str.
Proof.
  split.
  - intros s _ _. by exists s.
  - intros s Hs. exists s. split; [|done]. simpl.
    assert (forallb visibleb s = true) as ->; [|done].
    apply forallb_forall. intros c Hc. apply visibleb_spec. rewrite Forall_forall in Hs.
    apply Hs. by apply list_elem_of_In.
Qed.

Definition example_http_policy : FixedWindowPolicy :=
  mkFixedWindowPolicy (mkPolicyId [97]) (mkScopeId [98]) (mkCapacity 100) (mkQuotaPeriod 60000)
    (from_digest []) Enforce.

(** C16 witness. *)
Lemma quota_policy_field_witness :
  exists v : str,
    quota_policy (byte_string "search") example_http_policy
      = Done (Ok (byte_string "ratelimit-policy", v))
    /\ v = [34] ++ byte_string "search" ++ [34] ++ byte_string ";q=100;w=60"
    /\ read_member 113 119 v = Some (byte_string "search", 100, 60).
Proof.
  assert (Hp : rp_wf example_http_policy).
  { unfold rp_wf, FixedWindowPolicy_laws, FixedWindowPolicy_valid, PolicyId_wf, ScopeId_wf,
      identifier_wf, Capacity_wf, QuotaPeriod_wf.
    rewrite MAX_WINDOW_MILLIS_val. unfold MAX_LIMIT, MAX_IDENTIFIER_LENGTH. cbn.
    unfold_widths. split_and!; try lia; repeat constructor. }
  pose proof (quota_policy_field (byte_string "search") example_http_policy Hp) as H. cbv zeta in H.
  eexists. split; [vm_compute; reflexivity|]. split; [vm_compute; reflexivity|].
  assert (Hx : @quota_policy str str _ _ _ (byte_string "search") example_http_policy
    = Done (Ok (byte_string "ratelimit-policy",
        [34] ++ byte_string "search" ++ [34] ++ byte_string ";q=100;w=60")))
    by (vm_compute; reflexivity).
  rewrite Hx in H.
  destruct H as (_ & _ & seconds & Hs & _ & _ & Hread).
  assert (seconds = 60) as -> by (cbn in Hs; lia). exact Hread.
Defined.

(** A concrete instance. *)
Lemma service_limit_field_witness :
  let state := QuotaState_Exhausted (QuotaDenial_new (mkCapacity 10) (mkDuration 1001000000)) in
  let v := [34] ++ byte_string "default" ++ [34] ++ byte_string ";r=0;t=2" in
  QuotaState_wf state
  /\ service_limit (byte_string "default") state = Done (Ok (byte_string "ratelimit", v))
  /\ read_member 114 116 v = Some (byte_string "default", 0, 2).
Proof.
  intros state v.
  assert (Hstate : QuotaState_wf state).
  { unfold QuotaState_wf, Duration_wf, DURATION_MAX. cbn. unfold_widths. lia. }
  split; [exact Hstate|].
  pose proof (service_limit_field (byte_string "default") state Hstate) as H. cbv zeta in H.
  assert (Hx : @service_limit str str _ (byte_string "default") state = Done (Ok (byte_string "ratelimit", v)))
    by (vm_compute; reflexivity).
  split; [exact Hx|]. rewrite Hx in H. destruct H as (_ & (_ & _ & Hread) & _). exact Hread.
Defined.
