(* ===== verification/AxumLayer.v ===== *)
(** [runlimit-axum/src/lib.rs]: the admission middleware, against the
    [Limiter] interface.  The wrapped service, the key extractor and the
    rejection mapper are the application's. *)

From S2P Require Import Prelude RustStd Identifier Policy Decision AttemptPolicy Key Check Counters Limiter Ledger.
Open Scope list_scope.

(** * Admissions *)

Record Admission := mkAdmission {
  adm_policy_id : PolicyId;
  adm_scope_id : ScopeId;
  adm_fingerprint : PolicyFingerprint;
  adm_decision : AdmittedDecision;
}.

Definition Admission_new {P} `{RateLimitPolicy P} (policy : P) (decision : AdmittedDecision)
    : Admission :=
  mkAdmission (rp_id policy) (rp_scope policy) (rp_fingerprint policy) decision.

Definition is_for {P} `{RateLimitPolicy P} (self : Admission) (policy : P) : bool :=
  bool_decide (adm_policy_id self = rp_id policy)
  && bool_decide (adm_scope_id self = rp_scope policy)
  && bool_decide (adm_fingerprint self = rp_fingerprint policy).

Record Admissions := mkAdmissions { entries : list Admission }.

Definition Admissions_new : Admissions := mkAdmissions [].
Definition push (self : Admissions) (admission : Admission) : Admissions :=
  mkAdmissions (entries self ++ [admission]).
Definition Admissions_get {P} `{RateLimitPolicy P} (self : Admissions) (policy : P)
    : option Admission :=
  List.find (fun entry => is_for entry policy) (entries self).
Definition Admissions_len (self : Admissions) : nat := length (entries self).
Definition Admissions_is_empty (self : Admissions) : bool :=
  match entries self with [] => true | _ => false end.
Definition Admissions_from (admission : Admission) : Admissions := mkAdmissions [admission].

(** * Requests and rejections *)

(** An HTTP request: its [Admissions] extension, and everything else. *)
Record Request (B : Type) := mkRequest {
  rq_rest : B;
  rq_admissions : option Admissions;
}.
Arguments mkRequest {B} _ _.
Arguments rq_rest {B} _.
Arguments rq_admissions {B} _.

(** [trait ExtractSubjectKey]: application code, which may panic. *)
Class ExtractSubjectKey (K P B KeyError : Type) := {
  extract_subject_key : K -> Request B -> P -> Outcome (Result KeyError SubjectKey);
}.

(** Closures of the right shape are extractors. *)
#[export] Instance closure_extractor {P B KeyError}
  : ExtractSubjectKey (Request B -> P -> Outcome (Result KeyError SubjectKey)) P B KeyError := {
  extract_subject_key self request policy := self request policy;
}.

Inductive RateLimitRejection (KeyError BackendError : Type) :=
| Rejection_Key (error : KeyError)
| Rejection_Denied (denial : Denial)
| Rejection_Backend (error : BackendError).
Arguments Rejection_Key {KeyError BackendError} _.
Arguments Rejection_Denied {KeyError BackendError} _.
Arguments Rejection_Backend {KeyError BackendError} _.

Inductive RejectionKind := Kind_Key | Kind_Denied | Kind_Backend.

Definition kind {KeyError BackendError} (self : RateLimitRejection KeyError BackendError)
    : RejectionKind :=
  match self with
  | Rejection_Key _ => Kind_Key
  | Rejection_Denied _ => Kind_Denied
  | Rejection_Backend _ => Kind_Backend
  end.

(** * Services *)

(** A future, run to completion in a world [W] that holds all shared state;
    it may panic. *)
Definition Future (W A : Type) : Type := W -> W * Outcome A.

Inductive Poll (A : Type) := Ready (a : A) | Pending.
Arguments Ready {A} _.
Arguments Pending {A}.

(** [tower::Service] with [Clone]: each operation also returns the service
    value it leaves. *)
Class Service (S Req W Resp Err : Type) := {
  svc_clone : S -> S;
  svc_poll_ready : S -> S * Poll (Result Err unit);
  svc_call : S -> Req -> S * Future W (Result Err Resp);
}.

(** [Arc<L>]: a shared limiter is a place in the world; [sh_env] is what its
    next call would read from its environment. *)
Record Shared (W L Env : Type) := mkShared {
  sh_get : W -> L;
  sh_put : L -> W -> W;
  sh_env : W -> Env;
}.
Arguments mkShared {W L Env} _ _ _.
Arguments sh_get {W L Env} _.
Arguments sh_put {W L Env} _.
Arguments sh_env {W L Env} _.

Section Layer.
Context {W L Env P CheckErr BatchErr K B KeyError Resp SErr : Type}
  `{Limiter L Env P CheckErr BatchErr} `{RateLimitPolicy P} `{ExtractSubjectKey K P B KeyError}.

Record RateLimitLayer := mkLayer {
  ly_limiter : Shared W L Env;
  ly_policy : P;
  ly_key_extractor : K;
  ly_rejection_mapper : RateLimitRejection KeyError CheckErr -> Outcome Resp;
}.

Record RateLimitService (S : Type) := mkService {
  sv_inner : S;
  sv_limiter : Shared W L Env;
  sv_policy : P;
  sv_key_extractor : K;
  sv_rejection_mapper : RateLimitRejection KeyError CheckErr -> Outcome Resp;
}.
Arguments mkService {S} _ _ _ _ _.
Arguments sv_inner {S} _.
Arguments sv_limiter {S} _.
Arguments sv_policy {S} _.
Arguments sv_key_extractor {S} _.
Arguments sv_rejection_mapper {S} _.

Definition from_shared (limiter : Shared W L Env) (policy : P) (key_extractor : K)
    (rejection_mapper : RateLimitRejection KeyError CheckErr -> Outcome Resp) : RateLimitLayer :=
  mkLayer limiter policy key_extractor rejection_mapper.

(** [Layer::layer]. *)
Definition layer {S} (self : RateLimitLayer) (inner : S) : RateLimitService S :=
  mkService inner (ly_limiter self) (ly_policy self) (ly_key_extractor self)
    (ly_rejection_mapper self).

(** [Clone for RateLimitService]. *)
Definition service_clone {S} `{Service S (Request B) W Resp SErr} (self : RateLimitService S)
    : RateLimitService S :=
  mkService (svc_clone (sv_inner self)) (sv_limiter self) (sv_policy self)
    (sv_key_extractor self) (sv_rejection_mapper self).

Definition service_poll_ready {S} `{Service S (Request B) W Resp SErr} (self : RateLimitService S)
    : RateLimitService S * Poll (Result SErr unit) :=
  let '(inner, poll) := svc_poll_ready (sv_inner self) in
  (mkService inner (sv_limiter self) (sv_policy self) (sv_key_extractor self)
     (sv_rejection_mapper self), poll).

(** The extension of an admitted request. *)
Definition record_admission (request : Request B) (admission : Admission) : Request B :=
  match rq_admissions request with
  | Some admissions => mkRequest (rq_rest request) (Some (push admissions admission))
  | None => mkRequest (rq_rest request) (Some (Admissions_from admission))
  end.

(** [RateLimitService::call]: [mem::replace] hands the polled inner service
    to the future and leaves a clone. *)
Definition call {S} `{Service S (Request B) W Resp SErr} (self : RateLimitService S)
    (request : Request B) : RateLimitService S * Future W (Result SErr Resp) :=
  let inner_clone := svc_clone (sv_inner self) in
  let ready_inner := sv_inner self in
  (mkService inner_clone (sv_limiter self) (sv_policy self) (sv_key_extractor self)
     (sv_rejection_mapper self),
   fun w =>
     let reject rejection := Ok <$> sv_rejection_mapper self rejection in
     match extract_subject_key (sv_key_extractor self) request (sv_policy self) with
     | Panic => (w, Panic)
     | Done (Err error) => (w, reject (Rejection_Key error))
     | Done (Ok subject) =>
         let check := Check_new (bind subject (sv_policy self)) in
         let '(l, decision) :=
           limiter_check (sh_get (sv_limiter self) w) (sh_env (sv_limiter self) w) check in
         let w := sh_put (sv_limiter self) l w in
         match decision with
         | Panic => (w, Panic)
         | Done (Err error) => (w, reject (Rejection_Backend error))
         | Done (Ok decision) =>
             match Decision_admit decision with
             | Err denial => (w, reject (Rejection_Denied denial))
             | Ok admitted =>
                 let admission := Admission_new (sv_policy self) admitted in
                 (svc_call ready_inner (record_admission request admission)).2 w
             end
         end
     end).

(** A layered service is a service, so layers stack. *)
#[export] Instance layered_service {S} `{Service S (Request B) W Resp SErr}
  : Service (RateLimitService S) (Request B) W Resp SErr := {
  svc_clone := service_clone;
  svc_poll_ready := service_poll_ready;
  svc_call := call;
}.
End Layer.
Arguments RateLimitLayer : clear implicits.
Arguments RateLimitService : clear implicits.

(** * Stacks of layers *)

Section Stack.
Context {W L Env P CheckErr BatchErr K B KeyError Resp SErr S0 : Type}
  `{Limiter L Env P CheckErr BatchErr} `{RateLimitPolicy P} `{ExtractSubjectKey K P B KeyError}
  `{inner_service : Service S0 (Request B) W Resp SErr}.

Notation Layer := (RateLimitLayer W L Env P CheckErr K KeyError Resp).

Fixpoint Stack (n : nat) : Type :=
  match n with
  | O => S0
  | S n => RateLimitService W L Env P CheckErr K KeyError Resp (Stack n)
  end.

#[export] Instance stack_service (n : nat) : Service (Stack n) (Request B) W Resp SErr :=
  nat_rect (fun n => Service (Stack n) (Request B) W Resp SErr) inner_service
    (fun n (IH : Service (Stack n) (Request B) W Resp SErr) => layered_service (S := Stack n)) n.

(** The service under [layers], the outermost first. *)
Fixpoint stack (layers : list Layer) (inner : S0) : Stack (length layers) :=
  match layers with
  | [] => inner
  | ly :: layers => layer ly (stack layers inner)
  end.

(** One layer lets the request through with an admission. *)
Definition gate (ly : Layer) (request : Request B) (w : W) (a : Admission) (w' : W) : Prop :=
  exists subject l decision admitted,
    extract_subject_key (ly_key_extractor ly) request (ly_policy ly) = Done (Ok subject)
    /\ limiter_check (sh_get (ly_limiter ly) w) (sh_env (ly_limiter ly) w)
         (mkCheck (ly_policy ly) subject 1) = (l, Done (Ok decision))
    /\ decision = Decision_of_admitted admitted
    /\ a = Admission_new (ly_policy ly) admitted /\ w' = sh_put (ly_limiter ly) l w.

(** One layer stops it, with the answer of its rejection mapper or a panic. *)
Inductive bars (ly : Layer) (request : Request B) (w : W) : W -> Outcome Resp -> Prop :=
| bars_extractor :
    extract_subject_key (ly_key_extractor ly) request (ly_policy ly) = Panic ->
    bars ly request w w Panic
| bars_key error :
    extract_subject_key (ly_key_extractor ly) request (ly_policy ly) = Done (Err error) ->
    bars ly request w w (ly_rejection_mapper ly (Rejection_Key error))
| bars_check subject l r :
    extract_subject_key (ly_key_extractor ly) request (ly_policy ly) = Done (Ok subject) ->
    limiter_check (sh_get (ly_limiter ly) w) (sh_env (ly_limiter ly) w)
      (mkCheck (ly_policy ly) subject 1) = (l, r) ->
    (forall admitted, r <> Done (Ok (Decision_of_admitted admitted))) ->
    bars ly request w (sh_put (ly_limiter ly) l w)
      (match r with
       | Done (Err error) => ly_rejection_mapper ly (Rejection_Backend error)
       | Done (Ok (mkDecision (Outcome_Denied denial))) =>
           ly_rejection_mapper ly (Rejection_Denied denial)
       | _ => Panic
       end).

(** The request passes every layer, collecting admissions. *)
Inductive passes : list Layer -> Request B -> W -> list Admission -> W -> Prop :=
| passes_nil request w : passes [] request w [] w
| passes_cons ly layers request w a w1 news w2 :
    gate ly request w a w1 -> passes layers (record_admission request a) w1 news w2 ->
    passes (ly :: layers) request w (a :: news) w2.

(** The request is stopped at the [i]-th layer. *)
Inductive stops : list Layer -> nat -> Request B -> W -> W -> Outcome Resp -> Prop :=
| stops_here ly layers request w w' r :
    bars ly request w w' r -> stops (ly :: layers) 0 request w w' r
| stops_later ly layers i request w a w1 w2 r :
    gate ly request w a w1 -> stops layers i (record_admission request a) w1 w2 r ->
    stops (ly :: layers) (S i) request w w2 r.

Definition admissions_of (request : Request B) : list Admission :=
  match rq_admissions request with Some admissions => entries admissions | None => [] end.

Lemma record_admission_spec request a :
  rq_rest (record_admission request a) = rq_rest request
  /\ admissions_of (record_admission request a) = admissions_of request ++ [a].
Proof. destruct request as [b [adms|]]; done. Qed.

Lemma gate_policy ly request w a w' : gate ly request w a w' -> is_for a (ly_policy ly) = true.
Proof.
  intros (s & l & d & adm & _ & _ & _ & -> & _). unfold is_for, Admission_new. simpl.
  by rewrite !bool_decide_eq_true_2.
Qed.

(** A layer either gates the inner call or bars the request. *)
Lemma call_cases (n : nat) ly request w :
  (exists a w', gate ly request w a w' /\ forall inner : Stack n,
     (svc_call (Service := stack_service (S n)) (layer ly inner) request).2 w
     = (svc_call inner (record_admission request a)).2 w')
  \/ exists w' r, bars ly request w w' r /\ forall inner : Stack n,
     (svc_call (Service := stack_service (S n)) (layer ly inner) request).2 w = (w', Ok <$> r).
Proof.
  change (svc_call (Service := stack_service (S n))) with (call (S := Stack n)).
  unfold call. simpl. destruct (extract_subject_key _ request _) as [[subject|error]|] eqn:Hx.
  - change (Check_new (bind subject (ly_policy ly))) with (mkCheck (ly_policy ly) subject 1).
    destruct (limiter_check _ _ _) as [l r] eqn:Hc.
    destruct r as [[[[admitted|denial]]|error]|]; simpl.
    + left. eexists _, _. split; [|done]. by exists subject, l, (Decision_of_admitted admitted), admitted.
    + right. eexists _, _. split; [by eapply bars_check|done].
    + right. eexists _, _. split; [by eapply bars_check|done].
    + right. eexists _, _. split; [by eapply bars_check|done].
  - right. eexists _, _. split; [by apply bars_key|done].
  - right. eexists _, _. split; [by apply bars_extractor|done].
Qed.

Lemma stack_cases layers request w :
  (exists news w', passes layers request w news w' /\ forall inner,
     (svc_call (stack layers inner) request).2 w
     = (svc_call inner (foldl record_admission request news)).2 w')
  \/ exists i w' r, stops layers i request w w' r /\ forall inner,
     (svc_call (stack layers inner) request).2 w = (w', Ok <$> r).
Proof.
  revert request w. induction layers as [|ly layers IH]; intros request w.
  { left. exists [], w. split; [constructor|done]. }
  cbn [stack length].
  destruct (call_cases (length layers) ly request w) as [(a & w1 & Hg & Hrun)|(w1 & r & Hb & Hrun)].
  - destruct (IH (record_admission request a) w1)
      as [(news & w2 & Hp & Hrun')|(i & w2 & r & Hs & Hrun')].
    + left. exists (a :: news), w2. split; [by econstructor|]. intros inner. by rewrite Hrun, Hrun'.
    + right. exists (S i), w2, r. split; [by econstructor|]. intros inner. by rewrite Hrun, Hrun'.
  - right. exists 0%nat, w1, r. split; [by constructor|done].
Qed.

(** What a passed request carries. *)
Lemma passes_admissions layers request w news w' : passes layers request w news w' ->
  let request' := foldl record_admission request news in
  rq_rest request' = rq_rest request
  /\ admissions_of request' = admissions_of request ++ news
  /\ Forall2 (fun ly a => is_for a (ly_policy ly) = true) layers news.
Proof.
  induction 1 as [request w|ly layers request w a w1 news w2 Hg Hp IH]; simpl.
  { by rewrite app_nil_r. }
  destruct IH as (Hrest & Hadm & Hall). destruct (record_admission_spec request a) as [Hr Ha].
  split_and!; [by rewrite Hrest, Hr|by rewrite Hadm, Ha, <- app_assoc|].
  constructor; [by eapply gate_policy|done].
Qed.

(** The outermost admission of a policy is the one [get] finds. *)
Lemma Admissions_get_outermost {Q} `{RateLimitPolicy Q} (policy : Q) before a after :
  (forall b, b ∈ before -> is_for b policy = false) -> is_for a policy = true ->
  Admissions_get (mkAdmissions (before ++ a :: after)) policy = Some a.
Proof.
  intros Hb Ha. unfold Admissions_get. simpl. induction before as [|b before IH]; simpl.
  - by rewrite Ha.
  - rewrite (Hb b) by (by left). apply IH. intros c Hc. apply Hb. by right.
Qed.

(** C15. Admission through a stack of layers. Whatever the layers' policies,
    limiters, extractors and mappers, running the future of a call does one
    of two things.  Either every layer's limiter admitted its own check (in
    order, the outermost first, each on the state the previous ones left),
    and the wrapped service is called with the request carrying its previous
    admissions followed by exactly one admission per layer, in that order,
    from which [get] returns for each policy the outermost one; or some
    layer, whose predecessors all admitted, barred the request: its mapper's
    answer (or its panic) is the result whatever the wrapped service, which
    is never called, and no later limiter is touched.  A shadow denial never
    bars. *)
Theorem stack_admission (layers : list Layer) (request : Request B) (w : W) :
  (exists news w', passes layers request w news w'
     /\ let request' := foldl record_admission request news in
        (forall inner, (svc_call (stack layers inner) request).2 w = (svc_call inner request').2 w')
        /\ rq_rest request' = rq_rest request
        /\ admissions_of request' = admissions_of request ++ news
        /\ Forall2 (fun ly a => is_for a (ly_policy ly) = true) layers news
        /\ forall i ly a, layers !! i = Some ly -> news !! i = Some a ->
             (forall b, b ∈ admissions_of request ++ take i news ->
                is_for b (ly_policy ly) = false) ->
             Admissions_get (mkAdmissions (admissions_of request')) (ly_policy ly) = Some a)
  \/ exists i w' r, stops layers i request w w' r
     /\ forall inner, (svc_call (stack layers inner) request).2 w = (w', Ok <$> r).
Proof.
  destruct (stack_cases layers request w) as [(news & w' & Hp & Hrun)|H3]; [left|by right].
  exists news, w'. split; [done|]. destruct (passes_admissions _ _ _ _ _ Hp) as (Hr & Ha & Hall).
  split_and!; [done|done|done|done|]. intros i ly a Hly Hnew Hfirst. rewrite Ha.
  rewrite <- (take_drop_middle news i a Hnew), app_assoc.
  apply Admissions_get_outermost; [done|].
  by destruct (Forall2_lookup_lr _ _ _ _ _ _ Hall Hly Hnew).
Qed.
End Stack.
