(* ===== verification/AxumTrace.v ===== *)
(** Traffic through one layer over a counting backend: the requests that
    enter the wrapped service are exactly the charges of the backend's
    ledger, so its rate bounds are bounds on that traffic. *)

From S2P Require Import Prelude RustStd Identifier Policy Decision AttemptPolicy Key Check Counters Limiter Ledger Windows AxumLayer OrdSet MemConfig Shards BoundedShards MemStore MemStoreTrace.
Import MemoryStore.
Open Scope list_scope.

Section Traffic.
Context {L Env P CheckErr BatchErr K B KeyError Resp : Type}
  `{CounterLimiter L Env P CheckErr BatchErr} `{ExtractSubjectKey K P B KeyError}.
Context (policy : P) (extractor : K)
  (mapper : RateLimitRejection KeyError CheckErr -> Outcome Resp) (response : Resp).

(** The limiter, the environment of its next call, and the backend's state
    when the wrapped service was entered, if it was. *)
Definition World : Type := L * Env * option L.

Definition shared_limiter : Shared World L Env := {|
  sh_get w := w.1.1;
  sh_put l w := ((l, w.1.2), w.2);
  sh_env w := w.1.2;
|}.

(** A wrapped service that notes when it is entered. *)
Definition entry_service : Service unit (Request B) World Resp unit := {|
  svc_clone s := s;
  svc_poll_ready s := (s, Ready (Ok tt));
  svc_call s request := (s, fun w => ((w.1, Some w.1.1), Done (Ok response)));
|}.

Definition traffic_layer : RateLimitLayer World L Env P CheckErr K KeyError Resp :=
  from_shared shared_limiter policy extractor mapper.

(** One request: the backend's next state, and when the service was entered. *)
Definition serve_one (s : L) (env : Env) (request : Request B) : L * option L :=
  let '((s', _), entered, _) :=
    (call (H2 := entry_service) (layer traffic_layer tt) request).2 ((s, env), None) in
  (s', entered).

(** The check a request stands for. *)
Definition request_checks (request : Request B) : list (Check P) :=
  match extract_subject_key extractor request policy with
  | Done (Ok subject) => [Check_new (bind subject policy)]
  | _ => []
  end.

(** The entries of the requests served, newest first: each the counter of
    its subject, the backend's instant and the unit cost. *)
Fixpoint serve (s : L) (entered : list charge) (requests : list (Env * Request B))
    : L * list charge :=
  match requests with
  | [] => (s, entered)
  | (env, request) :: requests =>
      let '(s', entry) := serve_one s env request in
      let new :=
        match entry with
        | Some s1 => charge_of s1 <$> request_checks request
        | None => []
        end in
      serve s' (new ++ entered) requests
  end.

Definition request_events (r : Env * Request B) : list (limiter_event Env P) :=
  EvCheck r.1 <$> request_checks r.2.

Context (Henforce : rp_quota_mode policy = Enforce)
  (Hvalid : forall subject, qa_valid (mkCheck policy subject 1)).

(** One request is one event of the backend, and enters the service exactly
    when the event charges. *)
Lemma serve_one_event s env request entered :
  bk_wf s ->
  let '(s', entry) := serve_one s env request in
  bk_wf s'
  /\ run s entered (request_events (env, request))
     = (s', match entry with
            | Some s1 => charge_of s1 <$> request_checks request
            | None => []
            end ++ entered).
Proof.
  intros Hwf. unfold serve_one, call, request_events, request_checks. simpl.
  destruct (extract_subject_key extractor request policy) as [[subject|error]|]; simpl; [|done..].
  change (Check_new (bind subject policy)) with (mkCheck policy subject 1).
  pose proof (bk_check s env (mkCheck policy subject 1) Hwf (Hvalid subject)) as Hlaw.
  destruct (limiter_check s env (mkCheck policy subject 1)) as [s' r].
  destruct Hlaw as (Hwf' & _ & Heff). simpl.
  destruct r as [[dec|e]|]; simpl; [|done..].
  destruct Heff as [full Heff]. unfold check_effect in Heff.
  destruct (qa_step _ _ _) as [next a|q|]; [| |done].
  - destruct Heff as [[-> _]|(_ & _ & [r ->] & _)]; done.
  - destruct Heff as [-> _]. unfold denied_decision. simpl. by rewrite Henforce.
Qed.

Lemma serve_events s entered requests :
  bk_wf s -> serve s entered requests = run s entered (requests ≫= request_events).
Proof.
  revert s entered. induction requests as [|[env request] requests IH]; intros s entered Hwf; [done|].
  cbn [serve].
  change (((env, request) :: requests) ≫= request_events)
    with (request_events (env, request) ++ (requests ≫= request_events)).
  pose proof (serve_one_event s env request entered Hwf) as Hone.
  destruct (serve_one s env request) as [s' entry]. destruct Hone as [Hwf' Hrun].
  by rewrite run_app, Hrun, IH.
Qed.

(** The events are all of the layer's policy. *)
Lemma traffic_events (Q : Check P -> Prop) requests :
  (forall subject, Q (mkCheck policy subject 1)) ->
  Forall (fun e => Forall qa_valid (event_checks e) /\ Forall Q (event_checks e))
    (requests ≫= request_events).
Proof.
  intros HQ. induction requests as [|r requests IH]; [constructor|].
  change ((r :: requests) ≫= request_events)
    with (request_events r ++ (requests ≫= request_events)).
  apply Forall_app. split; [|done]. unfold request_events, request_checks.
  destruct (extract_subject_key extractor _ policy) as [[subject|error]|]; simpl; [|constructor..].
  repeat constructor; [apply Hvalid|apply HQ].
Qed.
End Traffic.

(** C12. What the middleware lets into the wrapped service. Put one layer,
    with an enforcing policy of [limit] requests per [window], over a fresh
    fixed-window memory store, with any extractor and any rejection mapper
    (panicking or not), and send it any sequence of requests at any clock
    readings. Whatever is denied, fails or panics on the way, the requests of
    one subject that enter the wrapped service fall into consecutive windows
    of at most [limit] requests, and no interval of one window length sees
    more than twice that. *)
Theorem axum_traffic_bound {K B KeyError Resp : Type}
    `{ExtractSubjectKey K FixedWindowPolicy B KeyError}
    (cfg : MemoryStoreConfig) (policy : FixedWindowPolicy) (extractor : K)
    (mapper : RateLimitRejection KeyError PoisonedShardError -> Outcome Resp) (response : Resp)
    (requests : list (MemEnv * Request B)) (subject : SubjectKey)
    (Hcfg : MemoryStoreConfig_wf cfg) (Hp : FixedWindowPolicy_valid policy)
    (Henforce : fw_quota_mode policy = Enforce) :
  let limit := Capacity_get (fw_limit policy) in
  let window := QuotaPeriod_millis (fw_window policy) in
  let '(store, entered) := serve policy extractor mapper response (build cfg) [] requests in
  let mine := charges_for (CounterKey_new (fw_fingerprint policy) subject) entered in
  (exists newest, anchored limit window mine newest)
  /\ forall a, charged_in a (a + window) mine <= 2 * limit.
Proof.
  intros limit window.
  assert (Hv : forall s, fw_check_valid (mkCheck policy s 1)).
  { intros s. split; [done|]. destruct Hp as (_ & _ & Hl & _).
    unfold Check_cost_valid, Capacity_wf in *. simpl in *. lia. }
  rewrite serve_events by (done || by apply build_wf).
  pose proof (run_account (keyed limit window) (anchored_account limit window)
    (fw_account limit window) (CounterKey_new (fw_fingerprint policy) subject)
    (build cfg) _ (build_wf cfg Hcfg) (build_empty cfg _)
    (traffic_events policy extractor Hv (own (keyed limit window) _) requests
      (fun _ _ => conj eq_refl eq_refl))) as Hrun.
  destruct (run _ [] _) as [store entered]. destruct Hrun as [_ (cur & [Hanch _] & _)].
  split; [by exists cur|]. intros a. destruct Hp as (_ & _ & Hl & Hw & _).
  unfold Capacity_wf, QuotaPeriod_wf in *. by apply (anchored_interval _ _ _ cur); [lia|lia|].
Qed.

(** A closure that reads the subject off the request. *)
Definition example_extractor (request : Request Z) (policy : FixedWindowPolicy)
    : Outcome (Result unit SubjectKey) :=
  if rq_rest request =? 0 then Done (Err tt) else Done (Ok (mkSubjectKey [rq_rest request])).
Definition example_mapper (r : RateLimitRejection unit PoisonedShardError) : Outcome RejectionKind :=
  Done (kind r).

(** C12 witness. *)
Lemma axum_traffic_bound_witness :
  let policy := check_policy (example_check 3 1000 0 1 1) in
  let requests :=
    (fun '(t, b) => (example_env t, mkRequest b None))
    <$> [(5, 1); (6, 0); (7, 1); (8, 2); (9, 1); (10, 1); (1005, 1)] in
  let '(_, entered) :=
    serve policy example_extractor example_mapper Kind_Key
      (build (mkMemoryStoreConfig 4 2 8 32)) [] requests in
  let mine := charges_for (CounterKey_new (fw_fingerprint policy) (mkSubjectKey [1])) entered in
  mine = [(1005, 1); (9, 1); (7, 1); (5, 1)]
  /\ forall a, charged_in a (a + 1000) mine <= 2 * 3.
Proof.
  cbv zeta.
  pose proof (axum_traffic_bound (mkMemoryStoreConfig 4 2 8 32) (check_policy (example_check 3 1000 0 1 1))
    example_extractor example_mapper Kind_Key
    ((fun '(t, b) => (example_env t, mkRequest b None))
     <$> [(5, 1); (6, 0); (7, 1); (8, 2); (9, 1); (10, 1); (1005, 1)])
    (mkSubjectKey [1]) example_config_wf (proj1 (example_check_valid 0 1 1 ltac:(lia))) eq_refl) as H.
  cbv zeta in H. destruct (serve _ _ _ _ _ _ _) as [store entered] eqn:Hrun.
  split; [vm_compute in Hrun; injection Hrun as _ <-; vm_compute; reflexivity|apply H].
Defined.
