(* ===== verification/PgErrors.v ===== *)
(** [runlimit-postgres/src/errors.rs]: the failures of the PostgreSQL
    backends and what each says about consumption.  [sqlx::Error] is a
    parameter [E]. *)

From Stdlib Require Import Ascii String.
From stdpp Require Import prelude list gmap sorting.
From S2P Require Import Prelude RustStd Identifier Policy Decision AttemptPolicy Key Check Observation.
Open Scope Z_scope.
Open Scope list_scope.

(** [StorageInvariantError]: a stable classification, and the decoding
    failure it came from, if any. *)
Record StorageInvariantError (E : Type) := mkStorageInvariantError {
  sie_detail : string;
  sie_source : option E;
}.
Arguments mkStorageInvariantError {E} _ _.
Arguments sie_detail {E} _.
Arguments sie_source {E} _.

Definition semantic {E} (detail : string) : StorageInvariantError E :=
  mkStorageInvariantError detail None.
Definition decode {E} (detail : string) (source : E) : StorageInvariantError E :=
  mkStorageInvariantError detail (Some source).

Inductive CheckPhase :=
| CheckPhase_AcquiringConnection
| CheckPhase_BeginningTransaction
| CheckPhase_AcquiringLogicalKeyLocks
| CheckPhase_AcquiringCounterRowLocks
| CheckPhase_AcquiringCapacityShardLocks
| CheckPhase_PreflightingCounters
| CheckPhase_UpdatingCounters
| CheckPhase_PreparingCommit
| CheckPhase_StartingCommit.

Inductive CleanupPhase :=
| CleanupPhase_AcquiringConnection
| CleanupPhase_BeginningTransaction
| CleanupPhase_ConfiguringTimeouts
| CleanupPhase_DeletingExpiredWindows
| CleanupPhase_PreparingCommit
| CleanupPhase_StartingCommit.

#[export] Instance CheckPhase_eq_dec : EqDecision CheckPhase.
Proof. solve_decision. Defined.
#[export] Instance CleanupPhase_eq_dec : EqDecision CleanupPhase.
Proof. solve_decision. Defined.

(** [Display] of the phases. *)
Definition CheckPhase_fmt (self : CheckPhase) : string :=
  match self with
  | CheckPhase_AcquiringConnection => "acquiring database connection"
  | CheckPhase_BeginningTransaction => "beginning transaction"
  | CheckPhase_AcquiringLogicalKeyLocks => "acquiring logical key lock"
  | CheckPhase_AcquiringCounterRowLocks => "acquiring counter row lock"
  | CheckPhase_AcquiringCapacityShardLocks => "acquiring capacity shard lock"
  | CheckPhase_PreflightingCounters => "preflighting counter batch"
  | CheckPhase_UpdatingCounters => "updating counter batch"
  | CheckPhase_PreparingCommit => "preparing commit"
  | CheckPhase_StartingCommit => "starting commit"
  end.

Definition CleanupPhase_fmt (self : CleanupPhase) : string :=
  match self with
  | CleanupPhase_AcquiringConnection => "acquiring database connection"
  | CleanupPhase_BeginningTransaction => "beginning cleanup transaction"
  | CleanupPhase_ConfiguringTimeouts => "configuring cleanup transaction timeouts"
  | CleanupPhase_DeletingExpiredWindows => "deleting expired windows"
  | CleanupPhase_PreparingCommit => "preparing cleanup commit"
  | CleanupPhase_StartingCommit => "starting expired-window cleanup commit"
  end.

Section Errors.
Context {E : Type}.

Inductive CheckError :=
| DefinitelyNotConsumed (source : E)
| CommitOutcomeUnknown (source : E)
| TimedOutBeforeCommit (phase : CheckPhase)
| CommitTimedOut
| StorageInvariant (error : StorageInvariantError E).

Definition storage_invariant (detail : string) : CheckError := StorageInvariant (semantic detail).
Definition storage_decode_invariant (detail : string) (source : E) : CheckError :=
  StorageInvariant (decode detail source).

Definition CheckError_consumption (self : CheckError) : ConsumptionStatus :=
  match self with
  | CommitOutcomeUnknown _ | CommitTimedOut => PossiblyConsumed
  | DefinitelyNotConsumed _ | TimedOutBeforeCommit _ | StorageInvariant _ => NotConsumed
  end.

Inductive BatchCheckError :=
| InvalidBatch (error : BatchError)
| BatchCheckError_Check (error : CheckError).

Definition BatchCheckError_consumption (self : BatchCheckError) : ConsumptionStatus :=
  match self with
  | InvalidBatch _ => NotConsumed
  | BatchCheckError_Check error => CheckError_consumption error
  end.

Inductive MaintenanceError :=
| MaintenanceError_Database (source : E)
| MaintenanceError_TimedOutBeforeCommit (phase : CleanupPhase)
| MaintenanceError_CommitOutcomeUnknown (source : E)
| MaintenanceError_CommitTimedOut.

Definition may_have_removed_rows (self : MaintenanceError) : bool :=
  match self with
  | MaintenanceError_CommitOutcomeUnknown _ | MaintenanceError_CommitTimedOut => true
  | _ => false
  end.
End Errors.
Arguments CheckError : clear implicits.
Arguments BatchCheckError : clear implicits.
Arguments MaintenanceError : clear implicits.

(** * [ConnectionOutcome]

    Whether the connection may go back to the pool. *)

Inductive ConnectionOutcome (T : Type) :=
| Reusable (value : T)
| MustClose (value : T).
Arguments Reusable {T} _.
Arguments MustClose {T} _.

Definition ConnectionOutcome_map {T U} (self : ConnectionOutcome T) (f : T -> U)
    : ConnectionOutcome U :=
  match self with
  | Reusable value => Reusable (f value)
  | MustClose value => MustClose (f value)
  end.

Definition outcome_value {T} (self : ConnectionOutcome T) : T :=
  match self with Reusable value | MustClose value => value end.

(** [ConnectionCancellationGuard]: armed until told to reuse; dropping an
    armed guard closes the connection. *)
Record ConnectionCancellationGuard := mkGuard { armed : bool }.

Definition guard_new : ConnectionCancellationGuard := mkGuard true.
Definition guard_reuse (self : ConnectionCancellationGuard) : ConnectionCancellationGuard :=
  mkGuard false.
(** [Drop]: whether the connection is closed instead of going back. *)
Definition guard_drop (self : ConnectionCancellationGuard) : bool := armed self.

(** [finish]: the result, and whether the connection is closed. *)
Definition guard_finish {T E} (self : ConnectionCancellationGuard)
    (outcome : ConnectionOutcome (Result E T)) : Result E T * bool :=
  match outcome with
  | Reusable result => (result, guard_drop (guard_reuse self))
  | MustClose result => (result, guard_drop self)
  end.
