(* ===== verification/PgConfig.v ===== *)
(** [runlimit-postgres/src/config.rs]: validated runtime bounds of the
    PostgreSQL backends and their serde form. *)

From S2P Require Import Prelude RustStd.
Open Scope list_scope.

(** protocol.rs: the shards and the ceiling of the persistent protocol. *)
Definition CAPACITY_SHARD_COUNT : Z := 256.
Definition HARD_MAX_ROWS_PER_SHARD : Z := 65536.

Record PostgresConfig := mkPostgresConfig {
  maximum_rows_per_shard : Z;
  pg_max_batch_size : nat;
  pool_acquire_timeout : Duration;
  operation_timeout : Duration;
}.

#[export] Instance PostgresConfig_eq_dec : EqDecision PostgresConfig.
Proof. solve_decision. Defined.

Definition DEFAULT_MAXIMUM_ROWS_PER_SHARD : Z := 4096.
Definition PG_DEFAULT_MAX_BATCH_SIZE : nat := 32.
Definition DEFAULT_POOL_ACQUIRE_TIMEOUT : Duration := from_secs 3.
Definition DEFAULT_OPERATION_TIMEOUT : Duration := from_secs 3.
Definition MAXIMUM_POOL_ACQUIRE_TIMEOUT : Duration := from_secs 60.
Definition MAXIMUM_OPERATION_TIMEOUT : Duration := from_secs 60.

Inductive PostgresConfigError :=
| ZeroMaximumRowsPerShard
| MaximumRowsPerShardTooLarge (actual maximum : Z)
| PostgresConfigError_ZeroBatchSize
| ZeroPoolAcquireTimeout
| PoolAcquireTimeoutTooLong (actual maximum : Duration)
| ZeroOperationTimeout
| OperationTimeoutTooLong (actual maximum : Duration).

Definition PostgresConfig_new : PostgresConfig :=
  mkPostgresConfig DEFAULT_MAXIMUM_ROWS_PER_SHARD PG_DEFAULT_MAX_BATCH_SIZE
    DEFAULT_POOL_ACQUIRE_TIMEOUT DEFAULT_OPERATION_TIMEOUT.

Definition with_maximum_rows_per_shard (self : PostgresConfig) (maximum : Z)
    : Result PostgresConfigError PostgresConfig :=
  if maximum =? 0 then Err ZeroMaximumRowsPerShard
  else if HARD_MAX_ROWS_PER_SHARD <? maximum
  then Err (MaximumRowsPerShardTooLarge maximum HARD_MAX_ROWS_PER_SHARD)
  else Ok (mkPostgresConfig maximum (pg_max_batch_size self) (pool_acquire_timeout self)
             (operation_timeout self)).

Definition with_pg_max_batch_size (self : PostgresConfig) (maximum : nat)
    : Result PostgresConfigError PostgresConfig :=
  if Nat.eqb maximum 0 then Err PostgresConfigError_ZeroBatchSize
  else Ok (mkPostgresConfig (maximum_rows_per_shard self) maximum (pool_acquire_timeout self)
             (operation_timeout self)).

Definition with_pool_acquire_timeout (self : PostgresConfig) (timeout : Duration)
    : Result PostgresConfigError PostgresConfig :=
  if Duration_is_zero timeout then Err ZeroPoolAcquireTimeout
  else if Duration_ltb MAXIMUM_POOL_ACQUIRE_TIMEOUT timeout
  then Err (PoolAcquireTimeoutTooLong timeout MAXIMUM_POOL_ACQUIRE_TIMEOUT)
  else Ok (mkPostgresConfig (maximum_rows_per_shard self) (pg_max_batch_size self) timeout
             (operation_timeout self)).

Definition with_operation_timeout (self : PostgresConfig) (timeout : Duration)
    : Result PostgresConfigError PostgresConfig :=
  if Duration_is_zero timeout then Err ZeroOperationTimeout
  else if Duration_ltb MAXIMUM_OPERATION_TIMEOUT timeout
  then Err (OperationTimeoutTooLong timeout MAXIMUM_OPERATION_TIMEOUT)
  else Ok (mkPostgresConfig (maximum_rows_per_shard self) (pg_max_batch_size self)
             (pool_acquire_timeout self) timeout).

(** The wire object; every field may be missing ([serde(default)]). *)
Record PostgresConfigRef := mkPostgresConfigRef {
  pcr_maximum_rows_per_shard : Z;
  pcr_max_batch_size : nat;
  pcr_pool_acquire_timeout : Duration;
  pcr_operation_timeout : Duration;
}.
Record PostgresConfigWire := mkPostgresConfigWire {
  pcw_maximum_rows_per_shard : option Z;
  pcw_max_batch_size : option nat;
  pcw_pool_acquire_timeout : option Duration;
  pcw_operation_timeout : option Duration;
}.

Definition PostgresConfig_serialize (self : PostgresConfig) : PostgresConfigRef :=
  mkPostgresConfigRef (maximum_rows_per_shard self) (pg_max_batch_size self)
    (pool_acquire_timeout self) (operation_timeout self).

Definition PostgresConfig_deserialize (wire : PostgresConfigWire)
    : Result PostgresConfigError PostgresConfig :=
  config ← with_maximum_rows_per_shard PostgresConfig_new
             (default DEFAULT_MAXIMUM_ROWS_PER_SHARD (pcw_maximum_rows_per_shard wire));
  config ← with_pg_max_batch_size config
             (default PG_DEFAULT_MAX_BATCH_SIZE (pcw_max_batch_size wire));
  config ← with_pool_acquire_timeout config
             (default DEFAULT_POOL_ACQUIRE_TIMEOUT (pcw_pool_acquire_timeout wire));
  with_operation_timeout config (default DEFAULT_OPERATION_TIMEOUT (pcw_operation_timeout wire)).

(** What an object read back from its serialized form presents. *)
Definition wire_of_ref (r : PostgresConfigRef) : PostgresConfigWire :=
  mkPostgresConfigWire (Some (pcr_maximum_rows_per_shard r)) (Some (pcr_max_batch_size r))
    (Some (pcr_pool_acquire_timeout r)) (Some (pcr_operation_timeout r)).

(** * The bounds every configuration satisfies *)

Record PostgresConfig_wf (c : PostgresConfig) : Prop := {
  pc_rows : 1 <= maximum_rows_per_shard c <= HARD_MAX_ROWS_PER_SHARD;
  pc_batch : (1 <= pg_max_batch_size c)%nat;
  pc_acquire : 0 < as_nanos (pool_acquire_timeout c) <= as_nanos MAXIMUM_POOL_ACQUIRE_TIMEOUT;
  pc_operation : 0 < as_nanos (operation_timeout c) <= as_nanos MAXIMUM_OPERATION_TIMEOUT;
}.

Lemma PostgresConfig_new_wf : PostgresConfig_wf PostgresConfig_new.
Proof.
  split; unfold PostgresConfig_new, DEFAULT_POOL_ACQUIRE_TIMEOUT, DEFAULT_OPERATION_TIMEOUT,
    MAXIMUM_POOL_ACQUIRE_TIMEOUT, MAXIMUM_OPERATION_TIMEOUT, DEFAULT_MAXIMUM_ROWS_PER_SHARD,
    HARD_MAX_ROWS_PER_SHARD, PG_DEFAULT_MAX_BATCH_SIZE; simpl; lia.
Qed.

Lemma with_rows_ok c n c' : with_maximum_rows_per_shard c n = Ok c' <->
  n <> 0 /\ n <= HARD_MAX_ROWS_PER_SHARD
  /\ c' = mkPostgresConfig n (pg_max_batch_size c) (pool_acquire_timeout c) (operation_timeout c).
Proof.
  unfold with_maximum_rows_per_shard. split.
  - repeat case_cmp; by intros [= <-].
  - intros (H1 & H2 & ->). repeat case_cmp; done || lia.
Qed.

Lemma with_batch_ok c n c' : with_pg_max_batch_size c n = Ok c' <->
  n <> 0%nat
  /\ c' = mkPostgresConfig (maximum_rows_per_shard c) n (pool_acquire_timeout c) (operation_timeout c).
Proof.
  unfold with_pg_max_batch_size. destruct (Nat.eqb_spec n 0) as [->|Hn]; split; try done.
  - by intros [? _].
  - by intros [= <-].
  - by intros [_ ->].
Qed.

Lemma with_acquire_ok c t c' : with_pool_acquire_timeout c t = Ok c' <->
  as_nanos t <> 0 /\ as_nanos t <= as_nanos MAXIMUM_POOL_ACQUIRE_TIMEOUT
  /\ c' = mkPostgresConfig (maximum_rows_per_shard c) (pg_max_batch_size c) t (operation_timeout c).
Proof.
  unfold with_pool_acquire_timeout, Duration_is_zero, Duration_ltb. split.
  - repeat case_cmp; by intros [= <-].
  - intros (H1 & H2 & ->). repeat case_cmp; done || lia.
Qed.

Lemma with_operation_ok c t c' : with_operation_timeout c t = Ok c' <->
  as_nanos t <> 0 /\ as_nanos t <= as_nanos MAXIMUM_OPERATION_TIMEOUT
  /\ c' = mkPostgresConfig (maximum_rows_per_shard c) (pg_max_batch_size c) (pool_acquire_timeout c) t.
Proof.
  unfold with_operation_timeout, Duration_is_zero, Duration_ltb. split.
  - repeat case_cmp; by intros [= <-].
  - intros (H1 & H2 & ->). repeat case_cmp; done || lia.
Qed.

(** The values a wire object stands for, missing fields defaulted. *)
Definition wire_config (w : PostgresConfigWire) : PostgresConfig :=
  mkPostgresConfig (default DEFAULT_MAXIMUM_ROWS_PER_SHARD (pcw_maximum_rows_per_shard w))
    (default PG_DEFAULT_MAX_BATCH_SIZE (pcw_max_batch_size w))
    (default DEFAULT_POOL_ACQUIRE_TIMEOUT (pcw_pool_acquire_timeout w))
    (default DEFAULT_OPERATION_TIMEOUT (pcw_operation_timeout w)).

(** The fields of a wire object are of their types. *)
Definition wire_typed (w : PostgresConfigWire) : Prop :=
  0 <= maximum_rows_per_shard (wire_config w)
  /\ Duration_wf (pool_acquire_timeout (wire_config w))
  /\ Duration_wf (operation_timeout (wire_config w)).

#[local] Ltac projections :=
  cbn [maximum_rows_per_shard pg_max_batch_size pool_acquire_timeout operation_timeout] in *.

Lemma PostgresConfig_deserialize_ok w c :
  wire_typed w ->
  PostgresConfig_deserialize w = Ok c <-> c = wire_config w /\ PostgresConfig_wf c.
Proof.
  intros (Hrows & [Ha _] & [Ho _]). unfold PostgresConfig_deserialize. split.
  - intros (c1 & (H1 & H2 & ->)%with_rows_ok
      & (c2 & (H3 & ->)%with_batch_ok
      & (c3 & (H4 & H5 & ->)%with_acquire_ok
      & (H6 & H7 & ->)%with_operation_ok)%Result_bind_Ok)%Result_bind_Ok)%Result_bind_Ok.
    split; [done|]. unfold wire_config in *. projections. split; projections; lia.
  - intros [-> [Hr Hb Hac Hop]]. unfold wire_config in *. projections.
    apply Result_bind_Ok. eexists. split; [apply with_rows_ok; split_and!; [lia|lia|done]|].
    apply Result_bind_Ok. eexists. split; [apply with_batch_ok; split; [lia|done]|].
    apply Result_bind_Ok. eexists. split; [apply with_acquire_ok; split_and!; [lia|lia|done]|].
    apply with_operation_ok. split_and!; [lia|lia|done].
Qed.

(** A PostgreSQL configuration read from the wire, missing fields taking
    their defaults, is accepted exactly when it is within bounds (1 to 65536
    rows per shard, a positive batch size, both timeouts above zero and at
    most a minute); it is then the configuration written; the defaults are
    within bounds; and every configuration within bounds survives its own
    serialization. *)
Theorem postgres_config_bounds :
  PostgresConfig_wf PostgresConfig_new
  /\ (forall w c, wire_typed w ->
       PostgresConfig_deserialize w = Ok c <-> c = wire_config w /\ PostgresConfig_wf c)
  /\ (forall c, PostgresConfig_wf c -> Duration_wf (pool_acquire_timeout c) ->
       Duration_wf (operation_timeout c) ->
       PostgresConfig_deserialize (wire_of_ref (PostgresConfig_serialize c)) = Ok c).
Proof.
  split_and!; [apply PostgresConfig_new_wf|apply PostgresConfig_deserialize_ok|].
  intros c Hwf Ha Ho. apply PostgresConfig_deserialize_ok.
  - split_and!; [|done|done]. destruct Hwf as [? _ _ _]. cbn. lia.
  - split; [by destruct c|done].
Qed.
