(* ===== verification/PgSession.v ===== *)
(** One PostgreSQL transaction as its client sees it: the bounded waits, the
    refreshed server timeouts, begin, statements, commit and rollback
    ([CheckTransaction] and the helpers below it in
    [runlimit-postgres/src/admission.rs], the settings of [protocol.rs]).

    The server and the network are an environment: each interaction takes
    one [Step] of a schedule, which says what the client's clock shows,
    whether a reply arrives before the deadline and, if so, which; a
    transaction's statements work on a private copy of the tables, which a
    commit publishes. *)

From Stdlib Require Import Ascii String.
From stdpp Require Import prelude list gmap sorting.
From S2P Require Import Prelude RustStd Identifier Policy Decision AttemptPolicy Key Check Observation PgErrors.
Open Scope Z_scope.
Open Scope list_scope.

(** [sqlx::Error]: its SQLSTATE, when it is a database error with one; the
    error of [fetch_one] without a row; and the error a server raises with a
    given SQLSTATE. *)
Class SqlxError (E : Type) := {
  database_code : E -> option str;
  row_not_found : E;
  server_error : str -> E;
}.

(** * protocol.rs *)

Definition SERVER_TIMEOUT_GRACE : Duration := from_millis 25.

Definition is_server_timeout {E} `{SqlxError E} (error : E) : bool :=
  match database_code error with
  | Some code => bool_decide (code = byte_string "57014") || bool_decide (code = byte_string "55P03")
  | None => false
  end.

(** Instants are nanoseconds of the client's monotonic clock. *)
Definition remaining_server_timeout_settings (deadline now : Z) : option (str * str) :=
  if deadline <? now then None
  else
    let remaining_millis := (deadline - now) / 1000000 in
    let statement_millis :=
      Z.max (saturating_sub remaining_millis (as_millis SERVER_TIMEOUT_GRACE)) 1 in
    let lock_millis := Z.max (saturating_sub statement_millis 1) 1 in
    Some (decimal statement_millis ++ byte_string "ms", decimal lock_millis ++ byte_string "ms").

(** * Sessions *)

Record Response (A : Type) := mkResponse { rows : list A; rows_affected : Z }.
Arguments mkResponse {A} _ _.
Arguments rows {A} _.
Arguments rows_affected {A} _.

(** The statements of a backend, each with the type of its rows; all share
    the transaction-local timeouts. *)
Class Statements (Query : Type -> Type) := {
  set_local_timeouts : str -> str -> Query unit;
}.

(** What the environment does at one interaction. [step_reply] answers a
    statement from the transaction's tables, and may change them;
    [step_command] acknowledges a begin, commit or rollback; [None] is a
    reply that does not arrive before the deadline. [step_applied] is whether
    a commit without a successful acknowledgement took effect. *)
Record Step (E Db : Type) (Query : Type -> Type) := mkStep {
  step_now : Z;
  step_reply : option (forall A, Query A -> Db -> Db * Result E (Response A));
  step_command : option (Result E unit);
  step_applied : bool;
}.
Arguments mkStep {E Db Query} _ _ _ _.
Arguments step_now {E Db Query} _.
Arguments step_reply {E Db Query} _.
Arguments step_command {E Db Query} _.
Arguments step_applied {E Db Query} _.

(** The committed tables, the transaction's copy, the schedule, and whether
    the connection still has an unanswered command. *)
Record Session (E Db : Type) (Query : Type -> Type) := mkSession {
  committed : Db;
  working : Db;
  schedule : list (Step E Db Query);
  busy : bool;
}.
Arguments mkSession {E Db Query} _ _ _ _.
Arguments committed {E Db Query} _.
Arguments working {E Db Query} _.
Arguments schedule {E Db Query} _.
Arguments busy {E Db Query} _.

Section Session.
Context {E Db : Type} {Query : Type -> Type} `{SqlxError E} `{Statements Query}.

(** Computations of a transaction that fail with an [X], or panic. *)
Definition Tx (X A : Type) : Type :=
  Session E Db Query -> Session E Db Query * Outcome (Result (ConnectionOutcome X) A).

#[export] Instance Tx_ret X : MRet (Tx X) := fun A a s => (s, Done (Ok a)).
#[export] Instance Tx_bind X : MBind (Tx X) := fun A B f m s =>
  match m s with
  | (s, Done (Ok a)) => f a s
  | (s, Done (Err e)) => (s, Done (Err e))
  | (s, Panic) => (s, Panic)
  end.

Definition fail {X A} (e : ConnectionOutcome X) : Tx X A := fun s => (s, Done (Err e)).
(** [Result] values and expectations inside a transaction. *)
Definition lift {X A} (r : Result (ConnectionOutcome X) A) : Tx X A := fun s => (s, Done r).
Definition expect_tx {X A} (r : Outcome A) : Tx X A := fun s =>
  (s, match r with Done a => Done (Ok a) | Panic => Panic end).

(** An exhausted schedule never answers. *)
Definition next_step (s : Session E Db Query) : Step E Db Query * Session E Db Query :=
  match schedule s with
  | step :: steps => (step, mkSession (committed s) (working s) steps (busy s))
  | [] => (mkStep 0 None None false, s)
  end.

Definition read_clock {X} : Tx X Z := fun s =>
  let '(step, s) := next_step s in (s, Done (Ok (step_now step))).

(** A reply, or the deadline. *)
Definition interact {A} (answer : Step E Db Query -> Session E Db Query ->
      Session E Db Query * option (Result E A))
    (s : Session E Db Query) : Session E Db Query * option (Result E A) :=
  let '(step, s) := next_step s in
  let '(s, reply) := answer step s in
  match reply with
  | Some r => (s, Some r)
  | None => (mkSession (committed s) (working s) (schedule s) true, None)
  end.

Definition send {A} (q : Query A) (step : Step E Db Query) (s : Session E Db Query)
    : Session E Db Query * option (Result E (Response A)) :=
  match step_reply step with
  | Some reply =>
      let '(db, r) := reply A q (working s) in
      (mkSession (committed s) db (schedule s) (busy s), Some r)
  | None => (s, None)
  end.

Definition send_begin (step : Step E Db Query) (s : Session E Db Query)
    : Session E Db Query * option (Result E unit) :=
  (mkSession (committed s) (committed s) (schedule s) (busy s), step_command step).

Definition send_rollback (step : Step E Db Query) (s : Session E Db Query)
    : Session E Db Query * option (Result E unit) :=
  (mkSession (committed s) (committed s) (schedule s) (busy s), step_command step).

(** An acknowledged commit took effect; any other may have. *)
Definition send_commit (step : Step E Db Query) (s : Session E Db Query)
    : Session E Db Query * option (Result E unit) :=
  let applied := match step_command step with Some (Ok _) => true | _ => step_applied step end in
  (mkSession (if applied then working s else committed s) (working s) (schedule s) (busy s),
   step_command step).

(** A wait bounded by the deadline before commit, its failures classified
    by the caller ([timeout_at(deadline, future)]). *)
Definition before_commit {X A} (elapsed : X) (database : E -> X)
    (wait : Session E Db Query -> Session E Db Query * option (Result E A)) : Tx X A := fun s =>
  let '(s, reply) := wait s in
  (s, Done (match reply with
            | None => Err (MustClose elapsed)
            | Some (Err error) => Err (Reusable (database error))
            | Some (Ok a) => Ok a
            end)).

(** ** Admission transactions *)

Definition map_check_database_error (error : E) (phase : CheckPhase) : CheckError E :=
  if is_server_timeout error then TimedOutBeforeCommit phase else DefinitelyNotConsumed error.

Definition check_before_commit {A} (phase : CheckPhase)
    (wait : Session E Db Query -> Session E Db Query * option (Result E A))
    : Tx (CheckError E) A :=
  before_commit (TimedOutBeforeCommit phase)
    (fun error => map_check_database_error error phase) wait.

Definition set_check_server_timeouts (deadline : Z) (phase : CheckPhase) : Tx (CheckError E) unit :=
  now ← read_clock;
  match remaining_server_timeout_settings deadline now with
  | None => fail (Reusable (TimedOutBeforeCommit phase))
  | Some (statement_timeout, lock_timeout) =>
      _ ← check_before_commit phase
            (interact (send (set_local_timeouts statement_timeout lock_timeout)));
      mret tt
  end.

(** [CheckTransaction]. *)
Record CheckTransaction := mkCheckTransaction { deadline : Z }.

Definition begin_ (deadline : Z) : Tx (CheckError E) CheckTransaction :=
  _ ← check_before_commit CheckPhase_BeginningTransaction (interact send_begin);
  mret (mkCheckTransaction deadline).

Definition prepare (self : CheckTransaction) (phase : CheckPhase) : Tx (CheckError E) unit :=
  set_check_server_timeouts (deadline self) phase.

Definition execute {A} (self : CheckTransaction) (phase : CheckPhase) (query : Query A)
    : Tx (CheckError E) Z :=
  _ ← prepare self phase;
  response ← check_before_commit phase (interact (send query));
  mret (rows_affected response).

Definition fetch_all {A} (self : CheckTransaction) (phase : CheckPhase) (query : Query A)
    : Tx (CheckError E) (list A) :=
  _ ← prepare self phase;
  response ← check_before_commit phase (interact (send query));
  mret (rows response).

(** [fetch_one] fails without a row, and ignores further ones. *)
Definition first_row {A} (r : Result E (Response A)) : Result E A :=
  match r with
  | Ok response => match rows response with row :: _ => Ok row | [] => Err row_not_found end
  | Err error => Err error
  end.
Definition send_one {A} (query : Query A) (step : Step E Db Query) (s : Session E Db Query)
    : Session E Db Query * option (Result E A) :=
  let '(s, reply) := send query step s in (s, first_row <$> reply).

Definition fetch_one {A} (self : CheckTransaction) (phase : CheckPhase) (query : Query A)
    : Tx (CheckError E) A :=
  _ ← prepare self phase;
  check_before_commit phase (interact (send_one query)).

Definition commit_check (deadline : Z) : Tx (CheckError E) unit :=
  now ← read_clock;
  if deadline <=? now
  then fail (Reusable (TimedOutBeforeCommit CheckPhase_StartingCommit))
  else before_commit CommitTimedOut CommitOutcomeUnknown (interact send_commit).

Definition commit (self : CheckTransaction) : Tx (CheckError E) unit :=
  _ ← prepare self CheckPhase_PreparingCommit;
  commit_check (deadline self).

(** [finish_denied_transaction], which is all [CheckTransaction::deny] does. *)
Definition denied_rollback_succeeded (reply : option (Result E unit)) : bool :=
  match reply with Some (Ok _) => true | _ => false end.

Definition finish_denied_transaction {X D} (decision : D) : Tx X (ConnectionOutcome D) := fun s =>
  let '(s, reply) := interact send_rollback s in
  (s, Done (Ok (if denied_rollback_succeeded reply then Reusable decision else MustClose decision))).

Definition deny {X D} (decision : D) : Tx X (ConnectionOutcome D) :=
  finish_denied_transaction decision.
End Session.
Arguments Tx : clear implicits.

(** * What a transaction can do before it commits *)

Section Quiet.
Context {E Db : Type} {Query : Type -> Type} `{SqlxError E} `{Statements Query} {X : Type}.

(** The tables others see do not change, and whenever the connection may be
    reused nothing is left unanswered; [harmless] is what the failures say. *)
Definition quiet (harmless : X -> Prop) {A} (m : Tx E Db Query X A) : Prop :=
  forall s, let '(s', r) := m s in
  committed s' = committed s
  /\ match r with
     | Done (Ok _) => busy s' = busy s
     | Done (Err (Reusable e)) => harmless e /\ busy s' = busy s
     | Done (Err (MustClose e)) => harmless e
     | Panic => True
     end.

Context (harmless : X -> Prop).

Lemma quiet_ret {A} (a : A) : quiet harmless (mret a).
Proof. by intros s. Qed.

Lemma quiet_bind {A B} (m : Tx E Db Query X A) (f : A -> Tx E Db Query X B) :
  quiet harmless m -> (forall a, quiet harmless (f a)) -> quiet harmless (m ≫= f).
Proof.
  intros Hm Hf s. unfold mbind, Tx_bind. specialize (Hm s).
  destruct (m s) as [s1 [[a|e]|]]; destruct Hm as [Hc Hb]; [|done..].
  specialize (Hf a s1). destruct (f a s1) as [s2 r]. destruct Hf as [Hc' Hb'].
  split; [congruence|]. destruct r as [[b|[e|e]]|]; [congruence| |done|done].
  destruct Hb'. split; [done|congruence].
Qed.

Lemma quiet_lift {A} (r : Result (ConnectionOutcome X) A) :
  (forall e, r = Err e -> harmless (outcome_value e)) -> quiet harmless (lift r).
Proof.
  intros Hr s. simpl. split; [done|].
  destruct r as [a|[e|e]]; [done|split; [|done]; by apply (Hr (Reusable e))
    |by apply (Hr (MustClose e))].
Qed.

Lemma quiet_fail {A} (e : ConnectionOutcome X) :
  harmless (outcome_value e) -> quiet harmless (A := A) (fail e).
Proof. intros He s. simpl. split; [done|]. by destruct e. Qed.

Lemma quiet_expect {A} (r : Outcome A) : quiet harmless (expect_tx r).
Proof. intros s. simpl. by destruct r. Qed.

Lemma next_step_frame (s : Session E Db Query) :
  let '(_, s') := next_step s in committed s' = committed s /\ busy s' = busy s.
Proof. unfold next_step. by destruct (schedule s). Qed.

Lemma quiet_clock : quiet harmless read_clock.
Proof.
  intros s. unfold read_clock. pose proof (next_step_frame s) as Hs.
  by destruct (next_step s).
Qed.

(** A wait for something that leaves the committed tables alone. *)
Lemma quiet_wait {A} elapsed database
    (answer : Step E Db Query -> Session E Db Query -> Session E Db Query * option (Result E A)) :
  harmless elapsed -> (forall error, harmless (database error)) ->
  (forall step s, let '(s', _) := answer step s in committed s' = committed s /\ busy s' = busy s) ->
  quiet harmless (before_commit elapsed database (interact answer)).
Proof.
  intros He Hd Ha s. unfold before_commit, interact. pose proof (next_step_frame s) as Hs.
  destruct (next_step s) as [step s1]. specialize (Ha step s1).
  destruct (answer step s1) as [s2 [[a|e]|]]; simpl;
    destruct Hs as [Hs1 Hs2], Ha as [Ha1 Ha2]; (split; [congruence|]); [congruence| |done].
  split; [done|congruence].
Qed.

Lemma send_frame {A} (q : Query A) step (s : Session E Db Query) :
  let '(s', _) := send q step s in committed s' = committed s /\ busy s' = busy s.
Proof.
  unfold send. destruct (step_reply step) as [reply|]; [|done]. by destruct (reply _ _ _).
Qed.

Lemma send_one_frame {A} (q : Query A) step (s : Session E Db Query) :
  let '(s', _) := send_one q step s in committed s' = committed s /\ busy s' = busy s.
Proof. unfold send_one. pose proof (send_frame q step s) as Hs. by destruct (send q step s). Qed.

Lemma send_begin_frame step (s : Session E Db Query) :
  let '(s', _) := send_begin step s in committed s' = committed s /\ busy s' = busy s.
Proof. done. Qed.
(** What is known after a transaction: [published] tells the results whose
    commit was acknowledged.  A definite result leaves the committed tables
    as they were, an acknowledged commit publishes the transaction's own,
    and a connection that may be reused has nothing unanswered. *)
Definition certain {A} (published : A -> Prop) (m : Tx E Db Query X (ConnectionOutcome A)) : Prop :=
  forall s, let '(s', r) := m s in
  match r with
  | Done (Ok o) =>
      (published (outcome_value o) -> committed s' = working s')
      /\ (~ published (outcome_value o) -> committed s' = committed s)
      /\ (o = Reusable (outcome_value o) -> busy s' = busy s)
  | Done (Err o) =>
      (harmless (outcome_value o) -> committed s' = committed s)
      /\ (~ harmless (outcome_value o) ->
           committed s' = committed s \/ committed s' = working s')
      /\ (o = Reusable (outcome_value o) -> busy s' = busy s)
  | Panic => committed s' = committed s
  end.

Lemma certain_bind {A B} published (m : Tx E Db Query X A)
    (f : A -> Tx E Db Query X (ConnectionOutcome B)) :
  quiet harmless m -> (forall a, certain published (f a)) -> certain published (m ≫= f).
Proof.
  intros Hm Hf s. unfold mbind, Tx_bind. specialize (Hm s).
  destruct (m s) as [s1 [[a|o]|]]; destruct Hm as [Hc Hb].
  - specialize (Hf a s1). destruct (f a s1) as [s2 [[o|o]|]]; [| |congruence];
      rewrite Hc, Hb in Hf; done.
  - destruct o as [e|e]; simpl; [destruct Hb as [He Hb]|]; done.
  - done.
Qed.

Lemma certain_lift {A B} published (r : Result (ConnectionOutcome X) A)
    (f : A -> Tx E Db Query X (ConnectionOutcome B)) :
  (forall e, r = Err e -> harmless (outcome_value e)) ->
  (forall a, r = Ok a -> certain published (f a)) -> certain published (lift r ≫= f).
Proof.
  intros Hr Hf s. unfold mbind, Tx_bind, lift. destruct r as [a|o]; [by apply Hf|].
  specialize (Hr o eq_refl). by split_and!.
Qed.

Lemma certain_assoc {A B C} published (m : Tx E Db Query X A) (f : A -> Tx E Db Query X B)
    (g : B -> Tx E Db Query X (ConnectionOutcome C)) :
  certain published (m ≫= (fun a => f a ≫= g)) -> certain published ((m ≫= f) ≫= g).
Proof.
  intros Hm s. specialize (Hm s). unfold mbind, Tx_bind in *.
  by destruct (m s) as [s1 [[a|o]|]].
Qed.

Lemma certain_deny {D} (published : D -> Prop) (decision : D) :
  ~ published decision -> certain published (deny decision).
Proof.
  intros Hp s. unfold deny, finish_denied_transaction, interact.
  pose proof (next_step_frame s) as Hs. destruct (next_step s) as [step s1].
  destruct Hs as [Hc Hb]. unfold send_rollback. simpl.
  destruct (step_command step) as [[u|e]|]; simpl; split_and!; done.
Qed.

(** The acknowledged commit of a result, whose failures are not harmless. *)
Lemma certain_publish {D} (published : D -> Prop) (decision : D) elapsed database :
  published decision -> ~ harmless elapsed -> (forall error, ~ harmless (database error)) ->
  certain published
    (_ ← before_commit elapsed database (interact send_commit); mret (Reusable decision)).
Proof.
  intros Hp He Hd s. unfold mbind, Tx_bind, mret, Tx_ret, before_commit, interact.
  pose proof (next_step_frame s) as Hs. destruct (next_step s) as [step s1].
  destruct Hs as [Hc Hb]. unfold send_commit.
  assert (Heither : forall db db' : Db, (if step_applied step then db else db') = db' 
    \/ (if step_applied step then db else db') = db) by (intros; destruct (step_applied step); auto).
  destruct (step_command step) as [[u|e]|]; simpl.
  - split_and!; [done|done|intros _; congruence].
  - split_and!; [by intros ?%Hd| |intros _; congruence]. intros _. rewrite <- Hc. apply Heither.
  - split_and!; [done| |done]. intros _. rewrite <- Hc. apply Heither.
Qed.
End Quiet.

Create HintDb quiet discriminated.
#[export] Hint Resolve quiet_ret quiet_bind quiet_clock quiet_expect send_frame send_one_frame
  send_begin_frame : quiet.

(** ** Admission transactions *)

Definition not_consumed {E} (e : CheckError E) : Prop := CheckError_consumption e = NotConsumed.

Section QuietChecks.
Context {E Db : Type} {Query : Type -> Type} `{SqlxError E} `{Statements Query}.

(** Nothing consumed so far. *)
Definition pre_commit {A} (m : Tx E Db Query (CheckError E) A) : Prop := quiet not_consumed m.

Lemma quiet_check {A} phase
    (answer : Step E Db Query -> Session E Db Query -> Session E Db Query * option (Result E A)) :
  (forall step s, let '(s', _) := answer step s in committed s' = committed s /\ busy s' = busy s) ->
  pre_commit (check_before_commit phase (interact answer)).
Proof.
  intros Ha. apply quiet_wait; [done| |done]. intros error. unfold map_check_database_error.
  by destruct (is_server_timeout error).
Qed.

Lemma quiet_begin deadline : pre_commit (begin_ (Query := Query) deadline).
Proof. apply quiet_bind; [apply quiet_check, send_begin_frame|intros _; apply quiet_ret]. Qed.

Lemma quiet_prepare tx phase : pre_commit (prepare tx phase).
Proof.
  apply quiet_bind; [apply quiet_clock|]. intros now.
  destruct (remaining_server_timeout_settings _ _) as [[st lk]|]; [|by apply quiet_fail].
  apply quiet_bind; [apply quiet_check, send_frame|intros _; apply quiet_ret].
Qed.

Lemma quiet_execute {A} tx phase (q : Query A) : pre_commit (execute tx phase q).
Proof.
  apply quiet_bind; [apply quiet_prepare|]. intros _.
  apply quiet_bind; [apply quiet_check, send_frame|intros r; apply quiet_ret].
Qed.

Lemma quiet_fetch_all {A} tx phase (q : Query A) : pre_commit (fetch_all tx phase q).
Proof.
  apply quiet_bind; [apply quiet_prepare|]. intros _.
  apply quiet_bind; [apply quiet_check, send_frame|intros r; apply quiet_ret].
Qed.

Lemma quiet_fetch_one {A} tx phase (q : Query A) : pre_commit (fetch_one tx phase q).
Proof.
  apply quiet_bind; [apply quiet_prepare|]. intros _. apply quiet_check, send_one_frame.
Qed.

(** The commit of an allowed result. *)
Lemma certain_commit {D} (published : D -> Prop) tx (decision : D) :
  published decision ->
  certain (Db := Db) (Query := Query) not_consumed published (_ ← commit tx; mret (Reusable decision)).
Proof.
  intros Hp. apply certain_assoc, certain_bind; [apply quiet_prepare|]. intros _.
  apply certain_assoc, certain_bind; [apply quiet_clock|]. intros now.
  destruct (deadline tx <=? now).
  - intros s. simpl. by split_and!.
  - by apply certain_publish.
Qed.
End QuietChecks.

#[export] Hint Resolve quiet_begin quiet_execute quiet_fetch_all quiet_fetch_one : quiet.
