(* ===== verification/PgTables.v ===== *)
(** The fixed-window tables of the PostgreSQL backend and the meaning of the
    statements the client sends to them ([runlimit-postgres/migrations], the
    SQL constants of [src/protocol.rs], [src/cleanup_expired.sql]).

    Statements run one at a time on a transaction's copy of the tables: the
    advisory, row and shard locks, which only order concurrent transactions,
    have no effect on it.  Times are microseconds ([TIMESTAMPTZ]). *)

From Stdlib Require Import Ascii String.
From stdpp Require Import prelude list gmap sorting.
From S2P Require Import Prelude RustStd Identifier Policy Decision AttemptPolicy Key Check Observation PgErrors PgConfig PgSession.
Open Scope Z_scope.
Open Scope list_scope.

(** ** protocol.rs: derivations shared by all replicas *)

Definition ADVISORY_LOCK_DOMAIN : bytes := byte_string "runlimit/postgres-advisory-lock/v1" ++ [0].

(** [i64::from_be_bytes]. *)
Definition i64_from_be_bytes (bs : bytes) : Z :=
  let u := from_be_bytes bs in if u <=? i64_max then u else u - (u64_max + 1).

Definition advisory_lock_id (sha256 : bytes -> bytes) (counter_key : CounterKey) : Z :=
  let digest := sha256 (ADVISORY_LOCK_DOMAIN ++ CounterKey_to_bytes counter_key) in
  i64_from_be_bytes (take 8 digest).

(** The first byte of an array. *)
Definition first_byte (bs : bytes) : Z := default 0 (head bs).

Definition capacity_shard (counter_key : CounterKey) : Z :=
  Z.lxor (first_byte (fingerprint_bytes (ck_fingerprint counter_key)))
         (first_byte (SubjectKey_as_bytes (ck_subject counter_key))).

(** ** The tables *)

Record WindowRow := mkWindowRow {
  w_policy_id : str;
  w_scope_id : str;
  w_started_at : Z;
  w_expires_at : Z;
  w_used : Z;
}.

(** [runlimit_fixed_windows], by primary key, and
    [runlimit_capacity_shards]. *)
Record FixedDb := mkFixedDb {
  windows : gmap CounterKey WindowRow;
  ledger : gmap Z Z;
}.

(** The tables right after the migrations. *)
Definition FixedDb_new : FixedDb :=
  mkFixedDb ∅ (list_to_map ((fun s => (Z.of_nat s, 0)) <$> seq 0 256)).

Definition storage_key (fingerprint subject : bytes) : CounterKey :=
  mkCounterKey (from_digest fingerprint) (mkSubjectKey subject).

(** ** Statements

    Rows carry what the client can decode of each column. *)

Definition Col (E A : Type) : Type := Result E A.

Record CapacityRow (E : Type) := mkCapacityRow {
  cr_input_index : Col E Z;
  cr_capacity_shard : Col E Z;
  cr_row_count : Col E (option Z);
}.
Arguments mkCapacityRow {E} _ _ _.
Arguments cr_input_index {E} _.
Arguments cr_capacity_shard {E} _.
Arguments cr_row_count {E} _.

Record PreflightRow (E : Type) := mkPreflightRow {
  pr_database_now : Col E Z;
  pr_response_now : Col E Z;
  pr_input_index : Col E (option Z);
  pr_window_expires_at : Col E (option Z);
}.
Arguments mkPreflightRow {E} _ _ _ _.
Arguments pr_database_now {E} _.
Arguments pr_response_now {E} _.
Arguments pr_input_index {E} _.
Arguments pr_window_expires_at {E} _.

Record UpsertRow (E : Type) := mkUpsertRow {
  ur_input_index : Col E Z;
  ur_used : Col E Z;
  ur_window_expires_at : Col E Z;
  ur_response_now : Col E Z;
}.
Arguments mkUpsertRow {E} _ _ _ _.
Arguments ur_input_index {E} _.
Arguments ur_used {E} _.
Arguments ur_window_expires_at {E} _.
Arguments ur_response_now {E} _.

Inductive FixedQuery (E : Type) : Type -> Type :=
| SET_LOCAL_TIMEOUTS_SQL (statement_timeout lock_timeout : str) : FixedQuery E unit
| BATCH_ADVISORY_LOCK_SQL (ids : list Z) : FixedQuery E unit
| BATCH_ROW_LOCK_SQL (fingerprints subjects : list bytes) (positions : list Z) : FixedQuery E unit
| BATCH_CAPACITY_LOCK_SQL (fingerprints subjects : list bytes) (shards : list Z)
    : FixedQuery E (CapacityRow E)
| BATCH_PREFLIGHT_SQL (fingerprints subjects : list bytes) (costs limits : list Z)
    : FixedQuery E (PreflightRow E)
| BATCH_UPSERT_SQL (policy_ids scope_ids : list str) (fingerprints subjects : list bytes)
    (window_sizes costs limits : list Z) (database_now : Z) : FixedQuery E (UpsertRow E)
| CLEANUP_SQL (maximum_rows : Z) : FixedQuery E unit.
Arguments SET_LOCAL_TIMEOUTS_SQL {E} _ _.
Arguments BATCH_ADVISORY_LOCK_SQL {E} _.
Arguments BATCH_ROW_LOCK_SQL {E} _ _ _.
Arguments BATCH_CAPACITY_LOCK_SQL {E} _ _ _.
Arguments BATCH_PREFLIGHT_SQL {E} _ _ _ _.
Arguments BATCH_UPSERT_SQL {E} _ _ _ _ _ _ _ _.
Arguments CLEANUP_SQL {E} _.

#[export] Instance fixed_statements E : Statements (FixedQuery E) := {
  set_local_timeouts := SET_LOCAL_TIMEOUTS_SQL;
}.

(** [unnest(...) WITH ORDINALITY] of parallel arrays: rows with their
    zero-based position. *)
Definition with_ordinality {A} (l : list A) : list (Z * A) := imap (fun i x => (Z.of_nat i, x)) l.

Definition unnest_keys (fingerprints subjects : list bytes) : list CounterKey :=
  zip_with storage_key fingerprints subjects.

(** [BATCH_CAPACITY_LOCK_SQL]: the keys without a row, with the count of
    their shard's ledger row, if any. *)
Definition capacity_rows {E} (db : FixedDb) (keys : list CounterKey) (shards : list Z)
    : list (CapacityRow E) :=
  (fun '(index, (key, shard)) => mkCapacityRow (Ok index) (Ok shard) (Ok (ledger db !! shard)))
  <$> filter (fun '(index, (key, shard)) => windows db !! key = None)
        (with_ordinality (zip keys shards)).

(** [BATCH_PREFLIGHT_SQL]: the first input whose live window refuses its
    cost. *)
Definition first_denial_sql (db : FixedDb) (keys : list CounterKey) (costs limits : list Z)
    (database_now : Z) : option (Z * Z) :=
  head (omap (fun '(index, (key, (cost, limit))) =>
    match windows db !! key with
    | Some row =>
        if (database_now <? w_expires_at row) && (limit - cost <? w_used row)
        then Some (index, w_expires_at row) else None
    | None => None
    end) (with_ordinality (zip keys (zip costs limits)))).

(** [BATCH_UPSERT_SQL]: one input of [INSERT ... ON CONFLICT DO UPDATE];
    [None] when the conflicting row is not updated. *)
Record UpsertInput := mkUpsertInput {
  ui_policy_id : str;
  ui_scope_id : str;
  ui_key : CounterKey;
  ui_window_size : Z;
  ui_cost : Z;
  ui_limit : Z;
}.

Definition upsert_row (database_now : Z) (input : UpsertInput) (stored : option WindowRow)
    : option WindowRow :=
  match stored with
  | None =>
      Some (mkWindowRow (ui_policy_id input) (ui_scope_id input) database_now
              (database_now + ui_window_size input) (ui_cost input))
  | Some row =>
      let expired := w_expires_at row <=? database_now in
      if expired || (w_used row <=? ui_limit input - ui_cost input)
      then Some (mkWindowRow (ui_policy_id input) (ui_scope_id input)
                   (if expired then database_now else w_started_at row)
                   (if expired then database_now + ui_window_size input else w_expires_at row)
                   (if expired then ui_cost input else w_used row + ui_cost input))
      else None
  end.

(** The rows of all inputs, in order, with the keys inserted. *)
Fixpoint upsert_all (database_now : Z) (ws : gmap CounterKey WindowRow) (inputs : list UpsertInput)
    : gmap CounterKey WindowRow * list CounterKey * list (option WindowRow) :=
  match inputs with
  | [] => (ws, [], [])
  | input :: inputs =>
      let stored := ws !! ui_key input in
      let row := upsert_row database_now input stored in
      let ws' := match row with Some row => <[ui_key input := row]> ws | None => ws end in
      let '(ws', inserted, out) := upsert_all database_now ws' inputs in
      (ws', match stored with None => ui_key input :: inserted | Some _ => inserted end, row :: out)
  end.

(** SQLSTATEs of the failures the schema raises. *)
Definition CHECK_VIOLATION : str := byte_string "23514".
Definition FOREIGN_KEY_VIOLATION : str := byte_string "23503".
Definition CARDINALITY_VIOLATION : str := byte_string "21000".

(** The check constraints of the table. *)
Definition size_between (low high : nat) (s : list Z) : bool :=
  Nat.leb low (length s) && Nat.leb (length s) high.
Definition window_row_ok (key : CounterKey) (row : WindowRow) : bool :=
  size_between 1 128 (w_policy_id row) && size_between 1 128 (w_scope_id row)
  && size_between 32 32 (fingerprint_bytes (ck_fingerprint key))
  && size_between 32 32 (SubjectKey_as_bytes (ck_subject key))
  && (w_started_at row <? w_expires_at row) && (0 <? w_used row).

(** The rows of a statement counted by shard, in ascending order of shards. *)
Definition in_shard (shard : Z) (keys : list CounterKey) : Z :=
  Z.of_nat (length (filter (fun key => capacity_shard key = shard) keys)).
Definition shard_deltas (keys : list CounterKey) : list (Z * Z) :=
  (fun shard => (shard, in_shard shard keys))
  <$> merge_sort Z.le (remove_dups (capacity_shard <$> keys)).

(** The statement triggers after an insert and after a delete. *)
Fixpoint ledger_insert (ledger : gmap Z Z) (deltas : list (Z * Z)) : Result str (gmap Z Z) :=
  match deltas with
  | [] => Ok ledger
  | (shard, added_rows) :: deltas =>
      match ledger !! shard with
      | None => Err FOREIGN_KEY_VIOLATION
      | Some current_row_count =>
          if HARD_MAX_ROWS_PER_SHARD - current_row_count <? added_rows then Err CHECK_VIOLATION
          else ledger_insert (<[shard := current_row_count + added_rows]> ledger) deltas
      end
  end.

Fixpoint ledger_delete (ledger : gmap Z Z) (deltas : list (Z * Z)) : Result str (gmap Z Z) :=
  match deltas with
  | [] => Ok ledger
  | (shard, removed_rows) :: deltas =>
      match ledger !! shard with
      | None => Err FOREIGN_KEY_VIOLATION
      | Some current_row_count =>
          if current_row_count <? removed_rows then Err CHECK_VIOLATION
          else ledger_delete (<[shard := current_row_count - removed_rows]> ledger) deltas
      end
  end.

(** The zip of the eight arrays. *)
Definition upsert_inputs (policy_ids scope_ids : list str) (keys : list CounterKey)
    (window_sizes costs limits : list Z) : list UpsertInput :=
  (fun '(policy_id, (scope_id, (key, (window_size, (cost, limit))))) =>
     mkUpsertInput policy_id scope_id key window_size cost limit)
  <$> zip policy_ids (zip scope_ids (zip keys (zip window_sizes (zip costs limits)))).

Definition upsert_sql {E} `{SqlxError E} (db : FixedDb) (inputs : list UpsertInput)
    (database_now response_now : Z) : FixedDb * Result E (Response (UpsertRow E)) :=
  let keys := ui_key <$> inputs in
  let '(ws, inserted, out) := upsert_all database_now (windows db) inputs in
  if negb (bool_decide (NoDup keys)) then (db, Err (server_error CARDINALITY_VIOLATION))
  else if negb (forallb (fun '(key, row) => from_option (window_row_ok key) true row) (zip keys out))
  then (db, Err (server_error CHECK_VIOLATION))
  else
    match ledger_insert (ledger db) (shard_deltas inserted) with
    | Err code => (db, Err (server_error code))
    | Ok ledger' =>
        let returned :=
          omap (fun '(index, row) =>
            (fun row => mkUpsertRow (Ok index) (Ok (w_used row)) (Ok (w_expires_at row))
                          (Ok response_now)) <$> row) (with_ordinality out) in
        (mkFixedDb ws ledger', Ok (mkResponse returned (Z.of_nat (length returned))))
    end.

(** [cleanup_expired.sql]: at most [maximum_rows] expired rows, the earliest
    expiry first, when the ledger rows of all their shards could be locked. *)
Definition expires_le (p q : Z * CounterKey) : Prop := p.1 <= q.1.
#[export] Instance expires_le_dec p q : base.Decision (expires_le p q).
Proof. unfold expires_le. apply _. Defined.

Definition expired_keys (db : FixedDb) (now : Z) : list CounterKey :=
  (fun p : Z * CounterKey => p.2)
  <$> merge_sort expires_le
        ((fun '(key, row) => (w_expires_at row, key))
         <$> filter (fun '(key, row) => w_expires_at row <= now) (map_to_list (windows db))).

Definition cleanup_sql {E} `{SqlxError E} (db : FixedDb) (maximum_rows now : Z)
    : FixedDb * Result E (Response unit) :=
  let expired := take (Z.to_nat maximum_rows) (expired_keys db now) in
  let locked := forallb (fun key => bool_decide (is_Some (ledger db !! capacity_shard key))) expired in
  let deleted := if locked then expired else [] in
  match ledger_delete (ledger db) (shard_deltas deleted) with
  | Err code => (db, Err (server_error code))
  | Ok ledger' =>
      (mkFixedDb (foldl (fun ws key => delete key ws) (windows db) deleted) ledger',
       Ok (mkResponse [] (Z.of_nat (length deleted))))
  end.

(** The server: a statement that runs from [started] to [finished], as its
    clock tells. *)
Definition fixed_sql {E} `{SqlxError E} (started finished : Z)
    : forall A, FixedQuery E A -> FixedDb -> FixedDb * Result E (Response A) :=
  fun A q db =>
  match q in FixedQuery _ A return FixedDb * Result E (Response A) with
  | SET_LOCAL_TIMEOUTS_SQL _ _ => (db, Ok (mkResponse [tt] 1))
  | BATCH_ADVISORY_LOCK_SQL _ => (db, Ok (mkResponse [tt] 1))
  | BATCH_ROW_LOCK_SQL fingerprints subjects _ =>
      let present :=
        filter (fun key => is_Some (windows db !! key)) (unnest_keys fingerprints subjects) in
      (db, Ok (mkResponse ((fun _ => tt) <$> present) (Z.of_nat (length present))))
  | BATCH_CAPACITY_LOCK_SQL fingerprints subjects shards =>
      let out := capacity_rows db (unnest_keys fingerprints subjects) shards in
      (db, Ok (mkResponse out (Z.of_nat (length out))))
  | BATCH_PREFLIGHT_SQL fingerprints subjects costs limits =>
      let denial := first_denial_sql db (unnest_keys fingerprints subjects) costs limits started in
      (db, Ok (mkResponse
        [mkPreflightRow (Ok started) (Ok finished) (Ok (fst <$> denial)) (Ok (snd <$> denial))] 1))
  | BATCH_UPSERT_SQL policy_ids scope_ids fingerprints subjects window_sizes costs limits now =>
      upsert_sql db (upsert_inputs policy_ids scope_ids (unnest_keys fingerprints subjects)
        window_sizes costs limits) now finished
  | CLEANUP_SQL maximum_rows => cleanup_sql db maximum_rows started
  end.
