(* ===== verification/PgLedger.v ===== *)
(** The capacity ledger of the fixed-window tables is exact: whatever
    statements the server runs, every shard's ledger row counts the shard's
    counter rows, within the hard maximum, and every row satisfies the
    table's constraints. *)

From Stdlib Require Import Ascii String.
From stdpp Require Import prelude list gmap sorting.
From S2P Require Import Prelude RustStd Identifier Policy Decision AttemptPolicy Key Check Observation PgErrors PgConfig PgSession PgTables.
Open Scope Z_scope.
Open Scope list_scope.

(** * Counting rows by shard *)

Definition shard_rows {A} (ws : gmap CounterKey A) (shard : Z) : Z :=
  Z.of_nat (size (filter (fun p => capacity_shard p.1 = shard) ws)).

Definition unit_of (key : CounterKey) (shard : Z) : Z :=
  if decide (capacity_shard key = shard) then 1 else 0.

Lemma shard_rows_insert_new {A} (ws : gmap CounterKey A) key row shard :
  ws !! key = None -> shard_rows (<[key := row]> ws) shard = shard_rows ws shard + unit_of key shard.
Proof.
  intros Hk. unfold shard_rows, unit_of. case_decide as Hs.
  - rewrite map_filter_insert_True by done. rewrite map_size_insert_None; [lia|].
    by apply map_lookup_filter_None; left.
  - rewrite map_filter_insert_False by done. rewrite delete_id by done. lia.
Qed.

Lemma shard_rows_insert_old {A} (ws : gmap CounterKey A) key row old shard :
  ws !! key = Some old -> shard_rows (<[key := row]> ws) shard = shard_rows ws shard.
Proof.
  intros Hk. unfold shard_rows. destruct (decide (capacity_shard key = shard)) as [Hs|Hs].
  - rewrite map_filter_insert_True by done. rewrite map_size_insert_Some; [done|].
    exists old. by apply map_lookup_filter_Some.
  - rewrite map_filter_insert_False by done. by rewrite map_filter_delete_not by naive_solver.
Qed.

Lemma shard_rows_delete {A} (ws : gmap CounterKey A) key row shard :
  ws !! key = Some row -> shard_rows (delete key ws) shard = shard_rows ws shard - unit_of key shard.
Proof.
  intros Hk. pose proof (shard_rows_insert_new (delete key ws) key row shard
    (lookup_delete_eq _ _)) as Hi.
  rewrite insert_delete_eq in Hi. rewrite (shard_rows_insert_old _ _ _ _ _ Hk) in Hi. lia.
Qed.

Lemma in_shard_cons shard key keys :
  in_shard shard (key :: keys) = unit_of key shard + in_shard shard keys.
Proof.
  unfold in_shard, unit_of. rewrite filter_cons. case_decide; simpl; lia.
Qed.

Lemma in_shard_nonneg shard keys : 0 <= in_shard shard keys.
Proof. unfold in_shard. lia. Qed.

Lemma in_shard_none shard keys :
  shard ∉ capacity_shard <$> keys -> in_shard shard keys = 0.
Proof.
  induction keys as [|key keys IH]; intros Hn; [done|]. rewrite in_shard_cons. cbn in Hn.
  apply not_elem_of_cons in Hn as [Hne Hn]. rewrite IH by done. unfold unit_of.
  case_decide; [congruence|lia].
Qed.

(** * The triggers *)

Lemma shard_deltas_NoDup keys : NoDup (fst <$> shard_deltas keys).
Proof.
  unfold shard_deltas. rewrite <- list_fmap_compose.
  erewrite list_fmap_ext, list_fmap_id; [|done].
  rewrite merge_sort_Permutation. apply NoDup_remove_dups.
Qed.

Lemma shard_deltas_elem keys shard added :
  (shard, added) ∈ shard_deltas keys <->
  shard ∈ capacity_shard <$> keys /\ added = in_shard shard keys.
Proof.
  unfold shard_deltas. rewrite list_elem_of_fmap. split.
  - intros (s & [= -> ->] & Hs). split; [|done].
    rewrite merge_sort_Permutation in Hs. by apply elem_of_remove_dups.
  - intros [Hs ->]. exists shard. split; [done|].
    rewrite merge_sort_Permutation. by apply elem_of_remove_dups.
Qed.

(** Every delta fits its shard. *)
Definition deltas_fit (ledger : gmap Z Z) (deltas : list (Z * Z)) : Prop :=
  forall shard added, (shard, added) ∈ deltas ->
  exists n, ledger !! shard = Some n /\ n + added <= HARD_MAX_ROWS_PER_SHARD.

Lemma ledger_insert_Ok ledger deltas ledger' :
  NoDup (fst <$> deltas) -> ledger_insert ledger deltas = Ok ledger' ->
  deltas_fit ledger deltas
  /\ forall shard, ledger' !! shard
       = (fun n => n + default 0 ((list_to_map deltas : gmap Z Z) !! shard)) <$> ledger !! shard.
Proof.
  revert ledger. induction deltas as [|[s d] deltas IH]; intros ledger Hnd Hok; cbn in *.
  - simplify_eq. split; [by intros ? ? ?%elem_of_nil|]. intros shard. rewrite lookup_empty. cbn.
    destruct (ledger' !! shard); cbn; [f_equal; lia|done].
  - apply NoDup_cons in Hnd as [Hs Hnd].
    destruct (ledger !! s) as [n|] eqn:Hn; [|done].
    destruct (Z.ltb_spec (HARD_MAX_ROWS_PER_SHARD - n) d); [done|].
    destruct (IH _ Hnd Hok) as [Hfit Hl]. split.
    + intros shard added [[= -> ->]|Hin]%elem_of_cons; [exists n; split; [done|lia]|].
      destruct (Hfit shard added Hin) as (m & Hm & Hle). exists m. split; [|done].
      rewrite lookup_insert_ne in Hm; [done|]. intros ->. apply Hs. by apply (list_elem_of_fmap_2 fst _ (shard, added)).
    + intros shard. rewrite Hl. destruct (decide (s = shard)) as [->|Hne].
      * rewrite !lookup_insert_eq, Hn. cbn. rewrite (not_elem_of_list_to_map_1 deltas shard Hs). cbn. f_equal. lia.
      * by rewrite !lookup_insert_ne.
Qed.

Lemma ledger_insert_fits ledger deltas :
  NoDup (fst <$> deltas) -> deltas_fit ledger deltas -> exists ledger', ledger_insert ledger deltas = Ok ledger'.
Proof.
  revert ledger. induction deltas as [|[s d] deltas IH]; intros ledger Hnd Hfit; cbn in *; [by eexists|].
  apply NoDup_cons in Hnd as [Hs Hnd].
  destruct (Hfit s d) as (n & Hn & Hle); [by left|]. rewrite Hn.
  destruct (Z.ltb_spec (HARD_MAX_ROWS_PER_SHARD - n) d); [lia|].
  apply IH; [done|]. intros shard added Hin.
  destruct (Hfit shard added) as (m & Hm & Hle'); [by right|]. exists m. split; [|done].
  rewrite lookup_insert_ne; [done|]. intros ->. apply Hs. by apply (list_elem_of_fmap_2 fst _ (shard, added)).
Qed.

Lemma ledger_delete_Ok ledger deltas ledger' :
  NoDup (fst <$> deltas) -> ledger_delete ledger deltas = Ok ledger' ->
  forall shard, ledger' !! shard
    = (fun n => n - default 0 ((list_to_map deltas : gmap Z Z) !! shard)) <$> ledger !! shard.
Proof.
  revert ledger. induction deltas as [|[s d] deltas IH]; intros ledger Hnd Hok shard; cbn in *.
  - simplify_eq. rewrite lookup_empty. cbn. destruct (ledger' !! shard); cbn; [f_equal; lia|done].
  - apply NoDup_cons in Hnd as [Hs Hnd].
    destruct (ledger !! s) as [n|] eqn:Hn; [|done].
    destruct (Z.ltb_spec n d); [done|]. rewrite (IH _ Hnd Hok).
    destruct (decide (s = shard)) as [->|Hne].
    + rewrite !lookup_insert_eq, Hn. cbn. rewrite (not_elem_of_list_to_map_1 deltas shard Hs). cbn. f_equal. lia.
    + by rewrite !lookup_insert_ne.
Qed.

Lemma shard_deltas_lookup keys shard :
  default 0 ((list_to_map (shard_deltas keys) : gmap Z Z) !! shard) = in_shard shard keys.
Proof.
  destruct (decide (shard ∈ capacity_shard <$> keys)) as [Hin|Hin].
  - erewrite elem_of_list_to_map_1; [done|apply shard_deltas_NoDup|]. by apply shard_deltas_elem.
  - rewrite not_elem_of_list_to_map_1; [by rewrite in_shard_none|].
    intros ([s d] & -> & Hs)%list_elem_of_fmap. apply shard_deltas_elem in Hs. by destruct Hs.
Qed.

(** * The invariant *)

Record Fixed_wf (db : FixedDb) : Prop := {
  fd_ledger : forall shard, ledger db !! shard
    = if decide (0 <= shard <= 255) then Some (shard_rows (windows db) shard) else None;
  fd_shards : forall key, is_Some (windows db !! key) -> 0 <= capacity_shard key <= 255;
  fd_maximum : forall shard, shard_rows (windows db) shard <= HARD_MAX_ROWS_PER_SHARD;
  fd_rows : map_Forall (fun key row => window_row_ok key row = true) (windows db);
}.

Lemma shard_rows_empty {A} shard : shard_rows (∅ : gmap CounterKey A) shard = 0.
Proof. unfold shard_rows. by rewrite map_filter_empty, map_size_empty. Qed.

Lemma FixedDb_new_wf : Fixed_wf FixedDb_new.
Proof.
  split; cbn [FixedDb_new windows ledger].
  - intros shard. rewrite shard_rows_empty. case_decide as Hs.
    + apply elem_of_list_to_map_1.
      * rewrite <- list_fmap_compose. apply (NoDup_fmap_2 _), NoDup_seq.
      * apply list_elem_of_fmap. exists (Z.to_nat shard). split; [f_equal; lia|].
        apply elem_of_seq. lia.
    + apply not_elem_of_list_to_map_1. rewrite <- list_fmap_compose.
      intros (n & -> & Hn)%list_elem_of_fmap. apply elem_of_seq in Hn. cbn in *. lia.
  - intros key [row Hrow]. by rewrite lookup_empty in Hrow.
  - intros shard. rewrite shard_rows_empty. unfold HARD_MAX_ROWS_PER_SHARD. lia.
  - apply map_Forall_empty.
Qed.

Lemma upsert_all_keys now ws inputs key :
  let '(ws', inserted, _) := upsert_all now ws inputs in
  is_Some (ws' !! key) -> is_Some (ws !! key) \/ key ∈ inserted.
Proof.
  revert ws. induction inputs as [|input inputs IH]; intros ws; cbn; [auto|].
  set (row := upsert_row now input (ws !! ui_key input)).
  specialize (IH (match row with Some row => <[ui_key input:=row]> ws | None => ws end)).
  destruct (upsert_all _ _ inputs) as [[ws' inserted] out]. intros [Hk|Hk]%IH.
  - destruct row as [row|]; [|by left].
    destruct (decide (ui_key input = key)) as [<-|Hne]; [|rewrite lookup_insert_ne in Hk by done; by left].
    destruct (ws !! ui_key input); [by left; eexists|right; by left].
  - right. destruct (ws !! ui_key input); [done|by right].
Qed.

(** An upsert adds the rows of the keys it inserts, and touches only rows it
    was given. *)
Lemma upsert_all_shards now ws inputs :
  let '(ws', inserted, out) := upsert_all now ws inputs in
  (forall shard, shard_rows ws' shard = shard_rows ws shard + in_shard shard inserted)
  /\ forall P : CounterKey -> WindowRow -> Prop, map_Forall P ws ->
       Forall (fun '(key, row) => from_option (P key) True row) (zip (ui_key <$> inputs) out) ->
       map_Forall P ws'.
Proof.
  revert ws. induction inputs as [|input inputs IH]; intros ws; cbn.
  { split; [unfold in_shard; cbn; lia|done]. }
  set (row := upsert_row now input (ws !! ui_key input)).
  specialize (IH (match row with Some row => <[ui_key input:=row]> ws | None => ws end)).
  destruct (upsert_all _ _ inputs) as [[ws' inserted] out]. destruct IH as [Hrows Hall]. split.
  - intros shard. rewrite Hrows. subst row. destruct (ws !! ui_key input) as [stored|] eqn:Hk.
    + destruct (upsert_row now input (Some stored)) as [row|]; [|done].
      by rewrite (shard_rows_insert_old _ _ _ _ _ Hk).
    + cbn [upsert_row]. rewrite (shard_rows_insert_new _ _ _ _ Hk), in_shard_cons. lia.
  - intros P HP Hout. cbn in Hout. apply Forall_cons in Hout as [Hrow Hout].
    apply Hall; [|done]. destruct row as [row|]; [|done]. by apply map_Forall_insert_2.
Qed.

Lemma upsert_sql_wf {E} `{SqlxError E} db inputs now response_now :
  Fixed_wf db -> Fixed_wf (upsert_sql db inputs now response_now).1.
Proof.
  intros Hwf. unfold upsert_sql.
  pose proof (fun key => upsert_all_keys now (windows db) inputs key) as Hkeys.
  pose proof (upsert_all_shards now (windows db) inputs) as Hall.
  destruct (upsert_all now (windows db) inputs) as [[ws' inserted] out]. destruct Hall as [Hrows Hall].
  destruct (bool_decide _); [|done]. cbn [negb].
  destruct (forallb _ _) eqn:Hchecked; [|done]. cbn [negb].
  destruct (ledger_insert _ _) as [ledger'|code] eqn:Hins; [|done].
  apply ledger_insert_Ok in Hins as [Hfit Hl]; [|apply shard_deltas_NoDup].
  split; cbn [fst windows ledger].
  - intros shard. rewrite Hl, (fd_ledger db Hwf), shard_deltas_lookup, Hrows. by case_decide.
  - intros key [Hk|Hk]%Hkeys; [by apply (fd_shards db Hwf)|].
    destruct (Hfit (capacity_shard key) (in_shard (capacity_shard key) inserted)) as (n & Hn & _).
    { apply shard_deltas_elem. split; [|done]. by apply list_elem_of_fmap_2. }
    rewrite (fd_ledger db Hwf) in Hn. by case_decide.
  - intros shard. rewrite Hrows. destruct (decide (shard ∈ capacity_shard <$> inserted)) as [Hin|Hin].
    + destruct (Hfit shard (in_shard shard inserted)) as (n & Hn & Hle); [by apply shard_deltas_elem|].
      rewrite (fd_ledger db Hwf) in Hn. case_decide; [|done]. simplify_eq. lia.
    + rewrite in_shard_none by done. pose proof (fd_maximum db Hwf shard). lia.
  - apply Hall; [apply fd_rows, Hwf|]. apply Forall_forall. intros [key row] Hin.
    apply forallb_forall with (x := (key, row)) in Hchecked; [by destruct row|].
    by apply list_elem_of_In.
Qed.

(** ** Cleanup *)

Lemma expired_keys_elem db now key :
  key ∈ expired_keys db now <->
  exists row, windows db !! key = Some row /\ w_expires_at row <= now.
Proof.
  unfold expired_keys. rewrite list_elem_of_fmap. split.
  - intros ([x key'] & -> & Hin). rewrite merge_sort_Permutation in Hin.
    apply list_elem_of_fmap in Hin as ([key row] & [= -> ->] & Hin).
    apply list_elem_of_filter in Hin as [Hle Hin]. exists row.
    split; [by apply elem_of_map_to_list|done].
  - intros (row & Hrow & Hle). exists (w_expires_at row, key). split; [done|].
    rewrite merge_sort_Permutation. apply list_elem_of_fmap. exists (key, row). split; [done|].
    apply list_elem_of_filter. split; [done|]. by apply elem_of_map_to_list.
Qed.

Lemma expired_keys_NoDup db now : NoDup (expired_keys db now).
Proof.
  unfold expired_keys. rewrite merge_sort_Permutation, <- list_fmap_compose.
  erewrite (list_fmap_ext _ fst) by (by intros ? [key row]).
  eapply sublist_NoDup; [apply (NoDup_fst_map_to_list (windows db))|]. apply fmap_sublist, sublist_filter.
Qed.

Lemma delete_all_shards {A} (ws : gmap CounterKey A) deleted :
  NoDup deleted -> (forall key, key ∈ deleted -> is_Some (ws !! key)) ->
  let ws' := foldl (fun ws key => delete key ws) ws deleted in
  (forall shard, shard_rows ws' shard = shard_rows ws shard - in_shard shard deleted)
  /\ ws' ⊆ ws.
Proof.
  revert ws. induction deleted as [|key deleted IH]; intros ws Hnd Hall; cbn.
  { split; [unfold in_shard; cbn; lia|done]. }
  apply NoDup_cons in Hnd as [Hk Hnd].
  destruct (Hall key) as [row Hrow]; [by left|].
  destruct (IH (delete key ws) Hnd) as [Hrows Hsub].
  - intros key' Hin. rewrite lookup_delete_ne by congruence. apply Hall. by right.
  - split; [|etrans; [done|apply delete_subseteq]]. intros shard.
    rewrite Hrows, (shard_rows_delete _ _ _ _ Hrow), in_shard_cons. lia.
Qed.

Lemma cleanup_sql_wf {E} `{SqlxError E} db maximum_rows now :
  Fixed_wf db -> Fixed_wf (cleanup_sql db maximum_rows now).1.
Proof.
  intros Hwf. unfold cleanup_sql.
  set (expired := take _ (expired_keys db now)). set (locked := forallb _ expired).
  assert (Hdel : NoDup (if locked then expired else [])
    /\ forall key, key ∈ (if locked then expired else []) -> is_Some (windows db !! key)).
  { destruct locked; [|split; [constructor|by intros ? ?%elem_of_nil]]. split.
    - eapply sublist_NoDup; [apply (expired_keys_NoDup db now)|apply sublist_take].
    - intros key Hin. eapply subseteq_take in Hin. by apply expired_keys_elem in Hin as (row & Hr & _). }
  destruct Hdel as [Hnd Hall].
  destruct (ledger_delete _ _) as [ledger'|code] eqn:Hl; [|done].
  pose proof (ledger_delete_Ok _ _ _ (shard_deltas_NoDup _) Hl) as Hledger.
  destruct (delete_all_shards (windows db) _ Hnd Hall) as [Hrows Hsub].
  split; cbn [fst windows ledger].
  - intros shard. rewrite Hledger, (fd_ledger db Hwf), shard_deltas_lookup, Hrows. by case_decide.
  - intros key [row Hk]. apply (fd_shards db Hwf). exists row. by eapply lookup_weaken.
  - intros shard. rewrite Hrows. pose proof (fd_maximum db Hwf shard).
    pose proof (in_shard_nonneg shard (if locked then expired else [])). lia.
  - intros key row Hk. apply (fd_rows db Hwf). by eapply lookup_weaken.
Qed.

(** Every statement keeps the tables well formed, whatever its arguments. *)
Lemma fixed_sql_wf {E} `{SqlxError E} started finished A (q : FixedQuery E A) db :
  Fixed_wf db -> Fixed_wf (fixed_sql started finished A q db).1.
Proof. intros Hwf. destruct q; cbn; [done..|by apply upsert_sql_wf|by apply cleanup_sql_wf]. Qed.

(** The table's size is what the ledger says. *)
Lemma zsum_unit key (shards : list Z) : NoDup shards ->
  zsum (unit_of key <$> shards) = if decide (capacity_shard key ∈ shards) then 1 else 0.
Proof.
  induction 1 as [|shard shards Hs Hnd IH]; [done|].
  change (zsum (unit_of key <$> shard :: shards))
    with (unit_of key shard + zsum (unit_of key <$> shards)).
  rewrite IH. unfold unit_of.
  repeat case_decide; set_solver || lia.
Qed.

Lemma zsum_fmap_add {A} (f g : A -> Z) l :
  zsum ((fun x => f x + g x) <$> l) = zsum (f <$> l) + zsum (g <$> l).
Proof.
  induction l as [|x l IH]; [done|]. rewrite !fmap_cons. unfold zsum in *. cbn [foldr]. lia.
Qed.

Lemma size_by_shard {A} (ws : gmap CounterKey A) :
  (forall key, is_Some (ws !! key) -> 0 <= capacity_shard key <= 255) ->
  Z.of_nat (size ws) = zsum (shard_rows ws <$> seqZ 0 256).
Proof.
  induction ws as [|key row ws Hk IH] using map_ind; intros Hall.
  { rewrite map_size_empty. symmetry. apply (zsum_map_const _ 0). intros. apply shard_rows_empty. }
  rewrite map_size_insert_None by done.
  erewrite list_fmap_ext by (intros; by apply shard_rows_insert_new).
  rewrite zsum_fmap_add, <- IH.
  2:{ intros key' [row' Hk']. apply Hall. rewrite lookup_insert_ne by congruence. by eexists. }
  rewrite zsum_unit by apply NoDup_seqZ. rewrite decide_True; [lia|]. apply elem_of_seqZ.
  specialize (Hall key ltac:(rewrite lookup_insert_eq; by eexists)). lia.
Qed.

Lemma Fixed_wf_size db : Fixed_wf db -> Z.of_nat (size (windows db)) <= 16777216.
Proof.
  intros Hwf. rewrite (size_by_shard _ (fd_shards db Hwf)).
  etrans; [apply (zsum_map_le _ (fun _ => HARD_MAX_ROWS_PER_SHARD)); intros shard _; apply fd_maximum, Hwf|].
  rewrite (zsum_map_const _ HARD_MAX_ROWS_PER_SHARD) by done. rewrite length_seqZ.
  unfold HARD_MAX_ROWS_PER_SHARD. lia.
Qed.
