(* ===== verification/PgAdmission.v ===== *)
(** [runlimit-postgres/src/admission.rs] and the admission half of [lib.rs]:
    the fixed-window PostgreSQL limiter.  Every value decoded from a reply is
    checked; the model follows the decoding and its failures. *)

From Stdlib Require Import Ascii String.
From stdpp Require Import prelude list gmap sorting.
From S2P Require Import Prelude RustStd Identifier Policy Decision AttemptPolicy Key Check Observation OrdSet Shards PgErrors PgConfig PgSession PgTables.
Open Scope string_scope.
Open Scope Z_scope.
Open Scope list_scope.

Definition STORED_USAGE_EXCEEDS_POLICY_LIMIT : string := "stored usage exceeds its policy limit".
Definition BATCH_UPDATE_RETURNED_UNDECODABLE_USAGE : string :=
  "batch update returned undecodable usage".

(** * Outcomes of a transaction *)

Inductive Admission :=
| Admission_Allowed (allowances : list Allowance)
| Admission_Denied (index : nat) (denial : Denial)
| Admission_ShadowDenied (index : nat) (denial : QuotaDenial).

Definition single_decision {E} (admission : Admission) : Result (CheckError E) Decision :=
  match admission with
  | Admission_Allowed [allowance] => Ok (Decision_allowed allowance)
  | Admission_Allowed _ =>
      Err (storage_invariant "single check returned a different number of allowances")
  | Admission_Denied 0 denial => Ok (Decision_denied denial)
  | Admission_ShadowDenied 0 denial => Ok (Decision_shadow_denied denial)
  | Admission_Denied _ _ | Admission_ShadowDenied _ _ =>
      Err (storage_invariant "single check denied an input other than its only check")
  end.

Definition batch_decision {E} (batch_size : nat) (admission : Admission)
    : Result (CheckError E) BatchDecision :=
  let shaped :=
    map_err (fun _ => storage_invariant "batch decision did not match the submitted batch")
      (match admission with
       | Admission_Allowed allowances => BatchDecision_allowed allowances
       | Admission_Denied index denial => BatchDecision_denied index batch_size denial
       | Admission_ShadowDenied index denial => BatchDecision_shadow_denied index batch_size denial
       end) in
  match admission with
  | Admission_Allowed allowances =>
      if Nat.eqb (length allowances) batch_size then shaped
      else Err (storage_invariant
        "allowed batch returned a different number of allowances than submitted checks")
  | _ => shaped
  end.

(** * Inputs of the statements *)

(** Stable insertion sort by a key ([sort_unstable_by_key]; the keys of a
    batch are distinct), and [dedup]. *)
Fixpoint insert_by {A K} `{Ordered K} (key : A -> K) (x : A) (l : list A) : list A :=
  match l with
  | [] => [x]
  | y :: l' => match cmp (key y) (key x) with Lt | Eq => y :: insert_by key x l' | Gt => x :: l end
  end.
Definition sort_by {A K} `{Ordered K} (key : A -> K) (l : list A) : list A :=
  foldl (fun acc x => insert_by key x acc) [] l.

Fixpoint dedup (l : list Z) : list Z :=
  match l with
  | x :: ((y :: _) as l') => if x =? y then dedup l' else x :: dedup l'
  | _ => l
  end.

(** [sqlx::types::PgInterval]: an interval of whole microseconds, made from
    durations it holds exactly. *)
Class PgIntervals := {
  PgInterval_try_from : Duration -> option Z;
}.

Record BatchSqlInput := mkBatchSqlInput {
  policy_ids : list str;
  scope_ids : list str;
  fingerprints : list bytes;
  subjects : list bytes;
  capacity_shards : list Z;
  lock_input_positions : list Z;
  advisory_lock_ids : list Z;
  window_sizes : list Z;
  costs : list Z;
  limits : list Z;
}.

Definition database_integer (value : Z) : Outcome Z := expect (try_from i64_max value).

(** [map] over a list of a function that may panic. *)
Fixpoint mapO {A B} (f : A -> Outcome B) (l : list A) : Outcome (list B) :=
  match l with
  | [] => Done []
  | x :: l => y ← f x; ys ← mapO f l; mret (y :: ys)
  end.

(** The positions of the inputs in lock order. *)
Definition ordered_indices (counter_keys : list CounterKey) : list nat :=
  sort_by (fun index => default (mkCounterKey (from_digest []) (mkSubjectKey []))
                          (counter_keys !! index)) (seq 0 (length counter_keys)).

Definition from_checks `{PgIntervals} (sha256 : bytes -> bytes)
    (checks : list (Check FixedWindowPolicy)) : Outcome BatchSqlInput :=
  let counter_keys := map Check_counter_key checks in
  lock_input_positions ←
    mapO (fun index => expect (try_from i64_max (Z.of_nat index + 1))) (ordered_indices counter_keys);
  let advisory_lock_ids :=
    dedup (sort_by id (map (advisory_lock_id sha256) counter_keys)) in
  window_sizes ← mapO (fun check =>
    expect (PgInterval_try_from (QuotaPeriod_duration (fw_window (check_policy check))))) checks;
  costs ← mapO (fun check => database_integer (check_cost check)) checks;
  limits ← mapO (fun check =>
    database_integer (Capacity_get (fw_limit (check_policy check)))) checks;
  mret (mkBatchSqlInput
    (map (fun check => PolicyId_as_str (fw_id (check_policy check))) checks)
    (map (fun check => ScopeId_as_str (fw_scope (check_policy check))) checks)
    (map (fun key => fingerprint_bytes (ck_fingerprint key)) counter_keys)
    (map (fun key => SubjectKey_as_bytes (ck_subject key)) counter_keys)
    (map capacity_shard counter_keys)
    lock_input_positions advisory_lock_ids window_sizes costs limits).

(** * Pending results *)

(** [chrono]: the duration between two instants in microseconds; negative
    differences have no [Duration]. *)
Definition to_std (micros : Z) : option Duration :=
  if micros <? 0 then None else Some (mkDuration (micros * 1000)).

Record PendingAllowance := mkPendingAllowance { pending_allowance : Allowance }.

Definition PendingAllowance_new {E} (limit : Capacity) (used : Z) (reset_from_sample : Duration)
    : Result (CheckError E) PendingAllowance :=
  remaining ← ok_or (checked_sub u64_max (Capacity_get limit) used)
                (storage_invariant STORED_USAGE_EXCEEDS_POLICY_LIMIT);
  allowance ← map_err (fun _ => storage_invariant STORED_USAGE_EXCEEDS_POLICY_LIMIT)
                (Allowance_new limit remaining reset_from_sample);
  mret (mkPendingAllowance allowance).

Definition PendingAllowance_finish (self : PendingAllowance) (authoritative_elapsed : Duration)
    : Outcome Allowance :=
  let a := pending_allowance self in
  expect_ok (Allowance_new (Allowance_capacity a) (Allowance_available a)
    (Duration_saturating_sub (Delay_duration (Allowance_replenishes_after a)) authoritative_elapsed)).

Record PendingQuotaDenial := mkPendingQuotaDenial {
  pqd_limit : Capacity;
  pqd_retry_from_sample : Duration;
}.

Definition PendingQuotaDenial_finish (self : PendingQuotaDenial) (authoritative_elapsed : Duration)
    : QuotaDenial :=
  QuotaDenial_new (pqd_limit self)
    (Duration_saturating_sub (pqd_retry_from_sample self) authoritative_elapsed).

Inductive PendingDenial :=
| PendingDenial_Quota (denial : PendingQuotaDenial)
| PendingDenial_StorageCapacity.

Definition PendingDenial_finish (self : PendingDenial) (authoritative_elapsed : Duration) : Denial :=
  match self with
  | PendingDenial_Quota denial =>
      QuotaExceeded (PendingQuotaDenial_finish denial authoritative_elapsed)
  | PendingDenial_StorageCapacity => StorageCapacity None
  end.

Inductive PendingBatchOutcome :=
| PendingBatchOutcome_Allowed (allowances : list PendingAllowance)
| PendingBatchOutcome_Denied (index : nat) (denial : PendingDenial).

Record BatchPreflight := mkBatchPreflight {
  bp_database_now : Z;
  bp_response_now : Z;
  bp_denial : option (nat * PendingDenial);
}.

Definition authoritative_elapsed (start finish : Z) : Duration :=
  default DURATION_ZERO (to_std (finish - start)).

Definition duration_until {E} (expires_at database_now : Z) : Result (CheckError E) Duration :=
  ok_or (to_std (expires_at - database_now)) (storage_invariant "stored window is already expired").

(** [usize::try_from] of a [BIGINT]. *)
Definition usize_try_from (v : Z) : option nat := if v <? 0 then None else Some (Z.to_nat v).

(** A decoded column, and a required value. *)
Definition column {E A} (detail : string) (c : Col E A) : Result (CheckError E) A :=
  map_err (storage_decode_invariant detail) c.
Definition required {E A} (detail : string) (v : option A) : Result (CheckError E) A :=
  ok_or v (storage_invariant detail).

Definition read_used {E} (row : UpsertRow E) : Result (CheckError E) Z :=
  used ← column BATCH_UPDATE_RETURNED_UNDECODABLE_USAGE (ur_used row);
  if used <? 0 then Err (storage_invariant "stored usage is negative") else Ok used.

Definition read_expiry {E} (row : UpsertRow E) : Result (CheckError E) Z :=
  column "batch update returned undecodable expiry" (ur_window_expires_at row).

(** * Decoding the replies *)

Section Decoding.
Context {E : Type}.
Notation Res := (Result (CheckError E)).

(** The loop of [first_capacity_denial] over the returned rows;
    [pending_insertions] counts the insertions ahead of each shard. *)
Fixpoint capacity_loop (expected_shards : list Z) (maximum_rows_per_shard : Z)
    (pending_insertions : list Z) (rows : list (CapacityRow E))
    : Res (option (nat * PendingDenial)) :=
  match rows with
  | [] => Ok None
  | row :: rows =>
      input_index ← column "capacity preflight returned an undecodable input index"
                      (cr_input_index row);
      input_index ← required "capacity preflight returned an invalid input index"
                      (usize_try_from input_index);
      expected_shard ← required "capacity preflight returned an out-of-range input index"
                         (expected_shards !! input_index);
      returned_shard ← column "capacity preflight returned an undecodable shard"
                         (cr_capacity_shard row);
      if negb (returned_shard =? expected_shard)
      then Err (storage_invariant "capacity preflight returned a mismatched shard")
      else
        shard_index ← required "capacity preflight returned a negative shard"
                        (usize_try_from returned_shard);
        pending ← required "capacity preflight returned an out-of-range shard"
                    (pending_insertions !! shard_index);
        stored_rows ← column "capacity preflight returned an undecodable ledger count"
                        (cr_row_count row);
        stored_rows ← required "capacity shard ledger row is missing" stored_rows;
        stored_rows ← required "capacity shard ledger count is negative"
                        (if stored_rows <? 0 then None else Some stored_rows);
        projected_rows ← required "capacity shard ledger count overflowed"
                           (rows ← checked_add u64_max stored_rows pending;
                            checked_add u64_max rows 1);
        if maximum_rows_per_shard <? projected_rows
        then Ok (Some (input_index, PendingDenial_StorageCapacity))
        else capacity_loop expected_shards maximum_rows_per_shard
               (<[shard_index := pending + 1]> pending_insertions) rows
  end.

Definition decode_preflight (checks : list (Check FixedWindowPolicy)) (row : PreflightRow E)
    : Res BatchPreflight :=
  database_now ← column "batch preflight returned an undecodable database time"
                   (pr_database_now row);
  response_now ← column "batch preflight returned an undecodable response time"
                   (pr_response_now row);
  denied_index ← column "batch preflight returned an undecodable denial index"
                   (pr_input_index row);
  denied_expiry ← column "batch preflight returned an undecodable denial expiry"
                    (pr_window_expires_at row);
  denial ←
    match denied_index, denied_expiry with
    | Some input_index, Some expires_at =>
        input_index ← required "batch preflight returned an invalid input index"
                        (usize_try_from input_index);
        check ← required "batch preflight returned an out-of-range input index"
                  (checks !! input_index);
        retry_from_sample ← duration_until expires_at database_now;
        mret (Some (input_index,
                PendingDenial_Quota (mkPendingQuotaDenial (fw_limit (check_policy check))
                                       retry_from_sample)))
    | None, None => Ok None
    | _, _ => Err (storage_invariant "batch preflight returned an incomplete denial")
    end;
  mret (mkBatchPreflight database_now response_now denial).

(** The loop of [upsert_batch] over the returned rows. *)
Fixpoint upsert_loop (checks : list (Check FixedWindowPolicy)) (database_now : Z)
    (output_position : nat) (rows : list (UpsertRow E)) : Res (list PendingAllowance) :=
  match rows with
  | [] => Ok []
  | row :: rows =>
      input_index ← column "batch update returned an undecodable input index" (ur_input_index row);
      input_index ← required "batch evaluation returned an invalid input index"
                      (usize_try_from input_index);
      check ← required "batch evaluation returned an out-of-range input index"
                (checks !! input_index);
      expires_at ← read_expiry row;
      remaining_from_sample ← duration_until expires_at database_now;
      if negb (Nat.eqb input_index output_position)
      then Err (storage_invariant "allowed batch decisions were not returned in caller order")
      else
        used ← read_used row;
        allowance ← PendingAllowance_new (fw_limit (check_policy check)) used remaining_from_sample;
        allowances ← upsert_loop checks database_now (S output_position) rows;
        mret (allowance :: allowances)
  end.

Definition decode_upsert (checks : list (Check FixedWindowPolicy)) (database_now : Z)
    (rows : list (UpsertRow E)) : Res (list PendingAllowance * Z) :=
  match rows with
  | [] => Err (storage_invariant "allowed batch update returned no decisions")
  | first :: _ =>
      response_now ← column "batch update returned an undecodable response time"
                       (ur_response_now first);
      allowances ← upsert_loop checks database_now 0 rows;
      if negb (Nat.eqb (length allowances) (length checks))
      then Err (storage_invariant "allowed batch returned an incomplete decision set")
      else mret (allowances, response_now)
  end.
End Decoding.

(** * The transaction *)

Section Transaction.
Context {E : Type} `{SqlxError E}.
Notation Tx := (Tx E FixedDb (FixedQuery E) (CheckError E)).

(** [reusable_check_error]. *)
Definition reusable_check_error (error : CheckError E) : ConnectionOutcome (CheckError E) :=
  Reusable error.
Definition checked_reply {A} (r : Result (CheckError E) A) : Tx A :=
  lift (map_err reusable_check_error r).

Definition acquire_advisory_locks (tx : CheckTransaction) (ids : list Z) : Tx unit :=
  _ ← execute tx CheckPhase_AcquiringLogicalKeyLocks (BATCH_ADVISORY_LOCK_SQL ids);
  mret tt.

Definition acquire_existing_row_locks (tx : CheckTransaction) (input : BatchSqlInput) : Tx unit :=
  _ ← execute tx CheckPhase_AcquiringCounterRowLocks
        (BATCH_ROW_LOCK_SQL (fingerprints input) (subjects input) (lock_input_positions input));
  mret tt.

Definition first_capacity_denial (tx : CheckTransaction) (input : BatchSqlInput)
    (maximum_rows_per_shard : Z) : Tx (option (nat * PendingDenial)) :=
  rows ← fetch_all tx CheckPhase_AcquiringCapacityShardLocks
           (BATCH_CAPACITY_LOCK_SQL (fingerprints input) (subjects input) (capacity_shards input));
  checked_reply (capacity_loop (capacity_shards input) maximum_rows_per_shard
                   (replicate (Z.to_nat CAPACITY_SHARD_COUNT) 0) rows).

Definition preflight_batch (tx : CheckTransaction) (input : BatchSqlInput)
    (checks : list (Check FixedWindowPolicy)) : Tx BatchPreflight :=
  row ← fetch_one tx CheckPhase_PreflightingCounters
          (BATCH_PREFLIGHT_SQL (fingerprints input) (subjects input) (costs input) (limits input));
  checked_reply (decode_preflight checks row).

Definition upsert_batch (tx : CheckTransaction) (input : BatchSqlInput)
    (checks : list (Check FixedWindowPolicy)) (database_now : Z)
    : Tx (list PendingAllowance * Z) :=
  rows ← fetch_all tx CheckPhase_UpdatingCounters
           (BATCH_UPSERT_SQL (policy_ids input) (scope_ids input) (fingerprints input)
              (subjects input) (window_sizes input) (costs input) (limits input) database_now);
  checked_reply (decode_upsert checks database_now rows).

(** The earlier of the two denials, in caller order; quota on ties. *)
Definition first_denial (capacity quota : option (nat * PendingDenial))
    : option (nat * PendingDenial) :=
  match capacity, quota with
  | Some capacity, Some quota => Some (if Nat.ltb capacity.1 quota.1 then capacity else quota)
  | Some capacity, None => Some capacity
  | None, Some quota => Some quota
  | None, None => None
  end.

Definition execute_batch (tx : CheckTransaction) (input : BatchSqlInput)
    (checks : list (Check FixedWindowPolicy)) (maximum_rows_per_shard : Z)
    : Tx (PendingBatchOutcome * Duration) :=
  capacity_denial ← first_capacity_denial tx input maximum_rows_per_shard;
  preflight ← preflight_batch tx input checks;
  match first_denial capacity_denial (bp_denial preflight) with
  | Some (index, denial) =>
      mret (PendingBatchOutcome_Denied index denial,
            authoritative_elapsed (bp_database_now preflight) (bp_response_now preflight))
  | None =>
      '(allowances, response_now) ← upsert_batch tx input checks (bp_database_now preflight);
      mret (PendingBatchOutcome_Allowed allowances,
            authoritative_elapsed (bp_database_now preflight) response_now)
  end.

(** The admission of a denial: the first check owns the quota mode. *)
Definition denied_admission (checks : list (Check FixedWindowPolicy)) (index : nat)
    (denial : PendingDenial) (elapsed : Duration) : Outcome Admission :=
  first ← expect (head checks);
  mret (match denial, fw_quota_mode (check_policy first) with
        | PendingDenial_Quota denial, Shadow =>
            Admission_ShadowDenied index (PendingQuotaDenial_finish denial elapsed)
        | denial, _ => Admission_Denied index (PendingDenial_finish denial elapsed)
        end).

Definition run_check_transaction_inner {D} (input : BatchSqlInput)
    (checks : list (Check FixedWindowPolicy)) (maximum_rows_per_shard : Z) (deadline : Z)
    (build : Admission -> Result (CheckError E) D) : Tx (ConnectionOutcome D) :=
  tx ← begin_ deadline;
  _ ← acquire_advisory_locks tx (advisory_lock_ids input);
  _ ← acquire_existing_row_locks tx input;
  '(pending, elapsed) ← execute_batch tx input checks maximum_rows_per_shard;
  match pending with
  | PendingBatchOutcome_Denied index denial =>
      admission ← expect_tx (denied_admission checks index denial elapsed);
      decision ← checked_reply (build admission);
      finish_denied_transaction decision
  | PendingBatchOutcome_Allowed allowances =>
      allowances ← expect_tx (mapO (fun a => PendingAllowance_finish a elapsed) allowances);
      decision ← checked_reply (build (Admission_Allowed allowances));
      _ ← commit tx;
      mret (Reusable decision)
  end.

(** [run_check_transaction]: [None] when it panics. *)
Definition run_check_transaction {D} (input : BatchSqlInput)
    (checks : list (Check FixedWindowPolicy)) (maximum_rows_per_shard : Z) (deadline : Z)
    (build : Admission -> Result (CheckError E) D) (s : Session E FixedDb (FixedQuery E))
    : Session E FixedDb (FixedQuery E) * Outcome (ConnectionOutcome (Result (CheckError E) D)) :=
  match run_check_transaction_inner input checks maximum_rows_per_shard deadline build s with
  | (s, Done (Ok outcome)) => (s, Done (ConnectionOutcome_map outcome Ok))
  | (s, Done (Err outcome)) => (s, Done (ConnectionOutcome_map outcome Err))
  | (s, Panic) => (s, Panic)
  end.
End Transaction.
