(* ===== verification/PgMaintenance.v ===== *)
(** [runlimit-postgres/src/maintenance.rs]: the bounded cleanup transactions
    of the PostgreSQL backends. *)

From Stdlib Require Import Ascii String.
From stdpp Require Import prelude list gmap.
From S2P Require Import Prelude RustStd Identifier Policy Decision AttemptPolicy Key Check Observation PgErrors PgConfig PgSession PgTables.
Open Scope Z_scope.
Open Scope list_scope.

Section Maintenance.
Context {E Db : Type} {Query : Type -> Type} `{SqlxError E} `{Statements Query}.
Notation Tx := (Tx E Db Query (MaintenanceError E)).

(** [timeout(acquire_timeout, pool.acquire())]; [None] when the budget runs
    out. *)
Definition acquire_maintenance_connection (acquired : option (Result E unit))
    : Result (MaintenanceError E) unit :=
  match acquired with
  | None => Err (MaintenanceError_TimedOutBeforeCommit CleanupPhase_AcquiringConnection)
  | Some r => map_err MaintenanceError_Database r
  end.

Definition map_maintenance_error (error : E) (phase : CleanupPhase) : MaintenanceError E :=
  if is_server_timeout error then MaintenanceError_TimedOutBeforeCommit phase
  else MaintenanceError_Database error.

Definition maintenance_before_commit {A} (phase : CleanupPhase)
    (wait : Session E Db Query -> Session E Db Query * option (Result E A)) : Tx A :=
  before_commit (MaintenanceError_TimedOutBeforeCommit phase)
    (fun error => map_maintenance_error error phase) wait.

Definition set_maintenance_server_timeouts (deadline : Z) (phase : CleanupPhase) : Tx unit :=
  now ← read_clock;
  match remaining_server_timeout_settings deadline now with
  | None => fail (Reusable (MaintenanceError_TimedOutBeforeCommit phase))
  | Some (statement_timeout, lock_timeout) =>
      _ ← maintenance_before_commit phase
            (interact (send (set_local_timeouts statement_timeout lock_timeout)));
      mret tt
  end.

Definition commit_maintenance (deadline : Z) : Tx unit :=
  now ← read_clock;
  if deadline <=? now
  then fail (Reusable (MaintenanceError_TimedOutBeforeCommit CleanupPhase_StartingCommit))
  else
    _ ← set_maintenance_server_timeouts deadline CleanupPhase_PreparingCommit;
    before_commit MaintenanceError_CommitTimedOut MaintenanceError_CommitOutcomeUnknown
      (interact send_commit).

(** A cleanup that certainly removed nothing. *)
Definition no_rows_removed (e : MaintenanceError E) : Prop := may_have_removed_rows e = false.

Lemma quiet_maintenance {A} phase
    (answer : Step E Db Query -> Session E Db Query -> Session E Db Query * option (Result E A)) :
  (forall step s, let '(s', _) := answer step s in committed s' = committed s /\ busy s' = busy s) ->
  quiet no_rows_removed (maintenance_before_commit phase (interact answer)).
Proof.
  intros Ha. apply quiet_wait; [done| |done]. intros error. unfold map_maintenance_error.
  by destruct (is_server_timeout error).
Qed.

Lemma quiet_maintenance_timeouts deadline phase :
  quiet no_rows_removed (set_maintenance_server_timeouts deadline phase).
Proof.
  apply quiet_bind; [apply quiet_clock|]. intros now.
  destruct (remaining_server_timeout_settings _ _) as [[st lk]|]; [|by apply quiet_fail].
  apply quiet_bind; [apply quiet_maintenance, send_frame|intros _; apply quiet_ret].
Qed.

Lemma certain_commit_maintenance {D} (published : D -> Prop) deadline (result : D) :
  published result ->
  certain no_rows_removed published (_ ← commit_maintenance deadline; mret (Reusable result)).
Proof.
  intros Hp. apply certain_assoc, certain_bind; [apply quiet_clock|]. intros now.
  destruct (deadline <=? now); [intros s; simpl; by split_and!|].
  apply certain_assoc, certain_bind; [apply quiet_maintenance_timeouts|]. intros _.
  by apply certain_publish.
Qed.
End Maintenance.

(** * The fixed-window cleanup *)

Section FixedCleanup.
Context {E : Type} `{SqlxError E}.
Notation Tx := (Tx E FixedDb (FixedQuery E) (MaintenanceError E)).

Definition run_cleanup_transaction_inner (maximum_rows deadline : Z) : Tx Z :=
  _ ← maintenance_before_commit CleanupPhase_BeginningTransaction (interact send_begin);
  _ ← set_maintenance_server_timeouts deadline CleanupPhase_ConfiguringTimeouts;
  result ← maintenance_before_commit CleanupPhase_DeletingExpiredWindows
             (interact (send (CLEANUP_SQL maximum_rows)));
  _ ← commit_maintenance deadline;
  mret (rows_affected result).

Definition run_cleanup_transaction (maximum_rows deadline : Z)
    (s : Session E FixedDb (FixedQuery E))
    : Session E FixedDb (FixedQuery E) * Outcome (ConnectionOutcome (Result (MaintenanceError E) Z)) :=
  match run_cleanup_transaction_inner maximum_rows deadline s with
  | (s, Done (Ok rows)) => (s, Done (Reusable (Ok rows)))
  | (s, Done (Err outcome)) => (s, Done (ConnectionOutcome_map outcome Err))
  | (s, Panic) => (s, Panic)
  end.
End FixedCleanup.
