(* ===== verification/PgInvariant.v ===== *)
(** Invariants of the tables across transactions: when every statement the
    server answers keeps an invariant of the tables, so does every
    transaction of the client, however it ends and whatever the clock, the
    network and the commits do. *)

From Stdlib Require Import Ascii String.
From stdpp Require Import prelude list gmap sorting.
From S2P Require Import Prelude RustStd Identifier Policy Decision AttemptPolicy Key Check Observation PgErrors PgConfig PgSession PgTables PgMaintenance.
Open Scope Z_scope.
Open Scope list_scope.

Create HintDb preserves discriminated.

Section Preserves.
Context {E Db : Type} {Query : Type -> Type} `{SqlxError E} `{Statements Query} (I : Db -> Prop).
Notation Session := (Session E Db Query).
Notation Step := (Step E Db Query).
Notation Tx := (Tx E Db Query).

Definition sound_step (step : Step) : Prop :=
  match step_reply step with
  | Some reply => forall A (q : Query A) db, I db -> I (reply A q db).1
  | None => True
  end.

Definition session_ok (s : Session) : Prop :=
  I (committed s) /\ I (working s) /\ Forall sound_step (schedule s).

Definition preserves {X A} (m : Tx X A) : Prop := forall s, session_ok s -> session_ok (m s).1.

Definition answer_ok {A} (answer : Step -> Session -> Session * option (Result E A)) : Prop :=
  forall step s, sound_step step -> session_ok s -> session_ok (answer step s).1.

Lemma preserves_ret {X A} (a : A) : preserves (X := X) (mret a).
Proof. by intros s. Qed.
Lemma preserves_fail {X A} (e : ConnectionOutcome X) : preserves (A := A) (fail e).
Proof. by intros s. Qed.
Lemma preserves_lift {X A} (r : Result (ConnectionOutcome X) A) : preserves (lift r).
Proof. by intros s. Qed.
Lemma preserves_expect {X A} (r : Outcome A) : preserves (X := X) (expect_tx r).
Proof. by intros s. Qed.

Lemma preserves_bind {X A B} (m : Tx X A) (f : A -> Tx X B) :
  preserves m -> (forall a, preserves (f a)) -> preserves (m ≫= f).
Proof.
  intros Hm Hf s Hs. unfold mbind, Tx_bind. specialize (Hm s Hs).
  destruct (m s) as [s1 [[a|e]|]]; [by apply Hf|done..].
Qed.

Lemma next_step_ok s : session_ok s -> sound_step (next_step s).1 /\ session_ok (next_step s).2.
Proof.
  intros (Hc & Hw & Hs). unfold next_step. destruct (schedule s) as [|step steps] eqn:E'.
  - split; [done|]. cbn. split; [done|]. split; [done|]. by rewrite E'.
  - apply Forall_cons in Hs as [Hstep Hs]. split; [done|]. by split_and!.
Qed.

Lemma preserves_clock {X} : preserves (X := X) read_clock.
Proof.
  intros s Hs. unfold read_clock. apply next_step_ok in Hs. by destruct (next_step s), Hs.
Qed.

Lemma preserves_wait {X A} (elapsed : X) database
    (answer : Step -> Session -> Session * option (Result E A)) :
  answer_ok answer -> preserves (before_commit elapsed database (interact answer)).
Proof.
  intros Ha s Hs. unfold before_commit, interact. apply next_step_ok in Hs.
  destruct (next_step s) as [step s1]. destruct Hs as [Hstep Hs]. specialize (Ha step s1 Hstep Hs).
  by destruct (answer step s1) as [s2 [[a|e]|]].
Qed.

Lemma send_ok {A} (q : Query A) : answer_ok (send q).
Proof.
  intros step s Hstep Hs. unfold send, sound_step in *. destruct (step_reply step) as [reply|]; [|done].
  destruct Hs as (Hc & Hw & Hs). specialize (Hstep A q (working s) Hw).
  destruct (reply A q (working s)) as [db r]. by split_and!.
Qed.

Lemma send_one_ok {A} (q : Query A) : answer_ok (send_one q).
Proof.
  intros step s Hstep Hs. unfold send_one. pose proof (send_ok q step s Hstep Hs) as Hsend.
  by destruct (send q step s).
Qed.

Lemma send_begin_ok : answer_ok send_begin.
Proof. intros step s _ (Hc & Hw & Hs). by split_and!. Qed.

Lemma send_rollback_ok : answer_ok send_rollback.
Proof. intros step s _ (Hc & Hw & Hs). by split_and!. Qed.

Lemma send_commit_ok : answer_ok send_commit.
Proof.
  intros step s _ (Hc & Hw & Hs). unfold send_commit.
  split_and!; cbn; [|done..]. by case_match.
Qed.

Lemma preserves_denied {X D} (decision : D) : preserves (X := X) (finish_denied_transaction decision).
Proof.
  intros s Hs. pose proof (preserves_wait (X := unit) tt (fun _ => tt) send_rollback send_rollback_ok
    s Hs) as Hw.
  unfold finish_denied_transaction. unfold before_commit in Hw.
  by destruct (interact send_rollback s).
Qed.
End Preserves.

#[export] Hint Resolve preserves_ret preserves_fail preserves_lift preserves_expect preserves_clock
  preserves_denied send_ok send_one_ok send_begin_ok send_rollback_ok send_commit_ok : preserves.

(** Walks through a transaction: its binds, branches and waits. *)
Ltac preserving :=
  repeat first
    [ progress auto with preserves
    | apply preserves_bind; [|intros ?]
    | apply preserves_wait
    | match goal with
      | |- preserves _ (if ?b then _ else _) => destruct b
      | |- preserves _ (match ?x with _ => _ end) => destruct x
      end ].

Section PreservesOperations.
Context {E Db : Type} {Query : Type -> Type} `{SqlxError E} `{Statements Query} (I : Db -> Prop).
Notation preserves := (preserves (E := E) (Query := Query) I).

Lemma preserves_check_timeouts deadline phase : preserves (set_check_server_timeouts deadline phase).
Proof. unfold set_check_server_timeouts, check_before_commit. preserving. Qed.
Lemma preserves_begin deadline : preserves (begin_ deadline).
Proof. unfold begin_, check_before_commit. preserving. Qed.
#[local] Hint Resolve preserves_check_timeouts : preserves.
Lemma preserves_execute {A} tx phase (q : Query A) : preserves (execute tx phase q).
Proof. unfold execute, prepare, check_before_commit. preserving. Qed.
Lemma preserves_fetch_all {A} tx phase (q : Query A) : preserves (fetch_all tx phase q).
Proof. unfold fetch_all, prepare, check_before_commit. preserving. Qed.
Lemma preserves_fetch_one {A} tx phase (q : Query A) : preserves (fetch_one tx phase q).
Proof. unfold fetch_one, prepare, check_before_commit. preserving. Qed.
Lemma preserves_commit tx : preserves (commit tx).
Proof. unfold commit, commit_check, prepare. preserving. Qed.

Lemma preserves_maintenance {A} phase
    (answer : Step E Db Query -> Session E Db Query -> Session E Db Query * option (Result E A)) :
  answer_ok I answer -> preserves (maintenance_before_commit phase (interact answer)).
Proof. apply preserves_wait. Qed.
Lemma preserves_maintenance_timeouts deadline phase :
  preserves (set_maintenance_server_timeouts deadline phase).
Proof. unfold set_maintenance_server_timeouts, maintenance_before_commit. preserving. Qed.
#[local] Hint Resolve preserves_maintenance_timeouts : preserves.
Lemma preserves_commit_maintenance deadline : preserves (commit_maintenance deadline).
Proof. unfold commit_maintenance. preserving. Qed.
End PreservesOperations.

#[export] Hint Resolve preserves_begin preserves_execute preserves_fetch_all preserves_fetch_one
  preserves_commit preserves_maintenance preserves_maintenance_timeouts
  preserves_commit_maintenance : preserves.
