(* ===== verification/PgConnection.v ===== *)
(** One call of a PostgreSQL backend around its transaction: the bounded
    acquisition of a connection, the deadline, the cancellation guard, and
    what the call's result says about the committed tables
    ([runlimit-postgres/src/lib.rs], [acquire_check_connection] of
    [admission.rs]). *)

From Stdlib Require Import Ascii String.
From stdpp Require Import prelude list gmap.
From S2P Require Import Prelude RustStd Identifier Policy Decision AttemptPolicy Key Check Observation PgErrors PgConfig PgSession PgMaintenance PgInvariant.
Open Scope Z_scope.
Open Scope list_scope.

(** What one call meets: the pool's answer within its budget, the clock once
    a connection is there, the connection's schedule, and the time the call
    takes. *)
Record PgEnv (E Db : Type) (Query : Type -> Type) := mkPgEnv {
  env_acquired : option (Result E unit);
  env_connected_at : Z;
  env_schedule : list (Step E Db Query);
  env_elapsed : Duration;
}.
Arguments mkPgEnv {E Db Query} _ _ _ _.
Arguments env_acquired {E Db Query} _.
Arguments env_connected_at {E Db Query} _.
Arguments env_schedule {E Db Query} _.
Arguments env_elapsed {E Db Query} _.

(** How a call ends: its result, and the session it leaves when it got a
    connection, with whether that connection is closed. *)
Record CallEnd (E Db : Type) (Query : Type -> Type) (R : Type) := mkCallEnd {
  ce_result : Outcome R;
  ce_session : option (Session E Db Query * bool);
}.
Arguments mkCallEnd {E Db Query R} _ _.
Arguments ce_result {E Db Query R} _.
Arguments ce_session {E Db Query R} _.

Section Calls.
Context {E Db : Type} {Query : Type -> Type} `{SqlxError E} `{Statements Query}.
Notation Session := (Session E Db Query).
Notation CallEnd := (CallEnd E Db Query).
Notation PgEnv := (PgEnv E Db Query).

(** The committed tables after a call. *)
Definition ce_db {R} (db : Db) (e : CallEnd R) : Db :=
  match ce_session e with Some (s, _) => committed s | None => db end.

Definition acquire_check_connection (acquired : option (Result E unit))
    : Result (CheckError E) unit :=
  match acquired with
  | None => Err (TimedOutBeforeCommit CheckPhase_AcquiringConnection)
  | Some r => map_err DefinitelyNotConsumed r
  end.

(** [match result { Ok(outcome) => outcome.map(Ok), Err(outcome) =>
    outcome.map(Err) }]. *)
Definition merged {X D} (run : Session * Outcome (Result (ConnectionOutcome X) (ConnectionOutcome D)))
    : Session * Outcome (ConnectionOutcome (Result X D)) :=
  match run with
  | (s, Done (Ok outcome)) => (s, Done (ConnectionOutcome_map outcome Ok))
  | (s, Done (Err outcome)) => (s, Done (ConnectionOutcome_map outcome Err))
  | (s, Panic) => (s, Panic)
  end.

(** A connection's transaction under the guard. *)
Definition guarded_run {X D} (s : Session)
    (run : Session -> Session * Outcome (ConnectionOutcome (Result X D))) : CallEnd (Result X D) :=
  let guarded_connection := guard_new in
  match run s with
  | (s, Done outcome) =>
      let '(result, closed) := guard_finish guarded_connection outcome in
      mkCallEnd (Done result) (Some (s, closed))
  | (s, Panic) => mkCallEnd Panic (Some (s, guard_drop guarded_connection))
  end.

Definition connect (db : Db) (env : PgEnv) : Session := mkSession db db (env_schedule env) false.

(** ** What results say *)

(** A call consumed, or possibly consumed, when its transaction's tables are
    the committed ones. *)
Definition published_tables {R} (e : CallEnd R) : Prop :=
  exists s closed, ce_session e = Some (s, closed) /\ committed s = working s.

Definition settled {R} (status : ConsumptionStatus) (db : Db) (e : CallEnd R) : Prop :=
  match status with
  | Consumed => published_tables e
  | NotConsumed => ce_db db e = db
  | PossiblyConsumed => ce_db db e = db \/ published_tables e
  end.

(** A connection that goes back to its pool has answered everything. *)
Definition clean_connection {R} (e : CallEnd R) : Prop :=
  match ce_session e with Some (s, false) => busy s = false | _ => True end.

Definition call_status {D} (consumption : D -> ConsumptionStatus) (r : Result (CheckError E) D)
    : ConsumptionStatus :=
  match r with Ok d => consumption d | Err e => CheckError_consumption e end.

(** Results that consumed or did not. *)
Definition reports {D} (consumption : D -> ConsumptionStatus) : Prop :=
  forall d, consumption d = Consumed \/ consumption d = NotConsumed.

(** A certain transaction settles its call. *)
Lemma guarded_settled {D} (consumption : D -> ConsumptionStatus) db env
    (m : Tx E Db Query (CheckError E) (ConnectionOutcome D)) :
  reports consumption -> certain not_consumed (fun d => consumption d = Consumed) m ->
  let e := guarded_run (connect db env) (fun s => merged (m s)) in
  match ce_result e with
  | Done r => settled (call_status consumption r) db e
  | Panic => ce_db db e = db
  end /\ clean_connection e.
Proof.
  intros Hrep Hm. specialize (Hm (connect db env)). unfold guarded_run.
  destruct (m (connect db env)) as [s [[o|o]|]]; cbn; [| |done].
  - destruct Hm as (Hpub & Hnot & Hbusy). destruct o as [d|d]; cbn in *;
      (split; [|by try apply Hbusy]); destruct (Hrep d) as [Hd|Hd]; rewrite Hd; cbn.
    1,3: eexists _, _; split; [done|by apply Hpub].
    all: apply Hnot; rewrite Hd; done.
  - destruct Hm as (Hpub & Hnot & Hbusy). destruct o as [d|d]; cbn in *;
      (split; [|by try apply Hbusy]); unfold not_consumed in *;
      (destruct (CheckError_consumption d) eqn:Hd; cbn;
       [by destruct d|by apply Hpub|]); destruct Hnot as [Hc|Hc]; try done;
      first [by left|right; eexists _, _; by split].
Qed.

(** The same for maintenance, whose every result is published. *)
Lemma guarded_maintenance {D} (db : Db) env
    (m : Tx E Db Query (MaintenanceError E) (ConnectionOutcome D)) :
  certain (no_rows_removed (E := E)) (fun _ => True) m ->
  let e := guarded_run (connect db env) (fun s => merged (m s)) in
  clean_connection e
  /\ match ce_result e with
     | Done (Ok _) => published_tables e
     | Done (Err error) => if may_have_removed_rows error then ce_db db e = db \/ published_tables e
                           else ce_db db e = db
     | Panic => ce_db db e = db
     end.
Proof.
  intros Hm. specialize (Hm (connect db env)). unfold guarded_run.
  destruct (m (connect db env)) as [s [[o|o]|]]; cbn; [| |done].
  - destruct Hm as (Hpub & _ & Hbusy). destruct o as [d|d]; cbn in *; (split; [by try apply Hbusy|]);
      (eexists _, _; split; [done|by apply Hpub]).
  - destruct Hm as (Hpub & Hnot & Hbusy). unfold no_rows_removed in *.
    destruct o as [d|d]; cbn in *; (split; [by try apply Hbusy|]);
      (destruct (may_have_removed_rows d) eqn:Hd; [|by apply Hpub]);
      (destruct Hnot as [Hc|Hc]; try done; first [by left|right; eexists _, _; by split]).
Qed.

(** A failed acquisition settles its call. *)
Lemma acquisition_settled {D} (consumption : D -> ConsumptionStatus) (db : Db) acquired (e : CheckError E) :
  acquire_check_connection acquired = Err e ->
  settled (call_status consumption (Err e)) db (mkCallEnd (Done (Err e)) None : CallEnd (Result (CheckError E) D)).
Proof. destruct acquired as [[|err]|]; cbn; intros [= <-]; done. Qed.

(** Invariants of the tables survive calls. *)
Lemma guarded_preserves {X D} (I : Db -> Prop) db env (m : Tx E Db Query X (ConnectionOutcome D)) :
  preserves I m -> I db -> Forall (sound_step I) (env_schedule env) ->
  I (ce_db db (guarded_run (connect db env) (fun s => merged (m s)))).
Proof.
  intros Hm Hdb Henv. destruct (Hm (connect db env)) as [Hc _]; [by split_and!|].
  unfold guarded_run. by destruct (m (connect db env)) as [s [[[d|d]|[e|e]]|]].
Qed.
End Calls.

(** * Failures of decoding *)

Section StorageFailures.
Context {E Db : Type} {Query : Type -> Type} `{SqlxError E}.

(** Failures of decoding are storage invariants. *)
Definition storage_failure {A} (r : Result (CheckError E) A) : Prop :=
  forall e, r = Err e -> exists i, e = StorageInvariant i.

Lemma storage_failure_bind {A B} (r : Result (CheckError E) A) (f : A -> Result (CheckError E) B) :
  storage_failure r -> (forall a, storage_failure (f a)) -> storage_failure (r ≫= f).
Proof. intros Hr Hf. destruct r as [a|e]; [apply Hf|]. intros e' [= <-]. by apply Hr. Qed.

Lemma storage_failure_ok {A} (a : A) : storage_failure (Ok a).
Proof. done. Qed.

Lemma storage_failure_ret {A} (a : A) : storage_failure (mret a).
Proof. done. Qed.

Lemma storage_failure_err {A} detail : storage_failure (A := A) (Err (storage_invariant detail)).
Proof. intros e [= <-]. by eexists. Qed.

(** A shaper of decisions: it fails only on protocol violations. *)
Lemma certain_build {D D'} (published : D' -> Prop) (r : Result (CheckError E) D)
    (f : D -> Tx E Db Query (CheckError E) (ConnectionOutcome D')) :
  storage_failure r ->
  (forall d, r = Ok d -> certain not_consumed published (f d)) ->
  certain not_consumed published (lift (map_err Reusable r) ≫= f).
Proof.
  intros Hs Hf. apply certain_lift.
  - intros o. destruct r as [d|e]; [done|]. intros [= <-]. by destruct (Hs e eq_refl) as [i ->].
  - intros d. destruct r as [d'|e]; [|done]. intros [= <-]. by apply Hf.
Qed.
End StorageFailures.

Create HintDb storage discriminated.
#[export] Hint Resolve storage_failure_ok storage_failure_ret storage_failure_err : storage.

(** Walks through a decoder. *)
Ltac decoding :=
  repeat first
    [ progress auto with storage
    | apply storage_failure_bind; [|intros ?]
    | match goal with |- storage_failure (if ?b then _ else _) => destruct b end
    | match goal with |- storage_failure (match ?x with _ => _ end) => destruct x end ].
