(* ===== verification/PgLimiter.v ===== *)
(** [PostgresLimiter] ([runlimit-postgres/src/lib.rs]): pool acquisition,
    the cancellation guard, checks, batches, cleanup and their observations;
    and what each of their results says about the committed tables, whatever
    the server and the network do. *)

From Stdlib Require Import Ascii String.
From stdpp Require Import prelude list gmap.
From S2P Require Import Prelude RustStd Identifier Policy Decision AttemptPolicy Key Check Observation PgErrors PgConfig PgSession PgTables PgAdmission PgMaintenance PgInvariant PgConnection.
Open Scope Z_scope.
Open Scope list_scope.

Section Limiter.
Context {E : Type} `{SqlxError E} `{PgIntervals} (sha256 : bytes -> bytes).
Notation CallEnd := (CallEnd E FixedDb (FixedQuery E)).
Notation PgEnv := (PgEnv E FixedDb (FixedQuery E)).

(** [struct PostgresLimiter]; the pool is the environment of each call. *)
Record PostgresLimiter := mkPostgresLimiter {
  config : PostgresConfig;
  observer : bool;
}.

Definition PostgresLimiter_new : PostgresLimiter := mkPostgresLimiter PostgresConfig_new false.
Definition with_config (self : PostgresLimiter) (config : PostgresConfig) : PostgresLimiter :=
  mkPostgresLimiter config (observer self).
Definition with_observer (self : PostgresLimiter) : PostgresLimiter :=
  mkPostgresLimiter (config self) true.

Definition run_checks {D} (self : PostgresLimiter) (db : FixedDb) (env : PgEnv)
    (checks : list (Check FixedWindowPolicy)) (build : Admission -> Result (CheckError E) D)
    : CallEnd (Result (CheckError E) D) :=
  match from_checks sha256 checks with
  | Panic => mkCallEnd Panic None
  | Done input =>
      match acquire_check_connection (env_acquired env) with
      | Err e => mkCallEnd (Done (Err e)) None
      | Ok _ =>
          let deadline := env_connected_at env + as_nanos (operation_timeout (config self)) in
          guarded_run (connect db env)
            (run_check_transaction input checks (maximum_rows_per_shard (config self)) deadline build)
      end
  end.

Definition observe_admission (self : PostgresLimiter) (admission : AdmissionObservation)
    : list Observation :=
  if observer self then [Observation_Admission admission] else [].

Definition observe_single_admission (self : PostgresLimiter) (check : Check FixedWindowPolicy)
    (result : Result (CheckError E) Decision) (elapsed : Duration) : list Observation :=
  observe_admission self
    (match result with
     | Ok decision => from_check check decision elapsed
     | Err error => failed_check check (CheckError_consumption error) elapsed
     end).

Definition observe_batch_admission (self : PostgresLimiter) (checks : list (Check FixedWindowPolicy))
    (result : Result (BatchCheckError E) BatchDecision) (elapsed : Duration) : list Observation :=
  observe_admission self
    (match result with
     | Ok decision => from_batch checks decision elapsed
     | Err error => failed_batch checks (BatchCheckError_consumption error) elapsed
     end).

Definition pg_check (self : PostgresLimiter) (db : FixedDb) (env : PgEnv)
    (check : Check FixedWindowPolicy)
    : CallEnd (Result (CheckError E) Decision) * list Observation :=
  let e := run_checks self db env [check] single_decision in
  (e, match ce_result e with
      | Done result => observe_single_admission self check result (env_elapsed env)
      | Panic => []
      end).

Definition check_all_unobserved (self : PostgresLimiter) (db : FixedDb) (env : PgEnv)
    (checks : list (Check FixedWindowPolicy)) : CallEnd (Result (BatchCheckError E) BatchDecision) :=
  match validate_batch checks (pg_max_batch_size (config self)) with
  | Err e => mkCallEnd (Done (Err (InvalidBatch e))) None
  | Ok _ =>
      let e := run_checks self db env checks (batch_decision (length checks)) in
      mkCallEnd (map_err BatchCheckError_Check <$> ce_result e) (ce_session e)
  end.

Definition pg_check_all (self : PostgresLimiter) (db : FixedDb) (env : PgEnv)
    (checks : list (Check FixedWindowPolicy))
    : CallEnd (Result (BatchCheckError E) BatchDecision) * list Observation :=
  let e := check_all_unobserved self db env checks in
  (e, match ce_result e with
      | Done result => observe_batch_admission self checks result (env_elapsed env)
      | Panic => []
      end).

(** ** Cleanup *)

Definition observe_cleanup (self : PostgresLimiter) (requested : Z)
    (result : Result (MaintenanceError E) Z) (elapsed : Duration) : list Observation :=
  if observer self then
    let outcome :=
      match result with
      | Ok removed => CleanupOutcome_Confirmed removed
      | Err error =>
          if may_have_removed_rows error then CleanupOutcome_Unknown else CleanupOutcome_NoEffect
      end in
    [Observation_Cleanup (mkCleanupObservation (Z.to_nat requested) outcome elapsed)]
  else [].

Definition cleanup_expired_unobserved (self : PostgresLimiter) (db : FixedDb) (env : PgEnv)
    (maximum_rows : Z) : CallEnd (Result (MaintenanceError E) Z) :=
  if maximum_rows =? 0 then mkCallEnd (Done (Ok 0)) None
  else
    match acquire_maintenance_connection (env_acquired env) with
    | Err e => mkCallEnd (Done (Err e)) None
    | Ok _ =>
        let deadline := env_connected_at env + as_nanos (operation_timeout (config self)) in
        guarded_run (connect db env) (run_cleanup_transaction maximum_rows deadline)
    end.

Definition cleanup_expired (self : PostgresLimiter) (db : FixedDb) (env : PgEnv) (maximum_rows : Z)
    : CallEnd (Result (MaintenanceError E) Z) * list Observation :=
  let e := cleanup_expired_unobserved self db env maximum_rows in
  (e, match ce_result e with
      | Done result => observe_cleanup self maximum_rows result (env_elapsed env)
      | Panic => []
      end).

(** * Certainty of results *)

Notation pre_commit := (pre_commit (E := E) (Db := FixedDb) (Query := FixedQuery E)).

Lemma quiet_checked_reply {A} (r : Result (CheckError E) A) :
  (forall e, r = Err e -> not_consumed e) -> pre_commit (checked_reply r).
Proof.
  intros Hr. apply quiet_lift. intros o. destruct r as [a|e]; [done|].
  intros [= <-]. by apply Hr.
Qed.

Lemma storage_failure_column {A} detail (c : Col E A) : storage_failure (column detail c).
Proof. destruct c as [a|e]; intros e' [= <-]. by eexists. Qed.

Lemma storage_failure_required {A} detail (v : option A) :
  storage_failure (required detail v : Result (CheckError E) A).
Proof. destruct v as [a|]; intros e [= <-]. by eexists. Qed.

Lemma duration_until_failure a b :
  storage_failure (duration_until a b : Result (CheckError E) Duration).
Proof. apply storage_failure_required. Qed.
#[local] Hint Resolve storage_failure_column storage_failure_required duration_until_failure : storage.

Lemma capacity_loop_failure shards maximum pending (rows : list (CapacityRow E)) :
  storage_failure (capacity_loop shards maximum pending rows).
Proof. revert pending. induction rows as [|row rows IH]; intros pending; simpl; decoding. Qed.

Lemma decode_preflight_failure checks (row : PreflightRow E) :
  storage_failure (decode_preflight checks row).
Proof. unfold decode_preflight. decoding. Qed.

Lemma pending_allowance_failure limit used reset :
  storage_failure (PendingAllowance_new limit used reset : Result (CheckError E) PendingAllowance).
Proof.
  apply storage_failure_bind; [apply storage_failure_required|]. intros remaining.
  apply storage_failure_bind; [|done]. destruct (Allowance_new _ _ _); intros error [= <-].
  by eexists.
Qed.

#[local] Hint Resolve pending_allowance_failure : storage.

Lemma upsert_loop_failure checks now position (rows : list (UpsertRow E)) :
  storage_failure (upsert_loop checks now position rows).
Proof.
  revert position. induction rows as [|row rows IH]; intros position; simpl;
    unfold read_expiry, read_used; decoding.
Qed.

#[local] Hint Resolve upsert_loop_failure : storage.

Lemma decode_upsert_failure checks now (rows : list (UpsertRow E)) :
  storage_failure (decode_upsert checks now rows).
Proof. unfold decode_upsert. decoding. Qed.

Lemma storage_quiet {A} (r : Result (CheckError E) A) :
  storage_failure r -> pre_commit (checked_reply r).
Proof. intros Hr. apply quiet_checked_reply. intros e He. by destruct (Hr e He) as [i ->]. Qed.

Lemma quiet_execute_batch tx input checks maximum :
  pre_commit (execute_batch tx input checks maximum).
Proof.
  apply quiet_bind.
  { apply quiet_bind; [apply quiet_fetch_all|]. intros rows.
    apply storage_quiet, capacity_loop_failure. }
  intros capacity. apply quiet_bind.
  { apply quiet_bind; [apply quiet_fetch_one|]. intros row.
    apply storage_quiet, decode_preflight_failure. }
  intros preflight. destruct (first_denial _ _) as [[index denial]|]; [apply quiet_ret|].
  apply quiet_bind; [|intros [allowances response]; apply quiet_ret].
  apply quiet_bind; [apply quiet_fetch_all|]. intros rows.
  apply storage_quiet, decode_upsert_failure.
Qed.

(** A shaper of decisions: it fails only on protocol violations, and what
    it publishes is what an allowed admission gives. *)
Definition shapes {D} (published : D -> Prop) (build : Admission -> Result (CheckError E) D) : Prop :=
  forall admission, storage_failure (build admission)
  /\ forall d, build admission = Ok d ->
       (published d <-> exists allowances, admission = Admission_Allowed allowances).

Lemma denied_not_allowed checks index denial elapsed admission :
  denied_admission checks index denial elapsed = Done admission ->
  ~ exists allowances, admission = Admission_Allowed allowances.
Proof.
  unfold denied_admission. destruct (head checks) as [c|]; [|done]. cbn.
  destruct denial, (fw_quota_mode (check_policy c)); intros [= <-] [? ?]; done.
Qed.

Lemma certain_transaction {D} (published : D -> Prop) input checks maximum deadline
    (build : Admission -> Result (CheckError E) D) :
  shapes published build ->
  certain not_consumed published (run_check_transaction_inner input checks maximum deadline build).
Proof.
  intros Hbuild. apply certain_bind; [apply quiet_begin|]. intros tx.
  apply certain_bind; [apply quiet_bind; [apply quiet_execute|intros; apply quiet_ret]|]. intros _.
  apply certain_bind; [apply quiet_bind; [apply quiet_execute|intros; apply quiet_ret]|]. intros _.
  apply certain_bind; [apply quiet_execute_batch|]. intros [[allowances|index denial] elapsed].
  - apply certain_bind; [apply quiet_expect|]. intros allowances'.
    destruct (Hbuild (Admission_Allowed allowances')) as [Hfail Hpub].
    apply certain_build; [done|]. intros d Hd. apply certain_commit. apply Hpub; [done|by eexists].
  - destruct (denied_admission checks index denial elapsed) as [admission|] eqn:Hadm;
      [|by intros s].
    destruct (Hbuild admission) as [Hfail Hpub].
    intros s. cbn [expect_tx mbind Tx_bind].
    apply (certain_build published (build admission) finish_denied_transaction); [done|].
    intros d Hd. apply certain_deny. rewrite Hpub by done. by eapply denied_not_allowed.
Qed.

(** ** Whole calls *)

Lemma run_checks_settled {D} (consumption : D -> ConsumptionStatus) self db env checks build :
  reports consumption -> shapes (fun d => consumption d = Consumed) build ->
  let e := run_checks self db env checks build in
  match ce_result e with
  | Done r => settled (call_status consumption r) db e
  | Panic => ce_db db e = db
  end /\ clean_connection e.
Proof.
  intros Hrep Hbuild. unfold run_checks. destruct (from_checks sha256 checks) as [input|]; [|done].
  destruct (acquire_check_connection (env_acquired env)) as [u|err] eqn:Hacq.
  - by apply (guarded_settled consumption db env (run_check_transaction_inner input checks
      (maximum_rows_per_shard (config self))
      (env_connected_at env + as_nanos (operation_timeout (config self))) build)), certain_transaction.
  - split; [by apply (acquisition_settled _ _ (env_acquired env))|done].
Qed.

Lemma single_decision_shapes :
  shapes (fun d => (classify_decision d).2 = Consumed) (single_decision (E := E)).
Proof.
  intros [[|a [|b l]]|[|n] [q|r]|[|n] q]; cbn; (split; [by intros e [= <-]; eexists|]);
    intros d [= <-]; cbn; naive_solver.
Qed.

Lemma batch_decision_shapes n :
  shapes (fun d => (classify_batch d).2 = Consumed) (batch_decision (E := E) n).
Proof.
  assert (Hmap : forall A F (r : Result F A) detail,
    storage_failure (map_err (fun _ => storage_invariant detail) r : Result (CheckError E) A))
    by (intros A F [a|f] detail e [= <-]; by eexists).
  intros [l|i d|i q]; unfold batch_decision; split.
  - destruct (Nat.eqb _ _); [apply Hmap|apply storage_failure_err].
  - destruct (Nat.eqb _ _); [|done]. unfold BatchDecision_allowed.
    intros d Hd. split; [by eexists|]. intros _.
    destruct l as [|a l]; cbn in Hd; [done|]. simplify_eq. done.
  - apply Hmap.
  - intros b Hb. unfold BatchDecision_denied in Hb.
    destruct (validate_batch_index i n); cbn in Hb; [|done]. simplify_eq.
    by destruct d; cbn; naive_solver.
  - apply Hmap.
  - intros b Hb. unfold BatchDecision_shadow_denied in Hb.
    destruct (validate_batch_index i n); cbn in Hb; [|done]. simplify_eq.
    by cbn; naive_solver.
Qed.

Lemma classify_decision_reports : reports (fun d => (classify_decision d).2).
Proof. intros [[[[a|q]]|[q|r]]]; cbn; auto. Qed.

Lemma classify_batch_reports : reports (fun d => (classify_batch d).2).
Proof. intros [[l|i n [q|r]|i n q]]; cbn; auto. Qed.

Lemma certain_cleanup maximum_rows deadline :
  certain (no_rows_removed (E := E)) (fun _ => True)
    (rows ← run_cleanup_transaction_inner maximum_rows deadline; mret (Reusable rows)).
Proof.
  apply certain_assoc, certain_bind; [apply quiet_maintenance, send_begin_frame|]. intros _.
  apply certain_assoc, certain_bind; [apply quiet_maintenance_timeouts|]. intros _.
  apply certain_assoc, certain_bind; [apply quiet_maintenance, send_frame|]. intros result.
  apply certain_assoc. by apply (certain_commit_maintenance (fun _ => True)).
Qed.

Lemma cleanup_settled self db env maximum_rows :
  let e := cleanup_expired_unobserved self db env maximum_rows in
  clean_connection e
  /\ match ce_result e with
     | Done (Ok removed) => if maximum_rows =? 0 then ce_session e = None /\ removed = 0
                            else published_tables e
     | Done (Err error) => if may_have_removed_rows error then ce_db db e = db \/ published_tables e
                           else ce_db db e = db
     | Panic => ce_db db e = db
     end.
Proof.
  unfold cleanup_expired_unobserved. destruct (maximum_rows =? 0); [done|].
  destruct (acquire_maintenance_connection _) as [u|err] eqn:Hacq.
  - pose proof (guarded_maintenance db env _ (certain_cleanup maximum_rows
      (env_connected_at env + as_nanos (operation_timeout (config self))))) as Hm.
    unfold guarded_run, run_cleanup_transaction, merged, mbind, Tx_bind, mret, Tx_ret in *.
    by destruct (run_cleanup_transaction_inner _ _ _) as [s [[rows|o]|]].
  - destruct (env_acquired env) as [[|err']|]; cbn in *; simplify_eq; done.
Qed.

(** Whatever the server answers and whatever the clock and the network
    do, a check never panics past the tables: an allowed check's transaction
    is the committed state, a denial or a definite failure leaves the
    committed tables as they were, an uncertain commit left either; the
    observer is told that same consumption; and a connection goes back to
    its pool only when nothing on it is unanswered. *)
Theorem pg_check_certain self db env check :
  let '(e, observed) := pg_check self db env check in
  clean_connection e
  /\ match ce_result e with
     | Done r =>
         let status := call_status (fun d => (classify_decision d).2) r in
         settled status db e
         /\ Forall (fun o => exists a, o = Observation_Admission a /\ ao_consumption a = status)
              observed
     | Panic => ce_db db e = db /\ observed = []
     end.
Proof.
  unfold pg_check.
  pose proof (run_checks_settled (fun d => (classify_decision d).2) self db env [check]
    single_decision classify_decision_reports single_decision_shapes) as [Hs Hc].
  destruct (ce_result _) as [r|]; (split; [done|]); [split|]; [done| |done].
  unfold observe_single_admission, observe_admission. destruct (observer self); [|done].
  constructor; [|done]. eexists. split; [done|]. destruct r as [d|e]; [|done].
  cbn. unfold from_check. by destruct (classify_decision d).
Qed.

(** C26. The same for batches: atomically all of a batch or nothing of it is
    committed, an invalid batch touches nothing, and the observer is told
    which. *)
Theorem pg_check_all_certain self db env checks :
  let '(e, observed) := pg_check_all self db env checks in
  clean_connection e
  /\ match ce_result e with
     | Done r =>
         let status := match r with
                       | Ok d => (classify_batch d).2
                       | Err error => BatchCheckError_consumption error
                       end in
         settled status db e
         /\ Forall (fun o => exists a, o = Observation_Admission a /\ ao_consumption a = status)
              observed
         /\ (forall error, r = Err (InvalidBatch error) <->
               validate_batch checks (pg_max_batch_size (config self)) = Err error)
     | Panic => ce_db db e = db /\ observed = []
     end.
Proof.
  unfold pg_check_all, check_all_unobserved.
  destruct (validate_batch _ _) as [u|error] eqn:Hv.
  - pose proof (run_checks_settled (fun d => (classify_batch d).2) self db env checks
      (batch_decision (length checks)) classify_batch_reports
      (batch_decision_shapes (length checks))) as [Hs Hc].
    destruct (run_checks _ _ _ _ _) as [[r|] session]; (split; [done|]); [|done].
    split_and!; [by destruct r| |by destruct r].
    unfold observe_batch_admission, observe_admission. cbn. destruct (observer self); [|done].
    constructor; [|done]. eexists. split; [done|]. destruct r as [d|e]; [|done].
    cbn. unfold from_batch. by destruct (classify_batch d).
  - split; [done|]. cbn. split_and!; [done| |naive_solver].
    unfold observe_batch_admission, observe_admission. destruct (observer self); [|done].
    constructor; [|done]. by eexists.
Qed.

(** Whatever the server and the network do, a cleanup that returns a
    count has committed, one that returns an error known not to have removed
    rows removed none, and any other committed or did nothing; the observer
    is told so; a zero budget does no database work. *)
Theorem pg_cleanup_certain self db env maximum_rows :
  let '(e, observed) := cleanup_expired self db env maximum_rows in
  clean_connection e
  /\ match ce_result e with
     | Done r =>
         match r with
         | Ok removed => if maximum_rows =? 0 then ce_session e = None /\ removed = 0
                         else published_tables e
         | Err error => if may_have_removed_rows error then ce_db db e = db \/ published_tables e
                        else ce_db db e = db
         end
         /\ Forall (fun o => exists c, o = Observation_Cleanup c
               /\ co_requested c = Z.to_nat maximum_rows
               /\ co_outcome c = match r with
                                 | Ok removed => CleanupOutcome_Confirmed removed
                                 | Err error => if may_have_removed_rows error
                                                then CleanupOutcome_Unknown
                                                else CleanupOutcome_NoEffect
                                 end) observed
     | Panic => ce_db db e = db /\ observed = []
     end.
Proof.
  unfold cleanup_expired.
  destruct (cleanup_settled self db env maximum_rows) as [Hc Hr].
  destruct (ce_result _) as [r|]; (split; [done|]); [|done]. split; [done|].
  unfold observe_cleanup. destruct (observer self); [|done]. constructor; [|done]. by eexists.
Qed.
End Limiter.
