(* ===== verification/PgSpec.v ===== *)
(** The fixed-window quota the PostgreSQL backend promises, on its tables:
    what refuses a check, which check of a batch is refused first, and what
    an admitted batch leaves behind.  The client's SQL and decoding play no
    part here; [PgRefine] relates them. *)

From Stdlib Require Import Ascii String.
From stdpp Require Import prelude list gmap.
From S2P Require Import Prelude RustStd Identifier Policy Decision AttemptPolicy Key Check Observation PgErrors PgConfig PgSession PgTables PgLedger PgAdmission.
Open Scope Z_scope.
Open Scope list_scope.

Notation FixedCheck := (Check FixedWindowPolicy).

Definition window_micros (c : FixedCheck) : Z := QuotaPeriod_millis (fw_window (check_policy c)) * 1000.
Definition check_limit (c : FixedCheck) : Z := Capacity_get (fw_limit (check_policy c)).
Definition check_shard (c : FixedCheck) : Z := capacity_shard (Check_counter_key c).

(** Checks a caller can build, with digests of bytes. *)
Record check_ok (c : FixedCheck) : Prop := {
  ck_policy : FixedWindowPolicy_valid (check_policy c);
  ck_cost : 1 <= check_cost c <= check_limit c;
  ck_key : CounterKey_wf (Check_counter_key c);
  ck_bytes : Forall is_byte (CounterKey_to_bytes (Check_counter_key c));
}.

Section Spec.
Context (db : FixedDb) (now : Z).

Inductive Refusal :=
| RefusedQuota (expires_at : Z)
| RefusedCapacity.

(** The row a check meets. *)
Definition stored (c : FixedCheck) : option WindowRow := windows db !! Check_counter_key c.

(** Why a check is refused when the inputs ahead of it open the rows
    [ahead]: a live window without enough left, or no slot in its shard. *)
Definition refusal (maximum : Z) (ahead : list CounterKey) (c : FixedCheck) : option Refusal :=
  match stored c with
  | Some row =>
      if (now <? w_expires_at row) && (check_limit c <? w_used row + check_cost c)
      then Some (RefusedQuota (w_expires_at row)) else None
  | None =>
      if maximum <? default 0 (ledger db !! check_shard c) + in_shard (check_shard c) ahead + 1
      then Some RefusedCapacity else None
  end.

(** The row a check opens, if it has none. *)
Definition opened (c : FixedCheck) : list CounterKey :=
  match stored c with Some _ => [] | None => [Check_counter_key c] end.

Fixpoint first_refusal (maximum : Z) (ahead : list CounterKey) (index : nat)
    (checks : list FixedCheck) : option (nat * (FixedCheck * Refusal)) :=
  match checks with
  | [] => None
  | c :: checks =>
      match refusal maximum ahead c with
      | Some r => Some (index, (c, r))
      | None => first_refusal maximum (ahead ++ opened c) (S index) checks
      end
  end.

(** The window an admitted check leaves: its live window charged, or a new
    one. *)
Definition charged (c : FixedCheck) : WindowRow :=
  let policy := check_policy c in
  let fresh := (now, now + window_micros c, check_cost c) in
  let '(started, expires, used) :=
    match stored c with
    | Some row =>
        if now <? w_expires_at row
        then (w_started_at row, w_expires_at row, w_used row + check_cost c) else fresh
    | None => fresh
    end in
  mkWindowRow (PolicyId_as_str (fw_id policy)) (ScopeId_as_str (fw_scope policy)) started expires used.

Definition opened_keys (checks : list FixedCheck) : list CounterKey := mbind opened checks.

Definition charge_all (checks : list FixedCheck) : FixedDb :=
  mkFixedDb
    (foldl (fun ws c => <[Check_counter_key c := charged c]> ws) (windows db) checks)
    (map_imap (fun shard n => Some (n + in_shard shard (opened_keys checks))) (ledger db)).

(** The answer: delays count from [responded], the server's time of the
    reply. *)
Definition delay_from (responded expires_at : Z) : Duration :=
  mkDuration (Z.max 0 ((expires_at - now) * 1000 - Z.max 0 (responded - now) * 1000)).

Definition allowance (responded : Z) (c : FixedCheck) : Allowance :=
  mkAllowance (fw_limit (check_policy c)) (check_limit c - w_used (charged c))
    (Delay_new (delay_from responded (w_expires_at (charged c)))).

Definition refused (responded : Z) (index : nat) (c : FixedCheck) (r : Refusal) : Admission :=
  match r with
  | RefusedQuota expires_at =>
      let denial := QuotaDenial_new (fw_limit (check_policy c)) (delay_from responded expires_at) in
      match fw_quota_mode (check_policy c) with
      | Shadow => Admission_ShadowDenied index denial
      | Enforce => Admission_Denied index (QuotaExceeded denial)
      end
  | RefusedCapacity => Admission_Denied index (StorageCapacity None)
  end.

(** The admission and the tables after it, when a refusal is answered at
    [refused_at] and an update at [updated_at]. *)
Definition admit_batch (maximum refused_at updated_at : Z) (checks : list FixedCheck)
    : Admission * FixedDb :=
  match first_refusal maximum [] 0 checks with
  | Some (index, (c, r)) => (refused refused_at index c r, db)
  | None => (Admission_Allowed (map (allowance updated_at) checks), charge_all checks)
  end.
End Spec.

(** * Facts *)

Lemma lxor_byte a b : is_byte a -> is_byte b -> 0 <= Z.lxor a b <= 255.
Proof.
  unfold is_byte. intros Ha Hb. assert (Hn : 0 <= Z.lxor a b) by (apply Z.lxor_nonneg; lia).
  split; [done|]. destruct (Z.eq_dec (Z.lxor a b) 0) as [->|Hz]; [lia|].
  assert (Hbyte : forall x, 0 <= x <= 255 -> Z.log2 x <= 7)
    by (intros x Hx; change 7 with (Z.log2 255); apply Z.log2_le_mono; lia).
  pose proof (Z.log2_lxor a b ltac:(lia) ltac:(lia)) as Hl.
  pose proof (Hbyte a Ha). pose proof (Hbyte b Hb).
  assert (Z.lxor a b < 2 ^ 8); [|lia]. apply Z.log2_lt_pow2; lia.
Qed.

(** The shard derivation stays in the ledger. *)
Lemma capacity_shard_range key :
  CounterKey_wf key -> Forall is_byte (CounterKey_to_bytes key) -> 0 <= capacity_shard key <= 255.
Proof.
  intros [Hlf Hls] Hb. unfold capacity_shard, CounterKey_to_bytes in *.
  apply Forall_app in Hb as [Hf Hs]. apply lxor_byte; unfold first_byte.
  - destruct (fingerprint_bytes _) as [|b bs]; [done|]. by inversion Hf.
  - destruct (SubjectKey_as_bytes _) as [|b bs]; [done|]. by inversion Hs.
Qed.

Lemma check_shard_range c : check_ok c -> 0 <= check_shard c <= 255.
Proof. intros Hc. apply capacity_shard_range; apply Hc. Qed.

Section SpecFacts.
Context (db : FixedDb) (now : Z).

Lemma opened_key c key : key ∈ opened db c -> key = Check_counter_key c /\ windows db !! key = None.
Proof.
  unfold opened, stored. destruct (windows db !! Check_counter_key c) eqn:Hk; [by intros ?%elem_of_nil|].
  by intros ->%list_elem_of_singleton.
Qed.

Lemma in_shard_app shard l k : in_shard shard (l ++ k) = in_shard shard l + in_shard shard k.
Proof. unfold in_shard. rewrite filter_app, length_app. lia. Qed.

Lemma in_shard_length shard l : in_shard shard l <= Z.of_nat (length l).
Proof. unfold in_shard. pose proof (length_filter (fun key => capacity_shard key = shard) l). lia. Qed.

(** An admitted batch's rows fit their shards together. *)
Lemma no_refusal_fits maximum ahead index checks :
  first_refusal db now maximum ahead index checks = None ->
  forall shard, shard ∈ capacity_shard <$> opened_keys db checks ->
  default 0 (ledger db !! shard) + in_shard shard ahead + in_shard shard (opened_keys db checks)
  <= maximum.
Proof.
  revert ahead index. induction checks as [|c checks IH]; intros ahead index Hnone shard Hs; cbn in *.
  { by apply elem_of_nil in Hs. }
  destruct (refusal db now maximum ahead c) eqn:Hr; [done|]. rewrite in_shard_app.
  rewrite fmap_app, elem_of_app in Hs. specialize (IH _ _ Hnone shard). rewrite in_shard_app in IH.
  destruct (decide (shard ∈ capacity_shard <$> opened_keys db checks)) as [Hin|Hin];
    [specialize (IH Hin); unfold opened_keys in *; lia|].
  destruct Hs as [Hs|Hs]; [|done]. fold (opened_keys db checks).
  rewrite (in_shard_none _ (opened_keys db checks)) by done.
  apply list_elem_of_fmap in Hs as (key & -> & Hkey). pose proof Hkey as [-> Hk]%opened_key.
  unfold refusal, stored in Hr. rewrite Hk in Hr. unfold check_shard in Hr.
  unfold opened, stored. rewrite Hk, in_shard_cons. unfold unit_of. rewrite decide_True by done.
  change (in_shard (capacity_shard (Check_counter_key c)) []) with 0.
  destruct (Z.ltb_spec maximum (default 0 (ledger db !! capacity_shard (Check_counter_key c))
    + in_shard (capacity_shard (Check_counter_key c)) ahead + 1)); [done|]. cbn. lia.
Qed.

(** No quota refusal: every check of the batch can be charged. *)
Definition chargeable (c : FixedCheck) : Prop :=
  match stored db c with
  | Some row => now < w_expires_at row -> w_used row + check_cost c <= check_limit c
  | None => True
  end.

Lemma no_refusal_chargeable maximum ahead index checks :
  first_refusal db now maximum ahead index checks = None -> Forall chargeable checks.
Proof.
  revert ahead index. induction checks as [|c checks IH]; intros ahead index Hnone; [done|].
  cbn in Hnone. destruct (refusal db now maximum ahead c) eqn:Hr; [done|].
  constructor; [|by eapply IH]. unfold chargeable, refusal in *. destruct (stored db c); [|done].
  intros Hlive. destruct (Z.ltb_spec now (w_expires_at w)); [|lia].
  destruct (Z.ltb_spec (check_limit c) (w_used w + check_cost c)); [done|lia].
Qed.

Lemma first_refusal_lookup maximum ahead index checks i c r :
  first_refusal db now maximum ahead index checks = Some (i, (c, r)) ->
  (index <= i)%nat /\ checks !! (i - index)%nat = Some c.
Proof.
  revert ahead index. induction checks as [|d checks IH]; intros ahead index Hr; [done|].
  cbn in Hr. destruct (refusal db now maximum ahead d).
  - simplify_eq. by rewrite Nat.sub_diag.
  - apply IH in Hr as [Hle Hl]. split; [lia|].
    by replace (i - index)%nat with (S (i - S index)) by lia.
Qed.

(** A charged row satisfies the constraints of the table. *)
Lemma charged_ok c : Fixed_wf db -> check_ok c -> chargeable c ->
  window_row_ok (Check_counter_key c) (charged db now c) = true
  /\ now < w_expires_at (charged db now c)
  /\ 0 < w_used (charged db now c) <= check_limit c.
Proof.
  intros Hdb [(Hid & Hscope & Hlimit & Hwin) Hcost [Hfp Hsub] _] Hch.
  assert (Hids : size_between 1 128 (PolicyId_as_str (fw_id (check_policy c))) = true
    /\ size_between 1 128 (ScopeId_as_str (fw_scope (check_policy c))) = true).
  { unfold PolicyId_wf, ScopeId_wf, identifier_wf, MAX_IDENTIFIER_LENGTH in *. unfold size_between.
    rewrite !andb_true_iff, !Nat.leb_le. lia. }
  destruct Hids as [Hi Hs].
  assert (Hrow : forall started expires used, started < expires -> 0 < used ->
    window_row_ok (Check_counter_key c) (mkWindowRow (PolicyId_as_str (fw_id (check_policy c)))
      (ScopeId_as_str (fw_scope (check_policy c))) started expires used) = true).
  { intros started expires used Hse Hu. unfold window_row_ok. cbn [w_policy_id w_scope_id
      w_started_at w_expires_at w_used]. rewrite Hi, Hs. unfold size_between. rewrite Hfp, Hsub. cbn.
    apply andb_true_iff. rewrite !Z.ltb_lt. done. }
  assert (Hfresh : now < now + window_micros c).
  { unfold window_micros, QuotaPeriod_wf in *. lia. }
  unfold charged, chargeable, stored in *.
  destruct (windows db !! Check_counter_key c) as [row|] eqn:Hk.
  - pose proof (fd_rows db Hdb _ _ Hk) as Hok. unfold window_row_ok in Hok. bool_prop.
    destruct (Z.ltb_spec now (w_expires_at row)); cbn;
      (split; [apply Hrow; lia|]); split; [done|specialize (Hch ltac:(done)); lia|done|lia].
  - cbn. split; [apply Hrow; lia|]. split; [done|lia].
Qed.
End SpecFacts.

(** * Concrete calls *)

Definition example_sqlx : SqlxError unit := {|
  database_code := fun _ => None;
  row_not_found := tt;
  server_error := fun _ => tt;
|}.

Definition example_intervals : PgIntervals := {|
  PgInterval_try_from := fun d => if as_nanos d mod 1000 =? 0 then Some (as_nanos d / 1000) else None;
|}.

Definition example_sha256 (bs : bytes) : bytes := replicate 32 (Z.of_nat (length bs) mod 256).

Definition example_digest (n : Z) : bytes := n :: replicate 31 0.

(** A check of a policy of 3 units per second. *)
Definition example_pg_check (tag subject cost : Z) : FixedCheck :=
  mkCheck (mkFixedWindowPolicy (mkPolicyId [97]) (mkScopeId [98]) (mkCapacity 3) (mkQuotaPeriod 1000)
             (from_digest (example_digest tag)) Enforce)
    (mkSubjectKey (example_digest subject)) cost.

Lemma example_pg_check_ok tag subject cost :
  is_byte tag -> is_byte subject -> 1 <= cost <= 3 -> check_ok (example_pg_check tag subject cost).
Proof.
  intros Ht Hs Hc. split.
  - unfold FixedWindowPolicy_valid, PolicyId_wf, ScopeId_wf, identifier_wf, Capacity_wf, QuotaPeriod_wf.
    rewrite MAX_WINDOW_MILLIS_val. unfold MAX_LIMIT, MAX_IDENTIFIER_LENGTH. simpl. unfold_widths.
    split_and!; try lia; repeat constructor.
  - done.
  - done.
  - unfold CounterKey_to_bytes, is_byte in *. cbn.
    repeat (constructor; [lia|]). constructor.
Qed.
