(* ===== verification/PgHonest.v ===== *)
(** Sessions with a server that answers from its tables before the
    deadline: what each operation of a transaction does on them. *)

From Stdlib Require Import Ascii String.
From stdpp Require Import prelude list gmap.
From S2P Require Import Prelude RustStd Identifier Policy Decision AttemptPolicy Key Check Observation PgErrors PgConfig PgSession.
Open Scope string_scope.
Open Scope Z_scope.
Open Scope list_scope.

(** What the client's clock shows at an interaction, and when, on its own
    clock in microseconds, the server starts and finishes its statement. *)
Record Tick := mkTick { at_client : Z; started : Z; finished : Z }.

(** A server's answers; it accepts transaction-local timeouts. *)
Class Answers {E Db : Type} {Query : Type -> Type} `{Statements Query}
    (answer : Tick -> forall A, Query A -> Db -> Db * Result E (Response A)) : Prop := {
  answers_timeouts : forall t statement_timeout lock_timeout db, exists response,
    answer t unit (set_local_timeouts statement_timeout lock_timeout) db = (db, Ok response);
}.

Section Honest.
Context {E Db : Type} {Query : Type -> Type} `{SqlxError E} `{Statements Query}.
Context (answer : Tick -> forall A, Query A -> Db -> Db * Result E (Response A)) `{!Answers answer}.

Definition honest_step (t : Tick) : Step E Db Query :=
  mkStep (at_client t) (Some (answer t)) (Some (Ok tt)) false.

Definition honest_session (db db' : Db) (ts : list Tick) : Session E Db Query :=
  mkSession db db' (map honest_step ts) false.

Lemma bind_Ok {X A B} (m : Tx E Db Query X A) (f : A -> Tx E Db Query X B)
    s s' a :
  m s = (s', Done (Ok a)) -> (m ≫= f) s = f a s'.
Proof. intros Hm. unfold mbind, Tx_bind. by rewrite Hm. Qed.

Lemma lift_bind {X A B} (r : Result (ConnectionOutcome X) A) (f : A -> Tx E Db Query X B) s a :
  r = Ok a -> (lift r ≫= f) s = f a s.
Proof. intros ->. by apply bind_Ok. Qed.

Lemma expect_bind {X A B} (r : Outcome A) (f : A -> Tx E Db Query X B) s a :
  r = Done a -> (expect_tx r ≫= f) s = f a s.
Proof. intros ->. by apply bind_Ok. Qed.

Lemma bind_assoc {X A B C} (m : Tx E Db Query X A)
    (f : A -> Tx E Db Query X B) (g : B -> Tx E Db Query X C) s :
  ((m ≫= f) ≫= g) s = (m ≫= (fun a => f a ≫= g)) s.
Proof. unfold mbind, Tx_bind. by destruct (m s) as [s' [[a|e]|]]. Qed.

Lemma begin_honest d db db' t ts :
  begin_ d (honest_session db db' (t :: ts)) = (honest_session db db ts, Done (Ok (mkCheckTransaction d))).
Proof. done. Qed.

Lemma denied_honest {X D} (decision : D) db db' t ts :
  finish_denied_transaction (X := X) decision (honest_session db db' (t :: ts))
  = (honest_session db db ts, Done (Ok (Reusable decision))).
Proof. done. Qed.

Lemma prepare_honest d phase db db' t t' ts :
  at_client t <= d ->
  prepare (mkCheckTransaction d) phase (honest_session db db' (t :: t' :: ts)) = (honest_session db db' ts, Done (Ok tt)).
Proof.
  intros Hd. unfold prepare, set_check_server_timeouts.
  rewrite (bind_Ok _ _ _ (honest_session db db' (t' :: ts)) (at_client t)) by done.
  assert (Hsome : exists st lk, remaining_server_timeout_settings d (at_client t) = Some (st, lk)).
  { unfold remaining_server_timeout_settings. destruct (Z.ltb_spec d (at_client t)); [lia|eauto]. }
  destruct Hsome as (st & lk & Hsome). cbn [deadline]. rewrite Hsome.
  destruct (answers_timeouts t' st lk db') as [response Ha].
  unfold check_before_commit, before_commit, interact, next_step, send, mbind, Tx_bind. cbn.
  by rewrite Ha.
Qed.

Lemma execute_honest {A} d phase db db' t t' t'' ts (q : Query A) db'' resp :
  at_client t <= d -> answer t'' A q db' = (db'', Ok resp) ->
  execute (mkCheckTransaction d) phase q (honest_session db db' (t :: t' :: t'' :: ts))
  = (honest_session db db'' ts, Done (Ok (rows_affected resp))).
Proof.
  intros Hd Hq. unfold execute. rewrite (bind_Ok _ _ _ _ _ (prepare_honest _ _ _ _ _ _ _ Hd)).
  unfold check_before_commit, before_commit, interact, next_step, send, mbind, Tx_bind. cbn.
  by rewrite Hq.
Qed.

Lemma fetch_all_honest {A} d phase db db' t t' t'' ts (q : Query A) db'' resp :
  at_client t <= d -> answer t'' A q db' = (db'', Ok resp) ->
  fetch_all (mkCheckTransaction d) phase q (honest_session db db' (t :: t' :: t'' :: ts))
  = (honest_session db db'' ts, Done (Ok (rows resp))).
Proof.
  intros Hd Hq. unfold fetch_all. rewrite (bind_Ok _ _ _ _ _ (prepare_honest _ _ _ _ _ _ _ Hd)).
  unfold check_before_commit, before_commit, interact, next_step, send, mbind, Tx_bind. cbn.
  by rewrite Hq.
Qed.

Lemma fetch_one_honest {A} d phase db db' t t' t'' ts (q : Query A) db'' resp row rest :
  at_client t <= d -> answer t'' A q db' = (db'', Ok resp) ->
  rows resp = row :: rest ->
  fetch_one (mkCheckTransaction d) phase q (honest_session db db' (t :: t' :: t'' :: ts))
  = (honest_session db db'' ts, Done (Ok row)).
Proof.
  intros Hd Hq Hrow. unfold fetch_one. rewrite (bind_Ok _ _ _ _ _ (prepare_honest _ _ _ _ _ _ _ Hd)).
  unfold check_before_commit, before_commit, interact, next_step, send_one, send. cbn.
  rewrite Hq. cbn. by rewrite Hrow.
Qed.

Lemma commit_honest d db db' t t' t'' t''' ts :
  at_client t <= d -> at_client t'' < d ->
  commit (mkCheckTransaction d) (honest_session db db' (t :: t' :: t'' :: t''' :: ts))
  = (honest_session db' db' ts, Done (Ok tt)).
Proof.
  intros Hd Hd'. unfold commit. rewrite (bind_Ok _ _ _ _ _ (prepare_honest _ _ _ _ _ _ _ Hd)).
  unfold commit_check. rewrite (bind_Ok _ _ _ (honest_session db db' (t''' :: ts)) (at_client t'')) by done.
  cbn [deadline]. by destruct (Z.leb_spec d (at_client t'')); [lia|].
Qed.
End Honest.
