(* ===== verification/PgServed.v ===== *)
(** Servers that answer from their tables when they answer at all: replies
    may be lost, deadlines may pass, the client's clock may show anything and
    a commit without an acknowledgement may or may not take effect.  A
    Hoare logic of transactions on such servers, and what it says of a whole
    call. *)

From Stdlib Require Import Ascii String.
From stdpp Require Import prelude list gmap.
From S2P Require Import Prelude RustStd Identifier Policy Decision AttemptPolicy Key Check Observation PgErrors PgConfig PgSession PgMaintenance PgInvariant PgConnection PgHonest.
Open Scope Z_scope.
Open Scope list_scope.

Create HintDb served discriminated.

Section Served.
Context {E Db : Type} {Query : Type -> Type} `{SqlxError E} `{Statements Query}.
Context (answer : Tick -> forall A, Query A -> Db -> Db * Result E (Response A)) `{!Answers answer}.
Context (within : Tick -> Prop).
Notation Session := (Session E Db Query).
Notation Step := (Step E Db Query).
Notation Tx := (Tx E Db Query).
Notation PgEnv := (PgEnv E Db Query).

(** A step whose reply, if any, is that of the tables at a time within
    [within]. *)
Definition served_step (step : Step) : Prop :=
  forall reply, step_reply step = Some reply -> exists t, within t /\ reply = answer t.

Definition serving (s : Session) : Prop := Forall served_step (schedule s).

(** A part of a transaction on the committed tables [db] before its commit:
    it publishes nothing, does not panic, and takes the transaction's own
    tables from [P] to [Q] when it succeeds. *)
Definition triple {X A} (db : Db) (P : Db -> Prop) (m : Tx X A) (Q : A -> Db -> Prop) : Prop :=
  forall s, serving s -> committed s = db -> P (working s) ->
  let '(s', r) := m s in
  serving s' /\ committed s' = db
  /\ match r with Done (Ok a) => Q a (working s') | Done (Err _) => True | Panic => False end.

(** A whole transaction: the committed tables satisfy [R] with its result;
    after an error they are as before or satisfy [U]; it does not panic. *)
Definition settles {X D} (db : Db) (P : Db -> Prop) (m : Tx X (ConnectionOutcome D))
    (R : D -> Db -> Prop) (U : Db -> Prop) : Prop :=
  forall s, serving s -> committed s = db -> P (working s) ->
  let '(s', r) := m s in
  match r with
  | Done (Ok o) => R (outcome_value o) (committed s')
  | Done (Err _) => committed s' = db \/ U (committed s')
  | Panic => False
  end.

(** ** Rules *)

Section Rules.
Context {X : Type} (db : Db).
Implicit Types P : Db -> Prop.

Lemma triple_ret {A} P (a : A) Q : (forall w, P w -> Q a w) -> triple (X := X) db P (mret a) Q.
Proof. intros HQ s Hs Hc Hw. split_and!; [done..|by apply HQ]. Qed.

Lemma triple_bind {A B} P (m : Tx X A) (f : A -> Tx X B) Q R :
  triple db P m Q -> (forall a, triple db (Q a) (f a) R) -> triple db P (m ≫= f) R.
Proof.
  intros Hm Hf s Hs Hc Hw. unfold mbind, Tx_bind. specialize (Hm s Hs Hc Hw).
  destruct (m s) as [s1 [[a|e]|]]; destruct Hm as (Hs1 & Hc1 & HQ); [|done..]. by apply Hf.
Qed.

Lemma triple_weaken {A} P P' (m : Tx X A) Q Q' :
  (forall w, P w -> P' w) -> (forall a w, Q' a w -> Q a w) -> triple db P' m Q' -> triple db P m Q.
Proof.
  intros HP HQ Hm s Hs Hc Hw. specialize (Hm s Hs Hc (HP _ Hw)).
  destruct (m s) as [s1 [[a|e]|]]; destruct Hm as (Hs1 & Hc1 & Hq); split_and!; try done. by apply HQ.
Qed.

(** The transaction's tables are known. *)
Lemma triple_at {A} P (m : Tx X A) Q : (forall w, P w -> triple db (eq w) m Q) -> triple db P m Q.
Proof. intros Hm s Hs Hc Hw. by apply (Hm (working s)). Qed.

Lemma triple_lift {A} P (r : Result (ConnectionOutcome X) A) Q :
  (forall a w, r = Ok a -> P w -> Q a w) -> triple db P (lift r) Q.
Proof. intros HQ s Hs Hc Hw. split_and!; [done..|]. destruct r; [by apply HQ|done]. Qed.

Lemma triple_fail {A} P (e : ConnectionOutcome X) Q : triple (A := A) db P (fail e) Q.
Proof. intros s Hs Hc Hw. by split_and!. Qed.

Lemma next_step_served s :
  serving s -> let '(step, s') := next_step s in
  served_step step /\ serving s' /\ committed s' = committed s /\ working s' = working s.
Proof.
  unfold serving, next_step. intros Hs. destruct (schedule s) as [|step steps] eqn:Hsch.
  - split_and!; [by intros reply [=]| |done..]. by rewrite Hsch.
  - apply Forall_cons in Hs as [Hstep Hs]. by split_and!.
Qed.

Lemma triple_clock P : triple (X := X) db P read_clock (fun _ w => P w).
Proof.
  intros s Hs Hc Hw. unfold read_clock. pose proof (next_step_served s Hs) as Hn.
  destruct (next_step s) as [step s']. destruct Hn as (_ & Hs' & Hc' & Hw').
  split_and!; [done|congruence|congruence].
Qed.

(** A wait whose answer has the given effect on the transaction's tables. *)
Lemma triple_wait {A} P (elapsed : X) database
    (ans : Step -> Session -> Session * option (Result E A)) (Q : A -> Db -> Prop) :
  (forall step s, served_step step -> serving s -> committed s = db -> P (working s) ->
     let '(s', r) := ans step s in
     serving s' /\ committed s' = db
     /\ match r with Some (Ok a) => Q a (working s') | _ => True end) ->
  triple db P (before_commit elapsed database (interact ans)) Q.
Proof.
  intros Ha s Hs Hc Hw. unfold before_commit, interact. pose proof (next_step_served s Hs) as Hn.
  destruct (next_step s) as [step s1]. destruct Hn as (Hstep & Hs1 & Hc1 & Hw1).
  specialize (Ha step s1 Hstep Hs1 ltac:(congruence) ltac:(congruence)).
  destruct (ans step s1) as [s2 [[a|e]|]]; cbn; by destruct Ha as (? & ? & ?).
Qed.

(** What a statement does to the transaction's tables when it is
    acknowledged. *)
Definition statement {A} P (q : Query A) (Q : Response A -> Db -> Prop) : Prop :=
  forall t w w' resp, within t -> P w -> answer t A q w = (w', Ok resp) -> Q resp w'.

Lemma send_served {A} P (q : Query A) Q step s :
  statement P q Q -> served_step step -> serving s -> committed s = db -> P (working s) ->
  let '(s', r) := send q step s in
  serving s' /\ committed s' = db
  /\ match r with Some (Ok a) => Q a (working s') | _ => True end.
Proof.
  intros Hq Hstep Hs Hc Hw. unfold send. destruct (step_reply step) as [reply|] eqn:Hr; [|done].
  destruct (Hstep reply Hr) as (t & Ht & ->).
  destruct (answer t A q (working s)) as [w' [resp|e]] eqn:Ha; cbn; split_and!; try done.
  by apply (Hq t (working s)).
Qed.

Lemma triple_send {A} P (elapsed : X) database (q : Query A) Q :
  statement P q Q -> triple db P (before_commit elapsed database (interact (send q))) Q.
Proof. intros Hq. apply triple_wait. intros step s. by apply send_served. Qed.

Lemma triple_send_one {A} P (elapsed : X) database (q : Query A) (Q : A -> Db -> Prop) :
  statement P q (fun resp w => forall row rest, rows resp = row :: rest -> Q row w) ->
  triple db P (before_commit elapsed database (interact (send_one q))) Q.
Proof.
  intros Hq. apply triple_wait. intros step s Hstep Hs Hc Hw. unfold send_one.
  pose proof (send_served P q _ step s Hq Hstep Hs Hc Hw) as Hsend.
  destruct (send q step s) as [s' [[resp|e]|]]; cbn; try done.
  destruct Hsend as (? & ? & HQ). unfold first_row. destruct (rows resp); [done|].
  split_and!; [done..|]. by eapply HQ.
Qed.

Lemma triple_begin P (elapsed : X) database :
  triple db P (before_commit elapsed database (interact send_begin)) (fun _ w => w = db).
Proof.
  apply triple_wait. intros step s _ Hs Hc _. cbn. split_and!; [done..|].
  by destruct (step_command step) as [[u|e]|].
Qed.

Lemma triple_timeouts P (elapsed : X) database statement_timeout lock_timeout :
  triple db P (before_commit elapsed database
      (interact (send (set_local_timeouts statement_timeout lock_timeout)))) (fun _ w => P w).
Proof.
  apply triple_send. intros t w w' resp _ Hw Ha.
  destruct (answers_timeouts t statement_timeout lock_timeout w) as [response Hr].
  rewrite Hr in Ha. by injection Ha as <- _.
Qed.

Lemma settles_bind {A D} P (m : Tx X A) (f : A -> Tx X (ConnectionOutcome D)) Q R U :
  triple db P m Q -> (forall a, settles db (Q a) (f a) R U) -> settles db P (m ≫= f) R U.
Proof.
  intros Hm Hf s Hs Hc Hw. unfold mbind, Tx_bind. specialize (Hm s Hs Hc Hw).
  destruct (m s) as [s1 [[a|e]|]]; destruct Hm as (Hs1 & Hc1 & HQ); [by apply Hf|by left|done].
Qed.

Lemma settles_at {D} P (m : Tx X (ConnectionOutcome D)) R U :
  (forall w, P w -> settles db (eq w) m R U) -> settles db P m R U.
Proof. intros Hm s Hs Hc Hw. by apply (Hm (working s)). Qed.

Lemma settles_assoc {A B D} P (m : Tx X A) (f : A -> Tx X B) (g : B -> Tx X (ConnectionOutcome D)) R U :
  settles db P (m ≫= (fun a => f a ≫= g)) R U -> settles db P ((m ≫= f) ≫= g) R U.
Proof. intros Hm s Hs Hc Hw. specialize (Hm s Hs Hc Hw). by rewrite bind_assoc. Qed.

Lemma settles_lift {A D} P (r : Result (ConnectionOutcome X) A)
    (f : A -> Tx X (ConnectionOutcome D)) R U :
  (forall a, r = Ok a -> settles db P (f a) R U) -> settles db P (lift r ≫= f) R U.
Proof.
  intros Hf s Hs Hc Hw. unfold mbind, Tx_bind, lift. destruct r as [a|e]; [by apply (Hf a eq_refl)|by left].
Qed.

Lemma settles_expect {A D} P (r : Outcome A) a (f : A -> Tx X (ConnectionOutcome D)) R U :
  r = Done a -> settles db P (f a) R U -> settles db P (expect_tx r ≫= f) R U.
Proof. intros -> Hf s Hs Hc Hw. by apply Hf. Qed.

Lemma settles_fail {D} P (e : ConnectionOutcome X) R U : settles (D := D) db P (fail e) R U.
Proof. intros s Hs Hc Hw. by left. Qed.

Lemma settles_deny {D} P (d : D) (R : D -> Db -> Prop) U : R d db -> settles (X := X) db P (deny d) R U.
Proof.
  intros HR s Hs Hc Hw. unfold deny, finish_denied_transaction, interact.
  pose proof (next_step_served s Hs) as Hn. destruct (next_step s) as [step s1].
  destruct Hn as (_ & _ & Hc1 & _). unfold send_rollback. rewrite <- Hc, <- Hc1 in HR.
  by destruct (step_command step) as [[u|e]|].
Qed.

Lemma settles_publish {D} P (d : D) elapsed database (R : D -> Db -> Prop) (U : Db -> Prop) :
  (forall w, P w -> R d w /\ U w) ->
  settles (X := X) db P
    (_ ← before_commit elapsed database (interact send_commit); mret (Reusable d)) R U.
Proof.
  intros HP s Hs Hc Hw. unfold mbind, Tx_bind, mret, Tx_ret, before_commit, interact.
  pose proof (next_step_served s Hs) as Hn. destruct (next_step s) as [step s1].
  destruct Hn as (_ & _ & Hc1 & Hw1). unfold send_commit. rewrite <- Hw1 in Hw.
  destruct (HP _ Hw) as [HR HU].
  destruct (step_command step) as [[u|e]|]; cbn; [done|..];
    (destruct (step_applied step); [by right|left; congruence]).
Qed.
End Rules.

(** ** Admission transactions *)

Section Checks.
Context (db : Db).
Implicit Types P : Db -> Prop.
Notation triple := (triple (X := CheckError E) db).

Lemma triple_begin_check P deadline : triple P (begin_ deadline) (fun _ w => w = db).
Proof.
  eapply triple_bind; [apply triple_begin|]. intros u. by apply triple_ret.
Qed.

Lemma triple_prepare P tx phase : triple P (prepare tx phase) (fun _ w => P w).
Proof.
  eapply triple_bind; [apply triple_clock|]. intros now.
  destruct (remaining_server_timeout_settings _ _) as [[st lk]|]; [|apply triple_fail].
  eapply triple_bind; [apply triple_timeouts|]. intros r. by apply triple_ret.
Qed.

Lemma triple_execute {A} P tx phase (q : Query A) (Q : Z -> Db -> Prop) :
  statement P q (fun resp => Q (rows_affected resp)) -> triple P (execute tx phase q) Q.
Proof.
  intros Hq. eapply triple_bind; [apply triple_prepare|]. intros u.
  eapply triple_bind; [by apply triple_send|]. intros resp. by apply triple_ret.
Qed.

Lemma triple_fetch_all {A} P tx phase (q : Query A) (Q : list A -> Db -> Prop) :
  statement P q (fun resp => Q (rows resp)) -> triple P (fetch_all tx phase q) Q.
Proof.
  intros Hq. eapply triple_bind; [apply triple_prepare|]. intros u.
  eapply triple_bind; [by apply triple_send|]. intros resp. by apply triple_ret.
Qed.

Lemma triple_fetch_one {A} P tx phase (q : Query A) (Q : A -> Db -> Prop) :
  statement P q (fun resp w => forall row rest, rows resp = row :: rest -> Q row w) ->
  triple P (fetch_one tx phase q) Q.
Proof. intros Hq. eapply triple_bind; [apply triple_prepare|]. intros u. by apply triple_send_one. Qed.

Lemma settles_commit {D} P tx (d : D) (R : D -> Db -> Prop) (U : Db -> Prop) :
  (forall w, P w -> R d w /\ U w) ->
  settles db P (_ ← commit tx; mret (Reusable d)) R U.
Proof.
  intros HP. apply settles_assoc. eapply settles_bind; [apply triple_prepare|]. intros u.
  apply settles_assoc. eapply settles_bind; [apply triple_clock|]. intros now.
  destruct (deadline tx <=? now); [intros s Hs Hc Hw; by left|by apply settles_publish].
Qed.
End Checks.

(** ** Maintenance *)

Section Maintenance.
Context (db : Db).
Implicit Types P : Db -> Prop.

Lemma triple_maintenance_timeouts P deadline phase :
  triple (X := MaintenanceError E) db P (set_maintenance_server_timeouts deadline phase) (fun _ w => P w).
Proof.
  eapply triple_bind; [apply triple_clock|]. intros now.
  destruct (remaining_server_timeout_settings _ _) as [[st lk]|]; [|apply triple_fail].
  eapply triple_bind; [apply triple_timeouts|]. intros r. by apply triple_ret.
Qed.

Lemma settles_maintenance {D} P deadline (d : D) (R : D -> Db -> Prop) (U : Db -> Prop) :
  (forall w, P w -> R d w /\ U w) ->
  settles db P (_ ← commit_maintenance deadline; mret (Reusable d)) R U.
Proof.
  intros HP. apply settles_assoc. eapply settles_bind; [apply triple_clock|]. intros now.
  destruct (deadline <=? now); [intros s Hs Hc Hw; by left|].
  apply settles_assoc. eapply settles_bind; [apply triple_maintenance_timeouts|]. intros u.
  by apply settles_publish.
Qed.
End Maintenance.

(** ** Calls *)

Definition served_env (env : PgEnv) : Prop := Forall served_step (env_schedule env).

(** The committed tables after a call and its result: [R] relates them, and
    after an error they are as before or satisfy [U]. *)
Definition call_settles {X D} (db : Db) (e : CallEnd E Db Query (Result X D))
    (R : D -> Db -> Prop) (U : Db -> Prop) : Prop :=
  match ce_result e with
  | Done (Ok d) => R d (ce_db db e)
  | Done (Err _) => ce_db db e = db \/ U (ce_db db e)
  | Panic => False
  end.

Lemma guarded_call_settles {X D} db env (m : Tx X (ConnectionOutcome D)) R U :
  settles db (fun _ => True) m R U -> served_env env ->
  call_settles db (guarded_run (connect db env) (fun s => merged (m s))) R U.
Proof.
  intros Hm Henv. specialize (Hm (connect db env) Henv eq_refl I). unfold call_settles, guarded_run.
  by destruct (m (connect db env)) as [s [[[d|d]|[e|e]]|]].
Qed.
End Served.

#[export] Hint Resolve triple_clock triple_begin_check triple_prepare triple_maintenance_timeouts : served.
