(* ===== verification/PgAnyServer.v ===== *)
(** Calls against a server about which nothing is known: replies may be
    malformed, contradictory or missing, the clocks may show anything.  Two
    logics of transactions on such servers: what a successful transaction
    returns, with the promise that none panics, and how many interactions a
    transaction can take. *)

From Stdlib Require Import Ascii String.
From stdpp Require Import prelude list gmap.
From S2P Require Import Prelude RustStd Identifier Policy Decision AttemptPolicy Key Check Observation PgErrors PgConfig PgSession PgMaintenance PgInvariant PgConnection.
Open Scope Z_scope.
Open Scope list_scope.

(** * Values that returned results satisfy *)

(** A value of [r] satisfies [Q]. *)
Definition yields {F A} (Q : A -> Prop) (r : Result F A) : Prop := forall a, r = Ok a -> Q a.

Lemma yields_ok {F A} (Q : A -> Prop) a : Q a -> yields (F := F) Q (Ok a).
Proof. by intros Ha a' [= <-]. Qed.

Lemma yields_err {F A} (Q : A -> Prop) (e : F) : yields Q (Err e).
Proof. by intros a [=]. Qed.

Lemma yields_bind {F A B} (R : A -> Prop) (Q : B -> Prop) (r : Result F A) (f : A -> Result F B) :
  yields R r -> (forall a, R a -> yields Q (f a)) -> yields Q (r ≫= f).
Proof. intros Hr Hf. destruct r as [a|e]; [apply Hf, Hr; done|apply yields_err]. Qed.

(** Decoding whose value does not matter. *)
Lemma yields_then {F A B} (Q : B -> Prop) (r : Result F A) (f : A -> Result F B) :
  (forall a, r = Ok a -> yields Q (f a)) -> yields Q (r ≫= f).
Proof. intros Hf. destruct r as [a|e]; [by apply Hf|apply yields_err]. Qed.

Lemma yields_map_err {F G A} (Q : A -> Prop) (f : F -> G) (r : Result F A) :
  yields Q r -> yields Q (map_err f r).
Proof. intros Hr a. destruct r as [a'|e]; [|done]. intros [= <-]. by apply Hr. Qed.

Section AnyServer.
Context {E Db : Type} {Query : Type -> Type} `{SqlxError E} `{Statements Query}.
Notation Session := (Session E Db Query).
Notation Step := (Step E Db Query).
Notation Tx := (Tx E Db Query).
Notation PgEnv := (PgEnv E Db Query).
Notation CallEnd := (CallEnd E Db Query).

(** * Transactions that do not panic *)

(** Whatever the session, [m] does not panic and a success satisfies [Q]. *)
Definition safely {X A} (Q : A -> Prop) (m : Tx X A) : Prop :=
  forall s, match (m s).2 with
  | Done (Ok a) => Q a
  | Done (Err _) => True
  | Panic => False
  end.

Section Safely.
Context {X : Type}.

Lemma safely_ret {A} (Q : A -> Prop) a : Q a -> safely (X := X) Q (mret a).
Proof. by intros Ha s. Qed.

Lemma safely_bind {A B} (R : A -> Prop) (Q : B -> Prop) (m : Tx X A) (f : A -> Tx X B) :
  safely R m -> (forall a, R a -> safely Q (f a)) -> safely Q (m ≫= f).
Proof.
  intros Hm Hf s. unfold mbind, Tx_bind. specialize (Hm s).
  destruct (m s) as [s1 [[a|e]|]]; [by apply Hf|done..].
Qed.

(** A part of which only that it does not panic matters. *)
Lemma safely_then {A B} (Q : B -> Prop) (m : Tx X A) (f : A -> Tx X B) :
  safely (fun _ => True) m -> (forall a, safely Q (f a)) -> safely Q (m ≫= f).
Proof. intros Hm Hf. by eapply safely_bind. Qed.

Lemma safely_fail {A} (Q : A -> Prop) (e : ConnectionOutcome X) : safely Q (fail e).
Proof. by intros s. Qed.

Lemma safely_lift {A} (Q : A -> Prop) (r : Result (ConnectionOutcome X) A) :
  yields Q r -> safely Q (lift r).
Proof. intros Hr s. destruct r as [a|e]; [by apply Hr|done]. Qed.

Lemma safely_expect {A} (Q : A -> Prop) (r : Outcome A) a :
  r = Done a -> Q a -> safely (X := X) Q (expect_tx r).
Proof. by intros -> Ha s. Qed.

Lemma safely_clock : safely (X := X) (fun _ => True) read_clock.
Proof. intros s. unfold read_clock. by destruct (next_step s). Qed.

Lemma safely_wait {A} (elapsed : X) database
    (wait : Session -> Session * option (Result E A)) :
  safely (fun _ => True) (before_commit elapsed database wait).
Proof. intros s. unfold before_commit. by destruct (wait s) as [s1 [[a|e]|]]. Qed.

Lemma safely_deny {D} (Q : D -> Prop) (d : D) :
  Q d -> safely (X := X) (fun o => Q (outcome_value o)) (deny d).
Proof.
  intros Hd s. unfold deny, finish_denied_transaction.
  by destruct (interact send_rollback s) as [s1 [[u|e]|]].
Qed.
End Safely.

Lemma safely_begin deadline : safely (fun _ => True) (begin_ deadline).
Proof. apply safely_then; [apply safely_wait|]. intros u. by apply safely_ret. Qed.

Lemma safely_prepare tx phase : safely (fun _ => True) (prepare tx phase).
Proof.
  apply safely_then; [apply safely_clock|]. intros now.
  destruct (remaining_server_timeout_settings _ _) as [[st lk]|]; [|apply safely_fail].
  apply safely_then; [apply safely_wait|]. intros r. by apply safely_ret.
Qed.

Lemma safely_execute {A} tx phase (q : Query A) : safely (fun _ => True) (execute tx phase q).
Proof.
  apply safely_then; [apply safely_prepare|]. intros u.
  apply safely_then; [apply safely_wait|]. intros r. by apply safely_ret.
Qed.

Lemma safely_fetch_all {A} tx phase (q : Query A) : safely (fun _ => True) (fetch_all tx phase q).
Proof.
  apply safely_then; [apply safely_prepare|]. intros u.
  apply safely_then; [apply safely_wait|]. intros r. by apply safely_ret.
Qed.

Lemma safely_fetch_one {A} tx phase (q : Query A) : safely (fun _ => True) (fetch_one tx phase q).
Proof. apply safely_then; [apply safely_prepare|]. intros u. apply safely_wait. Qed.

Lemma safely_commit_check deadline : safely (fun _ => True) (commit_check deadline).
Proof.
  apply safely_then; [apply safely_clock|]. intros now.
  destruct (deadline <=? now); [apply safely_fail|apply safely_wait].
Qed.

Lemma safely_commit tx : safely (fun _ => True) (commit tx).
Proof. apply safely_then; [apply safely_prepare|]. intros u. apply safely_commit_check. Qed.

Lemma safely_publish {D} (Q : D -> Prop) tx (d : D) :
  Q d -> safely (fun o => Q (outcome_value o)) (_ ← commit tx; mret (Reusable d)).
Proof. intros Hd. apply safely_then; [apply safely_commit|]. intros u. by apply safely_ret. Qed.

(** A call: it does not panic, and a success satisfies [Q]. *)
Definition call_yields {X D} (Q : D -> Prop) (e : CallEnd (Result X D)) : Prop :=
  match ce_result e with
  | Done (Ok d) => Q d
  | Done (Err _) => True
  | Panic => False
  end.

Lemma guarded_call_yields {X D} (Q : D -> Prop) s (m : Tx X (ConnectionOutcome D)) :
  safely (fun o => Q (outcome_value o)) m -> call_yields Q (guarded_run s (fun s => merged (m s))).
Proof.
  intros Hm. specialize (Hm s). unfold call_yields, guarded_run.
  by destruct (m s) as [s1 [[[d|d]|[e|e]]|]].
Qed.

(** * Bounded numbers of interactions *)

(** The same session with more of a schedule after its own. *)
Definition extend (rest : list Step) (s : Session) : Session :=
  mkSession (committed s) (working s) (schedule s ++ rest) (busy s).

(** Given [n] interactions, [m] takes no more of them: what follows neither
    changes what it does nor is consumed. *)
Definition takes {X A} (n : nat) (m : Tx X A) : Prop :=
  forall s, (n <= length (schedule s))%nat ->
  (length (schedule s) <= n + length (schedule (m s).1))%nat
  /\ forall rest, m (extend rest s) = (extend rest (m s).1, (m s).2).

Section Takes.
Context {X : Type}.

Lemma takes_weaken {A} n n' (m : Tx X A) : (n <= n')%nat -> takes n m -> takes n' m.
Proof. intros Hn Hm s Hs. destruct (Hm s ltac:(lia)) as [Hlen Hext]. split; [lia|done]. Qed.

Lemma takes_ret {A} (a : A) : takes (X := X) 0 (mret a).
Proof. intros s _. split; [cbn; lia|done]. Qed.

Lemma takes_fail {A} (e : ConnectionOutcome X) : takes (A := A) 0 (fail e).
Proof. intros s _. split; [cbn; lia|done]. Qed.

Lemma takes_lift {A} (r : Result (ConnectionOutcome X) A) : takes 0 (lift r).
Proof. intros s _. split; [cbn; lia|done]. Qed.

Lemma takes_expect {A} (r : Outcome A) : takes (X := X) 0 (expect_tx r).
Proof. intros s _. split; [cbn; lia|]. by destruct r. Qed.

Lemma takes_bind {A B} n k (m : Tx X A) (f : A -> Tx X B) :
  takes n m -> (forall a, takes k (f a)) -> takes (n + k) (m ≫= f).
Proof.
  intros Hm Hf s Hs. destruct (Hm s ltac:(lia)) as [Hlen Hext]. unfold mbind, Tx_bind.
  destruct (m s) as [s1 [[a|e]|]] eqn:Hms; cbn [fst snd] in *.
  - destruct (Hf a s1 ltac:(lia)) as [Hlen' Hext']. split; [lia|].
    intros rest. by rewrite Hext, Hext'.
  - split; [lia|]. intros rest. by rewrite Hext.
  - split; [lia|]. intros rest. by rewrite Hext.
Qed.

Lemma next_step_extend rest s step s1 :
  (1 <= length (schedule s))%nat -> next_step s = (step, s1) ->
  next_step (extend rest s) = (step, extend rest s1)
  /\ length (schedule s) = S (length (schedule s1)).
Proof.
  unfold next_step, extend. destruct (schedule s); cbn; [lia|]. by intros _ [= <- <-].
Qed.

Lemma takes_clock : takes (X := X) 1 read_clock.
Proof.
  intros s Hs. unfold read_clock. destruct (next_step s) as [step s1] eqn:Hn.
  pose proof (fun rest => next_step_extend rest s step s1 Hs Hn) as Hext.
  split; [cbn; destruct (Hext []) as [_ Hl]; lia|].
  intros rest. by destruct (Hext rest) as [-> _].
Qed.

(** What the other side does with one step does not look at the rest. *)
Definition one_step {A} (ans : Step -> Session -> Session * option (Result E A)) : Prop :=
  forall step s, schedule (ans step s).1 = schedule s
  /\ forall rest, ans step (extend rest s) = (extend rest (ans step s).1, (ans step s).2).

Lemma interact_extend {A} (ans : Step -> Session -> Session * option (Result E A)) s :
  one_step ans -> (1 <= length (schedule s))%nat ->
  length (schedule s) = S (length (schedule (interact ans s).1))
  /\ forall rest, interact ans (extend rest s)
                  = (extend rest (interact ans s).1, (interact ans s).2).
Proof.
  intros Ha Hs. unfold interact. destruct (next_step s) as [step s1] eqn:Hn.
  destruct (Ha step s1) as [Hsame Hext].
  pose proof (fun rest => next_step_extend rest s step s1 Hs Hn) as Hnext.
  destruct (Hnext []) as [_ Hl]. destruct (ans step s1) as [s2 reply]. cbn [fst snd] in *.
  split; [rewrite Hl, <- Hsame; by destruct reply|].
  intros rest. destruct (Hnext rest) as [-> _]. rewrite Hext. by destruct reply.
Qed.

Lemma takes_wait {A} (elapsed : X) database
    (ans : Step -> Session -> Session * option (Result E A)) :
  one_step ans -> takes 1 (before_commit elapsed database (interact ans)).
Proof.
  intros Ha s Hs. unfold before_commit. destruct (interact_extend ans s Ha Hs) as [Hl Hext].
  destruct (interact ans s) as [s1 reply]. cbn [fst snd] in *. split; [lia|].
  intros rest. by rewrite Hext.
Qed.

Lemma one_step_send {A} (q : Query A) : one_step (send q).
Proof.
  intros step s. unfold send, extend. destruct (step_reply step) as [reply|]; [|done]. cbn.
  by destruct (reply A q (working s)).
Qed.

Lemma one_step_send_one {A} (q : Query A) : one_step (send_one q).
Proof.
  intros step s. unfold send_one. destruct (one_step_send q step s) as [Hs Hext].
  destruct (send q step s) as [s1 reply]. cbn [fst snd] in *. split; [done|].
  intros rest. by rewrite Hext.
Qed.

Lemma one_step_begin : one_step send_begin.
Proof. done. Qed.

Lemma one_step_rollback : one_step send_rollback.
Proof. done. Qed.

Lemma one_step_commit : one_step send_commit.
Proof. done. Qed.

Lemma takes_deny {D} (d : D) : takes (X := X) 1 (deny d).
Proof.
  intros s Hs. unfold deny, finish_denied_transaction.
  destruct (interact_extend _ s one_step_rollback Hs) as [Hl Hext].
  destruct (interact send_rollback s) as [s1 reply]. cbn [fst snd] in *. split; [lia|].
  intros rest. by rewrite Hext.
Qed.
End Takes.

Lemma takes_begin deadline : takes 1 (begin_ deadline).
Proof. apply (takes_bind 1 0); [apply takes_wait, one_step_begin|intros u; apply takes_ret]. Qed.

Lemma takes_prepare tx phase : takes 2 (prepare tx phase).
Proof.
  apply (takes_bind 1 1); [apply takes_clock|]. intros now.
  destruct (remaining_server_timeout_settings _ _) as [[st lk]|];
    [|apply (takes_weaken 0); [lia|apply takes_fail]].
  apply (takes_bind 1 0); [apply takes_wait, one_step_send|intros r; apply takes_ret].
Qed.

Lemma takes_execute {A} tx phase (q : Query A) : takes 3 (execute tx phase q).
Proof.
  apply (takes_bind 2 1); [apply takes_prepare|]. intros u.
  apply (takes_bind 1 0); [apply takes_wait, one_step_send|intros r; apply takes_ret].
Qed.

Lemma takes_fetch_all {A} tx phase (q : Query A) : takes 3 (fetch_all tx phase q).
Proof.
  apply (takes_bind 2 1); [apply takes_prepare|]. intros u.
  apply (takes_bind 1 0); [apply takes_wait, one_step_send|intros r; apply takes_ret].
Qed.

Lemma takes_fetch_one {A} tx phase (q : Query A) : takes 3 (fetch_one tx phase q).
Proof.
  apply (takes_bind 2 1); [apply takes_prepare|]. intros u. apply takes_wait, one_step_send_one.
Qed.

Lemma takes_commit tx : takes 4 (commit tx).
Proof.
  apply (takes_bind 2 2); [apply takes_prepare|]. intros u.
  apply (takes_bind 1 1); [apply takes_clock|]. intros now.
  destruct (_ <=? _); [apply (takes_weaken 0); [lia|apply takes_fail]|].
  apply takes_wait, one_step_commit.
Qed.

Lemma takes_publish {D} tx (d : D) : takes 4 (_ ← commit tx; mret (Reusable d)).
Proof. apply (takes_bind 4 0); [apply takes_commit|intros u; apply takes_ret]. Qed.

Lemma takes_maintenance_timeouts deadline phase :
  takes (X := MaintenanceError E) 2 (set_maintenance_server_timeouts deadline phase).
Proof.
  apply (takes_bind 1 1); [apply takes_clock|]. intros now.
  destruct (remaining_server_timeout_settings _ _) as [[st lk]|];
    [|apply (takes_weaken 0); [lia|apply takes_fail]].
  apply (takes_bind 1 0); [apply takes_wait, one_step_send|intros r; apply takes_ret].
Qed.

Lemma takes_commit_maintenance deadline : takes 4 (commit_maintenance deadline).
Proof.
  apply (takes_bind 1 3); [apply takes_clock|]. intros now.
  destruct (_ <=? _); [apply (takes_weaken 0); [lia|apply takes_fail]|].
  apply (takes_bind 2 1); [apply takes_maintenance_timeouts|]. intros u.
  apply takes_wait, one_step_commit.
Qed.

End AnyServer.

#[export] Hint Resolve safely_clock safely_begin safely_prepare safely_execute safely_fetch_all
  safely_fetch_one safely_commit safely_wait : quiet.

Create HintDb interactions discriminated.
#[export] Hint Resolve takes_ret takes_fail takes_lift takes_expect takes_clock takes_begin takes_execute
  takes_fetch_all takes_fetch_one takes_deny takes_publish takes_commit takes_maintenance_timeouts
  takes_commit_maintenance : interactions.
