(* ===== verification/PgRefine.v ===== *)
(** The fixed-window PostgreSQL limiter implements [PgSpec]: on a server
    that answers from its tables before the deadline, the client's SQL,
    decoding and bookkeeping come to exactly the specified admission and
    tables. *)

From Stdlib Require Import Ascii String Sorting.Sorted.
From stdpp Require Import prelude list gmap.
From S2P Require Import Prelude RustStd Identifier Policy Decision AttemptPolicy Key Check Observation OrdSet Shards PgErrors PgConfig PgSession PgTables PgLedger PgAdmission PgMaintenance PgConnection PgLimiter PgSpec PgHonest.
Open Scope Z_scope.
Open Scope list_scope.

(** * The statements' inputs *)

Lemma mapO_Done {A B} (f : A -> Outcome B) (g : A -> B) l :
  (forall x, x ∈ l -> f x = Done (g x)) -> mapO f l = Done (map g l).
Proof.
  induction l as [|x l IH]; intros Hf; cbn; [done|]. rewrite (Hf x) by (by left). cbn.
  by rewrite IH by (intros; apply Hf; by right).
Qed.

Section SortBy.
Context {A K : Type} `{Ordered K} (key : A -> K).

Lemma insert_by_perm x l : insert_by key x l ≡ₚ x :: l.
Proof.
  induction l as [|y l IH]; [done|]. simpl. destruct (cmp (key y) (key x)); [| |done];
    rewrite IH; apply Permutation_swap.
Qed.

Lemma sort_by_perm l : sort_by key l ≡ₚ l.
Proof.
  unfold sort_by. rewrite <- (app_nil_l l) at 2. generalize (@nil A). induction l as [|x l IH]; intros acc.
  - by rewrite app_nil_r.
  - cbn. rewrite IH, insert_by_perm. cbn. by rewrite Permutation_middle.
Qed.

Definition sorted_by (l : list A) : Prop :=
  StronglySorted (fun a b => cmp (key a) (key b) <> Gt) l.

Lemma insert_by_sorted x l : sorted_by l -> sorted_by (insert_by key x l).
Proof.
  induction 1 as [|y l Hl IH Hall]; cbn; [by repeat constructor|].
  destruct (cmp (key y) (key x)) eqn:Hc.
  1,2: constructor; [done|]; rewrite insert_by_perm; constructor; [congruence|done].
  constructor; [by constructor|]. constructor.
  - rewrite cmp_gt in Hc. congruence.
  - apply cmp_gt in Hc. eapply Forall_impl; [done|]. intros z Hz Hgt. apply cmp_gt in Hgt.
    apply Hz. apply cmp_gt. by apply cmp_trans with (key x).
Qed.

Lemma sort_by_sorted l : sorted_by (sort_by key l).
Proof.
  unfold sort_by. assert (Hacc : sorted_by []) by constructor. revert Hacc.
  generalize (@nil A). induction l as [|x l IH]; intros acc Hacc; [done|].
  cbn. by apply IH, insert_by_sorted.
Qed.
End SortBy.

(** The documented conversion of [sqlx]: an interval is whole microseconds,
    and durations of at most [i64::MAX] microseconds convert exactly. *)
Class PgIntervalsLaws `{PgIntervals} : Prop := {
  PgInterval_exact : forall micros, 0 <= micros <= i64_max ->
    PgInterval_try_from (mkDuration (micros * 1000)) = Some micros;
}.

Record batch_ok (checks : list FixedCheck) : Prop := {
  bo_nonempty : checks <> [];
  bo_length : Z.of_nat (length checks) <= i64_max;
  bo_distinct : NoDup (Check_counter_key <$> checks);
  bo_checks : Forall check_ok checks;
}.

Section Inputs.
Context `{PgIntervalsLaws} (sha256 : bytes -> bytes).

Definition batch_input (checks : list FixedCheck) : BatchSqlInput :=
  let keys := map Check_counter_key checks in
  mkBatchSqlInput
    (map (fun c => PolicyId_as_str (fw_id (check_policy c))) checks)
    (map (fun c => ScopeId_as_str (fw_scope (check_policy c))) checks)
    (map (fun key => fingerprint_bytes (ck_fingerprint key)) keys)
    (map (fun key => SubjectKey_as_bytes (ck_subject key)) keys)
    (map capacity_shard keys)
    (map (fun index => Z.of_nat index + 1) (ordered_indices keys))
    (dedup (sort_by id (map (advisory_lock_id sha256) keys)))
    (map window_micros checks) (map check_cost checks) (map check_limit checks).

Lemma from_checks_Done checks : batch_ok checks -> from_checks sha256 checks = Done (batch_input checks).
Proof.
  intros [Hne Hlen Hnd Hall]. unfold from_checks, batch_input.
  rewrite (mapO_Done _ (fun index => Z.of_nat index + 1)).
  2:{ intros index Hin. unfold ordered_indices in Hin. rewrite sort_by_perm in Hin.
      apply elem_of_seq in Hin. rewrite length_map in Hin. unfold try_from. by rewrite checked_in by lia. }
  cbn [mbind Outcome_bind].
  assert (Hmap : forall f (g : FixedCheck -> Z), (forall c, check_ok c -> f c = Done (g c)) ->
    mapO f checks = Done (map g checks)).
  { intros f g Hf. apply mapO_Done. intros c Hc. apply Hf. by apply (proj1 (Forall_forall _ _) Hall). }
  rewrite (Hmap (fun check => expect (PgInterval_try_from (QuotaPeriod_duration
    (fw_window (check_policy check))))) window_micros).
  2:{ intros c Hc. destruct (ck_policy c Hc) as (_ & _ & _ & Hw). unfold QuotaPeriod_wf in Hw.
      rewrite MAX_WINDOW_MILLIS_val in Hw. cbv beta. unfold window_micros, QuotaPeriod_duration, from_millis.
      replace (QuotaPeriod_millis (fw_window (check_policy c)) * 1000000)
        with (QuotaPeriod_millis (fw_window (check_policy c)) * 1000 * 1000) by lia.
      rewrite PgInterval_exact by solve_width. done. }
  cbn [mbind Outcome_bind]. unfold database_integer, try_from.
  rewrite (Hmap (fun check => expect (checked i64_max (check_cost check))) check_cost),
    (Hmap (fun check => expect (checked i64_max (Capacity_get (fw_limit (check_policy check)))))
      check_limit); [done| |]; intros c Hc;
    destruct (ck_policy c Hc) as (_ & _ & Hl & _), (ck_cost c Hc); unfold Capacity_wf, MAX_LIMIT in Hl;
    unfold check_limit in *; by rewrite checked_in by lia.
Qed.
End Inputs.

(** * The server's tables and clocks on honest steps *)

Definition fixed_answer {E} `{SqlxError E} (t : Tick)
    : forall A, FixedQuery E A -> FixedDb -> FixedDb * Result E (Response A) :=
  fixed_sql (started t) (finished t).

#[export] Instance fixed_answers {E} `{SqlxError E} : Answers (E := E) fixed_answer.
Proof. split. intros. by eexists. Qed.

#[local] Hint Resolve fixed_answers : core.

Notation honest := (honest_step fixed_answer).
Notation sess := (honest_session fixed_answer).

(** * Replies and their decoding *)

(** [with_ordinality] from a position. *)
Definition ordinals {A} (k : nat) (l : list A) : list (Z * A) := imap (fun i x => (Z.of_nat (k + i), x)) l.

Lemma ordinals_cons {A} k (x : A) l : ordinals k (x :: l) = (Z.of_nat k, x) :: ordinals (S k) l.
Proof.
  unfold ordinals. rewrite imap_cons. f_equal; [f_equal; lia|].
  apply imap_ext. intros i y _. cbn. f_equal. lia.
Qed.

Lemma with_ordinality_ordinals {A} (l : list A) : with_ordinality l = ordinals 0 l.
Proof. done. Qed.

Lemma zip_map {A B C} (f : A -> B) (g : A -> C) l : zip (map f l) (map g l) = map (fun x => (f x, g x)) l.
Proof. induction l as [|x l IH]; [done|]. simpl. by rewrite IH. Qed.

Lemma unnest_keys_map (checks : list FixedCheck) :
  unnest_keys (map (fun key => fingerprint_bytes (ck_fingerprint key)) (map Check_counter_key checks))
    (map (fun key => SubjectKey_as_bytes (ck_subject key)) (map Check_counter_key checks))
  = map Check_counter_key checks.
Proof.
  unfold unnest_keys. induction checks as [|c checks IH]; [done|]. simpl. rewrite IH.
  f_equal. unfold storage_key, Check_counter_key, CounterKey_new. simpl.
  by destruct (fw_fingerprint (check_policy c)), (check_subject c).
Qed.

Lemma Ok_bind {X A B} (a : A) (f : A -> Result X B) : Ok a ≫= f = f a.
Proof. done. Qed.
Lemma ret_bind {X A B} (a : A) (f : A -> Result X B) : mret a ≫= f = f a.
Proof. done. Qed.
Lemma required_bind {E A B} detail (a : A) (f : A -> Result (CheckError E) B) :
  required detail (Some a) ≫= f = f a.
Proof. done. Qed.

Section Decode.
Context {E : Type} `{SqlxError E} (db : FixedDb) (Hdb : Fixed_wf db).

(** ** Capacity *)

Fixpoint capacity_reply (k : nat) (checks : list FixedCheck) : list (CapacityRow E) :=
  match checks with
  | [] => []
  | c :: checks =>
      (if bool_decide (is_Some (stored db c)) then []
       else [mkCapacityRow (Ok (Z.of_nat k)) (Ok (check_shard c)) (Ok (ledger db !! check_shard c))])
      ++ capacity_reply (S k) checks
  end.

Lemma capacity_rows_reply k checks :
  (fun '(index, (key, shard)) => mkCapacityRow (Ok index) (Ok shard) (Ok (ledger db !! shard)))
  <$> filter (fun '(index, (key, shard)) => windows db !! key = None)
        (ordinals k (zip (map Check_counter_key checks)
           (map capacity_shard (map Check_counter_key checks))))
  = capacity_reply k checks.
Proof.
  revert k. induction checks as [|c checks IH]; intros k; [done|].
  cbn [map zip zip_with capacity_reply]. rewrite ordinals_cons, filter_cons, <- IH.
  unfold stored. case_decide as Hk; simpl in Hk.
  - by rewrite bool_decide_eq_false_2 by (rewrite Hk; apply is_Some_None).
  - rewrite bool_decide_eq_true_2; [done|]. by apply not_eq_None_Some.
Qed.

Fixpoint capacity_refusal (maximum : Z) (ahead : list CounterKey) (index : nat)
    (checks : list FixedCheck) : option (nat * PendingDenial) :=
  match checks with
  | [] => None
  | c :: checks =>
      match stored db c with
      | Some _ => capacity_refusal maximum ahead (S index) checks
      | None =>
          if maximum <? default 0 (ledger db !! check_shard c) + in_shard (check_shard c) ahead + 1
          then Some (index, PendingDenial_StorageCapacity)
          else capacity_refusal maximum (ahead ++ opened db c) (S index) checks
      end
  end.

Definition pending_counts (ahead : list CounterKey) (pending : list Z) : Prop :=
  length pending = 256%nat
  /\ forall shard, 0 <= shard <= 255 -> pending !! Z.to_nat shard = Some (in_shard shard ahead).

Lemma pending_counts_new : pending_counts [] (replicate (Z.to_nat CAPACITY_SHARD_COUNT) 0).
Proof.
  split; [done|]. intros shard Hs. apply lookup_replicate. split; [done|].
  unfold CAPACITY_SHARD_COUNT. lia.
Qed.

Lemma pending_counts_open ahead pending c :
  pending_counts ahead pending -> stored db c = None -> 0 <= check_shard c <= 255 ->
  pending_counts (ahead ++ opened db c)
    (<[Z.to_nat (check_shard c) := in_shard (check_shard c) ahead + 1]> pending).
Proof.
  intros [Hlen Hp] Hk Hc. split; [by rewrite length_insert|]. intros shard Hs.
  assert (Hop : in_shard shard (ahead ++ opened db c)
    = in_shard shard ahead + unit_of (Check_counter_key c) shard).
  { unfold opened. rewrite Hk, in_shard_app, in_shard_cons.
    change (in_shard shard []) with 0. lia. }
  rewrite Hop. unfold unit_of, check_shard in *. case_decide as Heq.
  - subst shard. apply list_lookup_insert_eq. rewrite Hlen. lia.
  - rewrite list_lookup_insert_ne by lia. rewrite Hp by done. f_equal. lia.
Qed.

Lemma capacity_loop_honest maximum checks pre ahead pending :
  Forall check_ok checks -> pending_counts ahead pending ->
  Z.of_nat (length ahead + length checks) <= i64_max ->
  capacity_loop (map capacity_shard (map Check_counter_key (pre ++ checks))) maximum pending
    (capacity_reply (length pre) checks)
  = Ok (capacity_refusal maximum ahead (length pre) checks).
Proof.
  revert pre ahead pending. induction checks as [|c checks IH]; intros pre ahead pending Hall Hp Hlen; [done|].
  apply Forall_cons in Hall as [Hc Hall]. cbn [capacity_reply capacity_refusal].
  assert (Hsplit : pre ++ c :: checks = (pre ++ [c]) ++ checks) by (by rewrite <- app_assoc).
  assert (Hpre : S (length pre) = length (pre ++ [c])) by (rewrite length_app; cbn; lia).
  destruct (stored db c) as [row|] eqn:Hk; cbn [app].
  { rewrite bool_decide_eq_true_2 by done. rewrite Hsplit, Hpre. apply IH; [done..|]. cbn in Hlen. lia. }
  rewrite bool_decide_eq_false_2 by apply is_Some_None. cbn [app].
  pose proof (check_shard_range c Hc) as Hrange.
  assert (Hledger : ledger db !! check_shard c = Some (shard_rows (windows db) (check_shard c))).
  { rewrite (fd_ledger db Hdb). by rewrite decide_True by lia. }
  pose proof (fd_maximum db Hdb (check_shard c)) as Hmax.
  assert (Hrows : 0 <= shard_rows (windows db) (check_shard c)) by (unfold shard_rows; lia).
  pose proof (in_shard_nonneg (check_shard c) ahead).
  pose proof (in_shard_length (check_shard c) ahead). unfold HARD_MAX_ROWS_PER_SHARD in Hmax.
  cbn [capacity_loop column map_err cr_input_index cr_capacity_shard cr_row_count].
  unfold usize_try_from. rewrite Ok_bind. destruct (Z.ltb_spec (Z.of_nat (length pre)) 0); [lia|].
  rewrite Nat2Z.id, required_bind.
  assert (Hlook : map capacity_shard (map Check_counter_key (pre ++ c :: checks)) !! length pre
    = Some (check_shard c)).
  { rewrite !list_lookup_fmap. by rewrite list_lookup_middle. }
  rewrite Hlook, required_bind, Ok_bind, Z.eqb_refl. cbn [negb].
  destruct (Z.ltb_spec (check_shard c) 0); [lia|]. rewrite required_bind.
  destruct Hp as [Hplen Hpl]. rewrite (Hpl (check_shard c)) by done.
  rewrite required_bind, Ok_bind, Hledger, required_bind. cbn [default from_option].
  destruct (Z.ltb_spec (shard_rows (windows db) (check_shard c)) 0); [lia|]. rewrite required_bind.
  unfold checked_add. rewrite checked_in by (cbn in Hlen; solve_width). cbn [mbind option_bind].
  rewrite checked_in by (cbn in Hlen; solve_width). rewrite required_bind.
  destruct (maximum <? _); [done|].
  rewrite Hsplit, Hpre. apply IH; [done|by apply pending_counts_open|].
  rewrite length_app. unfold opened. rewrite Hk. cbn in *. lia.
Qed.

(** ** Quota *)

Context (now : Z).

Fixpoint quota_refusal (index : nat) (checks : list FixedCheck) : option (nat * (FixedCheck * Z)) :=
  match checks with
  | [] => None
  | c :: checks =>
      match stored db c with
      | Some row =>
          if (now <? w_expires_at row) && (check_limit c <? w_used row + check_cost c)
          then Some (index, (c, w_expires_at row)) else quota_refusal (S index) checks
      | None => quota_refusal (S index) checks
      end
  end.

Lemma first_denial_sql_honest k checks :
  head (omap (fun '(index, (key, (cost, limit))) =>
    match windows db !! key with
    | Some row =>
        if (now <? w_expires_at row) && (limit - cost <? w_used row)
        then Some (index, w_expires_at row) else None
    | None => None
    end) (ordinals k (zip (map Check_counter_key checks)
            (zip (map check_cost checks) (map check_limit checks)))))
  = (fun '(i, (c, expires_at)) => (Z.of_nat i, expires_at)) <$> quota_refusal k checks.
Proof.
  revert k. induction checks as [|c checks IH]; intros k; [done|].
  cbn [map zip zip_with]. rewrite ordinals_cons. cbn [omap list_omap quota_refusal]. unfold stored.
  destruct (windows db !! Check_counter_key c) as [row|]; [|apply IH].
  replace (check_limit c - check_cost c <? w_used row) with (check_limit c <? w_used row + check_cost c)
    by (destruct (Z.ltb_spec (check_limit c) (w_used row + check_cost c)),
          (Z.ltb_spec (check_limit c - check_cost c) (w_used row)); done || lia).
  destruct ((now <? _) && _); [done|apply IH].
Qed.

Lemma quota_refusal_lookup index checks i c expires_at :
  quota_refusal index checks = Some (i, (c, expires_at)) ->
  (index <= i)%nat /\ checks !! (i - index)%nat = Some c /\ now < expires_at.
Proof.
  revert index. induction checks as [|d checks IH]; intros index Hr; [done|]. cbn [quota_refusal] in Hr.
  assert (Hnext : quota_refusal (S index) checks = Some (i, (c, expires_at)) ->
    (index <= i)%nat /\ (d :: checks) !! (i - index)%nat = Some c /\ now < expires_at).
  { intros (Hle & Hl & He)%IH. split; [lia|].
    by replace (i - index)%nat with (S (i - S index)) by lia. }
  destruct (stored db d) as [row|]; [|by apply Hnext].
  destruct (Z.ltb_spec now (w_expires_at row)); cbn in Hr; [|by apply Hnext].
  destruct (check_limit d <? _); [|by apply Hnext]. simplify_eq. by rewrite Nat.sub_diag.
Qed.

Lemma duration_until_honest expires_at : now <= expires_at ->
  duration_until expires_at now = Ok (mkDuration ((expires_at - now) * 1000)) :> Result (CheckError E) Duration.
Proof.
  intros Hle. unfold duration_until, to_std. by destruct (Z.ltb_spec (expires_at - now) 0); [lia|].
Qed.

Definition pending_quota (c : FixedCheck) (expires_at : Z) : PendingDenial :=
  PendingDenial_Quota (mkPendingQuotaDenial (fw_limit (check_policy c))
    (mkDuration ((expires_at - now) * 1000))).

Lemma decode_preflight_honest responded checks :
  decode_preflight (E := E) checks
    (mkPreflightRow (Ok now) (Ok responded)
       (Ok (fst <$> first_denial_sql db (map Check_counter_key checks)
              (map check_cost checks) (map check_limit checks) now))
       (Ok (snd <$> first_denial_sql db (map Check_counter_key checks)
              (map check_cost checks) (map check_limit checks) now)))
  = Ok (mkBatchPreflight now responded
          ((fun '(i, (c, expires_at)) => (i, pending_quota c expires_at)) <$> quota_refusal 0 checks)).
Proof.
  unfold first_denial_sql. rewrite with_ordinality_ordinals, first_denial_sql_honest.
  destruct (quota_refusal 0 checks) as [[i [c expires_at]]|] eqn:Hq; [|done].
  apply quota_refusal_lookup in Hq as (_ & Hl & He). rewrite Nat.sub_0_r in Hl.
  unfold decode_preflight. cbn. unfold usize_try_from.
  destruct (Z.ltb_spec (Z.of_nat i) 0); [lia|]. rewrite Nat2Z.id. cbn. rewrite Hl. cbn.
  rewrite duration_until_honest by lia. done.
Qed.

(** ** The first denial of the two replies is the specified refusal *)

Definition pending_refusal (c : FixedCheck) (r : Refusal) : PendingDenial :=
  match r with
  | RefusedQuota expires_at => pending_quota c expires_at
  | RefusedCapacity => PendingDenial_StorageCapacity
  end.

Lemma capacity_refusal_index maximum ahead index checks i d :
  capacity_refusal maximum ahead index checks = Some (i, d) -> (index <= i)%nat.
Proof.
  revert ahead index. induction checks as [|c checks IH]; intros ahead index Hr; [done|]. cbn [capacity_refusal] in Hr.
  destruct (stored db c); [apply IH in Hr; lia|].
  destruct (maximum <? _); [simplify_eq; lia|apply IH in Hr; lia].
Qed.

Lemma first_denial_honest maximum ahead index checks :
  first_denial (capacity_refusal maximum ahead index checks)
    ((fun '(i, (c, expires_at)) => (i, pending_quota c expires_at)) <$> quota_refusal index checks)
  = (fun '(i, (c, r)) => (i, pending_refusal c r)) <$> first_refusal db now maximum ahead index checks.
Proof.
  revert ahead index. induction checks as [|c checks IH]; intros ahead index; [done|].
  cbn [capacity_refusal quota_refusal first_refusal]. unfold refusal.
  destruct (stored db c) as [row|] eqn:Hk.
  - destruct ((now <? w_expires_at row) && _).
    + cbn. destruct (capacity_refusal _ _ _ _) as [[i d]|] eqn:Hcap; [|done].
      apply capacity_refusal_index in Hcap. unfold first_denial. cbn [fst].
      by destruct (Nat.ltb_spec i index); [lia|].
    + rewrite <- IH. unfold opened. by rewrite Hk, app_nil_r.
  - destruct (maximum <? _); [|apply IH]. cbn.
    destruct (quota_refusal (S index) checks) as [[i [d expires_at]]|] eqn:Hq; [|done].
    apply quota_refusal_lookup in Hq as [Hle _]. destruct i as [|i]; [lia|]. cbn.
    by destruct (Nat.leb_spec index i); [|lia].
Qed.
End Decode.

(** * The update *)

Definition upsert_input (c : FixedCheck) : UpsertInput :=
  mkUpsertInput (PolicyId_as_str (fw_id (check_policy c))) (ScopeId_as_str (fw_scope (check_policy c)))
    (Check_counter_key c) (window_micros c) (check_cost c) (check_limit c).

Lemma upsert_inputs_map (checks : list FixedCheck) :
  upsert_inputs (map (fun c => PolicyId_as_str (fw_id (check_policy c))) checks)
    (map (fun c => ScopeId_as_str (fw_scope (check_policy c))) checks)
    (map Check_counter_key checks) (map window_micros checks) (map check_cost checks)
    (map check_limit checks)
  = map upsert_input checks.
Proof. unfold upsert_inputs. rewrite !zip_map. apply map_map. Qed.

Section Update.
Context {E : Type} `{SqlxError E} (db : FixedDb) (Hdb : Fixed_wf db) (now : Z).

Definition charge_windows (ws : gmap CounterKey WindowRow) (checks : list FixedCheck) :=
  foldl (fun ws c => <[Check_counter_key c := charged db now c]> ws) ws checks.

Lemma upsert_row_charged c :
  chargeable db now c -> upsert_row now (upsert_input c) (stored db c) = Some (charged db now c).
Proof.
  unfold chargeable, charged, upsert_row. destruct (stored db c) as [row|]; [|done].
  cbn [ui_limit ui_cost ui_policy_id ui_scope_id ui_window_size upsert_input]. intros Hch.
  destruct (Z.ltb_spec now (w_expires_at row)), (Z.leb_spec (w_expires_at row) now); try lia; [|done].
  destruct (Z.leb_spec (w_used row) (check_limit c - check_cost c)); [done|]. specialize (Hch ltac:(done)). lia.
Qed.

Lemma upsert_all_charged ws checks :
  Forall (chargeable db now) checks -> NoDup (Check_counter_key <$> checks) ->
  (forall c, c ∈ checks -> ws !! Check_counter_key c = stored db c) ->
  upsert_all now ws (map upsert_input checks)
  = (charge_windows ws checks, opened_keys db checks, map (fun c => Some (charged db now c)) checks).
Proof.
  intros Hch. revert ws. induction Hch as [|c checks Hc Hall IH]; intros ws Hnd Hws; [done|].
  apply NoDup_cons in Hnd as [Hk Hnd]. cbn [map upsert_all ui_key upsert_input].
  rewrite (Hws c) by (by left). rewrite upsert_row_charged by done.
  rewrite IH; [|done|].
  - unfold opened_keys. cbn [mbind list_bind]. unfold opened.
    by destruct (stored db c).
  - intros d Hd. rewrite lookup_insert_ne; [apply Hws; by right|].
    intros Heq. apply Hk. rewrite Heq. by apply list_elem_of_fmap_2.
Qed.

Definition update_reply (responded : Z) (k : nat) (checks : list FixedCheck) : list (UpsertRow E) :=
  imap (fun i c => mkUpsertRow (Ok (Z.of_nat (k + i))) (Ok (w_used (charged db now c)))
                     (Ok (w_expires_at (charged db now c))) (Ok responded)) checks.

Lemma update_reply_cons responded k c checks :
  update_reply responded k (c :: checks)
  = mkUpsertRow (Ok (Z.of_nat k)) (Ok (w_used (charged db now c)))
      (Ok (w_expires_at (charged db now c))) (Ok responded) :: update_reply responded (S k) checks.
Proof.
  unfold update_reply. rewrite imap_cons. f_equal; [do 2 f_equal; lia|].
  apply imap_ext. intros i d _. cbn. do 2 f_equal. lia.
Qed.

Lemma update_reply_honest responded k checks :
  omap (fun '(index, row) =>
    (fun row => mkUpsertRow (Ok index) (Ok (w_used row)) (Ok (w_expires_at row)) (Ok responded))
    <$> row) (ordinals k (map (fun c => Some (charged db now c)) checks))
  = update_reply responded k checks.
Proof.
  revert k. induction checks as [|c checks IH]; intros k; [done|].
  rewrite update_reply_cons, <- IH. cbn [map]. by rewrite ordinals_cons.
Qed.

Lemma forallb_charged checks :
  Forall (chargeable db now) checks -> Forall check_ok checks ->
  forallb (fun '(key, row) => from_option (window_row_ok key) true row)
    (zip (ui_key <$> map upsert_input checks) (map (fun c => Some (charged db now c)) checks)) = true.
Proof.
  induction 1 as [|c checks Hc _ IH]; intros Hok; [done|]. apply Forall_cons in Hok as [Hcok Hok].
  cbn. rewrite IH by done. apply charged_ok in Hc as [Hrow _]; [|done..].
  cbn in Hrow. by rewrite Hrow.
Qed.

Lemma ledger_charged maximum checks :
  maximum <= HARD_MAX_ROWS_PER_SHARD -> Forall check_ok checks ->
  first_refusal db now maximum [] 0 checks = None ->
  ledger_insert (ledger db) (shard_deltas (opened_keys db checks))
  = Ok (ledger (charge_all db now checks)).
Proof.
  intros Hmax Hok Hnone.
  destruct (ledger_insert_fits (ledger db) (shard_deltas (opened_keys db checks))) as [ledger' Hl].
  - apply shard_deltas_NoDup.
  - intros shard added [Hs ->]%shard_deltas_elem.
    pose proof (no_refusal_fits db now _ _ _ _ Hnone shard Hs) as Hfit.
    change (in_shard shard []) with 0 in Hfit. apply list_elem_of_fmap in Hs as (key & -> & Hkey).
    unfold opened_keys in Hkey. apply list_elem_of_bind in Hkey as (c & [-> _]%opened_key & Hc).
    assert (Hrange : 0 <= check_shard c <= 255).
    { apply check_shard_range. by apply (proj1 (Forall_forall _ _) Hok). }
    unfold check_shard in *. rewrite (fd_ledger db Hdb) in *. rewrite decide_True in * by lia.
    eexists. split; [done|]. cbn in Hfit. lia.
  - rewrite Hl. f_equal. apply ledger_insert_Ok in Hl as [_ Hl]; [|apply shard_deltas_NoDup].
    apply map_eq. intros shard. rewrite Hl, shard_deltas_lookup. cbn [charge_all ledger].
    rewrite map_lookup_imap. by destruct (ledger db !! shard).
Qed.

Lemma upsert_sql_honest maximum responded checks :
  maximum <= HARD_MAX_ROWS_PER_SHARD -> Forall check_ok checks -> NoDup (Check_counter_key <$> checks) ->
  first_refusal db now maximum [] 0 checks = None ->
  exists affected, upsert_sql db (map upsert_input checks) now responded
    = (charge_all db now checks, Ok (mkResponse (update_reply responded 0 checks) affected)).
Proof.
  intros Hmax Hok Hnd Hnone. pose proof (no_refusal_chargeable _ _ _ _ _ _ Hnone) as Hch.
  unfold upsert_sql. rewrite upsert_all_charged by done.
  rewrite bool_decide_eq_true_2.
  2:{ change (NoDup (ui_key <$> (upsert_input <$> checks))). by rewrite <- list_fmap_compose. }
  rewrite forallb_charged by done. cbn [negb]. rewrite (ledger_charged maximum) by done.
  rewrite with_ordinality_ordinals, update_reply_honest. by eexists.
Qed.

Definition pending_charge (c : FixedCheck) : PendingAllowance :=
  mkPendingAllowance (mkAllowance (fw_limit (check_policy c)) (check_limit c - w_used (charged db now c))
    (Delay_new (mkDuration ((w_expires_at (charged db now c) - now) * 1000)))).

Lemma upsert_loop_honest responded pre checks :
  Forall (chargeable db now) checks -> Forall check_ok checks ->
  upsert_loop (pre ++ checks) now (length pre) (update_reply responded (length pre) checks)
  = Ok (map pending_charge checks).
Proof.
  intros Hch. revert pre. induction Hch as [|c checks Hc _ IH]; intros pre Hok; [done|].
  apply Forall_cons in Hok as [Hcok Hok]. rewrite update_reply_cons. cbn [upsert_loop ur_input_index].
  pose proof (charged_ok db now c Hdb Hcok Hc) as (_ & Hexp & Hused).
  cbn [column map_err]. rewrite Ok_bind. unfold usize_try_from.
  destruct (Z.ltb_spec (Z.of_nat (length pre)) 0); [lia|]. rewrite Nat2Z.id, required_bind.
  rewrite list_lookup_middle by done. rewrite required_bind.
  unfold read_expiry. cbn [column map_err ur_window_expires_at]. rewrite Ok_bind.
  rewrite duration_until_honest by lia. rewrite Ok_bind, Nat.eqb_refl. cbn [negb].
  unfold read_used. cbn [column map_err ur_used]. rewrite Ok_bind.
  destruct (Z.ltb_spec (w_used (charged db now c)) 0); [lia|]. rewrite Ok_bind.
  destruct (ck_policy c Hcok) as (_ & _ & Hl & _). unfold Capacity_wf, MAX_LIMIT in Hl.
  unfold check_limit in *. unfold PendingAllowance_new, checked_sub.
  rewrite checked_in by solve_width. cbn [ok_or]. rewrite Ok_bind, Allowance_new_ok by lia.
  cbn [map_err]. rewrite Ok_bind. specialize (IH (pre ++ [c]) Hok).
  rewrite length_app, <- app_assoc in IH. cbn in IH. rewrite Nat.add_1_r in IH.
  by rewrite ret_bind, IH.
Qed.

Lemma decode_upsert_honest responded checks :
  checks <> [] -> Forall (chargeable db now) checks -> Forall check_ok checks ->
  decode_upsert checks now (update_reply responded 0 checks)
  = Ok (map pending_charge checks, responded).
Proof.
  intros Hne Hch Hok. unfold decode_upsert. destruct checks as [|c checks]; [done|].
  rewrite update_reply_cons. cbn [ur_response_now column map_err]. rewrite Ok_bind.
  rewrite <- update_reply_cons.
  pose proof (upsert_loop_honest responded [] (c :: checks) Hch Hok) as Hloop.
  cbn [app length] in Hloop. rewrite Hloop.
  rewrite Ok_bind, length_map, Nat.eqb_refl. done.
Qed.
End Update.

(** * Whole transactions *)

Section Transactions.
Context {E : Type} `{SqlxError E} `{PgIntervalsLaws} (sha256 : bytes -> bytes).
Notation Session := (Session E FixedDb (FixedQuery E)).

Lemma elapsed_honest now responded :
  authoritative_elapsed now responded = mkDuration (Z.max 0 (responded - now) * 1000).
Proof.
  unfold authoritative_elapsed, to_std. destruct (Z.ltb_spec (responded - now) 0); cbn.
  - unfold DURATION_ZERO. f_equal. lia.
  - f_equal. lia.
Qed.

(** The admission of a pending refusal. *)
Lemma refused_honest db now responded maximum checks i c r :
  Forall (fun c => exists m, Forall (fun d => fw_quota_mode (check_policy d) = m) checks
                             /\ fw_quota_mode (check_policy c) = m) checks ->
  first_refusal db now maximum [] 0 checks = Some (i, (c, r)) ->
  denied_admission checks i (pending_refusal now c r) (authoritative_elapsed now responded)
  = Done (refused now responded i c r).
Proof.
  intros Hmode Hr. apply first_refusal_lookup in Hr as [_ Hl]. rewrite Nat.sub_0_r in Hl.
  rewrite elapsed_honest. unfold denied_admission. destruct checks as [|d checks]; [done|].
  cbn [head expect mbind Outcome_bind].
  assert (Heq : fw_quota_mode (check_policy d) = fw_quota_mode (check_policy c)).
  { apply Forall_lookup_1 with (i := i) (x := c) in Hmode as (m & Hall & Hc); [|done].
    apply Forall_cons in Hall as [Hd _]. congruence. }
  rewrite Heq. destruct r; cbn; [|done]. by destruct (fw_quota_mode (check_policy c)).
Qed.

(** Finishing the allowances. *)
Lemma finish_honest db now responded checks :
  Forall (fun c => 0 < w_used (charged db now c)) checks ->
  mapO (fun a => PendingAllowance_finish a (authoritative_elapsed now responded))
    (map (pending_charge db now) checks)
  = Done (map (allowance db now responded) checks).
Proof.
  rewrite elapsed_honest. induction 1 as [|c checks Hc _ IH]; [done|]. cbn [map mapO].
  rewrite IH. unfold PendingAllowance_finish. cbn [pending_charge pending_allowance
    Allowance_capacity Allowance_available Allowance_replenishes_after].
  rewrite Allowance_new_ok by (unfold check_limit; lia). done.
Qed.

Definition mode_ok (checks : list FixedCheck) : Prop :=
  exists m, Forall (fun d => fw_quota_mode (check_policy d) = m) checks.

Lemma mode_ok_all checks : mode_ok checks ->
  Forall (fun c => exists m, Forall (fun d => fw_quota_mode (check_policy d) = m) checks
                             /\ fw_quota_mode (check_policy c) = m) checks.
Proof.
  intros [m Hm]. apply Forall_forall. intros c Hc. exists m. split; [done|].
  by apply (proj1 (Forall_forall _ _) Hm).
Qed.

(** The part of the transaction before its outcome is known. *)
Lemma execute_batch_honest db maximum d checks t10 t11 t12 t13 t14 t15 t16 t17 t18 ts :
  batch_ok checks -> Fixed_wf db -> maximum <= HARD_MAX_ROWS_PER_SHARD ->
  at_client t10 <= d -> at_client t13 <= d -> at_client t16 <= d ->
  let now := started t15 in
  execute_batch (mkCheckTransaction d) (batch_input sha256 checks) checks maximum
    (sess db db (t10 :: t11 :: t12 :: t13 :: t14 :: t15 :: t16 :: t17 :: t18 :: ts))
  = match first_refusal db now maximum [] 0 checks with
    | Some (i, (c, r)) =>
        (sess db db (t16 :: t17 :: t18 :: ts),
         Done (Ok (PendingBatchOutcome_Denied i (pending_refusal now c r),
                   authoritative_elapsed now (finished t15))))
    | None =>
        (sess db (charge_all db now checks) ts,
         Done (Ok (PendingBatchOutcome_Allowed (map (pending_charge db now) checks),
                   authoritative_elapsed now (finished t18))))
    end.
Proof.
  intros [Hne Hlen Hnd Hok] Hdb Hmax H10 H13 H16 now. unfold execute_batch.
  (* the capacity locks *)
  rewrite (bind_Ok _ _ _ (sess db db (t13 :: t14 :: t15 :: t16 :: t17 :: t18 :: ts))
    (capacity_refusal db maximum [] 0 checks)).
  2:{ unfold first_capacity_denial. erewrite bind_Ok by (by apply fetch_all_honest).
      unfold checked_reply, lift. cbn [rows batch_input fingerprints subjects capacity_shards].
      rewrite unnest_keys_map. unfold capacity_rows. rewrite with_ordinality_ordinals, capacity_rows_reply.
      rewrite (capacity_loop_honest db Hdb maximum checks [] []); [done|done|apply pending_counts_new|].
      cbn. lia. }
  (* the preflight *)
  rewrite (bind_Ok _ _ _ (sess db db (t16 :: t17 :: t18 :: ts))
    (mkBatchPreflight now (finished t15) ((fun '(i, (c, expires_at)) => (i, pending_quota now c expires_at))
       <$> quota_refusal db now 0 checks))).
  2:{ unfold preflight_batch. erewrite bind_Ok by (by eapply fetch_one_honest).
      unfold checked_reply, lift. cbn [batch_input fingerprints subjects costs limits].
      rewrite unnest_keys_map. by rewrite decode_preflight_honest. }
  cbn [bp_denial bp_database_now bp_response_now]. rewrite first_denial_honest.
  destruct (first_refusal db now maximum [] 0 checks) as [[i [c r]]|] eqn:Hr; [done|].
  cbn [fmap option_fmap option_map].
  (* the update *)
  destruct (upsert_sql_honest (E := E) db Hdb now maximum (finished t18) checks) as [affected Hup]; [done..|].
  rewrite (bind_Ok _ _ _ (sess db (charge_all db now checks) ts)
    (map (pending_charge db now) checks, finished t18)); [done|].
  unfold upsert_batch. erewrite bind_Ok.
  2:{ apply fetch_all_honest; [done|done|]. unfold fixed_answer. cbn [fixed_sql batch_input policy_ids scope_ids fingerprints
        subjects window_sizes costs limits]. rewrite unnest_keys_map, upsert_inputs_map. exact Hup. }
  unfold checked_reply, lift. cbn [rows].
  rewrite decode_upsert_honest; [done|done|done|by eapply no_refusal_chargeable|done].
Qed.

(** A transaction takes twenty interactions: [begin], the two locking
    statements, the capacity and preflight reads and the update with a clock
    reading and a timeout setting each, then the commit with a setting and
    two clock readings.  The preflight samples the time of admission. *)
Record honest_run (d : Z) (ts : list Tick) (preflight update : Tick) : Prop := {
  hr_length : (20 <= length ts)%nat;
  hr_deadline : Forall (fun t => at_client t < d) ts;
  hr_preflight : ts !! 12%nat = Some preflight;
  hr_update : ts !! 15%nat = Some update;
}.

Lemma transaction_honest {D} db maximum d checks ts preflight update
    (build : Admission -> Result (CheckError E) D) decision :
  batch_ok checks -> mode_ok checks -> Fixed_wf db -> maximum <= HARD_MAX_ROWS_PER_SHARD ->
  honest_run d ts preflight update ->
  let '(admission, db') :=
    admit_batch db (started preflight) maximum (finished preflight) (finished update) checks in
  build admission = Ok decision ->
  exists working rest,
    run_check_transaction_inner (batch_input sha256 checks) checks maximum d build (sess db db ts)
    = (sess db' working rest, Done (Ok (Reusable decision))).
Proof.
  intros Hbatch Hmode Hdb Hmax [Hlen Hd Hpre Hup].
  do 20 (destruct ts as [|? ts]; [cbn in Hlen; lia|]). cbn in Hpre, Hup. simplify_eq.
  repeat match goal with Hf : Forall _ (_ :: _) |- _ => apply Forall_cons in Hf as [? Hf] end.
  unfold admit_batch. pose proof (execute_batch_honest db maximum d checks) as Hexec.
  unfold run_check_transaction_inner, acquire_advisory_locks, acquire_existing_row_locks.
  erewrite bind_Ok by apply begin_honest.
  rewrite bind_assoc. erewrite bind_Ok by (apply execute_honest; [done|lia|done]).
  erewrite (bind_Ok (mret tt)) by reflexivity.
  rewrite bind_assoc. erewrite bind_Ok by (apply execute_honest; [done|lia|done]).
  erewrite (bind_Ok (mret tt)) by reflexivity.
  unfold mbind at 1, Tx_bind at 1. rewrite Hexec by (done || lia). clear Hexec.
  destruct (first_refusal db _ maximum [] 0 checks) as [[i [c r]]|] eqn:Hr.
  - intros Hbuild. rewrite (refused_honest db _ _ maximum) by (done || by apply mode_ok_all).
    erewrite (bind_Ok (expect_tx _)) by reflexivity.
    rewrite Hbuild. erewrite (bind_Ok (checked_reply _)) by reflexivity. rewrite denied_honest.
    do 2 eexists. reflexivity.
  - intros Hbuild. destruct Hbatch as [Hne Hlen' Hnd Hok].
    rewrite (finish_honest db).
    2:{ pose proof (no_refusal_chargeable _ _ _ _ _ _ Hr) as Hch.
        apply Forall_forall. intros c Hc.
        pose proof (proj1 (Forall_forall _ _) Hch c Hc). pose proof (proj1 (Forall_forall _ _) Hok c Hc).
        by apply charged_ok. }
    erewrite (bind_Ok (expect_tx _)) by reflexivity.
    rewrite Hbuild. erewrite (bind_Ok (checked_reply _)) by reflexivity.
    erewrite bind_Ok by (apply commit_honest; done || lia). do 2 eexists. reflexivity.
Qed.

(** A call on an honest server. *)
Record honest_env (self : PostgresLimiter) (env : PgEnv E FixedDb (FixedQuery E)) (preflight update : Tick) : Prop := {
  he_config : maximum_rows_per_shard (config self) <= HARD_MAX_ROWS_PER_SHARD;
  he_acquired : env_acquired env = Some (Ok tt);
  he_run : exists ts, env_schedule env = map honest ts
    /\ honest_run (env_connected_at env + as_nanos (operation_timeout (config self))) ts preflight update;
}.

Lemma run_checks_honest {D} self db env checks preflight update
    (build : Admission -> Result (CheckError E) D) decision :
  batch_ok checks -> mode_ok checks -> Fixed_wf db -> honest_env self env preflight update ->
  let '(admission, db') := admit_batch db (started preflight)
    (maximum_rows_per_shard (config self)) (finished preflight) (finished update) checks in
  build admission = Ok decision ->
  exists s, run_checks sha256 self db env checks build = mkCallEnd (Done (Ok decision)) (Some (s, false))
            /\ committed s = db'.
Proof.
  intros Hbatch Hmode Hdb [Hmax Hacq (ts & Hts & Hrun)].
  pose proof (transaction_honest db _ _ checks ts preflight update build decision Hbatch Hmode Hdb
    Hmax Hrun) as Htx.
  destruct (admit_batch _ _ _ _ _ _) as [admission db']. intros Hbuild.
  destruct (Htx Hbuild) as (working & rest & Hinner).
  unfold run_checks. rewrite from_checks_Done by done. rewrite Hacq. cbn [acquire_check_connection map_err].
  unfold guarded_run, run_check_transaction, connect. rewrite Hts.
  change (mkSession db db (map honest ts) false) with (sess db db ts).
  rewrite Hinner. cbn. by eexists.
Qed.

(** The decision of an admission of [n] checks. *)
Definition decision_of_batch (n : nat) (admission : Admission) : BatchDecision :=
  mkBatchDecision (match admission with
                   | Admission_Allowed allowances => BatchOutcome_Allowed allowances
                   | Admission_Denied index denial => BatchOutcome_Denied index n denial
                   | Admission_ShadowDenied index denial => BatchOutcome_ShadowDenied index n denial
                   end).

Definition decision_of_check (admission : Admission) : option Decision :=
  match admission with
  | Admission_Allowed (allowance :: _) => Some (Decision_allowed allowance)
  | Admission_Allowed [] => None
  | Admission_Denied _ denial => Some (Decision_denied denial)
  | Admission_ShadowDenied _ denial => Some (Decision_shadow_denied denial)
  end.

Lemma batch_decision_honest db now maximum refused_at updated_at checks :
  checks <> [] ->
  let admission := (admit_batch db now maximum refused_at updated_at checks).1 in
  batch_decision (E := E) (length checks) admission = Ok (decision_of_batch (length checks) admission).
Proof.
  intros Hne. unfold admit_batch. destruct (first_refusal _ _ _ _ _ _) as [[i [c r]]|] eqn:Hr; cbn.
  - apply first_refusal_lookup in Hr as [_ Hl]. rewrite Nat.sub_0_r in Hl. apply lookup_lt_Some in Hl.
    destruct r as [expires_at|]; cbn; [destruct (fw_quota_mode (check_policy c)); cbn|];
      rewrite ?BatchDecision_denied_ok, ?BatchDecision_shadow_denied_ok by done; done.
  - unfold batch_decision. rewrite length_map, Nat.eqb_refl. by destruct checks.
Qed.

Lemma single_decision_honest db now maximum refused_at updated_at check :
  let admission := (admit_batch db now maximum refused_at updated_at [check]).1 in
  exists decision, decision_of_check admission = Some decision
    /\ single_decision (E := E) admission = Ok decision.
Proof.
  unfold admit_batch. cbn. destruct (refusal db now maximum [] check) as [[expires_at|]|]; cbn;
    [destruct (fw_quota_mode (check_policy check))| |]; cbn; eauto.
Qed.

Lemma singleton_ok check : check_ok check -> batch_ok [check].
Proof.
  intros Hc. split; [done|cbn; solve_width|apply NoDup_singleton|by constructor].
Qed.
Lemma singleton_mode check : mode_ok [check].
Proof. eexists. by constructor. Qed.

Lemma admit_batch_wf db now maximum refused_at updated_at checks :
  maximum <= HARD_MAX_ROWS_PER_SHARD -> Fixed_wf db -> Forall check_ok checks ->
  NoDup (Check_counter_key <$> checks) ->
  Fixed_wf (admit_batch db now maximum refused_at updated_at checks).2.
Proof.
  intros Hmax Hdb Hok Hnd. unfold admit_batch.
  destruct (first_refusal db now maximum [] 0 checks) as [[i [c r]]|] eqn:Hr; [done|]. cbn.
  destruct (upsert_sql_honest (E := E) db Hdb now maximum 0 checks) as [affected Hup]; [done..|].
  pose proof (upsert_sql_wf (E := E) db (map upsert_input checks) now 0 Hdb) as Hwf.
  by rewrite Hup in Hwf.
Qed.

(** C25. On a server that answers from its tables before the deadline, a
    batch that passes validation is decided and charged exactly as
    specified, at the instant the server sampled: the first check refused,
    by its live window or by its shard, is the one reported and nothing
    changes; without one, every check is charged in one commit, expired
    windows being replaced, and each allowance reports what is left of its
    window and when it ends.  The connection goes back to its pool. *)
Theorem pg_check_all_refines self db env (checks : list FixedCheck) preflight update
    (Hvalid : validate_batch checks (pg_max_batch_size (config self)) = Ok tt)
    (Hlength : Z.of_nat (length checks) <= i64_max) (Hchecks : Forall check_ok checks)
    (Hdb : Fixed_wf db) (Henv : honest_env self env preflight update) :
  let '(admission, db') := admit_batch db (started preflight)
    (maximum_rows_per_shard (config self)) (finished preflight) (finished update) checks in
  exists s,
    (pg_check_all sha256 self db env checks).1
    = mkCallEnd (Done (Ok (decision_of_batch (length checks) admission))) (Some (s, false))
    /\ committed s = db' /\ Fixed_wf db'.
Proof.
  pose proof Hvalid as (Hlen & Hnd & Hmode)%validate_batch_ok.
  assert (Hne : checks <> []) by (by destruct checks; [cbn in Hlen; lia|]).
  assert (Hwf : Fixed_wf (admit_batch db (started preflight) (maximum_rows_per_shard (config self))
    (finished preflight) (finished update) checks).2) by (apply admit_batch_wf; [apply Henv|done..]).
  pose proof (batch_decision_honest db (started preflight) (maximum_rows_per_shard (config self))
    (finished preflight) (finished update) checks Hne) as Hdec.
  pose proof (run_checks_honest self db env checks preflight update (batch_decision (length checks))
    (decision_of_batch (length checks) (admit_batch db (started preflight)
       (maximum_rows_per_shard (config self)) (finished preflight) (finished update) checks).1)
    (Build_batch_ok checks Hne Hlength Hnd Hchecks) Hmode Hdb Henv) as Hrun.
  unfold pg_check_all, check_all_unobserved. rewrite Hvalid.
  destruct (admit_batch _ _ _ _ _ _) as [admission db']. cbn in *.
  destruct (Hrun Hdec) as (s & Hs & Hc). rewrite Hs. exists s. by split_and!.
Qed.

(** A single check is decided and charged exactly as the one-check
    batch. *)
Theorem pg_check_refines self db env check preflight update
    (Hcheck : check_ok check) (Hdb : Fixed_wf db) (Henv : honest_env self env preflight update) :
  let '(admission, db') := admit_batch db (started preflight)
    (maximum_rows_per_shard (config self)) (finished preflight) (finished update) [check] in
  exists decision s,
    decision_of_check admission = Some decision
    /\ (pg_check sha256 self db env check).1 = mkCallEnd (Done (Ok decision)) (Some (s, false))
    /\ committed s = db'.
Proof.
  destruct (single_decision_honest db (started preflight) (maximum_rows_per_shard (config self))
    (finished preflight) (finished update) check) as (decision & Hdec & Hbuild).
  pose proof (run_checks_honest self db env [check] preflight update single_decision decision
    (singleton_ok check Hcheck) (singleton_mode check) Hdb Henv) as Hrun.
  unfold pg_check. destruct (admit_batch _ _ _ _ _ _) as [admission db'].
  destruct (Hrun Hbuild) as (s & Hs & Hc). rewrite Hs. by exists decision, s.
Qed.
End Transactions.

(** * A concrete run *)

#[local] Existing Instance example_sqlx.
#[local] Existing Instance example_intervals.

#[local] Instance example_intervals_laws : PgIntervalsLaws.
Proof.
  split. intros micros Hm. cbn. rewrite Z.mod_mul by lia. cbn. f_equal. by apply Z.div_mul.
Qed.

Definition example_ticks : list Tick := replicate 20 (mkTick 5 1000000 1000500).

Definition example_pg_env : PgEnv unit FixedDb (FixedQuery unit) :=
  mkPgEnv (Some (Ok tt)) 0 (map honest example_ticks) DURATION_ZERO.

Lemma example_honest_env :
  honest_env PostgresLimiter_new example_pg_env (mkTick 5 1000000 1000500) (mkTick 5 1000000 1000500).
Proof.
  split; [done|done|]. exists example_ticks. split; [done|]. split; [done| |done|done].
  apply Forall_replicate. done.
Qed.

(** C25 witness. *)
Lemma pg_check_all_refines_witness :
  exists s, (pg_check_all example_sha256 PostgresLimiter_new FixedDb_new example_pg_env
               [example_pg_check 0 1 2; example_pg_check 0 2 3]).1
    = mkCallEnd (Done (Ok (mkBatchDecision (BatchOutcome_Allowed
        [mkAllowance (mkCapacity 3) 1 (Delay_new (mkDuration 999500000));
         mkAllowance (mkCapacity 3) 0 (Delay_new (mkDuration 999500000))])))) (Some (s, false))
    /\ size (windows (committed s)) = 2%nat /\ Fixed_wf (committed s).
Proof.
  destruct (pg_check_all_refines example_sha256 PostgresLimiter_new FixedDb_new example_pg_env
    [example_pg_check 0 1 2; example_pg_check 0 2 3] (mkTick 5 1000000 1000500)
    (mkTick 5 1000000 1000500) ltac:(vm_compute; reflexivity) ltac:(vm_compute; discriminate)
    (Forall_cons_2 _ _ _ (example_pg_check_ok 0 1 2 ltac:(unfold is_byte; lia) ltac:(unfold is_byte; lia) ltac:(lia))
      (Forall_cons_2 _ _ _ (example_pg_check_ok 0 2 3 ltac:(unfold is_byte; lia) ltac:(unfold is_byte; lia) ltac:(lia))
        (Forall_nil_2 _)))
    FixedDb_new_wf example_honest_env) as (s & Hrun & Hc & Hwf).
  exists s. split; [|rewrite Hc; split; [vm_compute; reflexivity|exact Hwf]].
  rewrite Hrun. vm_compute. reflexivity.
Defined.

(** A concrete instance. *)
Lemma pg_check_refines_witness :
  exists s, (pg_check example_sha256 PostgresLimiter_new FixedDb_new example_pg_env
               (example_pg_check 0 1 2)).1
    = mkCallEnd (Done (Ok (Decision_allowed
        (mkAllowance (mkCapacity 3) 1 (Delay_new (mkDuration 999500000)))))) (Some (s, false))
    /\ size (windows (committed s)) = 1%nat.
Proof.
  destruct (pg_check_refines example_sha256 PostgresLimiter_new FixedDb_new example_pg_env
    (example_pg_check 0 1 2) (mkTick 5 1000000 1000500) (mkTick 5 1000000 1000500)
    (example_pg_check_ok 0 1 2 ltac:(unfold is_byte; lia) ltac:(unfold is_byte; lia) ltac:(lia))
    FixedDb_new_wf example_honest_env) as (decision & s & Hdec & Hrun & Hc).
  exists s. split; [|rewrite Hc; vm_compute; reflexivity].
  rewrite Hrun. vm_compute in Hdec. injection Hdec as <-. reflexivity.
Defined.
