(* ===== verification/PgEffect.v ===== *)
(** The fixed-window PostgreSQL limiter over a lossy network: on a server
    that answers from its tables when it answers at all, whatever a call
    returns is the specified admission of [PgSpec] at a time of the server,
    and the committed tables are the specified ones; after an error they are
    as before, or those of the admission in full. *)

From Stdlib Require Import Ascii String.
From stdpp Require Import prelude list gmap.
From S2P Require Import Prelude RustStd Identifier Policy Decision AttemptPolicy Key Check Observation PgErrors PgConfig PgSession PgTables PgLedger PgAdmission PgMaintenance PgInvariant PgConnection PgLimiter PgSpec PgHonest PgRefine PgServed.
Open Scope Z_scope.
Open Scope list_scope.

#[local] Hint Resolve fixed_answers : core.

(** A span of the server's clock. *)
Definition between (from until : Z) (t : Tick) : Prop := from <= started t <= until.

Section Effect.
Context {E : Type} `{SqlxError E} `{PgIntervalsLaws} (sha256 : bytes -> bytes).
Context (within : Tick -> Prop).
Notation PgEnv := (PgEnv E FixedDb (FixedQuery E)).
Notation triple := (triple (E := E) fixed_answer within).
Notation settles := (settles (E := E) fixed_answer within).

Lemma checked_reply_Ok {A} (r : Result (CheckError E) A) a :
  map_err reusable_check_error r = Ok a -> r = Ok a.
Proof. by destruct r; intros [= <-]. Qed.

Lemma triple_checked {A} db P (r : Result (CheckError E) A) Q :
  (forall a w, r = Ok a -> P w -> Q a w) -> triple db P (checked_reply r) Q.
Proof. intros HQ. apply triple_lift. intros a w Hr%checked_reply_Ok. by apply HQ. Qed.

Lemma settles_checked {A D} db P (r : Result (CheckError E) A)
    (f : A -> Tx E FixedDb (FixedQuery E) (CheckError E) (ConnectionOutcome D)) R U :
  (forall a, r = Ok a -> settles db P (f a) R U) -> settles db P (checked_reply r ≫= f) R U.
Proof. intros Hf. apply settles_lift. intros a Ha. by apply Hf, checked_reply_Ok. Qed.

(** ** The part of the transaction before its outcome is known *)

Section Batch.
Context (db : FixedDb) (Hdb : Fixed_wf db) (checks : list FixedCheck) (maximum : Z).
Context (Hbatch : batch_ok checks) (Hmax : maximum <= HARD_MAX_ROWS_PER_SHARD).

(** The statements that only read or lock leave the tables alone. *)
Lemma triple_advisory tx ids : triple db (eq db) (acquire_advisory_locks tx ids) (fun _ => eq db).
Proof.
  eapply triple_bind; [apply (triple_execute fixed_answer within _ _ _ _ _ (fun _ => eq db))|
    intros u; by apply triple_ret].
  intros t w w' resp _ <- Ha. by injection Ha as <- _.
Qed.

Lemma triple_row_locks tx input : triple db (eq db) (acquire_existing_row_locks tx input) (fun _ => eq db).
Proof.
  eapply triple_bind; [apply (triple_execute fixed_answer within _ _ _ _ _ (fun _ => eq db))|
    intros u; by apply triple_ret].
  intros t w w' resp _ <- Ha. by injection Ha as <- _.
Qed.

Lemma triple_capacity tx :
  triple db (eq db) (first_capacity_denial tx (batch_input sha256 checks) maximum)
    (fun denial w => db = w /\ denial = capacity_refusal db maximum [] 0 checks).
Proof.
  eapply triple_bind.
  { apply (triple_fetch_all fixed_answer within _ _ _ _ _ (fun rows w => db = w /\ rows = capacity_reply db 0 checks)).
    intros t w w' resp _ <- [= <- <-]. split; [done|]. cbn [rows batch_input fingerprints subjects capacity_shards].
    rewrite unnest_keys_map. unfold capacity_rows. by rewrite with_ordinality_ordinals, capacity_rows_reply. }
  intros rows. apply triple_checked. intros denial w Hr [<- ->]. split; [done|].
  destruct Hbatch as [_ Hlen _ Hok].
  pose proof (capacity_loop_honest (E := E) db Hdb maximum checks [] [] _ Hok pending_counts_new) as Hl.
  cbn [app length] in Hl. change (capacity_shards (batch_input sha256 checks))
    with (map capacity_shard (map Check_counter_key checks)) in Hr.
  rewrite Hl in Hr by (cbn; lia). by injection Hr as <-.
Qed.

Lemma triple_preflight tx :
  triple db (eq db) (preflight_batch tx (batch_input sha256 checks) checks)
    (fun preflight w => db = w /\ exists t, within t
       /\ preflight = mkBatchPreflight (started t) (finished t)
            ((fun '(i, (c, expires_at)) => (i, pending_quota (started t) c expires_at))
             <$> quota_refusal db (started t) 0 checks)).
Proof.
  eapply triple_bind.
  { apply (triple_fetch_one fixed_answer within _ _ _ _ _ (fun row w => db = w /\ exists t, within t
      /\ fixed_answer (E := E) t _ (BATCH_PREFLIGHT_SQL (fingerprints (batch_input sha256 checks))
           (subjects (batch_input sha256 checks)) (costs (batch_input sha256 checks))
           (limits (batch_input sha256 checks))) db = (db, Ok (mkResponse [row] 1)))).
    intros t w w' resp Ht <- Ha row rest Hrow. unfold fixed_answer in *. cbn [fixed_sql] in *.
    injection Ha as <- <-. cbn [rows] in Hrow. injection Hrow as <- _. split; [done|]. by exists t. }
  intros row. apply triple_checked. intros preflight w Hr [<- (t & Ht & Ha)]. split; [done|]. exists t. split; [done|].
  unfold fixed_answer in Ha. cbn [fixed_sql batch_input fingerprints subjects costs limits] in Ha.
  rewrite unnest_keys_map in Ha. injection Ha as <-.
  rewrite decode_preflight_honest in Hr. by injection Hr as <-.
Qed.

Lemma triple_update tx now :
  first_refusal db now maximum [] 0 checks = None ->
  triple db (eq db) (upsert_batch tx (batch_input sha256 checks) checks now)
    (fun updated w => charge_all db now checks = w /\ exists t, within t
       /\ updated = (map (pending_charge db now) checks, finished t)).
Proof.
  intros Hr. destruct Hbatch as [Hne _ Hnd Hok]. eapply triple_bind.
  { apply (triple_fetch_all fixed_answer within _ _ _ _ _ (fun rows w => charge_all db now checks = w
      /\ exists t, within t /\ rows = update_reply db now (finished t) 0 checks)).
    intros t w w' resp Ht <- Ha. unfold fixed_answer in Ha. cbn [fixed_sql batch_input policy_ids
      scope_ids fingerprints subjects window_sizes costs limits] in Ha.
    rewrite unnest_keys_map, upsert_inputs_map in Ha.
    destruct (upsert_sql_honest (E := E) db Hdb now maximum (finished t) checks) as [affected Hup]; [done..|].
    rewrite Hup in Ha. injection Ha as <- <-. split; [done|]. by exists t. }
  intros rows. apply triple_checked. intros updated w Hd [<- (t & Ht & ->)]. split; [done|]. exists t. split; [done|].
  rewrite decode_upsert_honest in Hd; [by injection Hd as <-|done..|by eapply no_refusal_chargeable|done].
Qed.

(** What the batch statements come to. *)
Definition executed (r : PendingBatchOutcome * Duration) (w : FixedDb) : Prop :=
  exists preflight, within preflight
  /\ let now := started preflight in
     match first_refusal db now maximum [] 0 checks with
     | Some (i, (c, refusal)) =>
         db = w /\ r = (PendingBatchOutcome_Denied i (pending_refusal now c refusal),
                        authoritative_elapsed now (finished preflight))
     | None => charge_all db now checks = w
         /\ exists update, within update
            /\ r = (PendingBatchOutcome_Allowed (map (pending_charge db now) checks),
                    authoritative_elapsed now (finished update))
     end.

Lemma triple_execute_batch tx :
  triple db (eq db) (execute_batch tx (batch_input sha256 checks) checks maximum) executed.
Proof.
  eapply triple_bind; [apply triple_capacity|]. intros denial.
  apply triple_at. intros w [<- ->].
  eapply triple_bind; [apply triple_preflight|]. intros preflight.
  apply triple_at. intros w [<- (t & Ht & ->)]. cbn [bp_denial bp_database_now bp_response_now].
  rewrite first_denial_honest.
  destruct (first_refusal db (started t) maximum [] 0 checks) as [[i [c r]]|] eqn:Hr;
    cbn [fmap option_fmap option_map].
  - apply triple_ret. intros w <-. exists t. split; [done|]. cbv zeta. by rewrite Hr.
  - eapply triple_bind; [by apply triple_update|]. intros [allowances response].
    apply triple_at. intros w [<- (t' & Ht' & Hu)]. injection Hu as -> ->.
    apply triple_ret. intros w <-. exists t. split; [done|]. cbv zeta. rewrite Hr.
    split; [done|]. by exists t'.
Qed.

(** ** The transaction *)

Section Transaction.
Context {D : Type} (build : Admission -> Result (CheckError E) D) (Hmode : mode_ok checks).

(** A decision and the tables it leaves, at times of the server. *)
Definition decided (d : D) (db' : FixedDb) : Prop :=
  exists preflight update, within preflight /\ within update
  /\ let '(admission, charged) := admit_batch db (started preflight) maximum (finished preflight)
                                    (finished update) checks in
     build admission = Ok d /\ db' = charged.

(** The tables of an admission whose commit was not acknowledged. *)
Definition admitted_unknown (db' : FixedDb) : Prop :=
  exists preflight, within preflight
  /\ first_refusal db (started preflight) maximum [] 0 checks = None
  /\ db' = charge_all db (started preflight) checks.

Lemma charged_all_positive now :
  first_refusal db now maximum [] 0 checks = None ->
  Forall (fun c => 0 < w_used (charged db now c)) checks.
Proof.
  intros Hr. destruct Hbatch as [_ _ _ Hok]. apply Forall_forall. intros c Hc.
  pose proof (no_refusal_chargeable _ _ _ _ _ _ Hr) as Hch.
  apply charged_ok; [done|by apply (proj1 (Forall_forall _ _) Hok)|by apply (proj1 (Forall_forall _ _) Hch)].
Qed.

Lemma transaction_settles d :
  settles db (fun _ => True)
    (run_check_transaction_inner (batch_input sha256 checks) checks maximum d build)
    decided admitted_unknown.
Proof.
  eapply settles_bind; [apply triple_begin_check|]. intros tx. apply settles_at. intros w ->.
  eapply settles_bind; [apply triple_advisory|]. intros u.
  eapply settles_bind; [apply triple_row_locks|]. intros u'.
  eapply settles_bind; [apply triple_execute_batch|]. intros [pending elapsed].
  apply settles_at. intros w (t & Ht & Hexec). cbv zeta in Hexec.
  destruct (first_refusal db (started t) maximum [] 0 checks) as [[i [c r]]|] eqn:Hr.
  - destruct Hexec as [<- Hp]. injection Hp as -> ->. eapply settles_expect.
    { apply (refused_honest db _ _ maximum); [by apply mode_ok_all|done]. }
    apply settles_checked. intros decision Hb. apply settles_deny.
    exists t, t. unfold admit_batch. by rewrite Hr.
  - destruct Hexec as (<- & t' & Ht' & Hp). injection Hp as -> ->. eapply settles_expect.
    { by apply (finish_honest db), charged_all_positive. }
    apply settles_checked. intros decision Hb. apply (settles_commit fixed_answer within).
    intros w <-. split.
    + exists t, t'. unfold admit_batch. by rewrite Hr.
    + by exists t.
Qed.
End Transaction.
End Batch.

(** ** Whole calls *)

Notation served_env := (served_env (E := E) fixed_answer within).

Lemma run_checks_settle {D} self db env checks (build : Admission -> Result (CheckError E) D) :
  batch_ok checks -> mode_ok checks -> Fixed_wf db ->
  maximum_rows_per_shard (config self) <= HARD_MAX_ROWS_PER_SHARD -> served_env env ->
  call_settles db (run_checks sha256 self db env checks build)
    (decided db checks (maximum_rows_per_shard (config self)) build)
    (admitted_unknown db checks (maximum_rows_per_shard (config self))).
Proof.
  intros Hbatch Hmode Hdb Hmax Henv. unfold run_checks. rewrite from_checks_Done by done.
  destruct (acquire_check_connection (env_acquired env)) as [u|e]; [|by left].
  apply (guarded_call_settles fixed_answer within db env (run_check_transaction_inner (batch_input sha256 checks)
    checks (maximum_rows_per_shard (config self))
    (env_connected_at env + as_nanos (operation_timeout (config self))) build)); [|done].
  by apply transaction_settles.
Qed.

(** C20. Over a network that may lose any reply, on a server that answers
    from its tables when it answers, a batch that passes validation never
    panics. A decision it returns is exactly the specified one at a time the
    server sampled, and the committed tables are the specified ones; when it
    fails, the committed tables are untouched, or hold the whole of an
    admitted batch. Either way they stay well formed. *)
Theorem pg_check_all_lossy self db env (checks : list FixedCheck)
    (Hvalid : validate_batch checks (pg_max_batch_size (config self)) = Ok tt)
    (Hlength : Z.of_nat (length checks) <= i64_max) (Hchecks : Forall check_ok checks)
    (Hdb : Fixed_wf db) (Hmax : maximum_rows_per_shard (config self) <= HARD_MAX_ROWS_PER_SHARD)
    (Henv : served_env env) :
  let e := (pg_check_all sha256 self db env checks).1 in
  Fixed_wf (ce_db db e)
  /\ exists preflight update,
       let '(admission, db') := admit_batch db (started preflight) (maximum_rows_per_shard (config self))
                                  (finished preflight) (finished update) checks in
       match ce_result e with
       | Done (Ok d) => within preflight /\ within update
           /\ d = decision_of_batch (length checks) admission /\ ce_db db e = db'
       | Done (Err _) => ce_db db e = db
           \/ within preflight /\ (exists allowances, admission = Admission_Allowed allowances)
              /\ ce_db db e = db'
       | Panic => False
       end.
Proof.
  pose proof Hvalid as (Hl & Hnd & Hmode)%validate_batch_ok.
  assert (Hne : checks <> []) by (by destruct checks; [cbn in Hl; lia|]).
  pose proof (run_checks_settle self db env checks (batch_decision (length checks))
    (Build_batch_ok checks Hne Hlength Hnd Hchecks) Hmode Hdb Hmax Henv) as Hs.
  assert (Hwf : forall t t', Fixed_wf (admit_batch db (started t) (maximum_rows_per_shard (config self))
    (finished t) (finished t') checks).2) by (intros t t'; by apply (admit_batch_wf (E := E))).
  unfold pg_check_all, check_all_unobserved. rewrite Hvalid. cbn [fst].
  unfold call_settles in Hs. destruct (run_checks _ _ _ _ _ _) as [r sess]. unfold ce_db in *. cbn in *.
  destruct r as [[d|e]|]; cbn; [| |done].
  - destruct Hs as (t & t' & Ht & Ht' & Hd). specialize (Hwf t t').
    pose proof (batch_decision_honest (E := E) db (started t) (maximum_rows_per_shard (config self))
      (finished t) (finished t') checks Hne) as Hdec.
    destruct (admit_batch _ _ _ _ _ _) as [admission db'] eqn:Hadmit. destruct Hd as [Hb ->]. cbn in *.
    split; [done|]. exists t, t'. rewrite Hadmit. split_and!; [done..| |done].
    rewrite Hdec in Hb. by injection Hb as <-.
  - destruct Hs as [->|(t & Ht & Hr & ->)].
    + split; [done|]. exists (mkTick 0 0 0), (mkTick 0 0 0). destruct (admit_batch _ _ _ _ _ _). by left.
    + specialize (Hwf t t). unfold admit_batch in *. rewrite Hr in Hwf. split; [done|].
      exists t, t. rewrite Hr. right. split_and!; [done|by eexists|done].
Qed.
End Effect.

(** * Concrete calls *)

#[local] Existing Instance example_sqlx.
#[local] Existing Instance example_intervals.
#[local] Existing Instance example_intervals_laws.

(** A server whose clock stands at [now], and a network that loses every
    reply after the first [kept]. *)
Definition example_lossy_env (now : Z) (kept : nat) : PgEnv unit FixedDb (FixedQuery unit) :=
  mkPgEnv (Some (Ok tt)) 0
    (map (honest_step fixed_answer) (replicate kept (mkTick 5 now now))
     ++ replicate (20 - kept) (mkStep 5 None None true)) DURATION_ZERO.

Lemma example_lossy_served now kept :
  served_env fixed_answer (between now now) (example_lossy_env now kept).
Proof.
  apply Forall_app. split.
  - apply Forall_forall. intros step (t & -> & Ht)%list_elem_of_fmap reply [= <-].
    apply elem_of_replicate in Ht as [-> _]. exists (mkTick 5 now now). split; [|done].
    unfold between. cbn. lia.
  - apply Forall_replicate. by intros reply [=].
Qed.

(** C20 witness: the acknowledgement of the commit is lost, but the commit
    took effect. *)
Lemma pg_check_all_lossy_witness :
  let e := (pg_check_all example_sha256 PostgresLimiter_new FixedDb_new (example_lossy_env 1000 19)
              [example_pg_check 0 1 2; example_pg_check 0 2 3]).1 in
  ce_result e = Done (Err (BatchCheckError_Check CommitTimedOut))
  /\ size (windows (ce_db FixedDb_new e)) = 2%nat /\ Fixed_wf (ce_db FixedDb_new e).
Proof.
  split; [vm_compute; reflexivity|]. split; [vm_compute; reflexivity|].
  apply (pg_check_all_lossy example_sha256 (between 1000 1000) PostgresLimiter_new FixedDb_new
    (example_lossy_env 1000 19) [example_pg_check 0 1 2; example_pg_check 0 2 3]);
    [vm_compute; reflexivity|cbn; unfold_widths; lia| |apply FixedDb_new_wf
    |apply (proj2 (pc_rows _ PostgresConfig_new_wf))|apply example_lossy_served].
  repeat (apply Forall_cons; split; [apply example_pg_check_ok; unfold is_byte; lia|]). apply Forall_nil_2.
Defined.
