(* ===== verification/PgTypes.v ===== *)
(** What the types of decisions promise, from a server that may reply
    anything: no reply makes a call panic, and no reply makes it return a
    decision that is not one of its checks'. *)

From Stdlib Require Import Ascii String.
From stdpp Require Import prelude list gmap.
From S2P Require Import Prelude RustStd Identifier Policy Decision AttemptPolicy Key Check Observation PgErrors PgConfig PgSession PgTables PgAdmission PgMaintenance PgInvariant PgConnection PgLimiter PgSpec PgRefine PgAnyServer.
Open Scope Z_scope.
Open Scope list_scope.

(** * Typed admissions *)

Section Typed.
Context {P : Type} `{RateLimitPolicy P}.

(** An allowance, a denial and a shadow denial of a check: its policy's
    capacity, no more left than that, its policy's mode. *)
Definition allowance_of (c : Check P) (a : Allowance) : Prop :=
  Allowance_capacity a = rp_capacity (check_policy c)
  /\ 0 <= Allowance_available a <= Capacity_get (rp_capacity (check_policy c)).

Definition denial_of (c : Check P) (d : Denial) : Prop :=
  match d with
  | QuotaExceeded q => QuotaDenial_capacity q = rp_capacity (check_policy c)
                       /\ rp_quota_mode (check_policy c) = Enforce
  | StorageCapacity retry_after => retry_after = None
  end.

Definition shadow_denial_of (c : Check P) (q : QuotaDenial) : Prop :=
  QuotaDenial_capacity q = rp_capacity (check_policy c) /\ rp_quota_mode (check_policy c) = Shadow.

(** An admission of a batch. *)
Definition batch_admission_of (checks : list (Check P)) (admission : Admission) : Prop :=
  match admission with
  | Admission_Allowed allowances => Forall2 allowance_of checks allowances
  | Admission_Denied index denial => exists c, checks !! index = Some c /\ denial_of c denial
  | Admission_ShadowDenied index q => exists c, checks !! index = Some c /\ shadow_denial_of c q
  end.

(** A decision of a check, and one of a batch. *)
Definition decision_of (c : Check P) (d : Decision) : Prop :=
  match Decision_view d with
  | DecisionView_Allowed a => allowance_of c a
  | DecisionView_Denied denial => denial_of c denial
  | DecisionView_ShadowDenied q => shadow_denial_of c q
  end.

Definition batch_decision_of (checks : list (Check P)) (d : BatchDecision) : Prop :=
  match BatchDecision_view d with
  | BatchDecisionView_Allowed allowances => Forall2 allowance_of checks allowances
  | BatchDecisionView_Denied index batch_size denial =>
      batch_size = length checks /\ exists c, checks !! index = Some c /\ denial_of c denial
  | BatchDecisionView_ShadowDenied index batch_size q =>
      batch_size = length checks /\ exists c, checks !! index = Some c /\ shadow_denial_of c q
  end.

(** Typed decisions are well formed. *)
Lemma allowance_of_wf c a : Capacity_wf (rp_capacity (check_policy c)) -> allowance_of c a -> Allowance_wf a.
Proof. intros Hc [Hcap Hav]. unfold Allowance_wf. by rewrite Hcap. Qed.

Lemma denial_of_wf c d : Capacity_wf (rp_capacity (check_policy c)) -> denial_of c d -> Denial_wf d.
Proof. intros Hc. destruct d as [q|r]; [|done]. intros [Hcap _]. cbn. unfold QuotaDenial_wf. by rewrite Hcap. Qed.

Lemma decision_of_wf c d : Capacity_wf (rp_capacity (check_policy c)) -> decision_of c d -> Decision_wf d.
Proof.
  intros Hc. unfold decision_of, Decision_wf. destruct (Decision_view d) as [a|denial|q].
  - by apply allowance_of_wf.
  - by apply denial_of_wf.
  - intros [Hcap _]. unfold QuotaDenial_wf. by rewrite Hcap.
Qed.

Lemma batch_decision_of_wf checks d :
  checks <> [] -> Forall (fun c => Capacity_wf (rp_capacity (check_policy c))) checks ->
  batch_decision_of checks d -> BatchDecision_wf d.
Proof.
  intros Hne Hall. unfold batch_decision_of, BatchDecision_wf.
  destruct (BatchDecision_view d) as [allowances|index n denial|index n q].
  - intros Hfor. split; [by destruct Hfor|].
    clear Hne. induction Hfor as [|c a checks allowances Ha Hfor IH]; [done|].
    apply Forall_cons in Hall as [Hc Hall]. constructor; [by apply (allowance_of_wf c)|by apply IH].
  - intros (-> & c & Hc & Hd). split; [by apply lookup_lt_Some in Hc|].
    by apply (denial_of_wf c), Hd; apply (Forall_lookup_1 _ _ _ _ Hall Hc).
  - intros (-> & c & Hc & [Hcap _]). split; [by apply lookup_lt_Some in Hc|].
    unfold QuotaDenial_wf. rewrite Hcap. apply (Forall_lookup_1 _ _ _ _ Hall Hc).
Qed.

(** The shapers of decisions. *)
Lemma single_decision_typed {E} c admission :
  batch_admission_of [c] admission -> yields (decision_of c) (single_decision (E := E) admission).
Proof.
  assert (Hone : forall i d, [c] !! i = Some d -> i = 0%nat /\ c = d)
    by (intros [|i] d; [by intros [= <-]|by destruct i]).
  destruct admission as [l|i d|i q]; cbn.
  - intros Hl. inversion Hl as [|c' a cs' l' Ha Hnil]; subst. inversion Hnil; subst. by apply yields_ok.
  - intros (c' & [-> <-]%Hone & Hd). by apply yields_ok.
  - intros (c' & [-> <-]%Hone & Hd). by apply yields_ok.
Qed.

Lemma batch_decision_typed {E} checks admission :
  batch_admission_of checks admission ->
  yields (batch_decision_of checks) (batch_decision (E := E) (length checks) admission).
Proof.
  unfold batch_decision. destruct admission as [l|i d|i q]; cbn.
  - intros Hl. destruct (Nat.eqb _ _); [|apply yields_err]. apply yields_map_err.
    unfold BatchDecision_allowed. destruct l; [apply yields_err|by apply yields_ok].
  - intros (c & Hc & Hd). rewrite BatchDecision_denied_ok by (by eapply lookup_lt_Some).
    apply yields_ok. cbn. split; [done|]. by exists c.
  - intros (c & Hc & Hd). rewrite BatchDecision_shadow_denied_ok by (by eapply lookup_lt_Some).
    apply yields_ok. cbn. split; [done|]. by exists c.
Qed.

(** A batch that passed validation has one mode. *)
Definition one_mode (checks : list (Check P)) : Prop :=
  exists m, Forall (fun c => rp_quota_mode (check_policy c) = m) checks.
End Typed.

(** * Fixed windows *)

(** The first error in a chain of decodings needs no name. *)
Ltac any_value :=
  repeat (first [apply yields_err | apply yields_then; intros ? ?]).

Section FixedWindow.
Context {E : Type} `{SqlxError E} `{PgIntervalsLaws} (sha256 : bytes -> bytes).
Context (checks : list FixedCheck).

(** A denial of a preflight. *)
Definition denial_among (denial : option (nat * PendingDenial)) : Prop :=
  match denial with
  | Some (index, pending) =>
      exists c, checks !! index = Some c
      /\ match pending with
         | PendingDenial_Quota q => pqd_limit q = fw_limit (check_policy c)
         | PendingDenial_StorageCapacity => True
         end
  | None => True
  end.

Lemma capacity_loop_yields maximum pending (replies : list (CapacityRow E)) :
  yields denial_among (capacity_loop (map capacity_shard (map Check_counter_key checks)) maximum pending replies).
Proof.
  revert pending. induction replies as [|row replies IH]; intros pending; [by apply yields_ok|].
  cbn [capacity_loop]. apply yields_then; intros index _. apply yields_then; intros i _.
  apply yields_then; intros shard Hshard. any_value.
  match goal with |- yields _ (if ?b then _ else _) => destruct b end; [apply yields_err|]. any_value.
  match goal with |- yields _ (if ?b then _ else _) => destruct b end; [|apply IH].
  apply yields_ok. unfold required, ok_or in Hshard. rewrite !list_lookup_fmap in Hshard.
  destruct (checks !! i) as [c|] eqn:Hc; [|done]. by exists c.
Qed.

Lemma decode_preflight_yields (row : PreflightRow E) :
  yields (fun p => denial_among (bp_denial p)) (decode_preflight checks row).
Proof.
  unfold decode_preflight. do 4 (apply yields_then; intros ? _).
  apply (yields_bind denial_among); [|intros denial Hd; by apply yields_ok].
  repeat case_match; try (apply yields_err); try (by apply yields_ok).
  apply yields_then; intros i _. apply yields_then; intros c Hc. apply yields_then; intros retry _.
  apply yields_ok. unfold required, ok_or in Hc. destruct (checks !! i) as [c'|] eqn:Hi; [|done].
  injection Hc as ->. by exists c.
Qed.

Lemma first_denial_among capacity quota :
  denial_among capacity -> denial_among quota -> denial_among (first_denial capacity quota).
Proof. intros Hc Hq. destruct capacity as [c|], quota as [q|]; cbn [first_denial]; try done. by destruct (Nat.ltb _ _). Qed.

(** A pending allowance of a check. *)
Definition pending_of (c : FixedCheck) (a : PendingAllowance) : Prop :=
  allowance_of c (pending_allowance a).

Lemma pending_allowance_yields c used reset :
  0 <= used ->
  yields (pending_of c) (PendingAllowance_new (E := E) (fw_limit (check_policy c)) used reset).
Proof.
  intros Hused. unfold PendingAllowance_new. apply yields_then; intros remaining Hrem.
  unfold ok_or, checked_sub, checked in Hrem. apply yields_then; intros a Ha. apply yields_ok.
  destruct (_ && _) eqn:Hin in Hrem; [|done]. injection Hrem as <-.
  unfold Allowance_new in Ha. destruct (_ <? _) eqn:Hlt in Ha; [done|]. injection Ha as <-.
  split; [done|]. cbn. cbn in Hlt. lia.
Qed.

Lemma upsert_loop_yields now position (replies : list (UpsertRow E)) :
  yields (fun l => Forall2 pending_of (take (length l) (drop position checks)) l)
    (upsert_loop checks now position replies).
Proof.
  revert position. induction replies as [|row replies IH]; intros position; [by apply yields_ok|].
  cbn [upsert_loop]. apply yields_then; intros index _. apply yields_then; intros i _.
  apply yields_then; intros c Hc. apply yields_then; intros expires _. apply yields_then; intros left _.
  destruct (Nat.eqb_spec i position) as [->|]; [|apply yields_err]. cbn [negb].
  apply yields_then; intros used Hused.
  assert (0 <= used).
  { revert Hused. unfold read_used. destruct (column _ _) as [u|]; [|done]. cbn.
    destruct (Z.ltb_spec u 0); [done|]. intros [= <-]. done. }
  apply (yields_bind (pending_of c)); [by apply pending_allowance_yields|]. intros a Ha.
  eapply yields_bind; [apply IH|]. intros l Hl. apply yields_ok.
  unfold required, ok_or in Hc. destruct (checks !! position) as [c'|] eqn:Hpos; [|done].
  injection Hc as ->. rewrite (drop_S _ c) by done. by constructor.
Qed.

Lemma decode_upsert_yields now (replies : list (UpsertRow E)) :
  yields (fun p => Forall2 pending_of checks p.1) (decode_upsert checks now replies).
Proof.
  unfold decode_upsert. destruct replies as [|row replies]; [apply yields_err|].
  apply yields_then; intros response _. eapply yields_bind; [apply upsert_loop_yields|].
  intros l Hl. destruct (Nat.eqb_spec (length l) (length checks)) as [Hlen|]; [|apply yields_err].
  apply yields_ok. cbv beta in *. rewrite Hlen, drop_0, take_ge in Hl by lia. done.
Qed.

(** What a batch leaves pending. *)
Definition outcome_among (p : PendingBatchOutcome * Duration) : Prop :=
  match p.1 with
  | PendingBatchOutcome_Allowed allowances => Forall2 pending_of checks allowances
  | PendingBatchOutcome_Denied index denial => denial_among (Some (index, denial))
  end.

Lemma execute_batch_safely tx maximum :
  safely (E := E) outcome_among (execute_batch tx (batch_input sha256 checks) checks maximum).
Proof.
  apply (safely_bind denial_among).
  { apply safely_then; [apply safely_fetch_all|]. intros replies.
    apply safely_lift, yields_map_err, capacity_loop_yields. }
  intros capacity Hcap. apply (safely_bind (fun p => denial_among (bp_denial p))).
  { apply safely_then; [apply safely_fetch_one|]. intros row.
    apply safely_lift, yields_map_err, decode_preflight_yields. }
  intros preflight Hpre. pose proof (first_denial_among _ _ Hcap Hpre) as Hfirst.
  destruct (first_denial _ _) as [[index denial]|]; [by apply safely_ret|].
  apply (safely_bind (fun p => Forall2 pending_of checks p.1)).
  { apply safely_then; [apply safely_fetch_all|]. intros replies.
    apply safely_lift, yields_map_err, decode_upsert_yields. }
  intros [allowances now] Hall. by apply safely_ret.
Qed.

Lemma finish_allowances elapsed allowances :
  Forall2 pending_of checks allowances ->
  exists finished, mapO (fun a => PendingAllowance_finish a elapsed) allowances = Done finished
                   /\ Forall2 allowance_of checks finished.
Proof.
  induction 1 as [|c a cs allowances [Hcap Hav] Hall (finished & Hdone & IH)]; [by exists []|].
  assert (Hone : exists a', PendingAllowance_finish a elapsed = Done a' /\ allowance_of c a').
  { unfold PendingAllowance_finish. rewrite Allowance_new_ok by (rewrite Hcap; lia). by eexists. }
  destruct Hone as (a' & Ha & Htyped). exists (a' :: finished). split; [|by constructor].
  cbn [mapO]. rewrite Ha. cbn [mbind Outcome_bind]. by rewrite Hdone.
Qed.

Lemma denied_admission_typed index denial elapsed :
  one_mode checks -> denial_among (Some (index, denial)) ->
  exists admission, denied_admission checks index denial elapsed = Done admission
                    /\ batch_admission_of checks admission.
Proof.
  intros [m Hm] (c & Hc & Hd). unfold denied_admission.
  pose proof (Forall_lookup_1 _ _ _ _ Hm Hc) as Hmode. cbn in Hmode.
  destruct checks as [|first rest]; [done|]. apply Forall_cons in Hm as [Hfirst _]. cbn in Hfirst.
  cbn [head expect mbind Outcome_bind]. rewrite Hfirst. eexists. split; [done|].
  destruct denial as [q|], m; cbn; exists c; (split; [done|]); done.
Qed.

Lemma transaction_safely {D} maximum deadline (build : Admission -> Result (CheckError E) D) (Q : D -> Prop) :
  one_mode checks -> (forall admission, batch_admission_of checks admission -> yields Q (build admission)) ->
  safely (fun o => Q (outcome_value o))
    (run_check_transaction_inner (batch_input sha256 checks) checks maximum deadline build).
Proof.
  intros Hmode Hbuild. apply safely_then; [apply safely_begin|]. intros tx.
  apply safely_then; [apply safely_then; [apply safely_execute|intros; by apply safely_ret]|]. intros _.
  apply safely_then; [apply safely_then; [apply safely_execute|intros; by apply safely_ret]|]. intros _.
  eapply safely_bind; [apply execute_batch_safely|]. intros [[allowances|index denial] elapsed] Hout.
  - destruct (finish_allowances elapsed allowances Hout) as (finished & Hdone & Hfin).
    eapply (safely_bind (fun l => l = finished)); [by eapply safely_expect|]. intros l ->.
    eapply safely_bind; [by apply safely_lift, yields_map_err, Hbuild|]. intros d Hd.
    by apply safely_publish.
  - destruct (denied_admission_typed index denial elapsed Hmode Hout) as (admission & Hdone & Hadm).
    eapply (safely_bind (fun a => a = admission)); [by eapply safely_expect|]. intros a ->.
    eapply safely_bind; [by apply safely_lift, yields_map_err, Hbuild|]. intros d Hd.
    by apply safely_deny.
Qed.

Lemma run_checks_yield {D} self db env (build : Admission -> Result (CheckError E) D) (Q : D -> Prop) :
  batch_ok checks -> one_mode checks ->
  (forall admission, batch_admission_of checks admission -> yields Q (build admission)) ->
  call_yields Q (run_checks sha256 self db env checks build).
Proof.
  intros Hbatch Hmode Hbuild. unfold run_checks. rewrite from_checks_Done by done.
  destruct (acquire_check_connection (env_acquired env)) as [u|e]; [|done].
  by apply (guarded_call_yields Q (connect db env) (run_check_transaction_inner (batch_input sha256 checks)
    checks (maximum_rows_per_shard (config self))
    (env_connected_at env + as_nanos (operation_timeout (config self))) build)), transaction_safely.
Qed.
End FixedWindow.

Section Calls.
Context {E : Type} `{SqlxError E} `{PgIntervalsLaws} (sha256 : bytes -> bytes).

Lemma capacities_wf (checks : list FixedCheck) :
  Forall check_ok checks -> Forall (fun c => Capacity_wf (rp_capacity (check_policy c))) checks.
Proof. intros Hall. eapply Forall_impl; [done|]. intros c Hc. by destruct (ck_policy c Hc) as (_ & _ & Hl & _). Qed.

(** C23. No reply of the server, however malformed, and no loss makes a valid
    check or a batch that passes validation panic, or return a decision of
    another type than its checks': an allowed batch has one allowance per
    check in order, each with the capacity of the check's policy and no more
    available than that; a denied index is that of a check; a denial by
    quota has the capacity of that check's policy and is shadowed exactly
    when the policy's mode is; and a storage denial promises no delay. *)
Theorem pg_decisions_typed self db env (checks : list FixedCheck)
    (Hvalid : validate_batch checks (pg_max_batch_size (config self)) = Ok tt)
    (Hlength : Z.of_nat (length checks) <= i64_max) (Hchecks : Forall check_ok checks) :
  call_yields (fun d => batch_decision_of checks d /\ BatchDecision_wf d)
    (pg_check_all (E := E) sha256 self db env checks).1
  /\ Forall (fun c => call_yields (fun d => decision_of c d /\ Decision_wf d)
                        (pg_check (E := E) sha256 self db env c).1) checks.
Proof.
  pose proof Hvalid as (Hl & Hnd & Hmode)%validate_batch_ok.
  assert (Hne : checks <> []) by (by destruct checks; [cbn in Hl; lia|]).
  pose proof (capacities_wf checks Hchecks) as Hcaps. split.
  - pose proof (run_checks_yield sha256 checks self db env (batch_decision (length checks)) _
      (Build_batch_ok checks Hne Hlength Hnd Hchecks) Hmode (batch_decision_typed checks)) as Hcall.
    unfold pg_check_all, check_all_unobserved, call_yields in *. rewrite Hvalid. cbn [fst ce_result].
    destruct (ce_result _) as [[d|e]|]; [|done..]. split; [done|]. by apply (batch_decision_of_wf checks).
  - apply Forall_forall. intros c Hc. pose proof (proj1 (Forall_forall _ _) Hchecks c Hc) as Hok.
    pose proof (proj1 (Forall_forall _ _) Hcaps c Hc) as Hcap.
    pose proof (run_checks_yield sha256 [c] self db env single_decision _
      (singleton_ok c Hok) (singleton_mode c) (single_decision_typed c)) as Hcall.
    unfold pg_check, call_yields in *. cbn [fst].
    destruct (ce_result _) as [[d|e]|]; [|done..]. split; [done|]. by apply (decision_of_wf c).
Qed.
End Calls.

(** * A lying server *)

#[local] Existing Instance example_sqlx.
#[local] Existing Instance example_intervals.
#[local] Existing Instance example_intervals_laws.

(** It reports no shards, and a preflight denial that its tables do not
    justify. *)
Definition example_lies : forall A, FixedQuery unit A -> FixedDb -> FixedDb * Result unit (Response A) :=
  fun A q db =>
  match q in FixedQuery _ A return FixedDb * Result unit (Response A) with
  | BATCH_PREFLIGHT_SQL _ _ _ _ =>
      (db, Ok (mkResponse [mkPreflightRow (Ok 5) (Ok 9) (Ok (Some 1)) (Ok (Some 5000))] 7))
  | _ => (FixedDb_new, Ok (mkResponse [] 7))
  end.

Definition example_lying_env : PgEnv unit FixedDb (FixedQuery unit) :=
  mkPgEnv (Some (Ok tt)) 0 (replicate 20 (mkStep 5 (Some example_lies) (Some (Ok tt)) false)) DURATION_ZERO.

(** C23 witness. *)
Lemma pg_decisions_typed_witness :
  let checks := [example_pg_check 0 1 2; example_pg_check 0 2 3] in
  let e := (pg_check_all example_sha256 PostgresLimiter_new FixedDb_new example_lying_env checks).1 in
  ce_result e = Done (Ok (mkBatchDecision (BatchOutcome_Denied 1 2
    (QuotaExceeded (mkQuotaDenial (mkCapacity 3) (Delay_new (mkDuration 4991000)))))))
  /\ call_yields (fun d => batch_decision_of checks d /\ BatchDecision_wf d) e.
Proof.
  split; [vm_compute; reflexivity|].
  apply (pg_decisions_typed example_sha256 PostgresLimiter_new FixedDb_new example_lying_env
    [example_pg_check 0 1 2; example_pg_check 0 2 3]);
    [vm_compute; reflexivity|cbn; unfold_widths; lia|].
  repeat (apply Forall_cons; split; [apply example_pg_check_ok; unfold is_byte; lia|]). apply Forall_nil_2.
Defined.
