(* ===== verification/PgTrace.v ===== *)
(** Runs of calls of PostgreSQL limiters sharing one database: the capacity
    ledger stays exact and bounded in every reachable state. *)

From Stdlib Require Import Ascii String.
From stdpp Require Import prelude list gmap.
From S2P Require Import Prelude RustStd Identifier Policy Decision AttemptPolicy Key Check Observation PgErrors PgConfig PgSession PgTables PgLedger PgAdmission PgMaintenance PgInvariant PgConnection PgLimiter PgSpec PgHonest PgRefine.
Open Scope Z_scope.
Open Scope list_scope.

Section Trace.
Context {E : Type} `{SqlxError E} `{PgIntervals} (sha256 : bytes -> bytes).
Notation PgEnv := (PgEnv E FixedDb (FixedQuery E)).

Lemma preserves_checks {D} input checks maximum deadline
    (build : Admission -> Result (CheckError E) D) I :
  preserves I (run_check_transaction_inner input checks maximum deadline build).
Proof.
  unfold run_check_transaction_inner, acquire_advisory_locks, acquire_existing_row_locks,
    execute_batch, first_capacity_denial, preflight_batch, upsert_batch, checked_reply.
  preserving.
Qed.

Lemma preserves_cleanup maximum_rows deadline I :
  preserves I (run_cleanup_transaction_inner (E := E) maximum_rows deadline).
Proof. unfold run_cleanup_transaction_inner. preserving. Qed.

(** A server that answers as its tables say, when it answers. *)
Definition served (step : Step E FixedDb (FixedQuery E)) : Prop :=
  step_reply step = None
  \/ exists started finished, step_reply step = Some (fixed_sql started finished).

Lemma served_sound step : served step -> sound_step Fixed_wf step.
Proof.
  unfold sound_step. intros [->|(started & finished & ->)]; [done|].
  intros A q db. apply fixed_sql_wf.
Qed.

(** One call of any limiter on the database. *)
Inductive pg_call :=
| CallCheck (self : PostgresLimiter) (env : PgEnv) (check : Check FixedWindowPolicy)
| CallBatch (self : PostgresLimiter) (env : PgEnv) (checks : list (Check FixedWindowPolicy))
| CallCleanup (self : PostgresLimiter) (env : PgEnv) (maximum_rows : Z).

Definition call_env (call : pg_call) : PgEnv :=
  match call with CallCheck _ env _ | CallBatch _ env _ | CallCleanup _ env _ => env end.

Definition call_db (db : FixedDb) (call : pg_call) : FixedDb :=
  match call with
  | CallCheck self env check => ce_db db (pg_check sha256 self db env check).1
  | CallBatch self env checks => ce_db db (pg_check_all sha256 self db env checks).1
  | CallCleanup self env maximum_rows => ce_db db (cleanup_expired self db env maximum_rows).1
  end.

Lemma run_checks_wf {D} self db env checks (build : Admission -> Result (CheckError E) D) :
  Fixed_wf db -> Forall served (env_schedule env) ->
  Fixed_wf (ce_db db (run_checks sha256 self db env checks build)).
Proof.
  intros Hdb Henv. unfold run_checks. destruct (from_checks sha256 checks) as [input|]; [|done].
  destruct (acquire_check_connection _); [|done].
  destruct (preserves_checks input checks (maximum_rows_per_shard (config self))
    (env_connected_at env + as_nanos (operation_timeout (config self))) build Fixed_wf
    (connect db env)) as [Hc _].
  { split_and!; [done..|]. eapply Forall_impl; [done|]. apply served_sound. }
  unfold guarded_run, run_check_transaction.
  destruct (run_check_transaction_inner _ _ _ _ _ _) as [s [[[d|d]|[e|e]]|]]; done.
Qed.

Lemma call_db_wf db call :
  Fixed_wf db -> Forall served (env_schedule (call_env call)) -> Fixed_wf (call_db db call).
Proof.
  intros Hdb Henv. destruct call as [self env check|self env checks|self env maximum_rows]; cbn in *.
  - by apply run_checks_wf.
  - unfold check_all_unobserved. destruct (validate_batch _ _); [|done].
    by apply (run_checks_wf self db env checks (batch_decision (length checks))).
  - unfold cleanup_expired_unobserved. destruct (maximum_rows =? 0); [done|].
    destruct (acquire_maintenance_connection _); [|done].
    destruct (preserves_cleanup maximum_rows
      (env_connected_at env + as_nanos (operation_timeout (config self))) Fixed_wf
      (connect db env)) as [Hc _].
    { split_and!; [done..|]. eapply Forall_impl; [done|]. apply served_sound. }
    unfold guarded_run, run_cleanup_transaction.
    destruct (run_cleanup_transaction_inner _ _ _) as [s [[rows|[e|e]]|]]; done.
Qed.

(** C27. Run any calls of any limiters, with any configurations, on freshly
    migrated tables; let replies be lost, deadlines pass and commits be
    uncertain at will.  As long as the answers the server gives are those of
    its tables, the ledger row of each of the 256 shards counts exactly the
    shard's counter rows, at most 65,536 of them, so that the table never
    holds more than 16,777,216 rows, and every row satisfies the table's
    constraints. *)
Theorem pg_capacity_ledger_exact (calls : list pg_call)
    (Hserved : Forall (fun call => Forall served (env_schedule (call_env call))) calls) :
  let db := foldl call_db FixedDb_new calls in
  (forall shard, ledger db !! shard
     = if decide (0 <= shard <= 255) then Some (shard_rows (windows db) shard) else None)
  /\ (forall shard, shard_rows (windows db) shard <= HARD_MAX_ROWS_PER_SHARD)
  /\ Z.of_nat (size (windows db)) <= 16777216
  /\ map_Forall (fun key row => window_row_ok key row = true) (windows db).
Proof.
  assert (Hwf : Fixed_wf (foldl call_db FixedDb_new calls)).
  { induction calls as [|call calls IH] using rev_ind; [apply FixedDb_new_wf|].
    apply Forall_app in Hserved as [Hserved [Hcall _]%Forall_cons].
    rewrite foldl_app. cbn. apply call_db_wf; [by apply IH|done]. }
  split_and!; [apply Hwf..|by apply Fixed_wf_size|apply Hwf].
Qed.
End Trace.

(** * A concrete run *)

#[local] Existing Instance example_sqlx.
#[local] Existing Instance example_intervals.

Definition example_calls : list (pg_call (E := unit)) :=
  [CallCheck PostgresLimiter_new example_pg_env (example_pg_check 0 1 2);
   CallBatch PostgresLimiter_new example_pg_env [example_pg_check 0 1 1; example_pg_check 1 2 3];
   CallCleanup PostgresLimiter_new example_pg_env 10].

Lemma example_served : Forall (served (E := unit)) (env_schedule example_pg_env).
Proof.
  apply Forall_forall. intros step (t & -> & _)%list_elem_of_fmap. right. by do 2 eexists.
Qed.

Lemma example_calls_served :
  Forall (fun call => Forall served (env_schedule (call_env call))) example_calls.
Proof. do 3 (apply Forall_cons; split; [apply example_served|]). apply Forall_nil_2. Qed.

(** C27 witness. *)
Lemma pg_capacity_ledger_exact_witness :
  let db := foldl (call_db example_sha256) FixedDb_new example_calls in
  ledger db !! 1 = Some 1 /\ ledger db !! 3 = Some 1 /\ Z.of_nat (size (windows db)) <= 16777216.
Proof.
  destruct (pg_capacity_ledger_exact example_sha256 example_calls
    example_calls_served) as (_ & _ & Hsize & _).
  split; [vm_compute; reflexivity|]. split; [vm_compute; reflexivity|exact Hsize].
Defined.
