(* ===== verification/PgCharges.v ===== *)
(** Tables keyed by counters: what a batch of distinct keys writes under one
    of them and what a cleanup removes, and which admission an allowance
    comes from. *)

From Stdlib Require Import Ascii String.
From stdpp Require Import prelude list gmap.
From S2P Require Import Prelude RustStd Identifier Policy Decision AttemptPolicy Key Check PgErrors PgAdmission.
Open Scope Z_scope.
Open Scope list_scope.

Lemma foldl_delete_lookup {A} (ws : gmap CounterKey A) keys key :
  foldl (fun ws key => delete key ws) ws keys !! key = if decide (key ∈ keys) then None else ws !! key.
Proof.
  revert ws. induction keys as [|key' keys IH]; intros ws; cbn [foldl].
  { by rewrite decide_False by apply not_elem_of_nil. }
  rewrite IH. repeat case_decide; try set_solver.
  - destruct (decide (key' = key)) as [->|Hne]; [by rewrite lookup_delete_eq|set_solver].
  - rewrite lookup_delete_ne; [done|]. set_solver.
Qed.

Section Batch.
Context {P : Type} `{RateLimitPolicy P}.

Lemma foldl_insert_lookup {V} (f : Check P -> V) (ws : gmap CounterKey V) checks key :
  NoDup (Check_counter_key <$> checks) ->
  match list_find (fun c => Check_counter_key c = key) checks with
  | Some (_, c) => foldl (fun ws c => <[Check_counter_key c := f c]> ws) ws checks !! key = Some (f c)
  | None => foldl (fun ws c => <[Check_counter_key c := f c]> ws) ws checks !! key = ws !! key
  end.
Proof.
  revert ws. induction checks as [|c checks IH]; intros ws Hnd; [done|].
  rewrite fmap_cons in Hnd. apply NoDup_cons in Hnd as [Hc Hnd]. cbn [list_find foldl].
  specialize (IH (<[Check_counter_key c := f c]> ws) Hnd).
  case_decide as Hk.
  - destruct (list_find _ checks) as [[i d]|] eqn:Hf.
    + apply list_find_Some in Hf as (Hd & Hkd & _). exfalso. apply Hc. rewrite Hk, <- Hkd.
      apply list_elem_of_fmap_2. by apply list_elem_of_lookup_2 in Hd.
    + rewrite IH, Hk. by rewrite lookup_insert_eq.
  - destruct (list_find _ checks) as [[i d]|]; cbn; [done|]. rewrite IH. by rewrite lookup_insert_ne.
Qed.

(** The checks of a counter in a batch of distinct keys. *)
Lemma own_checks k (checks : list (Check P)) :
  NoDup (Check_counter_key <$> checks) ->
  filter (fun c => Check_counter_key c = k) checks
  = match list_find (fun c => Check_counter_key c = k) checks with Some (_, c) => [c] | None => [] end.
Proof.
  induction checks as [|c checks IH]; intros Hnd; [done|].
  rewrite fmap_cons in Hnd. apply NoDup_cons in Hnd as [Hc Hnd]. rewrite filter_cons. cbn [list_find].
  specialize (IH Hnd). case_decide as Hk.
  - destruct (filter _ checks) as [|d l] eqn:Hf; [done|]. exfalso. apply Hc. rewrite Hk.
    assert (Hd : d ∈ filter (fun c => Check_counter_key c = k) checks) by (rewrite Hf; by left).
    apply list_elem_of_filter in Hd as [<- Hd]. by apply list_elem_of_fmap_2.
  - rewrite IH. by destruct (list_find _ checks) as [[i d]|].
Qed.
End Batch.

(** ** Allowances come from allowed admissions *)

Section Allowed.
Context {E : Type}.

Lemma single_allowed admission d :
  single_decision (E := E) admission = Ok d ->
  (exists a, Decision_view d = DecisionView_Allowed a) ->
  exists allowances, admission = Admission_Allowed allowances.
Proof.
  destruct admission as [[|a [|b l]]|[|n] q|[|n] q]; cbn; intros [= <-] [a' Ha]; try done. by eexists.
Qed.

Lemma batch_allowed n admission d :
  batch_decision (E := E) n admission = Ok d ->
  (exists l, BatchDecision_view d = BatchDecisionView_Allowed l) ->
  exists allowances, admission = Admission_Allowed allowances.
Proof.
  destruct admission as [l|i q|i q]; [by eexists|..]; unfold batch_decision,
    BatchDecision_denied, BatchDecision_shadow_denied;
    destruct (validate_batch_index i n); cbn; intros [= <-] [l Hl]; done.
Qed.
End Allowed.
