(* ===== verification/PgRate.v ===== *)
(** What PostgreSQL fixed-window limiters sharing one database admit over
    any run of calls: the rate bound holds of the committed tables and of
    what callers are told, with replies lost, deadlines passing and commits
    left uncertain at will. *)

From Stdlib Require Import Ascii String.
From stdpp Require Import prelude list gmap.
From S2P Require Import Prelude RustStd Identifier Policy Decision AttemptPolicy Key Check Observation Ledger Windows PgErrors PgConfig PgSession PgTables PgLedger PgAdmission PgMaintenance PgInvariant PgConnection PgLimiter PgSpec PgHonest PgServed PgRefine PgEffect PgTrace PgCharges.
Open Scope Z_scope.
Open Scope list_scope.

#[local] Hint Resolve fixed_answers : core.

(** * Cleanup *)

Section Cleanup.
Context {E : Type} `{SqlxError E} (within : Tick -> Prop).

(** The tables a cleanup leaves, and how many rows it removed. *)
Definition cleaned (db : FixedDb) (maximum_rows : Z) (removed : Z) (db' : FixedDb) : Prop :=
  exists t, within t
  /\ let expired := take (Z.to_nat maximum_rows) (expired_keys db (started t)) in
     removed = Z.of_nat (length expired)
     /\ windows db' = foldl (fun ws key => delete key ws) (windows db) expired.

(** Cleanup removes expired rows only. *)
Lemma cleaned_lookup db maximum_rows removed db' key :
  cleaned db maximum_rows removed db' -> exists t, within t
  /\ (windows db' !! key = windows db !! key
      \/ windows db' !! key = None /\ exists row, windows db !! key = Some row /\ w_expires_at row <= started t).
Proof.
  intros (t & Ht & _ & Hw). exists t. split; [done|]. rewrite Hw, foldl_delete_lookup.
  case_decide as Hin; [right; split; [done|]|by left].
  apply elem_of_take in Hin as (i & Hi & _). apply list_elem_of_lookup_2 in Hi. by apply expired_keys_elem.
Qed.

Lemma cleanup_sql_cleaned db maximum_rows t db' resp :
  Fixed_wf db -> within t ->
  fixed_answer (E := E) t unit (CLEANUP_SQL maximum_rows) db = (db', Ok resp) ->
  cleaned db maximum_rows (rows_affected resp) db'.
Proof.
  intros Hdb Ht Ha. unfold fixed_answer in Ha. cbn [fixed_sql] in Ha. unfold cleanup_sql in Ha.
  set (expired := take _ (expired_keys db (started t))) in *.
  assert (Hlocked : forallb (fun key => bool_decide (is_Some (ledger db !! capacity_shard key))) expired = true).
  { apply forallb_forall. intros key Hin%list_elem_of_In. apply bool_decide_eq_true.
    subst expired. apply subseteq_take in Hin. apply expired_keys_elem in Hin as (row & Hrow & _).
    rewrite (fd_ledger db Hdb). rewrite decide_True; [by eexists|].
    apply (fd_shards db Hdb). by eexists. }
  rewrite Hlocked in Ha. destruct (ledger_delete _ _) as [ledger'|code]; [|done].
  injection Ha as <- <-. exists t. by split_and!.
Qed.

Lemma cleanup_settles db maximum_rows deadline :
  Fixed_wf db ->
  settles (E := E) fixed_answer within db (fun _ => True)
    (rows ← run_cleanup_transaction_inner maximum_rows deadline; mret (Reusable rows))
    (cleaned db maximum_rows) (fun db' => exists removed, cleaned db maximum_rows removed db').
Proof.
  intros Hdb. unfold run_cleanup_transaction_inner, maintenance_before_commit.
  apply settles_assoc. eapply settles_bind; [apply triple_begin|]. intros u. apply settles_at. intros w ->.
  apply settles_assoc. eapply settles_bind; [by apply (triple_maintenance_timeouts fixed_answer)|]. intros u'.
  apply settles_assoc. eapply settles_bind.
  { apply (triple_send fixed_answer within _ (eq db) _ _ _
      (fun resp w => cleaned db maximum_rows (rows_affected resp) w)).
    intros t w w' resp Ht <- Ha. by apply (cleanup_sql_cleaned db maximum_rows t). }
  intros resp. apply settles_assoc.
  apply (settles_maintenance fixed_answer within db _ deadline (rows_affected resp)).
  intros w Hw. split; [done|by eexists].
Qed.

Lemma cleanup_call_settles self db (env : PgEnv E FixedDb (FixedQuery E)) maximum_rows :
  Fixed_wf db -> served_env fixed_answer within env -> maximum_rows <> 0 ->
  call_settles db (cleanup_expired self db env maximum_rows).1
    (cleaned db maximum_rows) (fun db' => exists removed, cleaned db maximum_rows removed db').
Proof.
  intros Hdb Henv Hn. unfold cleanup_expired, cleanup_expired_unobserved. cbn [fst].
  destruct (Z.eqb_spec maximum_rows 0); [done|].
  destruct (acquire_maintenance_connection _); [|by left].
  pose proof (guarded_call_settles fixed_answer within db env _ _ _ (cleanup_settles db maximum_rows
    (env_connected_at env + as_nanos (operation_timeout (config self))) Hdb) Henv) as Hs.
  unfold call_settles, guarded_run, run_cleanup_transaction, merged, mbind, Tx_bind, mret, Tx_ret in *.
  by destruct (run_cleanup_transaction_inner _ _ _) as [s [[rows|[e|e]]|]].
Qed.
End Cleanup.

(** * Calls *)

Section Calls.
Context {E : Type} `{SqlxError E} `{PgIntervalsLaws} (sha256 : bytes -> bytes).
Notation pg_call := (pg_call (E := E)).
Notation call_db := (call_db sha256).

Definition call_checks (call : pg_call) : list FixedCheck :=
  match call with
  | CallCheck _ _ check => [check]
  | CallBatch _ _ checks => checks
  | CallCleanup _ _ _ => []
  end.

Definition call_limiter (call : pg_call) : PostgresLimiter :=
  match call with CallCheck self _ _ | CallBatch self _ _ | CallCleanup self _ _ => self end.

(** The checks a call's result says were admitted and charged. *)
Definition acknowledged (db : FixedDb) (call : pg_call) : list FixedCheck :=
  match call with
  | CallCheck self env check =>
      match ce_result (pg_check sha256 self db env check).1 with
      | Done (Ok d) => match Decision_view d with DecisionView_Allowed _ => [check] | _ => [] end
      | _ => []
      end
  | CallBatch self env checks =>
      match ce_result (pg_check_all sha256 self db env checks).1 with
      | Done (Ok d) => match BatchDecision_view d with BatchDecisionView_Allowed _ => checks | _ => [] end
      | _ => []
      end
  | CallCleanup _ _ _ => []
  end.

(** Calls a program can make. *)
Record call_ok (call : pg_call) : Prop := {
  co_config : PostgresConfig_wf (config (call_limiter call));
  co_length : Z.of_nat (length (call_checks call)) <= i64_max;
  co_checks : Forall check_ok (call_checks call);
}.

Section Effect.
Context (within : Tick -> Prop) (db : FixedDb) (Hdb : Fixed_wf db).

(** What a call does to the committed tables, and what its caller is told:
    nothing, with nothing acknowledged; all its checks charged at a time of
    the server; or expired rows removed. *)
Definition call_effect (call : pg_call) (db' : FixedDb) : Prop :=
  (db' = db /\ acknowledged db call = [])
  \/ (exists t, within t /\ NoDup (Check_counter_key <$> call_checks call)
      /\ Forall (chargeable db (started t)) (call_checks call)
      /\ db' = charge_all db (started t) (call_checks call)
      /\ (acknowledged db call = [] \/ acknowledged db call = call_checks call))
  \/ (call_checks call = [] /\ exists maximum_rows removed, cleaned within db maximum_rows removed db').

Lemma admitted_effect maximum checks db' :
  admitted_unknown within db checks maximum db' ->
  exists t, within t /\ Forall (chargeable db (started t)) checks
    /\ db' = charge_all db (started t) checks.
Proof.
  intros (t & Ht & Hr & ->). exists t. split; [done|]. split; [by eapply no_refusal_chargeable|done].
Qed.

(** A decided admission: denied with nothing changed, or allowed and
    charged. *)
Lemma decided_effect {D} maximum checks (build : Admission -> Result (CheckError E) D) d db' :
  decided within db checks maximum build d db' ->
  (exists admission, build admission = Ok d /\ db' = db
     /\ forall allowances, admission <> Admission_Allowed allowances)
  \/ exists t allowances, within t /\ build (Admission_Allowed allowances) = Ok d
       /\ Forall (chargeable db (started t)) checks /\ db' = charge_all db (started t) checks.
Proof.
  intros (t & t' & Ht & Ht' & Hd). unfold admit_batch in Hd.
  destruct (first_refusal _ _ _ _ _ _) as [[i [c r]]|] eqn:Hr; destruct Hd as [Hb ->].
  - left. eexists. split_and!; [done..|]. intros allowances.
    destruct r; cbn; [destruct (fw_quota_mode (check_policy c))|]; done.
  - right. exists t. eexists. split_and!; [done..|by eapply no_refusal_chargeable|done].
Qed.

Lemma call_db_effect call :
  call_ok call -> served_env fixed_answer within (call_env call) -> call_effect call (call_db db call).
Proof.
  intros [Hcfg Hlen Hok] Henv. destruct call as [self env c|self env cs|self env n]; cbn in *.
  - pose proof (run_checks_settle sha256 within self db env [c] single_decision
      (singleton_ok c ltac:(by apply Forall_cons in Hok as [? _])) (singleton_mode c) Hdb
      (proj2 (pc_rows _ Hcfg)) Henv) as Hs.
    unfold call_effect. cbn [acknowledged call_checks]. unfold pg_check in *. cbn [fst] in *.
    unfold call_settles in Hs. destruct (ce_result _) as [[d|e]|]; [| |done].
    + destruct (decided_effect _ _ _ _ _ Hs) as [(adm & Hb & -> & Hna)|(t & l & Ht & Hb & Hch & ->)].
      * left. split; [done|]. destruct (Decision_view d) eqn:Hv; [|done..].
        destruct (single_allowed _ _ Hb) as [l ->]; [by eexists|by destruct (Hna l)].
      * right. left. exists t. split_and!; [done|apply NoDup_singleton|done|done|].
        destruct (Decision_view d); auto.
    + destruct Hs as [->|(t & Ht & Hch & ->)%admitted_effect]; [by left|].
      right. left. exists t. split_and!; [done|apply NoDup_singleton|done|done|by left].
  - unfold call_effect. cbn [acknowledged call_checks]. unfold pg_check_all, check_all_unobserved in *.
    cbn [fst]. destruct (validate_batch cs _) as [[]|e] eqn:Hv; [|by left].
    pose proof Hv as (Hl & Hnd & Hmode)%validate_batch_ok.
    assert (Hne : cs <> []) by (by destruct cs; [cbn in Hl; lia|]).
    pose proof (run_checks_settle sha256 within self db env cs (batch_decision (length cs))
      (Build_batch_ok cs Hne Hlen Hnd Hok) Hmode Hdb (proj2 (pc_rows _ Hcfg)) Henv) as Hs.
    unfold call_settles in Hs. destruct (run_checks _ _ _ _ _ _) as [r sess]. unfold ce_db in *. cbn in *.
    destruct r as [[d|e]|]; [| |done].
    + destruct (decided_effect _ _ _ _ _ Hs) as [(adm & Hb & -> & Hna)|(t & l & Ht & Hb & Hch & ->)].
      * left. split; [done|]. cbn. destruct (BatchDecision_view d) eqn:Hview; [|done..].
        destruct (batch_allowed _ _ _ Hb) as [l ->]; [by eexists|by destruct (Hna l)].
      * right. left. exists t. split_and!; [done..|]. cbn. destruct (BatchDecision_view d); auto.
    + destruct Hs as [->|(t & Ht & Hch & ->)%admitted_effect]; [by left|].
      right. left. exists t. split_and!; [done..|by left].
  - destruct (Z.eq_dec n 0) as [->|Hn]; [by left|].
    pose proof (cleanup_call_settles within self db env n Hdb Henv Hn) as Hs.
    unfold cleanup_expired in *. cbn [fst] in *.
    unfold call_settles in Hs. destruct (ce_result _) as [[d|e]|]; [| |done].
    + right. right. split; [done|]. by exists n, d.
    + destruct Hs as [->|[removed Hc]]; [by left|]. right. right. split; [done|]. by exists n, removed.
Qed.
End Effect.
End Calls.

(** * Runs *)

(** A call, and a span of the server's clock that holds it. *)
Record timed_call (E : Type) := mkTimedCall {
  tc_from : Z;
  tc_until : Z;
  tc_call : pg_call (E := E);
}.
Arguments mkTimedCall {E} _ _ _.
Arguments tc_from {E} _.
Arguments tc_until {E} _.
Arguments tc_call {E} _.

Section Rate.
Context {E : Type} `{SqlxError E} `{PgIntervalsLaws} (sha256 : bytes -> bytes).
Notation call_db := (call_db sha256).
Notation timed_call := (timed_call E).

(** The server's clock does not go back from one call to the next; during a
    call it answers from its tables, when it answers. *)
Fixpoint clocked (t : Z) (calls : list timed_call) : Prop :=
  match calls with
  | [] => True
  | call :: calls =>
      t <= tc_from call <= tc_until call
      /\ served_env fixed_answer (between (tc_from call) (tc_until call)) (call_env (tc_call call))
      /\ clocked (tc_until call) calls
  end.

(** The reports on the counter [k]: what acknowledged calls admitted to it. *)
Definition call_reports (k : CounterKey) (db : FixedDb) (call : timed_call) : list report :=
  (fun c => (tc_from call, tc_until call, check_cost c))
  <$> filter (fun c => Check_counter_key c = k) (acknowledged sha256 db (tc_call call)).

(** The committed tables after a run, and its reports, newest first. *)
Fixpoint pg_run (k : CounterKey) (db : FixedDb) (rs : list report) (calls : list timed_call)
    : FixedDb * list report :=
  match calls with
  | [] => (db, rs)
  | call :: calls => pg_run k (call_db db (tc_call call)) (call_reports k db call ++ rs) calls
  end.

(** ** What the tables were charged

    What the change of a counter's row charges it: the growth of its usage
    while its window runs on, all its usage in another window. *)
Definition row_charge (before after : option WindowRow) : Z :=
  match before, after with
  | Some old, Some row =>
      if w_expires_at old =? w_expires_at row then w_used row - w_used old else w_used row
  | None, Some row => w_used row
  | _, None => 0
  end.

(** The charge a call committed to the row of [k], whatever its caller was
    told, within the span of the call. *)
Definition call_writes (k : CounterKey) (db : FixedDb) (call : timed_call) : list report :=
  let amount := row_charge (windows db !! k) (windows (call_db db (tc_call call)) !! k) in
  if amount =? 0 then [] else [(tc_from call, tc_until call, amount)].

(** All charges a run committed to the row of [k], newest first. *)
Fixpoint pg_writes (k : CounterKey) (db : FixedDb) (ws : list report) (calls : list timed_call)
    : list report :=
  match calls with
  | [] => ws
  | call :: calls => pg_writes k (call_db db (tc_call call)) (call_writes k db call ++ ws) calls
  end.

(** When the last call of a run has ended. *)
Definition clock_end (t : Z) (calls : list timed_call) : Z :=
  foldl (fun _ call => tc_until call) t calls.

Lemma row_charge_same row : row_charge row row = 0.
Proof. destruct row; cbn; [|done]. rewrite Z.eqb_refl. lia. Qed.

Lemma call_writes_none k db call :
  windows (call_db db (tc_call call)) !! k = windows db !! k
  \/ windows (call_db db (tc_call call)) !! k = None ->
  call_writes k db call = [].
Proof.
  unfold call_writes. intros [-> | ->]; [by rewrite row_charge_same|].
  by destruct (windows db !! k).
Qed.

(** A charged check adds exactly its cost. *)
Lemma row_charge_charged db now c :
  check_ok c -> row_charge (stored db c) (Some (charged db now c)) = check_cost c.
Proof.
  intros Hok. destruct (ck_policy c Hok) as (_ & _ & _ & Hw). unfold charged, window_micros.
  destruct (stored db c) as [row|]; [|done]. destruct (Z.ltb_spec now (w_expires_at row)); cbn.
  - rewrite Z.eqb_refl. lia.
  - unfold QuotaPeriod_wf in Hw.
    destruct (Z.eqb_spec (w_expires_at row) (now + QuotaPeriod_millis (fw_window (check_policy c)) * 1000)); lia.
Qed.

Section Counter.
Context (k : CounterKey) (L W : Z) (HL : 1 <= L) (HW : 1 <= W).

(** The checks of the counter agree on its limit and its window, in
    microseconds. *)
Definition pg_keyed (c : FixedCheck) : Prop :=
  Check_counter_key c = k -> check_limit c = L /\ window_micros c = W.

(** The stored window of the counter accounts for its charges up to [t]. *)
Definition accounted (t : Z) (db : FixedDb) (charges : list (Z * Z)) : Prop :=
  exists newest, anchored L W charges newest
  /\ (forall y, y ∈ charges -> y.1 <= t)
  /\ (forall u x, newest = Some (u, x) -> exists t', head (charges.*1) = Some t' /\ x <= t' + W)
  /\ match windows db !! k with
     | Some row => newest = Some (w_used row, w_expires_at row)
     | None => forall u x, newest = Some (u, x) -> x <= t
     end.

Lemma accounted_later t t' db charges : t <= t' -> accounted t db charges -> accounted t' db charges.
Proof.
  intros Ht (newest & Ha & Hle & Hhead & Hrow). exists newest. split_and!; [done| |done|].
  - intros y Hy. specialize (Hle y Hy). lia.
  - destruct (windows db !! k); [done|]. intros u x Hx. specialize (Hrow u x Hx). lia.
Qed.

(** An admitted check of the counter extends its account. *)
Lemma accounted_charge t now db charges c :
  accounted t db charges -> t <= now -> check_ok c -> pg_keyed c -> Check_counter_key c = k ->
  chargeable db now c ->
  forall db', windows db' !! k = Some (charged db now c) ->
  accounted now db' ((now, check_cost c) :: charges).
Proof.
  intros (newest & Ha & Hle & Hhead & Hrow) Ht Hok Hkeyed Hk Hch db' Hdb'.
  destruct (Hkeyed Hk) as [Hl Hw]. destruct (ck_cost c Hok) as [Hc1 Hc2]. rewrite Hl in Hc2.
  assert (Htimes : forall y, y ∈ (now, check_cost c) :: charges -> y.1 <= now).
  { intros y [->|Hy]%elem_of_cons; [done|]. specialize (Hle y Hy). lia. }
  assert (Hopen : (forall u x, newest = Some (u, x) -> x <= now) ->
    anchored L W ((now, check_cost c) :: charges) (Some (check_cost c, now + W))).
  { intros Hx. eapply anchored_open; [done|done|lia]. }
  unfold accounted. rewrite Hdb'. unfold charged, chargeable, stored in *. rewrite Hk in *.
  destruct (windows db !! k) as [row|] eqn:Hr.
  - subst newest. destruct (Hhead _ _ eq_refl) as (t' & Ht' & Hx).
    assert (Htt : t' <= t).
    { destruct charges as [|[t0 c0] charges]; [done|]. injection Ht' as <-. apply (Hle (t0, c0)). by left. }
    destruct (Z.ltb_spec now (w_expires_at row)) as [Hlive|Hdead]; cbn [w_used w_expires_at].
    + specialize (Hch Hlive). exists (Some (w_used row + check_cost c, w_expires_at row)).
      split_and!; [|done| |done].
      * apply anchored_add; [done|lia| |lia|lia]. intros y Hy. specialize (Hle y Hy). lia.
      * intros u x [= <- <-]. exists now. split; [done|lia].
    + exists (Some (check_cost c, now + W)). rewrite Hw. split_and!; [|done| |done].
      * apply Hopen. by intros u x [= <- <-].
      * intros u x [= <- <-]. exists now. split; [done|lia].
  - cbn [w_used w_expires_at]. exists (Some (check_cost c, now + W)). rewrite Hw.
    split_and!; [|done| |done].
    + apply Hopen. intros u x Hx. specialize (Hrow u x Hx). lia.
    + intros u x [= <- <-]. exists now. split; [done|lia].
Qed.

(** One call extends the account and its reports. *)
Lemma call_accounted t db charges rs ws call :
  Fixed_wf db -> call_ok (tc_call call) -> Forall pg_keyed (call_checks (tc_call call)) ->
  t <= tc_from call <= tc_until call ->
  served_env fixed_answer (between (tc_from call) (tc_until call)) (call_env (tc_call call)) ->
  accounted t db charges -> reported_by rs charges -> Forall2 Windows.reports ws charges ->
  exists charges', accounted (tc_until call) (call_db db (tc_call call)) charges'
    /\ reported_by (call_reports k db call ++ rs) charges'
    /\ Forall2 Windows.reports (call_writes k db call ++ ws) charges'.
Proof.
  intros Hdb Hok Hkeyed Ht Henv Hacc Hrs Hws. unfold call_reports.
  destruct (call_db_effect sha256 _ db Hdb _ Hok Henv) as [[Heq ->]|[Hcharge|Hclean]].
  - exists charges. rewrite call_writes_none by (left; by rewrite Heq). rewrite Heq.
    split_and!; [apply (accounted_later t); [lia|done]|done..].
  - destruct Hcharge as (tick & Hin & Hnd & Hch & Heq & Hack). unfold between in Hin.
    pose proof (foldl_insert_lookup (charged db (started tick)) (windows db) _ k Hnd) as Hlook.
    pose proof (own_checks k _ Hnd) as Hown.
    destruct (list_find _ (call_checks (tc_call call))) as [[i c]|] eqn:Hf.
    + apply list_find_Some in Hf as (Hc & Hck & _).
      pose proof (Forall_lookup_1 _ _ _ _ (co_checks _ Hok) Hc) as Hcok.
      pose proof (Forall_lookup_1 _ _ _ _ Hkeyed Hc) as Hckeyed.
      pose proof (Forall_lookup_1 _ _ _ _ Hch Hc) as Hcch.
      assert (Hrow : windows (call_db db (tc_call call)) !! k = Some (charged db (started tick) c))
        by (by rewrite Heq).
      assert (Hone : Windows.reports (tc_from call, tc_until call, check_cost c) (started tick, check_cost c))
        by (cbn; lia).
      exists ((started tick, check_cost c) :: charges). split_and!.
      * apply (accounted_later (started tick)); [lia|].
        apply (accounted_charge t _ db); try done. lia.
      * destruct Hack as [-> | ->]; [by apply reported_by_skip|]. rewrite Hown.
        by apply reported_by_cons.
      * unfold call_writes. rewrite Hrow, <- Hck.
        change (windows db !! Check_counter_key c) with (stored db c).
        rewrite row_charge_charged by done. pose proof (ck_cost c Hcok).
        destruct (Z.eqb_spec (check_cost c) 0); [lia|]. by constructor.
    + assert (Hrow : windows (call_db db (tc_call call)) !! k = windows db !! k) by (by rewrite Heq).
      exists charges. rewrite call_writes_none by (by left). split_and!; [| |done].
      * apply (accounted_later t); [lia|]. destruct Hacc as (newest & ? & ? & ? & Hnewest).
        exists newest. split_and!; [done..|]. by rewrite Hrow.
      * destruct Hack as [-> | ->]; [done|]. by rewrite Hown.
  - destruct Hclean as (Hnone & n & removed & Hclean).
    assert (Hack : acknowledged sha256 db (tc_call call) = []).
    { destruct (tc_call call); cbn in *; [done|subst; by repeat case_match|done]. }
    rewrite Hack. exists charges.
    rewrite call_writes_none
      by (destruct (cleaned_lookup _ _ _ _ _ k Hclean) as (_ & _ & [?|[? _]]); auto).
    split; [|done].
    destruct (cleaned_lookup _ _ _ _ _ k Hclean) as (tick & Hin & Hlook). unfold between in Hin.
    destruct Hacc as (newest & Ha & Hle & Hhead & Hrow). apply (accounted_later (started tick)); [lia|].
    exists newest. split_and!; [done| |done|].
    + intros y Hy. specialize (Hle y Hy). lia.
    + destruct Hlook as [->|(-> & row & Hr & Hexp)].
      * destruct (windows db !! k); [done|]. intros u x Hx. specialize (Hrow u x Hx). lia.
      * rewrite Hr in Hrow. subst newest. by intros u x [= <- <-].
Qed.

Lemma served_env_served from until env :
  served_env fixed_answer (between from until) env -> Forall (served (E := E)) (env_schedule env).
Proof.
  intros Henv. eapply Forall_impl; [done|]. intros step Hstep. unfold served.
  destruct (step_reply step) as [reply|] eqn:Hr; [right|by left].
  destruct (Hstep reply Hr) as (t & _ & ->). by exists (started t), (finished t).
Qed.

Lemma run_accounted t db charges rs ws calls :
  Fixed_wf db -> Forall (fun call => call_ok (tc_call call)
    /\ Forall pg_keyed (call_checks (tc_call call))) calls ->
  clocked t calls -> accounted t db charges -> reported_by rs charges -> Forall2 Windows.reports ws charges ->
  let '(db', rs') := pg_run k db rs calls in
  exists charges', accounted (clock_end t calls) db' charges' /\ reported_by rs' charges'
    /\ Forall2 Windows.reports (pg_writes k db ws calls) charges'.
Proof.
  revert t db charges rs ws. induction calls as [|call calls IH];
    intros t db charges rs ws Hdb Hcalls Hclock Hacc Hrs Hws.
  { by exists charges. }
  apply Forall_cons in Hcalls as [[Hok Hkeyed] Hcalls]. destruct Hclock as (Ht & Henv & Hclock).
  destruct (call_accounted t db charges rs ws call Hdb Hok Hkeyed Ht Henv Hacc Hrs Hws)
    as (charges' & Hacc' & Hrs' & Hws').
  apply (IH (tc_until call) _ charges'); [|done..].
  apply call_db_wf; [done|]. by eapply served_env_served.
Qed.

(** C17. The rate bound of a shared PostgreSQL database. Let any limiters on
    freshly migrated tables make any calls, with any checks and batches of
    any counters and any cleanups; let replies be lost, the client's clocks
    show anything, deadlines pass, connections close and commits go
    unacknowledged whether they took effect or not. As long as the server
    answers from its tables and its clock does not go back between calls,
    the charges committed to the row of a counter of limit [L] and window [W],
    read off the tables before and after each call, acknowledged or not, are
    made within their calls and fall into consecutive windows, each opened by
    its first charge and of at most [L]; the stored row is the newest of them,
    and is missing only when that has ended; every allowance a caller ever
    got is one of those charges; and in no interval of one window's length
    are the tables charged, or do callers get, more than [2 * L]. *)
Theorem pg_fixed_window_rate_bound (t : Z) (calls : list timed_call)
    (Hcalls : Forall (fun call => call_ok (tc_call call)
       /\ Forall pg_keyed (call_checks (tc_call call))) calls)
    (Hclock : clocked t calls) :
  let '(db, rs) := pg_run k FixedDb_new [] calls in
  exists charges newest,
    Forall2 Windows.reports (pg_writes k FixedDb_new [] calls) charges
    /\ anchored L W charges newest
    /\ match windows db !! k with
       | Some row => newest = Some (w_used row, w_expires_at row)
       | None => forall used expires, newest = Some (used, expires) -> expires <= clock_end t calls
       end
    /\ reported_by rs charges
    /\ forall a, charged_in a (a + W) charges <= 2 * L /\ reported_in a (a + W) rs <= 2 * L.
Proof.
  pose proof (run_accounted t FixedDb_new [] [] [] calls FixedDb_new_wf Hcalls Hclock) as Hrun.
  destruct (pg_run k FixedDb_new [] calls) as [db rs].
  destruct Hrun as (charges & (newest & Ha & _ & _ & Hrow) & Hrs & Hws).
  - exists None. split_and!; [by apply anchored_nil|by intros y ?%not_elem_of_nil|done|].
    cbn [FixedDb_new windows]. by rewrite lookup_empty.
  - apply reported_by_nil.
  - constructor.
  - exists charges, newest. split_and!; [done..|]. intros a.
    pose proof (anchored_interval L W charges newest a ltac:(lia) ltac:(lia) Ha) as Hc.
    pose proof (reported_le a (a + W) rs charges (anchored_positive _ _ _ _ Ha) Hrs). lia.
Qed.
End Counter.
End Rate.

(** * A concrete run *)

#[local] Existing Instance example_sqlx.
#[local] Existing Instance example_intervals.
#[local] Existing Instance example_intervals_laws.

Definition example_timed (now : Z) (kept : nat) (cost : Z) : timed_call unit :=
  mkTimedCall now now (CallCheck PostgresLimiter_new (example_lossy_env now kept) (example_pg_check 0 1 cost)).

Definition example_timed_calls : list (timed_call unit) :=
  [example_timed 0 20 2; example_timed 10 19 1; example_timed 20 20 1; example_timed 1000010 20 3].

Lemma example_timed_ok call :
  call ∈ example_timed_calls ->
  call_ok (tc_call call)
  /\ Forall (pg_keyed (Check_counter_key (example_pg_check 0 1 1)) 3 1000000) (call_checks (tc_call call)).
Proof.
  intros Hc. repeat (apply elem_of_cons in Hc as [->|Hc]); [..|by apply elem_of_nil in Hc];
    (split; [split; [apply PostgresConfig_new_wf|cbn; unfold_widths; lia|]|];
     (apply Forall_singleton; first [done|apply example_pg_check_ok; unfold is_byte; lia])).
Qed.

(** C17 witness: an admission of 2, one of 1 whose commit is not
    acknowledged but took effect, a refusal, and an admission of 3 in the
    next window.  The tables were charged three times, callers were told of
    two. *)
Lemma pg_fixed_window_rate_bound_witness :
  let k := Check_counter_key (example_pg_check 0 1 1) in
  let '(db, rs) := pg_run example_sha256 k FixedDb_new [] example_timed_calls in
  rs = [(1000010, 1000010, 3); (0, 0, 2)]
  /\ pg_writes example_sha256 k FixedDb_new [] example_timed_calls
     = [(1000010, 1000010, 3); (10, 10, 1); (0, 0, 2)]
  /\ w_used <$> windows db !! k = Some 3
  /\ (forall a, reported_in a (a + 1000000) rs <= 6)
  /\ exists charges newest,
       Forall2 Windows.reports [(1000010, 1000010, 3); (10, 10, 1); (0, 0, 2)] charges
       /\ anchored 3 1000000 charges newest.
Proof.
  cbv zeta.
  pose proof (pg_fixed_window_rate_bound example_sha256 (Check_counter_key (example_pg_check 0 1 1))
    3 1000000 ltac:(lia) ltac:(lia) 0 example_timed_calls) as Hbound.
  assert (Hruns : (pg_run example_sha256 (Check_counter_key (example_pg_check 0 1 1)) FixedDb_new []
                     example_timed_calls).2 = [(1000010, 1000010, 3); (0, 0, 2)])
    by (vm_compute; reflexivity).
  assert (Hused : w_used <$> windows (pg_run example_sha256 (Check_counter_key (example_pg_check 0 1 1))
                     FixedDb_new [] example_timed_calls).1
                     !! Check_counter_key (example_pg_check 0 1 1) = Some 3)
    by (vm_compute; reflexivity).
  assert (Hwrites : pg_writes example_sha256 (Check_counter_key (example_pg_check 0 1 1)) FixedDb_new []
                     example_timed_calls = [(1000010, 1000010, 3); (10, 10, 1); (0, 0, 2)])
    by (vm_compute; reflexivity).
  destruct (pg_run _ _ _ _ _) as [db rs]. cbn [fst snd] in *.
  split; [exact Hruns|]. split; [exact Hwrites|]. split; [exact Hused|].
  destruct Hbound as (charges & newest & Hws & Ha & _ & _ & Hall).
  - apply Forall_forall. exact example_timed_ok.
  - cbn [clocked tc_from tc_until example_timed example_timed_calls tc_call call_env].
    repeat split; try lia; apply example_lossy_served.
  - split; [intros a; apply Hall|]. exists charges, newest. split; [|exact Ha].
    rewrite <- Hwrites. exact Hws.
Defined.
