(* ===== verification/PgLocks.v ===== *)
(** The lock order of the PostgreSQL protocol.  Admissions take advisory
    locks, then the rows they find, then ledger shards, each in ascending
    order ([BatchSqlInput::from_checks], [BATCH_ADVISORY_LOCK_SQL],
    [BATCH_ROW_LOCK_SQL], [BATCH_CAPACITY_LOCK_SQL]); cleanup takes the rows
    it can have at once, skipping locked ones, and then waits for ledger
    shards in ascending order ([cleanup_expired.sql]).  Concurrent
    transactions therefore never deadlock. *)

From Stdlib Require Import Ascii String Sorting.Sorted.
From stdpp Require Import prelude list gmap relations sorting.
From S2P Require Import Prelude RustStd Identifier Policy Decision AttemptPolicy Key Check Observation OrdSet Shards PgErrors PgConfig PgSession PgTables PgLedger PgAdmission PgMaintenance PgConnection PgLimiter PgSpec PgHonest PgRefine.
Open Scope Z_scope.
Open Scope list_scope.

(** * Ordered locking *)

Section Locking.
Context {Lock : Type} `{Ordered Lock}.

(** A transaction holds locks until it ends, and still wants some, in
    order. *)
Record locker := mkLocker { held : list Lock; wanted : list Lock }.

(** One step of concurrent transactions: one gets its next lock, which no
    other holds, or one that has all its locks ends. *)
Inductive lock_step : list locker -> list locker -> Prop :=
| step_acquire before after lk rest have
    (Hfree : forall other, other ∈ before ++ after -> lk ∉ held other) :
    lock_step (before ++ mkLocker have (lk :: rest) :: after)
              (before ++ mkLocker (lk :: have) rest :: after)
| step_end before after have :
    lock_step (before ++ mkLocker have [] :: after) (before ++ after).

(** It wants locks in ascending order, above those it holds. *)
Definition ascending (t : locker) : Prop :=
  StronglySorted lt_of (wanted t) /\ forall h w, h ∈ held t -> w ∈ wanted t -> lt_of h w.

Lemma lt_of_trans a b c : lt_of a b -> lt_of b c -> lt_of a c.
Proof. apply cmp_trans. Qed.

Lemma ascending_step ts ts' : lock_step ts ts' -> Forall ascending ts -> Forall ascending ts'.
Proof.
  intros [before after lk rest have _|before after have];
    rewrite !Forall_app; intros [Hb Ha]; apply Forall_cons in Ha as [Ht Ha];
    (split; [done|]); [|done].
  constructor; [|done]. destruct Ht as [Hsorted Hlt]. cbn in *.
  apply StronglySorted_inv in Hsorted as [Hsorted Hall]. split; [done|]. cbn.
  intros h w [->|Hh]%elem_of_cons Hw; [by apply (proj1 (Forall_forall _ _) Hall)|].
  apply Hlt; [done|by right].
Qed.

(** The greatest lock a nonempty list of transactions waits for. *)
Lemma greatest_wait (ts : list locker) :
  Forall (fun t => wanted t <> []) ts -> ts <> [] ->
  exists t lk rest, t ∈ ts /\ wanted t = lk :: rest
    /\ forall t' lk' rest', t' ∈ ts -> wanted t' = lk' :: rest' -> ~ lt_of lk lk'.
Proof.
  induction 1 as [|t ts Ht Hall IH]; [done|]. intros _.
  destruct (wanted t) as [|lk rest] eqn:Hw; [done|].
  destruct ts as [|t2 ts].
  { exists t, lk, rest. split; [by left|]. split; [done|].
    intros t' lk' rest' ->%list_elem_of_singleton Hw'. rewrite Hw in Hw'. simplify_eq. apply lt_of_irrefl. }
  destruct IH as (m & lkm & restm & Hin & Hm & Hmax); [done|].
  destruct (cmp lkm lk) eqn:Hc.
  - apply cmp_eq in Hc as ->. exists m, lk, restm. split; [by right|]. split; [done|].
    intros t' lk' rest' [->|Hin']%elem_of_cons Hw'; [|by eapply Hmax].
    rewrite Hw in Hw'. simplify_eq. apply lt_of_irrefl.
  - exists t, lk, rest. split; [by left|]. split; [done|].
    intros t' lk' rest' [->|Hin']%elem_of_cons Hw' Hlt.
    + rewrite Hw in Hw'. simplify_eq. by apply (lt_of_irrefl lk').
    + apply (Hmax _ _ _ Hin' Hw'). by apply lt_of_trans with lk.
  - exists m, lkm, restm. split; [by right|]. split; [done|].
    intros t' lk' rest' [->|Hin']%elem_of_cons Hw'; [|by eapply Hmax].
    rewrite Hw in Hw'. simplify_eq. intros Hlt. apply cmp_gt in Hc.
    apply (lt_of_irrefl lkm). by apply lt_of_trans with lk'.
Qed.

(** Ordered transactions never all wait. *)
Lemma ascending_progress (ts : list locker) :
  Forall ascending ts -> ts <> [] -> exists ts', lock_step ts ts'.
Proof.
  intros Hasc Hne.
  destruct (decide (Exists (fun t => wanted t = []) ts)) as [Hend|Hwait].
  { apply Exists_exists in Hend as ([have want] & Hin & Hw). cbn in Hw. subst want.
    apply list_elem_of_split in Hin as (before & after & ->). eexists. apply step_end. }
  apply not_Exists_Forall in Hwait; [|apply _].
  destruct (greatest_wait ts Hwait Hne) as ([have want] & lk & rest & Hin & Hw & Hmax). cbn in Hw. subst want.
  pose proof Hin as (before & after & ->)%list_elem_of_split.
  eexists. apply step_acquire. intros other Hother Hheld.
  assert (Hin' : other ∈ before ++ mkLocker have (lk :: rest) :: after).
  { apply elem_of_app in Hother as [?|?]; apply elem_of_app; [by left|right; by right]. }
  pose proof (proj1 (Forall_forall _ _) Hwait other Hin') as Hwo.
  destruct (wanted other) as [|lk' rest'] eqn:Hw'; [done|].
  apply (Hmax other lk' rest' Hin' Hw').
  apply (proj1 (Forall_forall _ _) Hasc other Hin'); [done|]. rewrite Hw'. by left.
Qed.

(** What is left to do. *)
Definition lock_work (ts : list locker) : nat := sum_list_with (fun t => S (length (wanted t))) ts.

Lemma lock_step_work ts ts' : lock_step ts ts' -> lock_work ts = S (lock_work ts').
Proof.
  unfold lock_work. intros [before after lk rest have _|before after have];
    rewrite !sum_list_with_app; cbn; lia.
Qed.

(** Every run ends, after as many steps as there are locks to take and
    transactions to end, and no earlier. *)
Lemma ordered_locking (ts : list locker) n ts' :
  Forall ascending ts -> nsteps lock_step n ts ts' ->
  (n + lock_work ts' = lock_work ts)%nat /\ (ts' = [] \/ exists ts'', lock_step ts' ts'').
Proof.
  intros Hasc Hrun. induction Hrun as [ts|n ts ts1 ts2 Hstep Hrun IH].
  - split; [done|]. destruct (decide (ts = [])); [by left|right; by apply ascending_progress].
  - destruct IH as [Hw Hp]; [by eapply ascending_step|]. split; [|done].
    rewrite (lock_step_work _ _ Hstep). lia.
Qed.
End Locking.
Arguments locker : clear implicits.

(** * The locks of the protocol *)

Inductive PgLock :=
| AdvisoryLock (id : Z)
| RowLock (key : CounterKey)
| ShardLock (shard : Z).

(** Advisory locks before rows before shards; keys by their bytes. *)
Definition PgLock_fields (l : PgLock) : (Z * Z) * (bytes * bytes) :=
  match l with
  | AdvisoryLock id => ((0, id), ([], []))
  | RowLock key => ((1, 0), CounterKey_fields key)
  | ShardLock shard => ((2, shard), ([], []))
  end.

Lemma PgLock_fields_inj a b : PgLock_fields a = PgLock_fields b -> a = b.
Proof.
  destruct a, b; try done; unfold PgLock_fields; intros Heq; [congruence| |congruence].
  f_equal. apply CounterKey_fields_inj. congruence.
Qed.

#[export] Instance PgLock_ordered : Ordered PgLock := ordered_by PgLock_fields PgLock_fields_inj.

(** [BATCH_ROW_LOCK_SQL]: the existing rows in the order of the submitted
    positions, which count from one. *)
Definition row_lock_order (db : FixedDb) (keys : list CounterKey) (positions : list Z)
    : list CounterKey :=
  filter (fun key => is_Some (windows db !! key))
    (omap (fun position => keys !! Z.to_nat (position - 1)) positions).

(** Distinct shards in ascending order ([BATCH_CAPACITY_LOCK_SQL], the
    triggers and [cleanup_expired.sql]). *)
Definition shard_lock_order (keys : list CounterKey) : list Z :=
  merge_sort Z.le (remove_dups (capacity_shard <$> keys)).

(** What an admission locks, one statement after the other. *)
Definition admission_locks (db : FixedDb) (keys : list CounterKey) (input : BatchSqlInput)
    : list PgLock :=
  map AdvisoryLock (advisory_lock_ids input)
  ++ map RowLock (row_lock_order db keys (lock_input_positions input))
  ++ map ShardLock (shard_lock_order (filter (fun key => windows db !! key = None) keys)).

Definition admission_locker (db : FixedDb) (keys : list CounterKey) (input : BatchSqlInput)
    : locker PgLock := mkLocker [] (admission_locks db keys input).

(** What cleanup locks: rows it could have without waiting, then their
    shards. *)
Definition cleanup_locker (rows : list CounterKey) : locker PgLock :=
  mkLocker (map RowLock rows) (map ShardLock (shard_lock_order rows)).

(** ** They are ascending *)

Lemma StronglySorted_app {A} (R : A -> A -> Prop) l k :
  StronglySorted R l -> StronglySorted R k -> (forall x y, x ∈ l -> y ∈ k -> R x y) ->
  StronglySorted R (l ++ k).
Proof.
  induction 1 as [|x l Hl IH Hall]; intros Hk Hlk; [done|]. cbn. constructor.
  - apply IH; [done|]. intros y z Hy. apply Hlk. by right.
  - apply Forall_app. split; [done|]. apply Forall_forall. intros y Hy. apply Hlk; [by left|done].
Qed.

Lemma StronglySorted_map {A B} (R : A -> A -> Prop) (R' : B -> B -> Prop) (f : A -> B) l :
  (forall x y, R x y -> R' (f x) (f y)) -> StronglySorted R l -> StronglySorted R' (map f l).
Proof.
  intros Hf. induction 1 as [|x l Hl IH Hall]; [constructor|]. cbn. constructor; [done|].
  apply Forall_map. eapply Forall_impl; [done|]. by intros y; apply Hf.
Qed.

Lemma StronglySorted_filter {A} (R : A -> A -> Prop) (P : A -> Prop) `{forall x, base.Decision (P x)} l :
  StronglySorted R l -> StronglySorted R (filter P l).
Proof.
  induction 1 as [|x l Hl IH Hall]; [constructor|]. rewrite filter_cons. case_decide; [|done].
  constructor; [done|]. apply Forall_forall. intros y [_ Hy]%list_elem_of_filter.
  by apply (proj1 (Forall_forall _ _) Hall).
Qed.

(** A sorted list without duplicates ascends strictly. *)
Lemma sorted_by_strict {A K} `{Ordered K} (key : A -> K) l :
  sorted_by key l -> NoDup (key <$> l) -> StronglySorted (fun a b => lt_of (key a) (key b)) l.
Proof.
  induction 1 as [|x l Hl IH Hall]; intros Hnd; [constructor|].
  cbn in Hnd. apply NoDup_cons in Hnd as [Hx Hnd]. constructor; [by apply IH|].
  apply Forall_forall. intros y Hy. pose proof (proj1 (Forall_forall _ _) Hall y Hy) as Hc.
  cbn in Hc. unfold lt_of. destruct (cmp (key x) (key y)) eqn:Hxy; [|done|done].
  apply cmp_eq in Hxy. exfalso. apply Hx. rewrite Hxy. by apply list_elem_of_fmap_2.
Qed.

(** [dedup] of a sorted list ascends strictly. *)
Lemma dedup_elem l x : x ∈ dedup l -> x ∈ l.
Proof.
  induction l as [|y [|z l] IH]; [done|done|]. cbn [dedup].
  destruct (Z.eqb_spec y z) as [->|Hne]; [by right; apply IH|].
  intros [->|Hx]%elem_of_cons; [by left|right; by apply IH].
Qed.

Lemma dedup_ascending l : sorted_by id l -> StronglySorted lt_of (dedup l).
Proof.
  induction 1 as [|x l Hl IH Hall]; [constructor|]. destruct l as [|y l]; [by repeat constructor|].
  cbn [dedup]. destruct (Z.eqb_spec x y) as [->|Hne]; [done|]. constructor; [done|].
  apply Forall_forall. intros z Hz. change (z ∈ dedup (y :: l)) in Hz. apply dedup_elem in Hz. unfold lt_of.
  apply Forall_cons in Hall as [Hxy Hall]. cbn in *.
  assert (Hle : x < y).
  { destruct (Z.compare_spec x y); [lia|lia|done]. }
  apply StronglySorted_inv in Hl as [_ Hyl]. apply Z.compare_lt_iff.
  apply elem_of_cons in Hz as [->|Hz]; [done|].
  pose proof (proj1 (Forall_forall _ _) Hyl z Hz) as Hyz. cbn in Hyz.
  destruct (Z.compare_spec y z); [lia|lia|done].
Qed.

Lemma shard_lock_order_ascending keys : StronglySorted lt_of (shard_lock_order keys).
Proof.
  unfold shard_lock_order.
  assert (Hsorted : StronglySorted Z.le (merge_sort Z.le (remove_dups (capacity_shard <$> keys)))).
  { apply Sorted_StronglySorted; [intros a b c; lia|]. apply Sorted_merge_sort. apply _. }
  assert (Hnd : NoDup (merge_sort Z.le (remove_dups (capacity_shard <$> keys)))).
  { rewrite merge_sort_Permutation. apply NoDup_remove_dups. }
  revert Hnd. induction Hsorted as [|x l Hl IH Hall]; intros Hnd; [constructor|].
  apply NoDup_cons in Hnd as [Hx Hnd]. constructor; [by apply IH|]. apply Forall_forall. intros y Hy.
  pose proof (proj1 (Forall_forall _ _) Hall y Hy) as Hle. cbn in Hle.
  apply Z.compare_lt_iff. assert (x <> y) by congruence. lia.
Qed.

(** The submitted positions list the keys in order. *)
Lemma positions_keys keys :
  omap (fun position => keys !! Z.to_nat (position - 1))
    (map (fun index => Z.of_nat index + 1) (ordered_indices keys))
  = omap (fun index => keys !! index) (ordered_indices keys).
Proof.
  generalize (ordered_indices keys). induction l as [|i l IH]; [done|]. cbn.
  replace (Z.to_nat (Z.of_nat i + 1 - 1)) with i by lia. by rewrite IH.
Qed.

Definition key_at (keys : list CounterKey) (index : nat) : CounterKey :=
  default (mkCounterKey (from_digest []) (mkSubjectKey [])) (keys !! index).

Lemma ordered_indices_bound keys i : i ∈ ordered_indices keys -> (i < length keys)%nat.
Proof. unfold ordered_indices. rewrite sort_by_perm. intros Hi%elem_of_seq. lia. Qed.

Lemma positions_key_at keys (l : list nat) :
  (forall i, i ∈ l -> (i < length keys)%nat) ->
  omap (fun index => keys !! index) l = key_at keys <$> l.
Proof.
  induction l as [|i l IH]; intros Hl; [done|].
  destruct (lookup_lt_is_Some_2 keys i) as [k Hk]; [apply Hl; by left|].
  assert (Hki : key_at keys i = k) by (unfold key_at; by rewrite Hk).
  rewrite fmap_cons, Hki, <- IH by (intros; apply Hl; by right). cbn. by rewrite Hk.
Qed.

Lemma key_at_seq keys : key_at keys <$> seq 0 (length keys) = keys.
Proof.
  apply list_eq. intros i. rewrite list_lookup_fmap.
  destruct (decide (i < length keys)%nat) as [Hi|Hi].
  - rewrite lookup_seq_lt by done. cbn. unfold key_at. cbn.
    by destruct (lookup_lt_is_Some_2 keys i Hi) as [k ->].
  - rewrite lookup_seq_ge by lia. rewrite (lookup_ge_None_2 keys) by lia. done.
Qed.

Lemma row_lock_order_ascending db keys :
  NoDup keys ->
  StronglySorted lt_of (row_lock_order db keys (map (fun index => Z.of_nat index + 1) (ordered_indices keys))).
Proof.
  intros Hnd. unfold row_lock_order. rewrite positions_keys.
  rewrite positions_key_at by (intros i; apply ordered_indices_bound).
  apply StronglySorted_filter. apply (StronglySorted_map (fun a b => lt_of (key_at keys a) (key_at keys b)));
    [done|].
  apply sorted_by_strict; [apply (sort_by_sorted (key_at keys))|].
  change (ordered_indices keys) with (sort_by (key_at keys) (seq 0 (length keys))).
  by rewrite (sort_by_perm (key_at keys)), key_at_seq.
Qed.

Lemma lt_of_advisory a b : lt_of a b -> lt_of (AdvisoryLock a) (AdvisoryLock b).
Proof. unfold lt_of. cbn. by intros ->. Qed.
Lemma lt_of_row a b : lt_of a b -> lt_of (RowLock a) (RowLock b).
Proof. unfold lt_of. cbn. done. Qed.
Lemma lt_of_shard a b : lt_of a b -> lt_of (ShardLock a) (ShardLock b).
Proof. unfold lt_of. cbn. by intros ->. Qed.

Section Protocol.
Context `{PgIntervalsLaws} (sha256 : bytes -> bytes).

(** Concurrent transactions of the protocol: admissions that passed
    validation, each with the tables its locking statements see, and
    cleanups. *)
Inductive participant :=
| Admitting (db : FixedDb) (checks : list FixedCheck)
| Cleaning (rows : list CounterKey).

Definition participant_ok (p : participant) : Prop :=
  match p with Admitting _ checks => batch_ok checks | Cleaning _ => True end.

(** The locks come from the batch's own input. *)
Definition locker_of (p : participant) : Outcome (locker PgLock) :=
  match p with
  | Admitting db checks =>
      input ← from_checks sha256 checks;
      mret (admission_locker db (Check_counter_key <$> checks) input)
  | Cleaning rows => mret (cleanup_locker rows)
  end.

Lemma admission_ascending db checks :
  batch_ok checks ->
  ascending (admission_locker db (Check_counter_key <$> checks) (batch_input sha256 checks)).
Proof.
  intros Hok. split; [|by intros h w ?%elem_of_nil].
  cbn [admission_locker wanted admission_locks]. unfold admission_locks.
  apply StronglySorted_app; [|apply StronglySorted_app|].
  - eapply StronglySorted_map; [apply lt_of_advisory|]. apply dedup_ascending, sort_by_sorted.
  - eapply StronglySorted_map; [apply lt_of_row|].
    apply row_lock_order_ascending, (bo_distinct checks Hok).
  - eapply StronglySorted_map; [apply lt_of_shard|]. apply shard_lock_order_ascending.
  - intros x y (a & -> & _)%list_elem_of_fmap (b & -> & _)%list_elem_of_fmap. done.
  - intros x y (a & -> & _)%list_elem_of_fmap [Hy|Hy]%elem_of_app;
      by apply list_elem_of_fmap in Hy as (b & -> & _).
Qed.

Lemma cleanup_ascending rows : ascending (cleanup_locker rows).
Proof.
  split; cbn [cleanup_locker wanted held].
  - eapply StronglySorted_map; [apply lt_of_shard|]. apply shard_lock_order_ascending.
  - intros h w (a & -> & _)%list_elem_of_fmap (b & -> & _)%list_elem_of_fmap. done.
Qed.

(** C34. Any number of concurrent admissions and cleanups can always go on:
    an admission's advisory ids, the existing rows in the submitted
    positions and the ledger shards of its missing keys are one ascending
    sequence of locks, cleanup waits only for shards, so in every reachable
    state some transaction can take its next lock or end, until all have
    ended, after exactly as many steps as there are locks and
    transactions. *)
Theorem pg_locks_deadlock_free (participants : list participant)
    (Hok : Forall participant_ok participants) :
  exists lockers, mapO locker_of participants = Done lockers
  /\ forall n lockers', nsteps lock_step n lockers lockers' ->
       (n + lock_work lockers' = lock_work lockers)%nat
       /\ (lockers' = [] \/ exists lockers'', lock_step lockers' lockers'').
Proof.
  assert (Hl : exists lockers, mapO locker_of participants = Done lockers /\ Forall ascending lockers).
  { induction Hok as [|p ps Hp _ (lockers & Hl & Hall)]; [by eexists|]. cbn [mapO].
    destruct p as [db checks|rows]; cbn [locker_of participant_ok] in *.
    - rewrite from_checks_Done by done. rewrite Hl. eexists. split; [done|].
      constructor; [by apply admission_ascending|done].
    - rewrite Hl. eexists. split; [done|]. constructor; [apply cleanup_ascending|done]. }
  destruct Hl as (lockers & Hl & Hall). exists lockers. split; [done|].
  intros n lockers'. by apply ordered_locking.
Qed.
End Protocol.

#[local] Existing Instance example_intervals.
#[local] Existing Instance example_intervals_laws.

Lemma example_batch_ok a b c d :
  (is_byte a /\ is_byte b) /\ (is_byte c /\ is_byte d) /\ (a, b) <> (c, d) ->
  batch_ok [example_pg_check a b 1; example_pg_check c d 1].
Proof.
  intros ([Ha Hb] & [Hc Hd] & Hne). split; [done|cbn; solve_width| |].
  - apply NoDup_cons. split; [|apply NoDup_singleton].
    intros Heq%list_elem_of_singleton. cbn in Heq. injection Heq as -> ->. done.
  - apply Forall_cons_2; [|apply Forall_singleton]; by apply example_pg_check_ok; try lia.
Qed.

(** Two batches that name the same keys in opposite orders, and a cleanup. *)
Definition example_participants : list participant :=
  [Admitting FixedDb_new [example_pg_check 1 1 1; example_pg_check 0 2 1];
   Admitting FixedDb_new [example_pg_check 0 2 1; example_pg_check 1 1 1]; Cleaning []].

Lemma example_participants_ok : Forall participant_ok example_participants.
Proof.
  repeat (apply Forall_cons; split); [..|apply Forall_nil_2]; [| |done];
    apply example_batch_ok; unfold is_byte; (split_and!; [lia..|done]).
Qed.

(** C34 witness. *)
Lemma pg_locks_deadlock_free_witness :
  exists lockers, mapO (locker_of example_sha256) example_participants = Done lockers
    /\ wanted <$> lockers !! 0%nat = wanted <$> lockers !! 1%nat
    /\ exists lockers', lock_step lockers lockers'.
Proof.
  destruct (pg_locks_deadlock_free example_sha256 example_participants example_participants_ok)
    as (lockers & Hl & Hrun).
  exists lockers. split; [exact Hl|]. destruct (Hrun 0%nat lockers (nsteps_O _ lockers)) as (_ & [Hnil|Hstep]).
  - rewrite Hnil in Hl. vm_compute in Hl. discriminate Hl.
  - split; [|exact Hstep]. vm_compute in Hl. injection Hl as <-. reflexivity.
Defined.
