(* ===== verification/PgGcra.v ===== *)
(** [runlimit-postgres/src/gcra.rs]: the durable GCRA backend.  Its tables
    and the meaning of its statements, the admission transaction with the
    checks it makes of every reply, cleanup, and the calls of
    [PostgresGcraLimiter].

    Theoretical arrival times travel as decimal text ([NUMERIC(39, 0)]);
    times are milliseconds of the server's clock, sampled in microseconds
    and rounded down.  Statements run one at a time on a transaction's copy
    of the tables; no shard is ever locked by another when cleanup skips
    locked ones. *)

From Stdlib Require Import Ascii String.
From stdpp Require Import prelude list gmap sorting.
From S2P Require Import Prelude RustStd Identifier Policy Decision AttemptPolicy Key Check Observation Gcra PgErrors PgConfig PgSession PgTables PgAdmission PgMaintenance PgInvariant PgConnection PgLimiter OrdSet.
Open Scope string_scope.
Open Scope Z_scope.
Open Scope list_scope.

Module PostgresGcra.

(** * Tables *)

Record CounterRow := mkCounterRow { tat_scaled : Z; expires_at_ms : Z }.
Record ShardRow := mkShardRow { row_count : Z; observed_at_ms : Z }.

(** [runlimit_gcra] by primary key, and [runlimit_gcra_shards]. *)
Record GcraDb := mkGcraDb {
  counters : gmap CounterKey CounterRow;
  shards : gmap Z ShardRow;
}.

(** The tables right after the migrations. *)
Definition GcraDb_new : GcraDb :=
  mkGcraDb ∅ (list_to_map ((fun s => (Z.of_nat s, mkShardRow 0 0)) <$> seq 0 256)).

(** * Statements *)

Record ShardReply (E : Type) := mkShardReply {
  sr_capacity_shard : Col E Z;
  sr_row_count : Col E Z;
  sr_observed_at_ms : Col E Z;
}.
Arguments mkShardReply {E} _ _ _.
Arguments sr_capacity_shard {E} _.
Arguments sr_row_count {E} _.
Arguments sr_observed_at_ms {E} _.

Record CounterReply (E : Type) := mkCounterReply {
  cr_input_index : Col E Z;
  cr_tat_scaled : Col E (option str);
  cr_expires_at_ms : Col E (option Z);
}.
Arguments mkCounterReply {E} _ _ _.
Arguments cr_input_index {E} _.
Arguments cr_tat_scaled {E} _.
Arguments cr_expires_at_ms {E} _.

Inductive GcraQuery (E : Type) : Type -> Type :=
| GCRA_SET_LOCAL_TIMEOUTS_SQL (statement_timeout lock_timeout : str) : GcraQuery E unit
| LOCK_SHARDS (ids : list Z) : GcraQuery E (ShardReply E)
| SAMPLE_TIME : GcraQuery E (Col E Z)
| READ_COUNTERS (fingerprints subjects : list bytes) : GcraQuery E (CounterReply E)
| UPSERT (fingerprints subjects : list bytes) (tats : list str) (expiries : list Z) : GcraQuery E unit
| OBSERVE_SHARDS (ids : list Z) (now : Z) : GcraQuery E unit
| CLEANUP_LOCKS : GcraQuery E (Col E Z)
| CLEANUP_ADVANCE_TIME (ids : list Z) : GcraQuery E unit
| CLEANUP_DELETE (ids : list Z) (maximum : Z) : GcraQuery E unit.
Arguments GCRA_SET_LOCAL_TIMEOUTS_SQL {E} _ _.
Arguments LOCK_SHARDS {E} _.
Arguments SAMPLE_TIME {E}.
Arguments READ_COUNTERS {E} _ _.
Arguments UPSERT {E} _ _ _ _.
Arguments OBSERVE_SHARDS {E} _ _.
Arguments CLEANUP_LOCKS {E}.
Arguments CLEANUP_ADVANCE_TIME {E} _.
Arguments CLEANUP_DELETE {E} _ _.

#[export] Instance gcra_statements E : Statements (GcraQuery E) := {
  set_local_timeouts := GCRA_SET_LOCAL_TIMEOUTS_SQL;
}.

(** [floor(extract(epoch FROM clock_timestamp()) * 1000)]. *)
Definition sample_ms (clock_micros : Z) : Z := clock_micros / 1000.

(** [WHERE capacity_shard = ANY(ids) ORDER BY capacity_shard]. *)
Definition shards_in_order (db : GcraDb) (ids : list Z) : list (Z * ShardRow) :=
  omap (fun id => pair id <$> shards db !! id) (merge_sort Z.le (remove_dups ids)).

Definition INVALID_TEXT : str := byte_string "22P02".

(** Check constraints of the two tables. *)
Definition NUMERIC_39_MAX : Z := 10 ^ 39 - 1.
Definition counter_row_ok (key : CounterKey) (row : CounterRow) : bool :=
  size_between 32 32 (fingerprint_bytes (ck_fingerprint key))
  && size_between 32 32 (SubjectKey_as_bytes (ck_subject key))
  && (0 <=? tat_scaled row) && (tat_scaled row <=? NUMERIC_39_MAX) && (0 <=? expires_at_ms row).
Definition shard_row_ok (row : ShardRow) : bool :=
  (0 <=? row_count row) && (row_count row <=? HARD_MAX_ROWS_PER_SHARD) && (0 <=? observed_at_ms row).

(** The row trigger: one row more or less in the shard of [key]. *)
Definition capacity_change (key : CounterKey) (delta : Z) (shards : gmap Z ShardRow)
    : Result str (gmap Z ShardRow) :=
  match shards !! capacity_shard key with
  | None => Err FOREIGN_KEY_VIOLATION
  | Some row =>
      let row' := mkShardRow (row_count row + delta) (observed_at_ms row) in
      if shard_row_ok row' then Ok (<[capacity_shard key := row']> shards) else Err CHECK_VIOLATION
  end.

(** One row of [INSERT ... ON CONFLICT DO UPDATE]. *)
Definition upsert_counter (db : GcraDb) (key : CounterKey) (row : CounterRow) : Result str GcraDb :=
  if counter_row_ok key row then
    match counters db !! key with
    | Some _ => Ok (mkGcraDb (<[key := row]> (counters db)) (shards db))
    | None =>
        shards' ← capacity_change key 1 (shards db);
        mret (mkGcraDb (<[key := row]> (counters db)) shards')
    end
  else Err CHECK_VIOLATION.

Fixpoint upsert_counters (db : GcraDb) (rows : list (CounterKey * (str * Z))) : Result str GcraDb :=
  match rows with
  | [] => Ok db
  | (key, (tat, expires)) :: rows =>
      tat ← ok_or (parse_unsigned NUMERIC_39_MAX tat) INVALID_TEXT;
      db ← upsert_counter db key (mkCounterRow tat expires);
      upsert_counters db rows
  end.

(** [UPDATE runlimit_gcra_shards SET observed_at_ms = now WHERE ... ANY(ids)]. *)
Definition observe_all (db : GcraDb) (ids : list Z) (now : Z) : GcraDb :=
  mkGcraDb (counters db)
    (map_imap (fun id row => Some (if bool_decide (id ∈ ids) then mkShardRow (row_count row) now else row))
       (shards db)).

(** Counters of a shard that its clock has passed. *)
Definition expired_counters (db : GcraDb) (ids : list Z) (clock : ShardRow -> Z) : list (Z * CounterKey) :=
  merge_sort expires_le
    ((fun '(key, row) => (expires_at_ms row, key))
     <$> filter (fun '(key, row) => capacity_shard key ∈ ids
            /\ from_option (fun shard => expires_at_ms row <=? clock shard) false
                 (shards db !! capacity_shard key) = true)
           (map_to_list (counters db))).

Fixpoint delete_counters (db : GcraDb) (keys : list CounterKey) : Result str GcraDb :=
  match keys with
  | [] => Ok db
  | key :: keys =>
      shards' ← capacity_change key (-1) (shards db);
      delete_counters (mkGcraDb (delete key (counters db)) shards') keys
  end.

(** [greatest(sample, coalesce(max(observed_at_ms), 0))] of the given shards. *)
Definition clamped_now (db : GcraDb) (ids : list Z) (sample : Z) : Z :=
  foldr (fun p acc => Z.max (observed_at_ms p.2) acc) (Z.max sample 0) (shards_in_order db ids).

(** The effect of a statement that changes the tables, or its failure. *)
Definition updated {E} `{SqlxError E} (db : GcraDb) (affected : Z) (r : Result str GcraDb)
    : GcraDb * Result E (Response unit) :=
  match r with
  | Ok db' => (db', Ok (mkResponse [] affected))
  | Err code => (db, Err (server_error code))
  end.

(** The server: a statement that starts at [started], as its clock tells. *)
Definition gcra_sql {E} `{SqlxError E} (started : Z)
    : forall A, GcraQuery E A -> GcraDb -> GcraDb * Result E (Response A) :=
  fun A q db =>
  match q in GcraQuery _ A return GcraDb * Result E (Response A) with
  | GCRA_SET_LOCAL_TIMEOUTS_SQL _ _ => (db, Ok (mkResponse [tt] 1))
  | LOCK_SHARDS ids =>
      let out := (fun '(id, row) => mkShardReply (Ok id) (Ok (row_count row)) (Ok (observed_at_ms row)))
                 <$> shards_in_order db ids in
      (db, Ok (mkResponse out (Z.of_nat (length out))))
  | SAMPLE_TIME => (db, Ok (mkResponse [Ok (sample_ms started)] 1))
  | READ_COUNTERS fingerprints subjects =>
      let out := (fun '(index, key) =>
        mkCounterReply (Ok index) (Ok (decimal ∘ tat_scaled <$> counters db !! key))
          (Ok (expires_at_ms <$> counters db !! key)))
        <$> with_ordinality (unnest_keys fingerprints subjects) in
      (db, Ok (mkResponse out (Z.of_nat (length out))))
  | UPSERT fingerprints subjects tats expiries =>
      let keys := unnest_keys fingerprints subjects in
      updated db (Z.of_nat (length keys))
        (if bool_decide (NoDup keys) then upsert_counters db (zip keys (zip tats expiries))
         else Err CARDINALITY_VIOLATION)
  | OBSERVE_SHARDS ids now =>
      updated db (Z.of_nat (length (shards_in_order db ids)))
        (if (now <? 0) && negb (bool_decide (shards_in_order db ids = [])) then Err CHECK_VIOLATION
         else Ok (observe_all db ids now))
  | CLEANUP_LOCKS =>
      let now := sample_ms started in
      let ids := merge_sort Z.le (remove_dups (capacity_shard ∘ snd <$>
        expired_counters db (fst <$> map_to_list (shards db))
          (fun shard => Z.max now (observed_at_ms shard)))) in
      (db, Ok (mkResponse (Ok <$> ids) (Z.of_nat (length ids))))
  | CLEANUP_ADVANCE_TIME ids =>
      updated db (Z.of_nat (length (shards_in_order db ids)))
        (Ok (observe_all db ids (clamped_now db ids (sample_ms started))))
  | CLEANUP_DELETE ids maximum =>
      let keys := snd <$> take (Z.to_nat maximum) (expired_counters db ids observed_at_ms) in
      updated db (Z.of_nat (length keys)) (delete_counters db keys)
  end.

(** * The transaction *)

Section Transaction.
Context {E : Type} `{SqlxError E}.
Notation Tx := (Tx E GcraDb (GcraQuery E) (CheckError E)).
Notation Failure := (ConnectionOutcome (CheckError E)).
Notation Res := (Result Failure).

Definition invariant (detail : string) : Failure := Reusable (storage_invariant detail).

Definition field {A} (c : Col E A) : Res A :=
  map_err (fun error => Reusable (storage_decode_invariant "invalid GCRA database response" error)) c.

(** [let-else] and guards that fail with an [invariant]. *)
Definition ensure (condition : bool) (detail : string) : Res unit :=
  if condition then Ok tt else Err (invariant detail).

(** The loop over the locked ledger rows and the shards they must be. *)
Fixpoint ledger_loop (rows : list (ShardReply E * Z)) (counts : list Z) (now : Z) : Res (list Z * Z) :=
  match rows with
  | [] => Ok (counts, now)
  | (row, expected) :: rows =>
      shard ← field (sr_capacity_shard row);
      count ← field (sr_row_count row);
      observed ← field (sr_observed_at_ms row);
      if negb (shard =? expected) || negb ((0 <=? count) && (count <=? HARD_MAX_ROWS_PER_SHARD))
         || (observed <? 0)
      then Err (invariant "invalid GCRA capacity ledger")
      else ledger_loop rows (<[Z.to_nat shard := count]> counts) (Z.max now observed)
  end.

Inductive Pending :=
| Pending_Allowed (allowances : list Gcra.PendingAllowance)
| Pending_Denied (admission : Admission).

(** The stored counter of a reply row: none, or its arrival time and
    expiry. *)
Definition decode_counter (tat : option str) (expires : option Z) : Res (option (Z * Z)) :=
  match tat, expires with
  | None, None => Ok None
  | Some tat, Some expires =>
      if 0 <=? expires then
        tat ← ok_or (parse_unsigned u128_max tat) (invariant "invalid GCRA theoretical arrival time");
        mret (Some (tat, expires))
      else Err (invariant "inconsistent GCRA stored counter")
  | _, _ => Err (invariant "inconsistent GCRA stored counter")
  end.

(** [Option::get_or_insert]. *)
Definition get_or_insert {A} (o : option A) (a : A) : option A :=
  match o with Some _ => o | None => Some a end.

(** The loop of [evaluate]. *)
Fixpoint evaluate_loop (maximum now : Z) (index : nat)
    (inputs : list (Check GcraPolicy * CounterReply E)) (counts : list Z)
    (pending : list Gcra.PendingAllowance) (denial : option Admission) : Res Pending :=
  match inputs with
  | [] => Ok (match denial with Some denial => Pending_Denied denial | None => Pending_Allowed pending end)
  | (check, row) :: inputs =>
      let policy := check_policy check in
      returned_index ← field (cr_input_index row);
      _ ← ensure (bool_decide (usize_try_from returned_index = Some index))
            "GCRA preflight changed input order";
      tat ← field (cr_tat_scaled row);
      expires ← field (cr_expires_at_ms row);
      stored ← decode_counter tat expires;
      _ ← ensure (match stored with
                  | Some (tat, expires) => div_ceil tat (Capacity_get (gp_quota policy)) =? expires
                  | None => true
                  end) "GCRA expiry disagrees with theoretical arrival time";
      let active_tat :=
        match stored with
        | Some (tat, expires) => if now <? expires then Some tat else None
        | None => None
        end in
      evaluated ← map_err (fun _ => invariant "GCRA arithmetic exceeded exact range")
                    (Gcra.evaluate check now active_tat);
      match evaluated with
      | Evaluation_Denied quota =>
          let admission :=
            match gp_quota_mode policy with
            | Shadow => Admission_ShadowDenied index quota
            | Enforce => Admission_Denied index (QuotaExceeded quota)
            end in
          evaluate_loop maximum now (S index) inputs counts pending (get_or_insert denial admission)
      | Evaluation_Allowed allowance =>
          let shard := Z.to_nat (capacity_shard (Check_counter_key check)) in
          let count := default 0 (counts !! shard) in
          let '(counts, denial) :=
            match stored with
            | None =>
                (<[shard := count + 1]> counts,
                 if maximum <=? count
                 then get_or_insert denial (Admission_Denied index (StorageCapacity None)) else denial)
            | Some _ => (counts, denial)
            end in
          evaluate_loop maximum now (S index) inputs counts (pending ++ [allowance]) denial
      end
  end.

Definition evaluate (checks : list (Check GcraPolicy)) (rows : list (CounterReply E)) (counts : list Z)
    (maximum now : Z) : Res Pending :=
  if negb (Nat.eqb (length rows) (length checks))
  then Err (invariant "GCRA preflight count disagrees with the batch")
  else evaluate_loop maximum now 0 (zip checks rows) counts [] None.

(** The expiries that fit the database. *)
Fixpoint database_expiries (allowances : list Gcra.PendingAllowance) : Res (list Z) :=
  match allowances with
  | [] => Ok []
  | allowance :: allowances =>
      expires ← ok_or (try_from i64_max (expires_at_millis allowance))
                  (invariant "GCRA expiry exceeds database range");
      rest ← database_expiries allowances;
      mret (expires :: rest)
  end.

Definition run_transaction {D} (checks : list (Check GcraPolicy)) (config : PostgresConfig) (deadline : Z)
    (build : Admission -> Result (CheckError E) D) : Tx (ConnectionOutcome D) :=
  transaction ← begin_ deadline;
  let shards := dedup (sort_by id (map (fun check => capacity_shard (Check_counter_key check)) checks)) in
  locked ← fetch_all transaction CheckPhase_AcquiringCapacityShardLocks (LOCK_SHARDS shards);
  _ ← lift (ensure (Nat.eqb (length locked) (length shards)) "GCRA capacity ledger is missing a shard");
  sample ← fetch_one transaction CheckPhase_PreflightingCounters SAMPLE_TIME;
  now ← lift (field sample);
  '(counts, now) ← lift (ledger_loop (zip locked shards)
                           (replicate (Z.to_nat CAPACITY_SHARD_COUNT) 0) now);
  _ ← lift (ensure (0 <=? now) "negative GCRA database time");
  let fingerprints := map (fun check => fingerprint_bytes (ck_fingerprint (Check_counter_key check))) checks in
  let subjects := map (fun check => SubjectKey_as_bytes (check_subject check)) checks in
  rows ← fetch_all transaction CheckPhase_PreflightingCounters (READ_COUNTERS fingerprints subjects);
  pending ← lift (evaluate checks rows counts (maximum_rows_per_shard config) now);
  match pending with
  | Pending_Denied admission =>
      decision ← lift (map_err Reusable (build admission));
      deny decision
  | Pending_Allowed allowances =>
      let tats := map (fun allowance => decimal (Gcra.tat_scaled allowance)) allowances in
      expiries ← lift (database_expiries allowances);
      decision ← lift (map_err Reusable (build (Admission_Allowed (map Gcra.pending_allowance allowances))));
      updated ← execute transaction CheckPhase_UpdatingCounters (UPSERT fingerprints subjects tats expiries);
      _ ← lift (ensure (updated =? Z.of_nat (length checks)) "GCRA upsert count disagrees with the batch");
      _ ← execute transaction CheckPhase_UpdatingCounters (OBSERVE_SHARDS shards now);
      _ ← commit transaction;
      mret (Reusable decision)
  end.
End Transaction.

(** ** Cleanup *)

Section Cleanup.
Context {E : Type} `{SqlxError E}.
Notation Tx := (Tx E GcraDb (GcraQuery E) (MaintenanceError E)).

(** [rows.iter().map(try_get).collect()]. *)
Fixpoint collect_shards (rows : list (Col E Z)) : Result (ConnectionOutcome (MaintenanceError E)) (list Z) :=
  match rows with
  | [] => Ok []
  | row :: rows =>
      shard ← map_err (fun error => Reusable (MaintenanceError_Database error)) row;
      rest ← collect_shards rows;
      mret (shard :: rest)
  end.

Definition cleanup_transaction (maximum deadline : Z) : Tx Z :=
  _ ← maintenance_before_commit CleanupPhase_BeginningTransaction (interact send_begin);
  _ ← set_maintenance_server_timeouts deadline CleanupPhase_ConfiguringTimeouts;
  locked ← maintenance_before_commit CleanupPhase_DeletingExpiredWindows (interact (send CLEANUP_LOCKS));
  shards ← lift (collect_shards (rows locked));
  _ ← set_maintenance_server_timeouts deadline CleanupPhase_ConfiguringTimeouts;
  _ ← maintenance_before_commit CleanupPhase_DeletingExpiredWindows
        (interact (send (CLEANUP_ADVANCE_TIME shards)));
  _ ← set_maintenance_server_timeouts deadline CleanupPhase_ConfiguringTimeouts;
  deleted ← maintenance_before_commit CleanupPhase_DeletingExpiredWindows
              (interact (send (CLEANUP_DELETE shards maximum)));
  _ ← commit_maintenance deadline;
  mret (rows_affected deleted).
End Cleanup.

(** * [PostgresGcraLimiter] *)

Section Limiter.
Context {E : Type} `{SqlxError E}.
Notation CallEnd := (CallEnd E GcraDb (GcraQuery E)).
Notation PgEnv := (PgEnv E GcraDb (GcraQuery E)).

(** [struct PostgresGcraLimiter]; the pool is the environment of each call. *)
Record PostgresGcraLimiter := mkPostgresGcraLimiter {
  config : PostgresConfig;
  observer : bool;
}.

Definition new : PostgresGcraLimiter := mkPostgresGcraLimiter PostgresConfig_new false.
Definition with_config (self : PostgresGcraLimiter) (config : PostgresConfig) : PostgresGcraLimiter :=
  mkPostgresGcraLimiter config (observer self).
Definition with_observer (self : PostgresGcraLimiter) : PostgresGcraLimiter :=
  mkPostgresGcraLimiter (config self) true.

Definition run {D} (self : PostgresGcraLimiter) (db : GcraDb) (env : PgEnv)
    (checks : list (Check GcraPolicy)) (build : Admission -> Result (CheckError E) D)
    : CallEnd (Result (CheckError E) D) :=
  match acquire_check_connection (env_acquired env) with
  | Err e => mkCallEnd (Done (Err e)) None
  | Ok _ =>
      let deadline := env_connected_at env + as_nanos (operation_timeout (config self)) in
      guarded_run (connect db env)
        (fun s => merged (run_transaction checks (config self) deadline build s))
  end.

(** [observe_safely], when there is an observer. *)
Definition observe (self : PostgresGcraLimiter) (observation : Observation) : list Observation :=
  if observer self then [observation] else [].

Definition check (self : PostgresGcraLimiter) (db : GcraDb) (env : PgEnv) (check : Check GcraPolicy)
    : CallEnd (Result (CheckError E) Decision) * list Observation :=
  let e := run self db env [check] single_decision in
  (e, match ce_result e with
      | Done result =>
          observe self (Observation_Admission
            (match result with
             | Ok decision => from_check check decision (env_elapsed env)
             | Err error => failed_check check (CheckError_consumption error) (env_elapsed env)
             end))
      | Panic => []
      end).

Definition check_all (self : PostgresGcraLimiter) (db : GcraDb) (env : PgEnv)
    (checks : list (Check GcraPolicy))
    : CallEnd (Result (BatchCheckError E) BatchDecision) * list Observation :=
  let e :=
    match validate_batch checks (pg_max_batch_size (config self)) with
    | Ok _ =>
        let e := run self db env checks (batch_decision (length checks)) in
        mkCallEnd (map_err BatchCheckError_Check <$> ce_result e) (ce_session e)
    | Err error => mkCallEnd (Done (Err (InvalidBatch error))) None
    end in
  (e, match ce_result e with
      | Done result =>
          observe self (Observation_Admission
            (match result with
             | Ok decision => from_batch checks decision (env_elapsed env)
             | Err error => failed_batch checks (BatchCheckError_consumption error) (env_elapsed env)
             end))
      | Panic => []
      end).

Definition cleanup (self : PostgresGcraLimiter) (db : GcraDb) (env : PgEnv) (maximum_rows : Z)
    : CallEnd (Result (MaintenanceError E) Z) :=
  if maximum_rows =? 0 then mkCallEnd (Done (Ok 0)) None
  else
    match acquire_maintenance_connection (env_acquired env) with
    | Err e => mkCallEnd (Done (Err e)) None
    | Ok _ =>
        let deadline := env_connected_at env + as_nanos (operation_timeout (config self)) in
        guarded_run (connect db env)
          (fun s => merged ((rows ← cleanup_transaction maximum_rows deadline; mret (Reusable rows)) s))
    end.

Definition cleanup_expired (self : PostgresGcraLimiter) (db : GcraDb) (env : PgEnv) (maximum_rows : Z)
    : CallEnd (Result (MaintenanceError E) Z) * list Observation :=
  let e := cleanup self db env maximum_rows in
  (e, match ce_result e with
      | Done result =>
          let outcome :=
            match result with
            | Ok removed => CleanupOutcome_Confirmed removed
            | Err error =>
                if may_have_removed_rows error then CleanupOutcome_Unknown else CleanupOutcome_NoEffect
            end in
          observe self (Observation_Cleanup
            (mkCleanupObservation (Z.to_nat maximum_rows) outcome (env_elapsed env)))
      | Panic => []
      end).
End Limiter.
End PostgresGcra.
