(* ===== verification/PgGcraCertain.v ===== *)
(** What the transactions and calls of [PostgresGcraLimiter] do to the
    committed tables, whatever the server and the network do: the lemmas
    behind the certainty theorem of [PgGcraTruth]. *)

From Stdlib Require Import Ascii String.
From stdpp Require Import prelude list gmap.
From S2P Require Import Prelude RustStd Identifier Policy Decision AttemptPolicy Key Check Observation Gcra PgErrors PgConfig PgSession PgTables PgAdmission PgMaintenance PgInvariant PgConnection PgLimiter PgGcra.
Open Scope Z_scope.
Open Scope list_scope.
Import PostgresGcra.

Section Certain.
Context {E : Type} `{SqlxError E}.
Notation Tx := (Tx E GcraDb (GcraQuery E) (CheckError E)).
Notation Res := (Result (ConnectionOutcome (CheckError E))).

(** Rejections of a reply consume nothing. *)
Definition rejects {A} (r : Res A) : Prop :=
  forall o, r = Err o -> not_consumed (outcome_value o).

Lemma rejects_ok {A} (a : A) : rejects (Ok a).
Proof. done. Qed.
Lemma rejects_ret {A} (a : A) : rejects (mret a).
Proof. done. Qed.
Lemma rejects_invariant {A} detail : rejects (A := A) (Err (invariant detail)).
Proof. by intros o [= <-]. Qed.
Lemma rejects_bind {A B} (r : Res A) (f : A -> Res B) :
  rejects r -> (forall a, rejects (f a)) -> rejects (r ≫= f).
Proof. intros Hr Hf. destruct r as [a|o]; [apply Hf|]. intros o' [= <-]. by apply Hr. Qed.
Lemma rejects_field {A} (c : Col E A) : rejects (field c).
Proof. destruct c; intros o [= <-]. done. Qed.
Lemma rejects_ensure condition detail : rejects (ensure condition detail).
Proof. destruct condition; [done|apply rejects_invariant]. Qed.
Lemma rejects_or {A} (v : option A) detail : rejects (ok_or v (invariant detail)).
Proof. destruct v; [done|apply rejects_invariant]. Qed.
Lemma rejects_map_err {F A} (r : Result F A) detail : rejects (map_err (fun _ => invariant detail) r).
Proof. destruct r; [done|apply rejects_invariant]. Qed.
#[local] Create HintDb rejects discriminated.
#[local] Hint Resolve rejects_ok rejects_ret rejects_invariant rejects_field rejects_ensure rejects_or
  rejects_map_err : rejects.
#[local] Ltac rejecting :=
  repeat first
    [ progress auto with rejects
    | apply rejects_bind; [|intros ?]
    | match goal with
      | |- rejects (if ?b then _ else _) => destruct b
      | |- rejects (match ?x with _ => _ end) => destruct x
      end ].

Lemma rejects_ledger_loop (rows : list (ShardReply E * Z)) counts now : rejects (ledger_loop rows counts now).
Proof.
  revert counts now. induction rows as [|[row expected] rows IH]; intros counts now; simpl; rejecting.
Qed.

Lemma rejects_decode_counter tat expires : rejects (decode_counter tat expires).
Proof. unfold decode_counter. rejecting. Qed.
#[local] Hint Resolve rejects_ledger_loop rejects_decode_counter : rejects.

Lemma rejects_evaluate checks (rows : list (CounterReply E)) counts maximum now : rejects (evaluate checks rows counts maximum now).
Proof.
  unfold evaluate. case_match; [apply rejects_invariant|].
  generalize (@None Admission), (@nil Gcra.PendingAllowance), 0%nat, counts.
  induction (zip checks rows) as [|[c row] inputs IH]; intros denial pending index counts'; simpl; rejecting.
Qed.

Lemma rejects_expiries allowances : rejects (database_expiries allowances).
Proof. induction allowances as [|a l IH]; simpl; rejecting. Qed.
#[local] Hint Resolve rejects_evaluate rejects_expiries : rejects.

Lemma quiet_rejects {A} (r : Res A) :
  rejects r -> pre_commit (Db := GcraDb) (Query := GcraQuery E) (lift r).
Proof. intros Hr. apply quiet_lift. intros o Ho. by apply Hr. Qed.

(** Denied admissions are not allowances. *)
Definition is_denial (admission : Admission) : Prop :=
  ~ exists allowances, admission = Admission_Allowed allowances.

Lemma evaluate_denied checks (rows : list (CounterReply E)) counts maximum now admission :
  evaluate checks rows counts maximum now = Ok (Pending_Denied admission) -> is_denial admission.
Proof.
  unfold evaluate. case_match; [done|].
  assert (Hnone : forall a, (None : option Admission) = Some a -> is_denial a) by done.
  revert Hnone. generalize (@None Admission), (@nil Gcra.PendingAllowance), 0%nat, counts.
  induction (zip checks rows) as [|[c row] inputs IH]; intros denial pending index counts' Hd.
  { cbn. destruct denial; intros [= <-]. by apply Hd. }
  cbn [evaluate_loop].
  destruct (field (cr_input_index row)) as [ri|]; [|done]. cbn [mbind Result_bind].
  destruct (ensure _ _); [|done]. cbn [mbind Result_bind].
  destruct (field (cr_tat_scaled row)) as [tat|]; [|done]. cbn [mbind Result_bind].
  destruct (field (cr_expires_at_ms row)) as [expires|]; [|done]. cbn [mbind Result_bind].
  destruct (decode_counter tat expires) as [stored|]; [|done]. cbn [mbind Result_bind].
  destruct (ensure _ _); [|done]. cbn [mbind Result_bind].
  destruct (Gcra.evaluate _ _ _) as [[pa|q]|]; [| |done]; cbn [map_err mbind Result_bind].
  - destruct stored as [[st se]|]; [by apply IH|]. apply IH. intros adm.
    destruct (maximum <=? _); [|by apply Hd]. destruct denial; cbn; [by apply Hd|].
    intros [= <-] [l Hl]. done.
  - apply IH. intros adm. destruct denial; cbn; [by apply Hd|].
    intros [= <-]. destruct (gp_quota_mode _); intros [l Hl]; done.
Qed.

Lemma certain_run {D} (published : D -> Prop) checks config deadline build :
  shapes published build ->
  certain not_consumed published (run_transaction (E := E) checks config deadline build).
Proof.
  intros Hbuild. unfold run_transaction.
  apply certain_bind; [apply quiet_begin|]. intros tx.
  apply certain_bind; [apply quiet_fetch_all|]. intros locked.
  apply certain_bind; [apply quiet_rejects; auto with rejects|]. intros _.
  apply certain_bind; [apply quiet_fetch_one|]. intros sample.
  apply certain_bind; [apply quiet_rejects; auto with rejects|]. intros now.
  apply certain_bind; [apply quiet_rejects; auto with rejects|]. intros [counts now'].
  apply certain_bind; [apply quiet_rejects; auto with rejects|]. intros _.
  apply certain_bind; [apply quiet_fetch_all|]. intros rows.
  apply certain_lift; [intros o Ho; by eapply rejects_evaluate|]. intros [allowances|admission] Hpending.
  - apply certain_bind; [apply quiet_rejects; auto with rejects|]. intros expiries.
    destruct (Hbuild (Admission_Allowed (map Gcra.pending_allowance allowances))) as [Hfail Hpub].
    apply certain_build; [done|]. intros d Hd.
    apply certain_bind; [apply quiet_execute|]. intros updated.
    apply certain_bind; [apply quiet_rejects; auto with rejects|]. intros _.
    apply certain_bind; [apply quiet_execute|]. intros _.
    apply certain_commit. apply Hpub; [done|by eexists].
  - destruct (Hbuild admission) as [Hfail Hpub]. apply certain_build; [done|]. intros d Hd.
    apply certain_deny. rewrite Hpub by done. by eapply evaluate_denied.
Qed.

Lemma run_settled {D} (consumption : D -> ConsumptionStatus) self db env checks build :
  reports consumption -> shapes (fun d => consumption d = Consumed) build ->
  let e := run (E := E) self db env checks build in
  match ce_result e with
  | Done r => settled (call_status consumption r) db e
  | Panic => ce_db db e = db
  end /\ clean_connection e.
Proof.
  intros Hrep Hbuild. unfold run.
  destruct (acquire_check_connection (env_acquired env)) as [u|err] eqn:Hacq.
  - by apply guarded_settled, certain_run.
  - split; [by apply (acquisition_settled _ _ (env_acquired env))|done].
Qed.

Lemma certain_cleanup_transaction maximum deadline :
  certain (no_rows_removed (E := E)) (fun _ => True)
    (rows ← cleanup_transaction maximum deadline; mret (Reusable rows)).
Proof.
  unfold cleanup_transaction.
  apply certain_assoc, certain_bind; [apply quiet_maintenance, send_begin_frame|]. intros _.
  apply certain_assoc, certain_bind; [apply quiet_maintenance_timeouts|]. intros _.
  apply certain_assoc, certain_bind; [apply quiet_maintenance, send_frame|]. intros locked.
  apply certain_assoc, certain_bind.
  { apply quiet_lift. intros o Ho. revert o Ho. generalize (rows locked).
    induction l as [|row l IH]; [done|]. cbn. destruct row as [shard|e]; cbn.
    - destruct (collect_shards l) as [rest|o']; [done|]. intros o [= <-]. by apply IH.
    - by intros o [= <-]. }
  intros shards. apply certain_assoc, certain_bind; [apply quiet_maintenance_timeouts|]. intros _.
  apply certain_assoc, certain_bind; [apply quiet_maintenance, send_frame|]. intros _.
  apply certain_assoc, certain_bind; [apply quiet_maintenance_timeouts|]. intros _.
  apply certain_assoc, certain_bind; [apply quiet_maintenance, send_frame|]. intros deleted.
  apply certain_assoc. by apply (certain_commit_maintenance (fun _ => True)).
Qed.

Lemma gcra_cleanup_settled self db env maximum_rows :
  let e := cleanup (E := E) self db env maximum_rows in
  clean_connection e
  /\ match ce_result e with
     | Done (Ok removed) => if maximum_rows =? 0 then removed = 0 /\ ce_session e = None else published_tables e
     | Done (Err error) => maximum_rows <> 0
         /\ if may_have_removed_rows error then ce_db db e = db \/ published_tables e else ce_db db e = db
     | Panic => maximum_rows <> 0 /\ ce_db db e = db
     end.
Proof.
  unfold cleanup. destruct (Z.eqb_spec maximum_rows 0) as [->|Hn]; [done|].
  destruct (acquire_maintenance_connection _) as [u|err] eqn:Hacq.
  - pose proof (guarded_maintenance db env _ (certain_cleanup_transaction maximum_rows
      (env_connected_at env + as_nanos (operation_timeout (config self))))) as [Hc Hr].
    split; [exact Hc|]. by destruct (ce_result _) as [[]|].
  - by destruct (env_acquired env) as [[|err']|]; cbn in *; simplify_eq.
Qed.
End Certain.
