(* ===== verification/PgGcraSpec.v ===== *)
(** The GCRA quota the PostgreSQL backend promises, on its tables: each
    check is the pure transition of [Gcra] on the stored arrival time, at
    the server's time clamped to what the touched shards have observed; and
    the invariant of the tables. *)

From Stdlib Require Import Ascii String.
From stdpp Require Import prelude list gmap.
From S2P Require Import Prelude RustStd Identifier Policy Decision AttemptPolicy Key Check Observation Gcra PgErrors PgConfig PgSession PgTables PgLedger PgAdmission PgSpec PgGcra.
Open Scope Z_scope.
Open Scope list_scope.
Import PostgresGcra.

Notation GcraCheck := (Check GcraPolicy).

Section Spec.
Context (db : GcraDb).

Definition shard_of (c : GcraCheck) : Z := capacity_shard (Check_counter_key c).

(** The latest time a shard has observed. *)
Definition observed (id : Z) : Z := from_option observed_at_ms 0 (shards db !! id).

(** The time of a batch. *)
Definition admission_time (ids : list Z) (sample : Z) : Z :=
  foldl (fun now id => Z.max now (observed id)) sample ids.

Context (now : Z).

Definition counter (c : GcraCheck) : option CounterRow := counters db !! Check_counter_key c.

(** The arrival time in force, unless it has expired. *)
Definition active (c : GcraCheck) : option Z :=
  match counter c with
  | Some row => if now <? expires_at_ms row then Some (tat_scaled row) else None
  | None => None
  end.

Definition verdict (c : GcraCheck) : Evaluation := evaluate_exact c now (active c).

(** The counter a check opens, if it has none. *)
Definition new_counter (c : GcraCheck) : list CounterKey :=
  match counter c with Some _ => [] | None => [Check_counter_key c] end.
Definition new_counters (checks : list GcraCheck) : list CounterKey := mbind new_counter checks.

(** The first check refused, by the quota or by its shard. *)
Fixpoint refused (maximum : Z) (ahead : list CounterKey) (index : nat) (checks : list GcraCheck)
    : option Admission :=
  match checks with
  | [] => None
  | c :: checks =>
      match verdict c with
      | Evaluation_Denied denial =>
          Some (match gp_quota_mode (check_policy c) with
                | Shadow => Admission_ShadowDenied index denial
                | Enforce => Admission_Denied index (QuotaExceeded denial)
                end)
      | Evaluation_Allowed _ =>
          if negb (bool_decide (new_counter c = []))
             && (maximum <=? from_option row_count 0 (shards db !! shard_of c) + in_shard (shard_of c) ahead)
          then Some (Admission_Denied index (StorageCapacity None))
          else refused maximum (ahead ++ new_counter c) (S index) checks
      end
  end.

(** What an admitted check stores and answers. *)
Definition charge (c : GcraCheck) : Gcra.PendingAllowance :=
  match verdict c with
  | Evaluation_Allowed pending => pending
  | Evaluation_Denied denial =>
      Gcra.mkPendingAllowance 0 0 (mkAllowance (QuotaDenial_capacity denial) 0 (Delay_new DURATION_ZERO))
  end.

Definition charged_row (c : GcraCheck) : CounterRow :=
  mkCounterRow (Gcra.tat_scaled (charge c)) (expires_at_millis (charge c)).

Definition charge_batch (checks : list GcraCheck) : GcraDb :=
  mkGcraDb
    (foldl (fun ws c => <[Check_counter_key c := charged_row c]> ws) (counters db) checks)
    (map_imap (fun id row =>
       Some (mkShardRow (row_count row + in_shard id (new_counters checks))
               (if bool_decide (id ∈ shard_of <$> checks) then now else observed_at_ms row)))
       (shards db)).

Definition admit_gcra (maximum : Z) (checks : list GcraCheck) : Admission * GcraDb :=
  match refused maximum [] 0 checks with
  | Some admission => (admission, db)
  | None => (Admission_Allowed (map (fun c => Gcra.pending_allowance (charge c)) checks), charge_batch checks)
  end.
End Spec.

(** * The invariant

    A fingerprint determines its policy up to the quota mode. *)

Section Invariant.
Context (policies : PolicyFingerprint -> GcraPolicy).

Definition same_quota (p q : GcraPolicy) : Prop :=
  gcra_quota p = gcra_quota q /\ gcra_period p = gcra_period q /\ gcra_span p = gcra_span q.

Record gcra_ok (c : GcraCheck) : Prop := {
  go_valid : gcra_check_valid c;
  go_key : CounterKey_wf (Check_counter_key c);
  go_bytes : Forall is_byte (CounterKey_to_bytes (Check_counter_key c));
  go_policy : same_quota (policies (ck_fingerprint (Check_counter_key c))) (check_policy c);
}.

(** A stored counter is one its policy can have left at or before the time
    its shard has observed. *)
Definition row_reachable (observed : Z) (key : CounterKey) (row : CounterRow) : Prop :=
  let p := policies (ck_fingerprint key) in
  1 <= gcra_quota p
  /\ expires_at_ms row = div_ceil (tat_scaled row) (gcra_quota p)
  /\ tat_reachable p observed (Some (tat_scaled row)).

Record Gcra_wf (db : GcraDb) : Prop := {
  gw_shards : forall id, match shards db !! id with
    | Some row => 0 <= id <= 255 /\ row_count row = shard_rows (counters db) id
        /\ row_count row <= HARD_MAX_ROWS_PER_SHARD /\ 0 <= observed_at_ms row
    | None => ~ 0 <= id <= 255
    end;
  gw_rows : map_Forall (fun key row => 0 <= capacity_shard key <= 255
    /\ row_reachable (observed db (capacity_shard key)) key row) (counters db);
}.

Lemma GcraDb_new_wf : Gcra_wf GcraDb_new.
Proof.
  split; cbn [GcraDb_new counters shards]; [|apply map_Forall_empty].
  intros id. destruct (decide (0 <= id <= 255)) as [Hid|Hid].
  - rewrite (elem_of_list_to_map_1 _ id (mkShardRow 0 0)).
    + rewrite shard_rows_empty. cbn. unfold HARD_MAX_ROWS_PER_SHARD. lia.
    + rewrite <- list_fmap_compose. apply (NoDup_fmap_2 _), NoDup_seq.
    + apply list_elem_of_fmap. exists (Z.to_nat id). split; [f_equal; lia|]. apply elem_of_seq. lia.
  - rewrite not_elem_of_list_to_map_1; [done|]. rewrite <- list_fmap_compose.
    intros (n & -> & Hn)%list_elem_of_fmap. apply elem_of_seq in Hn. cbn in *. lia.
Qed.

Lemma gcra_shard_range c : gcra_ok c -> 0 <= shard_of c <= 255.
Proof. intros Hc. unfold shard_of. apply capacity_shard_range; apply Hc. Qed.

Section Facts.
Context (db : GcraDb) (Hdb : Gcra_wf db).

Lemma shard_present id : 0 <= id <= 255 -> exists row, shards db !! id = Some row
  /\ row_count row = shard_rows (counters db) id
  /\ 0 <= row_count row <= HARD_MAX_ROWS_PER_SHARD /\ 0 <= observed_at_ms row.
Proof.
  intros Hid. pose proof (gw_shards db Hdb id) as Hs. destruct (shards db !! id) as [row|]; [|done].
  destruct Hs as (_ & Hrc & Hle & Hobs). exists row. split_and!; [done..| |done|done].
  rewrite Hrc. unfold shard_rows. lia.
Qed.

Lemma observed_nonneg id : 0 <= observed db id.
Proof.
  unfold observed. pose proof (gw_shards db Hdb id) as Hs.
  destruct (shards db !! id) as [row|]; cbn; [lia|done].
Qed.

Lemma admission_time_le ids sample :
  sample <= admission_time db ids sample
  /\ forall id, id ∈ ids -> observed db id <= admission_time db ids sample.
Proof.
  unfold admission_time. revert sample. induction ids as [|id ids IH]; intros sample; cbn.
  { split; [lia|by intros ? ?%elem_of_nil]. }
  destruct (IH (Z.max sample (observed db id))) as [Hle Hall]. split; [lia|].
  intros id' [->|Hin]%elem_of_cons; [lia|by apply Hall].
Qed.

(** The arrival time in force is reachable, and its transition exact. *)
Lemma active_reachable c now :
  gcra_ok c -> observed db (shard_of c) <= now ->
  tat_reachable (check_policy c) now (active db now c)
  /\ match counter db c with
     | Some row => expires_at_ms row = div_ceil (tat_scaled row) (gcra_quota (check_policy c))
         /\ 0 <= tat_scaled row <= observed db (shard_of c) * gcra_quota (check_policy c)
                                   + gcra_span (check_policy c)
     | None => True
     end.
Proof.
  intros Hc Hnow. pose proof (gcra_check_facts c (go_valid c Hc)) as [Hq _ _ _ _].
  destruct (go_policy c Hc) as (Hpq & _ & Hps).
  unfold active, counter. destruct (counters db !! Check_counter_key c) as [row|] eqn:Hrow; [|done].
  destruct (gw_rows db Hdb _ _ Hrow) as [_ (_ & Hexp & Hreach)]. unfold tat_reachable in Hreach.
  rewrite Hpq in Hexp, Hreach. rewrite Hps in Hreach.
  change (capacity_shard (Check_counter_key c)) with (shard_of c) in Hreach.
  split; [|by split]. destruct (now <? expires_at_ms row); cbn; [|done]. nia.
Qed.
End Facts.
End Invariant.
