(* ===== verification/PgGcraTables.v ===== *)
(** The GCRA tables under the statements of an admission: which shards a
    batch locks, that charging an admitted batch is accepted by every
    constraint and trigger, and that it preserves the invariant. *)

From Stdlib Require Import Ascii String Sorting.Sorted.
From stdpp Require Import prelude list gmap sorting.
From S2P Require Import Prelude RustStd Identifier Policy Decision AttemptPolicy Key Check Observation OrdSet Shards Gcra PgErrors PgConfig PgSession PgTables PgLedger PgAdmission PgConnection PgLimiter PgSpec PgHonest PgRefine PgLocks PgGcra PgGcraSpec.
Open Scope Z_scope.
Open Scope list_scope.
Import PostgresGcra.

(** * The shards of a batch *)

Lemma dedup_elem_iff l x : x ∈ dedup l <-> x ∈ l.
Proof.
  split; [apply dedup_elem|]. induction l as [|y [|z l] IH]; [done|done|]. cbn [dedup].
  intros [->|Hx]%elem_of_cons; destruct (Z.eqb_spec y z) as [->|Hne].
  - apply IH. by left.
  - by left.
  - by apply IH.
  - right. by apply IH.
Qed.

(** The shards a batch locks, ascending. *)
Definition touched (checks : list GcraCheck) : list Z :=
  dedup (sort_by id (map (fun check => capacity_shard (Check_counter_key check)) checks)).

Lemma touched_elem checks id : id ∈ touched checks <-> id ∈ shard_of <$> checks.
Proof. unfold touched. rewrite dedup_elem_iff, sort_by_perm. done. Qed.

Lemma touched_ascending checks : StronglySorted lt_of (touched checks).
Proof. apply dedup_ascending, sort_by_sorted. Qed.

(** An ascending list of identifiers is its own order. *)
Lemma ascending_order (ids : list Z) :
  StronglySorted lt_of ids -> merge_sort Z.le (remove_dups ids) = ids.
Proof.
  intros Hs.
  assert (Hnd : NoDup ids).
  { induction Hs as [|x l _ IH Hall]; constructor; [|done]. intros Hx.
    pose proof (proj1 (Forall_forall _ _) Hall x Hx) as Hlt. unfold lt_of in Hlt.
    cbn in Hlt. by rewrite Z.compare_refl in Hlt. }
  assert (Hrd : remove_dups ids = ids).
  { clear Hs. induction Hnd as [|x l Hx _ IH]; [done|]. cbn [remove_dups]. case_decide; [done|]. by rewrite IH. }
  rewrite Hrd. apply (StronglySorted_unique Z.le); [| |apply merge_sort_Permutation].
  - apply Sorted_StronglySorted; [intros a b c; lia|]. apply Sorted_merge_sort, _.
  - clear Hnd Hrd. induction Hs as [|x l _ IH Hall]; constructor; [done|].
    eapply Forall_impl; [done|]. intros y Hy. apply Z.lt_le_incl. exact Hy.
Qed.

(** * Growing the ledger *)

Section Ledger.
Implicit Types (ss : gmap Z ShardRow) (keys : list CounterKey).

Definition grow keys ss : gmap Z ShardRow :=
  (map_imap (fun id row => Some (mkShardRow (row_count row + in_shard id keys) (observed_at_ms row))) ss).

Lemma lookup_grow keys ss id :
  grow keys ss !! id
  = (fun row => mkShardRow (row_count row + in_shard id keys) (observed_at_ms row)) <$> ss !! id.
Proof. unfold grow. rewrite map_lookup_imap. by destruct (ss !! id). Qed.

Lemma grow_nil ss : grow [] ss = ss.
Proof.
  apply map_eq. intros id. rewrite lookup_grow. change (in_shard id []) with 0.
  destruct (ss !! id) as [[n o]|]; cbn; [by rewrite Z.add_0_r|done].
Qed.

Lemma grow_app keys keys' ss : grow (keys ++ keys') ss = grow keys' (grow keys ss).
Proof.
  apply map_eq. intros id. rewrite !lookup_grow. destruct (ss !! id) as [[n o]|]; cbn; [|done].
  rewrite in_shard_app. do 2 f_equal. lia.
Qed.

Lemma capacity_change_grow key ss row :
  ss !! capacity_shard key = Some row -> 0 <= row_count row -> 0 <= observed_at_ms row ->
  row_count row + 1 <= HARD_MAX_ROWS_PER_SHARD ->
  capacity_change key 1 ss = Ok (grow [key] ss).
Proof.
  intros Hrow Hn Ho Hmax. unfold capacity_change. rewrite Hrow. unfold shard_row_ok. cbn [row_count observed_at_ms].
  rewrite (proj2 (Z.leb_le 0 (row_count row + 1))) by lia. rewrite (proj2 (Z.leb_le (row_count row + 1) _)) by done.
  rewrite (proj2 (Z.leb_le 0 (observed_at_ms row))) by done. cbn [andb]. f_equal.
  apply map_eq. intros id. rewrite lookup_grow, in_shard_cons. change (in_shard id []) with 0.
  unfold unit_of. case_decide as Hid.
  - subst id. rewrite lookup_insert_eq, Hrow. cbn. do 2 f_equal.
  - rewrite lookup_insert_ne by done. destruct (ss !! id) as [[n o]|]; cbn; [|done]. do 2 f_equal. lia.
Qed.
End Ledger.

(** * Charging an admitted batch *)

Section Charge.
Context (policies : PolicyFingerprint -> GcraPolicy) (db : GcraDb) (Hdb : Gcra_wf policies db).
Context (now : Z).

Lemma new_counters_cons c checks : new_counters db (c :: checks) = new_counter db c ++ new_counters db checks.
Proof. done. Qed.

(** What an admitted check needs of its verdict. *)
Definition admitted (c : GcraCheck) : Prop := exists pa, verdict db now c = Evaluation_Allowed pa.

Lemma not_refused_admitted maximum ahead index checks :
  refused db now maximum ahead index checks = None -> Forall admitted checks.
Proof.
  revert ahead index. induction checks as [|c checks IH]; intros ahead index Hr; [done|]. cbn in Hr.
  destruct (verdict db now c) as [pa|d] eqn:Hv; [|done]. destruct (_ && _); [done|].
  constructor; [by eexists|by eapply IH].
Qed.

(** An admitted batch's rows fit their shards together. *)
Lemma not_refused_fits maximum ahead index checks :
  refused db now maximum ahead index checks = None ->
  forall id, id ∈ capacity_shard <$> new_counters db checks ->
  from_option row_count 0 (shards db !! id) + in_shard id ahead + in_shard id (new_counters db checks)
  <= maximum.
Proof.
  revert ahead index. induction checks as [|c checks IH]; intros ahead index Hr id Hid; cbn in *.
  { by apply elem_of_nil in Hid. }
  destruct (verdict db now c) as [pa|d]; [|done].
  destruct (negb (bool_decide (new_counter db c = [])) && _) eqn:Hfull; [done|].
  specialize (IH _ _ Hr id). fold (new_counters db checks) in *. rewrite in_shard_app in *.
  rewrite fmap_app, elem_of_app in Hid.
  destruct (decide (id ∈ capacity_shard <$> new_counters db checks)) as [Hin|Hin]; [specialize (IH Hin); lia|].
  destruct Hid as [Hid|]; [|done]. rewrite (in_shard_none _ (new_counters db checks)) by done.
  unfold new_counter in *. destruct (counter db c); [by apply elem_of_nil in Hid|].
  apply list_elem_of_singleton in Hid as ->. cbn in Hfull. unfold shard_of in Hfull.
  apply Z.leb_gt in Hfull. rewrite in_shard_cons. change (in_shard _ []) with 0.
  unfold unit_of. rewrite decide_True by done. lia.
Qed.

Definition charge_counters (ws : gmap CounterKey CounterRow) (checks : list GcraCheck) :=
  foldl (fun ws c => <[Check_counter_key c := charged_row db now c]> ws) ws checks.

(** A state in the middle of the upsert: the remaining checks meet the rows
    they met before it. *)
Definition untouched (ws : gmap CounterKey CounterRow) (checks : list GcraCheck) : Prop :=
  forall c, c ∈ checks -> ws !! Check_counter_key c = counter db c.

Lemma untouched_next ws c checks row :
  NoDup (Check_counter_key <$> c :: checks) -> untouched ws (c :: checks) ->
  untouched (<[Check_counter_key c := row]> ws) checks.
Proof.
  intros [Hk _]%NoDup_cons Hws d Hd. rewrite lookup_insert_ne; [apply Hws; by right|].
  intros Heq. apply Hk. rewrite Heq. by apply list_elem_of_fmap_2.
Qed.

Lemma shard_rows_charge ws checks id :
  NoDup (Check_counter_key <$> checks) -> untouched ws checks ->
  shard_rows (charge_counters ws checks) id = shard_rows ws id + in_shard id (new_counters db checks).
Proof.
  revert ws. induction checks as [|c checks IH]; intros ws Hnd Hws.
  { change (in_shard id _) with 0. cbn. lia. }
  rewrite new_counters_cons, in_shard_app. cbn [charge_counters foldl].
  pose proof (Hws c ltac:(by left)) as Hc. unfold charge_counters in IH.
  pose proof (untouched_next _ _ _ (charged_row db now c) Hnd Hws) as Hnext.
  apply NoDup_cons in Hnd as [_ Hnd]. rewrite IH by done. unfold new_counter. destruct (counter db c) as [row|].
  - rewrite (shard_rows_insert_old _ _ _ _ _ Hc). change (in_shard id []) with 0. lia.
  - rewrite shard_rows_insert_new by done. rewrite in_shard_cons. change (in_shard id []) with 0. lia.
Qed.

Lemma charge_counters_lookup ws checks key row :
  charge_counters ws checks !! key = Some row ->
  (exists c, c ∈ checks /\ key = Check_counter_key c /\ row = charged_row db now c) \/ ws !! key = Some row.
Proof.
  revert ws. induction checks as [|c checks IH]; intros ws Hrow; [by right|]. cbn in Hrow.
  destruct (IH _ Hrow) as [(d & Hd & Heq)|Hws]; [left; exists d; split; [by right|done]|].
  destruct (decide (Check_counter_key c = key)) as [<-|Hne].
  - rewrite lookup_insert_eq in Hws. injection Hws as <-. left. exists c. split; [by left|done].
  - rewrite lookup_insert_ne in Hws by done. by right.
Qed.

Lemma div_ceil_shift a n q : 0 < q -> n + div_ceil (a - n * q) q = div_ceil a q.
Proof.
  intros Hq. unfold div_ceil. replace (- (a - n * q)) with (- a + n * q) by lia.
  rewrite Z.div_add by lia. lia.
Qed.

(** ** What an admitted check leaves *)

Section Rows.
Context (Hnow : now + MAX_WINDOW_MILLIS <= i64_max).

Lemma charged_facts c :
  gcra_ok policies c -> observed db (shard_of c) <= now -> admitted c ->
  verdict db now c = Evaluation_Allowed (charge db now c)
  /\ row_reachable policies now (Check_counter_key c) (charged_row db now c)
  /\ 0 <= tat_scaled (charged_row db now c) <= u128_max
  /\ 0 <= expires_at_ms (charged_row db now c) <= i64_max.
Proof.
  intros Hc Hobs [pa Hv]. unfold charged_row, charge. rewrite Hv. cbn [tat_scaled expires_at_ms].
  pose proof (gcra_check_facts c (go_valid policies c Hc)) as Hf.
  pose proof (gcra_span_le_u128 _ _ _ _ Hf) as [Hinc Hspan]. destruct Hf as [Hq Hw Hb Hcost Hr].
  pose proof (observed_nonneg policies db Hdb (shard_of c)) as Hn. rewrite MAX_WINDOW_MILLIS_val in *.
  destruct (active_reachable policies db Hdb c now Hc Hobs) as [Hreach _].
  assert (He : Gcra.evaluate c now (active db now c) = Ok (Evaluation_Allowed pa)).
  { rewrite evaluate_spec; [by f_equal|by apply (go_valid policies)|unfold in_u64; unfold_widths; lia|done]. }
  destruct (evaluate_allowed_bounds c now _ pa (go_valid policies c Hc) He) as [Htat Hexp].
  rewrite MAX_WINDOW_MILLIS_val in Hexp. split; [done|]. split_and!; [|lia..].
  unfold row_reachable, tat_reachable. cbn. destruct (go_policy policies c Hc) as (Hpq & _ & Hps).
  change (ck_fingerprint (Check_counter_key c)) with (gp_fingerprint (check_policy c)) in *.
  rewrite Hpq, Hps. split; [lia|]. unfold verdict in Hv.
  destruct (evaluate_exact_cases c now (active db now c)) as [[_ Hx]|[Hle Hx]]; rewrite Hx in Hv; [done|].
  injection Hv as <-. cbn [Gcra.tat_scaled expires_at_millis].
  set (cand := active_tat (check_policy c) now (active db now c)
    + check_cost c * gcra_period (check_policy c)) in *.
  fold (gcra_span (check_policy c)) in *.
  assert (Ha : now * gcra_quota (check_policy c) <= cand) by (unfold cand, active_tat; lia).
  split; [apply div_ceil_shift; lia|]. unfold cand, active_tat in *. nia.
Qed.

(** A batch of distinct keys, all admitted at a time no earlier than what
    its shards have observed. *)
Context (checks : list GcraCheck) (maximum : Z).
Context (Hmax : maximum <= HARD_MAX_ROWS_PER_SHARD) (Hok : Forall (gcra_ok policies) checks).
Context (Hnd : NoDup (Check_counter_key <$> checks)).
Context (Hobs : forall c, c ∈ checks -> observed db (shard_of c) <= now).
Context (Hnone : refused db now maximum [] 0 checks = None).

Lemma charged_checks c : c ∈ checks ->
  gcra_ok policies c /\ observed db (shard_of c) <= now /\ admitted c.
Proof.
  intros Hc. split; [by apply (proj1 (Forall_forall _ _) Hok)|]. split; [by apply Hobs|].
  pose proof (not_refused_admitted _ _ _ _ Hnone) as Hall. by apply (proj1 (Forall_forall _ _) Hall).
Qed.

Lemma room id row : shards db !! id = Some row ->
  0 <= row_count row /\ 0 <= observed_at_ms row
  /\ row_count row + in_shard id (new_counters db checks) <= HARD_MAX_ROWS_PER_SHARD.
Proof.
  intros Hrow. pose proof (gw_shards _ db Hdb id) as Hs. rewrite Hrow in Hs.
  destruct Hs as (_ & Hrc & Hle & Ho). split; [rewrite Hrc; unfold shard_rows; lia|]. split; [done|].
  destruct (decide (id ∈ capacity_shard <$> new_counters db checks)) as [Hin|Hin].
  - pose proof (not_refused_fits _ _ _ _ Hnone id Hin) as Hfit. rewrite Hrow in Hfit. cbn in Hfit.
    change (in_shard id []) with 0 in Hfit. lia.
  - rewrite in_shard_none by done. lia.
Qed.

Lemma charge_batch_observed id :
  observed (charge_batch db now checks) id
  = if decide (id ∈ shard_of <$> checks) then match shards db !! id with Some _ => now | None => 0 end
    else observed db id.
Proof.
  unfold observed, charge_batch. cbn [shards]. rewrite map_lookup_imap.
  destruct (shards db !! id) as [row|]; cbn; [|by case_decide].
  case_decide; [by rewrite bool_decide_eq_true_2|by rewrite bool_decide_eq_false_2].
Qed.

Lemma charge_batch_observed_ge id : observed db id <= observed (charge_batch db now checks) id.
Proof.
  rewrite charge_batch_observed. case_decide as Hin; [|done].
  apply list_elem_of_fmap in Hin as (c & -> & Hc). pose proof (Hobs c Hc) as Ho.
  unfold observed in *. by destruct (shards db !! shard_of c).
Qed.

Lemma charge_batch_wf : Gcra_wf policies (charge_batch db now checks).
Proof.
  split.
  - intros id. cbn [charge_batch shards counters]. rewrite map_lookup_imap.
    pose proof (gw_shards _ db Hdb id) as Hs. destruct (shards db !! id) as [row|] eqn:Hrow; cbn; [|done].
    destruct (room id row Hrow) as (_ & Ho & Hfit). destruct Hs as (Hid & Hrc & _).
    change (foldl _ (counters db) checks) with (charge_counters (counters db) checks).
    split; [done|]. rewrite shard_rows_charge by done. split; [lia|]. split; [lia|].
    case_bool_decide as Hin; [|done]. apply list_elem_of_fmap in Hin as (c & -> & Hc).
    pose proof (Hobs c Hc). pose proof (observed_nonneg policies db Hdb (shard_of c)). lia.
  - intros key row Hrow.
    destruct (charge_counters_lookup (counters db) checks key row Hrow) as [(c & Hc & -> & ->)|Hold].
    + destruct (charged_checks c Hc) as (Hgo & Hle & Hadm).
      destruct (charged_facts c Hgo Hle Hadm) as (_ & Hreach & _).
      pose proof (gcra_shard_range policies c Hgo) as Hrange. split; [done|].
      rewrite charge_batch_observed, decide_True by (by apply (list_elem_of_fmap_2 shard_of)).
      change (capacity_shard (Check_counter_key c)) with (shard_of c).
      by destruct (shard_present policies db Hdb _ Hrange) as (srow & -> & _).
    + destruct (gw_rows _ db Hdb key row Hold) as [Hrange (Hq & Hexp & Hreach)]. split; [done|]. split_and!; [done..|].
      unfold tat_reachable in *. pose proof (charge_batch_observed_ge (capacity_shard key)). nia.
Qed.

(** ** The upsert *)

Definition upsert_entry (c : GcraCheck) : CounterKey * (str * Z) :=
  (Check_counter_key c, (decimal (Gcra.tat_scaled (charge db now c)), expires_at_millis (charge db now c))).

Lemma counter_row_ok_charged c :
  gcra_ok policies c -> 0 <= tat_scaled (charged_row db now c) <= u128_max ->
  0 <= expires_at_ms (charged_row db now c) ->
  counter_row_ok (Check_counter_key c) (charged_row db now c) = true.
Proof.
  intros Hc Ht He. destruct (go_key policies c Hc) as [Hfp Hsub]. unfold counter_row_ok, size_between.
  rewrite Hfp, Hsub. rewrite !(proj2 (Z.leb_le 0 _)) by lia. rewrite (proj2 (Z.leb_le _ _)); [done|].
  unfold NUMERIC_39_MAX, u128_max in *. lia.
Qed.

(** The upsert of the remaining checks, from tables that already hold the
    charged rows of the others. *)
Lemma upsert_counters_charged ws ss l :
  l ⊆ checks -> NoDup (Check_counter_key <$> l) -> untouched ws l ->
  (forall id, 0 <= id <= 255 -> is_Some (ss !! id)) ->
  (forall id row, ss !! id = Some row -> 0 <= row_count row /\ 0 <= observed_at_ms row
     /\ row_count row + in_shard id (new_counters db l) <= HARD_MAX_ROWS_PER_SHARD) ->
  upsert_counters (mkGcraDb ws ss) (map upsert_entry l)
  = Ok (mkGcraDb (charge_counters ws l) (grow (new_counters db l) ss)).
Proof.
  revert ws ss. induction l as [|c l IH]; intros ws ss Hsub Hnd' Hws Hpres Hroom.
  { cbn. by rewrite grow_nil. }
  destruct (charged_checks c ltac:(apply Hsub; by left)) as (Hgo & Hle & Hadm).
  destruct (charged_facts c Hgo Hle Hadm) as (_ & _ & Ht & He).
  rewrite new_counters_cons, grow_app. cbn [map upsert_counters upsert_entry].
  rewrite parse_decimal_max; [|exact Ht|unfold NUMERIC_39_MAX; cbn [tat_scaled charged_row] in Ht;
    unfold u128_max in Ht; lia].
  cbn [ok_or]. rewrite Ok_bind. change (mkCounterRow _ _) with (charged_row db now c).
  unfold upsert_counter. rewrite counter_row_ok_charged by (done || lia). cbn [counters shards].
  pose proof (untouched_next _ _ _ (charged_row db now c) Hnd' Hws) as Hnext.
  rewrite (Hws c) by (by left). apply NoDup_cons in Hnd' as [_ Hnd'].
  assert (Hsub' : l ⊆ checks) by (intros d Hd; apply Hsub; by right).
  destruct (counter db c) as [old|] eqn:Hk.
  - rewrite Ok_bind. unfold new_counter. rewrite Hk, grow_nil. apply IH; [done..|].
    intros id row Hrow. destruct (Hroom id row Hrow) as (? & ? & Hfit). split_and!; [done..|].
    rewrite new_counters_cons, in_shard_app in Hfit. unfold new_counter in Hfit. by rewrite Hk in Hfit.
  - destruct (Hpres (shard_of c) (gcra_shard_range policies c Hgo)) as [row Hrow].
    destruct (Hroom _ _ Hrow) as (Hn & Ho & Hfit). rewrite new_counters_cons, in_shard_app in Hfit.
    unfold new_counter in *. rewrite Hk in *. rewrite in_shard_cons in Hfit.
    change (in_shard (shard_of c) []) with 0 in Hfit. unfold unit_of in Hfit. rewrite decide_True in Hfit by done.
    pose proof (in_shard_nonneg (shard_of c) (new_counters db l)).
    rewrite (capacity_change_grow _ _ row) by (done || lia). rewrite !Ok_bind.
    apply IH; [done..| |].
    + intros id Hid. rewrite lookup_grow. apply fmap_is_Some. by apply Hpres.
    + intros id row'. rewrite lookup_grow. intros (r & Hr & Hr')%fmap_Some. subst row'.
      destruct (Hroom id r Hr) as (? & ? & Hfit'). cbn [row_count observed_at_ms].
      rewrite new_counters_cons, in_shard_app in Hfit'. unfold new_counter in Hfit'. rewrite Hk in Hfit'.
      pose proof (in_shard_nonneg id [Check_counter_key c]). split_and!; lia.
Qed.

(** Charging is what the two statements of the update do. *)
Lemma update_charges :
  exists db1, upsert_counters db (map upsert_entry checks) = Ok db1
    /\ observe_all db1 (touched checks) now = charge_batch db now checks.
Proof.
  exists (mkGcraDb (charge_counters (counters db) checks) (grow (new_counters db checks) (shards db))). split.
  - assert (Heta : db = mkGcraDb (counters db) (shards db)) by (by destruct db).
    rewrite Heta at 1. apply upsert_counters_charged; [done|done|done| |apply room].
    intros id Hid. destruct (shard_present policies db Hdb id Hid) as (row & Hrow & _). by eexists.
  - unfold observe_all, charge_batch. cbn [counters shards]. f_equal.
    apply map_eq. intros id. rewrite !map_lookup_imap, lookup_grow.
    destruct (shards db !! id) as [[n o]|]; cbn; [|done]. f_equal.
    pose proof (touched_elem checks id) as Hiff.
    do 2 case_bool_decide; (done || (exfalso; tauto)).
Qed.
End Rows.
End Charge.
