(* ===== verification/PgGcraRefine.v ===== *)
(** The PostgreSQL GCRA limiter implements [PgGcraSpec]: on a server that
    answers from its tables before the deadline, the locked ledger, the
    sampled time, the decoded arrival times, the arithmetic and the update
    come to exactly the specified admission and tables. *)

From Stdlib Require Import Ascii String Sorting.Sorted.
From stdpp Require Import prelude list gmap sorting.
From S2P Require Import Prelude RustStd Identifier Policy Decision AttemptPolicy Key Check Observation OrdSet Shards Gcra PgErrors PgConfig PgSession PgTables PgLedger PgAdmission PgConnection PgLimiter PgSpec PgHonest PgRefine PgLocks PgGcra PgGcraSpec PgGcraTables.
Open Scope Z_scope.
Open Scope list_scope.
Import PostgresGcra.

Definition gcra_answer {E} `{SqlxError E} (t : Tick)
    : forall A, GcraQuery E A -> GcraDb -> GcraDb * Result E (Response A) := gcra_sql (started t).

#[export] Instance gcra_answers {E} `{SqlxError E} : Answers (E := E) gcra_answer.
Proof. split. intros. by eexists. Qed.

#[local] Hint Resolve gcra_answers : core.

Notation honest := (honest_step gcra_answer).
Notation sess := (honest_session gcra_answer).

Section Decode.
Context {E : Type} `{SqlxError E} (policies : PolicyFingerprint -> GcraPolicy).
Context (db : GcraDb) (Hdb : Gcra_wf policies db).

(** * The locked ledger *)

Definition shard_count (id : Z) : Z := from_option row_count 0 (shards db !! id).

Lemma shards_in_order_touched ids :
  StronglySorted lt_of ids -> Forall (fun id => 0 <= id <= 255) ids ->
  exists locked, shards_in_order db ids = zip ids locked /\ length locked = length ids
    /\ forall i id, ids !! i = Some id -> locked !! i = shards db !! id.
Proof.
  intros Hs Hall. unfold shards_in_order. rewrite ascending_order by done. clear Hs.
  induction Hall as [|id ids Hid _ (locked & Heq & Hlen & Hl)]; [by exists []|].
  destruct (shard_present policies db Hdb id Hid) as (row & Hrow & _).
  exists (row :: locked). cbn. rewrite Hrow. cbn. rewrite Heq, Hlen. split_and!; [done..|].
  intros [|i] id' Hi; cbn in *; [by injection Hi as <-|by apply Hl].
Qed.

Definition counted (counts : list Z) (ids : list Z) : list Z :=
  foldl (fun counts id => <[Z.to_nat id := shard_count id]> counts) counts ids.

Lemma ledger_loop_honest ids locked counts sample :
  Forall (fun id => 0 <= id <= 255) ids -> length locked = length ids ->
  (forall i id, ids !! i = Some id -> locked !! i = shards db !! id) ->
  ledger_loop (E := E) (zip ((fun '(id, row) =>
      mkShardReply (Ok id) (Ok (row_count row)) (Ok (observed_at_ms row))) <$> zip ids locked) ids) counts sample
  = Ok (counted counts ids, admission_time db ids sample).
Proof.
  intros Hall. revert locked counts sample. induction Hall as [|id ids Hid _ IH];
    intros [|row locked] counts sample Hlen Hl; try done.
  pose proof (Hl 0%nat id eq_refl) as Hrow. cbn in Hrow. symmetry in Hrow.
  pose proof (gw_shards _ db Hdb id) as Hs. rewrite Hrow in Hs. destruct Hs as (_ & Hrc & Hle & Ho).
  assert (Hn : 0 <= row_count row) by (rewrite Hrc; unfold shard_rows; lia).
  cbn [zip zip_with fmap list_fmap ledger_loop sr_capacity_shard sr_row_count sr_observed_at_ms
    field map_err]. rewrite !Ok_bind, Z.eqb_refl.
  rewrite (proj2 (Z.leb_le 0 _)), (proj2 (Z.leb_le (row_count row) _)), (proj2 (Z.ltb_ge _ 0)) by done.
  cbn [negb andb orb]. rewrite IH.
  - cbn [counted foldl admission_time]. unfold shard_count, observed. by rewrite Hrow.
  - cbn in Hlen. lia.
  - intros i id' Hi. by apply (Hl (S i)).
Qed.

(** The counts of the touched shards, with the counters ahead. *)
Definition counts_track (ids : list Z) (ahead : list CounterKey) (counts : list Z) : Prop :=
  length counts = 256%nat
  /\ forall id, id ∈ ids -> counts !! Z.to_nat id = Some (shard_count id + in_shard id ahead).

Lemma counted_track ids :
  Forall (fun id => 0 <= id <= 255) ids ->
  counts_track ids [] (counted (replicate (Z.to_nat CAPACITY_SHARD_COUNT) 0) ids).
Proof.
  intros Hall.
  assert (Hgen : forall counts, length counts = 256%nat -> length (counted counts ids) = 256%nat
    /\ forall id, 0 <= id <= 255 ->
         counted counts ids !! Z.to_nat id
         = if decide (id ∈ ids) then Some (shard_count id) else counts !! Z.to_nat id).
  { induction Hall as [|id ids Hid _ IH]; intros counts Hlen; [done|]. cbn [counted foldl].
    destruct (IH (<[Z.to_nat id := shard_count id]> counts)) as [Hlen' Hl]; [by rewrite length_insert|].
    split; [done|]. intros id' Hid'. unfold counted in Hl. rewrite Hl by done.
    destruct (decide (id' ∈ ids)) as [Hin|Hin]; [by rewrite decide_True by (by right)|].
    destruct (decide (id' = id)) as [->|Hne].
    - rewrite decide_True by (by left). apply list_lookup_insert_eq. rewrite Hlen. lia.
    - rewrite decide_False by (rewrite elem_of_cons; tauto). rewrite list_lookup_insert_ne by lia. done. }
  destruct (Hgen (replicate (Z.to_nat CAPACITY_SHARD_COUNT) 0) eq_refl) as [Hlen Hl].
  split; [done|]. intros id Hid. rewrite Hl by (by apply (proj1 (Forall_forall _ _) Hall)).
  rewrite decide_True by done. change (in_shard id []) with 0. by rewrite Z.add_0_r.
Qed.

Lemma counts_track_new ids ahead counts c :
  counts_track ids ahead counts -> Forall (fun id => 0 <= id <= 255) ids -> shard_of c ∈ ids ->
  counter db c = None ->
  counts_track ids (ahead ++ new_counter db c)
    (<[Z.to_nat (shard_of c) := shard_count (shard_of c) + in_shard (shard_of c) ahead + 1]> counts).
Proof.
  intros [Hlen Hl] Hall Hc Hk. split; [by rewrite length_insert|]. intros id Hid.
  pose proof (proj1 (Forall_forall _ _) Hall _ Hid) as Hr.
  pose proof (proj1 (Forall_forall _ _) Hall _ Hc) as Hr'. cbn in Hr, Hr'.
  unfold new_counter. rewrite Hk, in_shard_app, in_shard_cons. change (in_shard id []) with 0.
  unfold unit_of. change (capacity_shard (Check_counter_key c)) with (shard_of c).
  case_decide as Heq.
  - subst id. rewrite list_lookup_insert_eq by (rewrite Hlen; lia). f_equal. lia.
  - rewrite list_lookup_insert_ne by lia. rewrite Hl by done. f_equal. lia.
Qed.

(** * The decoded counters *)

Context (now : Z) (Hnow : now + MAX_WINDOW_MILLIS <= i64_max).

Definition counter_reply (index : nat) (c : GcraCheck) : CounterReply E :=
  mkCounterReply (Ok (Z.of_nat index)) (Ok (decimal ∘ tat_scaled <$> counter db c))
    (Ok (expires_at_ms <$> counter db c)).

Definition counter_replies (k : nat) (checks : list GcraCheck) : list (CounterReply E) :=
  imap (fun i => counter_reply (k + i)) checks.

Lemma counter_replies_cons k c checks :
  counter_replies k (c :: checks) = counter_reply k c :: counter_replies (S k) checks.
Proof.
  unfold counter_replies. rewrite imap_cons. f_equal; [f_equal; lia|].
  apply imap_ext. intros i d _. cbn. f_equal. lia.
Qed.

Lemma length_counter_replies k checks : length (counter_replies k checks) = length checks.
Proof. apply length_imap. Qed.

Definition admission_of (c : GcraCheck) (index : nat) (denial : QuotaDenial) : Admission :=
  match gp_quota_mode (check_policy c) with
  | Shadow => Admission_ShadowDenied index denial
  | Enforce => Admission_Denied index (QuotaExceeded denial)
  end.

(** One step of the loop on an honest reply. *)
Lemma evaluate_loop_step maximum index c inputs counts pending denial :
  gcra_ok policies c -> observed db (shard_of c) <= now ->
  evaluate_loop maximum now index ((c, counter_reply index c) :: inputs) counts pending denial
  = match verdict db now c with
    | Evaluation_Denied quota =>
        evaluate_loop maximum now (S index) inputs counts pending
          (get_or_insert denial (admission_of c index quota))
    | Evaluation_Allowed allowance =>
        let count := default 0 (counts !! Z.to_nat (shard_of c)) in
        match counter db c with
        | None =>
            evaluate_loop maximum now (S index) inputs
              (<[Z.to_nat (shard_of c) := count + 1]> counts) (pending ++ [allowance])
              (if maximum <=? count
               then get_or_insert denial (Admission_Denied index (StorageCapacity None)) else denial)
        | Some _ => evaluate_loop maximum now (S index) inputs counts (pending ++ [allowance]) denial
        end
    end.
Proof.
  intros Hc Hobs. pose proof (gcra_check_facts c (go_valid policies c Hc)) as Hf.
  pose proof (gcra_span_le_u128 _ _ _ _ Hf) as [_ Hspan]. destruct Hf as [Hq _ _ _ _].
  fold (gcra_span (check_policy c)) in Hspan.
  destruct (active_reachable policies db Hdb c now Hc Hobs) as [Hreach Hrow].
  pose proof (observed_nonneg policies db Hdb (shard_of c)) as Hnonneg.
  rewrite MAX_WINDOW_MILLIS_val in Hnow.
  assert (He : Gcra.evaluate c now (active db now c) = Ok (verdict db now c)).
  { apply evaluate_spec; [by apply (go_valid policies)|unfold in_u64; unfold_widths; lia|done]. }
  cbn [evaluate_loop counter_reply cr_input_index cr_tat_scaled cr_expires_at_ms field map_err].
  rewrite Ok_bind. unfold usize_try_from. destruct (Z.ltb_spec (Z.of_nat index) 0); [lia|].
  rewrite Nat2Z.id, bool_decide_eq_true_2 by done. cbn [ensure]. rewrite !Ok_bind.
  unfold active in He. destruct (counter db c) as [row|]; cbn [fmap option_fmap option_map compose decode_counter].
  - destruct Hrow as [Hexp Htat].
    assert (Hbound : 0 <= tat_scaled row <= u128_max) by (unfold u128_max; unfold_widths; nia).
    assert (0 <= expires_at_ms row) by (rewrite Hexp; apply div_ceil_nonneg; lia).
    rewrite (proj2 (Z.leb_le 0 _)) by done. rewrite parse_decimal by done. cbn [ok_or].
    rewrite !Ok_bind, ret_bind. fold (gcra_quota (check_policy c)). rewrite <- Hexp, Z.eqb_refl.
    cbn [ensure]. rewrite Ok_bind, He. cbn [map_err]. rewrite Ok_bind. by destruct (verdict db now c).
  - rewrite Ok_bind. cbn [ensure]. rewrite Ok_bind, He. cbn [map_err]. rewrite Ok_bind.
    by destruct (verdict db now c).
Qed.

Definition ready (checks : list GcraCheck) : Prop :=
  Forall (fun c => gcra_ok policies c /\ observed db (shard_of c) <= now) checks.

(** Once denied, the loop only goes on. *)
Lemma evaluate_loop_denied maximum index checks counts pending denial :
  ready checks ->
  evaluate_loop maximum now index (zip checks (counter_replies index checks)) counts pending (Some denial)
  = Ok (Pending_Denied denial).
Proof.
  intros Hr. revert index counts pending.
  induction Hr as [|c checks [Hc Hobs] _ IH]; intros index counts pending; [done|].
  rewrite counter_replies_cons. cbn [zip zip_with]. rewrite evaluate_loop_step by done.
  destruct (verdict db now c); [|apply IH]. destruct (counter db c); [apply IH|].
  cbn [get_or_insert]. destruct (maximum <=? _); apply IH.
Qed.

Lemma evaluate_loop_honest ids maximum index checks ahead counts pending :
  ready checks -> Forall (fun id => 0 <= id <= 255) ids ->
  (forall c, c ∈ checks -> shard_of c ∈ ids) -> counts_track ids ahead counts ->
  evaluate_loop maximum now index (zip checks (counter_replies index checks)) counts pending None
  = Ok (match refused db now maximum ahead index checks with
        | Some admission => Pending_Denied admission
        | None => Pending_Allowed (pending ++ map (charge db now) checks)
        end).
Proof.
  intros Hr Hids. revert index ahead counts pending.
  induction Hr as [|c checks [Hc Hobs] Hr IH]; intros index ahead counts pending Hin Ht.
  { cbn. by rewrite app_nil_r. }
  rewrite counter_replies_cons. cbn [zip zip_with refused]. rewrite evaluate_loop_step by done.
  destruct (verdict db now c) as [allowance|quota] eqn:Hv; [|by apply evaluate_loop_denied].
  assert (Hcharge : pending ++ map (charge db now) (c :: checks)
    = (pending ++ [allowance]) ++ map (charge db now) checks).
  { cbn [map]. unfold charge at 1. by rewrite Hv, <- app_assoc. }
  assert (Hin' : forall d, d ∈ checks -> shard_of d ∈ ids) by (intros d Hd; apply Hin; by right).
  rewrite Hcharge. destruct (counter db c) as [row|] eqn:Hk.
  - unfold new_counter. rewrite Hk. cbn [bool_decide negb andb]. rewrite app_nil_r. by apply IH.
  - assert (Hcid : shard_of c ∈ ids) by (apply Hin; by left).
    rewrite (proj2 Ht (shard_of c)) by done. cbn [default from_option].
    pose proof (counts_track_new ids ahead counts c Ht Hids Hcid Hk) as Ht'.
    unfold new_counter in *. rewrite Hk in *. rewrite bool_decide_eq_false_2 by done. cbn [negb andb].
    unfold shard_count in *. destruct (maximum <=? _); [by apply evaluate_loop_denied|by apply IH].
Qed.

(** The expiries fit the database. *)
Lemma database_expiries_honest checks :
  ready checks -> Forall (admitted db now) checks ->
  database_expiries (E := E) (map (charge db now) checks)
  = Ok (map (fun c => expires_at_millis (charge db now c)) checks).
Proof.
  intros Hr. induction Hr as [|c checks [Hc Hobs] _ IH]; intros Hadm; [done|].
  apply Forall_cons in Hadm as [Ha Hadm]. cbn [map database_expiries].
  destruct (charged_facts policies db Hdb now Hnow c Hc Hobs Ha) as (_ & _ & _ & He).
  unfold try_from. rewrite checked_in by exact He. cbn [ok_or]. by rewrite Ok_bind, IH, Ok_bind.
Qed.
End Decode.

(** * Whole transactions *)

Lemma unnest_gcra_keys (checks : list GcraCheck) :
  unnest_keys (map (fun check => fingerprint_bytes (ck_fingerprint (Check_counter_key check))) checks)
    (map (fun check => SubjectKey_as_bytes (check_subject check)) checks)
  = map Check_counter_key checks.
Proof.
  unfold unnest_keys. induction checks as [|c checks IH]; [done|]. cbn [map zip_with].
  f_equal; [|exact IH]. unfold storage_key, Check_counter_key, CounterKey_new. simpl.
  by destruct (gp_fingerprint (check_policy c)), (check_subject c).
Qed.

Lemma counter_rows_reply {E} (db : GcraDb) checks :
  (fun '(index, key) =>
     mkCounterReply (Ok index) (Ok (decimal ∘ tat_scaled <$> counters db !! key))
       (Ok (expires_at_ms <$> counters db !! key)))
  <$> with_ordinality (map Check_counter_key checks)
  = counter_replies (E := E) db 0 checks.
Proof.
  rewrite with_ordinality_ordinals. generalize 0%nat.
  induction checks as [|c checks IH]; intros k; [done|].
  cbn [map]. rewrite ordinals_cons, counter_replies_cons, fmap_cons, IH. done.
Qed.

(** The two statements of the update. *)
Lemma upsert_honest {E} `{SqlxError E} (db db1 : GcraDb) now checks t :
  NoDup (Check_counter_key <$> checks) ->
  upsert_counters db (map (upsert_entry db now) checks) = Ok db1 ->
  gcra_answer (E := E) t unit
    (UPSERT (map (fun check => fingerprint_bytes (ck_fingerprint (Check_counter_key check))) checks)
       (map (fun check => SubjectKey_as_bytes (check_subject check)) checks)
       (map (fun allowance => decimal (Gcra.tat_scaled allowance)) (map (charge db now) checks))
       (map (fun c => expires_at_millis (charge db now c)) checks)) db
  = (db1, Ok (mkResponse [] (Z.of_nat (length checks)))).
Proof.
  intros Hnd Hup. unfold gcra_answer. cbn [gcra_sql]. rewrite unnest_gcra_keys, map_map, !zip_map.
  rewrite bool_decide_eq_true_2 by exact Hnd. change (map _ checks) with (map (upsert_entry db now) checks) at 2.
  rewrite Hup. cbn [updated]. by rewrite length_map.
Qed.

Lemma observe_honest {E} `{SqlxError E} (db : GcraDb) ids now t :
  0 <= now -> exists affected,
  gcra_answer (E := E) t unit (OBSERVE_SHARDS ids now) db
  = (observe_all db ids now, Ok (mkResponse [] affected)).
Proof.
  intros Hnow. eexists. unfold gcra_answer. cbn [gcra_sql].
  rewrite (proj2 (Z.ltb_ge now 0)) by done. reflexivity.
Qed.

Record gcra_batch_ok (policies : PolicyFingerprint -> GcraPolicy) (checks : list GcraCheck) : Prop := {
  gb_nonempty : checks <> [];
  gb_distinct : NoDup (Check_counter_key <$> checks);
  gb_checks : Forall (gcra_ok policies) checks;
}.

Section Transactions.
Context {E : Type} `{SqlxError E} (policies : PolicyFingerprint -> GcraPolicy).

(** A transaction takes twenty interactions: [begin], five statements with a
    clock reading and a timeout setting each, then the commit with a setting
    and two clock readings.  The second statement samples the time. *)
Record honest_run (d : Z) (ts : list Tick) (sample : Tick) : Prop := {
  hr_length : (20 <= length ts)%nat;
  hr_deadline : Forall (fun t => at_client t < d) ts;
  hr_sample : ts !! 6%nat = Some sample;
}.

(** The time of a batch at a sample, within the range of the tables. *)
Definition batch_time (db : GcraDb) (checks : list GcraCheck) (sample : Tick) : Z :=
  admission_time db (touched checks) (sample_ms (started sample)).

Lemma touched_range checks : Forall (gcra_ok policies) checks ->
  Forall (fun id => 0 <= id <= 255) (touched checks).
Proof.
  intros Hok. apply Forall_forall. intros id Hid.
  apply touched_elem, list_elem_of_fmap in Hid as (c & -> & Hc).
  apply (gcra_shard_range policies). by apply (proj1 (Forall_forall _ _) Hok).
Qed.

Lemma batch_ready db checks sample : Forall (gcra_ok policies) checks ->
  ready policies db (batch_time db checks sample) checks.
Proof.
  intros Hok. apply Forall_forall. intros c Hc. split; [by apply (proj1 (Forall_forall _ _) Hok)|].
  apply admission_time_le. apply touched_elem. by apply list_elem_of_fmap_2.
Qed.

Lemma batch_time_nonneg db checks sample :
  Gcra_wf policies db -> checks <> [] -> Forall (gcra_ok policies) checks ->
  0 <= batch_time db checks sample.
Proof.
  intros Hdb Hne Hok. destruct checks as [|c checks]; [done|].
  pose proof (batch_ready db (c :: checks) sample Hok) as [[_ Hle] _]%Forall_cons.
  pose proof (observed_nonneg policies db Hdb (shard_of c)). lia.
Qed.

Lemma gcra_transaction_honest {D} db config d checks ts sample
    (build : Admission -> Result (CheckError E) D) decision :
  gcra_batch_ok policies checks -> Gcra_wf policies db ->
  maximum_rows_per_shard config <= HARD_MAX_ROWS_PER_SHARD -> honest_run d ts sample ->
  batch_time db checks sample + MAX_WINDOW_MILLIS <= i64_max ->
  let '(admission, db') :=
    admit_gcra db (batch_time db checks sample) (maximum_rows_per_shard config) checks in
  build admission = Ok decision ->
  exists working rest,
    run_transaction checks config d build (sess db db ts)
    = (sess db' working rest, Done (Ok (Reusable decision))).
Proof.
  intros [Hne Hnd Hok] Hdb Hmax [Hlen Hd Hsample] Hroom.
  do 20 (destruct ts as [|? ts]; [cbn in Hlen; lia|]). cbn in Hsample. simplify_eq.
  repeat match goal with Hf : Forall _ (_ :: _) |- _ => apply Forall_cons in Hf as [? Hf] end.
  pose proof (touched_range checks Hok) as Hrange. pose proof (batch_ready db checks sample Hok) as Hready.
  pose proof (batch_time_nonneg db checks sample Hdb Hne Hok) as Hnonneg.
  destruct (shards_in_order_touched policies db Hdb (touched checks) (touched_ascending checks) Hrange)
    as (locked & Hlocked & Hllen & Hlook).
  unfold admit_gcra, run_transaction. fold (touched checks).
  erewrite bind_Ok by apply begin_honest.
  erewrite bind_Ok by (apply fetch_all_honest; [done|lia|reflexivity]). cbn [rows].
  rewrite length_fmap, Hlocked, length_zip_with, Hllen, Nat.min_id, Nat.eqb_refl.
  erewrite lift_bind by reflexivity.
  erewrite bind_Ok by (eapply fetch_one_honest; [done|lia|reflexivity|reflexivity]).
  erewrite lift_bind by reflexivity.
  erewrite lift_bind by (by apply (ledger_loop_honest policies db Hdb)). lazy beta iota.
  fold (batch_time db checks sample). set (now := batch_time db checks sample) in *.
  erewrite lift_bind by (by rewrite (proj2 (Z.leb_le 0 now))). lazy beta iota zeta.
  erewrite bind_Ok by (apply fetch_all_honest; [done|lia|reflexivity]). cbn [rows].
  rewrite unnest_gcra_keys, counter_rows_reply.
  erewrite lift_bind.
  2:{ unfold evaluate. rewrite length_counter_replies, Nat.eqb_refl. cbn [negb].
      apply (evaluate_loop_honest policies db Hdb now Hroom (touched checks) _ 0 checks []); [done|done| |].
      - intros c Hc. apply touched_elem. by apply list_elem_of_fmap_2.
      - by apply counted_track. }
  destruct (refused db now (maximum_rows_per_shard config) [] 0 checks) as [admission|] eqn:Hr; intros Hbuild.
  { erewrite lift_bind by (by rewrite Hbuild). unfold deny. rewrite denied_honest. do 2 eexists. reflexivity. }
  pose proof (not_refused_admitted _ _ _ _ _ _ Hr) as Hadm.
  erewrite lift_bind by (by apply (database_expiries_honest policies db Hdb now Hroom)).
  erewrite lift_bind by (cbn [app]; rewrite map_map, Hbuild; reflexivity).
  destruct (update_charges policies db Hdb now Hroom checks (maximum_rows_per_shard config))
    as (db1 & Hup & Hcharge); [done..| |done|].
  { intros c Hc. by apply (proj1 (Forall_forall _ _) Hready). }
  erewrite bind_Ok by (apply execute_honest; [done|lia|by apply upsert_honest]). cbn [rows_affected].
  erewrite lift_bind by (by rewrite Z.eqb_refl).
  destruct (observe_honest (E := E) db1 (touched checks) now t15 Hnonneg) as [affected Hobserve].
  erewrite bind_Ok by (apply execute_honest; [done|lia|exact Hobserve]).
  erewrite bind_Ok by (apply commit_honest; done || lia).
  rewrite Hcharge. do 2 eexists. reflexivity.
Qed.

(** A call on an honest server. *)
Record honest_env (self : PostgresGcraLimiter) (env : PgEnv E GcraDb (GcraQuery E)) (sample : Tick) : Prop := {
  he_config : maximum_rows_per_shard (config self) <= HARD_MAX_ROWS_PER_SHARD;
  he_acquired : env_acquired env = Some (Ok tt);
  he_run : exists ts, env_schedule env = map honest ts
    /\ honest_run (env_connected_at env + as_nanos (operation_timeout (config self))) ts sample;
}.

Lemma run_honest {D} self db env checks sample (build : Admission -> Result (CheckError E) D) decision :
  gcra_batch_ok policies checks -> Gcra_wf policies db -> honest_env self env sample ->
  batch_time db checks sample + MAX_WINDOW_MILLIS <= i64_max ->
  let '(admission, db') :=
    admit_gcra db (batch_time db checks sample) (maximum_rows_per_shard (config self)) checks in
  build admission = Ok decision ->
  exists s, run self db env checks build = mkCallEnd (Done (Ok decision)) (Some (s, false))
            /\ committed s = db'.
Proof.
  intros Hbatch Hdb [Hmax Hacq (ts & Hts & Hrun)] Hroom.
  pose proof (gcra_transaction_honest db _ _ checks ts sample build decision Hbatch Hdb Hmax Hrun Hroom) as Htx.
  destruct (admit_gcra _ _ _ _) as [admission db']. intros Hbuild. destruct (Htx Hbuild) as (working & rest & Hinner).
  unfold run. rewrite Hacq. cbn [acquire_check_connection map_err]. unfold guarded_run, connect. rewrite Hts.
  change (mkSession db db (map honest ts) false) with (sess db db ts).
  rewrite Hinner. cbn. by eexists.
Qed.

Definition denial_index (admission : Admission) : option nat :=
  match admission with
  | Admission_Allowed _ => None
  | Admission_Denied index _ | Admission_ShadowDenied index _ => Some index
  end.

Lemma refused_index db now maximum ahead index checks admission :
  refused db now maximum ahead index checks = Some admission ->
  exists i, denial_index admission = Some i /\ (index <= i < index + length checks)%nat.
Proof.
  revert ahead index. induction checks as [|c checks IH]; intros ahead index Hr; [done|]. cbn in Hr.
  assert (Hnext : forall ahead, refused db now maximum ahead (S index) checks = Some admission ->
    exists i, denial_index admission = Some i /\ (index <= i < index + length (c :: checks))%nat).
  { intros ahead' (i & Hi & Hb)%IH. exists i. cbn. split; [done|lia]. }
  destruct (verdict db now c) as [pa|q]; [destruct (_ && _); [|by apply Hnext in Hr]|];
    injection Hr as <-; exists index; cbn; (split; [|lia]); [done|].
  by destruct (gp_quota_mode (check_policy c)).
Qed.

Lemma gcra_batch_decision db now maximum checks :
  checks <> [] ->
  let admission := (admit_gcra db now maximum checks).1 in
  batch_decision (E := E) (length checks) admission = Ok (decision_of_batch (length checks) admission).
Proof.
  intros Hne. unfold admit_gcra. destruct (refused _ _ _ _ _ _) as [admission|] eqn:Hr; cbn.
  - destruct (refused_index _ _ _ _ _ _ _ Hr) as (i & Hi & Hb).
    destruct admission; cbn in *; simplify_eq;
      rewrite ?BatchDecision_denied_ok, ?BatchDecision_shadow_denied_ok by lia; done.
  - unfold batch_decision. rewrite length_map, Nat.eqb_refl. by destruct checks.
Qed.

(** C28. On a server that answers from its tables before the deadline, a
    GCRA batch that passes validation is decided by the exact transition at
    the server's time, clamped to the latest time any touched shard has
    observed: the first check refused, by its arrival time or by its shard,
    is the one reported and nothing changes; without one every arrival time
    is stored in one commit and the touched shards remember the time.  The
    arrival times, expiries and ledger of the tables stay consistent, no
    reply is rejected, and the connection goes back to its pool. *)
Theorem pg_gcra_check_all_refines self db env (checks : list GcraCheck) sample
    (Hvalid : validate_batch checks (pg_max_batch_size (config self)) = Ok tt)
    (Hchecks : Forall (gcra_ok policies) checks) (Hdb : Gcra_wf policies db)
    (Henv : honest_env self env sample)
    (Hroom : batch_time db checks sample + MAX_WINDOW_MILLIS <= i64_max) :
  let '(admission, db') :=
    admit_gcra db (batch_time db checks sample) (maximum_rows_per_shard (config self)) checks in
  exists s,
    (check_all self db env checks).1
    = mkCallEnd (Done (Ok (decision_of_batch (length checks) admission))) (Some (s, false))
    /\ committed s = db' /\ Gcra_wf policies db'.
Proof.
  pose proof Hvalid as (Hlen & Hnd & _)%validate_batch_ok.
  assert (Hne : checks <> []) by (by destruct checks; [cbn in Hlen; lia|]).
  set (now := batch_time db checks sample) in *.
  assert (Hwf : Gcra_wf policies (admit_gcra db now (maximum_rows_per_shard (config self)) checks).2).
  { unfold admit_gcra. destruct (refused _ _ _ _ _ _) eqn:Hr; [done|].
    apply (charge_batch_wf policies db Hdb now Hroom checks (maximum_rows_per_shard (config self)));
      [apply Henv|done|done| |done].
    intros c Hc. by apply (proj1 (Forall_forall _ _) (batch_ready db checks sample Hchecks)). }
  pose proof (gcra_batch_decision db now (maximum_rows_per_shard (config self)) checks Hne) as Hdec.
  pose proof (run_honest self db env checks sample (batch_decision (length checks))
    (decision_of_batch (length checks) (admit_gcra db now (maximum_rows_per_shard (config self)) checks).1)
    (Build_gcra_batch_ok policies checks Hne Hnd Hchecks) Hdb Henv Hroom) as Hrun.
  unfold check_all. rewrite Hvalid. fold now in Hrun.
  destruct (admit_gcra _ _ _ _) as [admission db']. cbn in *.
  destruct (Hrun Hdec) as (s & Hs & Hc). rewrite Hs. exists s. by split_and!.
Qed.
End Transactions.

(** * A concrete run *)

#[local] Existing Instance example_sqlx.

(** A policy of 10 units a second and bursts of 5. *)
Definition example_gcra_pg_check (tag subject cost : Z) : GcraCheck :=
  mkCheck (mkGcraPolicy (mkPolicyId [97]) (mkScopeId [98]) (mkCapacity 10) (mkQuotaPeriod 1000)
             (mkCapacity 5) (from_digest (example_digest tag)) Enforce)
    (mkSubjectKey (example_digest subject)) cost.

Definition example_gcra_policies (fingerprint : PolicyFingerprint) : GcraPolicy :=
  mkGcraPolicy (mkPolicyId [97]) (mkScopeId [98]) (mkCapacity 10) (mkQuotaPeriod 1000)
    (mkCapacity 5) fingerprint Enforce.

Lemma example_gcra_pg_check_ok tag subject cost :
  is_byte tag -> is_byte subject -> 1 <= cost <= 5 ->
  gcra_ok example_gcra_policies (example_gcra_pg_check tag subject cost).
Proof.
  intros Ht Hs Hc. split.
  - split; [exact (proj1 (example_gcra_check_valid tag 0 cost Hc))|exact Hc].
  - done.
  - unfold CounterKey_to_bytes, is_byte in *. cbn.
    repeat (constructor; [lia|]). constructor.
  - done.
Qed.

Definition example_gcra_ticks : list Tick := replicate 20 (mkTick 5 1000000 1000500).

Definition example_gcra_env : PgEnv unit GcraDb (GcraQuery unit) :=
  mkPgEnv (Some (Ok tt)) 0 (map honest example_gcra_ticks) DURATION_ZERO.

Lemma example_gcra_honest_env :
  honest_env PostgresGcra.new example_gcra_env (mkTick 5 1000000 1000500).
Proof.
  split; [done|done|]. exists example_gcra_ticks. split; [done|]. split; [done| |done].
  apply Forall_replicate. done.
Qed.

(** C28 witness. *)
Lemma pg_gcra_check_all_refines_witness :
  exists s, (check_all PostgresGcra.new GcraDb_new example_gcra_env
               [example_gcra_pg_check 0 1 2; example_gcra_pg_check 0 2 5]).1
    = mkCallEnd (Done (Ok (mkBatchDecision (BatchOutcome_Allowed
        [mkAllowance (mkCapacity 5) 3 (Delay_new (from_millis 200));
         mkAllowance (mkCapacity 5) 0 (Delay_new (from_millis 500))])))) (Some (s, false))
    /\ size (counters (committed s)) = 2%nat /\ Gcra_wf example_gcra_policies (committed s).
Proof.
  pose proof (pg_gcra_check_all_refines example_gcra_policies PostgresGcra.new GcraDb_new example_gcra_env
    [example_gcra_pg_check 0 1 2; example_gcra_pg_check 0 2 5] (mkTick 5 1000000 1000500)
    ltac:(vm_compute; reflexivity)
    (Forall_cons_2 _ _ _ (example_gcra_pg_check_ok 0 1 2 ltac:(unfold is_byte; lia) ltac:(unfold is_byte; lia) ltac:(lia))
      (Forall_cons_2 _ _ _ (example_gcra_pg_check_ok 0 2 5 ltac:(unfold is_byte; lia) ltac:(unfold is_byte; lia) ltac:(lia))
        (Forall_nil_2 _)))
    (GcraDb_new_wf _) example_gcra_honest_env ltac:(vm_compute; discriminate)) as Hrun.
  rewrite (surjective_pairing (admit_gcra _ _ _ _)) in Hrun. lazy beta iota zeta in Hrun.
  destruct Hrun as (s & Hrun & Hc & Hwf).
  exists s. split; [|split; [rewrite Hc; vm_compute; reflexivity|rewrite Hc; exact Hwf]].
  rewrite Hrun. vm_compute. reflexivity.
Defined.
