(* ===== verification/PgGcraTypes.v ===== *)
(** What the types of GCRA decisions promise, from a server that may reply
    anything. *)

From Stdlib Require Import Ascii String.
From stdpp Require Import prelude list gmap.
From S2P Require Import Prelude RustStd Identifier Policy Decision AttemptPolicy Key Check Observation Gcra PgErrors PgConfig PgSession PgTables PgAdmission PgInvariant PgConnection PgLimiter PgSpec PgHonest PgRefine PgAnyServer PgTypes PgGcra PgGcraSpec PgGcraRefine.
Open Scope Z_scope.
Open Scope list_scope.
Import PostgresGcra.

Section Gcra.
Context {E : Type} `{SqlxError E}.

(** An evaluation of a check. *)
Definition evaluation_of (c : GcraCheck) (evaluation : Evaluation) : Prop :=
  match evaluation with
  | Evaluation_Allowed a => allowance_of c (Gcra.pending_allowance a)
  | Evaluation_Denied q => QuotaDenial_capacity q = rp_capacity (check_policy c)
  end.

Lemma evaluate_yields c now tat : yields (evaluation_of c) (Gcra.evaluate c now tat).
Proof.
  unfold Gcra.evaluate. do 4 (apply yields_then; intros ? _). apply yields_then; intros ceiling _.
  destruct (ceiling <? _).
  - apply yields_then; intros retry _. by apply yields_ok.
  - apply yields_then; intros available Hav. do 2 (apply yields_then; intros ? _).
    apply yields_then; intros allowance Ha. apply yields_ok.
    unfold ok_or, try_from, checked in Hav. destruct (_ && _) eqn:Hin in Hav; [|done]. injection Hav as <-.
    unfold Allowance_new in Ha. destruct (_ <? _) eqn:Hlt in Ha; [done|]. injection Ha as <-.
    split; [done|]. cbn. cbn in Hlt. lia.
Qed.

(** What the loop has found for the checks [seen] before the rest: their
    allowances, or the first denial. *)
Definition found_among (checks seen : list GcraCheck) (pending : list Gcra.PendingAllowance)
    (denial : option Admission) : Prop :=
  match denial with
  | None => Forall2 allowance_of seen (map Gcra.pending_allowance pending)
  | Some admission => batch_admission_of checks admission
  end.

Definition pending_among (checks : list GcraCheck) (p : Pending) : Prop :=
  match p with
  | Pending_Allowed allowances => Forall2 allowance_of checks (map Gcra.pending_allowance allowances)
  | Pending_Denied admission => batch_admission_of checks admission
  end.

Lemma evaluate_loop_yields checks maximum now seen rest replies counts pending denial :
  checks = seen ++ rest -> length replies = length rest -> found_among checks seen pending denial ->
  yields (pending_among checks)
    (evaluate_loop (E := E) maximum now (length seen) (zip rest replies) counts pending denial).
Proof.
  revert seen replies counts pending denial.
  induction rest as [|c rest IH]; intros seen replies counts pending denial Hchecks Hlen Hfound.
  { apply yields_ok. rewrite app_nil_r in Hchecks. subst seen. by destruct denial. }
  destruct replies as [|row replies]; [done|]. injection Hlen as Hlen. cbn [zip zip_with evaluate_loop].
  assert (Hat : checks !! length seen = Some c) by (rewrite Hchecks; by apply list_lookup_middle).
  assert (Hnext : forall counts pending denial, found_among checks (seen ++ [c]) pending denial ->
    yields (pending_among checks)
      (evaluate_loop maximum now (S (length seen)) (zip rest replies) counts pending denial)).
  { intros counts' pending' denial' Hf. replace (S (length seen)) with (length (seen ++ [c]))
      by (rewrite length_app; cbn; lia).
    apply IH; [by rewrite <- app_assoc|done|done]. }
  do 4 (apply yields_then; intros ? _). apply yields_then; intros stored _.
  apply yields_then; intros ? _.
  eapply yields_bind; [apply yields_map_err, evaluate_yields|]. intros [pa|q] Heval; cbn [evaluation_of] in Heval.
  - destruct (match _ with Some _ => (counts, denial) | None => _ end) as [counts' denial'] eqn:Hd.
    apply Hnext.
    assert (Hcases : denial' = denial \/ denial' = get_or_insert denial (Admission_Denied (length seen) (StorageCapacity None))).
    { destruct stored; injection Hd as _ <-; [by left|]. destruct (_ <=? _); [by right|by left]. }
    destruct Hcases as [->| ->]; destruct denial; cbn [get_or_insert found_among] in *; [done| |done|by exists c].
    rewrite map_app. by apply Forall2_app; [|constructor].
  - apply Hnext. destruct denial; [done|]. cbn [get_or_insert found_among].
    destruct (gp_quota_mode (check_policy c)) eqn:Hmode; by exists c.
Qed.

Lemma evaluate_typed checks replies counts maximum now :
  yields (pending_among checks) (evaluate (E := E) checks replies counts maximum now).
Proof.
  unfold evaluate. destruct (Nat.eqb_spec (length replies) (length checks)) as [Hlen|]; [|apply yields_err].
  cbn [negb]. by apply (evaluate_loop_yields checks maximum now [] checks); [| |constructor].
Qed.

Lemma run_transaction_safely {D} checks config deadline (build : Admission -> Result (CheckError E) D) (Q : D -> Prop) :
  (forall admission, batch_admission_of checks admission -> yields Q (build admission)) ->
  safely (fun o => Q (outcome_value o)) (run_transaction checks config deadline build).
Proof.
  intros Hbuild. unfold run_transaction.
  assert (Hany : forall A (r : Result (ConnectionOutcome (CheckError E)) A), yields (fun _ => True) r) by done.
  apply safely_then; [apply safely_begin|]. intros tx.
  apply safely_then; [apply safely_fetch_all|]. intros locked.
  apply safely_then; [by apply safely_lift|]. intros u.
  apply safely_then; [apply safely_fetch_one|]. intros sample.
  apply safely_then; [by apply safely_lift|]. intros now.
  apply safely_then; [by apply safely_lift|]. intros [counts now'].
  apply safely_then; [by apply safely_lift|]. intros u'.
  apply safely_then; [apply safely_fetch_all|]. intros replies.
  eapply safely_bind; [apply safely_lift, evaluate_typed|]. intros [allowances|admission] Hpending.
  - apply safely_then; [by apply safely_lift|]. intros expiries.
    eapply safely_bind; [by apply safely_lift, yields_map_err, Hbuild|]. intros d Hd.
    apply safely_then; [apply safely_execute|]. intros updated.
    apply safely_then; [by apply safely_lift|]. intros u''.
    apply safely_then; [apply safely_execute|]. intros observed. by apply safely_publish.
  - eapply safely_bind; [by apply safely_lift, yields_map_err, Hbuild|]. intros d Hd. by apply safely_deny.
Qed.

Lemma run_yields {D} self db env checks (build : Admission -> Result (CheckError E) D) (Q : D -> Prop) :
  (forall admission, batch_admission_of checks admission -> yields Q (build admission)) ->
  call_yields Q (run self db env checks build).
Proof.
  intros Hbuild. unfold run. destruct (acquire_check_connection (env_acquired env)) as [u|e]; [|done].
  by apply guarded_call_yields, run_transaction_safely.
Qed.

(** No reply of the server and no loss makes a GCRA check or batch panic,
    or return a decision of another type than its checks': an allowed batch
    has one allowance per check in order, each with the burst capacity of
    the check's policy and no more available than that, computed in exact
    integer arithmetic whatever time and arrival times the server reports;
    a denied index is that of a check, whose policy's capacity and mode a
    denial by quota has; a storage denial promises no delay. *)
Theorem pg_gcra_decisions_typed self db env (checks : list GcraCheck)
    (Hpolicies : Forall (fun c => GcraPolicy_valid (check_policy c)) checks) :
  call_yields (fun d => batch_decision_of checks d /\ BatchDecision_wf d)
    (check_all (E := E) self db env checks).1
  /\ Forall (fun c => call_yields (fun d => decision_of c d /\ Decision_wf d)
                        (check (E := E) self db env c).1) checks.
Proof.
  assert (Hcaps : Forall (fun c => Capacity_wf (rp_capacity (check_policy c))) checks).
  { eapply Forall_impl; [done|]. by intros c (_ & _ & _ & _ & Hburst & _). }
  split.
  - unfold check_all, call_yields. destruct (validate_batch _ _) as [[]|error] eqn:Hvalid; [|done].
    apply validate_batch_ok in Hvalid as (Hl & _).
    pose proof (run_yields self db env checks (batch_decision (length checks)) _
      (batch_decision_typed checks)) as Hcall.
    unfold call_yields in Hcall. cbn [fst ce_result].
    destruct (ce_result _) as [[d|e]|]; [|done..]. split; [done|].
    apply (batch_decision_of_wf checks); [by destruct checks; [cbn in Hl; lia|]|done..].
  - apply Forall_forall. intros c Hc. pose proof (proj1 (Forall_forall _ _) Hcaps c Hc) as Hcap.
    pose proof (run_yields self db env [c] single_decision _ (single_decision_typed c)) as Hcall.
    unfold check, call_yields in *. cbn [fst].
    destruct (ce_result _) as [[d|e]|]; [|done..]. split; [done|]. by apply (decision_of_wf c).
Qed.
End Gcra.

(** * A lying server *)

#[local] Existing Instance example_sqlx.

(** It claims the last representable millisecond for its time, and a counter
    far in the past. *)
Definition example_gcra_lies : forall A, GcraQuery unit A -> GcraDb -> GcraDb * Result unit (Response A) :=
  fun A q db =>
  match q in GcraQuery _ A return GcraDb * Result unit (Response A) with
  | LOCK_SHARDS ids => (db, Ok (mkResponse (map (fun id => mkShardReply (Ok id) (Ok 0) (Ok i64_max)) ids) 0))
  | SAMPLE_TIME => (db, Ok (mkResponse [Ok 3] 1))
  | READ_COUNTERS fingerprints _ =>
      (db, Ok (mkResponse (imap (fun i _ => mkCounterReply (Ok (Z.of_nat i)) (Ok None) (Ok None)) fingerprints) 0))
  | _ => (db, Ok (mkResponse [] 2))
  end.

Definition example_gcra_lying_env : PgEnv unit GcraDb (GcraQuery unit) :=
  mkPgEnv (Some (Ok tt)) 0
    (replicate 20 (mkStep 5 (Some example_gcra_lies) (Some (Ok tt)) false)) DURATION_ZERO.

(** A concrete instance: an expiry past the range of the database is an error. *)
Lemma pg_gcra_decisions_typed_witness :
  let checks := [example_gcra_pg_check 0 1 2; example_gcra_pg_check 0 2 3] in
  let e := (check_all PostgresGcra.new GcraDb_new example_gcra_lying_env checks).1 in
  ce_result e = Done (Err (BatchCheckError_Check
    (storage_invariant "GCRA expiry exceeds database range"%string)))
  /\ call_yields (fun d => batch_decision_of checks d /\ BatchDecision_wf d) e.
Proof.
  split; [vm_compute; reflexivity|].
  apply (pg_gcra_decisions_typed PostgresGcra.new GcraDb_new example_gcra_lying_env
    [example_gcra_pg_check 0 1 2; example_gcra_pg_check 0 2 3]).
  apply (Forall_impl (gcra_ok example_gcra_policies)); [|intros c Hc; exact (proj1 (go_valid _ _ Hc))].
  repeat (apply Forall_cons; split; [apply example_gcra_pg_check_ok; unfold is_byte; lia|]). apply Forall_nil_2.
Defined.
