(* ===== verification/PgGcraEffect.v ===== *)
(** The PostgreSQL GCRA limiter over a lossy network: on a server that
    answers from its tables when it answers at all, what a call returns is
    the specified admission of [PgGcraSpec] at the server's clamped time, and
    the committed tables are the specified ones; cleanup only advances the
    time of shards and removes counters that time has passed. *)

From Stdlib Require Import Ascii String Sorting.Sorted.
From stdpp Require Import prelude list gmap sorting.
From S2P Require Import Prelude RustStd Identifier Policy Decision AttemptPolicy Key Check Observation OrdSet Shards Gcra PgErrors PgConfig PgSession PgTables PgLedger PgAdmission PgMaintenance PgInvariant PgConnection PgLimiter PgSpec PgHonest PgServed PgRefine PgLocks PgGcra PgGcraSpec PgGcraTables PgGcraRefine.
Open Scope Z_scope.
Open Scope list_scope.
Import PostgresGcra.

Section Effect.
Context {E : Type} `{SqlxError E} (policies : PolicyFingerprint -> GcraPolicy).
Context (within : Tick -> Prop) (db : GcraDb) (Hdb : Gcra_wf policies db).
Notation triple := (triple (E := E) gcra_answer within).
Notation settles := (settles (E := E) gcra_answer within).
Notation statement := (statement (E := E) gcra_answer within).

(** * Admission *)

Section Batch.
Context (checks : list GcraCheck) (maximum : Z).
Context (Hbatch : gcra_batch_ok policies checks) (Hmax : maximum <= HARD_MAX_ROWS_PER_SHARD).
Context (Hroom : forall t, within t -> batch_time db checks t + MAX_WINDOW_MILLIS <= i64_max).

(** A statement that only reads. *)
Lemma reading {A} (q : GcraQuery E A) (out : Tick -> list A) :
  (forall t, exists affected, gcra_answer (E := E) t A q db = (db, Ok (mkResponse (out t) affected))) ->
  statement (eq db) q (fun resp w => db = w /\ exists t, within t /\ rows resp = out t).
Proof.
  intros Hq t w w' resp Ht <- Ha. destruct (Hq t) as [affected Hr]. rewrite Hr in Ha.
  injection Ha as <- <-. split; [done|]. by exists t.
Qed.

Lemma fetch_reading {A} tx phase (q : GcraQuery E A) (out : Tick -> list A) :
  (forall t, exists affected, gcra_answer (E := E) t A q db = (db, Ok (mkResponse (out t) affected))) ->
  triple db (eq db) (fetch_all tx phase q) (fun rows w => db = w /\ exists t, within t /\ rows = out t).
Proof.
  intros Hq. apply (triple_fetch_all gcra_answer within _ _ _ _ _ (fun rows w => db = w /\ exists t, within t /\ rows = out t)).
  by apply reading.
Qed.

(** A decision and the tables it leaves, at a sample of the server. *)
Definition decided {D} (build : Admission -> Result (CheckError E) D) (d : D) (db' : GcraDb) : Prop :=
  exists sample, within sample
  /\ let '(admission, charged) := admit_gcra db (batch_time db checks sample) maximum checks in
     build admission = Ok d /\ db' = charged.

(** The tables of an admission whose commit was not acknowledged. *)
Definition admitted_unknown (db' : GcraDb) : Prop :=
  exists sample, within sample
  /\ refused db (batch_time db checks sample) maximum [] 0 checks = None
  /\ db' = charge_batch db (batch_time db checks sample) checks.

(** The two statements of the update and the commit. *)
Lemma update_settles {D} tx sample (build : Admission -> Result (CheckError E) D) d :
  within sample ->
  refused db (batch_time db checks sample) maximum [] 0 checks = None ->
  build (Admission_Allowed (map (fun c => Gcra.pending_allowance
    (charge db (batch_time db checks sample) c)) checks)) = Ok d ->
  let now := batch_time db checks sample in
  settles db (eq db)
    (updated ← execute tx CheckPhase_UpdatingCounters
       (UPSERT (map (fun check => fingerprint_bytes (ck_fingerprint (Check_counter_key check))) checks)
          (map (fun check => SubjectKey_as_bytes (check_subject check)) checks)
          (map (fun allowance => decimal (Gcra.tat_scaled allowance)) (map (charge db now) checks))
          (map (fun c => expires_at_millis (charge db now c)) checks));
     _ ← lift (ensure (updated =? Z.of_nat (length checks)) "GCRA upsert count disagrees with the batch"%string);
     _ ← execute tx CheckPhase_UpdatingCounters (OBSERVE_SHARDS (touched checks) now);
     _ ← commit tx;
     mret (Reusable d))
    (decided build) admitted_unknown.
Proof.
  intros Hin Hr Hb now. destruct Hbatch as [Hne Hnd Hok].
  pose proof (batch_ready policies db checks sample Hok) as Hready.
  destruct (update_charges policies db Hdb now (Hroom _ Hin) checks maximum) as (db1 & Hup & Hcharge); [done..| |done|].
  { intros c Hc. by apply (proj1 (Forall_forall _ _) Hready). }
  eapply settles_bind.
  { apply (triple_execute gcra_answer within _ _ _ _ _ (fun _ w => db1 = w)).
    intros t w w' resp _ <- Ha. rewrite (upsert_honest db db1 now checks t) in Ha by done.
    by injection Ha as <- _. }
  intros affected. apply settles_lift. intros u _.
  eapply settles_bind.
  { apply (triple_execute gcra_answer within _ _ _ _ _ (fun _ w => charge_batch db now checks = w)).
    intros t w w' resp _ <- Ha.
    destruct (observe_honest (E := E) db1 (touched checks) now t) as [n Hobs];
      [by apply (batch_time_nonneg policies)|].
    rewrite Hobs in Ha. injection Ha as <- _. by rewrite Hcharge. }
  intros affected'. apply (settles_commit gcra_answer within). intros w <-.
  split; exists sample; unfold admit_gcra; by rewrite Hr.
Qed.

(** The locked ledger and the sampled time give the time of the batch and
    the counts of its shards. *)
Lemma ledger_now locked sample counts now :
  Forall (gcra_ok policies) checks ->
  locked = (fun '(id, row) => mkShardReply (Ok id) (Ok (row_count row)) (Ok (observed_at_ms row)))
           <$> shards_in_order db (touched checks) ->
  ledger_loop (E := E) (zip locked (touched checks)) (replicate (Z.to_nat CAPACITY_SHARD_COUNT) 0)
    (sample_ms (started sample)) = Ok (counts, now) ->
  counts = counted db (replicate (Z.to_nat CAPACITY_SHARD_COUNT) 0) (touched checks)
  /\ now = batch_time db checks sample.
Proof.
  intros Hok -> Hl.
  destruct (shards_in_order_touched policies db Hdb (touched checks) (touched_ascending checks)
    (touched_range policies checks Hok)) as (rows & Hrows & Hlen & Hlook).
  rewrite Hrows in Hl. rewrite (ledger_loop_honest policies db Hdb) in Hl
    by (done || by apply (touched_range policies)).
  by injection Hl as <- <-.
Qed.

Lemma evaluate_now sample rows pending :
  within sample -> rows = counter_replies (E := E) db 0 checks ->
  evaluate checks rows (counted db (replicate (Z.to_nat CAPACITY_SHARD_COUNT) 0) (touched checks))
    maximum (batch_time db checks sample) = Ok pending ->
  pending = match refused db (batch_time db checks sample) maximum [] 0 checks with
            | Some admission => Pending_Denied admission
            | None => Pending_Allowed (map (charge db (batch_time db checks sample)) checks)
            end.
Proof.
  intros Hin -> He. destruct Hbatch as [Hne Hnd Hok].
  pose proof (touched_range policies checks Hok) as Hrange.
  unfold evaluate in He. rewrite length_counter_replies, Nat.eqb_refl in He. cbn [negb] in He.
  rewrite (evaluate_loop_honest policies db Hdb _ (Hroom _ Hin) (touched checks) _ 0 checks []) in He.
  - by injection He as <-.
  - by apply batch_ready.
  - done.
  - intros c Hc. apply touched_elem. by apply list_elem_of_fmap_2.
  - by apply counted_track.
Qed.

Lemma gcra_transaction_settles {D} config d (build : Admission -> Result (CheckError E) D) :
  maximum_rows_per_shard config = maximum ->
  settles db (fun _ => True) (run_transaction checks config d build) (decided build) admitted_unknown.
Proof.
  intros Hconfig. pose proof (gb_checks _ _ Hbatch) as Hok. unfold run_transaction. fold (touched checks).
  eapply settles_bind; [apply triple_begin_check|]. intros tx. apply settles_at. intros w ->.
  eapply settles_bind.
  { apply (fetch_reading _ _ _ (fun _ =>
      (fun '(id, row) => mkShardReply (Ok id) (Ok (row_count row)) (Ok (observed_at_ms row)))
      <$> shards_in_order db (touched checks))). intros t. by eexists. }
  intros locked. apply settles_at. intros w [<- (_ & _ & Hlocked)].
  apply settles_lift. intros _ _.
  eapply settles_bind.
  { apply (triple_fetch_one gcra_answer within _ _ _ _ _ (fun row w => db = w
      /\ exists t, within t /\ row = Ok (sample_ms (started t)))).
    intros t w w' resp Ht <- [= <- <-] row rest [= <- _]. split; [done|]. by exists t. }
  intros sampled. apply settles_at. intros w [<- (sample & Hin & ->)].
  apply settles_lift. intros now0 [= <-].
  apply settles_lift. intros [counts now] Hledger.
  destruct (ledger_now locked sample counts now Hok Hlocked Hledger) as [-> ->].
  apply settles_lift. intros _ _.
  eapply settles_bind.
  { apply (fetch_reading _ _ _ (fun _ => counter_replies db 0 checks)). intros t. eexists.
    unfold gcra_answer. cbn [gcra_sql]. rewrite unnest_gcra_keys, counter_rows_reply. reflexivity. }
  intros rows. apply settles_at. intros w [<- (_ & _ & Hrows)].
  apply settles_lift. rewrite Hconfig. intros pending Hpending.
  rewrite (evaluate_now sample rows pending Hin Hrows Hpending).
  destruct (refused db (batch_time db checks sample) maximum [] 0 checks) as [admission|] eqn:Hr.
  - apply settles_lift. intros decision Hb. apply settles_deny. exists sample. unfold admit_gcra.
    rewrite Hr. split_and!; [done| |done]. destruct (build admission); cbn in Hb; congruence.
  - apply settles_lift. intros expiries Hexp.
    rewrite (database_expiries_honest policies db Hdb _ (Hroom _ Hin)) in Hexp;
      [|by apply (batch_ready policies)|by eapply not_refused_admitted].
    injection Hexp as <-. apply settles_lift. intros decision Hb. rewrite map_map in Hb.
    apply (update_settles tx sample build decision Hin Hr).
    destruct (build _); cbn in Hb; congruence.
Qed.
End Batch.

(** ** Calls *)

Notation served_env := (served_env (E := E) gcra_answer within).

Lemma run_settles {D} self env checks (build : Admission -> Result (CheckError E) D) :
  gcra_batch_ok policies checks -> maximum_rows_per_shard (config self) <= HARD_MAX_ROWS_PER_SHARD ->
  (forall t, within t -> batch_time db checks t + MAX_WINDOW_MILLIS <= i64_max) -> served_env env ->
  call_settles db (run self db env checks build)
    (decided checks (maximum_rows_per_shard (config self)) build)
    (admitted_unknown checks (maximum_rows_per_shard (config self))).
Proof.
  intros Hbatch Hmax Hroom Henv. unfold run.
  destruct (acquire_check_connection (env_acquired env)) as [u|e]; [|by left].
  apply (guarded_call_settles gcra_answer within db env); [|done].
  by apply gcra_transaction_settles.
Qed.
End Effect.

(** * Tables under cleanup *)

Section Tables.
Context (policies : PolicyFingerprint -> GcraPolicy).
Implicit Types db : GcraDb.

Lemma observed_observe_all db ids now id :
  observed (observe_all db ids now) id
  = if decide (id ∈ ids) then match shards db !! id with Some _ => now | None => 0 end else observed db id.
Proof.
  unfold observed, observe_all. cbn [shards]. rewrite map_lookup_imap.
  destruct (shards db !! id) as [row|]; cbn; [|by case_decide].
  case_decide; [by rewrite bool_decide_eq_true_2|by rewrite bool_decide_eq_false_2].
Qed.

(** Reachability of a stored arrival time survives the passing of time. *)
Lemma row_reachable_later t t' key row :
  t <= t' -> row_reachable policies t key row -> row_reachable policies t' key row.
Proof.
  intros Ht (Hq & Hexp & Hreach). split_and!; [done..|]. unfold tat_reachable in *. nia.
Qed.

Lemma observe_all_wf db ids now :
  Gcra_wf policies db -> 0 <= now -> (forall id, id ∈ ids -> observed db id <= now) ->
  Gcra_wf policies (observe_all db ids now)
  /\ forall id, observed db id <= observed (observe_all db ids now) id.
Proof.
  intros Hdb Hnow Hids.
  assert (Hle : forall id, observed db id <= observed (observe_all db ids now) id).
  { intros id. rewrite observed_observe_all. case_decide as Hin; [|done].
    specialize (Hids id Hin). unfold observed in *. by destruct (shards db !! id). }
  split; [|done]. split.
  - intros id. cbn [observe_all shards counters]. rewrite map_lookup_imap.
    pose proof (gw_shards _ db Hdb id) as Hs. destruct (shards db !! id) as [row|]; cbn; [|done].
    case_bool_decide; cbn; [|done]. destruct Hs as (? & ? & ? & _). done.
  - intros key row Hrow. destruct (gw_rows _ db Hdb key row Hrow) as [Hr Hreach]. split; [done|].
    eapply row_reachable_later; [apply Hle|done].
Qed.

Lemma capacity_change_Ok key delta ss ss' :
  capacity_change key delta ss = Ok ss' ->
  exists row, ss !! capacity_shard key = Some row
  /\ ss' = <[capacity_shard key := mkShardRow (row_count row + delta) (observed_at_ms row)]> ss
  /\ 0 <= row_count row + delta <= HARD_MAX_ROWS_PER_SHARD.
Proof.
  unfold capacity_change. destruct (ss !! capacity_shard key) as [row|]; [|done].
  destruct (shard_row_ok _) eqn:Hok; [|done]. intros [= <-]. exists row. split; [done|]. split; [done|].
  unfold shard_row_ok in Hok. cbn in Hok. bool_prop. lia.
Qed.

(** Removing one stored counter. *)
Lemma delete_counter_wf db key row ss :
  Gcra_wf policies db -> counters db !! key = Some row ->
  capacity_change key (-1) (shards db) = Ok ss ->
  let db' := mkGcraDb (delete key (counters db)) ss in
  Gcra_wf policies db' /\ forall id, observed db' id = observed db id.
Proof.
  intros Hdb Hrow Hch. destruct (capacity_change_Ok _ _ _ _ Hch) as (srow & Hs & -> & Hfit). cbv zeta.
  assert (Hobs : forall id, observed (mkGcraDb (delete key (counters db))
    (<[capacity_shard key := mkShardRow (row_count srow + -1) (observed_at_ms srow)]> (shards db))) id
    = observed db id).
  { intros id. unfold observed. cbn [shards]. destruct (decide (capacity_shard key = id)) as [<-|Hne].
    - by rewrite lookup_insert_eq, Hs.
    - by rewrite lookup_insert_ne. }
  split; [|done]. split.
  - intros id. cbn [shards counters]. rewrite (shard_rows_delete _ _ _ _ Hrow). unfold unit_of.
    pose proof (gw_shards _ db Hdb id) as Hw. destruct (decide (capacity_shard key = id)) as [<-|Hne].
    + rewrite lookup_insert_eq. rewrite Hs in Hw. cbn. destruct Hw as (Hr & Hn & _ & Ho). lia.
    + rewrite lookup_insert_ne by done. rewrite Z.sub_0_r. exact Hw.
  - intros key' row' Hk'. cbn [counters] in Hk'. rewrite Hobs.
    apply lookup_delete_Some in Hk' as [_ Hk']. by apply (gw_rows _ db Hdb).
Qed.

Lemma delete_counters_wf db keys db' :
  Gcra_wf policies db -> NoDup keys -> (forall key, key ∈ keys -> is_Some (counters db !! key)) ->
  delete_counters db keys = Ok db' ->
  Gcra_wf policies db'
  /\ counters db' = foldl (fun ws key => delete key ws) (counters db) keys
  /\ forall id, observed db' id = observed db id.
Proof.
  revert db. induction keys as [|key keys IH]; intros db Hdb Hnd Hall Hdel; cbn in Hdel.
  { injection Hdel as <-. by split_and!. }
  apply NoDup_cons in Hnd as [Hk Hnd]. destruct (Hall key) as [row Hrow]; [by left|].
  destruct (capacity_change key (-1) (shards db)) as [ss|] eqn:Hch; [|done]. rewrite Ok_bind in Hdel.
  destruct (delete_counter_wf db key row ss Hdb Hrow Hch) as [Hwf Hobs].
  destruct (IH _ Hwf Hnd) as (Hwf' & Hc & Hobs'); [|done|].
  - intros key' Hin. cbn [counters]. rewrite lookup_delete_ne by congruence. apply Hall. by right.
  - split_and!; [done|by rewrite Hc|]. intros id. by rewrite Hobs', Hobs.
Qed.

Lemma expired_counters_elem db ids clock key :
  key ∈ snd <$> expired_counters db ids clock ->
  exists row shard, counters db !! key = Some row /\ shards db !! capacity_shard key = Some shard
    /\ expires_at_ms row <= clock shard.
Proof.
  intros ([x key'] & -> & Hin)%list_elem_of_fmap. unfold expired_counters in Hin.
  rewrite merge_sort_Permutation in Hin.
  apply list_elem_of_fmap in Hin as ([key row] & [= -> ->] & Hin).
  apply list_elem_of_filter in Hin as [[_ Hle] Hin]. cbn.
  destruct (shards db !! capacity_shard key) as [shard|]; [|done]. cbn in Hle.
  exists row, shard. split_and!; [by apply elem_of_map_to_list|done|by apply Z.leb_le].
Qed.

Lemma expired_counters_NoDup db ids clock : NoDup (snd <$> expired_counters db ids clock).
Proof.
  unfold expired_counters. rewrite merge_sort_Permutation, <- list_fmap_compose.
  erewrite (list_fmap_ext _ fst) by (by intros ? [key row]).
  eapply sublist_NoDup; [apply (NoDup_fst_map_to_list (counters db))|]. apply fmap_sublist, sublist_filter.
Qed.

Lemma clamped_now_le db ids sample :
  Z.max sample 0 <= clamped_now db ids sample
  /\ (forall id, id ∈ ids -> observed db id <= clamped_now db ids sample)
  /\ forall bound, Z.max sample 0 <= bound -> (forall id, observed db id <= bound) ->
       clamped_now db ids sample <= bound.
Proof.
  unfold clamped_now.
  assert (Hin : forall id row, (id, row) ∈ shards_in_order db ids -> shards db !! id = Some row).
  { unfold shards_in_order. intros id row (id' & _ & (row' & Hr & [= -> ->])%fmap_Some)%list_elem_of_omap. done. }
  assert (Hall : forall id row, shards db !! id = Some row -> id ∈ ids -> (id, row) ∈ shards_in_order db ids).
  { unfold shards_in_order. intros id row Hr Hid. apply list_elem_of_omap. exists id.
    rewrite merge_sort_Permutation, elem_of_remove_dups. split; [done|]. by rewrite Hr. }
  assert (Hmem : forall id, id ∈ ids -> observed db id = 0 \/ exists row, (id, row) ∈ shards_in_order db ids
    /\ observed_at_ms row = observed db id).
  { intros id Hid. unfold observed. destruct (shards db !! id) as [row|] eqn:Hr; [right|by left].
    exists row. split; [by apply Hall|done]. }
  assert (Hobs : forall id row, (id, row) ∈ shards_in_order db ids -> observed_at_ms row = observed db id).
  { intros id row Hr%Hin. unfold observed. by rewrite Hr. }
  clear Hin Hall. revert Hmem Hobs. generalize (shards_in_order db ids) as l. intros l Hmem Hobs.
  assert (Hmax : Z.max sample 0 <= foldr (fun p acc => Z.max (observed_at_ms p.2) acc) (Z.max sample 0) l
    /\ forall id row, (id, row) ∈ l ->
         observed_at_ms row <= foldr (fun p acc => Z.max (observed_at_ms p.2) acc) (Z.max sample 0) l).
  { clear Hmem Hobs. induction l as [|[id row] l [IH1 IH2]]; cbn; [split; [done|by intros ? ? ?%elem_of_nil]|].
    split; [lia|]. intros id' row' [[= -> ->]|Hr]%elem_of_cons; [lia|]. specialize (IH2 _ _ Hr). lia. }
  destruct Hmax as [Hbase Hrows]. split_and!; [done| |].
  - intros id Hid. destruct (Hmem id Hid) as [->|(row & Hr & <-)]; [lia|by eapply Hrows].
  - intros bound Hb Hbound. clear Hbase Hrows Hmem. induction l as [|[id row] l IH]; cbn; [done|].
    pose proof (Hobs id row ltac:(by left)) as Ho. specialize (Hbound id). rewrite <- Ho in Hbound.
    assert (Hl : foldr (fun p acc => Z.max (observed_at_ms p.2) acc) (Z.max sample 0) l <= bound); [|lia].
    apply IH. intros id' row' Hr. apply Hobs. by right.
Qed.
End Tables.

(** * Cleanup *)

Section Cleanup.
Context {E : Type} `{SqlxError E} (policies : PolicyFingerprint -> GcraPolicy).
Context (within : Tick -> Prop) (db : GcraDb) (Hdb : Gcra_wf policies db) (maximum : Z).
Notation triple := (triple (E := E) gcra_answer within).
Notation settles := (settles (E := E) gcra_answer within).

(** Time advances, no further than the server's clock, and what is removed
    has expired by then. *)
Definition advanced (db' : GcraDb) : Prop :=
  Gcra_wf policies db' /\ counters db' = counters db
  /\ (forall id, observed db id <= observed db' id)
  /\ forall bound, 0 <= bound -> (forall t, within t -> sample_ms (started t) <= bound) ->
       (forall id, observed db id <= bound) -> forall id, observed db' id <= bound.

Definition cleaned (removed : Z) (db' : GcraDb) : Prop :=
  exists db1 keys, advanced db1 /\ NoDup keys /\ (length keys <= Z.to_nat maximum)%nat
  /\ removed = Z.of_nat (length keys)
  /\ Gcra_wf policies db' /\ (forall id, observed db' id = observed db1 id)
  /\ counters db' = foldl (fun ws key => delete key ws) (counters db) keys
  /\ forall key, key ∈ keys -> exists row,
       counters db !! key = Some row /\ expires_at_ms row <= observed db' (capacity_shard key).

Lemma advance_advanced ids t :
  within t -> advanced (observe_all db ids (clamped_now db ids (sample_ms (started t)))).
Proof.
  intros Ht. destruct (clamped_now_le db ids (sample_ms (started t))) as (Hge & Hids & Hbound).
  destruct (observe_all_wf policies db ids (clamped_now db ids (sample_ms (started t))) Hdb) as [Hwf Hle];
    [lia|done|].
  split_and!; [done..|]. intros bound Hb Hin Hobs id. rewrite observed_observe_all.
  specialize (Hbound bound). specialize (Hin t Ht).
  case_decide; [|by apply Hobs]. destruct (shards db !! id); [|lia]. apply Hbound; [lia|done].
Qed.

Lemma delete_cleaned db1 ids t w' resp :
  advanced db1 ->
  gcra_answer (E := E) t unit (CLEANUP_DELETE ids maximum) db1 = (w', Ok resp) ->
  cleaned (rows_affected resp) w'.
Proof.
  intros Hadv Ha. pose proof Hadv as (Hwf & Hsame & _ & _). unfold gcra_answer in Ha. cbn [gcra_sql] in Ha.
  set (keys := snd <$> take (Z.to_nat maximum) (expired_counters db1 ids observed_at_ms)) in *.
  assert (Hsub : forall key, key ∈ keys -> key ∈ snd <$> expired_counters db1 ids observed_at_ms).
  { intros key Hk. subst keys. apply list_elem_of_fmap in Hk as (p & -> & Hp).
    apply list_elem_of_fmap_2. by apply subseteq_take in Hp. }
  assert (Hnd : NoDup keys).
  { eapply sublist_NoDup; [apply (expired_counters_NoDup db1 ids observed_at_ms)|].
    apply fmap_sublist, sublist_take. }
  destruct (delete_counters db1 keys) as [db2|code] eqn:Hdel; cbn [updated] in Ha; [|done].
  injection Ha as <- <-.
  destruct (delete_counters_wf policies db1 keys db2 Hwf Hnd) as (Hwf2 & Hc & Hobs); [|done|].
  { intros key Hk%Hsub. apply expired_counters_elem in Hk as (row & _ & Hrow & _). by eexists. }
  exists db1, keys. split_and!; [done..| |done|done|done|by rewrite Hc, Hsame|].
  - subst keys. rewrite length_fmap, length_take. lia.
  - intros key Hk%Hsub. apply expired_counters_elem in Hk as (row & shard & Hrow & Hs & Hle).
    exists row. rewrite Hsame in Hrow. split; [done|]. rewrite Hobs. unfold observed. by rewrite Hs.
Qed.

Lemma gcra_cleanup_settles d :
  settles db (fun _ => True)
    (rows ← cleanup_transaction maximum d; mret (Reusable rows))
    cleaned (fun db' => exists removed, cleaned removed db').
Proof.
  unfold cleanup_transaction, maintenance_before_commit.
  apply settles_assoc. eapply settles_bind; [apply triple_begin|]. intros u. apply settles_at. intros w ->.
  apply settles_assoc. eapply settles_bind; [by apply (triple_maintenance_timeouts gcra_answer)|]. intros u1.
  apply settles_assoc. eapply settles_bind.
  { apply (triple_send gcra_answer within _ (eq db) _ _ _ (fun _ w => db = w)).
    intros t w w' resp _ <- Ha. by injection Ha as <- _. }
  intros locked. apply settles_assoc. apply settles_lift. intros ids _.
  apply settles_assoc. eapply settles_bind; [by apply (triple_maintenance_timeouts gcra_answer)|]. intros u2.
  apply settles_assoc. eapply settles_bind.
  { apply (triple_send gcra_answer within _ (eq db) _ _ _ (fun _ => advanced)).
    intros t w w' resp Ht <- Ha. injection Ha as <- _. by apply advance_advanced. }
  intros r2. apply settles_assoc. eapply settles_bind; [by apply (triple_maintenance_timeouts gcra_answer)|].
  intros u3. apply settles_assoc. eapply settles_bind.
  { apply (triple_send gcra_answer within _ advanced _ _ _ (fun resp => cleaned (rows_affected resp))).
    intros t w w' resp _ Hw Ha. by apply (delete_cleaned w ids t). }
  intros deleted. apply settles_assoc.
  apply (settles_maintenance gcra_answer within db _ d (rows_affected deleted)).
  intros w Hw. split; [done|by eexists].
Qed.

Lemma gcra_cleanup_call_settles self env :
  served_env (E := E) gcra_answer within env -> maximum <> 0 ->
  call_settles db (cleanup self db env maximum) cleaned (fun db' => exists removed, cleaned removed db').
Proof.
  intros Henv Hn. unfold cleanup. destruct (Z.eqb_spec maximum 0); [done|].
  destruct (acquire_maintenance_connection _); [|by left].
  apply (guarded_call_settles gcra_answer within db env); [|done]. apply gcra_cleanup_settles.
Qed.
End Cleanup.
