(* ===== verification/PgGcraRate.v ===== *)
(** What PostgreSQL GCRA limiters sharing one database admit over any run of
    calls, and the invariant of their tables: with replies lost, deadlines
    passing, commits left uncertain and the server's clock jumping back. *)

From Stdlib Require Import Ascii String Sorting.Sorted.
From stdpp Require Import prelude list gmap sorting.
From S2P Require Import Prelude RustStd Identifier Policy Decision AttemptPolicy Key Check Observation OrdSet Shards Gcra Counters Limiter Ledger Windows MemGcra MemGcraTrace PgErrors PgConfig PgSession PgTables PgLedger PgAdmission PgMaintenance PgInvariant PgConnection PgLimiter PgSpec PgHonest PgServed PgRefine PgEffect PgCharges PgLocks PgGcra PgGcraSpec PgGcraTables PgGcraRefine PgGcraEffect.
Open Scope Z_scope.
Open Scope list_scope.
Import PostgresGcra.

(** One call of any limiter on the database. *)
Inductive gcra_call (E : Type) :=
| GcraCheck_ (self : PostgresGcraLimiter) (env : PgEnv E GcraDb (GcraQuery E)) (c : GcraCheck)
| GcraBatch (self : PostgresGcraLimiter) (env : PgEnv E GcraDb (GcraQuery E)) (checks : list GcraCheck)
| GcraCleanup (self : PostgresGcraLimiter) (env : PgEnv E GcraDb (GcraQuery E)) (maximum_rows : Z).
Arguments GcraCheck_ {E} _ _ _.
Arguments GcraBatch {E} _ _ _.
Arguments GcraCleanup {E} _ _ _.

(** A call, and a span of the server's clock, in milliseconds, that holds
    the times it samples. *)
Record timed_gcra (E : Type) := mkTimedGcra {
  tg_from : Z;
  tg_until : Z;
  tg_call : gcra_call E;
}.
Arguments mkTimedGcra {E} _ _ _.
Arguments tg_from {E} _.
Arguments tg_until {E} _.
Arguments tg_call {E} _.

Definition sampled (from until : Z) (t : Tick) : Prop := from <= sample_ms (started t) <= until.

Section Calls.
Context {E : Type} `{SqlxError E} (policies : PolicyFingerprint -> GcraPolicy).
Notation gcra_call := (gcra_call E).
Notation timed_gcra := (timed_gcra E).

Definition gcra_env (call : gcra_call) : PgEnv E GcraDb (GcraQuery E) :=
  match call with GcraCheck_ _ env _ | GcraBatch _ env _ | GcraCleanup _ env _ => env end.
Definition gcra_limiter (call : gcra_call) : PostgresGcraLimiter :=
  match call with GcraCheck_ self _ _ | GcraBatch self _ _ | GcraCleanup self _ _ => self end.
Definition gcra_checks (call : gcra_call) : list GcraCheck :=
  match call with GcraCheck_ _ _ c => [c] | GcraBatch _ _ cs => cs | GcraCleanup _ _ _ => [] end.

Definition gcra_call_db (db : GcraDb) (call : gcra_call) : GcraDb :=
  match call with
  | GcraCheck_ self env c => ce_db db (check self db env c).1
  | GcraBatch self env checks => ce_db db (check_all self db env checks).1
  | GcraCleanup self env maximum_rows => ce_db db (cleanup_expired self db env maximum_rows).1
  end.

(** The checks a call's result says were admitted and charged. *)
Definition gcra_acknowledged (db : GcraDb) (call : gcra_call) : list GcraCheck :=
  match call with
  | GcraCheck_ self env c =>
      match ce_result (check self db env c).1 with
      | Done (Ok d) => match Decision_view d with DecisionView_Allowed _ => [c] | _ => [] end
      | _ => []
      end
  | GcraBatch self env checks =>
      match ce_result (check_all self db env checks).1 with
      | Done (Ok d) => match BatchDecision_view d with BatchDecisionView_Allowed _ => checks | _ => [] end
      | _ => []
      end
  | GcraCleanup _ _ _ => []
  end.

(** The latest time the server's clock has shown. *)
Definition latest (T : Z) (call : timed_gcra) : Z := Z.max T (tg_until call).

(** Calls a program can make, while the server's clock is within [bound]. *)
Record gcra_call_ok (bound : Z) (call : timed_gcra) : Prop := {
  gc_config : PostgresConfig_wf (config (gcra_limiter (tg_call call)));
  gc_checks : Forall (gcra_ok policies) (gcra_checks (tg_call call));
  gc_clock : tg_until call <= bound;
  gc_served : served_env gcra_answer (sampled (tg_from call) (tg_until call)) (gcra_env (tg_call call));
}.

(** The tables are well formed and no shard is ahead of the clock. *)
Definition on_time (T : Z) (db : GcraDb) : Prop :=
  Gcra_wf policies db /\ 0 <= T /\ forall id, observed db id <= T.

Lemma admission_time_bound db ids sample bound :
  sample <= bound -> (forall id, observed db id <= bound) -> admission_time db ids sample <= bound.
Proof.
  intros Hs Hobs. unfold admission_time. revert sample Hs.
  induction ids as [|id ids IH]; intros sample Hs; cbn; [done|]. apply IH. specialize (Hobs id). lia.
Qed.

Section Effect.
Context (T bound : Z) (Hbound : bound + MAX_WINDOW_MILLIS <= i64_max).
Context (db : GcraDb) (Hdb : on_time T db) (HT : T <= bound).

(** What a call does to the committed tables, and what its caller is told:
    nothing; all its checks charged at a time from its span on, or cleanup. *)
Definition gcra_effect (call : timed_gcra) (db' : GcraDb) : Prop :=
  let checks := gcra_checks (tg_call call) in
  let acknowledged := gcra_acknowledged db (tg_call call) in
  (db' = db /\ acknowledged = [])
  \/ (exists sample maximum, sampled (tg_from call) (tg_until call) sample
      /\ maximum <= HARD_MAX_ROWS_PER_SHARD /\ NoDup (Check_counter_key <$> checks)
      /\ refused db (batch_time db checks sample) maximum [] 0 checks = None
      /\ db' = charge_batch db (batch_time db checks sample) checks
      /\ (acknowledged = [] \/ acknowledged = checks))
  \/ (checks = [] /\ acknowledged = []
      /\ exists maximum removed,
           cleaned policies (sampled (tg_from call) (tg_until call)) db maximum removed db').

Lemma batch_time_room call checks t :
  gcra_call_ok bound call -> sampled (tg_from call) (tg_until call) t ->
  batch_time db checks t + MAX_WINDOW_MILLIS <= i64_max.
Proof.
  intros Hok [_ Ht]. destruct Hdb as (_ & _ & Hobs). pose proof (gc_clock _ _ Hok).
  assert (batch_time db checks t <= bound); [|lia]. apply admission_time_bound; [lia|].
  intros id. specialize (Hobs id). lia.
Qed.

(** A settled admission in terms of its checks. *)
Lemma decided_gcra_effect {D} within maximum checks (build : Admission -> Result (CheckError E) D) d db' :
  decided within db checks maximum build d db' ->
  (exists admission, build admission = Ok d /\ db' = db
     /\ forall allowances, admission <> Admission_Allowed allowances)
  \/ exists sample, within sample
       /\ refused db (batch_time db checks sample) maximum [] 0 checks = None
       /\ db' = charge_batch db (batch_time db checks sample) checks.
Proof.
  intros (sample & Hin & Hd). unfold admit_gcra in Hd.
  destruct (refused _ _ _ _ _ _) as [admission|] eqn:Hr; destruct Hd as [Hb ->].
  - left. exists admission. split_and!; [done..|]. intros allowances ->.
    destruct (refused_index _ _ _ _ _ _ _ Hr) as (i & Hi & _). done.
  - right. by exists sample.
Qed.

Lemma singleton_gcra_ok c : gcra_ok policies c -> gcra_batch_ok policies [c].
Proof. intros Hc. split; [done|apply NoDup_singleton|by constructor]. Qed.

Lemma gcra_call_effect call :
  gcra_call_ok bound call -> gcra_effect call (gcra_call_db db (tg_call call)).
Proof.
  intros Hok. pose proof Hdb as (Hwf & _ & _). pose proof (gc_config _ _ Hok) as Hcfg.
  pose proof (proj2 (pc_rows _ Hcfg)) as Hmax. pose proof (gc_served _ _ Hok) as Henv.
  pose proof (gc_checks _ _ Hok) as Hchecks.
  pose proof (fun checks t => batch_time_room call checks t Hok) as Hroom.
  unfold gcra_effect. destruct (tg_call call) as [self env c|self env cs|self env n]; cbn in *.
  - apply Forall_cons in Hchecks as [Hc _].
    pose proof (run_settles policies _ db Hwf self env [c] single_decision (singleton_gcra_ok c Hc) Hmax
      (Hroom [c]) Henv) as Hs.
    unfold check. cbn [fst]. unfold call_settles in Hs.
    destruct (ce_result _) as [[d|e]|]; [| |done].
    + destruct (decided_gcra_effect _ _ _ _ _ _ Hs) as [(adm & Hb & -> & Hna)|(t & Ht & Hr & ->)].
      * left. split; [done|]. destruct (Decision_view d) eqn:Hv; [|done..].
        destruct (single_allowed _ _ Hb) as [l ->]; [by eexists|by destruct (Hna l)].
      * right. left. exists t. eexists. split_and!; [done|done|apply NoDup_singleton|done|done|].
        destruct (Decision_view d); auto.
    + destruct Hs as [->|(t & Ht & Hr & ->)]; [by left|].
      right. left. exists t. eexists. split_and!; [done|done|apply NoDup_singleton|done|done|by left].
  - unfold check_all. cbn [fst]. destruct (validate_batch cs _) as [[]|e] eqn:Hv; [|by left].
    pose proof Hv as (Hl & Hnd & _)%validate_batch_ok.
    assert (Hne : cs <> []) by (by destruct cs; [cbn in Hl; lia|]).
    pose proof (run_settles policies _ db Hwf self env cs (batch_decision (length cs))
      (Build_gcra_batch_ok _ _ Hne Hnd Hchecks) Hmax (Hroom cs) Henv) as Hs.
    unfold call_settles in Hs. destruct (run _ _ _ _ _) as [r sess]. unfold ce_db in *. cbn in *.
    destruct r as [[d|e]|]; [| |done].
    + destruct (decided_gcra_effect _ _ _ _ _ _ Hs) as [(adm & Hb & -> & Hna)|(t & Ht & Hr & ->)].
      * left. split; [done|]. cbn. destruct (BatchDecision_view d) eqn:Hview; [|done..].
        destruct (batch_allowed _ _ _ Hb) as [l ->]; [by eexists|by destruct (Hna l)].
      * right. left. exists t. eexists. split_and!; [done..|]. cbn. destruct (BatchDecision_view d); auto.
    + destruct Hs as [->|(t & Ht & Hr & ->)]; [by left|].
      right. left. exists t. eexists. split_and!; [done..|by left].
  - unfold cleanup_expired. cbn [fst]. destruct (Z.eq_dec n 0) as [->|Hn]; [by left|].
    pose proof (gcra_cleanup_call_settles policies _ db Hwf n self env Henv Hn) as Hs.
    unfold call_settles in Hs. destruct (ce_result _) as [[d|e]|]; [| |done].
    + right. right. split_and!; [done|done|]. by exists n, d.
    + destruct Hs as [->|[removed Hc]]; [by left|]. right. right. split_and!; [done|done|]. by exists n, removed.
Qed.

(** Every call keeps the tables well formed and on time. *)
Lemma gcra_effect_on_time call db' :
  gcra_call_ok bound call -> gcra_effect call db' -> on_time (latest T call) db'.
Proof.
  intros Hok. pose proof Hdb as (Hwf & H0 & Hobs). unfold on_time, latest.
  assert (Hlater : forall id, observed db id <= Z.max T (tg_until call)).
  { intros id. specialize (Hobs id). lia. }
  intros [[-> _]|[Hcharge|Hclean]].
  - split_and!; [done|lia|done].
  - destruct Hcharge as (sample & maximum & Hin & Hmax & Hnd & Hr & -> & _).
    pose proof (gc_checks _ _ Hok) as Hchecks.
    pose proof (batch_ready policies db _ sample Hchecks) as Hready.
    assert (Hnow : batch_time db (gcra_checks (tg_call call)) sample <= Z.max T (tg_until call)).
    { apply admission_time_bound; [destruct Hin; lia|done]. }
    split; [|split; [lia|]].
    + apply (charge_batch_wf policies db Hwf _ (batch_time_room call _ _ Hok Hin) _ maximum); [done..| |done].
      intros c Hc. by apply (proj1 (Forall_forall _ _) Hready).
    + intros id. rewrite charge_batch_observed. case_decide; [|done].
      destruct (shards db !! id); [done|lia].
  - destruct Hclean as (_ & _ & n & removed & db1 & keys & Hadv & _ & _ & _ & Hwf' & Hobs' & _).
    destruct Hadv as (_ & _ & _ & Hle). split_and!; [done|lia|]. intros id. rewrite Hobs'.
    apply Hle; [lia| |done]. intros t [_ Ht]. lia.
Qed.
End Effect.

(** * Runs *)

Context (bound : Z) (Hbound : bound + MAX_WINDOW_MILLIS <= i64_max).

(** The reports on the counter [k]: what acknowledged calls admitted to it,
    within the span from the start of the call to the latest time the
    server's clock has shown. *)
Definition gcra_reports (k : CounterKey) (T : Z) (db : GcraDb) (call : timed_gcra) : list report :=
  (fun c => (tg_from call, latest T call, check_cost c))
  <$> filter (fun c => Check_counter_key c = k) (gcra_acknowledged db (tg_call call)).

(** The clock, the committed tables and the reports, newest first, after a
    run. *)
Fixpoint pg_gcra_run (k : CounterKey) (T : Z) (db : GcraDb) (rs : list report) (calls : list timed_gcra)
    : Z * GcraDb * list report :=
  match calls with
  | [] => (T, db, rs)
  | call :: calls =>
      pg_gcra_run k (latest T call) (gcra_call_db db (tg_call call)) (gcra_reports k T db call ++ rs) calls
  end.

(** ** What the tables were charged

    What the change of a counter's row at [now] charges it, in scaled units:
    how far its arrival time moves on from where it was, or from [now] if
    that is later. *)
Definition gcra_row_charge (q now : Z) (before after : option CounterRow) : Z :=
  match after with
  | None => 0
  | Some row =>
      let stored := tat_scaled <$> before in
      if bool_decide (stored = Some (tat_scaled row)) then 0
      else tat_scaled row - Z.max (default (now * q) stored) (now * q)
  end.

(** The charge a call committed to the row of [k], whatever its caller was
    told, at the time the call stored for the counter's shard. *)
Definition gcra_writes (k : CounterKey) (q : Z) (db : GcraDb) (call : timed_gcra) : list (Z * Z) :=
  let db' := gcra_call_db db (tg_call call) in
  let now := observed db' (capacity_shard k) in
  let amount := gcra_row_charge q now (counters db !! k) (counters db' !! k) in
  if amount =? 0 then [] else [(now, amount)].

(** All charges a run committed to the row of [k], newest first. *)
Fixpoint pg_gcra_writes (k : CounterKey) (q : Z) (db : GcraDb) (ws : list (Z * Z)) (calls : list timed_gcra)
    : list (Z * Z) :=
  match calls with
  | [] => ws
  | call :: calls =>
      pg_gcra_writes k q (gcra_call_db db (tg_call call)) (gcra_writes k q db call ++ ws) calls
  end.

Lemma gcra_writes_none k q db call :
  counters (gcra_call_db db (tg_call call)) !! k = counters db !! k
  \/ counters (gcra_call_db db (tg_call call)) !! k = None ->
  gcra_writes k q db call = [].
Proof.
  unfold gcra_writes, gcra_row_charge. intros [-> | ->]; [|done].
  destruct (counters db !! k) as [row|]; [|done]. cbn. by rewrite bool_decide_eq_true_2.
Qed.

Section Counter.
Context (k : CounterKey) (q w b : Z) (Hq : 1 <= q) (Hw : 1 <= w) (Hb : 1 <= b).

(** The checks of the counter agree on its quota [q] per [w] milliseconds
    and its burst [b]. *)
Definition gcra_own (c : GcraCheck) : Prop := Check_counter_key c = k -> gcra_keyed q w b c.

(** The stored arrival time of the counter accounts for its charges. *)
Definition gcra_accounted (db : GcraDb) (charges : list (Z * Z)) : Prop :=
  exists cur, gcra_acct q w b charges cur
  /\ (forall y, y ∈ charges -> y.1 <= observed db (capacity_shard k) /\ 0 <= y.2)
  /\ match counters db !! k with
     | Some row => cur = Some (tat_scaled row, expires_at_ms row)
     | None => forall tat x, cur = Some (tat, x) -> x <= observed db (capacity_shard k)
     end.

(** What a check meets is the account's arrival time, unless expired. *)
Lemma active_account db now c cur :
  Check_counter_key c = k -> observed db (capacity_shard k) <= now ->
  match counters db !! k with
  | Some row => cur = Some (tat_scaled row, expires_at_ms row)
  | None => forall tat x, cur = Some (tat, x) -> x <= observed db (capacity_shard k)
  end ->
  active db now c = (fst <$> (cur ≫= expire now)).
Proof.
  intros Hk Hnow Hcur. unfold active, counter. rewrite Hk. unfold expire.
  destruct (counters db !! k) as [row|].
  - subst cur. cbn. by destruct (now <? expires_at_ms row).
  - destruct cur as [[tat x]|]; [|done]. specialize (Hcur tat x eq_refl). cbn.
    destruct (Z.ltb_spec now x); [lia|done].
Qed.

(** A charge in the units of an arrival time. *)
Definition scaled (y : Z * Z) : Z * Z := (y.1, y.2 * w).

(** An admitted check of the counter extends its account. *)
Lemma gcra_accounted_charge db charges now c db' :
  Gcra_wf policies db -> gcra_accounted db charges -> gcra_ok policies c -> gcra_own c ->
  Check_counter_key c = k -> observed db (capacity_shard k) <= now -> now + MAX_WINDOW_MILLIS <= i64_max ->
  admitted db now c -> counters db' !! k = Some (charged_row db now c) ->
  observed db' (capacity_shard k) = now ->
  gcra_accounted db' ((now, check_cost c) :: charges).
Proof.
  intros Hdb (cur & Hacct & Hle & Hcur) Hc Hown Hk Hobs Hroom [pa Hv] Hrow Hnow.
  assert (Hshard : shard_of c = capacity_shard k) by (unfold shard_of; by rewrite Hk).
  pose proof (active_account db now c cur Hk Hobs Hcur) as Hactive.
  assert (Hobs' : observed db (shard_of c) <= now) by (by rewrite Hshard).
  destruct (active_reachable policies db Hdb c now Hc Hobs') as [Hreach _].
  pose proof (observed_nonneg policies db Hdb (capacity_shard k)) as H0.
  rewrite MAX_WINDOW_MILLIS_val in Hroom.
  assert (Hstep : GcraStore.gcra_step c now (cur ≫= expire now)
    = VAllow (Gcra.tat_scaled pa, expires_at_millis pa) (Gcra.pending_allowance pa)).
  { unfold GcraStore.gcra_step. rewrite <- Hactive.
    rewrite evaluate_spec; [|apply Hc|unfold in_u64; unfold_widths; lia|done].
    change (evaluate_exact c now (active db now c)) with (verdict db now c). by rewrite Hv. }
  exists (Some (Gcra.tat_scaled pa, expires_at_millis pa)). split_and!.
  - apply (ac_step _ _ (gcra_account q w b Hq Hw Hb) charges cur c now _ (Gcra.pending_allowance pa));
      [done| |apply Hc|by apply Hown|exact Hstep].
    intros y Hy. specialize (Hle y Hy). lia.
  - rewrite Hnow. pose proof (gcra_check_facts c (go_valid _ _ Hc)) as [_ _ _ Hcost _].
    intros y [->|Hy]%elem_of_cons; cbn; [lia|]. specialize (Hle y Hy). lia.
  - rewrite Hrow. unfold charged_row, charge. by rewrite Hv.
Qed.

(** An admitted check moves the arrival time by exactly its cost. *)
Lemma gcra_row_charge_admitted db charges now c :
  gcra_accounted db charges -> gcra_ok policies c -> gcra_own c -> Check_counter_key c = k ->
  admitted db now c ->
  gcra_row_charge q now (counters db !! k) (Some (charged_row db now c)) = check_cost c * w.
Proof.
  intros (cur & [_ Hcover] & _ & Hcur) Hc Hown Hk [pa Hv]. destruct (Hown Hk) as (Hcq & Hcw & _).
  pose proof (gcra_check_facts c (go_valid _ _ Hc)) as [_ _ _ Hcost _].
  assert (Htat : tat_scaled (charged_row db now c)
    = active_tat (check_policy c) now (active db now c) + check_cost c * w).
  { unfold charged_row, charge. rewrite Hv. unfold verdict in Hv.
    destruct (evaluate_exact_cases c now (active db now c)) as [[_ Heq]|[_ Heq]];
      rewrite Heq in Hv; [done|]. injection Hv as <-. cbn. by rewrite Hcw. }
  assert (Hactive : active_tat (check_policy c) now (active db now c)
    = Z.max (default (now * q) (tat_scaled <$> counters db !! k)) (now * q)).
  { unfold active_tat, active, counter. rewrite Hk, Hcq.
    destruct (counters db !! k) as [row|]; [|done]. subst cur. destruct Hcover as [Hx _]. cbn.
    destruct (Z.ltb_spec now (expires_at_ms row)); cbn; [done|nia]. }
  unfold gcra_row_charge. rewrite Htat, Hactive.
  rewrite bool_decide_eq_false_2; [lia|]. intros Hsame.
  destruct (counters db !! k) as [row|]; [|done]. cbn in Hsame. injection Hsame as Hsame. nia.
Qed.

(** The stored arrival time covers the charges. *)
Lemma gcra_accounted_covers db charges : gcra_accounted db charges ->
  forall a e, charged_in a e charges * w + a * q
    <= Z.max (default (observed db (capacity_shard k) * q) (tat_scaled <$> counters db !! k)) (a * q).
Proof.
  intros (cur & [_ Hcover] & _ & Hcur) a e. destruct (counters db !! k) as [row|]; cbn.
  - subst cur. apply Hcover.
  - destruct cur as [[tat x]|]; [|subst charges; unfold charged_in; cbn; lia].
    destruct Hcover as [Hx Hcover]. specialize (Hcover a e). specialize (Hcur tat x eq_refl). nia.
Qed.

(** Cleanup keeps the account. *)
Lemma gcra_accounted_cleaned db charges within maximum removed db' :
  gcra_accounted db charges -> cleaned policies within db maximum removed db' -> gcra_accounted db' charges.
Proof.
  intros (cur & Hacct & Hle & Hcur) (db1 & keys & (_ & _ & Hmono & _) & _ & _ & _ & _ & Hobs & Hc & Hexp).
  assert (Hge : observed db (capacity_shard k) <= observed db' (capacity_shard k)) by (rewrite Hobs; apply Hmono).
  exists cur. split_and!; [done| |].
  - intros y Hy. specialize (Hle y Hy). lia.
  - rewrite Hc, foldl_delete_lookup. case_decide as Hin.
    + destruct (Hexp k Hin) as (row & Hrow & Hx). rewrite Hrow in Hcur. subst cur. by intros tat x [= <- <-].
    + destruct (counters db !! k); [done|]. intros tat x Hx. specialize (Hcur tat x Hx). lia.
Qed.

Lemma gcra_cleaned_row db within maximum removed db' :
  cleaned policies within db maximum removed db' ->
  counters db' !! k = counters db !! k \/ counters db' !! k = None.
Proof.
  intros (db1 & keys & _ & _ & _ & _ & _ & _ & -> & _). rewrite foldl_delete_lookup.
  case_decide; [by right|by left].
Qed.

(** One call extends the account, its reports and what it wrote. *)
Lemma gcra_call_accounted T db charges rs ws call :
  on_time T db -> T <= bound -> gcra_call_ok bound call ->
  Forall gcra_own (gcra_checks (tg_call call)) ->
  gcra_accounted db charges -> reported_by rs charges -> ws = scaled <$> charges ->
  exists charges', gcra_accounted (gcra_call_db db (tg_call call)) charges'
    /\ reported_by (gcra_reports k T db call ++ rs) charges'
    /\ gcra_writes k q db call ++ ws = scaled <$> charges'.
Proof.
  intros Hdb HT Hok Hown Hacc Hrs Hws. pose proof Hdb as (Hwf & H0 & Hobs). unfold gcra_reports.
  destruct (gcra_call_effect T bound Hbound db Hdb HT call Hok) as [[Heq ->]|[Hcharge|Hclean]].
  - exists charges. rewrite gcra_writes_none by (left; by rewrite Heq). by rewrite Heq.
  - destruct Hcharge as (sample & maximum & Hin & Hmax & Hnd & Hr & Heq & Hack).
    set (checks := gcra_checks (tg_call call)) in *. set (now := batch_time db checks sample) in *.
    pose proof (gc_checks _ _ Hok) as Hchecks. fold checks in Hchecks.
    pose proof (batch_time_room T bound Hbound db Hdb HT call checks sample Hok Hin) as Hroom.
    fold now in Hroom.
    assert (Hspan : tg_from call <= now <= latest T call).
    { split; [etrans; [apply Hin|]; apply admission_time_le|].
      unfold latest. apply admission_time_bound; [destruct Hin; lia|]. intros id. specialize (Hobs id). lia. }
    pose proof (foldl_insert_lookup (charged_row db now) (counters db) checks k Hnd) as Hlook.
    pose proof (own_checks k checks Hnd) as Hfilter.
    destruct (list_find _ checks) as [[i c]|] eqn:Hf.
    + apply list_find_Some in Hf as (Hc & Hck & _).
      pose proof (Forall_lookup_1 _ _ _ _ Hchecks Hc) as Hcok.
      pose proof (Forall_lookup_1 _ _ _ _ Hown Hc) as Hcown.
      pose proof (Forall_lookup_1 _ _ _ _ (not_refused_admitted _ _ _ _ _ _ Hr) Hc) as Hadm.
      pose proof (Forall_lookup_1 _ _ _ _ (batch_ready policies db checks sample Hchecks) Hc) as [_ Hco].
      fold now in Hco. unfold shard_of in Hco. rewrite Hck in Hco.
      assert (Hnow : observed (gcra_call_db db (tg_call call)) (capacity_shard k) = now).
      { rewrite Heq, charge_batch_observed. rewrite decide_True.
        - pose proof (gcra_shard_range policies c Hcok) as Hrange. unfold shard_of in Hrange. rewrite Hck in Hrange.
          by destruct (shard_present policies db Hwf _ Hrange) as (row & -> & _).
        - rewrite <- Hck. apply (list_elem_of_fmap_2 shard_of). by apply list_elem_of_lookup_2 in Hc. }
      assert (Hrow : counters (gcra_call_db db (tg_call call)) !! k = Some (charged_row db now c))
        by (by rewrite Heq).
      exists ((now, check_cost c) :: charges). split_and!.
      * by apply (gcra_accounted_charge db charges now c).
      * destruct Hack as [-> | ->]; [by apply reported_by_skip|]. rewrite Hfilter.
        apply reported_by_cons; [|done]. by split.
      * unfold gcra_writes. rewrite Hrow, Hnow, (gcra_row_charge_admitted db charges now c) by done.
        pose proof (gcra_check_facts c (go_valid _ _ Hcok)) as [_ _ _ Hcost _].
        destruct (Z.eqb_spec (check_cost c * w) 0); [nia|]. by rewrite Hws.
    + assert (Hrow : counters (gcra_call_db db (tg_call call)) !! k = counters db !! k) by (by rewrite Heq).
      exists charges. rewrite gcra_writes_none by (by left). split_and!; [| |done].
      * rewrite Heq in *. destruct Hacc as (cur & Hacct & Hle & Hcur).
        pose proof (charge_batch_observed_ge db now checks) as Hmono.
        assert (Hge : observed db (capacity_shard k) <= observed (charge_batch db now checks) (capacity_shard k)).
        { apply Hmono. intros c Hc.
          by apply (proj1 (Forall_forall _ _) (batch_ready policies db checks sample Hchecks)). }
        exists cur. split_and!; [done| |].
        -- intros y Hy. specialize (Hle y Hy). lia.
        -- rewrite Hrow. destruct (counters db !! k); [done|]. intros tat x Hx. specialize (Hcur tat x Hx). lia.
      * destruct Hack as [-> | ->]; [done|]. by rewrite Hfilter.
  - destruct Hclean as (_ & -> & n & removed & Hclean). exists charges.
    rewrite gcra_writes_none by (by eapply gcra_cleaned_row).
    split; [by eapply gcra_accounted_cleaned|done].
Qed.

Lemma gcra_run_accounted T db charges rs ws calls :
  on_time T db -> T <= bound ->
  Forall (fun call => gcra_call_ok bound call /\ Forall gcra_own (gcra_checks (tg_call call))) calls ->
  gcra_accounted db charges -> reported_by rs charges -> ws = scaled <$> charges ->
  let '(T', db', rs') := pg_gcra_run k T db rs calls in
  exists charges', gcra_accounted db' charges' /\ reported_by rs' charges'
    /\ pg_gcra_writes k q db ws calls = scaled <$> charges'.
Proof.
  revert T db charges rs ws. induction calls as [|call calls IH];
    intros T db charges rs ws Hdb HT Hcalls Hacc Hrs Hws.
  { by exists charges. }
  apply Forall_cons in Hcalls as [[Hok Hown] Hcalls].
  destruct (gcra_call_accounted T db charges rs ws call Hdb HT Hok Hown Hacc Hrs Hws)
    as (charges' & Hacc' & Hrs' & Hws').
  cbn [pg_gcra_run pg_gcra_writes]. apply (IH _ _ charges'); [|unfold latest; pose proof (gc_clock _ _ Hok); lia|done..].
  apply (gcra_effect_on_time T bound Hbound db Hdb HT call _ Hok).
  by apply (gcra_call_effect T bound Hbound db Hdb HT).
Qed.
End Counter.

Lemma GcraDb_new_on_time : on_time 0 GcraDb_new.
Proof.
  split_and!; [apply GcraDb_new_wf|done|]. intros id. unfold observed, GcraDb_new. cbn [shards].
  destruct (_ !! id) as [row|] eqn:Hr; [|done]. apply elem_of_list_to_map_2 in Hr.
  by apply list_elem_of_fmap in Hr as (n & [= -> ->] & _).
Qed.

(** C18. The rate bound of a shared PostgreSQL GCRA database. Let any
    limiters on freshly migrated tables make any calls, with any checks and
    batches of any counters and any cleanups; let replies be lost, the
    client's and the server's clocks jump back, deadlines pass and commits go
    unacknowledged whether they took effect or not. As long as the server
    answers from its tables, the charges committed to the row of a counter of
    quota [q] per [w] milliseconds and burst [b], read off the tables before
    and after each call, acknowledged or not, are whole costs; their sum in
    any interval of the tables' own time is at most the burst plus what the
    quota replenishes in it; the stored arrival time, or the time of the
    shard if the row is gone, covers all of them; every allowance a caller
    ever got is one of them, and callers are told of no more than that bound
    between the start of their calls and the latest time the server has
    shown. *)
Theorem pg_gcra_rate_bound (k : CounterKey) (q w b : Z) (calls : list timed_gcra)
    (Hq : 1 <= q) (Hw : 1 <= w) (Hb : 1 <= b) (Hrange : 0 <= bound)
    (Hcalls : Forall (fun call => gcra_call_ok bound call
       /\ Forall (gcra_own k q w b) (gcra_checks (tg_call call))) calls) :
  let '(T, db, rs) := pg_gcra_run k 0 GcraDb_new [] calls in
  exists charges,
    pg_gcra_writes k q GcraDb_new [] calls = (fun '(time, cost) => (time, cost * w)) <$> charges
    /\ (forall a e, charged_in a e charges * w + a * q
         <= Z.max (default (observed db (capacity_shard k) * q) (tat_scaled <$> counters db !! k)) (a * q))
    /\ reported_by rs charges
    /\ forall a e, a <= e ->
         charged_in a e charges * w <= b * w + (e - a) * q
         /\ reported_in a e rs * w <= b * w + (e - a) * q.
Proof.
  pose proof (gcra_run_accounted k q w b Hq Hw Hb 0 GcraDb_new [] [] [] calls GcraDb_new_on_time Hrange Hcalls)
    as Hrun.
  destruct (pg_gcra_run k 0 GcraDb_new [] calls) as [[T db] rs]. destruct Hrun as (charges & Hacc & Hrs & Hws).
  - exists None. split_and!; [by apply (ac_nil _ _ (gcra_account q w b Hq Hw Hb))|by intros y ?%not_elem_of_nil|].
    cbn [GcraDb_new counters]. by rewrite lookup_empty.
  - apply reported_by_nil.
  - done.
  - exists charges. split; [rewrite Hws; by apply list_fmap_ext; intros ? [? ?]|].
    split; [by apply (gcra_accounted_covers k q w b)|split; [done|]].
    destruct Hacc as (cur & [Hint _] & Hpos & _). intros a e Hae.
    specialize (Hint a e Hae). split; [done|].
    pose proof (reported_le a e rs charges (fun y Hy => proj2 (Hpos y Hy)) Hrs). nia.
Qed.

(** The tables after any run are well formed and on time. *)
Lemma gcra_run_on_time (calls : list timed_gcra) :
  0 <= bound -> Forall (gcra_call_ok bound) calls ->
  on_time (foldl latest 0 calls) (foldl (fun db call => gcra_call_db db (tg_call call)) GcraDb_new calls)
  /\ foldl latest 0 calls <= bound.
Proof.
  intros Hrange Hcalls.
  induction calls as [|call calls IH] using rev_ind; [split; [apply GcraDb_new_on_time|done]|].
  apply Forall_app in Hcalls as [Hcalls [Hok _]%Forall_cons]. destruct (IH Hcalls) as [Hdb HT].
  rewrite !foldl_app. cbn [foldl]. split; [|unfold latest at 1; pose proof (gc_clock _ _ Hok); lia].
  apply (gcra_effect_on_time (foldl latest 0 calls) bound Hbound _ Hdb HT call _ Hok).
  by apply (gcra_call_effect (foldl latest 0 calls) bound Hbound _ Hdb HT call Hok).
Qed.

(** The invariant of the GCRA tables. After any such calls the ledger row
    of each of the 256 shards counts exactly the shard's counters, at most
    65,536 of them, so that there are never more than 16,777,216, and no
    shard is ahead of the latest time the server has shown; every stored
    expiry is the arrival time rounded up to milliseconds, and every arrival
    time is within its policy's burst of the time of its shard. *)
Theorem pg_gcra_tables_exact (calls : list timed_gcra) (Hrange : 0 <= bound)
    (Hcalls : Forall (gcra_call_ok bound) calls) :
  let db := foldl (fun db call => gcra_call_db db (tg_call call)) GcraDb_new calls in
  (forall id, match shards db !! id with
     | Some row => 0 <= id <= 255 /\ row_count row = shard_rows (counters db) id
         /\ row_count row <= HARD_MAX_ROWS_PER_SHARD
         /\ 0 <= observed_at_ms row <= foldl latest 0 calls
     | None => ~ 0 <= id <= 255
     end)
  /\ Z.of_nat (size (counters db)) <= 16777216
  /\ map_Forall (fun key row =>
       let p := policies (ck_fingerprint key) in
       expires_at_ms row = div_ceil (tat_scaled row) (gcra_quota p)
       /\ 0 <= tat_scaled row <= observed db (capacity_shard key) * gcra_quota p + gcra_span p) (counters db).
Proof.
  pose proof (gcra_run_on_time calls Hrange Hcalls) as Hrun.
  destruct Hrun as [(Hwf & _ & Hobs) _]. cbv zeta. set (db := foldl _ GcraDb_new calls) in *.
  split_and!.
  - intros id. pose proof (gw_shards _ _ Hwf id) as Hs. specialize (Hobs id). unfold observed in Hobs.
    destruct (shards db !! id) as [row|]; [|done]. cbn in Hobs. lia.
  - rewrite size_by_shard; [|intros key [row Hrow]; by apply (gw_rows _ _ Hwf key row)].
    etrans; [apply (zsum_map_le _ (fun _ => HARD_MAX_ROWS_PER_SHARD))|].
    + intros id Hid. apply elem_of_seqZ in Hid.
      destruct (shard_present _ _ Hwf id) as (row & _ & <- & Hle & _); lia.
    + rewrite (zsum_map_const _ HARD_MAX_ROWS_PER_SHARD) by done. rewrite length_seqZ.
      unfold HARD_MAX_ROWS_PER_SHARD. lia.
  - intros key row Hrow. by destruct (gw_rows _ _ Hwf key row Hrow) as [_ (_ & Hexp & Hreach)].
Qed.
End Calls.

(** * A concrete run *)

#[local] Existing Instance example_sqlx.

(** A server whose clock stands at [now] milliseconds, and a network that
    loses every reply after the first [kept]. *)
Definition example_gcra_lossy (now : Z) (kept : nat) : PgEnv unit GcraDb (GcraQuery unit) :=
  mkPgEnv (Some (Ok tt)) 0
    (map (honest_step gcra_answer) (replicate kept (mkTick 5 (now * 1000) (now * 1000)))
     ++ replicate (20 - kept) (mkStep 5 None None true)) DURATION_ZERO.

Definition example_timed_gcra (now : Z) (kept : nat) (cost : Z) : timed_gcra unit :=
  mkTimedGcra now now (GcraCheck_ PostgresGcra.new (example_gcra_lossy now kept) (example_gcra_pg_check 0 1 cost)).

Definition example_gcra_calls : list (timed_gcra unit) :=
  [example_timed_gcra 1000 20 3; example_timed_gcra 1100 19 3; example_timed_gcra 900 20 1;
   example_timed_gcra 1300 20 2;
   mkTimedGcra 9000 9000 (GcraCleanup PostgresGcra.new (example_gcra_lossy 9000 20) 10)].

Lemma example_gcra_lossy_served now kept :
  served_env gcra_answer (sampled now now) (example_gcra_lossy now kept).
Proof.
  apply Forall_app. split.
  - apply Forall_forall. intros step (t & -> & Ht)%list_elem_of_fmap reply [= <-].
    apply elem_of_replicate in Ht as [-> _]. exists (mkTick 5 (now * 1000) (now * 1000)). split; [|done].
    unfold sampled, sample_ms. cbn. rewrite Z.div_mul; lia.
  - apply Forall_replicate. by intros reply [=].
Qed.

Lemma example_gcra_calls_ok call :
  call ∈ example_gcra_calls ->
  gcra_call_ok example_gcra_policies 10000 call
  /\ Forall (gcra_own (Check_counter_key (example_gcra_pg_check 0 1 1)) 10 1000 5) (gcra_checks (tg_call call)).
Proof.
  intros Hc. repeat (apply elem_of_cons in Hc as [->|Hc]); [..|by apply elem_of_nil in Hc];
    (split; [split; [apply PostgresConfig_new_wf| |cbn; lia|apply example_gcra_lossy_served]|]);
    first [apply Forall_nil_2|apply Forall_singleton];
    first [done|apply example_gcra_pg_check_ok; unfold is_byte; lia].
Qed.

(** C18 witness: an admission of 3, one of 3 whose commit is not acknowledged
    but took effect, a refusal by a server whose clock went back, an
    admission of 2, and a cleanup.  The tables were charged three times,
    callers were told of two. *)
Lemma pg_gcra_rate_bound_witness :
  let k := Check_counter_key (example_gcra_pg_check 0 1 1) in
  let '(T, db, rs) := pg_gcra_run k 0 GcraDb_new [] example_gcra_calls in
  rs = [(1300, 1300, 2); (1000, 1000, 3)] /\ size (counters db) = 0%nat
  /\ pg_gcra_writes k 10 GcraDb_new [] example_gcra_calls = [(1300, 2000); (1100, 3000); (1000, 3000)]
  /\ (forall a e, a <= e -> reported_in a e rs * 1000 <= 5 * 1000 + (e - a) * 10)
  /\ exists charges,
       [(1300, 2000); (1100, 3000); (1000, 3000)] = (fun '(time, cost) => (time, cost * 1000)) <$> charges
       /\ forall a e, a <= e -> charged_in a e charges * 1000 <= 5 * 1000 + (e - a) * 10.
Proof.
  cbv zeta.
  pose proof (pg_gcra_rate_bound example_gcra_policies 10000 ltac:(rewrite MAX_WINDOW_MILLIS_val; unfold_widths; lia)
    (Check_counter_key (example_gcra_pg_check 0 1 1)) 10 1000 5 example_gcra_calls ltac:(lia) ltac:(lia)
    ltac:(lia) ltac:(lia)) as Hall.
  assert (Hrun : (pg_gcra_run (Check_counter_key (example_gcra_pg_check 0 1 1)) 0 GcraDb_new []
     example_gcra_calls).2 = [(1300, 1300, 2); (1000, 1000, 3)]) by (vm_compute; reflexivity).
  assert (Hsize : size (counters (pg_gcra_run (Check_counter_key (example_gcra_pg_check 0 1 1)) 0 GcraDb_new []
     example_gcra_calls).1.2) = 0%nat) by (vm_compute; reflexivity).
  assert (Hwrites : pg_gcra_writes (Check_counter_key (example_gcra_pg_check 0 1 1)) 10 GcraDb_new []
     example_gcra_calls = [(1300, 2000); (1100, 3000); (1000, 3000)]) by (vm_compute; reflexivity).
  destruct (pg_gcra_run _ _ _ _ _) as [[T db] rs]. cbn [fst snd] in *.
  split; [exact Hrun|]. split; [exact Hsize|]. split; [exact Hwrites|].
  destruct Hall as (charges & Hws & _ & _ & Hb); [apply Forall_forall; exact example_gcra_calls_ok|].
  split; [intros a e Hae; by apply Hb|]. exists charges.
  split; [rewrite <- Hwrites; exact Hws|]. intros a e Hae. by apply Hb.
Defined.

(** A concrete instance. *)
Lemma pg_gcra_tables_exact_witness :
  let db := foldl (fun db call => gcra_call_db db (tg_call call)) GcraDb_new (take 4 example_gcra_calls) in
  size (counters db) = 1%nat /\ Z.of_nat (size (counters db)) <= 16777216.
Proof.
  destruct (pg_gcra_tables_exact example_gcra_policies 10000
    ltac:(rewrite MAX_WINDOW_MILLIS_val; unfold_widths; lia) (take 4 example_gcra_calls) ltac:(lia))
    as (_ & Hsize & _).
  - apply Forall_take. apply Forall_forall. intros call Hcall. exact (proj1 (example_gcra_calls_ok call Hcall)).
  - split; [vm_compute; reflexivity|exact Hsize].
Defined.
