(* ===== verification/PgGcraTruth.v ===== *)
(** What the results and the reports of [PostgresGcraLimiter] say about the
    committed tables: the certainty theorem of the GCRA backend. *)

From Stdlib Require Import Ascii String.
From stdpp Require Import prelude list gmap.
From S2P Require Import Prelude RustStd Identifier Policy Decision AttemptPolicy Key Check Observation Gcra PgErrors PgConfig PgSession PgTables PgAdmission PgMaintenance PgInvariant PgConnection PgLimiter PgSpec PgHonest PgServed PgRefine PgGcra PgGcraCertain PgGcraSpec PgGcraRefine PgGcraEffect PgGcraRate.
Open Scope Z_scope.
Open Scope list_scope.
Import PostgresGcra.

Section Truth.
Context {E : Type} `{SqlxError E}.

(** The observer, if there is one, is told exactly [o]. *)
Definition told (self : PostgresGcraLimiter) (o : Observation) (observed : list Observation) : Prop :=
  observed = if observer self then [o] else [].

(** An admission call whose result and observation say what became of the
    committed tables. *)
Definition truthful {R} (status : R -> ConsumptionStatus) (self : PostgresGcraLimiter) (db : GcraDb)
    (call : CallEnd E GcraDb (GcraQuery E) R * list Observation) : Prop :=
  let '(e, observed) := call in
  clean_connection e
  /\ match ce_result e with
     | Done r =>
         settled (status r) db e
         /\ exists a, told self (Observation_Admission a) observed /\ ao_consumption a = status r
     | Panic => ce_db db e = db /\ observed = []
     end.

(** What a cleanup's result lets its observer know of the rows removed. *)
Definition removal (r : Result (MaintenanceError E) Z) : CleanupOutcome :=
  match r with
  | Ok removed => CleanupOutcome_Confirmed removed
  | Err error => if may_have_removed_rows error then CleanupOutcome_Unknown else CleanupOutcome_NoEffect
  end.

(** C29. Whatever the server answers and whatever the clock and the network
    do, what a durable GCRA check or batch returns, and reports to the
    observer as consumed, is true of the committed tables; and a connection
    goes back to its pool only when nothing on it is unanswered. A cleanup
    with no budget removes nothing, answers 0 and does no database work; any
    other that returns a count has committed; one whose error excludes
    removal has changed nothing, and one whose error does not has committed
    or changed nothing. Its observer, if any, is told exactly once: of the
    budget, and of the removal as confirmed with the count returned, as
    without effect, or as unknown, accordingly. And when the server answers
    from its tables whenever it answers, a count returned is the number of
    counters deleted, at most the budget, each of them expired by the time of
    its shard; after an error the tables are as they were, or as such a
    cleanup leaves them. *)
Theorem pg_gcra_certain self db (env : PgEnv E GcraDb (GcraQuery E)) c checks maximum_rows :
  truthful (call_status (fun d => (classify_decision d).2)) self db (check self db env c)
  /\ truthful (fun r => match r with
                        | Ok d => (classify_batch d).2
                        | Err error => BatchCheckError_consumption error
                        end) self db (check_all self db env checks)
  /\ (let '(e, observed) := cleanup_expired self db env maximum_rows in
      clean_connection e
      /\ match ce_result e with
         | Done r =>
             match r with
             | Ok removed => if maximum_rows =? 0 then removed = 0 /\ ce_session e = None
                             else published_tables e
             | Err error => maximum_rows <> 0
                 /\ if may_have_removed_rows error then ce_db db e = db \/ published_tables e
                    else ce_db db e = db
             end
             /\ told self (Observation_Cleanup (mkCleanupObservation (Z.to_nat maximum_rows)
                            (removal r) (env_elapsed env))) observed
         | Panic => maximum_rows <> 0 /\ ce_db db e = db /\ observed = []
         end
      /\ forall policies within, Gcra_wf policies db -> served_env gcra_answer within env ->
         maximum_rows <> 0 ->
         call_settles db e (cleaned policies within db maximum_rows)
           (fun db' => exists removed, cleaned policies within db maximum_rows removed db')).
Proof.
  split; [|split].
  - unfold truthful, check. pose proof (run_settled (fun d => (classify_decision d).2) self db env [c]
      single_decision classify_decision_reports single_decision_shapes) as [Hs Hc].
    destruct (ce_result _) as [r|]; (split; [done|]); [|done]. split; [done|].
    eexists. split; [by unfold told, observe; destruct (observer self)|].
    destruct r as [d|e]; [|done]. cbn. unfold from_check. by destruct (classify_decision d).
  - unfold truthful, check_all. destruct (validate_batch _ _) as [u|error] eqn:Hv.
    + pose proof (run_settled (fun d => (classify_batch d).2) self db env checks
        (batch_decision (length checks)) classify_batch_reports
        (batch_decision_shapes (length checks))) as [Hs Hc].
      destruct (run _ _ _ _ _) as [[r|] session]; (split; [done|]); [|done].
      split; [by destruct r|]. eexists. split; [by unfold told, observe; destruct (observer self)|].
      destruct r as [d|e]; [|done]. cbn. unfold from_batch. by destruct (classify_batch d).
    + split; [done|]. cbn. split; [done|].
      eexists. split; [by unfold told, observe; destruct (observer self)|done].
  - unfold cleanup_expired. destruct (gcra_cleanup_settled self db env maximum_rows) as [Hc Hr].
    split; [exact Hc|]. split.
    + destruct (ce_result _) as [r|]; [|by destruct Hr]. split; [exact Hr|].
      unfold told, observe. destruct (observer self); [|done]. by destruct r.
    + intros policies within Hwf Henv Hn. by apply gcra_cleanup_call_settles.
Qed.
End Truth.

(** * A concrete cleanup *)

#[local] Existing Instance example_sqlx.

Definition example_gcra_run : GcraDb :=
  foldl (fun db call => gcra_call_db db (tg_call call)) GcraDb_new (take 4 example_gcra_calls).

Lemma example_gcra_run_wf : Gcra_wf example_gcra_policies example_gcra_run.
Proof.
  apply (gcra_run_on_time example_gcra_policies 10000
    ltac:(rewrite MAX_WINDOW_MILLIS_val; unfold_widths; lia) (take 4 example_gcra_calls)); [lia|].
  apply Forall_take, Forall_forall. intros call Hcall. exact (proj1 (example_gcra_calls_ok call Hcall)).
Qed.

(** C29 witness: a cleanup of one expired counter, observed; and the same
    with its commit unacknowledged. *)
Lemma pg_gcra_certain_witness :
  let self := with_observer PostgresGcra.new in
  let '(e, observed) := cleanup_expired self example_gcra_run (example_gcra_lossy 9000 20) 10 in
  ce_result e = Done (Ok 1)
  /\ observed = [Observation_Cleanup (mkCleanupObservation 10 (CleanupOutcome_Confirmed 1) DURATION_ZERO)]
  /\ cleaned example_gcra_policies (sampled 9000 9000) example_gcra_run 10 1 (ce_db example_gcra_run e)
  /\ (cleanup_expired self example_gcra_run (example_gcra_lossy 9000 13) 10).2
     = [Observation_Cleanup (mkCleanupObservation 10 CleanupOutcome_Unknown DURATION_ZERO)].
Proof.
  cbv zeta.
  destruct (pg_gcra_certain (with_observer PostgresGcra.new) example_gcra_run (example_gcra_lossy 9000 20)
    (example_gcra_pg_check 0 1 1) [] 10) as (_ & _ & Hcleanup).
  assert (Hresult : ce_result (cleanup_expired (with_observer PostgresGcra.new) example_gcra_run
    (example_gcra_lossy 9000 20) 10).1 = Done (Ok 1)) by (vm_compute; reflexivity).
  assert (Hunknown : (cleanup_expired (with_observer PostgresGcra.new) example_gcra_run
    (example_gcra_lossy 9000 13) 10).2
    = [Observation_Cleanup (mkCleanupObservation 10 CleanupOutcome_Unknown DURATION_ZERO)])
    by (vm_compute; reflexivity).
  revert Hcleanup Hresult.
  destruct (cleanup_expired (with_observer PostgresGcra.new) example_gcra_run (example_gcra_lossy 9000 20) 10)
    as [e observed]. intros Hcleanup Hresult. cbn [fst] in Hresult.
  destruct Hcleanup as (_ & Hr & Hserved). rewrite Hresult in Hr. destruct Hr as [_ Htold].
  specialize (Hserved example_gcra_policies (sampled 9000 9000) example_gcra_run_wf
    (example_gcra_lossy_served 9000 20) ltac:(discriminate)).
  unfold call_settles in Hserved. rewrite Hresult in Hserved.
  split; [exact Hresult|]. split; [exact Htold|]. split; [exact Hserved|exact Hunknown].
Defined.
