(* ===== verification/PgAttempts.v ===== *)
(** [runlimit-postgres/src/attempts.rs]: durable outcome-aware attempts.
    Their table and the meaning of its statements, the admission transaction
    with its early returns, completion, the calls of
    [PostgresAttemptLimiter], and the [low_level] seam for transactions the
    host owns.

    Times are milliseconds of the server's clock.  [i64] arithmetic of the
    client wraps around, as in a release build; of the server it raises
    [22003].  Statements run one at a time on a transaction's copy of the
    tables. *)

From Stdlib Require Import Ascii String.
From stdpp Require Import prelude list gmap sorting.
From S2P Require Import Prelude RustStd Identifier Policy Decision AttemptPolicy Key Check Observation PgErrors PgConfig PgSession PgTables PgAdmission PgConnection.
Open Scope string_scope.
Open Scope Z_scope.
Open Scope list_scope.

Module PostgresAttempts.

(** * Integers of the client *)

Definition i64_min : Z := - i64_max - 1.
Definition saturating_add_i64 (a b : Z) : Z := Z.max i64_min (Z.min i64_max (a + b)).
Definition wrapping_sub_i64 (a b : Z) : Z := (a - b + 2 ^ 63) mod 2 ^ 64 - 2 ^ 63.

Definition integer (value : Z) : Outcome Z := expect (try_from i64_max value).
Definition millis (value : Duration) : Outcome Z := expect (try_from i64_max (as_millis value)).
Definition delay (value : Z) : Delay := Delay_new (from_millis (Z.abs value)).

(** * The table *)

Record AttemptRow := mkAttemptRow {
  capacity_slot : Z;
  failures : Z;
  last_failure_ms : Z;
  retry_at_ms : Z;
  quiet_ms : Z;
  lease_until_ms : option Z;
  lease_token : option str;
}.

(** [runlimit_attempts] by primary key. *)
Notation AttemptDb := (gmap CounterKey AttemptRow).

(** [COALESCE(lease_until_ms, last_failure_ms) + quiet_ms], the key of the
    expiry index. *)
Definition expiry_ms (row : AttemptRow) : Z := default (last_failure_ms row) (lease_until_ms row) + quiet_ms row.

Definition attempt_row_ok (key : CounterKey) (row : AttemptRow) : bool :=
  size_between 32 32 (fingerprint_bytes (ck_fingerprint key))
  && size_between 32 32 (SubjectKey_as_bytes (ck_subject key))
  && (0 <=? capacity_slot row) && (capacity_slot row <=? 65535)
  && (0 <=? failures row) && (failures row <=? u32_max)
  && (1 <=? quiet_ms row) && (quiet_ms row <=? 9007199254740)
  && bool_decide (is_Some (lease_until_ms row) <-> is_Some (lease_token row)).

Definition shard_list (db : AttemptDb) (shard : Z) : list (CounterKey * AttemptRow) :=
  filter (fun p => capacity_shard p.1 = shard) (map_to_list db).

(** [UNIQUE (capacity_shard, capacity_slot)]. *)
Definition slot_taken (db : AttemptDb) (key : CounterKey) (slot : Z) : bool :=
  existsb (fun p => negb (bool_decide (p.1 = key)) && (capacity_slot p.2 =? slot))
    (shard_list db (capacity_shard key)).

Definition UNIQUE_VIOLATION : str := byte_string "23505".
Definition NUMERIC_VALUE_OUT_OF_RANGE : str := byte_string "22003".
Definition in_bigint (v : Z) : bool := (i64_min <=? v) && (v <=? i64_max).

(** Writing one row, its constraints and indexes. *)
Definition store_row (db : AttemptDb) (key : CounterKey) (row : AttemptRow) : Result str AttemptDb :=
  if negb (attempt_row_ok key row) then Err CHECK_VIOLATION
  else if negb (in_bigint (expiry_ms row)) then Err NUMERIC_VALUE_OUT_OF_RANGE
  else if slot_taken db key (capacity_slot row) then Err UNIQUE_VIOLATION
  else Ok (<[key := row]> db).

(** * Statements *)

Record AttemptReply (E : Type) := mkAttemptReply {
  ar_failures : Col E Z;
  ar_last_failure_ms : Col E Z;
  ar_retry_at_ms : Col E Z;
  ar_lease_until_ms : Col E (option Z);
}.
Arguments mkAttemptReply {E} _ _ _ _.
Arguments ar_failures {E} _.
Arguments ar_last_failure_ms {E} _.
Arguments ar_retry_at_ms {E} _.
Arguments ar_lease_until_ms {E} _.

Record CompleteReply (E : Type) := mkCompleteReply { cr_failures : Col E Z; cr_delay_ms : Col E Z }.
Arguments mkCompleteReply {E} _ _.
Arguments cr_failures {E} _.
Arguments cr_delay_ms {E} _.

Record ClaimReply (E : Type) := mkClaimReply { cl_lease_token : Col E str; cl_transaction_id : Col E str }.
Arguments mkClaimReply {E} _ _.
Arguments cl_lease_token {E} _.
Arguments cl_transaction_id {E} _.

Inductive AttemptQuery (E : Type) : Type -> Type :=
| ATTEMPT_SET_LOCAL_TIMEOUTS_SQL (statement_timeout lock_timeout : str) : AttemptQuery E unit
| ADVISORY_XACT_LOCK (namespace shard : Z) : AttemptQuery E unit
| ATTEMPT_CLEANUP_SQL (shard : Z) : AttemptQuery E unit
| READ_ATTEMPT (fingerprint subject : bytes) : AttemptQuery E (AttemptReply E)
| SAMPLE_NOW : AttemptQuery E (Col E Z)
| COUNT_ATTEMPTS (shard : Z) : AttemptQuery E (Col E Z)
| FREE_SLOT (shard maximum : Z) : AttemptQuery E (Col E (option Z))
| INSERT_ATTEMPT (fingerprint subject : bytes) (slot now quiet lease_until : Z) : AttemptQuery E (Col E str)
| UPDATE_ATTEMPT (fingerprint subject : bytes) (failures last_failure now lease_until : Z)
    : AttemptQuery E (Col E str)
| COMPLETE_SQL (fingerprint subject : bytes) (token : str) (success : bool)
    (initial_delay maximum_delay : Z) (transaction_id : option str) : AttemptQuery E (CompleteReply E)
| CLAIM_ATTEMPT (fingerprint subject : bytes) (token : str) : AttemptQuery E (ClaimReply E).
Arguments ATTEMPT_SET_LOCAL_TIMEOUTS_SQL {E} _ _.
Arguments ADVISORY_XACT_LOCK {E} _ _.
Arguments ATTEMPT_CLEANUP_SQL {E} _.
Arguments READ_ATTEMPT {E} _ _.
Arguments SAMPLE_NOW {E}.
Arguments COUNT_ATTEMPTS {E} _.
Arguments FREE_SLOT {E} _ _.
Arguments INSERT_ATTEMPT {E} _ _ _ _ _ _.
Arguments UPDATE_ATTEMPT {E} _ _ _ _ _ _.
Arguments COMPLETE_SQL {E} _ _ _ _ _ _ _.
Arguments CLAIM_ATTEMPT {E} _ _ _.

#[export] Instance attempt_statements E : Statements (AttemptQuery E) := {
  set_local_timeouts := ATTEMPT_SET_LOCAL_TIMEOUTS_SQL;
}.

(** The rows one cleanup deletes: the sixteen that expired first. *)
Definition expired_attempts (db : AttemptDb) (shard now : Z) : list CounterKey :=
  snd <$> take 16 (merge_sort expires_le
    ((fun '(key, row) => (expiry_ms row, key))
     <$> filter (fun '(key, row) => (expiry_ms row <=? now) = true) (shard_list db shard))).

Definition delete_attempts (db : AttemptDb) (keys : list CounterKey) : AttemptDb :=
  foldr delete db keys.

(** [min(slot)] of the slots below [maximum] no row of the shard has. *)
Definition free_slot (db : AttemptDb) (shard maximum : Z) : option Z :=
  head (filter (fun slot => slot ∉ (capacity_slot ∘ snd <$> shard_list db shard)) (seqZ 0 maximum)).

(** The row [UPDATE ... FROM next] leaves, with its delay. *)
Definition completed_row (row : AttemptRow) (now : Z) (success : bool) (initial_delay maximum_delay : Z)
    : AttemptRow * Z :=
  let next_failures := if success then 0 else Z.min (failures row + 1) 4294967295 in
  let delay_ms := if success then 0 else Z.min maximum_delay (initial_delay * 2 ^ Z.min (failures row) 63) in
  (mkAttemptRow (capacity_slot row) next_failures now (now + delay_ms) (quiet_ms row) None None, delay_ms).

(** [lease_token = $3 AND (($7 IS NULL AND lease_until_ms > now_ms) OR
    $7 = pg_current_xact_id())]. *)
Definition completes (row : AttemptRow) (now : Z) (xid token : str) (transaction_id : option str) : bool :=
  bool_decide (lease_token row = Some token)
  && match transaction_id with
     | None => from_option (fun until => now <? until) false (lease_until_ms row)
     | Some id => bool_decide (id = xid)
     end.

(** A statement that returns the rows it wrote. *)
Definition returning {E A} `{SqlxError E} (db : AttemptDb) (r : Result str AttemptDb) (row : A)
    : AttemptDb * Result E (Response A) :=
  match r with
  | Ok db' => (db', Ok (mkResponse [row] 1))
  | Err code => (db, Err (server_error code))
  end.

(** The server: a statement that starts at [started], microseconds of its
    clock, in the transaction [xid], where [gen_random_uuid] gives
    [fresh]. *)
Definition attempt_sql {E} `{SqlxError E} (started : Z) (fresh xid : str)
    : forall A, AttemptQuery E A -> AttemptDb -> AttemptDb * Result E (Response A) :=
  fun A q db =>
  let now := started / 1000 in
  match q in AttemptQuery _ A return AttemptDb * Result E (Response A) with
  | ATTEMPT_SET_LOCAL_TIMEOUTS_SQL _ _ => (db, Ok (mkResponse [tt] 1))
  | ADVISORY_XACT_LOCK _ _ => (db, Ok (mkResponse [tt] 1))
  | ATTEMPT_CLEANUP_SQL shard =>
      let keys := expired_attempts db shard now in
      (delete_attempts db keys, Ok (mkResponse [] (Z.of_nat (length keys))))
  | READ_ATTEMPT fingerprint subject =>
      let out := match db !! storage_key fingerprint subject with
        | Some row => [mkAttemptReply (Ok (failures row)) (Ok (last_failure_ms row))
                         (Ok (retry_at_ms row)) (Ok (lease_until_ms row))]
        | None => []
        end in
      (db, Ok (mkResponse out (Z.of_nat (length out))))
  | SAMPLE_NOW => (db, Ok (mkResponse [Ok now] 1))
  | COUNT_ATTEMPTS shard => (db, Ok (mkResponse [Ok (Z.of_nat (length (shard_list db shard)))] 1))
  | FREE_SLOT shard maximum => (db, Ok (mkResponse [Ok (free_slot db shard maximum)] 1))
  | INSERT_ATTEMPT fingerprint subject slot now quiet lease_until =>
      let key := storage_key fingerprint subject in
      match db !! key with
      | Some _ => (db, Err (server_error UNIQUE_VIOLATION))
      | None =>
          returning db (store_row db key
            (mkAttemptRow slot 0 now now quiet (Some lease_until) (Some fresh))) (Ok fresh)
      end
  | UPDATE_ATTEMPT fingerprint subject failures last_failure now lease_until =>
      let key := storage_key fingerprint subject in
      match db !! key with
      | None => (db, Ok (mkResponse [] 0))
      | Some row =>
          returning db (store_row db key
            (mkAttemptRow (capacity_slot row) failures last_failure now (quiet_ms row)
               (Some lease_until) (Some fresh))) (Ok fresh)
      end
  | COMPLETE_SQL fingerprint subject token success initial_delay maximum_delay transaction_id =>
      let key := storage_key fingerprint subject in
      match db !! key with
      | Some row =>
          if completes row now xid token transaction_id then
            let '(row', delay_ms) := completed_row row now success initial_delay maximum_delay in
            returning db
              (if in_bigint (retry_at_ms row') then store_row db key row' else Err NUMERIC_VALUE_OUT_OF_RANGE)
              (mkCompleteReply (Ok (failures row')) (Ok delay_ms))
          else (db, Ok (mkResponse [] 0))
      | None => (db, Ok (mkResponse [] 0))
      end
  | CLAIM_ATTEMPT fingerprint subject token =>
      let key := storage_key fingerprint subject in
      match db !! key with
      | Some row =>
          if completes row now xid token None then
            returning db
              (store_row db key (mkAttemptRow (capacity_slot row) (failures row) (last_failure_ms row)
                 (retry_at_ms row) (quiet_ms row) (lease_until_ms row) (Some fresh)))
              (mkClaimReply (Ok fresh) (Ok xid))
          else (db, Ok (mkResponse [] 0))
      | None => (db, Ok (mkResponse [] 0))
      end
  end.

(** * Receipts *)

Definition PHASE : CheckPhase := CheckPhase_AcquiringCounterRowLocks.
Definition LOCK_NAMESPACE : Z := 0x524c4154.

Record PgAttemptReceipt := mkPgAttemptReceipt {
  pr_policy : AttemptPolicy;
  pr_subject : bytes;
  pr_token : str;
}.

Record PgAttemptClaim := mkPgAttemptClaim {
  pc_receipt : PgAttemptReceipt;
  pc_transaction_id : str;
}.

Inductive PgAttemptClaimResult :=
| Claimed (claim : PgAttemptClaim)
| ClaimStale.

(** [runlimit_core::attempts::StagedAttemptCompletion]. *)
Inductive StagedAttemptCompletion :=
| StagedApplied (completion : AttemptCompletion)
| StagedStale.

(** * Transactions *)

Section Transactions.
Context {E : Type} `{SqlxError E}.
Notation Tx := (Tx E AttemptDb (AttemptQuery E) (CheckError E)).
Notation Failure := (ConnectionOutcome (CheckError E)).
Notation PgAttemptAdmission := (AttemptAdmission PgAttemptReceipt).

(** [row.try_get(name).map_err(decode)?]. *)
Definition decoded {A} (detail : string) (c : Col E A) : Result Failure A :=
  map_err (fun error => Reusable (storage_decode_invariant detail error)) c.

Definition finish_denial (denial : AttemptDenial) : Tx (ConnectionOutcome PgAttemptAdmission) :=
  deny (Denied denial).

Definition finish_capacity_denial (tx : CheckTransaction) : Tx (ConnectionOutcome PgAttemptAdmission) :=
  fun s =>
    let denial := Denied AttemptDenial_StorageCapacity in
    match commit tx s with
    | (s, Done (Ok _)) => (s, Done (Ok (Reusable denial)))
    | (s, Done (Err outcome)) => (s, Done (Ok (ConnectionOutcome_map outcome (fun _ => denial))))
    | (s, Panic) => (s, Panic)
    end.

(** The quiet period and the backoff of a row without a live lease. *)
Definition reconcile_failures (policy : AttemptPolicy) (now failures last_failure retry : Z)
    : Tx (AttemptDenial + Z * Z) :=
  quiet ← expect_tx (integer (QuotaPeriod_millis (ap_quiet_period policy)));
  let '(failures, retry) :=
    if saturating_add_i64 last_failure quiet <=? now then (0, now) else (failures, retry) in
  if now <? retry then mret (inl (AttemptDenial_Backoff (delay (wrapping_sub_i64 retry now))))
  else mret (inr (failures, last_failure)).

(** The branch of [if let Some(row) = rows.first()]: a denial, or the
    failures and their time to store. *)
Definition reconcile_row (policy : AttemptPolicy) (now : Z) (row : AttemptReply E)
    : Tx (AttemptDenial + Z * Z) :=
  let detail := "decode attempt admission response" in
  failures ← lift (decoded detail (ar_failures row));
  failures ← lift (ok_or (try_from u32_max failures)
                     (Reusable (storage_invariant "invalid attempt failure count")));
  last_failure ← lift (decoded detail (ar_last_failure_ms row));
  retry ← lift (decoded detail (ar_retry_at_ms row));
  lease ← lift (decoded detail (ar_lease_until_ms row));
  match lease with
  | Some until =>
      if now <? until then mret (inl (AttemptDenial_Busy (delay (wrapping_sub_i64 until now))))
      else
        let failures := saturating_add u32_max failures 1 in
        backoff ← expect_tx (millis (AttemptPolicy_delay policy failures));
        reconcile_failures policy now failures until (saturating_add_i64 until backoff)
  | None => reconcile_failures policy now failures last_failure retry
  end.

(** The acknowledged commit of a reservation. *)
Definition grant (tx : CheckTransaction) (policy : AttemptPolicy) (subject : bytes) (token_row : Col E str)
    : Tx (ConnectionOutcome PgAttemptAdmission) :=
  token ← lift (decoded "decode attempt admission response" token_row);
  _ ← commit tx;
  mret (Reusable (AttemptAdmission_Admitted (mkPgAttemptReceipt policy subject token))).

(** The branch of [rows.is_empty()]: the total occupancy, a free slot, the
    insertion. *)
Definition reserve_slot (tx : CheckTransaction) (policy : AttemptPolicy) (fingerprint subject : bytes)
    (shard maximum now : Z) : Tx (ConnectionOutcome PgAttemptAdmission) :=
  let detail := "decode attempt admission response" in
  occupancy ← fetch_one tx PHASE (COUNT_ATTEMPTS shard);
  row_count ← lift (decoded detail occupancy);
  if maximum <=? row_count then finish_capacity_denial tx
  else
    slot ← fetch_one tx PHASE (FREE_SLOT shard maximum);
    slot ← lift (decoded detail slot);
    match slot with
    | None => finish_capacity_denial tx
    | Some slot =>
        quiet ← expect_tx (integer (QuotaPeriod_millis (ap_quiet_period policy)));
        lease ← expect_tx (integer (QuotaPeriod_millis (ap_lease policy)));
        token_row ← fetch_one tx PHASE
          (INSERT_ATTEMPT fingerprint subject slot now quiet (saturating_add_i64 now lease));
        grant tx policy subject token_row
    end.

Definition admit_transaction (subject : AttemptSubject) (maximum deadline : Z)
    : Tx (ConnectionOutcome PgAttemptAdmission) :=
  let detail := "decode attempt admission response" in
  let policy := as_policy subject in
  let fingerprint := fingerprint_bytes (ap_fingerprint policy) in
  let subject := SubjectKey_as_bytes (as_subject subject) in
  let shard := Z.lxor (first_byte fingerprint) (first_byte subject) in
  tx ← begin_ deadline;
  _ ← execute tx PHASE (ADVISORY_XACT_LOCK LOCK_NAMESPACE shard);
  _ ← execute tx PHASE (ATTEMPT_CLEANUP_SQL shard);
  found ← fetch_all tx PHASE (READ_ATTEMPT fingerprint subject);
  time ← fetch_one tx PHASE SAMPLE_NOW;
  now ← lift (decoded detail time);
  reconciled ← match head found with
               | Some row => reconcile_row policy now row
               | None => mret (inr (0, now))
               end;
  match reconciled with
  | inl denial => finish_denial denial
  | inr (failures, last_failure) =>
      match head found with
      | None => reserve_slot tx policy fingerprint subject shard maximum now
      | Some _ =>
          lease ← expect_tx (integer (QuotaPeriod_millis (ap_lease policy)));
          token_row ← fetch_one tx PHASE
            (UPDATE_ATTEMPT fingerprint subject failures last_failure now (saturating_add_i64 now lease));
          grant tx policy subject token_row
      end
  end.

(** [completion_query]: its statement, or the panic of an [expect]. *)
Definition completion_query (receipt : PgAttemptReceipt) (outcome : AttemptOutcome)
    (transaction_id : option str) : Outcome (AttemptQuery E (CompleteReply E)) :=
  initial ← integer (QuotaPeriod_millis (ap_initial_delay (pr_policy receipt)));
  maximum ← integer (QuotaPeriod_millis (ap_maximum_delay (pr_policy receipt)));
  mret (COMPLETE_SQL (fingerprint_bytes (ap_fingerprint (pr_policy receipt))) (pr_subject receipt)
          (pr_token receipt) (bool_decide (outcome = Success)) initial maximum transaction_id).

Definition completion_result (rows : list (CompleteReply E)) (outcome : AttemptOutcome)
    : Result (CheckError E) StagedAttemptCompletion :=
  match head rows with
  | None => Ok StagedStale
  | Some row =>
      let decode {A} (c : Col E A) :=
        map_err (storage_decode_invariant "decode attempt completion response") c in
      failures ← decode (cr_failures row);
      failures ← ok_or (try_from u32_max failures) (storage_invariant "invalid attempt failure count");
      retry ← decode (cr_delay_ms row);
      if retry <? 0 then Err (storage_invariant "invalid attempt delay")
      else
        completion ← map_err
          (fun _ => storage_invariant "attempt completion metadata contradicts its outcome")
          (AttemptCompletion_new outcome failures (delay retry));
        mret (StagedApplied completion)
  end.

Definition complete_transaction (receipt : PgAttemptReceipt) (outcome : AttemptOutcome) (deadline : Z)
    : Tx (ConnectionOutcome AttemptCompletionResult) :=
  transaction ← begin_ deadline;
  query ← expect_tx (completion_query receipt outcome None);
  found ← fetch_all transaction PHASE query;
  result ← lift (map_err Reusable (completion_result found outcome));
  _ ← commit transaction;
  mret (Reusable (match result with
                  | StagedApplied completion => Applied completion
                  | StagedStale => Stale
                  end)).
End Transactions.

(** * [PostgresAttemptLimiter] *)

Section Limiter.
Context {E : Type} `{SqlxError E}.
Notation CallEnd := (CallEnd E AttemptDb (AttemptQuery E)).
Notation PgEnv := (PgEnv E AttemptDb (AttemptQuery E)).

(** [struct PostgresAttemptLimiter]; the pool is the environment of each
    call. *)
Record PostgresAttemptLimiter := mkPostgresAttemptLimiter {
  config : PostgresConfig;
  observer : bool;
}.

Definition new : PostgresAttemptLimiter := mkPostgresAttemptLimiter PostgresConfig_new false.
Definition with_config (self : PostgresAttemptLimiter) (config : PostgresConfig) : PostgresAttemptLimiter :=
  mkPostgresAttemptLimiter config (observer self).
Definition with_observer (self : PostgresAttemptLimiter) : PostgresAttemptLimiter :=
  mkPostgresAttemptLimiter (config self) true.

Definition observe (self : PostgresAttemptLimiter) (event : AttemptObservation) : list AttemptObservation :=
  if observer self then [event] else [].

(** [Err(error) if error.consumption() == PossiblyConsumed], else nothing. *)
Definition observe_error (self : PostgresAttemptLimiter) (error : CheckError E) : list AttemptObservation :=
  match CheckError_consumption error with
  | PossiblyConsumed => observe self AttemptObservation_CommitUncertain
  | _ => []
  end.

(** The method [admit]. *)
Definition admit_attempt (self : PostgresAttemptLimiter) (db : AttemptDb) (env : PgEnv)
    (subject : AttemptSubject)
    : CallEnd (Result (CheckError E) (AttemptAdmission PgAttemptReceipt)) * list AttemptObservation :=
  match acquire_check_connection (env_acquired env) with
  | Err error => (mkCallEnd (Done (Err error)) None, [])
  | Ok _ =>
      let deadline := env_connected_at env + as_nanos (operation_timeout (config self)) in
      let e := guarded_run (connect db env) (fun s =>
        merged (admit_transaction subject (maximum_rows_per_shard (config self)) deadline s)) in
      (e, match ce_result e with
          | Done (Ok (AttemptAdmission_Admitted _)) => observe self AttemptObservation_Admitted
          | Done (Ok (Denied denial)) => observe self (AttemptObservation_Denied denial)
          | Done (Err error) => observe_error self error
          | Panic => []
          end)
  end.

Definition complete (self : PostgresAttemptLimiter) (db : AttemptDb) (env : PgEnv)
    (receipt : PgAttemptReceipt) (outcome : AttemptOutcome)
    : CallEnd (Result (CheckError E) AttemptCompletionResult) * list AttemptObservation :=
  match acquire_check_connection (env_acquired env) with
  | Err error => (mkCallEnd (Done (Err error)) None, [])
  | Ok _ =>
      let deadline := env_connected_at env + as_nanos (operation_timeout (config self)) in
      let e := guarded_run (connect db env) (fun s =>
        merged (complete_transaction receipt outcome deadline s)) in
      (e, match ce_result e with
          | Done (Ok (Applied completion)) => observe self (AttemptObservation_Completed completion)
          | Done (Ok Stale) => observe self AttemptObservation_Stale
          | Done (Err error) => observe_error self error
          | Panic => []
          end)
  end.
End Limiter.

(** * [mod low_level] *)

(** [sqlx::Error::Decode] of a boxed error. *)
Class SqlxDecode (E : Type) `{SqlxError E} := { Decode : CheckError E -> E }.

Section LowLevel.
Context {E : Type} `{SqlxDecode E}.

(** An executor of the host: the transaction's tables and what the server
    answers from them. *)
Definition Executor : Type :=
  forall A, AttemptQuery E A -> AttemptDb -> AttemptDb * Result E (Response A).

Definition claim_in (executor : Executor) (db : AttemptDb) (receipt : PgAttemptReceipt)
    : AttemptDb * Result E PgAttemptClaimResult :=
  let '(db, response) := executor _ (CLAIM_ATTEMPT
      (fingerprint_bytes (ap_fingerprint (pr_policy receipt))) (pr_subject receipt) (pr_token receipt)) db in
  let decode {A} (c : Col E A) :=
    map_err (fun error => Decode (storage_decode_invariant "decode attempt claim response" error)) c in
  (db, response ← response;
       match head (rows response) with
       | Some row =>
           token ← decode (cl_lease_token row);
           transaction_id ← decode (cl_transaction_id row);
           mret (Claimed (mkPgAttemptClaim
             (mkPgAttemptReceipt (pr_policy receipt) (pr_subject receipt) token) transaction_id))
       | None => mret ClaimStale
       end).

(** The statement and the decoding [finish_in] and [complete_in] share. *)
Definition staged_completion (executor : Executor) (db : AttemptDb) (receipt : PgAttemptReceipt)
    (outcome : AttemptOutcome) (transaction_id : option str)
    : Outcome (AttemptDb * Result E StagedAttemptCompletion) :=
  query ← completion_query receipt outcome transaction_id;
  let '(db, response) := executor _ query db in
  mret (db, response ← response; map_err Decode (completion_result (rows response) outcome)).

Definition finish_in (executor : Executor) (db : AttemptDb) (claim : PgAttemptClaim)
    (outcome : AttemptOutcome) : Outcome (AttemptDb * Result E StagedAttemptCompletion) :=
  staged_completion executor db (pc_receipt claim) outcome (Some (pc_transaction_id claim)).

Definition complete_in (executor : Executor) (db : AttemptDb) (receipt : PgAttemptReceipt)
    (outcome : AttemptOutcome) : Outcome (AttemptDb * Result E StagedAttemptCompletion) :=
  staged_completion executor db receipt outcome None.
End LowLevel.
End PostgresAttempts.
