(* ===== verification/PgAttemptCertain.v ===== *)
(** What the results of durable attempts say about the committed tables,
    whatever the server, the clock and the network do.  A capacity denial is
    the one result that neither publishes its transaction for certain nor
    leaves the tables alone for certain: it keeps the cleanup it made. *)

From Stdlib Require Import Ascii String.
From stdpp Require Import prelude list gmap.
From S2P Require Import Prelude RustStd Identifier Policy Decision AttemptPolicy Key Check Observation PgErrors PgConfig PgSession PgTables PgAdmission PgConnection PgAttempts.
Open Scope Z_scope.
Open Scope list_scope.
Import PostgresAttempts.

Section Certain.
Context {E : Type} `{SqlxError E}.
Notation Db := AttemptDb.
Notation Query := (AttemptQuery E).
Notation Tx := (Tx E Db Query (CheckError E)).
Notation PgAttemptAdmission := (AttemptAdmission PgAttemptReceipt).

(** What an admission says about its transaction. *)
Inductive effect := Published | Unchanged | Either.

Definition effect_of (admission : PgAttemptAdmission) : effect :=
  match admission with
  | AttemptAdmission_Admitted _ => Published
  | Denied AttemptDenial_StorageCapacity => Either
  | Denied _ => Unchanged
  end.

Definition failure_effect (error : CheckError E) : effect :=
  match CheckError_consumption error with NotConsumed => Unchanged | _ => Either end.

Lemma not_consumed_effect error : not_consumed error -> failure_effect error = Unchanged.
Proof. unfold not_consumed, failure_effect. by intros ->. Qed.

Lemma consumed_effect error : failure_effect error = Either \/ not_consumed error.
Proof. unfold not_consumed, failure_effect. destruct (CheckError_consumption error); auto. Qed.

Definition effect_holds (eff : effect) (before : Db) (s : Session E Db Query) : Prop :=
  match eff with
  | Published => committed s = working s
  | Unchanged => committed s = before
  | Either => committed s = before \/ committed s = working s
  end.

(** A transaction whose results and failures are true. *)
Definition settles {A} (eff : A -> effect) (m : Tx (ConnectionOutcome A)) : Prop :=
  forall s, let '(s', r) := m s in
  match r with
  | Done (Ok o) =>
      effect_holds (eff (outcome_value o)) (committed s) s'
      /\ (o = Reusable (outcome_value o) -> busy s' = busy s)
  | Done (Err o) =>
      effect_holds (failure_effect (outcome_value o)) (committed s) s'
      /\ (o = Reusable (outcome_value o) -> busy s' = busy s)
  | Panic => committed s' = committed s
  end.

Lemma settles_attempt_bind {A B} (eff : B -> effect) (m : Tx A) (f : A -> Tx (ConnectionOutcome B)) :
  quiet not_consumed m -> (forall a, settles eff (f a)) -> settles eff (m ≫= f).
Proof.
  intros Hm Hf s. unfold mbind, Tx_bind. specialize (Hm s).
  destruct (m s) as [s1 [[a|o]|]]; destruct Hm as [Hc Hb]; [|clear Hf|done].
  - specialize (Hf a s1). destruct (f a s1) as [s2 [[o|o]|]]; [| |congruence];
      rewrite Hc, Hb in Hf; done.
  - destruct o as [e|e]; simpl in *; [destruct Hb as [He Hb]|]; by rewrite not_consumed_effect.
Qed.

(** The three ends of a transaction. *)
Lemma settles_attempt_deny denial : settles effect_of (deny (Denied denial)).
Proof.
  intros s. pose proof (certain_deny (Query := Query) (not_consumed (E := E)) (fun _ => False)
    (Denied denial : PgAttemptAdmission) (fun h => h) s) as Hs.
  destruct (deny _ s) as [s' [[o|o]|]] eqn:Hd; [| |done].
  - destruct Hs as (_ & Hn & Hb). split; [|done].
    assert (outcome_value o = Denied denial) as ->.
    { unfold deny, finish_denied_transaction in Hd. destruct (interact send_rollback s) as [s1 [[u|e]|]];
        injection Hd as _ <-; done. }
    specialize (Hn (fun h => h)). destruct denial; cbn; auto.
  - unfold deny, finish_denied_transaction in Hd. by destruct (interact send_rollback s).
Qed.

Lemma settles_attempt_commit {A} (eff : A -> effect) tx (result : A) :
  eff result = Published -> settles eff (_ ← commit tx; mret (Reusable result)).
Proof.
  intros Heff s. pose proof (certain_commit (Db := Db) (Query := Query) (E := E) (fun _ => True) tx result I s) as Hs.
  destruct ((_ ← commit tx; mret (Reusable result)) s) as [s' [[o|o]|]] eqn:Hd; [| |done].
  - destruct Hs as (Hp & _ & Hb). split; [|done].
    assert (outcome_value o = result) as ->.
    { unfold mbind, Tx_bind in Hd. destruct (commit tx s) as [s1 [[u|e]|]]; [|done..]. by injection Hd as _ <-. }
    rewrite Heff. by apply Hp.
  - destruct Hs as (Hn & Hy & Hb). split; [|done].
    unfold failure_effect, not_consumed in *.
    destruct (CheckError_consumption (outcome_value o)); cbn; [by apply Hy|by apply Hn|by apply Hy].
Qed.

(** The cleanup a capacity denial keeps. *)
Lemma settles_capacity tx : settles effect_of (finish_capacity_denial (E := E) tx).
Proof.
  intros s. pose proof (settles_attempt_commit (fun _ : unit => Published) tx tt eq_refl s) as Hs.
  unfold finish_capacity_denial. unfold mbind, Tx_bind in Hs.
  destruct (commit tx s) as [s1 [[[]|o]|]]; [| |done].
  - cbn in *. destruct Hs as [Hp Hb]. split; [by right|intros _; by apply Hb].
  - destruct Hs as [Hp Hb]. split.
    + destruct o as [e|e]; cbn in *; unfold failure_effect in Hp; destruct (CheckError_consumption e); cbn in Hp; auto.
    + destruct o; cbn in *; [|done]. intros _. by apply Hb.
Qed.

(** ** The transactions *)

Lemma quiet_decoded {A} detail (c : Col E A) :
  quiet (E := E) (Query := Query) (Db := Db) (not_consumed (E := E)) (lift (decoded detail c)).
Proof. apply quiet_lift. intros e. unfold decoded. destruct c; [done|]. by intros [= <-]. Qed.

Lemma quiet_u32 failures detail :
  quiet (E := E) (Query := Query) (Db := Db) (not_consumed (E := E))
    (lift (ok_or (try_from u32_max failures) (Reusable (storage_invariant detail)))).
Proof. apply quiet_lift. intros e. destruct (try_from u32_max failures); [done|]. by intros [= <-]. Qed.

#[local] Hint Resolve quiet_decoded quiet_u32 : quiet.
#[local] Hint Extern 1 (quiet _ _) =>
  first [apply quiet_begin | apply quiet_execute | apply quiet_fetch_all | apply quiet_fetch_one] : quiet.

Lemma quiet_reconcile_failures policy now failures last_failure retry :
  quiet (E := E) (not_consumed (E := E)) (reconcile_failures policy now failures last_failure retry).
Proof.
  apply quiet_bind; [auto with quiet|]. intros quiet. destruct (_ <=? now); case_match; apply quiet_ret.
Qed.

Lemma quiet_reconcile_row policy now row : quiet (E := E) (not_consumed (E := E)) (reconcile_row policy now row).
Proof.
  unfold reconcile_row. do 5 (apply quiet_bind; [solve [auto with quiet]|intros ?]).
  destruct a3 as [until|]; [|apply quiet_reconcile_failures].
  destruct (now <? until); [apply quiet_ret|].
  apply quiet_bind; [solve [auto with quiet]|intros ?]. apply quiet_reconcile_failures.
Qed.

Lemma settles_grant tx policy subject token_row : settles effect_of (grant (E := E) tx policy subject token_row).
Proof. apply settles_attempt_bind; [auto with quiet|intros token]. by apply settles_attempt_commit. Qed.

Lemma settles_reserve_slot tx policy fingerprint subject shard maximum now :
  settles effect_of (reserve_slot (E := E) tx policy fingerprint subject shard maximum now).
Proof.
  unfold reserve_slot.
  do 2 (apply settles_attempt_bind; [solve [auto with quiet]|intros ?]). destruct (maximum <=? _); [apply settles_capacity|].
    do 2 (apply settles_attempt_bind; [solve [auto with quiet]|intros ?]). case_match; [|apply settles_capacity].
    do 3 (apply settles_attempt_bind; [solve [auto with quiet]|intros ?]). apply settles_grant.
Qed.

Lemma settles_admit subject maximum deadline :
  settles effect_of (admit_transaction (E := E) subject maximum deadline).
Proof.
  unfold admit_transaction. do 6 (apply settles_attempt_bind; [solve [auto with quiet]|intros ?]).
  apply settles_attempt_bind; [destruct (head _); solve [auto using quiet_reconcile_row with quiet]|]. intros [denial|[failures last]]; [apply settles_attempt_deny|].
  destruct (head _).
  - do 2 (apply settles_attempt_bind; [solve [auto with quiet]|intros ?]). apply settles_grant.
  - apply settles_reserve_slot.
Qed.

Lemma certain_complete receipt outcome deadline :
  certain not_consumed (fun _ => True) (complete_transaction (E := E) receipt outcome deadline).
Proof.
  apply certain_bind; [auto with quiet|intros tx]. apply certain_bind; [auto with quiet|intros query].
  apply certain_bind; [auto with quiet|intros found]. apply certain_build.
  - unfold completion_result. destruct (head found) as [row|]; [|auto with storage].
    assert (Hcol : forall A (c : Col E A), storage_failure (map_err
      (storage_decode_invariant "decode attempt completion response"%string) c)).
    { intros A [a|e]; [done|]. intros e' [= <-]. by eexists. }
    apply storage_failure_bind; [apply Hcol|intros failures].
    apply storage_failure_bind; [destruct (try_from _ _); [done|apply storage_failure_err]|intros n].
    apply storage_failure_bind; [apply Hcol|intros retry].
    destruct (retry <? 0); [apply storage_failure_err|].
    apply storage_failure_bind; [|done]. destruct (AttemptCompletion_new _ _ _); [done|apply storage_failure_err].
  - intros result _. by apply certain_commit.
Qed.

(** ** The calls *)

(** A call of the attempt limiter that tells the truth: about the tables by
    its result, about itself to the observer, and about its connection. *)
Definition truthful {R} (eff : R -> effect) (event : R -> AttemptObservation) (db : Db)
    (call : CallEnd E Db Query (Result (CheckError E) R) * list AttemptObservation) : Prop :=
  let '(e, observed) := call in
  let holds eff := match ce_session e with
                   | Some (s, _) => effect_holds eff db s
                   | None => eff = Unchanged
                   end in
  clean_connection e
  /\ match ce_result e with
     | Done (Ok r) => holds (eff r) /\ Forall (eq (event r)) observed
     | Done (Err error) =>
         holds (failure_effect error)
         /\ Forall (fun o => o = AttemptObservation_CommitUncertain
              /\ CheckError_consumption error = PossiblyConsumed) observed
     | Panic => ce_db db e = db /\ observed = []
     end.

Definition admission_event (admission : PgAttemptAdmission) : AttemptObservation :=
  match admission with
  | AttemptAdmission_Admitted _ => AttemptObservation_Admitted
  | Denied denial => AttemptObservation_Denied denial
  end.

Definition completion_event (result : AttemptCompletionResult) : AttemptObservation :=
  match result with
  | Applied completion => AttemptObservation_Completed completion
  | Stale => AttemptObservation_Stale
  end.

Lemma observe_event self event : Forall (eq event) (observe self event).
Proof. unfold observe. destruct (observer self); by repeat constructor. Qed.

Lemma observe_failure self (error : CheckError E) :
  Forall (fun o => o = AttemptObservation_CommitUncertain
    /\ CheckError_consumption error = PossiblyConsumed) (observe_error self error).
Proof.
  unfold observe_error, observe. destruct (CheckError_consumption error) eqn:He; [done..|].
  destruct (observer self); by repeat constructor.
Qed.

(** C33. Whatever the server answers and whatever the clock and the network
    do: an admitted attempt is reserved in the committed tables; a busy or
    backing-off denial changed nothing; a capacity denial created no
    reservation but may have kept its cleanup; a completion that returns has
    committed; a failure that excludes consumption changed nothing; the
    observer hears of exactly the result, or of an uncertain commit; and a
    connection goes back to its pool only when nothing on it is
    unanswered. *)
Theorem pg_attempts_certain self db env subject receipt outcome :
  truthful effect_of admission_event db (admit_attempt (E := E) self db env subject)
  /\ truthful (fun _ => Published) completion_event db (complete self db env receipt outcome).
Proof.
  unfold truthful. split.
  - unfold admit_attempt. destruct (acquire_check_connection _) as [u|error] eqn:Hacq.
    + set (d := env_connected_at env + as_nanos (operation_timeout (config self))).
      pose proof (settles_admit subject (maximum_rows_per_shard (config self)) d (connect db env)) as Hs.
      unfold guarded_run.
      destruct (admit_transaction _ _ d _) as [s [[o|o]|]]; cbn -[effect_of failure_effect]; [| |done];
        destruct Hs as [He Hb]; (destruct o as [r|r]; cbn -[effect_of failure_effect] in *;
        (split; [by try apply Hb|])); (split; [done|]);
        first [destruct r; apply observe_event|apply observe_failure].
    + split; [done|]. by destruct (env_acquired env) as [[|err]|]; cbn in *; simplify_eq.
  - unfold complete. destruct (acquire_check_connection _) as [u|error] eqn:Hacq.
    + set (d := env_connected_at env + as_nanos (operation_timeout (config self))).
      pose proof (certain_complete receipt outcome d (connect db env)) as Hs.
      unfold guarded_run.
      destruct (complete_transaction _ _ d _) as [s [[o|o]|]]; cbn -[failure_effect]; [| |done].
      * destruct Hs as (Hp & _ & Hb). destruct o as [r|r]; cbn in *; (split; [by try apply Hb|]);
          (split; [by apply Hp|]); destruct r; apply observe_event.
      * destruct Hs as (Hn & Hy & Hb). unfold not_consumed, failure_effect in *.
        destruct o as [e|e]; cbn in *; (split; [by try apply Hb|]); (split; [|apply observe_failure]);
          destruct (CheckError_consumption e); cbn; auto.
    + split; [done|]. by destruct (env_acquired env) as [[|err]|]; cbn in *; simplify_eq.
Qed.
End Certain.
