(* ===== verification/PgAttemptSpec.v ===== *)
(** Durable attempts as a state machine: a stored row is the status of the
    memory backend's specification ([MemAttempts]), the invariant of the
    table, and what reading, reconciling and cleaning rows do to the status
    of their keys. *)

From Stdlib Require Import Ascii String.
From stdpp Require Import prelude list gmap sorting.
From S2P Require Import Prelude RustStd Identifier Policy Decision AttemptPolicy Key Check Observation MemAttempts PgErrors PgConfig PgSession PgTables PgAdmission PgConnection PgSpec PgHonest PgAttempts.
Open Scope Z_scope.
Open Scope list_scope.
Import AttemptStore.
Import PostgresAttempts.

Notation Backoff := AttemptStore.Backoff.
Notation Reserved := AttemptStore.Reserved.
Notation Free := AttemptStore.Free.

(** * Milliseconds and durations *)

Section Millis.
Implicit Types a b : Z.

Lemma leb_millis a b : Duration_leb (from_millis a) (from_millis b) = (a <=? b).
Proof. unfold Duration_leb, from_millis. cbn. destruct (Z.leb_spec (a * 1000000) (b * 1000000)), (Z.leb_spec a b); done || lia. Qed.

Lemma ltb_millis a b : Duration_ltb (from_millis a) (from_millis b) = (a <? b).
Proof. unfold Duration_ltb, from_millis. cbn. destruct (Z.ltb_spec (a * 1000000) (b * 1000000)), (Z.ltb_spec a b); done || lia. Qed.

Lemma add_millis a b : a + b <= i64_max -> Duration_saturating_add (from_millis a) (from_millis b) = from_millis (a + b).
Proof.
  intros Hab. unfold Duration_saturating_add, from_millis. cbn. f_equal. unfold_widths. lia.
Qed.

Lemma sub_millis a b : b <= a -> Duration_saturating_sub (from_millis a) (from_millis b) = from_millis (a - b).
Proof. intros Hab. unfold Duration_saturating_sub, from_millis. cbn. f_equal. lia. Qed.

(** A positive difference of two instants does not wrap. *)
Lemma delay_sub a b : 0 <= b < a -> a <= i64_max ->
  delay (wrapping_sub_i64 a b) = Delay_new (Duration_saturating_sub (from_millis a) (from_millis b)).
Proof.
  intros Hab Ha. rewrite sub_millis by lia. unfold delay, wrapping_sub_i64. do 2 f_equal.
  unfold i64_max in Ha. rewrite Z.mod_small by lia. lia.
Qed.

Lemma saturating_i64_exact a b : i64_min <= a + b <= i64_max -> saturating_add_i64 a b = a + b.
Proof. unfold saturating_add_i64. lia. Qed.
End Millis.

(** The backoff in milliseconds. *)
Definition delay_ms (p : AttemptPolicy) (n : Z) : Z :=
  if n =? 0 then 0
  else Z.min (QuotaPeriod_millis (ap_initial_delay p) * 2 ^ (n - 1)) (QuotaPeriod_millis (ap_maximum_delay p)).

Lemma delay_in_ms p n : AttemptPolicy_valid p -> 0 <= n -> AttemptPolicy_delay p n = from_millis (delay_ms p n).
Proof.
  intros Hp Hn. unfold delay_ms. destruct (Z.eqb_spec n 0) as [->|Hne]; [done|].
  by rewrite AttemptPolicy_delay_closed by (done || lia).
Qed.

Lemma delay_ms_bounds p n : AttemptPolicy_valid p -> 0 <= n ->
  0 <= delay_ms p n <= MAX_WINDOW_MILLIS /\ (0 < n -> 0 < delay_ms p n).
Proof.
  intros (_ & _ & Hi & Hm & _ & _ & Him & _) Hn. unfold QuotaPeriod_wf in *. unfold delay_ms.
  destruct (Z.eqb_spec n 0); [rewrite MAX_WINDOW_MILLIS_val; lia|].
  assert (1 <= 2 ^ (n - 1)) by (pose proof (Z.pow_pos_nonneg 2 (n - 1)); lia). nia.
Qed.

(** * The status of a row *)

Section Spec.
Context (policies : PolicyFingerprint -> AttemptPolicy).

Definition policy_of (key : CounterKey) : AttemptPolicy := policies (ck_fingerprint key).

Definition row_status (row : AttemptRow) : status :=
  match lease_until_ms row with
  | Some until => Reserved 0 (from_millis until) (failures row)
  | None =>
      if failures row =? 0 then Free
      else Backoff (failures row) (from_millis (last_failure_ms row)) (from_millis (retry_at_ms row))
  end.

(** What the key is at [t] milliseconds. *)
Definition pg_status (db : AttemptDb) (key : CounterKey) (t : Z) : status :=
  match db !! key with
  | Some row => settle (policy_of key) (row_status row) (from_millis t)
  | None => Free
  end.

(** A row the server can have written no later than [seen]. *)
Record row_wf (seen : Z) (key : CounterKey) (row : AttemptRow) : Prop := {
  rw_ok : attempt_row_ok key row = true;
  rw_policy : AttemptPolicy_valid (policy_of key);
  rw_quiet : quiet_ms row = QuotaPeriod_millis (ap_quiet_period (policy_of key));
  rw_times : match lease_until_ms row with
    | Some until => 0 <= until <= seen + QuotaPeriod_millis (ap_lease (policy_of key))
    | None => 0 <= last_failure_ms row <= seen
        /\ retry_at_ms row = last_failure_ms row + delay_ms (policy_of key) (failures row)
    end;
}.

Record Attempt_wf (seen : Z) (db : AttemptDb) : Prop := {
  aw_rows : map_Forall (row_wf seen) db;
  aw_slots : forall k1 k2 r1 r2, db !! k1 = Some r1 -> db !! k2 = Some r2 ->
    capacity_shard k1 = capacity_shard k2 -> capacity_slot r1 = capacity_slot r2 -> k1 = k2;
}.

Lemma row_wf_mono seen seen' key row : seen <= seen' -> row_wf seen key row -> row_wf seen' key row.
Proof.
  intros Hle [Hok Hp Hq Ht]. split; [done..|]. destruct (lease_until_ms row); lia.
Qed.

Lemma row_failures key row : attempt_row_ok key row = true -> 0 <= failures row <= u32_max.
Proof. intros Hok. unfold attempt_row_ok in Hok. bool_prop. lia. Qed.

(** ** Cleanup *)

(** A row whose expiry has passed is free. *)
Lemma expired_free seen key row t :
  row_wf seen key row -> expiry_ms row <= t -> seen + 3 * MAX_WINDOW_MILLIS <= i64_max ->
  settle (policy_of key) (row_status row) (from_millis t) = Free.
Proof.
  intros [Hok Hp Hq Ht] Hexp Hroom. pose proof (row_failures _ _ Hok) as Hf.
  destruct (Hp) as (_ & _ & _ & _ & Hqp & Hl & _). unfold QuotaPeriod_wf in *.
  rewrite MAX_WINDOW_MILLIS_val in *. unfold expiry_ms in Hexp. unfold row_status.
  destruct (lease_until_ms row) as [until|]; cbn [default from_option] in *; unfold id in *.
  - cbn [settle]. rewrite leb_millis. destruct (Z.leb_spec until t); [|lia]. unfold failed, forget.
    unfold QuotaPeriod_duration. rewrite add_millis, leb_millis by lia.
    by destruct (Z.leb_spec (until + QuotaPeriod_millis (ap_quiet_period (policy_of key))) t); [|lia].
  - destruct (failures row =? 0); [done|]. cbn [settle forget].
    unfold QuotaPeriod_duration. rewrite add_millis, leb_millis by lia.
    by destruct (Z.leb_spec (last_failure_ms row + QuotaPeriod_millis (ap_quiet_period (policy_of key))) t); [|lia].
Qed.

Lemma expired_attempts_elem db shard now key :
  key ∈ expired_attempts db shard now -> exists row, db !! key = Some row /\ expiry_ms row <= now.
Proof.
  unfold expired_attempts. intros ([e k] & -> & Hin)%list_elem_of_fmap.
  apply elem_of_take in Hin as (i & Hin & _). apply list_elem_of_lookup_2 in Hin.
  rewrite merge_sort_Permutation in Hin. apply list_elem_of_fmap in Hin as ([k' row] & [= -> ->] & Hin).
  apply list_elem_of_filter in Hin as [Hexp Hin]. unfold shard_list in Hin.
  apply list_elem_of_filter in Hin as [_ Hin]. apply elem_of_map_to_list in Hin.
  exists row. split; [done|]. by apply Z.leb_le.
Qed.

Lemma delete_attempts_lookup db keys key :
  delete_attempts db keys !! key = if decide (key ∈ keys) then None else db !! key.
Proof.
  induction keys as [|k keys IH]; [done|]. cbn [delete_attempts foldr].
  destruct (decide (k = key)) as [->|Hne].
  - rewrite lookup_delete_eq. by rewrite decide_True by (by left).
  - rewrite lookup_delete_ne by done. unfold delete_attempts in IH. rewrite IH.
    destruct (decide (key ∈ keys)); [by rewrite decide_True by (by right)|].
    rewrite decide_False; [done|]. intros [?|?]%elem_of_cons; [congruence|done].
Qed.

(** Cleanup is invisible. *)
Lemma cleanup_status seen db shard now key t :
  Attempt_wf seen db -> seen + 3 * MAX_WINDOW_MILLIS <= i64_max -> now <= t ->
  pg_status (delete_attempts db (expired_attempts db shard now)) key t = pg_status db key t.
Proof.
  intros Hdb Hroom Ht. unfold pg_status. rewrite delete_attempts_lookup. case_decide as Hin; [|done].
  apply expired_attempts_elem in Hin as (row & Hrow & Hexp). rewrite Hrow.
  rewrite (expired_free seen key row); [done| |lia|done]. by apply (aw_rows _ _ Hdb).
Qed.

Lemma cleanup_wf seen db keys : Attempt_wf seen db -> Attempt_wf seen (delete_attempts db keys).
Proof.
  intros [Hrows Hslots].
  assert (Hl : forall k r, delete_attempts db keys !! k = Some r -> db !! k = Some r).
  { intros k r. rewrite delete_attempts_lookup. by case_decide. }
  split.
  - intros k r Hr. by apply Hrows, Hl.
  - intros k1 k2 r1 r2 H1 H2. apply Hslots; by apply Hl.
Qed.

(** ** Reconciliation *)

(** What admission finds for a key: the denial of its status, or the
    failures to reserve it with. *)
Definition found_status (s : status) (now : Z) (last : Z) : AttemptDenial + Z * Z :=
  match status_denial s (from_millis now) with
  | Some denial => inl denial
  | None => inr (status_failures s, last)
  end.

Section Reconcile.
Context {E : Type} `{SqlxError E} (now : Z) (p : AttemptPolicy) (Hp : AttemptPolicy_valid p).
Context (Hnow : 0 <= now) (Hroom : now + 3 * MAX_WINDOW_MILLIS <= i64_max).
Notation Session := (Session E AttemptDb (AttemptQuery E)).

Lemma integer_period period : QuotaPeriod_wf period -> integer (QuotaPeriod_millis period) = Done (QuotaPeriod_millis period).
Proof.
  unfold QuotaPeriod_wf. rewrite MAX_WINDOW_MILLIS_val. intros Hw. unfold integer, try_from.
  by rewrite checked_in by (unfold i64_max; lia).
Qed.

(** A backoff that began at [last], at most a lease after now. *)
Lemma reconcile_failures_honest (s : Session) n last :
  0 <= n -> 0 <= last <= now + MAX_WINDOW_MILLIS -> (n = 0 -> last <= now) ->
  let st := forget p (if n =? 0 then Free else Backoff n (from_millis last) (from_millis (last + delay_ms p n)))
              (from_millis now) in
  reconcile_failures p now n last (last + delay_ms p n) s = (s, Done (Ok (found_status st now last))).
Proof.
  intros Hn Hl Hfree. pose proof (delay_ms_bounds p n Hp Hn) as [Hd _].
  pose proof Hp as (_ & _ & _ & _ & Hq & _). rewrite MAX_WINDOW_MILLIS_val in *.
  unfold reconcile_failures. erewrite expect_bind by (by apply integer_period).
  unfold QuotaPeriod_wf in Hq. rewrite MAX_WINDOW_MILLIS_val in Hq.
  rewrite saturating_i64_exact by (unfold i64_min; lia). unfold found_status, forget.
  unfold QuotaPeriod_duration.
  destruct (Z.eqb_spec n 0) as [->|Hne].
  - destruct (_ <=? now); [by rewrite Z.ltb_irrefl|]. unfold delay_ms. cbn [Z.eqb].
    destruct (Z.ltb_spec now (last + 0)); [specialize (Hfree eq_refl); lia|done].
  - rewrite add_millis, leb_millis by lia.
    destruct (_ <=? now); [by rewrite Z.ltb_irrefl|]. cbn [status_denial status_failures].
    rewrite ltb_millis. destruct (Z.ltb_spec now (last + delay_ms p n)); [|done].
    rewrite delay_sub by lia. done.
Qed.

Lemma reconcile_row_honest (s : Session) seen key row :
  policy_of key = p -> row_wf seen key row -> seen <= now ->
  exists last, reconcile_row p now (mkAttemptReply (Ok (failures row)) (Ok (last_failure_ms row))
       (Ok (retry_at_ms row)) (Ok (lease_until_ms row))) s
     = (s, Done (Ok (found_status (settle p (row_status row) (from_millis now)) now last))).
Proof.
  intros Hpol [Hok _ Hquiet Ht] Hseen. pose proof (row_failures _ _ Hok) as Hf. rewrite Hpol in *.
  pose proof Hp as (_ & _ & _ & _ & _ & Hl & _). unfold QuotaPeriod_wf in Hl.
  pose proof Hroom as Hroom'. rewrite MAX_WINDOW_MILLIS_val in Hl, Hroom'. unfold reconcile_row, decoded.
  cbn [ar_failures ar_last_failure_ms ar_retry_at_ms ar_lease_until_ms map_err].
  erewrite lift_bind by reflexivity.
  erewrite lift_bind by (unfold try_from; rewrite checked_in by exact Hf; reflexivity).
  do 3 (erewrite lift_bind by reflexivity). unfold row_status.
  destruct (lease_until_ms row) as [until|].
  - cbn [settle]. rewrite leb_millis. destruct (Z.ltb_spec now until) as [Hlt|Hge].
    + exists 0. destruct (Z.leb_spec until now); [lia|]. unfold found_status. cbn [status_denial].
      by rewrite delay_sub by lia.
    + exists until. destruct (Z.leb_spec until now); [|lia].
      assert (Hsat : 0 < saturating_add u32_max (failures row) 1) by (unfold saturating_add, u32_max in *; lia).
      pose proof (delay_ms_bounds p (saturating_add u32_max (failures row) 1) Hp ltac:(lia)) as [Hd _].
      rewrite MAX_WINDOW_MILLIS_val in Hd. unfold failed. rewrite delay_in_ms by (done || lia).
      erewrite expect_bind.
      2:{ unfold millis, try_from. rewrite as_millis_from_millis, checked_in by (unfold i64_max; lia). done. }
      rewrite saturating_i64_exact by (unfold i64_min; lia).
      rewrite add_millis by lia.
      rewrite reconcile_failures_honest by (rewrite ?MAX_WINDOW_MILLIS_val; lia).
      by destruct (Z.eqb_spec (saturating_add u32_max (failures row) 1) 0); [lia|].
  - exists (last_failure_ms row). destruct Ht as [Hlast ->].
    rewrite reconcile_failures_honest by (rewrite ?MAX_WINDOW_MILLIS_val; lia).
    by destruct (failures row =? 0).
Qed.
End Reconcile.

(** ** Writing rows *)

(** No other row of the shard has the slot. *)
Definition slot_open (db : AttemptDb) (key : CounterKey) (slot : Z) : Prop :=
  forall k r, db !! k = Some r -> k <> key -> capacity_shard k = capacity_shard key -> capacity_slot r <> slot.

Lemma shard_list_elem (db : AttemptDb) shard k r :
  (k, r) ∈ shard_list db shard <-> db !! k = Some r /\ capacity_shard k = shard.
Proof. unfold shard_list. rewrite list_elem_of_filter, elem_of_map_to_list. tauto. Qed.

Lemma store_row_Ok (db : AttemptDb) key row :
  attempt_row_ok key row = true -> i64_min <= expiry_ms row <= i64_max ->
  slot_open db key (capacity_slot row) -> store_row db key row = Ok (<[key := row]> db).
Proof.
  intros Hok [Hlo Hhi] Hslot. unfold store_row. rewrite Hok. cbn [negb]. unfold in_bigint.
  rewrite (proj2 (Z.leb_le _ _) Hlo), (proj2 (Z.leb_le _ _) Hhi). cbn [andb negb].
  destruct (slot_taken db key (capacity_slot row)) eqn:Ht; [|done]. exfalso.
  apply existsb_exists in Ht as ([k r] & Hin & Hk). cbn in Hk.
  apply list_elem_of_In, shard_list_elem in Hin as [Hr Hs].
  apply andb_true_iff in Hk as [Hne Heq]. apply Z.eqb_eq in Heq.
  apply (Hslot k r Hr); [|done|done]. intros ->. by rewrite bool_decide_eq_true_2 in Hne.
Qed.

Lemma store_wf seen db key row :
  Attempt_wf seen db -> row_wf seen key row -> slot_open db key (capacity_slot row) ->
  Attempt_wf seen (<[key := row]> db).
Proof.
  intros [Hrows Hslots] Hrow Hopen. split; [by apply map_Forall_insert_2|].
  intros k1 k2 r1 r2 H1 H2 Hs Hc.
  apply lookup_insert_Some in H1 as [[<- <-]|[Hne1 H1]]; apply lookup_insert_Some in H2 as [[<- <-]|[Hne2 H2]].
  - done.
  - exfalso. by apply (Hopen k2 r2 H2).
  - exfalso. by apply (Hopen k1 r1 H1).
  - by apply (Hslots k1 k2 r1 r2).
Qed.

Lemma slot_open_own seen db key row :
  Attempt_wf seen db -> db !! key = Some row -> slot_open db key (capacity_slot row).
Proof. intros [_ Hslots] Hrow k r Hr Hne Hs Hc. apply Hne. by apply (Hslots k key r row). Qed.

Lemma free_slot_Some (db : AttemptDb) shard maximum slot :
  free_slot db shard maximum = Some slot ->
  0 <= slot < maximum /\ forall k r, db !! k = Some r -> capacity_shard k = shard -> capacity_slot r <> slot.
Proof.
  unfold free_slot. intros Hs.
  assert (Hin : slot ∈ filter (fun slot => slot ∉ (capacity_slot ∘ snd <$> shard_list db shard)) (seqZ 0 maximum)).
  { destruct (filter _ _); [done|]. injection Hs as ->. by left. }
  apply list_elem_of_filter in Hin as [Hout Hin]. apply elem_of_seqZ in Hin. split; [lia|].
  intros k r Hr Hk Heq. apply Hout. apply list_elem_of_fmap. exists (k, r). split; [done|].
  by apply shard_list_elem.
Qed.

Lemma free_slot_None (db : AttemptDb) shard maximum :
  free_slot db shard maximum = None -> maximum <= Z.of_nat (length (shard_list db shard)).
Proof.
  unfold free_slot. intros Hn.
  assert (Hall : seqZ 0 maximum ⊆ (capacity_slot ∘ snd <$> shard_list db shard)).
  { intros slot Hin. destruct (decide (slot ∈ (capacity_slot ∘ snd <$> shard_list db shard))) as [|Hout]; [done|].
    assert (Hf : slot ∈ filter (fun slot => slot ∉ (capacity_slot ∘ snd <$> shard_list db shard)) (seqZ 0 maximum)).
    { by apply list_elem_of_filter. }
    destruct (filter _ _); [by apply elem_of_nil in Hf|done]. }
  assert (Hsub : seqZ 0 maximum ⊆+ (capacity_slot ∘ snd <$> shard_list db shard)).
  { apply NoDup_submseteq; [apply NoDup_seqZ|done]. }
  apply submseteq_length in Hsub. rewrite length_seqZ, length_fmap in Hsub. lia.
Qed.

(** ** Admission *)

Record attempt_ok (subject : AttemptSubject) : Prop := {
  ao_policy : policies (ap_fingerprint (as_policy subject)) = as_policy subject;
  ao_valid : AttemptPolicy_valid (as_policy subject);
  ao_key : CounterKey_wf (CounterKey_new (ap_fingerprint (as_policy subject)) (as_subject subject));
}.

Definition attempt_key (subject : AttemptSubject) : CounterKey :=
  CounterKey_new (ap_fingerprint (as_policy subject)) (as_subject subject).

Definition receipt_of (subject : AttemptSubject) (token : str) : PgAttemptReceipt :=
  mkPgAttemptReceipt (as_policy subject) (SubjectKey_as_bytes (as_subject subject)) token.

(** What an admission at [now] does: the denial of the key's status and no
    change; a reservation under the fresh token; or, for a free key of a
    full shard, a capacity denial.  No other key ever notices. *)
Definition admission_effect (maximum now : Z) (fresh : str) (subject : AttemptSubject)
    (db db' : AttemptDb) (admission : AttemptAdmission PgAttemptReceipt) : Prop :=
  let key := attempt_key subject in
  let s := pg_status db key now in
  (forall k t, k <> key -> now <= t -> pg_status db' k t = pg_status db k t)
  /\ match status_denial s (from_millis now) with
     | Some denial => admission = Denied denial /\ db' = db
     | None =>
         (admission = AttemptAdmission_Admitted (receipt_of subject fresh)
          /\ exists row, db' !! key = Some row /\ lease_token row = Some fresh
             /\ row_status row
                = Reserved 0 (from_millis (now + QuotaPeriod_millis (ap_lease (as_policy subject))))
                    (status_failures s))
         \/ (s = Free /\ admission = Denied AttemptDenial_StorageCapacity /\ db' !! key = None
             /\ maximum <= Z.of_nat (length (shard_list db' (capacity_shard key))))
     end.

(** The row of a new reservation. *)
Lemma reserved_row_wf subject now slot n last fresh :
  attempt_ok subject -> 0 <= now -> now + 3 * MAX_WINDOW_MILLIS <= i64_max ->
  0 <= slot <= 65535 -> 0 <= n <= u32_max ->
  let row := mkAttemptRow slot n last now (QuotaPeriod_millis (ap_quiet_period (as_policy subject)))
    (Some (now + QuotaPeriod_millis (ap_lease (as_policy subject)))) (Some fresh) in
  row_wf now (attempt_key subject) row /\ i64_min <= expiry_ms row <= i64_max.
Proof.
  intros [Hpol Hp [Hfp Hsub]] Hnow Hroom Hslot Hn row.
  pose proof Hp as (_ & _ & _ & _ & Hq & Hl & _). unfold QuotaPeriod_wf in *.
  rewrite MAX_WINDOW_MILLIS_val in *. cbn in Hfp, Hsub. split.
  - split; [|unfold policy_of; cbn; by rewrite Hpol..|].
    + unfold attempt_row_ok, size_between, row. cbn. rewrite Hfp, Hsub.
      repeat (rewrite (proj2 (Z.leb_le _ _)) by lia). done.
    + unfold policy_of, row. cbn. rewrite Hpol. lia.
  - unfold expiry_ms, row, i64_min. cbn. unfold id. lia.
Qed.
End Spec.
