(* ===== verification/PgAttemptRefine.v ===== *)
(** The PostgreSQL attempt limiter implements the attempt state machine of
    the memory backend: on a server that answers from its table before the
    deadline and whose clock does not go back, admissions and completions
    have exactly the effect the status of their key prescribes. *)

From Stdlib Require Import Ascii String.
From stdpp Require Import prelude list gmap sorting.
From S2P Require Import Prelude RustStd Identifier Policy Decision AttemptPolicy Key Check Observation MemAttempts PgErrors PgConfig PgSession PgTables PgAdmission PgConnection PgSpec PgHonest PgAttempts PgAttemptSpec.
Open Scope Z_scope.
Open Scope list_scope.
Import AttemptStore.
Import PostgresAttempts.

(** A transaction's server: the token its next reservation gets, and its
    transaction id. *)
Definition attempt_answer {E} `{SqlxError E} (fresh xid : str) (t : Tick)
    : forall A, AttemptQuery E A -> AttemptDb -> AttemptDb * Result E (Response A) :=
  attempt_sql (started t) fresh xid.

#[export] Instance attempt_answers {E} `{SqlxError E} fresh xid : Answers (E := E) (attempt_answer fresh xid).
Proof. split. intros. by eexists. Qed.

#[local] Hint Resolve attempt_answers : core.

Section Refine.
Context {E : Type} `{SqlxError E} (policies : PolicyFingerprint -> AttemptPolicy).
Context (fresh xid : str).
Notation honest := (honest_step (attempt_answer (E := E) fresh xid)).
Notation sess := (honest_session (attempt_answer (E := E) fresh xid)).

Definition at_ms (t : Tick) : Z := started t / 1000.

(** An admission takes at most twenty-six interactions: [begin], four
    statements and up to three more with a clock reading and a timeout
    setting each, then the commit with a setting and two clock readings. *)
Record admission_run (d : Z) (ts : list Tick) (cleaned sampled : Tick) : Prop := {
  nr_length : (26 <= length ts)%nat;
  nr_deadline : Forall (fun t => at_client t < d) ts;
  nr_cleaned : ts !! 6%nat = Some cleaned;
  nr_sampled : ts !! 12%nat = Some sampled;
  nr_clock : at_ms cleaned <= at_ms sampled;
}.

Lemma storage_key_of (subject : AttemptSubject) :
  storage_key (fingerprint_bytes (ap_fingerprint (as_policy subject))) (SubjectKey_as_bytes (as_subject subject))
  = attempt_key subject.
Proof.
  unfold storage_key, attempt_key, CounterKey_new. by destruct (ap_fingerprint (as_policy subject)), (as_subject subject).
Qed.

Lemma capacity_denial_honest tx db db' t t' t'' t''' ts :
  at_client t <= deadline tx -> at_client t'' < deadline tx ->
  finish_capacity_denial tx (sess db db' (t :: t' :: t'' :: t''' :: ts))
  = (sess db' db' ts, Done (Ok (Reusable (Denied AttemptDenial_StorageCapacity)))).
Proof.
  intros Hd Hd'. destruct tx as [d]. unfold finish_capacity_denial.
  by rewrite (commit_honest (attempt_answer fresh xid)).
Qed.

Lemma grant_honest d policy subject token db db' t t' t'' t''' ts :
  at_client t <= d -> at_client t'' < d ->
  grant (mkCheckTransaction d) policy subject (Ok token) (sess db db' (t :: t' :: t'' :: t''' :: ts))
  = (sess db' db' ts,
     Done (Ok (Reusable (AttemptAdmission_Admitted (mkPgAttemptReceipt policy subject token))))).
Proof.
  intros Hd Hd'. unfold grant. erewrite lift_bind by reflexivity.
  erewrite bind_Ok by (apply commit_honest; done). done.
Qed.

(** The failures of a status fit their column. *)
Lemma settle_failures p s t :
  0 <= status_failures s <= u32_max -> 0 <= status_failures (settle p s t) <= u32_max.
Proof.
  unfold settle, forget, failed, saturating_add, u32_max. intros Hs.
  repeat case_match; cbn in *; lia.
Qed.

Lemma pg_status_failures seen db key now :
  Attempt_wf policies seen db -> 0 <= status_failures (pg_status policies db key now) <= u32_max.
Proof.
  intros Hdb. unfold pg_status. destruct (db !! key) as [row|] eqn:Hrow; [|unfold u32_max; cbn; lia].
  apply settle_failures. pose proof (aw_rows _ _ _ Hdb _ _ Hrow) as [Hok _ _ _]. apply row_failures in Hok.
  unfold row_status. destruct (lease_until_ms row); [done|]. destruct (failures row =? 0); [|done].
  unfold u32_max. cbn. lia.
Qed.

Section Admission.
Context (subject : AttemptSubject) (Hsubject : attempt_ok policies subject).
Context (db : AttemptDb) (seen : Z) (Hdb : Attempt_wf policies seen db).
Context (maximum : Z) (Hmax : 1 <= maximum <= HARD_MAX_ROWS_PER_SHARD).

(** Once the key is not denied, it is reserved or its shard is full. *)
Lemma reserve_existing db1 now row n last t :
  Attempt_wf policies now db1 -> 0 <= now -> now + 3 * MAX_WINDOW_MILLIS <= i64_max ->
  db1 !! attempt_key subject = Some row -> 0 <= n <= u32_max ->
  exists db2 row2,
    attempt_answer (E := E) fresh xid t _
      (UPDATE_ATTEMPT (fingerprint_bytes (ap_fingerprint (as_policy subject)))
         (SubjectKey_as_bytes (as_subject subject)) n last now
         (now + QuotaPeriod_millis (ap_lease (as_policy subject)))) db1
    = (db2, Ok (mkResponse [Ok fresh] 1))
    /\ db2 = <[attempt_key subject := row2]> db1 /\ Attempt_wf policies now db2
    /\ lease_token row2 = Some fresh
    /\ row_status row2
       = Reserved 0 (from_millis (now + QuotaPeriod_millis (ap_lease (as_policy subject)))) n.
Proof.
  intros Hdb1 Hnow Hroom Hrow Hn. pose proof (aw_rows _ _ _ Hdb1 _ _ Hrow) as [Hok _ Hquiet _].
  assert (Hq : quiet_ms row = QuotaPeriod_millis (ap_quiet_period (as_policy subject))).
  { rewrite Hquiet. unfold policy_of. cbn. by rewrite (ao_policy _ _ Hsubject). }
  assert (Hslot : 0 <= capacity_slot row <= 65535) by (unfold attempt_row_ok in Hok; bool_prop; lia).
  destruct (reserved_row_wf policies subject now (capacity_slot row) n last fresh Hsubject Hnow Hroom Hslot Hn)
    as [Hwf Hexp].
  pose proof (slot_open_own policies now db1 _ row Hdb1 Hrow) as Hopen.
  eexists _, (mkAttemptRow (capacity_slot row) n last now _ _ (Some fresh)).
  unfold attempt_answer. cbn [attempt_sql]. rewrite storage_key_of, Hrow, Hq.
  rewrite store_row_Ok by (done || apply Hwf). cbn [returning]. split; [reflexivity|].
  split; [reflexivity|]. split; [by apply store_wf|done].
Qed.

Lemma reserve_new db1 now slot t :
  Attempt_wf policies now db1 -> 0 <= now -> now + 3 * MAX_WINDOW_MILLIS <= i64_max ->
  db1 !! attempt_key subject = None ->
  free_slot db1 (capacity_shard (attempt_key subject)) maximum = Some slot ->
  exists db2 row2,
    attempt_answer (E := E) fresh xid t _
      (INSERT_ATTEMPT (fingerprint_bytes (ap_fingerprint (as_policy subject)))
         (SubjectKey_as_bytes (as_subject subject)) slot now
         (QuotaPeriod_millis (ap_quiet_period (as_policy subject)))
         (now + QuotaPeriod_millis (ap_lease (as_policy subject)))) db1
    = (db2, Ok (mkResponse [Ok fresh] 1))
    /\ db2 = <[attempt_key subject := row2]> db1 /\ Attempt_wf policies now db2
    /\ lease_token row2 = Some fresh
    /\ row_status row2
       = Reserved 0 (from_millis (now + QuotaPeriod_millis (ap_lease (as_policy subject)))) 0.
Proof.
  intros Hdb1 Hnow Hroom Hrow [Hslot Hopen]%free_slot_Some. unfold HARD_MAX_ROWS_PER_SHARD in Hmax.
  destruct (reserved_row_wf policies subject now slot 0 now fresh Hsubject Hnow Hroom ltac:(lia)
    ltac:(unfold u32_max; lia)) as [Hwf Hexp].
  assert (Hslot' : slot_open db1 (attempt_key subject) slot) by (intros k r Hr _ Hs; by apply (Hopen k r)).
  eexists _, (mkAttemptRow slot 0 now now _ _ (Some fresh)).
  unfold attempt_answer. cbn [attempt_sql]. rewrite storage_key_of, Hrow.
  rewrite store_row_Ok by (done || apply Hwf). cbn [returning]. split; [reflexivity|].
  split; [reflexivity|]. split; [by apply store_wf|done].
Qed.

(** The branch without a row, on the last thirteen interactions. *)
Lemma reserve_slot_honest d db0 db1 now last ts :
  Forall (fun t => at_client t < d) last -> length last = 13%nat ->
  Attempt_wf policies now db1 -> 0 <= now -> now + 3 * MAX_WINDOW_MILLIS <= i64_max ->
  db1 !! attempt_key subject = None ->
  exists db' working rest admission,
    reserve_slot (mkCheckTransaction d) (as_policy subject)
      (fingerprint_bytes (ap_fingerprint (as_policy subject))) (SubjectKey_as_bytes (as_subject subject))
      (capacity_shard (attempt_key subject)) maximum now (sess db0 db1 (last ++ ts))
    = (sess db' working rest, Done (Ok (Reusable admission)))
    /\ ((admission = AttemptAdmission_Admitted (receipt_of subject fresh)
          /\ exists row, db' = <[attempt_key subject := row]> db1 /\ lease_token row = Some fresh
             /\ row_status row
                = Reserved 0 (from_millis (now + QuotaPeriod_millis (ap_lease (as_policy subject)))) 0)
        \/ (admission = Denied AttemptDenial_StorageCapacity /\ db' = db1
            /\ maximum <= Z.of_nat (length (shard_list db1 (capacity_shard (attempt_key subject))))))
    /\ Attempt_wf policies now db'.
Proof.
  intros Hd Hlen Hdb1 Hnow Hroom Hrow.
  do 13 (destruct last as [|? last]; [done|]). destruct last; [|done]. cbn [app].
  repeat match goal with Hf : Forall _ (_ :: _) |- _ => apply Forall_cons in Hf as [? Hf] end.
  pose proof Hsubject as [_ (_ & _ & _ & _ & Hq & Hl & _) _].
  unfold reserve_slot.
  erewrite bind_Ok by (eapply fetch_one_honest; [done|lia|reflexivity|reflexivity]).
  erewrite lift_bind by reflexivity.
  set (shard := capacity_shard (attempt_key subject)) in *.
  destruct (Z.leb_spec maximum (Z.of_nat (length (shard_list db1 shard)))) as [Hfull|Hroom1].
  { rewrite capacity_denial_honest by (cbn; lia). do 4 eexists. split; [reflexivity|]. by split; [right|]. }
  erewrite bind_Ok by (eapply fetch_one_honest; [done|lia|reflexivity|reflexivity]).
  erewrite lift_bind by reflexivity.
  destruct (free_slot db1 shard maximum) as [slot|] eqn:Hslot.
  2:{ apply free_slot_None in Hslot. lia. }
  erewrite expect_bind by (by apply integer_period). erewrite expect_bind by (by apply integer_period).
  unfold QuotaPeriod_wf in Hq, Hl. pose proof Hroom as Hroom'. rewrite MAX_WINDOW_MILLIS_val in Hroom', Hq, Hl.
  rewrite saturating_i64_exact by (unfold i64_min; lia).
  destruct (reserve_new db1 now slot t7) as (db2 & row2 & Hins & -> & Hwf & Htok & Hstat); [done..|].
  erewrite bind_Ok by (eapply fetch_one_honest; [done|lia|exact Hins|reflexivity]).
  rewrite grant_honest by lia. do 4 eexists. split; [reflexivity|]. split; [|exact Hwf].
  left. split; [done|]. by exists row2.
Qed.

Lemma admission_honest d ts cleaned sampled :
  admission_run d ts cleaned sampled -> 0 <= seen -> seen <= at_ms sampled ->
  at_ms sampled + 3 * MAX_WINDOW_MILLIS <= i64_max ->
  exists db' working rest admission,
    admit_transaction subject maximum d (sess db db ts)
    = (sess db' working rest, Done (Ok (Reusable admission)))
    /\ admission_effect policies maximum (at_ms sampled) fresh subject db db' admission
    /\ Attempt_wf policies (at_ms sampled) db'.
Proof.
  intros [Hlen Hd Hcl Hsa Hclock] Hseen0 Hseen Hroom.
  do 26 (destruct ts as [|? ts]; [cbn in Hlen; lia|]). cbn in Hcl, Hsa. simplify_eq.
  repeat match goal with Hf : Forall _ (_ :: _) |- _ => apply Forall_cons in Hf as [? Hf] end.
  set (now := at_ms sampled) in *. set (key := attempt_key subject).
  set (shard := capacity_shard key).
  set (db1 := delete_attempts db (expired_attempts db shard (at_ms cleaned))).
  assert (Hdb1 : Attempt_wf policies now db1).
  { unfold db1. pose proof (cleanup_wf policies seen db (expired_attempts db shard (at_ms cleaned)) Hdb) as [Hr Hs].
    split; [|done]. intros k r Hk. eapply row_wf_mono; [done|]. by apply Hr. }
  assert (Hstatus : forall k u, now <= u -> pg_status policies db1 k u = pg_status policies db k u).
  { intros k u Hu. unfold db1. apply (cleanup_status policies seen); [done|lia|lia]. }
  unfold admit_transaction.
  erewrite bind_Ok by apply begin_honest.
  erewrite bind_Ok by (apply execute_honest; [done|lia|reflexivity]).
  erewrite bind_Ok by (apply execute_honest; [done|lia|reflexivity]).
  erewrite bind_Ok by (apply fetch_all_honest; [done|lia|reflexivity]).
  erewrite bind_Ok by (eapply fetch_one_honest; [done|lia|reflexivity|reflexivity]).
  erewrite lift_bind by reflexivity.
  change (started cleaned / 1000) with (at_ms cleaned). change (started sampled / 1000) with now.
  change (Z.lxor _ _) with shard. fold db1. cbn [rows]. rewrite storage_key_of. fold key.
  assert (Hframe : forall row2 k u, k <> key -> now <= u ->
    pg_status policies (<[key := row2]> db1) k u = pg_status policies db k u).
  { intros row2 k u Hk Hu. rewrite <- Hstatus by done. unfold pg_status. by rewrite lookup_insert_ne. }
  pose proof Hsubject as [Hpol Hp _].
  pose proof Hp as (_ & _ & _ & _ & Hq & Hl & _).
  assert (Hlease : integer (QuotaPeriod_millis (ap_lease (as_policy subject))) = Done (QuotaPeriod_millis (ap_lease (as_policy subject)))) by (by apply integer_period).
  unfold QuotaPeriod_wf in Hq, Hl. pose proof Hroom as Hroom'. rewrite MAX_WINDOW_MILLIS_val in Hroom', Hq, Hl.
  destruct (db1 !! key) as [row|] eqn:Hrow; cbn [head].
  - pose proof (aw_rows _ _ _ Hdb1 _ _ Hrow) as Hrwf.
    pose proof (row_failures _ _ (rw_ok _ _ _ _ Hrwf)) as Hf.
    destruct (reconcile_row_honest policies now (as_policy subject) Hp ltac:(lia) Hroom
      (sess db db1 (t12 :: t13 :: t14 :: t15 :: t16 :: t17 :: t18 :: t19 :: t20 :: t21 :: t22 :: t23 :: t24 :: ts))
      now key row Hpol Hrwf ltac:(lia)) as [last Hrec].
    erewrite bind_Ok by exact Hrec. clear Hrec.
    assert (Hst : settle (as_policy subject) (row_status row) (from_millis now) = pg_status policies db key now).
    { rewrite <- Hstatus by lia. unfold pg_status, policy_of. rewrite Hrow. cbn. by rewrite Hpol. }
    rewrite Hst. unfold found_status.
    destruct (status_denial (pg_status policies db key now) (from_millis now)) as [denial|] eqn:Hden.
    + unfold finish_denial, deny. rewrite denied_honest. do 4 eexists. split; [reflexivity|].
      split; [split; [done|]|].
      * unfold key in Hden. rewrite Hden. done.
      * destruct Hdb as [Hr Hs]. split; [|done]. intros k r Hk. eapply row_wf_mono; [|by apply Hr]. lia.
    + erewrite expect_bind by exact Hlease. rewrite saturating_i64_exact by (unfold i64_min; lia).
      destruct (reserve_existing db1 now row (status_failures (pg_status policies db key now)) last t14)
        as (db2 & row2 & Hup & -> & Hwf & Htok & Hstat); [done|lia|done|done| |].
      { by apply (pg_status_failures seen). }
      erewrite bind_Ok by (eapply fetch_one_honest; [done|lia|exact Hup|reflexivity]).
      rewrite grant_honest by lia. do 4 eexists. split; [reflexivity|]. split; [|exact Hwf].
      split; [apply Hframe|]. fold key. rewrite Hden. left. split; [done|]. exists row2.
      by rewrite lookup_insert_eq.
  - assert (Hfree : pg_status policies db key now = Free).
    { rewrite <- Hstatus by lia. unfold pg_status. by rewrite Hrow. }
    erewrite (bind_Ok (mret _)) by reflexivity. lazy beta iota.
    destruct (reserve_slot_honest d db db1 now
      [t12; t13; t14; t15; t16; t17; t18; t19; t20; t21; t22; t23; t24] ts) as (db' & working & rest & admission &
      Htx & Hend & Hwf); [by repeat constructor|done|done|lia|done|done|].
    do 4 eexists. split; [exact Htx|]. split; [|exact Hwf].
    destruct Hend as [(-> & row2 & -> & Htok & Hstat)|(-> & -> & Hfull)].
    + split; [apply Hframe|]. fold key. rewrite Hfree. left. split; [done|]. exists row2.
      by rewrite lookup_insert_eq.
    + split; [by intros k u _ Hu; apply Hstatus|]. fold key. rewrite Hfree. right. by split_and!.
Qed.
End Admission.

(** ** Completion *)

(** The state a completion leaves its key in. *)
Definition completed_status (p : AttemptPolicy) (outcome : AttemptOutcome) (n now : Z) : status :=
  match outcome with Success => Free | _ => failed p n (from_millis now) end.

Definition completion_of (p : AttemptPolicy) (outcome : AttemptOutcome) (n : Z) : AttemptCompletion :=
  mkAttemptCompletion outcome (outcome_failures outcome n)
    (Delay_new (AttemptPolicy_delay p (outcome_failures outcome n))).

(** The backoff of the statement is the schedule of the policy. *)
Lemma sql_delay p n : AttemptPolicy_valid p -> 0 <= n <= u32_max ->
  Z.min (QuotaPeriod_millis (ap_maximum_delay p)) (QuotaPeriod_millis (ap_initial_delay p) * 2 ^ Z.min n 63)
  = delay_ms p (saturating_add u32_max n 1).
Proof.
  intros (_ & _ & Hi & Hm & _) Hn. unfold QuotaPeriod_wf in *. rewrite MAX_WINDOW_MILLIS_val in *.
  unfold delay_ms, saturating_add, u32_max in *.
  destruct (Z.eqb_spec (Z.min 4294967295 (n + 1)) 0); [lia|]. rewrite Z.min_comm.
  destruct (Z.le_gt_cases n 63).
  - do 3 f_equal. lia.
  - assert (Hbig : forall k, 63 <= k -> 2 ^ 63 <= 2 ^ k) by (intros; apply Z.pow_le_mono_r; lia).
    pose proof (Hbig (Z.min 4294967295 (n + 1) - 1) ltac:(lia)) as H1.
    assert (H2 : 2 ^ Z.min n 63 = 2 ^ 63) by (f_equal; lia). rewrite H2.
    assert (9007199254740 <= 2 ^ 63) by (vm_compute; discriminate). nia.
Qed.

Section Completion.
Context (subject : AttemptSubject) (Hsubject : attempt_ok policies subject).
Context (db : AttemptDb) (seen : Z) (Hdb : Attempt_wf policies seen db).

Definition completion_sql (token : str) (outcome : AttemptOutcome) (transaction_id : option str)
    : AttemptQuery E (CompleteReply E) :=
  COMPLETE_SQL (fingerprint_bytes (ap_fingerprint (as_policy subject))) (SubjectKey_as_bytes (as_subject subject))
    token (bool_decide (outcome = Success)) (QuotaPeriod_millis (ap_initial_delay (as_policy subject)))
    (QuotaPeriod_millis (ap_maximum_delay (as_policy subject))) transaction_id.

Lemma completion_query_honest token outcome transaction_id :
  completion_query (receipt_of subject token) outcome transaction_id
  = Done (completion_sql token outcome transaction_id).
Proof.
  pose proof Hsubject as [_ (_ & _ & Hi & Hm & _) _].
  unfold completion_query. cbn [pr_policy pr_subject pr_token receipt_of].
  by rewrite (integer_period _ Hi), (integer_period _ Hm).
Qed.

(** The reply of a completion, decoded. *)
Lemma completion_result_honest outcome n : 0 <= n <= u32_max ->
  completion_result (E := E) [mkCompleteReply (Ok (outcome_failures outcome n))
    (Ok (delay_ms (as_policy subject) (outcome_failures outcome n)))] outcome
  = Ok (StagedApplied (completion_of (as_policy subject) outcome n)).
Proof.
  intros Hn. pose proof (ao_valid _ _ Hsubject) as Hp.
  assert (Hf : 0 <= outcome_failures outcome n <= u32_max /\ (outcome <> Success -> 0 < outcome_failures outcome n)).
  { unfold outcome_failures, saturating_add, u32_max in *. destruct outcome; (split; [lia|]); [done|lia..]. }
  destruct Hf as [Hf Hpos]. pose proof (delay_ms_bounds _ _ Hp (proj1 Hf)) as [Hd Hdpos].
  unfold completion_result. cbn [head cr_failures cr_delay_ms map_err mbind Result_bind].
  unfold try_from. rewrite checked_in by exact Hf. cbn [ok_or mbind Result_bind].
  rewrite (proj2 (Z.ltb_ge _ 0)) by lia.
  assert (Hdelay : delay (delay_ms (as_policy subject) (outcome_failures outcome n))
    = Delay_new (AttemptPolicy_delay (as_policy subject) (outcome_failures outcome n))).
  { unfold delay. rewrite Z.abs_eq by lia. by rewrite delay_in_ms by (done || lia). }
  rewrite Hdelay. pose proof (completion_done _ outcome n Hp (proj1 Hn)) as Hdone. unfold completion in Hdone.
  destruct (AttemptCompletion_new outcome _ _); [|done]. injection Hdone as ->. done.
Qed.

(** The statement on a row it completes. *)
Lemma completion_sql_honest started row token outcome transaction_id :
  db !! attempt_key subject = Some row ->
  completes row (started / 1000) xid token transaction_id = true ->
  seen <= started / 1000 -> 0 <= started / 1000 -> started / 1000 + 3 * MAX_WINDOW_MILLIS <= i64_max ->
  exists row',
    attempt_sql (E := E) started fresh xid _ (completion_sql token outcome transaction_id) db
    = (<[attempt_key subject := row']> db,
       Ok (mkResponse [mkCompleteReply (Ok (outcome_failures outcome (failures row)))
             (Ok (delay_ms (as_policy subject) (outcome_failures outcome (failures row))))] 1))
    /\ Attempt_wf policies (started / 1000) (<[attempt_key subject := row']> db)
    /\ lease_token row' = None
    /\ row_status row' = completed_status (as_policy subject) outcome (failures row) (started / 1000).
Proof.
  intros Hrow Hcompletes Hseen Hnow Hroom. set (now := started / 1000) in *.
  pose proof Hsubject as [Hpol Hp _]. pose proof Hp as (_ & _ & _ & _ & Hq & _). unfold QuotaPeriod_wf in Hq.
  rewrite MAX_WINDOW_MILLIS_val in *.
  pose proof (aw_rows _ _ _ Hdb _ _ Hrow) as [Hok _ Hquiet _]. pose proof (row_failures _ _ Hok) as Hf.
  assert (Hpk : policy_of policies (attempt_key subject) = as_policy subject) by exact Hpol.
  rewrite Hpk in Hquiet.
  set (n' := outcome_failures outcome (failures row)).
  assert (Hn' : 0 <= n' <= u32_max).
  { unfold n', outcome_failures, saturating_add, u32_max in *. destruct outcome; lia. }
  pose proof (delay_ms_bounds _ _ Hp (proj1 Hn')) as [Hd _]. rewrite MAX_WINDOW_MILLIS_val in Hd.
  assert (Hnext : completed_row row now (bool_decide (outcome = Success))
      (QuotaPeriod_millis (ap_initial_delay (as_policy subject)))
      (QuotaPeriod_millis (ap_maximum_delay (as_policy subject)))
    = (mkAttemptRow (capacity_slot row) n' now (now + delay_ms (as_policy subject) n') (quiet_ms row) None None,
       delay_ms (as_policy subject) n')).
  { unfold completed_row, n'. rewrite (sql_delay _ _ Hp Hf). 
    destruct outcome; cbn [bool_decide outcome_failures]; unfold saturating_add;
      rewrite ?(Z.min_comm (failures row + 1)); done. }
  set (row' := mkAttemptRow (capacity_slot row) n' now _ _ None None) in Hnext.
  assert (Hok' : attempt_row_ok (attempt_key subject) row' = true).
  { unfold attempt_row_ok in *. rewrite !andb_true_iff in Hok |- *. destruct_and? Hok. split_and!; try done;
      apply Z.leb_le; apply Hn'. }
  exists row'. unfold completion_sql. cbn [attempt_sql]. rewrite storage_key_of, Hrow. fold now.
  rewrite Hcompletes, Hnext. unfold in_bigint. cbn [retry_at_ms row'].
  rewrite !(proj2 (Z.leb_le _ _)) by (unfold i64_min; lia). cbn [andb].
  pose proof (slot_open_own policies seen db _ row Hdb Hrow) as Hopen.
  rewrite store_row_Ok; [|done| |done].
  2:{ unfold expiry_ms. cbn. unfold id, i64_min. rewrite Hquiet. lia. }
  split; [done|]. split; [|split; [done|]].
  - apply store_wf; [|split; [done|by rewrite Hpk|by rewrite Hpk|]|done].
    + destruct Hdb as [Hr Hs]. split; [|done]. intros k r Hk. apply (row_wf_mono _ seen); [done|by apply Hr].
    + cbn. rewrite Hpk. lia.
  - unfold row_status, completed_status, failed. cbn [row' lease_until_ms failures last_failure_ms retry_at_ms].
    unfold n' in *.
    destruct outcome; [done|..]; cbn [outcome_failures] in *;
      (destruct (Z.eqb_spec (saturating_add u32_max (failures row) 1) 0); [unfold saturating_add, u32_max in *; lia|]);
      rewrite delay_in_ms, add_millis by (done || unfold saturating_add, u32_max in *; lia); done.
Qed.

(** What a completion at [now] does: it applies exactly the live reservation
    its receipt names. *)
Definition completion_effect (now : Z) (token : str) (outcome : AttemptOutcome) (db' : AttemptDb)
    (result : AttemptCompletionResult) : Prop :=
  (forall k, k <> attempt_key subject -> db' !! k = db !! k)
  /\ match db !! attempt_key subject with
     | Some row =>
         if completes row now xid token None
         then result = Applied (completion_of (as_policy subject) outcome (failures row))
              /\ exists row', db' !! attempt_key subject = Some row' /\ lease_token row' = None
                 /\ row_status row' = completed_status (as_policy subject) outcome (failures row) now
         else result = Stale /\ db' = db
     | None => result = Stale /\ db' = db
     end.

(** A statement that completes nothing. *)
Lemma completion_sql_stale started token outcome transaction_id :
  from_option (fun row => completes row (started / 1000) xid token transaction_id) false
    (db !! attempt_key subject) = false ->
  attempt_sql (E := E) started fresh xid _ (completion_sql token outcome transaction_id) db
  = (db, Ok (mkResponse [] 0)).
Proof.
  intros Hs. unfold completion_sql. cbn [attempt_sql]. rewrite storage_key_of.
  destruct (db !! attempt_key subject) as [row|]; [|done]. cbn in Hs. by rewrite Hs.
Qed.

(** A completion takes eight interactions. *)
Record completion_run (d : Z) (ts : list Tick) (completed : Tick) : Prop := {
  cu_length : (8 <= length ts)%nat;
  cu_deadline : Forall (fun t => at_client t < d) ts;
  cu_completed : ts !! 3%nat = Some completed;
}.

Lemma completion_honest d ts completed token outcome :
  completion_run d ts completed -> 0 <= seen -> seen <= at_ms completed ->
  at_ms completed + 3 * MAX_WINDOW_MILLIS <= i64_max ->
  exists db' working rest result,
    complete_transaction (receipt_of subject token) outcome d (sess db db ts)
    = (sess db' working rest, Done (Ok (Reusable result)))
    /\ completion_effect (at_ms completed) token outcome db' result
    /\ Attempt_wf policies (at_ms completed) db'.
Proof.
  intros [Hlen Hd Hco] Hseen0 Hseen Hroom.
  do 8 (destruct ts as [|? ts]; [cbn in Hlen; lia|]). cbn in Hco. simplify_eq.
  repeat match goal with Hf : Forall _ (_ :: _) |- _ => apply Forall_cons in Hf as [? Hf] end.
  set (now := at_ms completed) in *. assert (Hnow : 0 <= now) by lia. unfold complete_transaction.
  erewrite bind_Ok by apply begin_honest.
  erewrite expect_bind by (by apply completion_query_honest).
  unfold completion_effect.
  destruct (from_option (fun row => completes row now xid token None) false (db !! attempt_key subject))
    eqn:Hc.
  - destruct (db !! attempt_key subject) as [row|] eqn:Hrow; [|done]. cbn in Hc. rewrite Hc.
    destruct (completion_sql_honest (started completed) row token outcome None)
      as (row' & Hsql & Hwf & Htok & Hstat); [done|done|done|exact Hnow|done|].
    erewrite bind_Ok by (apply fetch_all_honest; [done|lia|exact Hsql]). cbn [rows].
    pose proof (row_failures _ _ (rw_ok _ _ _ _ (aw_rows _ _ _ Hdb _ _ Hrow))) as Hf.
    erewrite lift_bind by (by rewrite completion_result_honest).
    erewrite bind_Ok by (apply commit_honest; done || lia).
    do 4 eexists. split; [reflexivity|]. split; [|exact Hwf].
    split; [intros k Hk; by rewrite lookup_insert_ne|]. split; [done|]. exists row'.
    by rewrite lookup_insert_eq.
  - pose proof (completion_sql_stale (started completed) token outcome None Hc) as Hsql.
    erewrite bind_Ok by (apply fetch_all_honest; [done|lia|exact Hsql]). cbn [rows].
    erewrite lift_bind by reflexivity.
    erewrite bind_Ok by (apply commit_honest; done || lia).
    do 4 eexists. split; [reflexivity|]. split.
    + split; [done|]. destruct (db !! attempt_key subject) as [row|]; [|done]. cbn in Hc. by rewrite Hc.
    + destruct Hdb as [Hr Hs]. split; [|done]. intros k r Hk. apply (row_wf_mono _ seen); [done|by apply Hr].
Qed.
End Completion.

(** ** The calls *)

(** A call on an honest server. *)
Record attempt_env (self : PostgresAttemptLimiter) (env : PgEnv E AttemptDb (AttemptQuery E)) (ts : list Tick)
    : Prop := {
  ae_config : 1 <= maximum_rows_per_shard (config self) <= HARD_MAX_ROWS_PER_SHARD;
  ae_acquired : env_acquired env = Some (Ok tt);
  ae_schedule : env_schedule env = map honest ts;
}.

Definition call_deadline (self : PostgresAttemptLimiter) (env : PgEnv E AttemptDb (AttemptQuery E)) : Z :=
  env_connected_at env + as_nanos (operation_timeout (config self)).

(** C30. On a server that answers from its table before the deadline and
    whose clock does not go back, an admission implements the attempt state
    machine of the memory backend: it is denied exactly when the key's
    settled status is reserved or backing off, with that status' delay and
    no change to the table; otherwise the key is reserved for one lease
    under the fresh token, with the failures it had, unless the key is free
    and its shard holds the maximum of rows; and neither the cleanup of
    sixteen expired rows nor the reservation changes the status of another
    key from then on. *)
Theorem pg_attempt_admission_refines self db env subject seen cleaned sampled ts
    (Hsubject : attempt_ok policies subject) (Hdb : Attempt_wf policies seen db)
    (Henv : attempt_env self env ts)
    (Hrun : admission_run (call_deadline self env) ts cleaned sampled)
    (Hseen : 0 <= seen <= at_ms sampled) (Hroom : at_ms sampled + 3 * MAX_WINDOW_MILLIS <= i64_max) :
  exists s admission,
    (admit_attempt self db env subject).1 = mkCallEnd (Done (Ok admission)) (Some (s, false))
    /\ admission_effect policies (maximum_rows_per_shard (config self)) (at_ms sampled) fresh subject
         db (committed s) admission
    /\ Attempt_wf policies (at_ms sampled) (committed s).
Proof.
  destruct Henv as [Hmax Hacq Hsched].
  destruct (admission_honest subject Hsubject db seen Hdb _ Hmax _ ts cleaned sampled Hrun)
    as (db' & working & rest & admission & Htx & Heff & Hwf); [lia..|done|].
  unfold admit_attempt. rewrite Hacq. cbn [acquire_check_connection map_err]. unfold guarded_run, connect.
  rewrite Hsched. change (mkSession db db (map honest ts) false) with (sess db db ts).
  fold (call_deadline self env). rewrite Htx. cbn. eexists _, admission. split; [reflexivity|]. by split.
Qed.

(** C31. A completion applies exactly the live reservation its receipt names
    and changes nothing else: success frees the key, any other outcome backs
    it off by the policy's schedule, the receipt's token is gone in either
    case, and every other receipt is stale and changes nothing. *)
Theorem pg_attempt_completion_refines self db env subject token outcome seen completed ts
    (Hsubject : attempt_ok policies subject) (Hdb : Attempt_wf policies seen db)
    (Henv : attempt_env self env ts) (Hrun : completion_run (call_deadline self env) ts completed)
    (Hseen : 0 <= seen <= at_ms completed) (Hroom : at_ms completed + 3 * MAX_WINDOW_MILLIS <= i64_max) :
  exists s result,
    (complete self db env (receipt_of subject token) outcome).1
    = mkCallEnd (Done (Ok result)) (Some (s, false))
    /\ completion_effect subject db (at_ms completed) token outcome (committed s) result
    /\ Attempt_wf policies (at_ms completed) (committed s).
Proof.
  destruct Henv as [Hmax Hacq Hsched].
  destruct (completion_honest subject Hsubject db seen Hdb _ ts completed token outcome Hrun)
    as (db' & working & rest & result & Htx & Heff & Hwf); [lia..|done|].
  unfold complete. rewrite Hacq. cbn [acquire_check_connection map_err]. unfold guarded_run, connect.
  rewrite Hsched. change (mkSession db db (map honest ts) false) with (sess db db ts).
  fold (call_deadline self env). rewrite Htx. cbn. eexists _, result. split; [reflexivity|]. by split.
Qed.
End Refine.

(** * Concrete calls *)

#[local] Existing Instance example_sqlx.

(** A policy of one second doubling to a minute, forgotten after an hour,
    with leases of five seconds. *)
Definition example_pg_policy : AttemptPolicy :=
  mkAttemptPolicy (mkPolicyId [97]) (mkScopeId [98]) (mkQuotaPeriod 1000) (mkQuotaPeriod 60000)
    (mkQuotaPeriod 3600000) (mkQuotaPeriod 5000) (from_digest (example_digest 7)).

Definition example_pg_subject (n : Z) : AttemptSubject :=
  mkAttemptSubject example_pg_policy (mkSubjectKey (example_digest n)).

Lemma example_pg_policy_valid : AttemptPolicy_valid example_pg_policy.
Proof.
  unfold AttemptPolicy_valid, PolicyId_wf, ScopeId_wf, identifier_wf, QuotaPeriod_wf.
  rewrite MAX_WINDOW_MILLIS_val. unfold MAX_IDENTIFIER_LENGTH. simpl.
  split_and!; try lia; repeat constructor.
Qed.

Lemma example_attempt_ok n : attempt_ok (fun _ => example_pg_policy) (example_pg_subject n).
Proof. split; [done|apply example_pg_policy_valid|done]. Qed.

Lemma empty_wf policies seen : Attempt_wf policies seen ∅.
Proof. split; [apply map_Forall_empty|]. intros k1 k2 r1 r2 H1. by rewrite lookup_empty in H1. Qed.

(** A key reserved until 9 s after two failures, with the token [116]. *)
Definition example_reserved : AttemptDb :=
  {[ attempt_key (example_pg_subject 1) := mkAttemptRow 0 2 100 4000 3600000 (Some 9000) (Some [116]) ]}.

Lemma example_reserved_wf : Attempt_wf (fun _ => example_pg_policy) 4000 example_reserved.
Proof.
  split.
  - apply map_Forall_singleton. split; [reflexivity|apply example_pg_policy_valid|done|cbn; lia].
  - unfold example_reserved. intros k1 k2 r1 r2 [<- <-]%lookup_singleton_Some [<- <-]%lookup_singleton_Some. done.
Qed.

(** A server at 6 s. *)
Definition example_tick : Tick := mkTick 5 6000000 6000500.

Definition example_attempt_env (n : nat) : PgEnv unit AttemptDb (AttemptQuery unit) :=
  mkPgEnv (Some (Ok tt)) 0 (map (honest_step (attempt_answer [102] [49])) (replicate n example_tick)) DURATION_ZERO.

Lemma example_attempt_env_ok n :
  attempt_env [102] [49] PostgresAttempts.new (example_attempt_env n) (replicate n example_tick).
Proof. by split. Qed.

(** C30 witness. *)
Lemma pg_attempt_admission_refines_witness :
  exists s, (admit_attempt PostgresAttempts.new ∅ (example_attempt_env 26) (example_pg_subject 1)).1
    = mkCallEnd (Done (Ok (AttemptAdmission_Admitted (receipt_of (example_pg_subject 1) [102])))) (Some (s, false))
    /\ (exists row, committed s !! attempt_key (example_pg_subject 1) = Some row
         /\ lease_token row = Some [102] /\ row_status row = Reserved 0 (from_millis 11000) 0)
    /\ Attempt_wf (fun _ => example_pg_policy) 6000 (committed s).
Proof.
  destruct (pg_attempt_admission_refines (fun _ => example_pg_policy) [102] [49] PostgresAttempts.new ∅
    (example_attempt_env 26) (example_pg_subject 1) 0 example_tick example_tick (replicate 26 example_tick)
    (example_attempt_ok 1) (empty_wf _ 0) (example_attempt_env_ok 26)
    ltac:(split; [done|by apply Forall_replicate|done|done|done]) ltac:(vm_compute; split; discriminate)
    ltac:(vm_compute; discriminate)) as (s & admission & Hrun & [_ Heff] & Hwf).
  assert (Hend : ce_result (admit_attempt PostgresAttempts.new ∅ (example_attempt_env 26) (example_pg_subject 1)).1
    = Done (Ok (AttemptAdmission_Admitted (receipt_of (example_pg_subject 1) [102])))) by (vm_compute; reflexivity).
  rewrite Hrun in Hend. injection Hend as ->.
  assert (Hfree : pg_status (fun _ => example_pg_policy) ∅ (attempt_key (example_pg_subject 1)) (at_ms example_tick)
    = Free) by reflexivity.
  rewrite Hfree in Heff. cbn [status_denial status_failures] in Heff.
  destruct Heff as [(_ & row & Hrow & Htok & Hst)|(_ & Hden & _)]; [|discriminate Hden].
  exists s. split; [exact Hrun|]. split; [|exact Hwf]. exists row. exact (conj Hrow (conj Htok Hst)).
Defined.

(** C31 witness. *)
Lemma pg_attempt_completion_refines_witness :
  exists s, (complete PostgresAttempts.new example_reserved (example_attempt_env 8)
               (receipt_of (example_pg_subject 1) [116]) Failure).1
    = mkCallEnd (Done (Ok (Applied (mkAttemptCompletion Failure 3 (Delay_new (from_millis 4000)))))) (Some (s, false))
    /\ Attempt_wf (fun _ => example_pg_policy) 6000 (committed s).
Proof.
  destruct (pg_attempt_completion_refines (fun _ => example_pg_policy) [102] [49] PostgresAttempts.new
    example_reserved (example_attempt_env 8) (example_pg_subject 1) [116] Failure 4000 example_tick
    (replicate 8 example_tick) (example_attempt_ok 1) example_reserved_wf (example_attempt_env_ok 8)
    ltac:(split; [done|by apply Forall_replicate|done]) ltac:(vm_compute; split; discriminate)
    ltac:(vm_compute; discriminate)) as (s & result & Hrun & [_ Heff] & Hwf).
  exists s. split; [|exact Hwf]. rewrite Hrun.
  assert (Hrow : example_reserved !! attempt_key (example_pg_subject 1)
    = Some (mkAttemptRow 0 2 100 4000 3600000 (Some 9000) (Some [116]))) by reflexivity.
  rewrite Hrow in Heff. destruct Heff as [-> _]. reflexivity.
Defined.
