(* ===== verification/PgAttemptTypes.v ===== *)
(** What the types of attempt results promise, from a server that may reply
    anything. *)

From Stdlib Require Import Ascii String.
From stdpp Require Import prelude list gmap.
From S2P Require Import Prelude RustStd Identifier Policy Decision AttemptPolicy Key Check Observation PgErrors PgConfig PgSession PgTables PgAdmission PgConnection PgSpec PgHonest PgAnyServer PgAttempts PgAttemptSpec PgAttemptRefine.
Open Scope Z_scope.
Open Scope list_scope.
Import PostgresAttempts.

Section Attempts.
Context {E : Type} `{SqlxError E}.

(** A receipt of a subject. *)
Definition receipt_for (subject : AttemptSubject) (r : PgAttemptReceipt) : Prop :=
  pr_policy r = as_policy subject /\ pr_subject r = SubjectKey_as_bytes (as_subject subject).

Definition admission_for (subject : AttemptSubject) (a : AttemptAdmission PgAttemptReceipt) : Prop :=
  match a with
  | AttemptAdmission_Admitted r => receipt_for subject r
  | Denied _ => True
  end.

(** A completion of an outcome. *)
Definition completion_for (outcome : AttemptOutcome) (r : AttemptCompletionResult) : Prop :=
  match r with
  | Applied c => ac_outcome c = outcome /\ AttemptCompletion_wf c
  | Stale => True
  end.

Section Admission.
Context (subject : AttemptSubject) (Hpolicy : AttemptPolicy_valid (as_policy subject)).
Notation typed := (fun o => admission_for subject (outcome_value o)).
Notation anything := (fun _ => True).

Lemma safely_decoded {X A} (r : Result (ConnectionOutcome X) A) :
  safely (E := E) (Query := AttemptQuery E) (Db := AttemptDb) anything (lift r).
Proof. by apply safely_lift. Qed.

Lemma safely_integer {X} period : QuotaPeriod_wf period ->
  safely (E := E) (Query := AttemptQuery E) (Db := AttemptDb) (X := X) anything
    (expect_tx (integer (QuotaPeriod_millis period))).
Proof. intros Hw. eapply safely_expect; [by apply integer_period|done]. Qed.

Lemma periods_wf : QuotaPeriod_wf (ap_quiet_period (as_policy subject))
  /\ QuotaPeriod_wf (ap_lease (as_policy subject)).
Proof. by destruct Hpolicy as (_ & _ & _ & _ & ? & ? & _). Qed.

Lemma safely_reconcile_failures now failures last_failure retry :
  safely (E := E) anything (reconcile_failures (as_policy subject) now failures last_failure retry).
Proof.
  unfold reconcile_failures. apply safely_then; [apply safely_integer, periods_wf|]. intros quiet.
  destruct (if _ : bool then _ else _) as [f r]. destruct (now <? r); by apply safely_ret.
Qed.

(** The backoff of any number of failures that a [u32] holds fits. *)
Lemma safely_backoff failures : 0 <= failures <= u32_max ->
  safely (E := E) (X := CheckError E) (Query := AttemptQuery E) (Db := AttemptDb) anything
    (expect_tx (millis (AttemptPolicy_delay (as_policy subject) (saturating_add u32_max failures 1)))).
Proof.
  intros Hf. set (n := saturating_add _ _ _).
  assert (Hn : 0 < n) by (unfold n, saturating_add, u32_max in *; lia).
  pose proof (AttemptPolicy_delay_bounds _ n Hpolicy Hn) as [Hlow Hhigh].
  destruct Hpolicy as (_ & _ & Hi & Hm & _). unfold QuotaPeriod_wf in *. rewrite MAX_WINDOW_MILLIS_val in *.
  eapply (safely_expect _ _ (as_millis (AttemptPolicy_delay (as_policy subject) n))); [|done].
  unfold millis, try_from. rewrite checked_in; [done|]. unfold as_millis, i64_max.
  split; [apply Z.div_pos; lia|]. apply Z.div_le_upper_bound; lia.
Qed.

Lemma safely_reconcile_row now row :
  safely (E := E) anything (reconcile_row (as_policy subject) now row).
Proof.
  unfold reconcile_row. apply safely_then; [apply safely_decoded|]. intros count.
  apply (safely_bind (fun failures => 0 <= failures <= u32_max)).
  { apply safely_lift. intros failures. unfold ok_or, try_from, checked.
    destruct (_ && _) eqn:Hin; [|done]. intros [= <-]. lia. }
  intros failures Hf. do 2 (apply safely_then; [apply safely_decoded|intros ?]).
  apply safely_then; [apply safely_decoded|]. intros [until|]; [|apply safely_reconcile_failures].
  destruct (now <? until); [by apply safely_ret|].
  apply safely_then; [by apply safely_backoff|]. intros backoff. apply safely_reconcile_failures.
Qed.

Lemma safely_grant tx token_row :
  safely (E := E) typed (grant tx (as_policy subject) (SubjectKey_as_bytes (as_subject subject)) token_row).
Proof.
  apply safely_then; [apply safely_decoded|]. intros token. by apply (safely_publish (admission_for subject)).
Qed.

Lemma safely_capacity_denial tx : safely (E := E) typed (finish_capacity_denial tx).
Proof.
  intros s. unfold finish_capacity_denial. pose proof (safely_commit tx s) as Hs.
  by destruct (commit tx s) as [s1 [[u|[o|o]]|]].
Qed.

Lemma safely_reserve_slot tx fingerprint shard maximum now :
  safely (E := E) typed (reserve_slot tx (as_policy subject) fingerprint
    (SubjectKey_as_bytes (as_subject subject)) shard maximum now).
Proof.
  unfold reserve_slot. apply safely_then; [apply safely_fetch_one|]. intros occupancy.
  apply safely_then; [apply safely_decoded|]. intros count.
  destruct (maximum <=? count); [apply safely_capacity_denial|].
  apply safely_then; [apply safely_fetch_one|]. intros slot_row.
  apply safely_then; [apply safely_decoded|]. intros [slot|]; [|apply safely_capacity_denial].
  do 2 (apply safely_then; [apply safely_integer, periods_wf|intros ?]).
  apply safely_then; [apply safely_fetch_one|]. intros token_row. apply safely_grant.
Qed.

Lemma safely_admit maximum deadline : safely (E := E) typed (admit_transaction subject maximum deadline).
Proof.
  unfold admit_transaction. apply safely_then; [apply safely_begin|]. intros tx.
  do 2 (apply safely_then; [apply safely_execute|intros ?]).
  apply safely_then; [apply safely_fetch_all|]. intros found.
  apply safely_then; [apply safely_fetch_one|]. intros time.
  apply safely_then; [apply safely_decoded|]. intros now.
  apply safely_then; [destruct (head found); [apply safely_reconcile_row|by apply safely_ret]|].
  intros [denial|[failures last_failure]]; [by apply (safely_deny (admission_for subject))|].
  destruct (head found) as [row|]; [|apply safely_reserve_slot].
  apply safely_then; [apply safely_integer, periods_wf|]. intros lease.
  apply safely_then; [apply safely_fetch_one|]. intros token_row. apply safely_grant.
Qed.
End Admission.

Lemma completion_result_yields (replies : list (CompleteReply E)) outcome :
  yields (fun r => match r with
                   | StagedApplied c => ac_outcome c = outcome /\ AttemptCompletion_wf c
                   | StagedStale => True
                   end) (completion_result replies outcome).
Proof.
  unfold completion_result. destruct (head replies) as [row|]; [|by apply yields_ok].
  do 3 (apply yields_then; intros ? _). destruct (_ <? 0); [apply yields_err|].
  apply yields_then; intros c Hc. apply yields_ok.
  destruct (AttemptCompletion_new _ _ _) as [c'|] eqn:Hnew; [|done]. injection Hc as ->.
  by apply AttemptCompletion_new_ok in Hnew as [-> Hwf].
Qed.

Lemma safely_complete receipt outcome deadline : AttemptPolicy_valid (pr_policy receipt) ->
  safely (E := E) (fun o => completion_for outcome (outcome_value o))
    (complete_transaction receipt outcome deadline).
Proof.
  intros (_ & _ & Hi & Hm & _). unfold complete_transaction. apply safely_then; [apply safely_begin|]. intros tx.
  assert (Hquery : exists query, completion_query (E := E) receipt outcome None = Done query).
  { unfold completion_query. rewrite !integer_period by done. by eexists. }
  destruct Hquery as [query Hquery].
  apply safely_then; [by eapply safely_expect|]. intros q.
  apply safely_then; [apply safely_fetch_all|]. intros replies.
  eapply safely_bind; [apply safely_lift, yields_map_err, completion_result_yields|]. intros result Hr.
  apply (safely_publish (completion_for outcome)). by destruct result.
Qed.

(** C24. No reply of the server and no loss makes an admission or a completion
    of an attempt panic: a receipt is always one of the policy and the
    subject that asked for it, and an applied completion has the outcome
    that was reported and metadata that fit it (no failures and no delay
    after a success, some of both after a failure or an abandonment),
    whatever numbers the server returned. *)
Theorem pg_attempts_typed self db env subject receipt outcome
    (Hpolicy : AttemptPolicy_valid (as_policy subject)) (Hreceipt : receipt_for subject receipt) :
  call_yields (admission_for subject) (admit_attempt (E := E) self db env subject).1
  /\ call_yields (completion_for outcome) (complete (E := E) self db env receipt outcome).1.
Proof.
  destruct Hreceipt as [Hr _]. unfold admit_attempt, complete.
  destruct (acquire_check_connection (env_acquired env)) as [u|e]; [|done].
  split; cbn [fst]; apply guarded_call_yields; [by apply safely_admit|].
  apply safely_complete. by rewrite Hr.
Qed.
End Attempts.

(** * A lying server *)

#[local] Existing Instance example_sqlx.

(** It applies a completion of a success with three failures. *)
Definition example_attempt_lies
    : forall A, AttemptQuery unit A -> AttemptDb -> AttemptDb * Result unit (Response A) :=
  fun A q db =>
  match q in AttemptQuery _ A return AttemptDb * Result unit (Response A) with
  | COMPLETE_SQL _ _ _ _ _ _ _ => (∅, Ok (mkResponse [mkCompleteReply (Ok 3) (Ok 7)] 1))
  | _ => (∅, Ok (mkResponse [] 0))
  end.

Definition example_attempt_lying_env : PgEnv unit AttemptDb (AttemptQuery unit) :=
  mkPgEnv (Some (Ok tt)) 0
    (replicate 20 (mkStep 5 (Some example_attempt_lies) (Some (Ok tt)) false)) DURATION_ZERO.

(** C24 witness. *)
Lemma pg_attempts_typed_witness :
  let receipt := receipt_of (example_pg_subject 1) [116] in
  ce_result (complete PostgresAttempts.new ∅ example_attempt_lying_env receipt Success).1
    = Done (Err (storage_invariant "attempt completion metadata contradicts its outcome"%string))
  /\ ce_result (complete PostgresAttempts.new ∅ example_attempt_lying_env receipt Failure).1
    = Done (Ok (Applied (mkAttemptCompletion Failure 3 (Delay_new (from_millis 7)))))
  /\ call_yields (completion_for Failure) (complete PostgresAttempts.new ∅ example_attempt_lying_env receipt Failure).1.
Proof.
  split; [vm_compute; reflexivity|]. split; [vm_compute; reflexivity|].
  apply (pg_attempts_typed PostgresAttempts.new ∅ example_attempt_lying_env (example_pg_subject 1)
    (receipt_of (example_pg_subject 1) [116]) Failure example_pg_policy_valid (conj eq_refl eq_refl)).
Defined.
