(* ===== verification/PgAttemptEffect.v ===== *)
(** The PostgreSQL attempt limiter over a lossy network: what an admission
    or a completion does to the leases of the table on a server that answers
    from its table when it answers at all, whichever replies are lost and
    whatever the clocks show. *)

From Stdlib Require Import Ascii String.
From stdpp Require Import prelude list gmap sorting.
From S2P Require Import Prelude RustStd Identifier Policy Decision AttemptPolicy Key Check Observation PgErrors PgConfig PgSession PgTables PgAdmission PgConnection PgSpec PgHonest PgServed PgAnyServer PgAttempts PgAttemptSpec PgAttemptRefine PgAttemptTypes.
Open Scope Z_scope.
Open Scope list_scope.
Import PostgresAttempts.

(** * Leases *)

(** The token and the end of a row's lease, and those of a key. *)
Definition lease_of (row : AttemptRow) : option (str * Z) :=
  match lease_token row, lease_until_ms row with
  | Some token, Some until => Some (token, until)
  | _, _ => None
  end.
Definition lease (db : AttemptDb) (key : CounterKey) : option (str * Z) := db !! key ≫= lease_of.

(** Every row satisfies the constraints of the table. *)
Definition table_ok (db : AttemptDb) : Prop := map_Forall (fun key row => attempt_row_ok key row = true) db.

Lemma table_ok_empty : table_ok ∅.
Proof. apply map_Forall_empty. Qed.

Lemma store_row_stored db key row db' :
  store_row db key row = Ok db' -> attempt_row_ok key row = true /\ db' = <[key := row]> db.
Proof.
  unfold store_row. destruct (attempt_row_ok key row); [|done]. cbn [negb].
  destruct (negb _); [done|]. destruct (slot_taken _ _ _); [done|]. by intros [= <-].
Qed.

Lemma quiet_positive key row : attempt_row_ok key row = true -> 1 <= quiet_ms row.
Proof. intros Hok. unfold attempt_row_ok in Hok. bool_prop. lia. Qed.

(** [l'] is what is left of a lease [l] when the time [now] has been shown. *)
Definition left_at (now : Z) (l l' : option (str * Z)) : Prop :=
  l' = l \/ l' = None /\ exists token until, l = Some (token, until) /\ until <= now.

Lemma left_at_refl now l : left_at now l l.
Proof. by left. Qed.

Lemma lease_cleaned db shard now key :
  table_ok db -> left_at now (lease db key) (lease (delete_attempts db (expired_attempts db shard now)) key).
Proof.
  intros Hok. unfold lease. rewrite delete_attempts_lookup. case_decide as Hin; [|by left].
  apply expired_attempts_elem in Hin as (row & Hrow & Hexp). rewrite Hrow. cbn.
  unfold lease_of. destruct (lease_token row) as [token|] eqn:Htok; [|by left].
  destruct (lease_until_ms row) as [until|] eqn:Huntil; [|by left]. right. split; [done|].
  exists token, until. split; [done|]. unfold expiry_ms in Hexp. rewrite Huntil in Hexp. cbn in Hexp.
  pose proof (quiet_positive key row (Hok _ _ Hrow)). unfold id in Hexp. lia.
Qed.

Lemma table_ok_cleaned db keys : table_ok db -> table_ok (delete_attempts db keys).
Proof. intros Hok k row. rewrite delete_attempts_lookup. case_decide; [done|]. apply Hok. Qed.

(** * Admissions *)

(** Time in the milliseconds of the server. *)
Definition shown (low high : Z) (t : Tick) : Prop := low <= at_ms t <= high.

Section Effect.
Context {E : Type} `{SqlxError E} (fresh xid : str) (low high : Z).
Notation answer := (attempt_answer (E := E) fresh xid).
Notation triple := (triple (E := E) answer (shown low high)).
Notation settles := (settles (E := E) answer (shown low high)).
Notation statement := (statement (E := E) answer (shown low high)).

Section Admission.
Context (subject : AttemptSubject) (Hpolicy : AttemptPolicy_valid (as_policy subject)).
Context (Hlow : 0 <= low) (Hhigh : high + MAX_WINDOW_MILLIS <= i64_max).
Context (db : AttemptDb) (Hdb : table_ok db).
Notation key := (attempt_key subject).
Notation period := (QuotaPeriod_millis (ap_lease (as_policy subject))).

(** What an admission leaves: leases end only when they have run out, and
    the key is leased under the fresh token only when its own has. *)
Record admitted (reserved : bool) (db' : AttemptDb) : Prop := {
  ad_ok : table_ok db';
  ad_left : forall k, (reserved = true -> k <> key) -> left_at high (lease db k) (lease db' k);
  ad_free : reserved = true -> forall token until, lease db key = Some (token, until) -> until <= high;
  ad_lease : reserved = true -> exists until, lease db' key = Some (fresh, until) /\ low + period <= until;
}.

Lemma admitted_nothing : admitted false db.
Proof. split; [done|intros; apply left_at_refl|done..]. Qed.

(** The table after the cleanup. *)
Definition swept (db' : AttemptDb) : Prop := table_ok db' /\ forall k, left_at high (lease db k) (lease db' k).

Lemma admitted_swept db' : swept db' -> admitted false db'.
Proof. intros [Hok Hl]. by split. Qed.

Lemma delete_swept shard now : now <= high -> swept (delete_attempts db (expired_attempts db shard now)).
Proof.
  intros Hnow. split; [by apply table_ok_cleaned|]. intros k.
  destruct (lease_cleaned db shard now k Hdb) as [->|(-> & token & until & Hl & Hu)]; [by left|].
  right. split; [done|]. exists token, until. split; [done|lia].
Qed.

(** A row may be reserved once its lease has run out. *)
Definition vacant (w : AttemptDb) (now : Z) : Prop :=
  forall token until, lease w key = Some (token, until) -> until <= now.

Lemma admitted_reserved w now row :
  swept w -> low <= now <= high -> vacant w now -> attempt_row_ok key row = true ->
  lease_of row = Some (fresh, saturating_add_i64 now period) -> admitted true (<[key := row]> w).
Proof.
  intros [Hok Hleft] Hnow Hvacant Hrow Hlease.
  destruct Hpolicy as (_ & _ & _ & _ & _ & Hp & _). unfold QuotaPeriod_wf in Hp.
  pose proof Hhigh as Hhigh'. rewrite MAX_WINDOW_MILLIS_val in Hp, Hhigh'.
  split; intros.
  - by apply map_Forall_insert_2.
  - unfold lease at 2. rewrite lookup_insert_ne; [apply Hleft|]. intros <-. by apply H0.
  - destruct (Hleft key) as [Heq|(_ & token' & until' & Hl & Hu)].
    + rewrite H1 in Heq. pose proof (Hvacant _ _ Heq). lia.
    + rewrite H1 in Hl. by injection Hl as -> ->.
  - unfold lease. rewrite lookup_insert_eq. cbn. rewrite Hlease. eexists. split; [done|].
    rewrite saturating_i64_exact by (unfold i64_min; lia). lia.
Qed.

Definition admission_result (a : AttemptAdmission PgAttemptReceipt) (db' : AttemptDb) : Prop :=
  match a with
  | AttemptAdmission_Admitted r => r = receipt_of subject fresh /\ admitted true db'
  | Denied _ => admitted false db'
  end.
Definition admission_unknown (db' : AttemptDb) : Prop := exists reserved, admitted reserved db'.

(** A decision changes no session; it admits only vacant rows. *)
Lemma reconcile_failures_session now n last retry (s : Session E AttemptDb (AttemptQuery E)) :
  (reconcile_failures (as_policy subject) now n last retry s).1 = s.
Proof.
  unfold reconcile_failures, mbind, Tx_bind, expect_tx. destruct (integer _); [|done].
  destruct (if _ : bool then _ else _) as [f r]. by destruct (now <? r).
Qed.

Lemma reconcile_row_session now row (s : Session E AttemptDb (AttemptQuery E)) :
  (reconcile_row (as_policy subject) now row s).1 = s
  /\ forall x until, (reconcile_row (as_policy subject) now row s).2 = Done (Ok (inr x)) ->
       ar_lease_until_ms row = Ok (Some until) -> until <= now.
Proof.
  unfold reconcile_row, decoded. unfold mbind, Tx_bind, lift.
  destruct (map_err _ (ar_failures row)) as [n|]; [|done].
  destruct (ok_or _ _) as [n'|]; [|done].
  destruct (map_err _ (ar_last_failure_ms row)) as [last|]; [|done].
  destruct (map_err _ (ar_retry_at_ms row)) as [retry|]; [|done].
  destruct (ar_lease_until_ms row) as [[until|]|]; cbn [map_err]; [| |done].
  - destruct (Z.ltb_spec now until).
    + split; [done|]. by intros x u [=].
    + split; [|by intros x u _ [= <-]]. unfold expect_tx. destruct (millis _); [|done].
      apply reconcile_failures_session.
  - split; [apply reconcile_failures_session|]. by intros x u _ [=].
Qed.

Lemma triple_reconcile_row P now row :
  triple db P (reconcile_row (as_policy subject) now row) (fun r w => P w
    /\ forall x until, r = inr x -> ar_lease_until_ms row = Ok (Some until) -> until <= now).
Proof.
  intros s Hs Hc Hw. pose proof (safely_reconcile_row (E := E) subject Hpolicy now row s) as Hsafe.
  destruct (reconcile_row_session now row s) as [Hsame Hvac].
  destruct (reconcile_row _ _ _ s) as [s' r]. cbn [fst snd] in *. subst s'. split_and!; [done..|].
  destruct r as [[a|e]|]; [|done..]. split; [done|]. intros x until -> Hl. by apply (Hvac x until).
Qed.

Lemma capacity_denial_settles tx :
  settles db swept (finish_capacity_denial tx) admission_result admission_unknown.
Proof.
  intros s Hs Hc Hw.
  pose proof (settles_commit answer (shown low high) db swept tx tt
    (fun _ => swept) swept (fun w Hsw => conj Hsw Hsw) s Hs Hc Hw) as Hcommit.
  unfold finish_capacity_denial. unfold mbind, Tx_bind in Hcommit.
  destruct (commit tx s) as [s1 [[u|o]|]]; cbn in *; [by apply admitted_swept, Hcommit| |done].
  assert (Hend : admitted false (committed s1)).
  { destruct Hcommit as [->|Hsw]; [apply admitted_nothing|by apply admitted_swept]. }
  by destruct o.
Qed.

(** The reservation and its acknowledged commit. *)
Definition granted (token_row : Col E str) (w : AttemptDb) : Prop :=
  token_row = Ok fresh /\ admitted true w.

Lemma grant_settles tx token_row :
  settles db (granted token_row)
    (grant tx (as_policy subject) (SubjectKey_as_bytes (as_subject subject)) token_row)
    admission_result admission_unknown.
Proof.
  intros s Hs Hc Hw. pose proof Hw as [-> _]. revert s Hs Hc Hw.
  change (settles db (granted (Ok fresh))
    (grant tx (as_policy subject) (SubjectKey_as_bytes (as_subject subject)) (Ok fresh))
    admission_result admission_unknown).
  apply settles_lift. intros token [= <-]. apply (settles_commit answer (shown low high)).
  intros w [_ Hw]. split; [by split|]. by exists true.
Qed.

(** Writing the reserved row. *)
Lemma returning_stored {A} (w w' : AttemptDb) row (a : A) (resp : Response A) a' rest :
  returning (E := E) w (store_row w key row) a = (w', Ok resp) -> rows resp = a' :: rest ->
  a' = a /\ attempt_row_ok key row = true /\ w' = <[key := row]> w.
Proof.
  unfold returning. destruct (store_row w key row) as [w1|] eqn:Hs; [|done].
  apply store_row_stored in Hs as [Hok ->]. intros [= <- <-] [= <- _]. done.
Qed.

Lemma insert_reserves w now slot quiet :
  swept w -> low <= now <= high -> w !! key = None ->
  statement (eq w)
    (INSERT_ATTEMPT (fingerprint_bytes (ap_fingerprint (as_policy subject)))
       (SubjectKey_as_bytes (as_subject subject)) slot now quiet (saturating_add_i64 now period))
    (fun resp w' => forall row rest, rows resp = row :: rest -> granted row w').
Proof.
  intros Hsw Hnow Hrow t w0 w' resp _ <- Ha row rest Hrows. unfold attempt_answer in Ha. cbn [attempt_sql] in Ha.
  rewrite storage_key_of, Hrow in Ha.
  destruct (returning_stored _ _ _ _ _ _ _ Ha Hrows) as (-> & Hok & ->). split; [done|].
  apply (admitted_reserved w now); [done|done| |done|done].
  intros token until. unfold lease. by rewrite Hrow.
Qed.

Lemma update_reserves w now n last :
  swept w -> low <= now <= high -> vacant w now ->
  statement (eq w)
    (UPDATE_ATTEMPT (fingerprint_bytes (ap_fingerprint (as_policy subject)))
       (SubjectKey_as_bytes (as_subject subject)) n last now (saturating_add_i64 now period))
    (fun resp w' => forall row rest, rows resp = row :: rest -> granted row w').
Proof.
  intros Hsw Hnow Hvac t w0 w' resp _ <- Ha row rest Hrows. unfold attempt_answer in Ha. cbn [attempt_sql] in Ha.
  rewrite storage_key_of in Ha. destruct (w !! key) as [old|]; [|by injection Ha as <- <-].
  destruct (returning_stored _ _ _ _ _ _ _ Ha Hrows) as (-> & Hok & ->). split; [done|].
  by apply (admitted_reserved w now).
Qed.

(** A statement that only reads. *)
Lemma attempt_reading {A} w (q : AttemptQuery E A) (out : Tick -> list A) :
  (forall t, exists affected, answer t A q w = (w, Ok (mkResponse (out t) affected))) ->
  statement (eq w) q (fun resp w' => w = w' /\ exists t, shown low high t /\ rows resp = out t).
Proof.
  intros Hq t w0 w' resp Ht <- Ha. destruct (Hq t) as [affected Hr]. rewrite Hr in Ha.
  injection Ha as <- <-. split; [done|]. by exists t.
Qed.

Lemma fetch_one_reading {A} w tx phase (q : AttemptQuery E A) (out : Tick -> A) :
  (forall t, exists affected, answer t A q w = (w, Ok (mkResponse [out t] affected))) ->
  triple db (eq w) (fetch_one tx phase q) (fun row w' => w = w' /\ exists t, shown low high t /\ row = out t).
Proof.
  intros Hq. apply (triple_fetch_one answer (shown low high)). intros t w0 w' resp Ht Hw Ha row rest Hrows.
  destruct (attempt_reading w q (fun t => [out t]) Hq t w0 w' resp Ht Hw Ha) as (<- & t' & Ht' & Hr).
  rewrite Hr in Hrows. injection Hrows as <- _. split; [done|]. by exists t'.
Qed.

Lemma fetch_all_reading {A} w tx phase (q : AttemptQuery E A) (out : Tick -> list A) :
  (forall t, exists affected, answer t A q w = (w, Ok (mkResponse (out t) affected))) ->
  triple db (eq w) (fetch_all tx phase q) (fun found w' => w = w' /\ exists t, shown low high t /\ found = out t).
Proof.
  intros Hq. apply (triple_fetch_all answer (shown low high) db (eq w) tx phase q
    (fun found w' => w = w' /\ exists t, shown low high t /\ found = out t)). by apply attempt_reading.
Qed.

Lemma reserve_slot_settles tx w now maximum :
  swept w -> low <= now <= high -> w !! key = None ->
  settles db (eq w)
    (reserve_slot tx (as_policy subject) (fingerprint_bytes (ap_fingerprint (as_policy subject)))
       (SubjectKey_as_bytes (as_subject subject)) (capacity_shard key) maximum now)
    admission_result admission_unknown.
Proof.
  intros Hsw Hnow Hrow.
  assert (Hfull : settles db (eq w) (finish_capacity_denial tx) admission_result admission_unknown).
  { intros s Hs Hc Hw. apply capacity_denial_settles; [done..|]. by rewrite <- Hw. }
  assert (Hperiods : QuotaPeriod_wf (ap_quiet_period (as_policy subject)) /\ QuotaPeriod_wf (ap_lease (as_policy subject)))
    by (by apply periods_wf).
  destruct Hperiods as [Hquiet Hlease]. unfold reserve_slot.
  eapply settles_bind; [apply fetch_one_reading; intros t; by eexists|]. intros occupancy. apply settles_at.
  intros w0 (<- & _). apply settles_lift. intros count _.
  destruct (maximum <=? count); [done|].
  eapply settles_bind; [apply fetch_one_reading; intros t; by eexists|]. intros slot_row. apply settles_at.
  intros w0 (<- & _). apply settles_lift. intros [slot|] _; [|done].
  eapply settles_expect; [by apply integer_period|]. eapply settles_expect; [by apply integer_period|].
  eapply settles_bind; [|intros token_row; apply grant_settles].
  apply (triple_fetch_one answer (shown low high)). by apply insert_reserves.
Qed.

Lemma admission_settles maximum d :
  settles db (fun _ => True) (admit_transaction subject maximum d) admission_result admission_unknown.
Proof.
  unfold admit_transaction. eapply settles_bind; [apply triple_begin_check|]. intros tx.
  eapply settles_bind; [apply (triple_execute answer (shown low high) db _ tx PHASE _ (fun _ w => w = db))|].
  { intros t w w' resp _ -> Ha. by injection Ha as <- _. }
  intros locked. eapply settles_bind; [apply (triple_execute answer (shown low high) db _ tx PHASE _ (fun _ => swept))|].
  { intros t w w' resp [_ Ht] -> Ha. injection Ha as <- _. by apply delete_swept. }
  intros cleaned. apply settles_at. intros w Hsw.
  eapply settles_bind; [apply fetch_all_reading; intros t; by eexists|].
  intros found. apply settles_at. intros w0 (<- & _ & _ & ->).
  eapply settles_bind; [apply fetch_one_reading; intros t; by eexists|]. intros time. apply settles_at.
  intros w0 (<- & t & Hnow & ->). apply settles_lift. intros now [= <-].
  change (started t / 1000) with (at_ms t). unfold shown in Hnow. rewrite storage_key_of.
  change (Z.lxor _ _) with (capacity_shard key).
  destruct (w !! key) as [row|] eqn:Hrow; cbn [head].
  - eapply settles_bind; [apply triple_reconcile_row|]. intros [denial|[n last]]; apply settles_at.
    + intros w0 [<- _]. apply settles_deny. apply admitted_nothing.
    + intros w0 [<- Hvac].
      eapply settles_expect; [apply integer_period, periods_wf; done|].
      eapply settles_bind; [|intros token_row; apply grant_settles].
      apply (triple_fetch_one answer (shown low high)). apply update_reserves; [done|done|].
      intros token until. unfold lease. rewrite Hrow. cbn. unfold lease_of.
      destruct (lease_token row); [|done]. destruct (lease_until_ms row) as [u|] eqn:Hu; [|done].
      intros [= _ <-]. by apply (Hvac (n, last) u).
  - eapply settles_bind; [apply (triple_ret answer (shown low high) db (eq w) _ (fun r w' => w = w' /\ r = inr (0, at_ms t))); done|].
    intros r. apply settles_at. intros w0 [<- ->]. by apply reserve_slot_settles.
Qed.

Lemma admit_call_settles self env :
  served_env answer (shown low high) env ->
  call_settles db (admit_attempt self db env subject).1 admission_result admission_unknown.
Proof.
  intros Henv. unfold admit_attempt.
  destruct (acquire_check_connection (env_acquired env)) as [u|e]; [|by left].
  by apply (guarded_call_settles answer (shown low high)); [apply admission_settles|].
Qed.
End Admission.

(** * Completions *)

Section Completion.
Context (subject : AttemptSubject) (Hpolicy : AttemptPolicy_valid (as_policy subject)) (token : str).
Context (db : AttemptDb) (Hdb : table_ok db).
Notation key := (attempt_key subject).

(** What a completion leaves: the lease it names ends, or nothing
    happens. *)
Record completed (applied : bool) (db' : AttemptDb) : Prop := {
  co_ok : table_ok db';
  co_stale : applied = false -> db' = db;
  co_lease : applied = true -> exists until, lease db key = Some (token, until);
  co_ended : applied = true -> forall k, lease db' k = if decide (k = key) then None else lease db k;
}.

Definition completion_settled (r : AttemptCompletionResult) (db' : AttemptDb) : Prop :=
  match r with Applied _ => completed true db' | Stale => completed false db' end.
Definition completion_unknown (db' : AttemptDb) : Prop := exists applied, completed applied db'.

Lemma completed_nothing : completed false db.
Proof. by split. Qed.

Definition replied (replies : list (CompleteReply E)) (w : AttemptDb) : Prop :=
  match replies with [] => completed false w | _ => completed true w end.

Lemma complete_replies outcome query :
  completion_query (receipt_of subject token) outcome None = Done query ->
  statement (eq db) query (fun resp => replied (rows resp)).
Proof.
  unfold completion_query. cbn [pr_policy pr_subject pr_token receipt_of].
  pose proof Hpolicy as (_ & _ & Hi & Hm & _). rewrite (integer_period _ Hi), (integer_period _ Hm).
  intros [= <-] t w w' resp _ <- Ha. unfold attempt_answer in Ha. cbn [attempt_sql] in Ha.
  rewrite storage_key_of in Ha. destruct (db !! key) as [row|] eqn:Hrow;
    [|injection Ha as <- <-; apply completed_nothing].
  unfold completes in Ha. destruct (_ && _) eqn:Hc; [|injection Ha as <- <-; apply completed_nothing].
  apply andb_prop in Hc as [Htok%bool_decide_eq_true Hlive].
  destruct (completed_row _ _ _ _ _) as [row' delay] eqn:Hrow'. unfold completed_row in Hrow'.
  injection Hrow' as <- _. destruct (in_bigint _); [|done]. unfold returning in Ha.
  destruct (store_row db key _) as [db'|] eqn:Hstore; [|done]. injection Ha as <- <-.
  apply store_row_stored in Hstore as [Hok ->]. cbn [rows replied]. split; [by apply map_Forall_insert_2|done| |].
  - intros _. unfold lease. rewrite Hrow. cbn. unfold lease_of. rewrite Htok.
    destruct (lease_until_ms row) as [until|]; [by eexists|done].
  - intros _ k. unfold lease. destruct (decide (k = key)) as [->|Hk]; [by rewrite lookup_insert_eq|by rewrite lookup_insert_ne].
Qed.

Lemma applied_reply reply (replies : list (CompleteReply E)) outcome :
  yields (fun r => r <> StagedStale) (completion_result (reply :: replies) outcome).
Proof.
  unfold completion_result. cbn [head]. do 3 (apply yields_then; intros ? _).
  destruct (_ <? 0); [apply yields_err|]. apply yields_then; intros c _. by apply yields_ok.
Qed.

Lemma completion_settles outcome d :
  settles db (fun _ => True) (complete_transaction (receipt_of subject token) outcome d)
    completion_settled completion_unknown.
Proof.
  unfold complete_transaction. eapply settles_bind; [apply triple_begin_check|]. intros tx.
  assert (Hquery : exists query, completion_query (E := E) (receipt_of subject token) outcome None = Done query).
  { pose proof Hpolicy as (_ & _ & Hi & Hm & _). unfold completion_query. cbn [pr_policy receipt_of].
    rewrite (integer_period _ Hi), (integer_period _ Hm). by eexists. }
  destruct Hquery as [query Hquery]. eapply settles_expect; [done|].
  eapply settles_bind.
  { apply (triple_fetch_all answer (shown low high) db (fun w => w = db) tx PHASE query replied).
    intros t w w' resp Ht -> Ha. by apply (complete_replies outcome query Hquery t db w' resp Ht eq_refl Ha). }
  intros replies. apply settles_lift. intros result Hresult. apply (settles_commit answer (shown low high)).
  assert (Happlied : match result with StagedApplied _ => replies <> [] | StagedStale => replies = [] end).
  { destruct replies as [|reply replies]; [by injection Hresult as <-|].
    pose proof (applied_reply reply replies outcome) as Happ.
    destruct (completion_result _ _) as [r|]; [|done]. injection Hresult as ->.
    specialize (Happ _ eq_refl). by destruct result. }
  intros w Hw. split; [|destruct replies; by eexists].
  by destruct result, replies.
Qed.

Lemma complete_call_settles self env outcome :
  served_env answer (shown low high) env ->
  call_settles db (complete self db env (receipt_of subject token) outcome).1 completion_settled completion_unknown.
Proof.
  intros Henv. unfold complete.
  destruct (acquire_check_connection (env_acquired env)) as [u|e]; [|by left].
  by apply (guarded_call_settles answer (shown low high)); [apply completion_settles|].
Qed.
End Completion.
End Effect.
