(* ===== verification/PgAttemptHost.v ===== *)
(** Host transactions over the [low_level] seam of the durable attempts: a
    transaction owner claims a receipt and finishes the claim, or completes
    the receipt, in a transaction of its own, which it rolls back on a stale
    result or an error (README, "Session/audit atomicity"; the operations
    are [claim_in], [finish_in] and [complete_in] of
    [runlimit-postgres/src/attempts.rs]). *)

From Stdlib Require Import Ascii String.
From stdpp Require Import prelude list gmap sorting.
From S2P Require Import Prelude RustStd Identifier Policy Decision AttemptPolicy Key Check Observation PgErrors PgConfig PgSession PgTables PgAdmission PgConnection PgSpec PgHonest PgServed PgAnyServer PgAttempts PgAttemptSpec PgAttemptRefine PgAttemptTypes PgAttemptEffect.
Open Scope Z_scope.
Open Scope list_scope.
Import PostgresAttempts.

(** What a host does with a receipt: it claims it, and finishes the claim
    unless it stops there; or it completes it directly. *)
Inductive host_script :=
| HostClaim (finish : option AttemptOutcome)
| HostComplete (outcome : AttemptOutcome).

(** What it has in hand when it decides to commit, or why it rolls back. *)
Inductive host_result :=
| HostClaimed
| HostApplied (completion : AttemptCompletion)
| HostStale
| HostFailed.

(** The results a host commits. *)
Definition redeems (r : Outcome host_result) : Prop :=
  match r with Done HostClaimed | Done (HostApplied _) => True | _ => False end.

Section Host.
Context {E : Type} `{SqlxDecode E}.

(** The tables to commit after a staged completion. *)
Definition host_staged (db : AttemptDb) (staged : Outcome (AttemptDb * Result E StagedAttemptCompletion))
    : AttemptDb * Outcome host_result :=
  match staged with
  | Panic => (db, Panic)
  | Done (_, Err _) => (db, Done HostFailed)
  | Done (_, Ok StagedStale) => (db, Done HostStale)
  | Done (db', Ok (StagedApplied completion)) => (db', Done (HostApplied completion))
  end.

(** A host transaction [xid] whose first statement starts at [started] and
    whose last at [finished], microseconds of the server's clock: its tables
    when it is to commit, those it found when it is to roll back. *)
Definition host_transaction (started finished : Z) (fresh xid : str) (subject : AttemptSubject) (token : str)
    (script : host_script) (db : AttemptDb) : AttemptDb * Outcome host_result :=
  let receipt := receipt_of subject token in
  match script with
  | HostClaim finish =>
      match claim_in (attempt_sql (E := E) started fresh xid) db receipt with
      | (_, Err _) => (db, Done HostFailed)
      | (_, Ok ClaimStale) => (db, Done HostStale)
      | (db1, Ok (Claimed claim)) =>
          match finish with
          | None => (db1, Done HostClaimed)
          | Some outcome => host_staged db (finish_in (attempt_sql (E := E) finished fresh xid) db1 claim outcome)
          end
      end
  | HostComplete outcome =>
      host_staged db (complete_in (attempt_sql (E := E) finished fresh xid) db receipt outcome)
  end.

Section Effect.
Context (subject : AttemptSubject) (Hpolicy : AttemptPolicy_valid (as_policy subject)).
Context (token fresh xid : str) (db : AttemptDb) (Hdb : table_ok db).
Notation key := (attempt_key subject).

(** The receipt is used up: its lease was there, and is gone or has passed
    to the fresh token of the claim. *)
Record redeemed (db' : AttemptDb) : Prop := {
  re_ok : table_ok db';
  re_lease : exists until, lease db key = Some (token, until);
  re_ended : lease db' key = None \/ exists until, lease db' key = Some (fresh, until);
  re_others : forall k, k <> key -> lease db' k = lease db k;
}.

Lemma storing {A} (w w' : AttemptDb) row (a : A) (resp : Response A) :
  returning (E := E) w (store_row w key row) a = (w', Ok resp) ->
  rows resp = [a] /\ attempt_row_ok key row = true /\ w' = <[key := row]> w.
Proof.
  unfold returning. destruct (store_row w key row) as [w1|] eqn:Hs; [|done].
  apply store_row_stored in Hs as [Hok ->]. by intros [= <- <-].
Qed.

Lemma lease_stored w row k :
  lease (<[key := row]> w) k = if decide (k = key) then lease_of row else lease w k.
Proof.
  unfold lease. destruct (decide (k = key)) as [->|Hk]; [by rewrite lookup_insert_eq|by rewrite lookup_insert_ne].
Qed.

(** A staged completion applied: the row it found and the one it left. *)
Lemma staged_effect w started transaction_id t outcome w' completion :
  staged_completion (attempt_sql (E := E) started fresh xid) w (receipt_of subject t) outcome transaction_id
    = Done (w', Ok (StagedApplied completion)) ->
  exists row row', w !! key = Some row /\ completes row (started / 1000) xid t transaction_id = true
    /\ w' = <[key := row']> w /\ attempt_row_ok key row' = true /\ lease_of row' = None.
Proof.
  unfold staged_completion, completion_query. cbn [receipt_of pr_policy pr_subject pr_token].
  pose proof Hpolicy as (_ & _ & Hi & Hm & _). rewrite (integer_period _ Hi), (integer_period _ Hm).
  cbn [mbind Outcome_bind mret Outcome_ret attempt_sql]. rewrite storage_key_of.
  destruct (w !! key) as [row|]; [|by intros [= <-]].
  destruct (completes row _ _ _ _) eqn:Hc; [|by intros [= <-]].
  destruct (completed_row _ _ _ _ _) as [row' delay] eqn:Hrow'. unfold completed_row in Hrow'.
  injection Hrow' as <- _.
  match goal with |- context [returning w ?r ?a] => destruct (returning (E := E) w r a) as [w1 resp] eqn:Hret end.
  destruct (in_bigint _); [|by injection Hret as <- <-; intros [= <-]].
  destruct resp as [resp|error]; [|by intros [=]]. apply storing in Hret as (_ & Hok & ->).
  intros [= <- _]. eexists _, _. by split_and!.
Qed.

Lemma completes_token row started t transaction_id :
  completes row started xid t transaction_id = true -> lease_token row = Some t.
Proof. intros [Ht _]%andb_true_iff. by apply bool_decide_eq_true_1 in Ht. Qed.

(** Rows that satisfy the constraints of the table have whole leases. *)
Lemma leased_row w row t :
  table_ok w -> w !! key = Some row -> lease_token row = Some t -> exists until, lease w key = Some (t, until).
Proof.
  intros Hw Hrow Ht. pose proof (Hw key row Hrow) as Hok. unfold attempt_row_ok in Hok.
  apply andb_true_iff in Hok as [_ Hboth%bool_decide_eq_true_1].
  destruct (proj2 Hboth) as [until Hu]; [by eexists|]. exists until.
  unfold lease. rewrite Hrow. cbn. unfold lease_of. by rewrite Ht, Hu.
Qed.

Lemma claim_effect started w claim :
  claim_in (attempt_sql (E := E) started fresh xid) db (receipt_of subject token) = (w, Ok (Claimed claim)) ->
  claim = mkPgAttemptClaim (receipt_of subject fresh) xid /\ redeemed w.
Proof.
  unfold claim_in. cbn [attempt_sql receipt_of pr_policy pr_subject pr_token]. rewrite storage_key_of.
  destruct (db !! key) as [row|] eqn:Hrow; [|by intros [=]].
  destruct (completes row _ _ _ _) eqn:Hc; [|by intros [=]].
  match goal with |- context [returning db (store_row db key ?r) ?a] =>
    set (row1 := r); destruct (returning (E := E) db (store_row db key row1) a) as [w1 resp] eqn:Hret end.
  destruct resp as [resp|error]; [|by intros [=]].
  apply storing in Hret as (Hrows & Hok & ->). cbn [mbind Result_bind]. rewrite Hrows. cbn.
  intros [= <- <-]. split; [done|]. pose proof (completes_token _ _ _ _ Hc) as Ht. split.
  - by apply map_Forall_insert_2.
  - by apply (leased_row db row).
  - right. destruct (leased_row (<[key := row1]> db) row1 fresh) as [until Hu];
      [by apply map_Forall_insert_2|apply lookup_insert_eq|done|by exists until].
  - intros k Hk. rewrite lease_stored. by rewrite decide_False.
Qed.

(** What a host transaction does before it commits. *)
Lemma host_effect started finished script :
  let '(db', r) := host_transaction started finished fresh xid subject token script db in
  (redeems r /\ redeemed db') \/ (~ redeems r /\ db' = db).
Proof.
  unfold host_transaction. destruct script as [finish|outcome].
  - destruct (claim_in _ _ _) as [db1 [[claim|]|error]] eqn:Hclaim; [|right; split; [intros []|done]..].
    apply claim_effect in Hclaim as [-> Hred]. destruct finish as [outcome|]; [|by left].
    unfold finish_in. cbn [pc_receipt pc_transaction_id].
    destruct (staged_completion _ _ _ _ _) as [[db2 [[completion|]|error]]|] eqn:Hstaged; [|right; split; [intros []|done]..].
    left. split; [done|]. cbn [host_staged].
    apply staged_effect in Hstaged as (row & row' & Hrow & _ & -> & Hok & Hl).
    destruct Hred as [Hok1 Hlease _ Hothers]. split; [by apply map_Forall_insert_2|done| |].
    + left. rewrite lease_stored. by rewrite decide_True.
    + intros k Hk. rewrite lease_stored, decide_False by done. by apply Hothers.
  - unfold complete_in.
    destruct (staged_completion _ _ _ _ _) as [[db2 [[completion|]|error]]|] eqn:Hstaged; [|right; split; [intros []|done]..].
    left. split; [done|]. cbn [host_staged].
    apply staged_effect in Hstaged as (row & row' & Hrow & Hc & -> & Hok & Hl).
    split; [by apply map_Forall_insert_2|by apply (leased_row db row), (completes_token _ _ _ _ Hc)| |].
    + left. rewrite lease_stored. by rewrite decide_True.
    + intros k Hk. rewrite lease_stored. by rewrite decide_False.
Qed.
End Effect.
End Host.
