(* ===== verification/PgAttemptTrace.v ===== *)
(** Runs of calls and of host transactions against one attempts table, by any
    limiters and hosts over a lossy network: admissions of a key exclude each
    other for the time of a lease, and a receipt is redeemed at most once. *)

From Stdlib Require Import Ascii String.
From stdpp Require Import prelude list gmap sorting.
From S2P Require Import Prelude RustStd Identifier Policy Decision AttemptPolicy Key Check Observation PgErrors PgConfig PgSession PgTables PgAdmission PgConnection PgSpec PgHonest PgServed PgAttempts PgAttemptSpec PgAttemptRefine PgAttemptTypes PgAttemptEffect PgAttemptHost.
Open Scope Z_scope.
Open Scope list_scope.
Import PostgresAttempts.

Section Calls.
Context {E : Type} `{SqlxDecode E}.
Notation PgEnv := (PgEnv E AttemptDb (AttemptQuery E)).

Inductive attempt_call :=
| CallAdmit (self : PostgresAttemptLimiter) (env : PgEnv) (subject : AttemptSubject)
| CallComplete (self : PostgresAttemptLimiter) (env : PgEnv) (subject : AttemptSubject) (token : str)
    (outcome : AttemptOutcome)
| CallHost (started finished : Z) (subject : AttemptSubject) (token : str) (script : host_script)
    (applied acknowledged : bool).

(** A call, or a host's transaction whose commit took effect ([applied] or
    [acknowledged]) or not; the milliseconds the server's clock shows while
    it runs, the token a reservation or a claim of it gets and its
    transaction id. *)
Record timed_attempt := mkTimedAttempt {
  ta_low : Z;
  ta_high : Z;
  ta_fresh : str;
  ta_xid : str;
  ta_call : attempt_call;
}.

Definition call_subject (c : attempt_call) : AttemptSubject :=
  match c with
  | CallAdmit _ _ subject | CallComplete _ _ subject _ _ | CallHost _ _ subject _ _ _ _ => subject
  end.
Notation key_of c := (attempt_key (call_subject (ta_call c))).

Inductive attempt_end :=
| EndAdmit (r : Outcome (Result (CheckError E) (AttemptAdmission PgAttemptReceipt)))
| EndComplete (r : Outcome (Result (CheckError E) AttemptCompletionResult))
| EndHost (r : Outcome host_result) (acknowledged : bool).

Definition call_end (db : AttemptDb) (c : timed_attempt) : attempt_end :=
  match ta_call c with
  | CallAdmit self env subject => EndAdmit (ce_result (admit_attempt self db env subject).1)
  | CallComplete self env subject token outcome =>
      EndComplete (ce_result (complete self db env (receipt_of subject token) outcome).1)
  | CallHost started finished subject token script _ acknowledged =>
      EndHost (host_transaction (E := E) started finished (ta_fresh c) (ta_xid c) subject token script db).2
        acknowledged
  end.

Definition call_table (db : AttemptDb) (c : timed_attempt) : AttemptDb :=
  match ta_call c with
  | CallAdmit self env subject => ce_db db (admit_attempt self db env subject).1
  | CallComplete self env subject token outcome =>
      ce_db db (complete self db env (receipt_of subject token) outcome).1
  | CallHost started finished subject token script applied acknowledged =>
      if applied || acknowledged
      then (host_transaction (E := E) started finished (ta_fresh c) (ta_xid c) subject token script db).1
      else db
  end.

(** The results of calls one after the other, from a table. *)
Fixpoint attempt_run (db : AttemptDb) (calls : list timed_attempt) : list attempt_end :=
  match calls with
  | [] => []
  | c :: calls => call_end db c :: attempt_run (call_table db c) calls
  end.

(** The server answers from its table when it answers, at the times its
    clock shows. *)
Record attempt_call_ok (c : timed_attempt) : Prop := {
  tc_low : 0 <= ta_low c;
  tc_high : ta_high c + MAX_WINDOW_MILLIS <= i64_max;
  tc_policy : AttemptPolicy_valid (as_policy (call_subject (ta_call c)));
  tc_served : match ta_call c with
    | CallAdmit _ env _ | CallComplete _ env _ _ _ =>
        served_env (attempt_answer (ta_fresh c) (ta_xid c)) (shown (ta_low c) (ta_high c)) env
    | CallHost started finished _ _ _ _ _ =>
        ta_low c <= started / 1000 /\ started <= finished /\ finished / 1000 <= ta_high c
    end;
}.

(** * What results say *)

(** The call reported an admission under its token. *)
Definition admits (c : timed_attempt) (e : attempt_end) : Prop :=
  e = EndAdmit (Done (Ok (AttemptAdmission_Admitted (receipt_of (call_subject (ta_call c)) (ta_fresh c))))).

(** The call presents the receipt: it completes or claims it. *)
Definition presents (c : timed_attempt) (key : CounterKey) (token : str) : Prop :=
  match ta_call c with
  | CallComplete _ _ subject token' _ | CallHost _ _ subject token' _ _ _ =>
      attempt_key subject = key /\ token' = token
  | CallAdmit _ _ _ => False
  end.

(** It reported that the receipt was redeemed: a completion applied, or a
    commit of its claim or of its completion was acknowledged. *)
Definition reported_redeemed (e : attempt_end) : Prop :=
  match e with
  | EndComplete (Done (Ok (Applied _))) => True
  | EndHost r true => redeems r
  | _ => False
  end.

(** It was told that the receipt is stale. *)
Definition reported_stale (e : attempt_end) : Prop :=
  match e with
  | EndComplete (Done (Ok Stale)) | EndHost (Done HostStale) _ => True
  | _ => False
  end.

(** ** The effect of a call *)

Definition call_effect (db : AttemptDb) (c : timed_attempt) : Prop :=
  match ta_call c with
  | CallAdmit _ _ subject =>
      exists reserved, admitted (ta_fresh c) (ta_low c) (ta_high c) subject db reserved (call_table db c)
      /\ forall r, call_end db c = EndAdmit (Done (Ok (AttemptAdmission_Admitted r))) ->
           reserved = true /\ r = receipt_of subject (ta_fresh c)
  | CallComplete _ _ subject token _ =>
      exists applied, completed subject token db applied (call_table db c)
      /\ (reported_redeemed (call_end db c) -> applied = true)
      /\ (reported_stale (call_end db c) -> applied = false)
  | CallHost _ _ subject token _ _ _ =>
      (redeemed subject token (ta_fresh c) db (call_table db c) /\ ~ reported_stale (call_end db c))
      \/ (call_table db c = db /\ ~ reported_redeemed (call_end db c))
  end.

Lemma call_has_effect db c : table_ok db -> attempt_call_ok c -> call_effect db c.
Proof.
  intros Hdb [Hlow Hhigh Hp Henv]. unfold call_effect, call_table, call_end.
  destruct (ta_call c) as [self env subject|self env subject token outcome|started finished subject token script applied ack];
    cbn in Hp, Henv.
  - pose proof (admit_call_settles _ _ _ _ subject Hp Hlow Hhigh db Hdb self env Henv) as Hs.
    unfold call_settles in Hs. destruct (ce_result _) as [[[r|denial]|e]|]; [| | |done].
    + destruct Hs as [-> Hadm]. exists true. split; [done|]. by intros r [= <-].
    + exists false. by split.
    + destruct Hs as [->|[reserved Hadm]]; [exists false|exists reserved]; (split; [|by intros r [=]]); [|done].
      by apply admitted_nothing.
  - pose proof (complete_call_settles _ _ _ _ subject Hp token db Hdb self env outcome Henv) as Hs.
    unfold call_settles in Hs. destruct (ce_result _) as [[[c'|]|e]|]; [| | |done].
    + exists true. by split_and!.
    + exists false. by split_and!.
    + destruct Hs as [->|[applied Happ]]; [exists false|exists applied]; (split_and!; [|done|done]); [|done].
      by apply completed_nothing.
  - pose proof (host_effect subject Hp token (ta_fresh c) (ta_xid c) db Hdb started finished script) as Hhost.
    destruct (host_transaction _ _ _ _ _ _ _ _) as [db' r]. cbn [fst snd].
    destruct Hhost as [[Hr Hred]|[Hr ->]].
    + assert (Hfresh : ~ reported_stale (EndHost r ack)) by (destruct r as [[]|]; cbn; tauto).
      destruct applied, ack; [left..|right]; (split; [done|]); [done..|by intros []].
    + right. split; [by destruct (applied || ack)|]. cbn. by destruct ack; [|intros []].
Qed.

Lemma call_table_ok db c : table_ok db -> attempt_call_ok c -> table_ok (call_table db c).
Proof.
  intros Hdb Hok. pose proof (call_has_effect db c Hdb Hok) as Heff. unfold call_effect in Heff.
  destruct (ta_call c); [by destruct Heff as (b & [] & _)..|]. by destruct Heff as [[[] _]|[-> _]].
Qed.

Lemma run_table_ok db calls : table_ok db -> Forall attempt_call_ok calls -> table_ok (foldl call_table db calls).
Proof.
  revert db. induction calls as [|c calls IH]; intros db Hdb Hcalls; [done|].
  apply Forall_cons in Hcalls as [Hc Hcalls]. by apply IH, Hcalls; apply call_table_ok.
Qed.

Lemma attempt_run_lookup db calls i c e :
  calls !! i = Some c -> attempt_run db calls !! i = Some e ->
  e = call_end (foldl call_table db (take i calls)) c.
Proof.
  revert db i. induction calls as [|c' calls IH]; intros db [|i]; cbn; [done..| |].
  - by intros [= ->] [= <-].
  - apply IH.
Qed.

(** ** Leases over time *)

(** Why a lease of a key may have ended with a call. *)
Definition released (key : CounterKey) (token : str) (until : Z) (db : AttemptDb) (c : timed_attempt) : Prop :=
  until <= ta_high c \/ presents c key token /\ ~ reported_stale (call_end db c).

Lemma lease_step db c key token until :
  table_ok db -> attempt_call_ok c -> lease db key = Some (token, until) ->
  released key token until db c \/ lease (call_table db c) key = Some (token, until).
Proof.
  intros Hdb Hok Hlease. pose proof (call_has_effect db c Hdb Hok) as Heff.
  unfold call_effect, released, presents in *.
  destruct (ta_call c) as [self env subject|self env subject token' outcome|? ? subject token' ? ? ?].
  - destruct Heff as (reserved & [_ Hleft Hfree _] & _).
    destruct (decide (reserved = true /\ key = attempt_key subject)) as [[-> ->]|Hother].
    { left. left. by eapply Hfree. }
    destruct (Hleft key) as [Heq|(_ & token' & until' & Hl & Hu)]; [naive_solver|right; congruence|].
    left. left. rewrite Hlease in Hl. by injection Hl as -> ->.
  - destruct Heff as ([] & [_ Hstale Hl Hended] & _ & Hnot).
    + rewrite Hended by done. case_decide as Hk; [|by right]. subst key. left. right.
      destruct (Hl eq_refl) as [u Hu]. rewrite Hu in Hlease. injection Hlease as -> ->.
      split; [done|]. by intros ?%Hnot.
    + right. by rewrite Hstale.
  - destruct Heff as [[[_ [u Hu] _ Hothers] Hnot]|[-> _]]; [|by right].
    destruct (decide (key = attempt_key subject)) as [->|Hk]; [|right; by rewrite Hothers].
    left. right. rewrite Hu in Hlease. by injection Hlease as -> ->.
Qed.

Lemma lease_run db mid key token until :
  table_ok db -> Forall attempt_call_ok mid -> lease db key = Some (token, until) ->
  (exists k c, mid !! k = Some c /\ released key token until (foldl call_table db (take k mid)) c)
  \/ lease (foldl call_table db mid) key = Some (token, until).
Proof.
  revert db. induction mid as [|c mid IH]; intros db Hdb Hok Hlease; [by right|].
  apply Forall_cons in Hok as [Hc Hok].
  destruct (lease_step db c key token until Hdb Hc Hlease) as [Hr|Hkept].
  { left. by exists 0%nat, c. }
  destruct (IH (call_table db c)) as [(k & c' & Hk & Hr)|Hend]; [by apply call_table_ok|done..| |by right].
  left. by exists (S k), c'.
Qed.

(** An admission finds the key without a lease, or with one that has run
    out. *)
Lemma admission_vacant db c e key token until :
  table_ok db -> attempt_call_ok c -> e = call_end db c -> admits c e -> key_of c = key ->
  lease db key = Some (token, until) -> until <= ta_high c.
Proof.
  intros Hdb Hok -> Hadm <- Hlease. pose proof (call_has_effect db c Hdb Hok) as Heff.
  unfold call_effect, admits in *. destruct (ta_call c) eqn:Hcall; [|by unfold call_end in Hadm; rewrite Hcall in Hadm..].
  destruct Heff as (reserved & [_ _ Hfree _] & Hrep). destruct (Hrep _ Hadm) as [-> _]. by eapply Hfree.
Qed.

Lemma admission_leases db c e :
  table_ok db -> attempt_call_ok c -> e = call_end db c -> admits c e ->
  exists until, lease (call_table db c) (key_of c) = Some (ta_fresh c, until)
  /\ ta_low c + QuotaPeriod_millis (ap_lease (as_policy (call_subject (ta_call c)))) <= until.
Proof.
  intros Hdb Hok -> Hadm. pose proof (call_has_effect db c Hdb Hok) as Heff.
  unfold call_effect, admits in *. destruct (ta_call c) eqn:Hcall; [|by unfold call_end in Hadm; rewrite Hcall in Hadm..].
  destruct Heff as (reserved & [_ _ _ Hlease] & Hrep). destruct (Hrep _ Hadm) as [-> _]. by apply Hlease.
Qed.

(** ** Tokens *)

(** A leased token is that of an earlier admission of its key, or of an
    earlier claim. *)
Definition issues (c : timed_attempt) (key : CounterKey) (token : str) : Prop :=
  match ta_call c with
  | CallAdmit _ _ subject | CallHost _ _ subject _ _ _ _ =>
      attempt_key subject = key /\ ta_fresh c = token
  | CallComplete _ _ _ _ _ => False
  end.
Definition issued (calls : list timed_attempt) (key : CounterKey) (token : str) : Prop :=
  exists i c, calls !! i = Some c /\ issues c key token.
Definition leases_issued (calls : list timed_attempt) (db : AttemptDb) : Prop :=
  forall key token until, lease db key = Some (token, until) -> issued calls key token.

Lemma issued_snoc calls c key token : issued calls key token -> issued (calls ++ [c]) key token.
Proof.
  intros (i & c' & Hi & Hrest). exists i, c'. split; [by apply lookup_app_l_Some|done].
Qed.

Lemma lease_origin db c key token until :
  table_ok db -> attempt_call_ok c -> lease (call_table db c) key = Some (token, until) ->
  lease db key = Some (token, until) \/ issues c key token.
Proof.
  intros Hdb Hok Hlease. pose proof (call_has_effect db c Hdb Hok) as Heff. unfold call_effect, issues in *.
  destruct (ta_call c) as [self env subject|self env subject token' outcome|? ? subject token' ? ? ?].
  - destruct Heff as (reserved & [_ Hleft _ Hnew] & _).
    destruct (decide (reserved = true /\ key = attempt_key subject)) as [[-> ->]|Hother].
    + right. destruct (Hnew eq_refl) as (u & Hu & _). rewrite Hu in Hlease. by injection Hlease as <- _.
    + left. destruct (Hleft key) as [Heq|(Hnone & _)]; [naive_solver|congruence..].
  - left. destruct Heff as ([] & [_ Hstale _ Hended] & _).
    + rewrite Hended in Hlease by done. by case_decide.
    + by rewrite Hstale in Hlease.
  - destruct Heff as [[[_ _ Hended Hothers] _]|[Heq _]]; [|left; by rewrite <- Heq].
    destruct (decide (key = attempt_key subject)) as [->|Hk]; [right|left; by rewrite <- Hothers].
    destruct Hended as [Hnone|[u Hu]]; [congruence|]. rewrite Hu in Hlease. by injection Hlease as <- _.
Qed.

Lemma run_leases_issued calls :
  Forall attempt_call_ok calls -> leases_issued calls (foldl call_table ∅ calls).
Proof.
  induction calls as [|c calls IH] using rev_ind; intros Hok.
  { intros key token until. unfold lease. cbn. by rewrite lookup_empty. }
  apply Forall_app in Hok as [Hok [Hc _]%Forall_cons]. rewrite foldl_app. cbn [foldl].
  intros key token until Hlease. apply lease_origin in Hlease as [Hold|Hissues];
    [..|by apply run_table_ok, Hok; apply table_ok_empty|done].
  - by eapply issued_snoc, IH.
  - exists (length calls), c. split; [|done]. by rewrite list_lookup_middle.
Qed.

Lemma issues_fresh c key token : issues c key token -> ta_fresh c = token.
Proof. unfold issues. by destruct (ta_call c) as [| |]; [intros [_ ?]|intros []|intros [_ ?]]. Qed.

Lemma issues_same c key key' token token' : issues c key token -> issues c key' token' -> key = key'.
Proof. unfold issues. destruct (ta_call c); [|done|]; intros [<- _] [<- _]; done. Qed.

(** A token that no key has comes back only with a call that issues it. *)
Definition unleased (db : AttemptDb) (token : str) : Prop := forall key until, lease db key <> Some (token, until).

Lemma unleased_run db mid token :
  table_ok db -> Forall attempt_call_ok mid -> unleased db token ->
  token ∉ (ta_fresh <$> mid) -> unleased (foldl call_table db mid) token.
Proof.
  revert db. induction mid as [|c mid IH]; intros db Hdb Hok Hun Hnot; [done|].
  apply Forall_cons in Hok as [Hc Hok]. rewrite fmap_cons, not_elem_of_cons in Hnot. destruct Hnot as [Hne Hnot].
  cbn [foldl]. apply IH; [by apply call_table_ok|done| |done]. intros key until Hlease.
  apply lease_origin in Hlease as [Hold|Hf%issues_fresh]; [by eapply Hun|congruence|done..].
Qed.

(** A redemption found the lease it names, and ended it. *)
Lemma redeemed_lease db c e :
  table_ok db -> attempt_call_ok c -> e = call_end db c -> reported_redeemed e ->
  exists key token, presents c key token /\ (exists until, lease db key = Some (token, until))
  /\ (forall k, k <> key -> lease (call_table db c) k = lease db k)
  /\ (lease (call_table db c) key = None \/ exists until, lease (call_table db c) key = Some (ta_fresh c, until)).
Proof.
  intros Hdb Hok -> Happ. pose proof (call_has_effect db c Hdb Hok) as Heff. unfold call_effect, presents in *.
  destruct (ta_call c) as [self env subject|self env subject token outcome|? ? subject token ? ? ?] eqn:Hcall.
  - unfold call_end in Happ. by rewrite Hcall in Happ.
  - destruct Heff as (applied & [_ _ Hl Hended] & Happlied & _). specialize (Happlied Happ) as ->.
    exists (attempt_key subject), token. split_and!; [done..|by apply Hl| |].
    + intros k Hk. rewrite Hended by done. by rewrite decide_False.
    + left. rewrite Hended by done. by rewrite decide_True.
  - destruct Heff as [[[_ Hl Hended Hothers] _]|[_ Hnot]]; [|done].
    exists (attempt_key subject), token. by split_and!.
Qed.

Lemma presents_same c key key' token token' :
  presents c key token -> presents c key' token' -> key = key' /\ token = token'.
Proof. unfold presents. destruct (ta_call c); [done|..]; intros [<- <-] [<- <-]; done. Qed.

Lemma issued_same calls key key' token :
  NoDup (ta_fresh <$> calls) -> issued calls key token -> issued calls key' token -> key = key'.
Proof.
  intros Hnd (i & c & Hi & Hc) (i' & c' & Hi' & Hc').
  pose proof (issues_fresh _ _ _ Hc) as Hf. pose proof (issues_fresh _ _ _ Hc') as Hf'.
  assert (i = i') as <-.
  { apply (proj1 (NoDup_alt _) Hnd i i' token); rewrite list_lookup_fmap; [by rewrite Hi, <- Hf|by rewrite Hi', <- Hf']. }
  rewrite Hi in Hi'. injection Hi' as <-. by eapply issues_same.
Qed.

(** After its redemption no key has the token. *)
Lemma redeemed_unleased db calls c e key token :
  NoDup (ta_fresh <$> calls) -> ta_fresh c ∉ (ta_fresh <$> calls) -> leases_issued calls db ->
  table_ok db -> attempt_call_ok c -> e = call_end db c -> reported_redeemed e ->
  presents c key token -> unleased (call_table db c) token.
Proof.
  intros Hnd Hfresh Hissued Hdb Hok He Happ Hpresents k until Hlease.
  destruct (redeemed_lease db c e Hdb Hok He Happ) as (key' & token' & Hp & [u Hu] & Hothers & Hended).
  destruct (presents_same _ _ _ _ _ Hp Hpresents) as [-> ->].
  destruct (decide (k = key)) as [->|Hk].
  - destruct Hended as [Hnone|[u' Hu']]; [congruence|]. rewrite Hu' in Hlease. injection Hlease as <- _.
    apply Hfresh. destruct (Hissued _ _ _ Hu) as (i & ci & Hi & Hci%issues_fresh). rewrite <- Hci.
    apply list_elem_of_fmap_2, (list_elem_of_lookup_2 _ _ _ Hi).
  - rewrite Hothers in Hlease by done. apply Hk. apply (issued_same calls _ _ token Hnd); by eapply Hissued.
Qed.

Lemma between_lookup {A} (l : list A) i j k (z : A) :
  take (j - S i) (drop (S i) l) !! k = Some z -> (S i + k < j)%nat /\ l !! (S i + k)%nat = Some z.
Proof.
  intros [Hz Hk]%lookup_take_Some. rewrite lookup_drop in Hz. split; [lia|done].
Qed.

Section Run.
Context (calls : list timed_attempt) (Hcalls : Forall attempt_call_ok calls).

(** The table before the call at a position. *)
Definition table_at (i : nat) : AttemptDb := foldl call_table ∅ (take i calls).

Lemma table_at_ok i : table_ok (table_at i).
Proof. apply run_table_ok; [apply table_ok_empty|by apply Forall_take]. Qed.

Lemma table_at_later i c k :
  calls !! i = Some c -> (S i + k <= length calls)%nat ->
  table_at (S i + k) = foldl call_table (call_table (table_at i) c) (take k (drop (S i) calls)).
Proof.
  intros Hi Hk. unfold table_at. rewrite <- (take_take_drop calls (S i) k), foldl_app. f_equal.
  by rewrite (take_S_r _ _ c), foldl_app.
Qed.

Lemma end_at i c e :
  calls !! i = Some c -> attempt_run ∅ calls !! i = Some e -> e = call_end (table_at i) c.
Proof. apply attempt_run_lookup. Qed.

Lemma has_end i c : calls !! i = Some c -> attempt_run ∅ calls !! i = Some (call_end (table_at i) c).
Proof.
  intros Hi. destruct (attempt_run ∅ calls !! i) as [e|] eqn:He; [by rewrite (end_at i c e)|]. exfalso.
  apply lookup_ge_None in He. apply lookup_lt_Some in Hi.
  assert (Hlen : forall db l, length (attempt_run db l) = length l)
    by (intros db l; revert db; induction l as [|x l IH]; intros db; cbn; [done|by rewrite IH]).
  rewrite Hlen in He. lia.
Qed.

Lemma admissions_exclusive i j ci cj ei ej :
  (i < j)%nat -> calls !! i = Some ci -> calls !! j = Some cj ->
  attempt_run ∅ calls !! i = Some ei -> attempt_run ∅ calls !! j = Some ej ->
  admits ci ei -> admits cj ej -> key_of ci = key_of cj ->
  (exists k ck ek, (i < k < j)%nat /\ calls !! k = Some ck /\ attempt_run ∅ calls !! k = Some ek
     /\ presents ck (key_of ci) (ta_fresh ci) /\ ~ reported_stale ek)
  \/ exists k ck, (i < k <= j)%nat /\ calls !! k = Some ck
     /\ ta_low ci + QuotaPeriod_millis (ap_lease (as_policy (call_subject (ta_call ci)))) <= ta_high ck.
Proof.
  intros Hij Hi Hj Hei Hej Hadm Hadm' Hkey.
  pose proof (end_at i ci ei Hi Hei) as Hend. pose proof (end_at j cj ej Hj Hej) as Hend'.
  pose proof (Forall_lookup_1 _ _ _ _ Hcalls Hi) as Hoki. pose proof (Forall_lookup_1 _ _ _ _ Hcalls Hj) as Hokj.
  pose proof (lookup_lt_Some _ _ _ Hj) as Hlen.
  destruct (admission_leases (table_at i) ci ei (table_at_ok i) Hoki Hend Hadm) as (until & Hlease & Huntil).
  destruct (lease_run (call_table (table_at i) ci) (take (j - S i) (drop (S i) calls)) (key_of ci) (ta_fresh ci) until)
    as [(k & ck & Hk & Hr)|Hkept]; [apply call_table_ok; [apply table_at_ok|done]|by apply Forall_take, Forall_drop|done| |].
  - apply between_lookup in Hk as Hck. destruct Hck as [Hkj Hck].
    rewrite take_take, Nat.min_l, <- (table_at_later i ci k Hi) in Hr by lia.
    destruct Hr as [Htime|[Hcomp Hns]].
    + right. exists (S i + k)%nat, ck. split_and!; [lia|lia|done|lia].
    + left. exists (S i + k)%nat, ck, (call_end (table_at (S i + k)) ck). split_and!; [lia|lia|done|by apply has_end|done..].
  - rewrite <- (table_at_later i ci (j - S i) Hi) in Hkept by lia.
    replace (S i + (j - S i))%nat with j in Hkept by lia.
    right. exists j, cj. split_and!; [lia|lia|done|].
    pose proof (admission_vacant (table_at j) cj ej _ _ _ (table_at_ok j) Hokj Hend' Hadm' (eq_sym Hkey) Hkept). lia.
Qed.

Context (Htokens : NoDup (ta_fresh <$> calls)).

Lemma tokens_before i c : calls !! i = Some c ->
  NoDup (ta_fresh <$> take i calls) /\ ta_fresh c ∉ (ta_fresh <$> take i calls).
Proof.
  intros Hi. pose proof Htokens as Hnd. rewrite <- (take_drop_middle calls i c Hi), fmap_app in Hnd.
  apply NoDup_app in Hnd as (Hnd & Hdisj & _). split; [done|]. intros Hin. apply (Hdisj _ Hin).
  rewrite fmap_cons. by left.
Qed.

Lemma redemptions_single i j ci cj ei ej key token :
  (i < j)%nat -> calls !! i = Some ci -> calls !! j = Some cj ->
  attempt_run ∅ calls !! i = Some ei -> attempt_run ∅ calls !! j = Some ej ->
  reported_redeemed ei -> reported_redeemed ej ->
  presents ci key token -> presents cj key token -> False.
Proof.
  intros Hij Hi Hj Hei Hej Happ Happ' Hci Hcj.
  pose proof (end_at i ci ei Hi Hei) as Hend. pose proof (end_at j cj ej Hj Hej) as Hend'.
  pose proof (Forall_lookup_1 _ _ _ _ Hcalls Hi) as Hoki. pose proof (Forall_lookup_1 _ _ _ _ Hcalls Hj) as Hokj.
  pose proof (lookup_lt_Some _ _ _ Hj) as Hlen. destruct (tokens_before i ci Hi) as [Hnd Hfresh].
  assert (Hissued : leases_issued (take i calls) (table_at i)) by (by apply run_leases_issued, Forall_take).
  pose proof (redeemed_unleased (table_at i) (take i calls) ci ei key token
    Hnd Hfresh Hissued (table_at_ok i) Hoki Hend Happ Hci) as Hun.
  destruct (redeemed_lease (table_at i) ci ei (table_at_ok i) Hoki Hend Happ) as (key1 & token1 & Hp1 & [u Hu] & _).
  destruct (presents_same _ _ _ _ _ Hp1 Hci) as [-> ->].
  destruct (redeemed_lease (table_at j) cj ej (table_at_ok j) Hokj Hend' Happ') as (key2 & token2 & Hp2 & [u' Hu'] & _).
  destruct (presents_same _ _ _ _ _ Hp2 Hcj) as [-> ->].
  assert (Hnew : token ∉ (ta_fresh <$> take (j - S i) (drop (S i) calls))).
  { destruct (Hissued _ _ _ Hu) as (n & c & Hn & Hf%issues_fresh). apply lookup_take_Some in Hn as [Hn Hni].
    intros (c' & Hf' & Hin)%list_elem_of_fmap. apply list_elem_of_lookup in Hin as [k Hk].
    apply between_lookup in Hk as [_ Hk].
    assert (n = (S i + k)%nat); [|lia].
    apply (proj1 (NoDup_alt _) Htokens n (S i + k)%nat token); rewrite list_lookup_fmap; [by rewrite Hn, <- Hf|by rewrite Hk, Hf']. }
  pose proof (unleased_run (call_table (table_at i) ci) (take (j - S i) (drop (S i) calls)) token) as Hrun.
  rewrite <- (table_at_later i ci (j - S i) Hi) in Hrun by lia.
  replace (S i + (j - S i))%nat with j in Hrun by lia.
  apply (Hrun (call_table_ok _ _ (table_at_ok i) Hoki) ltac:(by apply Forall_take, Forall_drop) Hun Hnew _ _ Hu').
Qed.

Lemma redemptions_issued j cj ej :
  calls !! j = Some cj -> attempt_run ∅ calls !! j = Some ej -> reported_redeemed ej ->
  exists key token, presents cj key token /\ issued (take j calls) key token.
Proof.
  intros Hj Hej Happ. pose proof (Forall_lookup_1 _ _ _ _ Hcalls Hj) as Hok.
  destruct (redeemed_lease (table_at j) cj ej (table_at_ok j) Hok (end_at j cj ej Hj Hej) Happ)
    as (key & token & Hp & [u Hu] & _).
  exists key, token. split; [done|]. eapply run_leases_issued; [by apply Forall_take|exact Hu].
Qed.
End Run.

(** C19. Attempts exclude each other across processes.  Let any limiters make
    any admissions and completions on one fresh table, and any hosts claim
    and finish, or complete, receipts in transactions of their own, while
    replies get lost, clients' clocks jump, deadlines pass and commits go
    unacknowledged, and let the server answer from its table when it answers
    and never generate a token twice.  If two admissions of a key are both
    reported, then between them the receipt of the first was presented, to a
    completion or a host's transaction that was not told it was stale, or
    the server's clock has shown, by the second, the end of the lease of the
    first.  A receipt is redeemed, by a completion that applied or by an
    acknowledged host transaction that claimed or completed it, at most
    once, and only when an earlier admission or claim of its key issued it. *)
Theorem pg_attempts_exclusive (calls : list timed_attempt)
    (Htokens : NoDup (ta_fresh <$> calls)) (Hcalls : Forall attempt_call_ok calls) :
  let ends := attempt_run ∅ calls in
  (forall i j ci cj ei ej, (i < j)%nat -> calls !! i = Some ci -> calls !! j = Some cj ->
     ends !! i = Some ei -> ends !! j = Some ej ->
     admits ci ei -> admits cj ej -> key_of ci = key_of cj ->
     (exists k ck ek, (i < k < j)%nat /\ calls !! k = Some ck /\ ends !! k = Some ek
        /\ presents ck (key_of ci) (ta_fresh ci) /\ ~ reported_stale ek)
     \/ exists k ck, (i < k <= j)%nat /\ calls !! k = Some ck
        /\ ta_low ci + QuotaPeriod_millis (ap_lease (as_policy (call_subject (ta_call ci)))) <= ta_high ck)
  /\ (forall j cj ej, calls !! j = Some cj -> ends !! j = Some ej -> reported_redeemed ej ->
     exists key token, presents cj key token /\ issued (take j calls) key token
     /\ forall j' cj' ej', calls !! j' = Some cj' -> ends !! j' = Some ej' -> reported_redeemed ej' ->
          presents cj' key token -> j' = j).
Proof.
  intros ends. split; [by intros; eapply admissions_exclusive|]. intros j cj ej Hj Hej Happ.
  destruct (redemptions_issued calls Hcalls j cj ej Hj Hej Happ) as (key & token & Hcj & Hissued).
  exists key, token. split_and!; [done..|]. intros j' cj' ej' Hj' Hej' Happ' Hcj'.
  destruct (Nat.lt_trichotomy j' j) as [Hlt|[->|Hlt]]; [exfalso|done|exfalso]; by eapply redemptions_single.
Qed.
End Calls.

(** * A concrete run *)

#[local] Existing Instance example_sqlx.
#[local] Instance example_sqlx_decode : SqlxDecode unit := { Decode := fun _ => tt }.

(** A server whose clock stands at [now] milliseconds, and a network that
    loses every reply after the first [kept]; commits take effect. *)
Definition example_attempt_lossy (fresh : str) (now : Z) (kept : nat) : PgEnv unit AttemptDb (AttemptQuery unit) :=
  mkPgEnv (Some (Ok tt)) 0
    (map (honest_step (attempt_answer fresh [49])) (replicate kept (mkTick 5 (now * 1000) (now * 1000)))
     ++ replicate (26 - kept) (mkStep 5 None None true)) DURATION_ZERO.

Definition example_admit (fresh : str) (now : Z) (kept : nat) : timed_attempt :=
  mkTimedAttempt now now fresh [49]
    (CallAdmit PostgresAttempts.new (example_attempt_lossy fresh now kept) (example_pg_subject 1)).

Definition example_complete (token unused : str) (now : Z) (kept : nat) (outcome : AttemptOutcome) : timed_attempt :=
  mkTimedAttempt now now unused [49]
    (CallComplete PostgresAttempts.new (example_attempt_lossy unused now kept) (example_pg_subject 1) token outcome).

(** A host's transaction at [now] milliseconds. *)
Definition example_host (token fresh : str) (now : Z) (script : host_script) (acknowledged : bool)
    : timed_attempt (E := unit) :=
  mkTimedAttempt now now fresh [50]
    (CallHost (now * 1000) (now * 1000) (example_pg_subject 1) token script true acknowledged).

(** A reservation, a refusal while it lasts, its claim and completion by a
    host whose commit is not acknowledged, a second reservation, its failure,
    and its receipt presented again, to a host and to a completion. *)
Definition example_attempt_calls : list (timed_attempt (E := unit)) :=
  [example_admit [102] 6000 26; example_admit [103] 7000 26;
   example_host [102] [104] 8000 (HostClaim (Some Success)) false;
   example_admit [105] 8500 26; example_complete [105] [106] 9000 26 Failure;
   example_host [105] [107] 9100 (HostClaim None) true; example_complete [105] [108] 9200 26 Failure].

Lemma example_attempt_lossy_served fresh now kept :
  served_env (attempt_answer fresh [49]) (shown now now) (example_attempt_lossy fresh now kept).
Proof.
  apply Forall_app. split.
  - apply Forall_forall. intros step (t & -> & Ht)%list_elem_of_fmap reply [= <-].
    apply elem_of_replicate in Ht as [-> _]. exists (mkTick 5 (now * 1000) (now * 1000)). split; [|done].
    unfold shown, at_ms. cbn. rewrite Z.div_mul; lia.
  - apply Forall_replicate. by intros reply [=].
Qed.

Lemma example_attempt_calls_ok : Forall attempt_call_ok example_attempt_calls.
Proof.
  repeat (apply Forall_cons; split;
    [split; [cbn; lia|rewrite MAX_WINDOW_MILLIS_val; cbn; unfold_widths; lia|apply example_pg_policy_valid
     |first [apply example_attempt_lossy_served|split_and!; vm_compute; discriminate]]|]).
  apply Forall_nil_2.
Qed.

(** C19 witness. *)
Lemma pg_attempts_exclusive_witness :
  attempt_run ∅ example_attempt_calls
  = [EndAdmit (Done (Ok (AttemptAdmission_Admitted (receipt_of (example_pg_subject 1) [102]))));
     EndAdmit (Done (Ok (Denied (AttemptDenial_Busy (Delay_new (from_millis 4000))))));
     EndHost (Done (HostApplied (mkAttemptCompletion Success 0 (Delay_new (from_millis 0))))) false;
     EndAdmit (Done (Ok (AttemptAdmission_Admitted (receipt_of (example_pg_subject 1) [105]))));
     EndComplete (Done (Ok (Applied (mkAttemptCompletion Failure 1 (Delay_new (from_millis 1000))))));
     EndHost (Done HostStale) true; EndComplete (Done (Ok Stale))]
  /\ ((exists k ck ek, (0 < k < 3)%nat /\ example_attempt_calls !! k = Some ck
         /\ attempt_run ∅ example_attempt_calls !! k = Some ek
         /\ presents ck (attempt_key (example_pg_subject 1)) [102] /\ ~ reported_stale ek)
      \/ exists k ck, (0 < k <= 3)%nat /\ example_attempt_calls !! k = Some ck /\ 6000 + 5000 <= ta_high ck).
Proof.
  assert (Hrun : attempt_run ∅ example_attempt_calls
    = [EndAdmit (Done (Ok (AttemptAdmission_Admitted (receipt_of (example_pg_subject 1) [102]))));
       EndAdmit (Done (Ok (Denied (AttemptDenial_Busy (Delay_new (from_millis 4000))))));
       EndHost (Done (HostApplied (mkAttemptCompletion Success 0 (Delay_new (from_millis 0))))) false;
       EndAdmit (Done (Ok (AttemptAdmission_Admitted (receipt_of (example_pg_subject 1) [105]))));
       EndComplete (Done (Ok (Applied (mkAttemptCompletion Failure 1 (Delay_new (from_millis 1000))))));
       EndHost (Done HostStale) true; EndComplete (Done (Ok Stale))]) by (vm_compute; reflexivity).
  split; [exact Hrun|].
  destruct (pg_attempts_exclusive example_attempt_calls) as [Hexcl _];
    [cbn; apply (bool_decide_unpack _); vm_compute; exact I|exact example_attempt_calls_ok|].
  apply (Hexcl 0%nat 3%nat (example_admit [102] 6000 26) (example_admit [105] 8500 26)
    (EndAdmit (Done (Ok (AttemptAdmission_Admitted (receipt_of (example_pg_subject 1) [102])))))
    (EndAdmit (Done (Ok (AttemptAdmission_Admitted (receipt_of (example_pg_subject 1) [105]))))));
    [lia|reflexivity|reflexivity|by rewrite Hrun|by rewrite Hrun|reflexivity|reflexivity|reflexivity].
Defined.
