(* ===== verification/PgAttemptFence.v ===== *)
(** The [low_level] seam: a claim fences a live reservation to the
    transaction that locked it. *)

From Stdlib Require Import Ascii String.
From stdpp Require Import prelude list gmap.
From S2P Require Import Prelude RustStd Identifier Policy Decision AttemptPolicy Key Check Observation MemAttempts PgErrors PgConfig PgSession PgTables PgAdmission PgConnection PgSpec PgHonest PgAttempts PgAttemptSpec PgAttemptRefine.
Open Scope Z_scope.
Open Scope list_scope.
Import AttemptStore.
Import PostgresAttempts.

Section Fence.
Context {E : Type} `{SqlxDecode E} (policies : PolicyFingerprint -> AttemptPolicy).
Context (subject : AttemptSubject) (Hsubject : attempt_ok policies subject).

(** Completions staged on a host's transaction. *)
Lemma staged_stale db started fresh xid token outcome transaction_id :
  from_option (fun row => completes row (started / 1000) xid token transaction_id) false
    (db !! attempt_key subject) = false ->
  staged_completion (attempt_sql (E := E) started fresh xid) db (receipt_of subject token) outcome transaction_id
  = Done (db, Ok StagedStale).
Proof.
  intros Hs. unfold staged_completion. rewrite (completion_query_honest policies) by done.
  cbn [mbind Outcome_bind]. by rewrite completion_sql_stale.
Qed.

Lemma staged_applied db seen started fresh xid token outcome transaction_id row :
  Attempt_wf policies seen db -> db !! attempt_key subject = Some row ->
  completes row (started / 1000) xid token transaction_id = true ->
  0 <= seen <= started / 1000 -> started / 1000 + 3 * MAX_WINDOW_MILLIS <= i64_max ->
  exists row',
    staged_completion (attempt_sql (E := E) started fresh xid) db (receipt_of subject token) outcome transaction_id
    = Done (<[attempt_key subject := row']> db,
            Ok (StagedApplied (completion_of (as_policy subject) outcome (failures row))))
    /\ lease_token row' = None
    /\ row_status row' = completed_status (as_policy subject) outcome (failures row) (started / 1000).
Proof.
  intros Hdb Hrow Hcompletes Hseen Hroom.
  pose proof (row_failures _ _ (rw_ok _ _ _ _ (aw_rows _ _ _ Hdb _ _ Hrow))) as Hf.
  destruct (completion_sql_honest (E := E) policies fresh xid subject Hsubject db seen Hdb started row token
    outcome transaction_id Hrow Hcompletes) as (row' & Hsql & _ & Htok & Hst); [lia..|done|].
  exists row'. split; [|done]. unfold staged_completion. rewrite (completion_query_honest policies) by done.
  cbn [mbind Outcome_bind]. rewrite Hsql. cbn [mbind Result_bind rows].
  by rewrite (completion_result_honest policies).
Qed.

Lemma claim_sql db seen started fresh xid token row :
  Attempt_wf policies seen db -> db !! attempt_key subject = Some row ->
  completes row (started / 1000) xid token None = true -> seen + 3 * MAX_WINDOW_MILLIS <= i64_max ->
  exists db1 row1,
    claim_in (attempt_sql (E := E) started fresh xid) db (receipt_of subject token)
    = (db1, Ok (Claimed (mkPgAttemptClaim (receipt_of subject fresh) xid)))
    /\ db1 = <[attempt_key subject := row1]> db /\ Attempt_wf policies seen db1
    /\ lease_token row1 = Some fresh /\ failures row1 = failures row.
Proof.
  intros Hdb Hrow Hcompletes Hroom. pose proof (aw_rows _ _ _ Hdb _ _ Hrow) as Hwf.
  set (row1 := mkAttemptRow (capacity_slot row) (failures row) (last_failure_ms row) (retry_at_ms row)
    (quiet_ms row) (lease_until_ms row) (Some fresh)).
  assert (Hlease : is_Some (lease_until_ms row)).
  { unfold completes in Hcompletes. apply andb_true_iff in Hcompletes as [_ Hlive].
    destruct (lease_until_ms row); [by eexists|done]. }
  assert (Hok1 : attempt_row_ok (attempt_key subject) row1 = true).
  { pose proof (rw_ok _ _ _ _ Hwf) as Hok. unfold attempt_row_ok in *. rewrite !andb_true_iff in Hok |- *.
    destruct_and? Hok. split_and!; try done. apply bool_decide_eq_true_2. by split. }
  assert (Hwf1 : row_wf policies seen (attempt_key subject) row1).
  { destruct Hwf as [_ Hp Hq Ht]. by split. }
  pose proof (slot_open_own policies seen db _ row Hdb Hrow) as Hopen.
  exists (<[attempt_key subject := row1]> db), row1. split; [|split_and!; [done|by apply store_wf|done..]].
  unfold claim_in. cbn [attempt_sql receipt_of pr_policy pr_subject pr_token].
  rewrite storage_key_of, Hrow, Hcompletes. rewrite store_row_Ok; [done|done| |done].
  destruct Hlease as [until Hu]. destruct Hwf as [_ Hp Hq Ht]. rewrite Hu in Ht.
  destruct Hp as (_ & _ & _ & _ & Hqp & Hlp & _). unfold QuotaPeriod_wf in *. rewrite MAX_WINDOW_MILLIS_val in *.
  unfold expiry_ms, row1, i64_min. cbn [lease_until_ms quiet_ms last_failure_ms]. rewrite Hu, Hq. cbn. unfold id. lia.
Qed.

(** C32. Claiming succeeds exactly on the live reservation its receipt names.
    The claim then fences it: the receipt it was made from is stale ever
    after; the claim completes nothing in any other transaction, nor in its
    own once the savepoint that made it is rolled back; and in its own
    transaction it applies the outcome by the policy's schedule, however
    long after the lease has ended. *)
Theorem pg_attempt_claim_fences db seen started fresh xid token
    (Hdb : Attempt_wf policies seen db) (Hfresh : fresh <> token)
    (Hseen : 0 <= seen <= started / 1000) (Hroom : seen + 3 * MAX_WINDOW_MILLIS <= i64_max) :
  match db !! attempt_key subject with
  | Some row =>
      if completes row (started / 1000) xid token None then
        exists db1,
          let claim := mkPgAttemptClaim (receipt_of subject fresh) xid in
          claim_in (attempt_sql (E := E) started fresh xid) db (receipt_of subject token)
          = (db1, Ok (Claimed claim))
          /\ (forall later fresh' xid' outcome,
               complete_in (attempt_sql (E := E) later fresh' xid') db1 (receipt_of subject token) outcome
               = Done (db1, Ok StagedStale))
          /\ (forall later fresh' xid' outcome, xid' <> xid ->
               finish_in (attempt_sql (E := E) later fresh' xid') db1 claim outcome
               = Done (db1, Ok StagedStale))
          /\ (forall later fresh' xid' outcome,
               finish_in (attempt_sql (E := E) later fresh' xid') db claim outcome
               = Done (db, Ok StagedStale))
          /\ (forall later fresh' outcome, started <= later ->
               later / 1000 + 3 * MAX_WINDOW_MILLIS <= i64_max ->
               exists row',
                 finish_in (attempt_sql (E := E) later fresh' xid) db1 claim outcome
                 = Done (<[attempt_key subject := row']> db1,
                         Ok (StagedApplied (completion_of (as_policy subject) outcome (failures row))))
                 /\ lease_token row' = None
                 /\ row_status row' = completed_status (as_policy subject) outcome (failures row) (later / 1000))
      else claim_in (attempt_sql (E := E) started fresh xid) db (receipt_of subject token) = (db, Ok ClaimStale)
  | None => claim_in (attempt_sql (E := E) started fresh xid) db (receipt_of subject token) = (db, Ok ClaimStale)
  end.
Proof.
  destruct (db !! attempt_key subject) as [row|] eqn:Hrow.
  2:{ unfold claim_in. cbn [attempt_sql receipt_of pr_policy pr_subject pr_token].
      by rewrite storage_key_of, Hrow. }
  destruct (completes row (started / 1000) xid token None) eqn:Hc.
  2:{ unfold claim_in. cbn [attempt_sql receipt_of pr_policy pr_subject pr_token].
      by rewrite storage_key_of, Hrow, Hc. }
  destruct (claim_sql db seen started fresh xid token row Hdb Hrow Hc Hroom)
    as (db1 & row1 & Hclaim & -> & Hwf1 & Htok1 & Hf1).
  assert (Htok : lease_token row = Some token).
  { unfold completes in Hc. apply andb_true_iff in Hc as [Ht _]. by apply bool_decide_eq_true_1 in Ht. }
  assert (Hrow1 : <[attempt_key subject := row1]> db !! attempt_key subject = Some row1) by apply lookup_insert_eq.
  eexists. split; [exact Hclaim|]. split_and!.
  - intros later fresh' xid' outcome. apply staged_stale. rewrite Hrow1. cbn. unfold completes.
    rewrite Htok1, bool_decide_eq_false_2; [done|congruence].
  - intros later fresh' xid' outcome Hxid. apply staged_stale. rewrite Hrow1. cbn. unfold completes.
    rewrite (bool_decide_eq_false_2 (xid = xid')) by congruence. apply andb_false_r.
  - intros later fresh' xid' outcome. apply staged_stale. rewrite Hrow. cbn. unfold completes.
    rewrite Htok, bool_decide_eq_false_2; [done|congruence].
  - intros later fresh' outcome Hlater Hroom'. rewrite <- Hf1.
    apply (staged_applied _ seen); [done|done| | |done].
    + unfold completes. rewrite Htok1. by rewrite !bool_decide_eq_true_2.
    + assert (started / 1000 <= later / 1000) by (apply Z.div_le_mono; lia). lia.
Qed.
End Fence.

(** * A concrete claim *)

#[local] Existing Instance example_sqlx.
#[local] Instance example_decode : SqlxDecode unit := { Decode := fun _ => tt }.

(** C32 witness. *)
Lemma pg_attempt_claim_fences_witness :
  exists db1,
    claim_in (attempt_sql 6000000 [102] [49]) example_reserved (receipt_of (example_pg_subject 1) [116])
    = (db1, Ok (Claimed (mkPgAttemptClaim (receipt_of (example_pg_subject 1) [102]) [49])))
    /\ finish_in (attempt_sql 60000000 [103] [50]) db1
         (mkPgAttemptClaim (receipt_of (example_pg_subject 1) [102]) [49]) Success
       = Done (db1, Ok StagedStale).
Proof.
  pose proof (pg_attempt_claim_fences (fun _ => example_pg_policy) (example_pg_subject 1) (example_attempt_ok 1)
    example_reserved 4000 6000000 [102] [49] [116] example_reserved_wf ltac:(discriminate)
    ltac:(vm_compute; split; discriminate) ltac:(vm_compute; discriminate)) as Hfence.
  assert (Hrow : example_reserved !! attempt_key (example_pg_subject 1)
    = Some (mkAttemptRow 0 2 100 4000 3600000 (Some 9000) (Some [116]))) by reflexivity.
  rewrite Hrow in Hfence. destruct Hfence as (db1 & Hclaim & _ & Hother & _).
  exists db1. split; [exact Hclaim|]. apply Hother. discriminate.
Defined.
