(* ===== verification/Redaction.v ===== *)
(** What the program prints of itself: the [Display] and [Debug] texts of
    identifiers, fingerprints, keys, receipts, stores and layers, over the
    standard library's formatting builders; and what they do not print:
    subject keys, hashers, receipts, limiters and requests' extractors. *)

From Stdlib Require Import Ascii String.
From stdpp Require Import prelude list gmap.
From S2P Require Import Prelude RustStd Identifier Policy Decision AttemptPolicy Key Check Observation Gcra OrdSet MemConfig Shards BoundedShards Limiter AxumLayer MemStore MemGcra MemAttempts PgAttempts.
Open Scope Z_scope.
Open Scope list_scope.

(** * [std::fmt] *)

(** What a [Debug] implementation asks its formatter to write: text, or one of
    the builders of the standard library with its fields. *)
Inductive Dbg :=
| DbgText (text : str)
| DbgStruct (name : str) (fields : list (str * Dbg)) (exhaustive : bool)
| DbgTuple (name : str) (fields : list Dbg).

(** [PadAdapter] indents every line it starts. *)
Fixpoint pad (on_newline : bool) (s : str) : str :=
  match s with
  | [] => []
  | c :: s => (if on_newline then byte_string "    " else []) ++ c :: pad (c =? 10) s
  end.

(** [{:?}], and [{:#?}] when [alternate]. *)
Fixpoint render (alternate : bool) (d : Dbg) : str :=
  match d with
  | DbgText text => text
  | DbgStruct name fields exhaustive =>
      let fix go (first : bool) (fields : list (str * Dbg)) : str :=
        match fields with
        | [] =>
            if exhaustive then
              if first then [] else byte_string (if alternate then "}" else " }")
            else if first then byte_string " { .. }"
            else if alternate then pad true (byte_string ".." ++ [10]) ++ byte_string "}"
            else byte_string ", .. }"
        | (n, v) :: fields =>
            let field := n ++ byte_string ": " ++ render alternate v in
            (if alternate
             then (if first then byte_string " {" ++ [10] else []) ++ pad true (field ++ byte_string "," ++ [10])
             else byte_string (if first then " { " else ", ") ++ field)
            ++ go false fields
        end in
      name ++ go true fields
  | DbgTuple name fields =>
      let fix go (first : bool) (fields : list Dbg) : str :=
        match fields with
        | [] => if first then [] else byte_string ")"
        | v :: fields =>
            (if alternate
             then (if first then byte_string "(" ++ [10] else []) ++ pad true (render alternate v ++ byte_string "," ++ [10])
             else byte_string (if first then "(" else ", ") ++ render alternate v)
            ++ go false fields
        end in
      name ++ go true fields
  end.

(** One hexadecimal digit; [{byte:02x}]. *)
Definition hex_digit (n : Z) : Z := if n <? 10 then 48 + n else 87 + n.
Definition hex_byte (byte : Z) : str := [hex_digit (byte / 16); hex_digit (byte mod 16)].

(** [Debug for str] of ASCII text, such as every identifier is. *)
Definition debug_char (c : Z) : str :=
  if c =? 34 then byte_string "\" ++ [34]
  else if c =? 92 then byte_string "\\"
  else if c =? 9 then byte_string "\t"
  else if c =? 10 then byte_string "\n"
  else if c =? 13 then byte_string "\r"
  else if c =? 0 then byte_string "\0"
  else if (32 <=? c) && (c <=? 126) then [c]
  else byte_string "\u{" ++ (if c <? 16 then [hex_digit c] else hex_byte c) ++ byte_string "}".
Definition debug_str (s : str) : Dbg := DbgText ([34] ++ (s ≫= debug_char) ++ [34]).
Definition debug_bool (b : bool) : Dbg := DbgText (byte_string (if b then "true" else "false")).
Definition debug_integer (n : Z) : Dbg := DbgText (decimal n).

Notation field name value := (byte_string name, value) (only parsing).

(** * [runlimit-core] *)

Definition PolicyId_debug (id : PolicyId) : Dbg := DbgTuple (byte_string "PolicyId") [debug_str (PolicyId_as_str id)].
Definition ScopeId_debug (id : ScopeId) : Dbg := DbgTuple (byte_string "ScopeId") [debug_str (ScopeId_as_str id)].
Definition PolicyId_display (id : PolicyId) : str := PolicyId_as_str id.
Definition ScopeId_display (id : ScopeId) : str := ScopeId_as_str id.

(** [FromStr] and [TryFrom]. *)
Definition PolicyId_from_str (value : str) : Result IdentifierError PolicyId := PolicyId_new value.
Definition ScopeId_from_str (value : str) : Result IdentifierError ScopeId := ScopeId_new value.

Definition Capacity_display (c : Capacity) : str := decimal (Capacity_get c).

Definition write_hex (bs : bytes) : str := bs ≫= hex_byte.
Definition PolicyFingerprint_display (f : PolicyFingerprint) : str := write_hex (fingerprint_bytes f).
Definition PolicyFingerprint_debug (f : PolicyFingerprint) : Dbg :=
  DbgText (byte_string "PolicyFingerprint(" ++ write_hex (fingerprint_bytes f) ++ byte_string ")").

Definition SubjectKey_debug (key : SubjectKey) : Dbg := DbgText (byte_string "SubjectKey([REDACTED])").
Definition KeyHasher_debug {M} (hasher : KeyHasher M) : Dbg := DbgText (byte_string "KeyHasher([REDACTED])").

Definition CounterKey_debug (key : CounterKey) : Dbg :=
  DbgStruct (byte_string "CounterKey")
    [field "fingerprint" (PolicyFingerprint_debug (ck_fingerprint key));
     field "subject" (SubjectKey_debug (ck_subject key))] true.

Definition PolicySubject_debug {P} `{RateLimitPolicy P} (self : PolicySubject P) : Dbg :=
  DbgStruct (byte_string "PolicySubject")
    [field "policy_id" (PolicyId_debug (rp_id (ps_policy self)));
     field "scope_id" (ScopeId_debug (rp_scope (ps_policy self)));
     field "subject" (SubjectKey_debug (ps_subject self))] true.

Definition AdmissionPolicy_debug (self : AdmissionPolicy) : Dbg :=
  DbgStruct (byte_string "AdmissionPolicy")
    [field "id" (PolicyId_debug (admp_id self)); field "scope" (ScopeId_debug (admp_scope self))] false.

(** * [runlimit-memory] *)

Definition MemoryStoreConfig_debug (config : MemoryStoreConfig) : Dbg :=
  DbgStruct (byte_string "MemoryStoreConfig")
    [field "max_keys" (debug_integer (Z.of_nat (max_keys config)));
     field "shard_count" (debug_integer (Z.of_nat (shard_count config)));
     field "max_expired_removals_per_check" (debug_integer (Z.of_nat (max_expired_removals_per_check config)));
     field "max_batch_size" (debug_integer (Z.of_nat (max_batch_size config)))] true.

Definition Redacted_debug : Dbg := DbgText (byte_string "[REDACTED]").

Definition MemoryStore_debug (self : MemoryStore.MemoryStore) : Dbg :=
  DbgStruct (byte_string "MemoryStore")
    [field "config" (MemoryStoreConfig_debug (MemoryStore.config self));
     field "has_observer" (debug_bool (MemoryStore.observer self));
     field "poisoned_shards" (debug_integer (Z.of_nat (poisoned_count (MemoryStore.shards self))));
     field "shard_state" Redacted_debug] false.

Definition GcraStore_debug (self : GcraStore.GcraStore) : Dbg :=
  DbgStruct (byte_string "GcraStore")
    [field "config" (MemoryStoreConfig_debug (GcraStore.config self));
     field "has_observer" (debug_bool (GcraStore.observer self));
     field "poisoned_shards" (debug_integer (Z.of_nat (poisoned_count (GcraStore.shards self))));
     field "shard_state" (debug_str (byte_string "[REDACTED]"))] false.

Definition MemoryAttemptReceipt_debug (receipt : AttemptStore.MemoryAttemptReceipt) : Dbg :=
  DbgText (byte_string "MemoryAttemptReceipt([REDACTED])").

(** * [runlimit-postgres] *)

Definition PgAttemptReceipt_debug (receipt : PostgresAttempts.PgAttemptReceipt) : Dbg :=
  DbgText (byte_string "PgAttemptReceipt([REDACTED])").
Definition PgAttemptClaim_debug (claim : PostgresAttempts.PgAttemptClaim) : Dbg :=
  DbgText (byte_string "PgAttemptClaim([REDACTED])").

(** * [runlimit-axum] *)

Definition RejectionKind_debug (kind : RejectionKind) : Dbg :=
  DbgText (byte_string (match kind with Kind_Key => "Key" | Kind_Denied => "Denied" | Kind_Backend => "Backend" end)).

Definition axum_redacted_debug : Dbg := DbgText (byte_string "<redacted>").

Definition RateLimitRejection_debug {KeyError BackendError} (self : RateLimitRejection KeyError BackendError) : Dbg :=
  DbgStruct (byte_string "RateLimitRejection")
    [field "kind" (RejectionKind_debug (kind self)); field "details" axum_redacted_debug] true.

(** [type_name] of the limiter and the wrapped service, and the policy's own
    [Debug], are the application's. *)
Definition RateLimitLayer_debug {W L Env P CheckErr K KeyError Resp} (limiter_type : str) (policy_debug : P -> Dbg)
    (self : RateLimitLayer W L Env P CheckErr K KeyError Resp) : Dbg :=
  DbgStruct (byte_string "RateLimitLayer")
    [field "limiter_type" (debug_str limiter_type); field "limiter" axum_redacted_debug;
     field "policy" (policy_debug (ly_policy self)); field "key_extractor" axum_redacted_debug;
     field "rejection_mapper" axum_redacted_debug] true.

Definition RateLimitService_debug {W L Env P CheckErr K KeyError Resp S} (inner_type limiter_type : str)
    (policy_debug : P -> Dbg) (self : RateLimitService W L Env P CheckErr K KeyError Resp S) : Dbg :=
  DbgStruct (byte_string "RateLimitService")
    [field "inner_type" (debug_str inner_type); field "inner" axum_redacted_debug;
     field "limiter_type" (debug_str limiter_type); field "limiter" axum_redacted_debug;
     field "policy" (policy_debug (sv_policy _ self)); field "key_extractor" axum_redacted_debug;
     field "rejection_mapper" axum_redacted_debug] true.

(** * What is printed *)

(** Identifiers are printed as they are, and read back. *)
Lemma token_char_verbatim c : is_token_char c = true -> debug_char c = [c].
Proof.
  intros Hc. pose proof (is_token_char_ascii c Hc) as Hrange.
  assert (c <> 92) by (by intros ->). assert (c <= 126) by (by destruct (decide (c = 127)) as [->|]; [|lia]).
  unfold debug_char. by repeat (case_match; bool_prop; try lia).
Qed.

Lemma tokens_verbatim s : Forall (fun c => is_token_char c = true) s -> s ≫= debug_char = s.
Proof.
  induction 1 as [|c s Hc Hs IH]; [done|]. cbn in *. by rewrite token_char_verbatim, IH.
Qed.

(** A valid policy identifier is displayed, and shown in [Debug] between
    quotes, exactly as it is, and its display reads back. *)
Theorem policy_id_printed id (Hid : identifier_wf (PolicyId_as_str id)) :
  PolicyId_from_str (PolicyId_display id) = Ok id
  /\ render false (PolicyId_debug id) = byte_string "PolicyId(" ++ [34] ++ PolicyId_as_str id ++ [34] ++ byte_string ")".
Proof.
  split.
  - destruct id as [value]. unfold PolicyId_from_str, PolicyId_display, PolicyId_new. cbn in *.
    by apply validate_ok in Hid as ->.
  - unfold PolicyId_debug, debug_str. cbn. rewrite tokens_verbatim by apply Hid. by rewrite <- app_assoc.
Qed.

(** ** Hexadecimal *)

Definition unhex_digit (c : Z) : option Z :=
  if (48 <=? c) && (c <=? 57) then Some (c - 48)
  else if (97 <=? c) && (c <=? 102) then Some (c - 87) else None.

(** A reader of [write_hex]'s texts. *)
Fixpoint read_hex (s : str) : option bytes :=
  match s with
  | [] => Some []
  | high :: low :: s =>
      high ← unhex_digit high; low ← unhex_digit low; rest ← read_hex s; Some (16 * high + low :: rest)
  | [_] => None
  end.

Lemma unhex_hex n : 0 <= n <= 15 -> unhex_digit (hex_digit n) = Some n.
Proof.
  intros Hn. unfold unhex_digit, hex_digit. destruct (Z.ltb_spec n 10).
  - rewrite !(proj2 (Z.leb_le _ _)) by lia. cbn [andb]. f_equal. lia.
  - rewrite (proj2 (Z.leb_gt (87 + n) 57)) by lia. rewrite andb_false_r.
    rewrite !(proj2 (Z.leb_le _ _)) by lia. cbn [andb]. f_equal. lia.
Qed.

(** Fingerprints are displayed as two lower-case hexadecimal digits a byte,
    which read back: distinct fingerprints have distinct texts. *)
Theorem fingerprint_hex_roundtrip (bs : bytes) (Hbs : Forall is_byte bs) :
  read_hex (write_hex bs) = Some bs /\ length (write_hex bs) = (2 * length bs)%nat
  /\ Forall (fun c => is_digit c || ((97 <=? c) && (c <=? 102)) = true) (write_hex bs).
Proof.
  induction Hbs as [|b bs Hb Hbs (IH & Hlen & Hchars)]; [done|]. unfold is_byte in Hb.
  pose proof (Z.div_mod b 16 ltac:(lia)) as Hdiv. pose proof (Z.mod_pos_bound b 16 ltac:(lia)) as Hmod.
  assert (Hdigit : forall n, 0 <= n <= 15 -> is_digit (hex_digit n) || ((97 <=? hex_digit n) && (hex_digit n <=? 102)) = true).
  { intros n Hn. unfold is_digit, hex_digit. destruct (Z.ltb_spec n 10); apply orb_true_iff; [left|right];
      apply andb_true_iff; split; apply Z.leb_le; lia. }
  unfold write_hex in *. cbn [mbind list_bind hex_byte app]. split_and!.
  - cbn [read_hex]. rewrite !unhex_hex by lia. cbn. rewrite IH. cbn. f_equal. f_equal. lia.
  - cbn [length]. rewrite Hlen. lia.
  - constructor; [apply Hdigit; lia|]. constructor; [apply Hdigit; lia|done].
Qed.

(** ** Redaction *)

(** [Debug] output, plain or alternate, is the same for every subject key,
    hasher, receipt and claim; for counter keys, policy subjects, stores,
    rejections, layers and services it depends only on their public parts:
    fingerprints, identifiers, configurations, the presence of an observer,
    the number of poisoned shards, the kind of rejection, the policy. *)
Theorem debug_redacts (alternate : bool) :
  (forall k k', render alternate (SubjectKey_debug k) = render alternate (SubjectKey_debug k'))
  /\ (forall M (h h' : KeyHasher M), render alternate (KeyHasher_debug h) = render alternate (KeyHasher_debug h'))
  /\ (forall r r', render alternate (MemoryAttemptReceipt_debug r) = render alternate (MemoryAttemptReceipt_debug r'))
  /\ (forall r r', render alternate (PgAttemptReceipt_debug r) = render alternate (PgAttemptReceipt_debug r'))
  /\ (forall c c', render alternate (PgAttemptClaim_debug c) = render alternate (PgAttemptClaim_debug c'))
  /\ (forall f k k', render alternate (CounterKey_debug (mkCounterKey f k))
                     = render alternate (CounterKey_debug (mkCounterKey f k')))
  /\ (forall (p : FixedWindowPolicy) k k', render alternate (PolicySubject_debug (bind k p))
                                           = render alternate (PolicySubject_debug (bind k' p)))
  /\ (forall s s', MemoryStore.config s = MemoryStore.config s' ->
        MemoryStore.observer s = MemoryStore.observer s' ->
        poisoned_count (MemoryStore.shards s) = poisoned_count (MemoryStore.shards s') ->
        render alternate (MemoryStore_debug s) = render alternate (MemoryStore_debug s'))
  /\ (forall s s', GcraStore.config s = GcraStore.config s' ->
        GcraStore.observer s = GcraStore.observer s' ->
        poisoned_count (GcraStore.shards s) = poisoned_count (GcraStore.shards s') ->
        render alternate (GcraStore_debug s) = render alternate (GcraStore_debug s'))
  /\ (forall K B (r r' : RateLimitRejection K B), kind r = kind r' ->
        render alternate (RateLimitRejection_debug r) = render alternate (RateLimitRejection_debug r')).
Proof.
  split_and!; try done.
  - intros s s' Hc Ho Hp. unfold MemoryStore_debug. by rewrite Hc, Ho, Hp.
  - intros s s' Hc Ho Hp. unfold GcraStore_debug. by rewrite Hc, Ho, Hp.
  - intros K B r r' Hk. unfold RateLimitRejection_debug. by rewrite Hk.
Qed.

(** The two formats of a counter key. *)
Example counter_key_text :
  render false (CounterKey_debug (mkCounterKey (from_digest [1; 255]) (mkSubjectKey [7; 8])))
    = byte_string "CounterKey { fingerprint: PolicyFingerprint(01ff), subject: SubjectKey([REDACTED]) }"
  /\ render true (CounterKey_debug (mkCounterKey (from_digest [1; 255]) (mkSubjectKey [7; 8])))
    = byte_string "CounterKey {" ++ [10]
      ++ byte_string "    fingerprint: PolicyFingerprint(01ff)," ++ [10]
      ++ byte_string "    subject: SubjectKey([REDACTED])," ++ [10] ++ byte_string "}"
  /\ render false (AdmissionPolicy_debug (mkAdmissionPolicy (mkPolicyId [97]) (mkScopeId [98]) (from_digest [])))
    = byte_string "AdmissionPolicy { id: PolicyId(" ++ [34; 97; 34] ++ byte_string "), scope: ScopeId("
      ++ [34; 98; 34] ++ byte_string "), .. }".
Proof. by vm_compute. Qed.
