(* ===== verification/PgBounded.v ===== *)
(** Termination of the PostgreSQL backends: whatever the server and the
    network do, each call ends after a fixed number of interactions (the
    readings of the clock among them, and each bounded by the deadline),
    however many checks its batch has and whatever the tables hold. *)

From Stdlib Require Import Ascii String.
From stdpp Require Import prelude list gmap.
From S2P Require Import Prelude RustStd Identifier Policy Decision AttemptPolicy Key Check Observation PgErrors PgConfig PgSession PgTables PgAdmission PgMaintenance PgInvariant PgConnection PgLimiter PgAnyServer PgGcra PgAttempts.
Open Scope Z_scope.
Open Scope list_scope.

#[local] Existing Instance PostgresGcra.gcra_statements.
#[local] Existing Instance PostgresAttempts.attempt_statements.

(** A bind of a part that takes [n]. *)
Ltac take n := apply (takes_bind n); [auto with interactions|intros].
(** A last part that takes fewer interactions than are left. *)
Ltac at_most n := apply (takes_weaken n); [lia|].

(** * Calls *)

Section Calls.
Context {E Db : Type} {Query : Type -> Type} `{SqlxError E} `{Statements Query}.
Notation Step := (Step E Db Query).
Notation Tx := (Tx E Db Query).
Notation PgEnv := (PgEnv E Db Query).
Notation CallEnd := (CallEnd E Db Query).

Definition extend_env (rest : list Step) (env : PgEnv) : PgEnv :=
  mkPgEnv (env_acquired env) (env_connected_at env) (env_schedule env ++ rest) (env_elapsed env).

(** The result of a call, the tables it leaves and what becomes of its
    connection. *)
Definition call_effect_of {R} (db : Db) (e : CallEnd R) : Outcome R * Db * option bool :=
  (ce_result e, ce_db db e, snd <$> ce_session e).

(** A call ends within [n] interactions: [n] of them determine its result,
    the tables it leaves and whether the connection is closed, whatever the
    other side would do after them. *)
Definition ends_within {R} (n : nat) (db : Db) (call : PgEnv -> CallEnd R) : Prop :=
  forall env rest, (n <= length (env_schedule env))%nat ->
  call_effect_of db (call (extend_env rest env)) = call_effect_of db (call env)
  /\ match ce_session (call env) with
     | Some (s, _) => (length (env_schedule env) - length (schedule s) <= n)%nat
     | None => True
     end.

Lemma ends_immediately {R} n db (e : CallEnd R) : ce_session e = None -> ends_within n db (fun _ => e).
Proof. intros He env rest _. by rewrite He. Qed.

Lemma guarded_ends {X D} n db (acquired : PgEnv -> Result X unit) (m : Z -> Tx X (ConnectionOutcome D)) :
  (forall env rest, acquired (extend_env rest env) = acquired env) ->
  (forall deadline, takes n (m deadline)) ->
  forall budget, ends_within n db (fun env =>
    match acquired env with
    | Err e => mkCallEnd (Done (Err e)) None
    | Ok _ => guarded_run (connect db env) (fun s => merged (m (env_connected_at env + budget) s))
    end).
Proof.
  intros Hacq Hm budget env rest Hn. rewrite Hacq. destruct (acquired env) as [u|e]; [|done].
  destruct (Hm (env_connected_at env + budget) (connect db env) Hn) as [Hlen Hext].
  specialize (Hext rest). unfold guarded_run. cbn [env_connected_at extend_env].
  change (connect db (extend_env rest env)) with (extend rest (connect db env)). rewrite Hext.
  destruct (m _ (connect db env)) as [s [[[d|d]|[e|e]]|]]; cbn in *; (split; [done|lia]).
Qed.

Lemma ends_within_map {R S} (f : Outcome R -> Outcome S) n db (call : PgEnv -> CallEnd R) :
  ends_within n db call ->
  ends_within n db (fun env => mkCallEnd (f (ce_result (call env))) (ce_session (call env))).
Proof.
  intros Hcall env rest Hn. destruct (Hcall env rest Hn) as [Heff Hlen]. split; [|done].
  unfold call_effect_of, ce_db in *. cbn in *. by injection Heff as -> -> ->.
Qed.
End Calls.

(** * Fixed windows *)

Section FixedWindow.
Context {E : Type} `{SqlxError E} `{PgIntervals} (sha256 : bytes -> bytes).

Lemma takes_checked_reply {A} (r : Result (CheckError E) A) :
  takes (Db := FixedDb) (Query := FixedQuery E) 0 (checked_reply r).
Proof. apply takes_lift. Qed.
#[local] Hint Resolve takes_checked_reply : interactions.

Lemma takes_execute_batch tx input checks maximum :
  takes (E := E) 9 (execute_batch tx input checks maximum).
Proof.
  apply (takes_bind 3); [apply (takes_bind 3 0); auto with interactions|]. intros capacity.
  apply (takes_bind 3 3); [apply (takes_bind 3 0); auto with interactions|]. intros preflight.
  destruct (first_denial _ _) as [[index denial]|]; [at_most 0%nat; auto with interactions|].
  apply (takes_bind 3 0); [|intros [allowances now]; auto with interactions].
  apply (takes_bind 3 0); auto with interactions.
Qed.

Lemma takes_check_transaction {D} input checks maximum deadline
    (build : Admission -> Result (CheckError E) D) :
  takes 20 (run_check_transaction_inner input checks maximum deadline build).
Proof.
  take 1%nat. apply (takes_bind 3 16); [apply (takes_bind 3 0); auto with interactions|]. intros u.
  apply (takes_bind 3 13); [apply (takes_bind 3 0); auto with interactions|]. intros u'.
  apply (takes_bind 9 4); [apply takes_execute_batch|]. intros [[allowances|index denial] elapsed].
  - take 0%nat. take 0%nat. auto with interactions.
  - take 0%nat. take 0%nat. at_most 1%nat. apply takes_deny.
Qed.

Lemma takes_cleanup maximum_rows deadline :
  takes (E := E) 8 (rows ← run_cleanup_transaction_inner maximum_rows deadline; mret (Reusable rows)).
Proof.
  apply (takes_bind 8 0); [|auto with interactions].
  apply (takes_bind 1 7); [apply takes_wait, one_step_begin|]. intros u.
  take 2%nat. apply (takes_bind 1 4); [apply takes_wait, one_step_send|]. intros result.
  apply (takes_bind 4 0); auto with interactions.
Qed.

Lemma run_checks_ends {D} self db checks (build : Admission -> Result (CheckError E) D) :
  ends_within 20 db (fun env => run_checks sha256 self db env checks build).
Proof.
  unfold run_checks. destruct (from_checks sha256 checks) as [input|]; [|by apply ends_immediately].
  apply (guarded_ends 20 db (fun env => acquire_check_connection (env_acquired env))
    (fun deadline => run_check_transaction_inner input checks (maximum_rows_per_shard (config self))
                       deadline build)); [done|]. intros deadline. apply takes_check_transaction.
Qed.

Lemma fixed_check_ends self db check : ends_within 20 db (fun env => (pg_check sha256 self db env check).1).
Proof. apply run_checks_ends. Qed.

Lemma fixed_check_all_ends self db checks :
  ends_within 20 db (fun env => (pg_check_all sha256 self db env checks).1).
Proof.
  unfold pg_check_all, check_all_unobserved. cbn [fst].
  destruct (validate_batch _ _); [|by apply ends_immediately].
  apply (ends_within_map (fmap (map_err BatchCheckError_Check)) 20 db
    (fun env => run_checks sha256 self db env checks (batch_decision (length checks)))), run_checks_ends.
Qed.

Lemma fixed_cleanup_ends self db maximum_rows :
  ends_within 8 db (fun env => (cleanup_expired (E := E) self db env maximum_rows).1).
Proof.
  unfold cleanup_expired, cleanup_expired_unobserved. cbn [fst].
  destruct (maximum_rows =? 0); [by apply ends_immediately|].
  intros env rest Hn.
  pose proof (guarded_ends 8 db (fun env => acquire_maintenance_connection (env_acquired env))
    (fun deadline => rows ← run_cleanup_transaction_inner maximum_rows deadline; mret (Reusable rows))
    (fun _ _ => eq_refl) (takes_cleanup maximum_rows) (as_nanos (operation_timeout (config self))) env rest Hn) as Hends.
  cbn beta zeta in *.
  destruct (acquire_maintenance_connection _) as [u|e]; [|done].
  unfold guarded_run, run_cleanup_transaction, merged, mbind, Tx_bind, mret, Tx_ret in *.
  revert Hends. destruct (run_cleanup_transaction_inner _ _ (connect db env)) as [s [[rows|o]|]];
    destruct (run_cleanup_transaction_inner _ _ (connect db (extend_env rest env))) as [s' [[rows'|o']|]]; done.
Qed.
End FixedWindow.

(** * GCRA *)

Section Gcra.
Context {E : Type} `{SqlxError E}.

Lemma takes_gcra_transaction {D} checks config deadline (build : Admission -> Result (CheckError E) D) :
  takes 20 (PostgresGcra.run_transaction checks config deadline build).
Proof.
  unfold PostgresGcra.run_transaction. take 1%nat. take 3%nat. take 0%nat. take 3%nat. take 0%nat.
  apply (takes_bind 0 13); [auto with interactions|]. intros [counts now].
  take 0%nat. take 3%nat. apply (takes_bind 0 10); [auto with interactions|].
  intros [allowances|admission].
  - take 0%nat. take 0%nat. take 3%nat. take 0%nat. take 3%nat. auto with interactions.
  - take 0%nat. at_most 1%nat. apply takes_deny.
Qed.

Lemma takes_gcra_cleanup maximum deadline :
  takes (E := E) 14 (rows ← PostgresGcra.cleanup_transaction maximum deadline; mret (Reusable rows)).
Proof.
  apply (takes_bind 14 0); [|auto with interactions]. unfold PostgresGcra.cleanup_transaction.
  apply (takes_bind 1 13); [apply takes_wait, one_step_begin|]. intros u. take 2%nat.
  apply (takes_bind 1 10); [apply takes_wait, one_step_send|]. intros locked. take 0%nat. take 2%nat.
  apply (takes_bind 1 7); [apply takes_wait, one_step_send|]. intros r. take 2%nat.
  apply (takes_bind 1 4); [apply takes_wait, one_step_send|]. intros deleted.
  apply (takes_bind 4 0); auto with interactions.
Qed.

Lemma gcra_run_ends {D} self db checks (build : Admission -> Result (CheckError E) D) :
  ends_within 20 db (fun env => PostgresGcra.run self db env checks build).
Proof.
  apply (guarded_ends 20 db (fun env => acquire_check_connection (env_acquired env))
    (fun deadline => PostgresGcra.run_transaction checks (PostgresGcra.config self) deadline build)); [done|].
  intros deadline. apply takes_gcra_transaction.
Qed.

Lemma gcra_check_all_ends self db checks :
  ends_within 20 db (fun env => (PostgresGcra.check_all (E := E) self db env checks).1).
Proof.
  unfold PostgresGcra.check_all. cbn [fst]. destruct (validate_batch _ _); [|by apply ends_immediately].
  apply (ends_within_map (fmap (map_err BatchCheckError_Check)) 20 db
    (fun env => PostgresGcra.run self db env checks (batch_decision (length checks)))), gcra_run_ends.
Qed.

Lemma gcra_cleanup_ends self db maximum_rows :
  ends_within 14 db (fun env => (PostgresGcra.cleanup_expired (E := E) self db env maximum_rows).1).
Proof.
  unfold PostgresGcra.cleanup_expired, PostgresGcra.cleanup. cbn [fst].
  destruct (maximum_rows =? 0); [by apply ends_immediately|].
  apply (guarded_ends 14 db (fun env => acquire_maintenance_connection (env_acquired env))
    (fun deadline => rows ← PostgresGcra.cleanup_transaction maximum_rows deadline; mret (Reusable rows)));
    [done|]. intros deadline. apply takes_gcra_cleanup.
Qed.
End Gcra.

(** * Attempts *)

Section Attempts.
Context {E : Type} `{SqlxError E}.

Lemma takes_capacity_denial tx : takes (E := E) 4 (PostgresAttempts.finish_capacity_denial tx).
Proof.
  intros s Hs. unfold PostgresAttempts.finish_capacity_denial.
  destruct (takes_commit tx s Hs) as [Hlen Hext]. destruct (commit tx s) as [s1 [[u|o]|]]; cbn [fst snd] in *;
    (split; [done|]); intros rest; by rewrite Hext.
Qed.

Lemma takes_reconcile_failures policy now failures last_failure retry :
  takes (E := E) 0 (PostgresAttempts.reconcile_failures policy now failures last_failure retry).
Proof.
  unfold PostgresAttempts.reconcile_failures. take 0%nat.
  destruct (if _ : bool then _ else _) as [f r]. destruct (now <? r); auto with interactions.
Qed.

Lemma takes_reconcile_row policy now row :
  takes (E := E) 0 (PostgresAttempts.reconcile_row policy now row).
Proof.
  unfold PostgresAttempts.reconcile_row. do 5 take 0%nat.
  match goal with |- takes _ (match ?lease with _ => _ end) => destruct lease as [until|] end;
    [|apply takes_reconcile_failures].
  destruct (now <? until); [auto with interactions|]. take 0%nat. apply takes_reconcile_failures.
Qed.

Lemma takes_grant tx policy subject token_row :
  takes (E := E) 4 (PostgresAttempts.grant tx policy subject token_row).
Proof. unfold PostgresAttempts.grant. take 0%nat. auto with interactions. Qed.

Lemma takes_reserve_slot tx policy fingerprint subject shard maximum now :
  takes (E := E) 13 (PostgresAttempts.reserve_slot tx policy fingerprint subject shard maximum now).
Proof.
  unfold PostgresAttempts.reserve_slot. take 3%nat. take 0%nat.
  destruct (maximum <=? _); [at_most 4%nat; apply takes_capacity_denial|].
  take 3%nat. take 0%nat.
  match goal with |- takes _ (match ?slot with _ => _ end) => destruct slot as [slot|] end;
    [|at_most 4%nat; apply takes_capacity_denial].
  take 0%nat. take 0%nat. take 3%nat. apply takes_grant.
Qed.

Lemma takes_admit subject maximum deadline :
  takes (E := E) 26 (PostgresAttempts.admit_transaction subject maximum deadline).
Proof.
  unfold PostgresAttempts.admit_transaction. take 1%nat. take 3%nat. take 3%nat. take 3%nat. take 3%nat.
  take 0%nat. apply (takes_bind 0 13).
  { destruct (head _); [apply takes_reconcile_row|auto with interactions]. }
  intros [denial|[failures last_failure]]; [at_most 1%nat; apply takes_deny|].
  destruct (head _); [|apply takes_reserve_slot].
  take 0%nat. at_most 7%nat. take 3%nat. apply takes_grant.
Qed.

Lemma takes_complete receipt outcome deadline :
  takes (E := E) 8 (PostgresAttempts.complete_transaction receipt outcome deadline).
Proof.
  unfold PostgresAttempts.complete_transaction. take 1%nat. take 0%nat. take 3%nat. take 0%nat.
  auto with interactions.
Qed.

Lemma admit_ends self db subject :
  ends_within 26 db (fun env => (PostgresAttempts.admit_attempt (E := E) self db env subject).1).
Proof.
  intros env rest Hn.
  pose proof (guarded_ends 26 db (fun env => acquire_check_connection (env_acquired env))
    (PostgresAttempts.admit_transaction subject (maximum_rows_per_shard (PostgresAttempts.config self)))
    (fun _ _ => eq_refl) (takes_admit subject _)
    (as_nanos (operation_timeout (PostgresAttempts.config self))) env rest Hn) as Hends.
  unfold PostgresAttempts.admit_attempt. cbn [env_acquired extend_env] in *.
  by destruct (acquire_check_connection (env_acquired env)).
Qed.

Lemma complete_ends self db receipt outcome :
  ends_within 8 db (fun env => (PostgresAttempts.complete (E := E) self db env receipt outcome).1).
Proof.
  intros env rest Hn.
  pose proof (guarded_ends 8 db (fun env => acquire_check_connection (env_acquired env))
    (PostgresAttempts.complete_transaction receipt outcome) (fun _ _ => eq_refl)
    (takes_complete receipt outcome)
    (as_nanos (operation_timeout (PostgresAttempts.config self))) env rest Hn) as Hends.
  unfold PostgresAttempts.complete. cbn [env_acquired extend_env] in *.
  by destruct (acquire_check_connection (env_acquired env)).
Qed.
End Attempts.

(** C22. Every call of the PostgreSQL backends ends: whatever the server and
    the network do, however large the batch and whatever the tables hold, a
    check or a batch of the fixed-window or the GCRA limiter ends within 20
    interactions with the clock and the server, an attempt's admission
    within 26, its completion within 8, a cleanup within 8 (fixed window) or
    14 (GCRA).  These interactions determine its result, the tables it
    leaves and whether its connection is closed. *)
Theorem pg_calls_end {E} `{SqlxError E} `{PgIntervals} (sha256 : bytes -> bytes) :
  (forall self db check, ends_within 20 db (fun env => (pg_check (E := E) sha256 self db env check).1))
  /\ (forall self db checks,
        ends_within 20 db (fun env => (pg_check_all (E := E) sha256 self db env checks).1))
  /\ (forall self db n, ends_within 8 db (fun env => (cleanup_expired (E := E) self db env n).1))
  /\ (forall self db check,
        ends_within 20 db (fun env => (PostgresGcra.check (E := E) self db env check).1))
  /\ (forall self db checks,
        ends_within 20 db (fun env => (PostgresGcra.check_all (E := E) self db env checks).1))
  /\ (forall self db n,
        ends_within 14 db (fun env => (PostgresGcra.cleanup_expired (E := E) self db env n).1))
  /\ (forall self db subject,
        ends_within 26 db (fun env => (PostgresAttempts.admit_attempt (E := E) self db env subject).1))
  /\ (forall self db receipt outcome,
        ends_within 8 db (fun env => (PostgresAttempts.complete (E := E) self db env receipt outcome).1)).
Proof.
  split_and!; intros.
  - apply fixed_check_ends.
  - apply fixed_check_all_ends.
  - apply fixed_cleanup_ends.
  - apply gcra_run_ends.
  - apply gcra_check_all_ends.
  - apply gcra_cleanup_ends.
  - apply admit_ends.
  - apply complete_ends.
Qed.
