(* ===== verification/PgMigrate.v ===== *)
(** The [migrate] operations of the three PostgreSQL limiters ([lib.rs],
    [gcra.rs] and [attempts.rs] of [runlimit-postgres]): what becomes of the
    connection that ran the migrations, whose locks are the session's.  The
    migrator is the [sqlx] crate's, a parameter. *)

From Stdlib Require Import Ascii String.
From stdpp Require Import prelude list gmap.
From S2P Require Import Prelude RustStd Identifier Policy Decision AttemptPolicy Key Check Observation PgErrors.
Open Scope Z_scope.
Open Scope list_scope.

(** What the limiters use of [sqlx::migrate]: [run_direct] and [run] on a
    connection, which may never end ([None]), and the error that a failed
    acquisition is converted to. *)
Class SqlxMigrate (E MigrateError Migrator Connection : Type) := {
  set_ignore_missing : Migrator -> bool -> Migrator;
  run_direct : Migrator -> Connection -> Connection * option (Result MigrateError unit);
  migrator_run : Migrator -> Connection -> Connection * option (Result MigrateError unit);
  acquisition_failed : E -> MigrateError;
}.

(** How a migration ends, or is dropped: its result, and its connection with
    whether that is closed. *)
Record MigrateEnd (MigrateError Connection : Type) := mkMigrateEnd {
  mg_result : option (Result MigrateError unit);
  mg_connection : option (Connection * bool);
}.
Arguments mkMigrateEnd {MigrateError Connection} _ _.
Arguments mg_result {MigrateError Connection} _.
Arguments mg_connection {MigrateError Connection} _.

Section Migrate.
Context {E MigrateError Migrator Connection : Type} `{SqlxMigrate E MigrateError Migrator Connection}.
Notation MigrateEnd := (MigrateEnd MigrateError Connection).

(** A guarded run: the guard is disarmed by success only, and dropped with
    the future when that never ends. *)
Definition guarded_migration (bundled : Migrator) (acquired : option (Result E Connection)) : MigrateEnd :=
  match acquired with
  | None => mkMigrateEnd None None
  | Some (Err error) => mkMigrateEnd (Some (Err (acquisition_failed error))) None
  | Some (Ok connection) =>
      let guarded_connection := guard_new in
      let migrator := set_ignore_missing bundled true in
      match run_direct migrator connection with
      | (connection, None) => mkMigrateEnd None (Some (connection, guard_drop guarded_connection))
      | (connection, Some result) =>
          let guarded_connection :=
            match result with Ok _ => guard_reuse guarded_connection | Err _ => guarded_connection end in
          mkMigrateEnd (Some result) (Some (connection, guard_drop guarded_connection))
      end
  end.

(** [PostgresLimiter::migrate] and [PostgresGcraLimiter::migrate], of their
    bundled migrators. *)
Definition fixed_migrate (migrations : Migrator) := guarded_migration migrations.
Definition gcra_migrate (gcra_migrations : Migrator) := guarded_migration gcra_migrations.

(** [PostgresAttemptLimiter::migrate], whose connection is always closed. *)
Definition attempts_migrate (attempts_migrator : Migrator) (acquired : option (Result E Connection)) : MigrateEnd :=
  match acquired with
  | None => mkMigrateEnd None None
  | Some (Err error) => mkMigrateEnd (Some (Err (acquisition_failed error))) None
  | Some (Ok connection) =>
      let '(connection, result) := migrator_run (set_ignore_missing attempts_migrator true) connection in
      mkMigrateEnd result (Some (connection, true))
  end.

(** A connection goes back to its pool only after a successful run; so, if
    the migrator unlocks the session whenever it succeeds, no error and no
    cancellation leaks a migration lock to the pool. *)
Theorem migrate_leaks_no_lock (locked : Connection -> bool)
    (Hunlocks : forall m c c', run_direct m c = (c', Some (Ok tt)) -> locked c' = false)
    (migrations : Migrator) (acquired : option (Result E Connection)) :
  forall e, e ∈ [fixed_migrate migrations acquired; gcra_migrate migrations acquired;
                 attempts_migrate migrations acquired] ->
  match mg_connection e with
  | Some (connection, false) => mg_result e = Some (Ok tt) /\ locked connection = false
  | _ => True
  end.
Proof.
  assert (Hguarded : match mg_connection (guarded_migration migrations acquired) with
    | Some (connection, false) => mg_result (guarded_migration migrations acquired) = Some (Ok tt)
        /\ locked connection = false
    | _ => True
    end).
  { unfold guarded_migration. destruct acquired as [[connection|error]|]; [|done..].
    destruct (run_direct _ _) as [c' [[[]|e]|]] eqn:Hrun; cbn; [|done..]. split; [done|]. by eapply Hunlocks. }
  intros e He. repeat (apply elem_of_cons in He as [->|He]); [exact Hguarded|exact Hguarded| |by apply elem_of_nil in He].
  unfold attempts_migrate. destruct acquired as [[connection|error]|]; [|done..].
  by destruct (migrator_run _ _).
Qed.
End Migrate.
