(* ===== verification/PgCancel.v ===== *)
(** Cancellation of calls to the PostgreSQL backends ([lib.rs], [Drop] for
    [ConnectionCancellationGuard]): a future dropped while it waits for any
    one reply has either left the committed tables alone or was waiting for
    a commit that took effect, and then they are what the completed call
    leaves. *)

From Stdlib Require Import Ascii String.
From stdpp Require Import prelude list gmap.
From S2P Require Import Prelude RustStd Identifier Policy Decision AttemptPolicy Key Check Observation PgErrors PgConfig PgSession PgTables PgAdmission PgMaintenance PgInvariant PgConnection PgLimiter PgSpec PgHonest PgServed PgAnyServer PgRefine PgEffect PgGcra PgAttempts.
Open Scope Z_scope.
Open Scope list_scope.

#[local] Existing Instance PostgresGcra.gcra_statements.
#[local] Existing Instance PostgresAttempts.attempt_statements.

Section Cancellation.
Context {E Db : Type} {Query : Type -> Type} `{SqlxError E} `{Statements Query}.
Notation Session := (Session E Db Query).
Notation Step := (Step E Db Query).
Notation Tx := (Tx E Db Query).
Notation PgEnv := (PgEnv E Db Query).
Notation CallEnd := (CallEnd E Db Query).

(** * Dropped futures *)

(** The interaction a dropped future was waiting for: no reply reaches it;
    a commit may have taken effect. *)
Definition unanswered (applied : bool) : Step := mkStep 0 None None applied.

(** The same interaction, had the future waited for an acknowledgement. *)
Definition answered : Step := mkStep 0 None (Some (Ok tt)) true.

(** The first [n] interactions of a call, then [last] and nothing more. *)
Definition interrupted (n : nat) (last : Step) (env : PgEnv) : PgEnv :=
  mkPgEnv (env_acquired env) (env_connected_at env) (take n (env_schedule env) ++ [last]) (env_elapsed env).

(** What a call dropped after [n] interactions leaves: the server's side of
    its session, and whether dropping the guard closed its connection. *)
Definition drop_after {R} (call : PgEnv -> CallEnd R) (n : nat) (applied : bool) (env : PgEnv)
    : option (Session * bool) :=
  (fun p => (p.1, guard_drop guard_new)) <$> ce_session (call (interrupted n (unanswered applied) env)).

(** A call dropped while pending closes its connection, and has no effect or
    that of the call that completes. *)
Definition cancels_atomically {X D} (db : Db) (call : PgEnv -> CallEnd (Result X D)) : Prop :=
  forall n applied env s closed,
  drop_after call n applied env = Some (s, closed) -> schedule s = [] ->
  closed = true
  /\ (committed s = db
      \/ exists d, ce_result (call (interrupted n answered env)) = Done (Ok d)
         /\ published_tables (call (interrupted n answered env))
         /\ committed s = ce_db db (call (interrupted n answered env))).

(** * Transactions *)

Definition with_schedule (steps : list Step) (s : Session) : Session :=
  mkSession (committed s) (working s) steps (busy s).

(** [m] never changes the committed tables; it consumes a prefix of its
    schedule, which, unless it exhausts the schedule, determines what it
    does. *)
Definition silent {X A} (m : Tx X A) : Prop :=
  forall s, committed (m s).1 = committed s
  /\ exists used, schedule s = used ++ schedule (m s).1
     /\ (schedule (m s).1 = []
         \/ forall rest, m (with_schedule (used ++ rest) s) = (with_schedule rest (m s).1, (m s).2)).

(** A transaction dropped while pending has no effect, or that of its
    acknowledged commit. *)
Definition atomic {X D} (m : Tx X (ConnectionOutcome D)) : Prop :=
  (forall s, schedule s = [] -> committed (m s).1 = committed s /\ schedule (m s).1 = [])
  /\ forall s steps applied,
     schedule s = steps ++ [unanswered applied] -> schedule (m s).1 = [] ->
     committed (m s).1 = committed s
     \/ exists s' d, m (with_schedule (steps ++ [answered]) s) = (s', Done (Ok (Reusable d)))
        /\ committed s' = working s' /\ committed (m s).1 = committed s'.

Section Rules.
Context {X : Type}.

Lemma with_schedule_id s : with_schedule (schedule s) s = s.
Proof. by destruct s. Qed.

Lemma silent_pure {A} (r : Outcome (Result (ConnectionOutcome X) A)) : silent (fun s => (s, r)).
Proof. intros s. split; [done|]. exists []. split; [done|]. right. by intros rest. Qed.

Lemma silent_ret {A} (a : A) : silent (X := X) (mret a).
Proof. apply silent_pure. Qed.

Lemma silent_fail {A} (e : ConnectionOutcome X) : silent (A := A) (fail e).
Proof. apply silent_pure. Qed.

Lemma silent_lift {A} (r : Result (ConnectionOutcome X) A) : silent (lift r).
Proof. apply silent_pure. Qed.

Lemma silent_expect {A} (r : Outcome A) : silent (X := X) (expect_tx r).
Proof. apply silent_pure. Qed.

(** An exhausted schedule stays exhausted. *)
Lemma silent_exhausted {A} (m : Tx X A) s :
  silent m -> schedule s = [] -> schedule (m s).1 = [].
Proof.
  intros Hm Hs. destruct (Hm s) as (_ & used & Hused & _). rewrite Hs in Hused.
  by symmetry in Hused; apply app_nil in Hused as [_ ?].
Qed.

Lemma silent_bind {A B} (m : Tx X A) (f : A -> Tx X B) :
  silent m -> (forall a, silent (f a)) -> silent (m ≫= f).
Proof.
  intros Hm Hf s. unfold mbind, Tx_bind. destruct (Hm s) as (Hc & used & Hu & Hdet).
  destruct (m s) as [s1 [[a|e]|]] eqn:Hms; cbn [fst snd] in *.
  2,3: split; [done|]; exists used; split; [done|];
    destruct Hdet as [Hnil|Hdet]; [by left|right]; intros rest; by rewrite Hdet.
  destruct (Hf a s1) as (Hc' & used' & Hu' & Hdet'). split; [congruence|].
  exists (used ++ used'). split; [by rewrite Hu, Hu', app_assoc|].
  destruct Hdet as [Hnil|Hdet]; [left; by apply silent_exhausted|].
  destruct Hdet' as [Hnil|Hdet']; [by left|right]. intros rest.
  rewrite <- app_assoc, Hdet. apply Hdet'.
Qed.

Lemma next_step_silent s :
  committed (next_step s).2 = committed s
  /\ exists used, schedule s = used ++ schedule (next_step s).2
     /\ (schedule (next_step s).2 = []
         \/ forall rest, next_step (with_schedule (used ++ rest) s)
                         = ((next_step s).1, with_schedule rest (next_step s).2)).
Proof.
  unfold next_step. destruct (schedule s) as [|step steps] eqn:Hs; cbn.
  - split; [done|]. exists []. rewrite Hs. split; [done|by left].
  - split; [done|]. exists [step]. split; [done|right]. by intros rest.
Qed.

Lemma silent_clock : silent (X := X) read_clock.
Proof.
  intros s. unfold read_clock. destruct (next_step_silent s) as (Hc & used & Hu & Hdet).
  destruct (next_step s) as [step s1]. cbn [fst snd] in *. split; [done|].
  exists used. split; [done|]. destruct Hdet as [Hnil|Hdet]; [by left|right].
  intros rest. by rewrite Hdet.
Qed.

(** What the other side does with one step: it does not look at the
    schedule, nor touch the committed tables. *)
Definition unnoticed {A} (ans : Step -> Session -> Session * option (Result E A)) : Prop :=
  forall step s, committed (ans step s).1 = committed s
  /\ schedule (ans step s).1 = schedule s
  /\ forall rest, ans step (with_schedule rest s) = (with_schedule rest (ans step s).1, (ans step s).2).

Lemma silent_wait {A} (elapsed : X) database
    (ans : Step -> Session -> Session * option (Result E A)) :
  unnoticed ans -> silent (before_commit elapsed database (interact ans)).
Proof.
  intros Ha s. unfold before_commit, interact.
  destruct (next_step_silent s) as (Hc & used & Hu & Hdet).
  destruct (next_step s) as [step s1]. cbn [fst snd] in *.
  destruct (Ha step s1) as (Hc1 & Hs1 & Hext). destruct (ans step s1) as [s2 reply]. cbn [fst snd] in *.
  assert (forall P : Session -> Prop, P s2 -> P (mkSession (committed s2) (working s2) (schedule s2) true) ->
    P match reply with Some _ => s2 | None => mkSession (committed s2) (working s2) (schedule s2) true end)
    as Hboth by (by destruct reply).
  split; [destruct reply as [[]|]; cbn; congruence|]. exists used.
  split; [destruct reply as [[]|]; cbn; by rewrite Hs1|].
  destruct Hdet as [Hnil|Hdet]; [left; destruct reply as [[]|]; cbn; by rewrite Hs1|right].
  intros rest. rewrite Hdet, Hext. by destruct reply as [[]|].
Qed.

Lemma unnoticed_send {A} (q : Query A) : unnoticed (send q).
Proof.
  intros step s. unfold send. destruct (step_reply step) as [reply|]; [|done]. cbn.
  by destruct (reply A q (working s)).
Qed.

Lemma unnoticed_send_one {A} (q : Query A) : unnoticed (send_one q).
Proof.
  intros step s. unfold send_one. destruct (unnoticed_send q step s) as (Hc & Hs & Hext).
  destruct (send q step s) as [s1 reply]. cbn [fst snd] in *. split_and!; [done..|].
  intros rest. by rewrite Hext.
Qed.

Lemma unnoticed_begin : unnoticed send_begin.
Proof. done. Qed.

(** ** Transactions that end *)

Lemma atomic_bind {A D} (m : Tx X A) (f : A -> Tx X (ConnectionOutcome D)) :
  silent m -> (forall a, atomic (f a)) -> atomic (m ≫= f).
Proof.
  intros Hm Hf. split.
  - intros s Hs. unfold mbind, Tx_bind. destruct (Hm s) as (Hc & _).
    pose proof (silent_exhausted m s Hm Hs) as Hnil.
    destruct (m s) as [s1 [[a|e]|]]; cbn [fst] in *; [|done..].
    destruct (Hf a) as [Hend _]. destruct (Hend s1 Hnil). by split; [congruence|].
  - intros s steps applied Hs. unfold mbind, Tx_bind.
    destruct (Hm s) as (Hc & used & Hu & Hdet).
    destruct (m s) as [s1 [[a|e]|]]; cbn [fst snd] in *; [|by left..].
    destruct (Hf a) as [Hend Hatomic]. intros Hnil.
    destruct Hdet as [Hnil1|Hdet].
    { left. destruct (Hend s1 Hnil1). congruence. }
    destruct (decide (schedule s1 = [])) as [Hs1|Hmore].
    { left. destruct (Hend s1 Hs1). congruence. }
    destruct (exists_last Hmore) as (rest0 & step & Hs1).
    rewrite Hu, Hs1, app_assoc in Hs. apply app_inj_tail in Hs as [<- ->].
    rewrite <- app_assoc, Hdet, <- Hc. cbn [fst snd].
    destruct (Hatomic s1 rest0 applied Hs1 Hnil) as [?|(s' & d & ? & ? & ?)]; [by left|right].
    by exists s', d.
Qed.

Lemma atomic_fail {D} (e : ConnectionOutcome X) : atomic (D := D) (fail e).
Proof. split; [done|]. intros s steps applied Hs Hnil. cbn in Hnil. by rewrite Hnil in Hs; destruct steps. Qed.

Lemma atomic_ret {D} (d : ConnectionOutcome D) : atomic (X := X) (mret d).
Proof. split; [done|]. intros s steps applied Hs Hnil. cbn in Hnil. by rewrite Hnil in Hs; destruct steps. Qed.

Lemma atomic_deny {D} (d : D) : atomic (X := X) (deny d).
Proof.
  unfold deny, finish_denied_transaction, interact, send_rollback. split.
  - intros s Hs. unfold next_step. rewrite Hs. cbn. by split.
  - intros s steps applied Hs _. left. unfold next_step.
    destruct (schedule s); cbn; by repeat case_match; simplify_eq/=.
Qed.

(** The commit itself. *)
Lemma atomic_commit {D} (d : D) elapsed database :
  atomic (X := X) (_ ← before_commit elapsed database (interact send_commit); mret (Reusable d)).
Proof.
  unfold mbind, Tx_bind, mret, Tx_ret, before_commit, interact, send_commit. split.
  - intros s Hs. unfold next_step. rewrite Hs. cbn. by split.
  - intros s steps applied Hs Hnil.
    destruct steps as [|step steps].
    + unfold next_step in *. rewrite Hs. cbn. destruct applied; [right|by left].
      eexists _, _. split; [done|]. by cbn.
    + unfold next_step in Hnil. rewrite Hs in Hnil. cbn in Hnil.
      destruct (step_command step) as [[]|]; cbn in Hnil; by destruct steps.
Qed.

(** Deferred binds: a transaction that continues one step at a time. *)
Lemma atomic_assoc {A B C} (m : Tx X A) (f : A -> Tx X B) (g : B -> Tx X (ConnectionOutcome C)) :
  atomic (m ≫= (fun a => f a ≫= g)) -> atomic ((m ≫= f) ≫= g).
Proof.
  assert (Heq : forall s, (m ≫= (fun a => f a ≫= g)) s = ((m ≫= f) ≫= g) s).
  { intros s. unfold mbind, Tx_bind. by destruct (m s) as [s1 [[a|o]|]]. }
  intros [Hend Hm]. split.
  - intros s. rewrite <- Heq. apply Hend.
  - intros s steps applied. rewrite <- !Heq. apply Hm.
Qed.
End Rules.
End Cancellation.

Create HintDb silence discriminated.
#[export] Hint Resolve silent_ret silent_fail silent_lift silent_expect silent_clock silent_bind silent_wait
  unnoticed_send unnoticed_send_one unnoticed_begin atomic_fail atomic_ret atomic_deny : silence.

(** One more part of a transaction that does not end it. *)
Ltac silently := apply atomic_bind; [solve [auto with silence]|intros ?].

Section Statements.
Context {E Db : Type} {Query : Type -> Type} `{SqlxError E} `{Statements Query}.

Lemma silent_begin deadline : silent (E := E) (Db := Db) (Query := Query) (begin_ deadline).
Proof. apply silent_bind; [apply silent_wait|intros u]; auto with silence. Qed.

Lemma silent_prepare tx phase : silent (E := E) (Db := Db) (prepare tx phase).
Proof.
  apply silent_bind; [auto with silence|]. intros now.
  destruct (remaining_server_timeout_settings _ _) as [[st lk]|]; [|auto with silence].
  apply silent_bind; [apply silent_wait|intros r]; auto with silence.
Qed.

Lemma silent_execute {A} tx phase (q : Query A) : silent (E := E) (Db := Db) (execute tx phase q).
Proof.
  apply silent_bind; [apply silent_prepare|]. intros u.
  apply silent_bind; [apply silent_wait|intros r]; auto with silence.
Qed.

Lemma silent_fetch_all {A} tx phase (q : Query A) : silent (E := E) (Db := Db) (fetch_all tx phase q).
Proof.
  apply silent_bind; [apply silent_prepare|]. intros u.
  apply silent_bind; [apply silent_wait|intros r]; auto with silence.
Qed.

Lemma silent_fetch_one {A} tx phase (q : Query A) : silent (E := E) (Db := Db) (fetch_one tx phase q).
Proof.
  apply silent_bind; [apply silent_prepare|]. intros u. apply silent_wait, unnoticed_send_one.
Qed.

Lemma silent_maintenance_timeouts deadline phase :
  silent (E := E) (Db := Db) (set_maintenance_server_timeouts deadline phase).
Proof.
  apply silent_bind; [auto with silence|]. intros now.
  destruct (remaining_server_timeout_settings _ _) as [[st lk]|]; [|auto with silence].
  apply silent_bind; [apply silent_wait|intros r]; auto with silence.
Qed.

(** The commits of the backends. *)
Lemma atomic_publish {D} tx (d : D) :
  atomic (E := E) (Db := Db) (_ ← commit tx; mret (Reusable d)).
Proof.
  apply atomic_assoc, atomic_bind; [apply silent_prepare|]. intros u.
  apply atomic_assoc, atomic_bind; [auto with silence|]. intros now.
  destruct (deadline tx <=? now); [apply (atomic_fail (D := D))|apply atomic_commit].
Qed.

Lemma atomic_publish_maintenance {D} deadline (d : D) :
  atomic (E := E) (Db := Db) (_ ← commit_maintenance deadline; mret (Reusable d)).
Proof.
  apply atomic_assoc, atomic_bind; [auto with silence|]. intros now.
  destruct (deadline <=? now); [apply (atomic_fail (D := D))|].
  apply atomic_assoc, atomic_bind; [apply silent_maintenance_timeouts|]. intros u. apply atomic_commit.
Qed.

(** ** Calls *)

(** A call around an atomic transaction. *)
Lemma guarded_cancels {X D} db (acquired : option (Result E unit) -> Result X unit)
    (m : Z -> Tx E Db Query X (ConnectionOutcome D)) :
  (forall deadline, atomic (m deadline)) ->
  forall budget, cancels_atomically db (fun env =>
    match acquired (env_acquired env) with
    | Err e => mkCallEnd (Done (Err e)) None
    | Ok _ => guarded_run (connect db env) (fun s => merged (m (env_connected_at env + budget) s))
    end).
Proof.
  intros Hm budget n applied env s closed. unfold drop_after. cbn [interrupted env_acquired env_connected_at].
  destruct (acquired (env_acquired env)) as [u|e]; [|done].
  destruct (Hm (env_connected_at env + budget)) as [_ Hatomic].
  specialize (Hatomic (connect db (interrupted n (unanswered applied) env)) _ applied eq_refl).
  change (with_schedule (take n (env_schedule env) ++ [answered])
    (connect db (interrupted n (unanswered applied) env)))
    with (connect db (interrupted n answered env)) in Hatomic.
  intros Hdrop Hnil.
  assert (closed = true /\ s = (m (env_connected_at env + budget) (connect db (interrupted n (unanswered applied) env))).1)
    as [-> Hs].
  { unfold guarded_run in Hdrop. destruct (m _ _) as [s1 [[[d|d]|[e|e]]|]]; cbn in Hdrop; by simplify_eq. }
  split; [done|]. rewrite <- Hs in Hatomic.
  destruct (Hatomic Hnil) as [Hc|(s' & d & Hrun & Hpub & Hc)]; [by left|right].
  exists d. unfold guarded_run. rewrite Hrun. cbn. split_and!; [done| |done]. by exists s', false.
Qed.

(** A call's result may be wrapped. *)
Lemma cancels_map {X Y D D'} db (f : Outcome (Result X D) -> Outcome (Result Y D'))
    (call : PgEnv E Db Query -> CallEnd E Db Query (Result X D)) :
  (forall d, exists d', f (Done (Ok d)) = Done (Ok d')) ->
  cancels_atomically db call ->
  cancels_atomically db (fun env => mkCallEnd (f (ce_result (call env))) (ce_session (call env))).
Proof.
  intros Hf Hcall n applied env s closed Hdrop Hnil.
  destruct (Hcall n applied env s closed Hdrop Hnil) as [Hclosed Hend]. split; [done|].
  destruct Hend as [?|(d & Hr & Hpub & Hc)]; [by left|right].
  destruct (Hf d) as [d' Hd]. exists d'. cbn. by rewrite Hr.
Qed.

Lemma cancels_immediately {X D} db (e : CallEnd E Db Query (Result X D)) :
  ce_session e = None -> cancels_atomically db (fun _ => e).
Proof. intros He n applied env s closed. unfold drop_after. by rewrite He. Qed.
End Statements.

#[export] Hint Resolve silent_begin silent_execute silent_fetch_all silent_fetch_one
  silent_maintenance_timeouts atomic_publish atomic_publish_maintenance : silence.

(** * Fixed windows *)

Section FixedWindow.
Context {E : Type} `{SqlxError E} `{PgIntervals} (sha256 : bytes -> bytes).

Lemma silent_checked_reply {A} (r : Result (CheckError E) A) :
  silent (Db := FixedDb) (Query := FixedQuery E) (checked_reply r).
Proof. apply silent_lift. Qed.
#[local] Hint Resolve silent_checked_reply : silence.

Lemma silent_execute_batch tx input checks maximum : silent (E := E) (execute_batch tx input checks maximum).
Proof.
  apply silent_bind; [apply silent_bind; auto with silence|]. intros capacity.
  apply silent_bind; [apply silent_bind; auto with silence|]. intros preflight.
  destruct (first_denial _ _) as [[index denial]|]; [auto with silence|].
  apply silent_bind; [apply silent_bind; auto with silence|]. intros [allowances now]. auto with silence.
Qed.
#[local] Hint Resolve silent_execute_batch : silence.

Lemma atomic_check_transaction {D} input checks maximum deadline
    (build : Admission -> Result (CheckError E) D) :
  atomic (run_check_transaction_inner input checks maximum deadline build).
Proof.
  silently. apply atomic_bind; [apply silent_bind; auto with silence|]. intros u.
  apply atomic_bind; [apply silent_bind; auto with silence|]. intros u'.
  apply atomic_bind; [auto with silence|]. intros [[allowances|index denial] elapsed].
  - silently. silently. auto with silence.
  - silently. silently. apply atomic_deny.
Qed.

Lemma atomic_cleanup maximum_rows deadline :
  atomic (E := E) (rows ← run_cleanup_transaction_inner maximum_rows deadline; mret (Reusable rows)).
Proof.
  apply atomic_assoc, atomic_bind; [apply silent_wait, unnoticed_begin|]. intros u.
  apply atomic_assoc. silently.
  apply atomic_assoc, atomic_bind; [apply silent_wait, unnoticed_send|]. intros result.
  apply atomic_assoc, atomic_publish_maintenance.
Qed.

Lemma run_checks_cancels {D} self db checks (build : Admission -> Result (CheckError E) D) :
  cancels_atomically db (fun env => run_checks sha256 self db env checks build).
Proof.
  unfold run_checks. destruct (from_checks sha256 checks) as [input|]; [|by apply cancels_immediately].
  apply (guarded_cancels db acquire_check_connection
    (fun deadline => run_check_transaction_inner input checks (maximum_rows_per_shard (config self))
                       deadline build)). intros deadline. apply atomic_check_transaction.
Qed.

Lemma fixed_check_all_cancels self db checks :
  cancels_atomically db (fun env => (pg_check_all sha256 self db env checks).1).
Proof.
  unfold pg_check_all, check_all_unobserved. cbn [fst].
  destruct (validate_batch _ _); [|by apply cancels_immediately].
  apply (cancels_map db (fmap (map_err BatchCheckError_Check))
    (fun env => run_checks sha256 self db env checks (batch_decision (length checks)))), run_checks_cancels.
  intros d. by exists d.
Qed.

Lemma fixed_cleanup_cancels self db maximum_rows :
  cancels_atomically db (fun env => (cleanup_expired (E := E) self db env maximum_rows).1).
Proof.
  unfold cleanup_expired, cleanup_expired_unobserved. cbn [fst].
  destruct (maximum_rows =? 0); [by apply cancels_immediately|].
  pose proof (guarded_cancels db acquire_maintenance_connection
    (fun deadline => rows ← run_cleanup_transaction_inner maximum_rows deadline; mret (Reusable rows))
    (atomic_cleanup maximum_rows) (as_nanos (operation_timeout (config self)))) as Hcancels.
  intros n applied env. specialize (Hcancels n applied env). revert Hcancels.
  unfold drop_after. cbn [interrupted env_acquired env_connected_at].
  destruct (acquire_maintenance_connection _) as [u|e]; [|done].
  unfold guarded_run, run_cleanup_transaction, merged, mbind, Tx_bind, mret, Tx_ret.
  destruct (run_cleanup_transaction_inner _ _ (connect db (interrupted n (unanswered applied) env)))
    as [s [[rows|o]|]];
    by destruct (run_cleanup_transaction_inner _ _ (connect db (interrupted n answered env)))
      as [s' [[rows'|o']|]].
Qed.
End FixedWindow.

(** * GCRA *)

Section Gcra.
Context {E : Type} `{SqlxError E}.

Lemma atomic_gcra_transaction {D} checks config deadline (build : Admission -> Result (CheckError E) D) :
  atomic (PostgresGcra.run_transaction checks config deadline build).
Proof.
  unfold PostgresGcra.run_transaction. do 5 silently.
  apply atomic_bind; [auto with silence|]. intros [counts now]. do 2 silently.
  apply atomic_bind; [auto with silence|]. intros [allowances|admission].
  - do 5 silently. auto with silence.
  - silently. apply atomic_deny.
Qed.

Lemma atomic_gcra_cleanup maximum deadline :
  atomic (E := E) (rows ← PostgresGcra.cleanup_transaction maximum deadline; mret (Reusable rows)).
Proof.
  unfold PostgresGcra.cleanup_transaction.
  apply atomic_assoc, atomic_bind; [apply silent_wait, unnoticed_begin|]. intros u.
  apply atomic_assoc. silently.
  apply atomic_assoc, atomic_bind; [apply silent_wait, unnoticed_send|]. intros locked.
  do 2 (apply atomic_assoc; silently).
  apply atomic_assoc, atomic_bind; [apply silent_wait, unnoticed_send|]. intros r.
  apply atomic_assoc. silently.
  apply atomic_assoc, atomic_bind; [apply silent_wait, unnoticed_send|]. intros deleted.
  apply atomic_assoc, atomic_publish_maintenance.
Qed.

Lemma gcra_run_cancels {D} self db checks (build : Admission -> Result (CheckError E) D) :
  cancels_atomically db (fun env => PostgresGcra.run self db env checks build).
Proof.
  apply (guarded_cancels db acquire_check_connection
    (fun deadline => PostgresGcra.run_transaction checks (PostgresGcra.config self) deadline build)).
  intros deadline. apply atomic_gcra_transaction.
Qed.

Lemma gcra_check_all_cancels self db checks :
  cancels_atomically db (fun env => (PostgresGcra.check_all (E := E) self db env checks).1).
Proof.
  unfold PostgresGcra.check_all. cbn [fst]. destruct (validate_batch _ _); [|by apply cancels_immediately].
  apply (cancels_map db (fmap (map_err BatchCheckError_Check))
    (fun env => PostgresGcra.run self db env checks (batch_decision (length checks)))), gcra_run_cancels.
  intros d. by exists d.
Qed.

Lemma gcra_cleanup_cancels self db maximum_rows :
  cancels_atomically db (fun env => (PostgresGcra.cleanup_expired (E := E) self db env maximum_rows).1).
Proof.
  unfold PostgresGcra.cleanup_expired, PostgresGcra.cleanup. cbn [fst].
  destruct (maximum_rows =? 0); [by apply cancels_immediately|].
  apply (guarded_cancels db acquire_maintenance_connection
    (fun deadline => rows ← PostgresGcra.cleanup_transaction maximum_rows deadline; mret (Reusable rows))).
  intros deadline. apply atomic_gcra_cleanup.
Qed.
End Gcra.

(** * Attempts *)

Section Attempts.
Context {E : Type} `{SqlxError E}.

(** A capacity denial commits the cleanup it made. *)
Lemma atomic_capacity_denial tx : atomic (E := E) (PostgresAttempts.finish_capacity_denial tx).
Proof.
  destruct (atomic_publish (E := E) (Db := PostgresAttempts.AttemptDb) (Query := PostgresAttempts.AttemptQuery E) tx tt) as [Hend Hatomic].
  unfold mbind, Tx_bind, mret, Tx_ret in *.
  assert (Htables : forall s, (PostgresAttempts.finish_capacity_denial tx s).1
    = (match commit (E := E) tx s with
       | (s1, Done (Ok _)) => (s1, Done (Ok (Reusable tt)))
       | (s1, Done (Err e)) => (s1, Done (Err e))
       | (s1, Panic) => (s1, Panic)
       end).1).
  { intros s. unfold PostgresAttempts.finish_capacity_denial. by destruct (commit tx s) as [s1 [[u|o]|]]. }
  split; [intros s; rewrite Htables; apply Hend|].
  intros s steps applied Hs. rewrite Htables. intros Hnil.
  destruct (Hatomic s steps applied Hs Hnil) as [?|(s' & [] & Hrun & ? & ?)]; [by left|right].
  unfold PostgresAttempts.finish_capacity_denial.
  destruct (commit tx (with_schedule (steps ++ [answered]) s)) as [s1 [[u|o]|]]; simplify_eq.
  by eexists _, _.
Qed.

Lemma silent_reconcile_failures policy now failures last_failure retry :
  silent (E := E) (PostgresAttempts.reconcile_failures policy now failures last_failure retry).
Proof.
  apply silent_bind; [auto with silence|]. intros quiet.
  destruct (if _ : bool then _ else _) as [f r]. destruct (now <? r); auto with silence.
Qed.

Lemma silent_reconcile_row policy now row :
  silent (E := E) (PostgresAttempts.reconcile_row policy now row).
Proof.
  unfold PostgresAttempts.reconcile_row. do 5 (apply silent_bind; [auto with silence|intros ?]).
  match goal with |- silent (match ?lease with _ => _ end) => destruct lease as [until|] end;
    [|apply silent_reconcile_failures].
  destruct (now <? until); [auto with silence|].
  apply silent_bind; [auto with silence|intros ?]. apply silent_reconcile_failures.
Qed.

Lemma atomic_grant tx policy subject token_row :
  atomic (E := E) (PostgresAttempts.grant tx policy subject token_row).
Proof. silently. auto with silence. Qed.

Lemma atomic_reserve_slot tx policy fingerprint subject shard maximum now :
  atomic (E := E) (PostgresAttempts.reserve_slot tx policy fingerprint subject shard maximum now).
Proof.
  unfold PostgresAttempts.reserve_slot. do 2 silently.
  destruct (maximum <=? _); [apply atomic_capacity_denial|]. do 2 silently.
  match goal with |- atomic (match ?slot with _ => _ end) => destruct slot as [slot|] end;
    [|apply atomic_capacity_denial].
  do 3 silently. apply atomic_grant.
Qed.

Lemma atomic_admit subject maximum deadline :
  atomic (E := E) (PostgresAttempts.admit_transaction subject maximum deadline).
Proof.
  unfold PostgresAttempts.admit_transaction. do 6 silently. apply atomic_bind.
  { destruct (head _); [apply silent_reconcile_row|auto with silence]. }
  intros [denial|[failures last_failure]]; [apply atomic_deny|].
  destruct (head _); [|apply atomic_reserve_slot]. do 2 silently. apply atomic_grant.
Qed.

Lemma atomic_complete receipt outcome deadline :
  atomic (E := E) (PostgresAttempts.complete_transaction receipt outcome deadline).
Proof. unfold PostgresAttempts.complete_transaction. do 4 silently. auto with silence. Qed.

Lemma admit_cancels self db subject :
  cancels_atomically db (fun env => (PostgresAttempts.admit_attempt (E := E) self db env subject).1).
Proof.
  pose proof (guarded_cancels db acquire_check_connection
    (PostgresAttempts.admit_transaction subject (maximum_rows_per_shard (PostgresAttempts.config self)))
    (atomic_admit subject _) (as_nanos (operation_timeout (PostgresAttempts.config self)))) as Hcancels.
  intros n applied env. specialize (Hcancels n applied env). revert Hcancels.
  unfold drop_after, PostgresAttempts.admit_attempt. cbn [interrupted env_acquired env_connected_at].
  by destruct (acquire_check_connection (env_acquired env)).
Qed.

Lemma complete_cancels self db receipt outcome :
  cancels_atomically db (fun env => (PostgresAttempts.complete (E := E) self db env receipt outcome).1).
Proof.
  pose proof (guarded_cancels db acquire_check_connection
    (PostgresAttempts.complete_transaction receipt outcome)
    (atomic_complete receipt outcome) (as_nanos (operation_timeout (PostgresAttempts.config self)))) as Hcancels.
  intros n applied env. specialize (Hcancels n applied env). revert Hcancels.
  unfold drop_after, PostgresAttempts.complete. cbn [interrupted env_acquired env_connected_at].
  by destruct (acquire_check_connection (env_acquired env)).
Qed.
End Attempts.

(** C21. Cancellation of a call of a PostgreSQL backend is atomic: a future
    dropped while it waits for the reply to any one of its interactions,
    whatever the server and the network did before, closes its connection
    and has either left the committed tables as they were, or was waiting
    for a commit that took effect; then the tables are exactly those of the
    call that receives the acknowledgement, which succeeds. *)
Theorem pg_cancellation_atomic {E} `{SqlxError E} `{PgIntervals} (sha256 : bytes -> bytes) :
  (forall self db check, cancels_atomically db (fun env => (pg_check (E := E) sha256 self db env check).1))
  /\ (forall self db checks,
        cancels_atomically db (fun env => (pg_check_all (E := E) sha256 self db env checks).1))
  /\ (forall self db n, cancels_atomically db (fun env => (cleanup_expired (E := E) self db env n).1))
  /\ (forall self db check,
        cancels_atomically db (fun env => (PostgresGcra.check (E := E) self db env check).1))
  /\ (forall self db checks,
        cancels_atomically db (fun env => (PostgresGcra.check_all (E := E) self db env checks).1))
  /\ (forall self db n,
        cancels_atomically db (fun env => (PostgresGcra.cleanup_expired (E := E) self db env n).1))
  /\ (forall self db subject,
        cancels_atomically db (fun env => (PostgresAttempts.admit_attempt (E := E) self db env subject).1))
  /\ (forall self db receipt outcome,
        cancels_atomically db (fun env => (PostgresAttempts.complete (E := E) self db env receipt outcome).1)).
Proof.
  split_and!; intros.
  - apply run_checks_cancels.
  - apply fixed_check_all_cancels.
  - apply fixed_cleanup_cancels.
  - apply gcra_run_cancels.
  - apply gcra_check_all_cancels.
  - apply gcra_cleanup_cancels.
  - apply admit_cancels.
  - apply complete_cancels.
Qed.

#[local] Existing Instance example_sqlx.
#[local] Existing Instance example_intervals.

(** A check of an honest server that grants it. *)
Definition example_dropped_call (env : PgEnv unit FixedDb (FixedQuery unit)) :
    CallEnd unit FixedDb (FixedQuery unit) (Result (CheckError unit) Decision) :=
  (pg_check example_sha256 PostgresLimiter_new FixedDb_new env (example_pg_check 0 1 2)).1.

(** C21 witness: dropped while committing, once with the commit lost and once
    with the commit done. *)
Lemma pg_cancellation_atomic_witness :
  let env := example_lossy_env 1000 20 in
  (exists s closed, drop_after example_dropped_call 19 false env = Some (s, closed) /\ closed = true
     /\ committed s = FixedDb_new)
  /\ exists s closed, drop_after example_dropped_call 19 true env = Some (s, closed) /\ closed = true
     /\ size (windows (committed s)) = 1%nat
     /\ exists d, ce_result (example_dropped_call (interrupted 19 answered env)) = Done (Ok d)
        /\ committed s = ce_db FixedDb_new (example_dropped_call (interrupted 19 answered env)).
Proof.
  destruct (pg_cancellation_atomic (E := unit) example_sha256) as [Hcheck _].
  assert (Hcall : cancels_atomically FixedDb_new example_dropped_call)
    by exact (Hcheck PostgresLimiter_new FixedDb_new (example_pg_check 0 1 2)).
  specialize (Hcall 19%nat). clear Hcheck. split.
  - assert (Hleft : match drop_after example_dropped_call 19 false (example_lossy_env 1000 20) with
        | Some (s, _) => schedule s = [] /\ size (windows (committed s)) = 0%nat
        | None => False end) by (vm_compute; by split).
    destruct (drop_after example_dropped_call 19 false (example_lossy_env 1000 20)) as [[s closed]|] eqn:Hdrop;
      [|destruct Hleft].
    destruct Hleft as [Hnil Hsize]. exists s, closed. split; [reflexivity|].
    destruct (Hcall false _ s closed Hdrop Hnil) as [Hclosed [Hc|(d & Hr & Hpub & Hc)]].
    + split; [exact Hclosed|exact Hc].
    + exfalso. rewrite Hc in Hsize. vm_compute in Hsize. discriminate Hsize.
  - assert (Hleft : match drop_after example_dropped_call 19 true (example_lossy_env 1000 20) with
        | Some (s, _) => schedule s = [] /\ size (windows (committed s)) = 1%nat
        | None => False end) by (vm_compute; by split).
    destruct (drop_after example_dropped_call 19 true (example_lossy_env 1000 20)) as [[s closed]|] eqn:Hdrop;
      [|destruct Hleft].
    destruct Hleft as [Hnil Hsize]. exists s, closed. split; [reflexivity|].
    destruct (Hcall true _ s closed Hdrop Hnil) as [Hclosed [Hc|(d & Hr & Hpub & Hc)]].
    + exfalso. rewrite Hc in Hsize. vm_compute in Hsize. discriminate Hsize.
    + split; [exact Hclosed|]. split; [exact Hsize|]. exists d. split; [exact Hr|exact Hc].
Defined.
