(* ===== verification/PgAxum.v ===== *)
(** The middleware over a shared PostgreSQL database: the PostgreSQL limiters
    as instances of [Limiter] ([runlimit-postgres/src/lib.rs] and
    [gcra.rs]), and the requests that the layers of many processes, each
    with a limiter of its own on one database, let into the services they
    wrap. *)

From Stdlib Require Import Ascii String.
From stdpp Require Import prelude list gmap.
From S2P Require Import Prelude RustStd Identifier Policy Decision AttemptPolicy Key Check Observation Limiter Ledger Windows AxumLayer AxumTrace MemGcraTrace PgErrors PgConfig PgSession PgTables PgLedger PgAdmission PgMaintenance PgInvariant PgConnection PgLimiter PgSpec PgHonest PgServed PgAnyServer PgRefine PgEffect PgTypes PgTrace PgCharges PgRate PgGcra PgGcraSpec PgGcraRefine PgGcraTypes PgGcraEffect PgGcraRate.
Open Scope Z_scope.
Open Scope list_scope.

#[local] Existing Instance PostgresGcra.gcra_statements.

(** * The limiters as [Limiter]s *)

Section Backends.
Context {E : Type} `{SqlxError E} `{PgIntervals} (sha256 : bytes -> bytes).

(** [impl Limiter for PostgresLimiter]: its state is the limiter's own and
    the database it shares. *)
Definition postgres_limiter : Limiter (PostgresLimiter * FixedDb) (PgEnv E FixedDb (FixedQuery E))
    FixedWindowPolicy (CheckError E) (BatchCheckError E) := {|
  limiter_check s env c :=
    let e := (pg_check sha256 s.1 s.2 env c).1 in ((s.1, ce_db s.2 e), ce_result e);
  limiter_check_all s env cs :=
    let e := (pg_check_all sha256 s.1 s.2 env cs).1 in ((s.1, ce_db s.2 e), ce_result e);
|}.

(** [impl Limiter for PostgresGcraLimiter]. *)
Definition postgres_gcra_limiter : Limiter (PostgresGcra.PostgresGcraLimiter * PostgresGcra.GcraDb)
    (PgEnv E PostgresGcra.GcraDb (PostgresGcra.GcraQuery E)) GcraPolicy (CheckError E) (BatchCheckError E) := {|
  limiter_check s env c :=
    let e := (PostgresGcra.check s.1 s.2 env c).1 in ((s.1, ce_db s.2 e), ce_result e);
  limiter_check_all s env cs :=
    let e := (PostgresGcra.check_all s.1 s.2 env cs).1 in ((s.1, ce_db s.2 e), ce_result e);
|}.
End Backends.

(** * Limiters that share a database *)

(** What the middleware relies on: a check is one call on the shared tables,
    acknowledged exactly when it is allowed, and never shadowed by a policy
    that enforces. *)
Class SharedLimiter (Lim Db Env P CheckErr BatchErr Call : Type)
    `{Limiter (Lim * Db) Env P CheckErr BatchErr} `{RateLimitPolicy P} := {
  sl_ok : Check P -> Prop;
  sl_call : Lim -> Env -> Check P -> Call;
  sl_db : Db -> Call -> Db;
  sl_acknowledged : Db -> Call -> list (Check P);
  sl_check : forall lim db env c, sl_ok c ->
    let '(s', r) := limiter_check (lim, db) env c in
    s' = (lim, sl_db db (sl_call lim env c))
    /\ match r with
       | Done (Ok d) =>
           match Decision_view d with
           | DecisionView_Allowed _ => sl_acknowledged db (sl_call lim env c) = [c]
           | DecisionView_ShadowDenied _ =>
               sl_acknowledged db (sl_call lim env c) = [] /\ rp_quota_mode (check_policy c) = Shadow
           | DecisionView_Denied _ => sl_acknowledged db (sl_call lim env c) = []
           end
       | _ => sl_acknowledged db (sl_call lim env c) = []
       end;
}.

Section Instances.
Context {E : Type} `{SqlxError E} `{PgIntervalsLaws} (sha256 : bytes -> bytes).
#[local] Existing Instance postgres_limiter.
#[local] Existing Instance postgres_gcra_limiter.

Lemma fixed_shared lim db env c : check_ok c ->
  let '(s', r) := limiter_check (Limiter := postgres_limiter (E := E) sha256) (lim, db) env c in
  s' = (lim, call_db sha256 db (CallCheck lim env c))
  /\ match r with
     | Done (Ok d) =>
         match Decision_view d with
         | DecisionView_Allowed _ => acknowledged sha256 db (CallCheck lim env c) = [c]
         | DecisionView_ShadowDenied _ =>
             acknowledged sha256 db (CallCheck lim env c) = [] /\ rp_quota_mode (check_policy c) = Shadow
         | DecisionView_Denied _ => acknowledged sha256 db (CallCheck lim env c) = []
         end
     | _ => acknowledged sha256 db (CallCheck lim env c) = []
     end.
Proof.
  intros Hok. pose proof (run_checks_yield sha256 [c] lim db env single_decision _
    (singleton_ok c Hok) (singleton_mode c) (single_decision_typed c)) as Hcall.
  unfold call_yields in Hcall. cbn [limiter_check postgres_limiter]. split; [done|].
  cbn [acknowledged]. unfold pg_check in *. cbn [fst snd] in *.
  destruct (ce_result _) as [[d|e]|]; [|done..].
  unfold decision_of in Hcall. destruct (Decision_view d); [done..|]. by split; [|apply Hcall].
Qed.

Lemma gcra_shared lim db env c :
  let '(s', r) := limiter_check (Limiter := postgres_gcra_limiter (E := E)) (lim, db) env c in
  s' = (lim, gcra_call_db db (GcraCheck_ lim env c))
  /\ match r with
     | Done (Ok d) =>
         match Decision_view d with
         | DecisionView_Allowed _ => gcra_acknowledged db (GcraCheck_ lim env c) = [c]
         | DecisionView_ShadowDenied _ =>
             gcra_acknowledged db (GcraCheck_ lim env c) = [] /\ rp_quota_mode (check_policy c) = Shadow
         | DecisionView_Denied _ => gcra_acknowledged db (GcraCheck_ lim env c) = []
         end
     | _ => gcra_acknowledged db (GcraCheck_ lim env c) = []
     end.
Proof.
  pose proof (run_yields lim db env [c] single_decision _ (single_decision_typed c)) as Hcall.
  unfold call_yields in Hcall. cbn [limiter_check postgres_gcra_limiter]. split; [done|].
  cbn [gcra_acknowledged]. unfold PostgresGcra.check in *. cbn [fst snd] in *.
  destruct (ce_result _) as [[d|e]|]; [|done..].
  unfold decision_of in Hcall. destruct (Decision_view d); [done..|]. by split; [|apply Hcall].
Qed.
End Instances.

#[local] Instance fixed_shared_limiter {E} `{SqlxError E} `{PgIntervalsLaws} (sha256 : bytes -> bytes)
  : SharedLimiter (H := postgres_limiter sha256) PostgresLimiter FixedDb (PgEnv E FixedDb (FixedQuery E))
      FixedWindowPolicy (CheckError E) (BatchCheckError E) (pg_call (E := E)).
Proof.
  refine {| sl_ok := check_ok; sl_call := CallCheck; sl_db := call_db sha256;
            sl_acknowledged := acknowledged sha256 |}.
  intros lim db env c Hok. exact (fixed_shared sha256 lim db env c Hok).
Defined.

#[local] Instance gcra_shared_limiter {E} `{SqlxError E}
  : SharedLimiter (H := postgres_gcra_limiter) PostgresGcra.PostgresGcraLimiter PostgresGcra.GcraDb
      (PgEnv E PostgresGcra.GcraDb (PostgresGcra.GcraQuery E)) GcraPolicy (CheckError E) (BatchCheckError E)
      (gcra_call E).
Proof.
  refine {| sl_ok _ := True; sl_call := GcraCheck_; sl_db := gcra_call_db;
            sl_acknowledged := gcra_acknowledged |}.
  intros lim db env c _. exact (gcra_shared lim db env c).
Defined.

(** * Traffic *)

Section Traffic.
Context {Lim Db Env P CheckErr BatchErr Call K B KeyError Resp : Type}
  `{SharedLimiter Lim Db Env P CheckErr BatchErr Call} `{ExtractSubjectKey K P B KeyError}.

(** A request to one process's layer: its limiter, its policy, extractor and
    mapper, the service's response, and what the check meets. *)
Record Arrival := mkArrival {
  ar_limiter : Lim;
  ar_policy : P;
  ar_extractor : K;
  ar_mapper : RateLimitRejection KeyError CheckErr -> Outcome Resp;
  ar_response : Resp;
  ar_env : Env;
  ar_request : Request B;
}.

(** What reaches the database: a request through a layer, or another call
    of a limiter. *)
Inductive Traffic :=
| Through (arrival : Arrival)
| Direct (call : Call).

Definition arrival_checks (a : Arrival) : list (Check P) :=
  request_checks (ar_policy a) (ar_extractor a) (ar_request a).

(** The tables after, and the checks let through: a request that enters the
    wrapped service, or what a direct call is told it admitted. *)
Definition traffic_step (db : Db) (t : Traffic) : Db * list (Check P) :=
  match t with
  | Through a =>
      let '((_, db'), entry) :=
        serve_one (ar_policy a) (ar_extractor a) (ar_mapper a) (ar_response a)
          (ar_limiter a, db) (ar_env a) (ar_request a) in
      (db', match entry with Some _ => arrival_checks a | None => [] end)
  | Direct call => (sl_db db call, sl_acknowledged db call)
  end.

(** The calls it makes. *)
Definition traffic_calls (t : Traffic) : list Call :=
  match t with
  | Through a => sl_call (ar_limiter a) (ar_env a) <$> arrival_checks a
  | Direct call => [call]
  end.

(** Enforcing layers, asking checks that a program can make. *)
Definition traffic_ok (t : Traffic) : Prop :=
  match t with
  | Through a => rp_quota_mode (ar_policy a) = Enforce /\ Forall sl_ok (arrival_checks a)
  | Direct _ => True
  end.

(** A piece of traffic is at most one call. *)
Lemma traffic_calls_short (t : Traffic) :
  traffic_calls t = [] \/ exists call, traffic_calls t = [call].
Proof.
  destruct t as [a|call]; [|right; by eexists]. unfold traffic_calls, arrival_checks, request_checks.
  destruct (extract_subject_key _ _ _) as [[subject|error]|]; [right; by eexists|by left..].
Qed.

(** A request makes no call, or one whose admission lets it in. *)
Lemma traffic_step_calls db t : traffic_ok t ->
  traffic_step db t = match traffic_calls t with
                      | [] => (db, [])
                      | call :: _ => (sl_db db call, sl_acknowledged db call)
                      end.
Proof.
  destruct t as [a|call]; [|done]. intros [Henforce Hok].
  unfold traffic_step, traffic_calls, arrival_checks, serve_one, request_checks in *.
  unfold AxumLayer.call. cbn [layer traffic_layer from_shared ly_limiter ly_policy ly_key_extractor
    ly_rejection_mapper sv_inner sv_limiter sv_policy sv_key_extractor sv_rejection_mapper shared_limiter
    sh_get sh_put sh_env fst snd].
  destruct (extract_subject_key _ (ar_request a) _) as [[subject|error]|]; [|done..].
  apply Forall_cons in Hok as [Hok _].
  pose proof (sl_check (ar_limiter a) db (ar_env a) _ Hok) as Hlaw.
  destruct (limiter_check _ _ _) as [s' r]. destruct Hlaw as [-> Hack]. cbn [fmap list_fmap fst snd].
  destruct r as [[d|e]|]; [|by rewrite Hack..].
  unfold Decision_view in Hack. destruct d as [[[[a0|q]]|denial]]; cbn in *; [by rewrite Hack| |by rewrite Hack].
  destruct Hack as [_ Hshadow]. cbn in Hshadow. congruence.
Qed.
End Traffic.
Arguments Arrival : clear implicits.
Arguments Traffic : clear implicits.

(** Traffic within a span of the server's clock. *)
Record timed (T : Type) := mkTimed { tm_from : Z; tm_until : Z; tm_what : T }.
Arguments mkTimed {T} _ _ _.
Arguments tm_from {T} _.
Arguments tm_until {T} _.
Arguments tm_what {T} _.

(** What is let through for the counter [k] by timed traffic that let
    [checks] through. *)
Definition let_through {P} `{RateLimitPolicy P} (k : CounterKey) (from until : Z) (checks : list (Check P))
    : list report :=
  (fun c => (from, until, check_cost c)) <$> filter (fun c => Check_counter_key c = k) checks.

(** * Fixed windows *)

Section FixedTraffic.
Context {E : Type} `{SqlxError E} `{PgIntervalsLaws} (sha256 : bytes -> bytes).
Context {K B KeyError Resp : Type} `{ExtractSubjectKey K FixedWindowPolicy B KeyError}.
#[local] Instance shared_limiter : Limiter (PostgresLimiter * FixedDb) (PgEnv E FixedDb (FixedQuery E))
  FixedWindowPolicy (CheckError E) (BatchCheckError E) := postgres_limiter sha256.
Notation FixedTraffic := (Traffic PostgresLimiter (PgEnv E FixedDb (FixedQuery E)) FixedWindowPolicy
  (CheckError E) (pg_call (E := E)) K B KeyError Resp).
#[local] Instance shared_tables : SharedLimiter PostgresLimiter FixedDb
  (PgEnv E FixedDb (FixedQuery E)) FixedWindowPolicy (CheckError E) (BatchCheckError E) (pg_call (E := E))
  := fixed_shared_limiter sha256.

(** The committed tables after some traffic, and what was let through for
    the counter [k], newest first. *)
Fixpoint fixed_traffic (k : CounterKey) (db : FixedDb) (entered : list report)
    (traffic : list (timed FixedTraffic)) : FixedDb * list report :=
  match traffic with
  | [] => (db, entered)
  | t :: traffic =>
      let '(db', checks) := traffic_step (BatchErr := BatchCheckError E) db (tm_what t) in
      fixed_traffic k db' (let_through k (tm_from t) (tm_until t) checks ++ entered) traffic
  end.

(** The server's clock does not go back, and the server answers every call
    from its tables, when it answers. *)
Fixpoint traffic_clocked (start : Z) (traffic : list (timed FixedTraffic)) : Prop :=
  match traffic with
  | [] => True
  | t :: traffic =>
      start <= tm_from t <= tm_until t
      /\ Forall (fun call => served_env fixed_answer (between (tm_from t) (tm_until t)) (call_env call))
           (traffic_calls (BatchErr := BatchCheckError E) (tm_what t))
      /\ traffic_clocked (tm_until t) traffic
  end.

Definition fixed_calls (t : timed FixedTraffic) : list (timed_call E) :=
  mkTimedCall (tm_from t) (tm_until t) <$> traffic_calls (tm_what t).

Lemma fixed_traffic_calls k db entered traffic :
  Forall (fun t => traffic_ok (tm_what t)) traffic ->
  fixed_traffic k db entered traffic = pg_run sha256 k db entered (traffic ≫= fixed_calls).
Proof.
  revert db entered. induction traffic as [|t traffic IH]; intros db entered Hok; [done|].
  apply Forall_cons in Hok as [Ht Hok].
  change ((t :: traffic) ≫= fixed_calls) with (fixed_calls t ++ (traffic ≫= fixed_calls)).
  cbn [fixed_traffic]. rewrite traffic_step_calls by done. unfold fixed_calls at 1.
  destruct (traffic_calls_short (tm_what t)) as [->|[call ->]]; by rewrite IH.
Qed.

Lemma clocked_earlier start start' (calls : list (timed_call E)) :
  start <= start' -> clocked start' calls -> clocked start calls.
Proof. intros Hs. destruct calls as [|call calls]; [done|]. intros (? & ? & ?). split_and!; [lia..|done|done]. Qed.

Lemma traffic_clocked_calls start traffic :
  traffic_clocked start traffic -> clocked start (traffic ≫= fixed_calls).
Proof.
  revert start. induction traffic as [|t traffic IH]; intros start; [done|]. intros (Ht & Henv & Hrest).
  apply IH in Hrest.
  change ((t :: traffic) ≫= fixed_calls) with (fixed_calls t ++ (traffic ≫= fixed_calls)). unfold fixed_calls at 1.
  destruct (traffic_calls_short (tm_what t)) as [Hc|[call Hc]]; rewrite Hc in *.
  - apply (clocked_earlier start (tm_until t)); [lia|done].
  - apply Forall_cons in Henv as [Henv _]. split; [exact Ht|]. split; [exact Henv|exact Hrest].
Qed.

(** C13. What the middleware of a whole fleet lets in. Let any processes put
    layers with enforcing policies, any extractors and any rejection mappers
    (panicking or not) in front of their services, each over a PostgreSQL
    limiter with any configuration on one shared, freshly migrated database,
    and let other clients check, check batches and clean up there as well;
    let replies be lost, clients' clocks show anything, deadlines pass and
    commits go unacknowledged. As long as the server answers from its tables
    and its clock does not go back between calls, the requests of one
    subject under one policy of [L] per [W] that enter any of the wrapped
    services, with what direct clients are told they got, are charges that
    fall into consecutive windows of at most [L], and no interval of one
    window's length sees more than [2 * L] of them. *)
Theorem pg_axum_traffic_bound (k : CounterKey) (L W start : Z) (traffic : list (timed FixedTraffic))
    (HL : 1 <= L) (HW : 1 <= W)
    (Hlayers : Forall (fun t => traffic_ok (tm_what t)) traffic)
    (Hcalls : Forall (fun t => Forall (fun call => call_ok call /\ Forall (pg_keyed k L W) (call_checks call))
                (traffic_calls (tm_what t))) traffic)
    (Hclock : traffic_clocked start traffic) :
  let '(db, entered) := fixed_traffic k FixedDb_new [] traffic in
  exists charges newest,
    anchored L W charges newest /\ reported_by entered charges
    /\ forall a, reported_in a (a + W) entered <= 2 * L.
Proof.
  rewrite fixed_traffic_calls by done.
  pose proof (run_accounted sha256 k L W start FixedDb_new [] [] [] (traffic ≫= fixed_calls) FixedDb_new_wf)
    as Hrun.
  destruct (pg_run _ _ _ _ _) as [db entered]. destruct Hrun as (charges & Hacc & Hrs & _).
  - apply Forall_bind. eapply Forall_impl; [exact Hcalls|]. intros t Ht. by apply Forall_fmap.
  - by apply traffic_clocked_calls.
  - exists None. split_and!; [by apply anchored_nil|by intros y ?%not_elem_of_nil|done|].
    cbn [FixedDb_new windows]. by rewrite lookup_empty.
  - apply reported_by_nil.
  - constructor.
  - destruct Hacc as (newest & Ha & _). exists charges, newest. split_and!; [done..|]. intros a.
    pose proof (anchored_interval L W charges newest a ltac:(lia) ltac:(lia) Ha) as Hc.
    pose proof (reported_le a (a + W) entered charges (anchored_positive _ _ _ _ Ha) Hrs). lia.
Qed.
End FixedTraffic.

(** * GCRA *)

Section GcraTraffic.
Context {E : Type} `{SqlxError E} (policies : PolicyFingerprint -> GcraPolicy).
Context {K B KeyError Resp : Type} `{ExtractSubjectKey K GcraPolicy B KeyError}.
Notation GcraDb := PostgresGcra.GcraDb.
Notation GcraQuery := PostgresGcra.GcraQuery.
Notation GcraTraffic := (Traffic PostgresGcra.PostgresGcraLimiter (PgEnv E GcraDb (GcraQuery E)) GcraPolicy
  (CheckError E) (gcra_call E) K B KeyError Resp).
#[local] Instance shared_gcra_limiter : Limiter (PostgresGcra.PostgresGcraLimiter * GcraDb)
  (PgEnv E GcraDb (GcraQuery E)) GcraPolicy (CheckError E) (BatchCheckError E) := postgres_gcra_limiter.
#[local] Instance shared_gcra_tables : SharedLimiter PostgresGcra.PostgresGcraLimiter GcraDb
  (PgEnv E GcraDb (GcraQuery E)) GcraPolicy (CheckError E) (BatchCheckError E) (gcra_call E)
  := gcra_shared_limiter.

Definition gcra_calls (t : timed GcraTraffic) : list (timed_gcra E) :=
  mkTimedGcra (tm_from t) (tm_until t) <$> traffic_calls (BatchErr := BatchCheckError E) (tm_what t).

(** The latest time the server's clock has shown, the committed tables after
    some traffic, and what was let through for the counter [k], newest
    first. *)
Fixpoint gcra_traffic (k : CounterKey) (T : Z) (db : GcraDb) (entered : list report)
    (traffic : list (timed GcraTraffic)) : Z * GcraDb * list report :=
  match traffic with
  | [] => (T, db, entered)
  | t :: traffic =>
      let '(db', checks) := traffic_step (BatchErr := BatchCheckError E) db (tm_what t) in
      let T' := foldl latest T (gcra_calls t) in
      gcra_traffic k T' db' (let_through k (tm_from t) T' checks ++ entered) traffic
  end.

Lemma gcra_traffic_calls k T db entered traffic :
  Forall (fun t => traffic_ok (tm_what t)) traffic ->
  gcra_traffic k T db entered traffic = pg_gcra_run k T db entered (traffic ≫= gcra_calls).
Proof.
  revert T db entered. induction traffic as [|t traffic IH]; intros T db entered Hok; [done|].
  apply Forall_cons in Hok as [Ht Hok].
  change ((t :: traffic) ≫= gcra_calls) with (gcra_calls t ++ (traffic ≫= gcra_calls)).
  cbn [gcra_traffic]. rewrite traffic_step_calls by done. unfold gcra_calls at 1 2 3.
  destruct (traffic_calls_short (tm_what t)) as [->|[call ->]]; by rewrite IH.
Qed.

(** C14. The same for GCRA. Let any processes put layers with enforcing GCRA
    policies in front of their services, each over a PostgreSQL limiter with
    any configuration on one shared, freshly migrated database, with other
    clients calling it as well, with replies lost, commits unacknowledged
    and clocks, the server's among them, jumping back. Then the requests of
    one subject that enter any of the wrapped services in an interval of
    the server's time, with what direct clients are told they got, are at
    most the burst plus what the quota replenishes in that interval. *)
Theorem pg_axum_gcra_bound (bound : Z) (k : CounterKey) (q w b : Z) (traffic : list (timed GcraTraffic))
    (Hbound : bound + MAX_WINDOW_MILLIS <= i64_max) (Hrange : 0 <= bound)
    (Hq : 1 <= q) (Hw : 1 <= w) (Hb : 1 <= b)
    (Hlayers : Forall (fun t => traffic_ok (tm_what t)) traffic)
    (Hcalls : Forall (fun t => Forall (fun call => gcra_call_ok policies bound call
                /\ Forall (gcra_own k q w b) (gcra_checks (tg_call call))) (gcra_calls t)) traffic) :
  let '(T, db, entered) := gcra_traffic k 0 PostgresGcra.GcraDb_new [] traffic in
  exists charges, reported_by entered charges
    /\ forall a e, a <= e -> reported_in a e entered * w <= b * w + (e - a) * q.
Proof.
  rewrite gcra_traffic_calls by done.
  pose proof (gcra_run_accounted policies bound Hbound k q w b Hq Hw Hb 0 PostgresGcra.GcraDb_new [] [] []
    (traffic ≫= gcra_calls) (GcraDb_new_on_time policies) Hrange) as Hrun.
  destruct (pg_gcra_run _ _ _ _ _) as [[T db] entered]. destruct Hrun as (charges & Hacc & Hrs & _).
  - by apply Forall_bind.
  - exists None. split_and!; [by apply (ac_nil _ _ (gcra_account q w b Hq Hw Hb))|by intros y ?%not_elem_of_nil|].
    cbn [PostgresGcra.GcraDb_new PostgresGcra.counters]. by rewrite lookup_empty.
  - apply reported_by_nil.
  - done.
  - destruct Hacc as (cur & [Hint _] & Hpos & _). exists charges. split; [done|]. intros a e Hae.
    specialize (Hint a e Hae).
    pose proof (reported_le a e entered charges (fun y Hy => proj2 (Hpos y Hy)) Hrs). nia.
Qed.
End GcraTraffic.

(** * A concrete fleet *)

#[local] Existing Instance example_sqlx.
#[local] Existing Instance example_intervals.
#[local] Existing Instance example_intervals_laws.

(** A closure that reads the subject off the request, which must name one. *)
Definition example_subject {P} (request : Request Z) (policy : P) : Outcome (Result unit SubjectKey) :=
  if rq_rest request =? 0 then Done (Err tt) else Done (Ok (mkSubjectKey (example_digest (rq_rest request)))).
Definition example_rejection (r : RateLimitRejection unit (CheckError unit)) : Outcome RejectionKind :=
  Done (kind r).

Notation example_fixed_traffic := (Traffic PostgresLimiter (PgEnv unit FixedDb (FixedQuery unit)) FixedWindowPolicy
  (CheckError unit) (pg_call (E := unit)) (Request Z -> FixedWindowPolicy -> Outcome (Result unit SubjectKey))
  Z unit RejectionKind).

(** A request of [subject] to one of the layers, by a network that loses
    every reply after the first [kept]. *)
Definition example_arrival (now : Z) (kept : nat) (subject : Z) : timed example_fixed_traffic :=
  mkTimed now now (Through (mkArrival PostgresLimiter_new (check_policy (example_pg_check 0 1 1))
    example_subject example_rejection Kind_Denied (example_lossy_env now kept) (mkRequest subject None))).

Lemma example_request_checks subject :
  request_checks (check_policy (example_pg_check 0 1 1)) example_subject (mkRequest subject None)
  = if subject =? 0 then [] else [example_pg_check 0 subject 1].
Proof. unfold request_checks, example_subject. cbn. by destruct (subject =? 0). Qed.

(** What is asked of a piece of traffic. *)
Definition example_in_order (t : timed example_fixed_traffic) : Prop :=
  traffic_ok (H := shared_limiter example_sha256) (H1 := shared_tables example_sha256) (tm_what t)
  /\ Forall (fun call => call_ok call
       /\ Forall (pg_keyed (Check_counter_key (example_pg_check 0 1 1)) 3 1000000) (call_checks call))
       (traffic_calls (H := shared_limiter example_sha256) (H1 := shared_tables example_sha256) (tm_what t)).

Lemma example_arrival_in_order now kept subject :
  is_byte subject -> example_in_order (example_arrival now kept subject).
Proof.
  intros Hs. unfold example_in_order, traffic_ok, traffic_calls, arrival_checks. cbn [tm_what example_arrival
    ar_policy ar_extractor ar_request ar_limiter ar_env]. rewrite example_request_checks.
  assert (Hok : check_ok (example_pg_check 0 subject 1)) by (apply example_pg_check_ok; unfold is_byte in *; lia).
  destruct (subject =? 0); (split; [split; [done|]|]); [apply Forall_nil_2..| |].
  - by apply Forall_singleton.
  - apply Forall_singleton. split; [split; [apply PostgresConfig_new_wf|cbn; unfold_widths; lia|]|];
      by apply Forall_singleton.
Qed.

Definition example_fleet : list (timed example_fixed_traffic) :=
  [example_arrival 0 20 1; example_arrival 10 19 1; example_arrival 15 20 0;
   mkTimed 20 20 (Direct (tc_call (example_timed 20 20 1)));
   example_arrival 30 20 1; example_arrival 40 20 2; example_arrival 1000050 20 1].

Lemma example_fleet_in_order : Forall example_in_order example_fleet.
Proof.
  repeat (apply Forall_cons; split); [..|apply Forall_nil_2];
    try (apply example_arrival_in_order; unfold is_byte; lia).
  split; [done|]. apply Forall_singleton, (example_timed_ok (example_timed 20 20 1)).
  by right; right; left.
Qed.

(** C13 witness: a request enters; one is turned away by a lost
    acknowledgement; one names no subject; a direct check is admitted; the
    window is full, but not for another subject; the next window opens. *)
Lemma pg_axum_traffic_bound_witness :
  let '(db, entered) := fixed_traffic example_sha256 (Check_counter_key (example_pg_check 0 1 1)) FixedDb_new []
                          example_fleet in
  entered = [(1000050, 1000050, 1); (20, 20, 1); (0, 0, 1)]
  /\ forall a, reported_in a (a + 1000000) entered <= 6.
Proof.
  pose proof (pg_axum_traffic_bound example_sha256 (Check_counter_key (example_pg_check 0 1 1))
    3 1000000 0 example_fleet ltac:(lia) ltac:(lia)) as Hbound.
  assert (Hentered : (fixed_traffic example_sha256 (Check_counter_key (example_pg_check 0 1 1)) FixedDb_new []
    example_fleet).2 = [(1000050, 1000050, 1); (20, 20, 1); (0, 0, 1)]) by (vm_compute; reflexivity).
  destruct (fixed_traffic _ _ _ _ _) as [db entered]. cbn [snd] in Hentered.
  split; [exact Hentered|]. intros a.
  destruct Hbound as (charges & newest & _ & _ & Hall).
  - apply (Forall_impl example_in_order); [exact example_fleet_in_order|by intros t []].
  - apply (Forall_impl example_in_order); [exact example_fleet_in_order|by intros t []].
  - cbn [traffic_clocked tm_from tm_until example_arrival example_fleet].
    repeat split; try lia; first [apply Forall_nil_2|apply Forall_singleton, example_lossy_served].
  - apply Hall.
Defined.

Notation example_gcra_front := (Traffic PostgresGcra.PostgresGcraLimiter
  (PgEnv unit PostgresGcra.GcraDb (PostgresGcra.GcraQuery unit)) GcraPolicy (CheckError unit) (gcra_call unit)
  (Request Z -> GcraPolicy -> Outcome (Result unit SubjectKey)) Z unit RejectionKind).

Definition example_gcra_arrival (now : Z) (kept : nat) (subject : Z) : timed example_gcra_front :=
  mkTimed now now (Through (mkArrival PostgresGcra.new (check_policy (example_gcra_pg_check 0 1 1))
    example_subject example_rejection Kind_Denied (example_gcra_lossy now kept) (mkRequest subject None))).

Definition example_gcra_fleet : list (timed example_gcra_front) :=
  [example_gcra_arrival 1000 20 1; example_gcra_arrival 1000 19 1; example_gcra_arrival 1001 20 0;
   mkTimed 1002 1002 (Direct (tg_call (example_timed_gcra 1002 20 3))); example_gcra_arrival 900 20 1;
   example_gcra_arrival 1200 20 1].

Lemma example_gcra_request_checks subject :
  request_checks (check_policy (example_gcra_pg_check 0 1 1)) example_subject (mkRequest subject None)
  = if subject =? 0 then [] else [example_gcra_pg_check 0 subject 1].
Proof. unfold request_checks, example_subject. cbn. by destruct (subject =? 0). Qed.

Definition example_gcra_in_order (t : timed example_gcra_front) : Prop :=
  traffic_ok (H := shared_gcra_limiter) (H1 := shared_gcra_tables) (tm_what t)
  /\ Forall (fun call => gcra_call_ok example_gcra_policies 10000 call
       /\ Forall (gcra_own (Check_counter_key (example_gcra_pg_check 0 1 1)) 10 1000 5) (gcra_checks (tg_call call)))
       (gcra_calls t).

Lemma example_gcra_arrival_in_order now kept subject :
  is_byte subject -> now <= 10000 -> example_gcra_in_order (example_gcra_arrival now kept subject).
Proof.
  intros Hs Hnow. unfold example_gcra_in_order, gcra_calls, traffic_ok, traffic_calls, arrival_checks.
  cbn [tm_what tm_from tm_until example_gcra_arrival ar_policy ar_extractor ar_request ar_limiter ar_env].
  rewrite example_gcra_request_checks.
  destruct (subject =? 0); (split; [split; [done|]|]); [apply Forall_nil_2..| |].
  - by apply Forall_singleton.
  - apply Forall_singleton. split.
    + split; [apply PostgresConfig_new_wf| |done|apply example_gcra_lossy_served].
      apply Forall_singleton, example_gcra_pg_check_ok; unfold is_byte in *; lia.
    + by apply Forall_singleton.
Qed.

Lemma example_gcra_fleet_in_order : Forall example_gcra_in_order example_gcra_fleet.
Proof.
  repeat (apply Forall_cons; split); [..|apply Forall_nil_2];
    try (apply example_gcra_arrival_in_order; [unfold is_byte|]; lia).
  split; [done|]. apply Forall_singleton. split.
  - split; [apply PostgresConfig_new_wf| |done|apply example_gcra_lossy_served].
    apply Forall_singleton, example_gcra_pg_check_ok; unfold is_byte; lia.
  - by apply Forall_singleton.
Qed.

(** C14 witness: a request enters; one is turned away by a lost
    acknowledgement though its commit took effect; one names no subject; a
    direct check takes the rest of the burst; a request meets a server whose
    clock went back; and a later one enters. *)
Lemma pg_axum_gcra_bound_witness :
  let '(T, db, entered) := gcra_traffic (Check_counter_key (example_gcra_pg_check 0 1 1)) 0
                             PostgresGcra.GcraDb_new [] example_gcra_fleet in
  entered = [(1200, 1200, 1); (1002, 1002, 3); (1000, 1000, 1)]
  /\ forall a e, a <= e -> reported_in a e entered * 1000 <= 5 * 1000 + (e - a) * 10.
Proof.
  pose proof (pg_axum_gcra_bound example_gcra_policies 10000 (Check_counter_key (example_gcra_pg_check 0 1 1))
    10 1000 5 example_gcra_fleet ltac:(rewrite MAX_WINDOW_MILLIS_val; unfold_widths; lia) ltac:(lia) ltac:(lia)
    ltac:(lia) ltac:(lia)) as Hbound.
  assert (Hentered : (gcra_traffic (Check_counter_key (example_gcra_pg_check 0 1 1)) 0
    PostgresGcra.GcraDb_new [] example_gcra_fleet).2 = [(1200, 1200, 1); (1002, 1002, 3); (1000, 1000, 1)])
    by (vm_compute; reflexivity).
  destruct (gcra_traffic _ _ _ _ _) as [[T db] entered]. cbn [snd] in Hentered.
  split; [exact Hentered|]. intros a e Hae.
  destruct Hbound as (charges & _ & Hall).
  - apply (Forall_impl example_gcra_in_order); [exact example_gcra_fleet_in_order|by intros t []].
  - apply (Forall_impl example_gcra_in_order); [exact example_gcra_fleet_in_order|by intros t []].
  - by apply Hall.
Defined.
